(* ===== verification/_CoqProject ===== *)
-Q . S2P
Prelude.v
Deque.v
Ringbuffer.v
Double.v
Probe.v
Table.v
TableRelocate.v
TableSpec.v
Hash.v
TableMap.v
Bytes.v
Json.v
Socket.v
SocketSpec.v
SocketStream.v
SocketProps.v
SocketWf.v
WebSocket.v
Log.v
State.v
Client.v
Invariant.v
ClientSpec.v
ClientPush.v
ClientDeliver.v
Inbox.v
Sound.v
ClientSend.v
ClientQueue.v
ClientGone.v
ClientGroups.v
ClientHello.v
Server.v
SocketLife.v
ServerSpec.v
ServerProps.v
ServerLoop.v
Demo.v
ClientProps.v
ServerRuns.v
Answers.v
Setup.v
SetupProps.v
Ev.v
EvLoop.v
Main.v
MainProps.v
Program.v
Journey.v
Mail.v
Addr.v
Matlab.v
