(* ===== verification/Prelude.v ===== *)
(** * The DiME server, verified

    DiME is a message server: clients connect by Unix, TCP or WebSocket
    connections, join named groups, and send messages, a JSON text with binary
    data, to groups or to everybody. The server queues the messages until
    their receivers ask for them. This library models the C code of the
    repository, the server ([server/*.c]) and the helpers of the MATLAB client
    ([client/matlab/*.c]), and proves what it does.

    ** The parts of the program and their files

    - [Deque]: the queue of a client ([deque.c]). [Ringbuffer]: the in- and
      outbuffers ([ringbuffer.c]). [Probe], [Double], [Table], [TableRelocate],
      [TableSpec], [TableMap]: the hash table with its recursive rehash in place
      ([table.c]); [Hash]: its keys ([cmp_fd] to [hash_name] of [server.c]). The
      load factors are compared in double precision, as the code does.
    - [Bytes], [Socket]: sockets, that is buffering, the message header,
      WebSocket frames, partial sends and receives, the switch to TLS
      ([socket.c]). [WebSocket]: the opening handshake, [dime_socket_init_ws].
    - [State], [Client]: the records of [client.h] and [server.h] and all of
      [client.c]: clients, groups, reference-counted messages and the
      eight commands with their error paths.
    - [Server]: start-up, the command dispatch and the loop around [select]
      ([server.c]). [handle_fd] is the body of the loop over the descriptors,
      [server_turn] one turn of the outer loop, [dime_server_loop] the whole.
      [Setup]: [dime_server_add] and [dime_server_destroy]. [Ev], [EvLoop]: the
      callbacks of the build with libev, its [dime_server_loop] and its watchers,
      of which a socket knows the state ([so_ev]).
    - [Main]: [main.c], the options, what [main] sets up for them, and the
      process as a whole, [program].
    - [Matlab]: the four MEX functions of the MATLAB client.
    - [Log]: the lines of the log ([log.c]). [Addr]: the text of the address of
      a client, which only the log shows.
    - [Json]: the library jansson, which is not part of the repository, as a
      type class of its calls, and one instance for examples.

    Clients, groups and messages live in a store and refer to each other by
    their addresses; arrays, queues and tables hold these addresses, so that
    sharing, dangling pointers and double frees are visible. Computations are
    in the monad [M] of [State]: state passing over [outcome], whose [Undef] is
    undefined behaviour (an access out of bounds or through a dangling
    pointer, a reference dropped twice, a failed assertion) and whose [Diverge] is lack of fuel. Memory may
    run out at any point: an [oracle] says which allocations succeed.
    Machine integers are [Z] with their wrap-around written out ([u64], [u32]).

    ** What is shown

    - The data structures implement lists, byte streams and finite maps
      ([deque_trace_refines], [ringbuffer_trace_refines],
      [table_trace_refines]); their iterations are folds; the rehash ends. For
      queues and buffers the specification is a function on a list and a
      capacity, which asks the allocator for exactly the block the code asks
      for and fails only if that is refused.
    - Messages sent in any pieces over a socket arrive complete and in order
      ([socket_end_to_end], [websocket_receive], [websocket_push_frame]);
      reading them ends whatever bytes arrive, unless a size in them wraps
      ([socket_pop_ends]); the opening handshake answers every request for an
      upgrade ([asks_upgrade]) as RFC 6455 says ([rfc_response]), refuses every
      other request of the form of HTTP ([websocket_handshake]), and its loop
      stays inside its buffer. Every
      socket the program can come to is well formed ([socket_stays_wf]), and the
      switch to TLS sends the bytes that are left first ([tls_flushes]); both are
      in [SocketLife].
    - Every command does what it promises to queues, memberships and
      connections, and on an error to none but those listed ([ClientProps]);
      an error comes only for the stated reasons ([can_shake], [can_list]).
      [commands_are_answered] in [Answers] says what the client that gave
      a command is told: status 0 or the true reason of the error, and for
      [wait] and [sync] the number of messages and the messages.
      The proofs use rules of a unary program logic, [wp], whose triples also say
      that the command returns. The files [ClientPush] to [ClientHello] hold the
      rules of the functions the commands consist of.
    - [Invariant] is the invariant of the server: reference counts are the
      numbers of queues that hold a message, clients and groups agree, the
      tables hold exactly the clients and groups. [Sound] restates it in the
      terms of the code, [runs_are_sound] shows it of all runs. [ServerProps]
      has the runs as a relation of labelled steps ([labelled_step],
      [server_trace]) and an abstract server that knows only
      queued messages and memberships; [runs_refine] is the simulation.
      [ServerLoop] and [server_loop_steps] show that every turn of the loop
      ends and that the loop is such a run.
    - [message_arrives] in [Journey] puts the parts together: what one client
      sends to a group is what a member reads from the network, in order.
      [mail_is_delivered] in [Mail] is about any trace of steps: what comes to
      the queue of a client is exactly what was addressed to it, in order, and
      its next [sync] brings all of that to the other end of its connection, be
      it a stream of messages or of WebSocket frames.
      [matlab_session] does so for the MATLAB client and a socket of the server.
    - [main] reads its options as they are printed ([command_line_read]) and has
      then exactly the listening sockets they ask for ([asks]), or stops at the
      first that asks for none or for which the system or the allocator gives
      none ([main_sets_up], [server_add_appends]); [server_destroy_frees] leaves nothing behind, and
      neither does the process as a whole, of either build ([program_cleans_up]).
    - [libev_agrees] compares the callbacks of the build with libev with the
      loop around [select]; [ev_loop_serves] shows that its runs are runs of the
      same steps and that it never forgets a connection with bytes to send.
    - Where the code does not do what it means to, a theorem says what it does:
      [full_queue_leaks], [send_long_name_overflows], [pop_frame_wraps],
      [pop_size_wraps], [push_loses_text], [handshake_defects],
      [insert_duplicate_after_remove], [deque_popr_reads],
      [ev_malformed_spins], [command_line_unchecked],
      [addresses_are_complete].

    ** Bounds and fuel

    No block of memory is larger than [MAXOBJ], 2^47 bytes, the address space
    of a process. [grants o limit] says that memory up to a limit is there;
    theorems without it hold however the allocator answers. Loops take as fuel
    what they cannot exceed: the capacity of an array, the bytes in a buffer
    ([serve_fuel]), the messages in a queue; that this is enough is part of
    every theorem that says that an operation returns. Only the number of calls
    of [recv] in the opening handshake is not bounded by the program: it calls
    [recv] until the request is complete or there is an error, for ever if the
    client closes the connection. The theorems about loops assume of a WebSocket
    client that it sends an HTTP request, in any pieces, or breaks off with an
    error ([ws_peer]); that the handshake then ends is proved
    ([init_ws_returns]).

    The premises of the theorems on commands ([command_ok], [devices_ok]) exclude
    what the code does not check: names too long for the error string, tables
    near the limit of memory, allocations that fail while a receiver is woken up
    or a table grows, and a library that cannot append the name of a group to an
    array or pack it, where [dime_client_devices] drops a reference twice. Those
    on the loops ([loop_ok], [iterations_ok]) exclude besides descriptors of
    FD_SETSIZE and more, headers whose lengths wrap ([sizes_fit]), and closing
    a connection whose queue is exactly full.

    ** What is not modelled

    The calls of the log, which depend on the verbosity; the error texts that
    only the log shows, and the text of the help; signals that arrive while the
    server is not waiting; the loop around [poll] at the end of [server.c], which
    is disabled by [#if 0]; the destructors that only free one array; zlib, which
    is never enabled; OpenSSL, libev, jansson, MATLAB's interface and the system
    calls, whose answers are arguments; clients in other languages. *)

From stdpp Require Export base list option strings gmap.
From Stdlib Require Export ZArith Lia.

#[global] Open Scope Z_scope.
Set Default Goal Selector "!".

(** ** Outcomes of C code

    A C computation returns a value, has undefined behaviour (an access out
    of bounds, through a dangling pointer, of an indeterminate cell, or a
    failed [assert]), or exhausts the fuel given to one of its loops. *)

Inductive outcome (A : Type) : Type :=
  | Ret (a : A)
  | Undef
  | Diverge.
Arguments Ret {A} a.
Arguments Undef {A}.
Arguments Diverge {A}.

#[export] Instance outcome_ret : MRet outcome := @Ret.
#[export] Instance outcome_bind : MBind outcome := λ A B f m,
  match m with Ret a => f a | Undef => Undef | Diverge => Diverge end.
#[export] Instance outcome_fmap : FMap outcome := λ A B f m,
  match m with Ret a => Ret (f a) | Undef => Undef | Diverge => Diverge end.

(** [returns m P]: the computation [m] terminates without undefined
    behaviour and its result satisfies [P]. *)
Definition returns {A} (m : outcome A) (P : A → Prop) : Prop :=
  match m with Ret a => P a | _ => False end.

Lemma returns_ret {A} (a : A) (P : A → Prop) : P a → returns (Ret a) P.
Proof. done. Qed.

Lemma returns_bind {A B} (m : outcome A) (f : A → outcome B) P Q :
  returns m P → (∀ a, P a → returns (f a) Q) → returns (m ≫= f) Q.
Proof. destruct m; simpl; [auto|done|done]. Qed.

Lemma returns_mono {A} (m : outcome A) (P Q : A → Prop) :
  returns m P → (∀ a, P a → Q a) → returns m Q.
Proof. destruct m; simpl; auto. Qed.

Lemma returns_eq {A} (m : outcome A) (P : A → Prop) :
  returns m P ↔ ∃ a, m = Ret a ∧ P a.
Proof. split; [destruct m; simpl; eauto; done|]. intros (a & -> & ?); done. Qed.

Lemma bind_ret_inv {A B} (m : outcome A) (f : A → outcome B) b :
  m ≫= f = Ret b → ∃ a, m = Ret a ∧ f a = Ret b.
Proof. destruct m; simpl; eauto; done. Qed.

(** Every way in which a computation returns. *)
Ltac unfold_ret :=
  repeat first
    [ done
    | match goal with
      | H : (_ ≫= _) = Ret _ |- _ => apply bind_ret_inv in H as (? & ? & H)
      | H : Ret _ = Ret _ |- _ => injection H as H; subst
      | H : (_, _) = (_, _) |- _ => injection H as H; subst
      | H : context [match ?x with _ => _ end] |- _ => destruct x; simpl in H
      end ].

(** The body of an unbounded loop: [go] runs [step] until it answers with a
    result, at most [fuel] times. *)
Fixpoint loop {S A} (step : S → outcome (S + A)) (fuel : nat) (s : S) : outcome A :=
  match fuel with
  | O => Diverge
  | S fuel =>
      r ← step s;
      match r with inl s' => loop step fuel s' | inr a => Ret a end
  end.

(** A loop that goes through the states [s 0], ..., [s j] and then stops. *)
Lemma loop_iter {S A} (step : S → outcome (S + A)) (s : nat → S) (r : A) (j fuel : nat) :
  (∀ j', (j' < j)%nat → step (s j') = Ret (inl (s (1 + j')%nat))) →
  step (s j) = Ret (inr r) → (j < fuel)%nat → loop step fuel (s 0%nat) = Ret r.
Proof.
  revert s fuel. induction j as [|j IH]; intros s [|fuel] Hs Hj Hf; try lia; simpl.
  - by rewrite Hj.
  - rewrite (Hs 0%nat) by lia. simpl.
    apply (IH (λ n, s (1 + n)%nat)); [|done|lia]. intros j' ?. apply Hs. lia.
Qed.

(** What every turn of a loop keeps, its result has. *)
Lemma loop_keeps {S A} (step : S → outcome (S + A)) (I : S → Prop) (Q : A → Prop) fuel :
  (∀ s s', I s → step s = Ret (inl s') → I s') →
  (∀ s a, I s → step s = Ret (inr a) → Q a) →
  ∀ s a, I s → loop step fuel s = Ret a → Q a.
Proof.
  intros Hgo Hend. induction fuel as [|fuel IH]; intros s a Hs; [done|]. cbn [loop].
  intros (r & Hr & Ha)%bind_ret_inv. destruct r as [s'|a']; [by eapply IH, Ha; eapply Hgo|].
  injection Ha as <-. by eapply Hend.
Qed.

(** The least index at which a decidable property holds. *)
Lemma least_nat (P : nat → Prop) `{∀ n, Decision (P n)} n :
  P n → ∃ j, (j ≤ n)%nat ∧ P j ∧ ∀ j', (j' < j)%nat → ¬ P j'.
Proof.
  induction (lt_wf n) as [n _ IH]. intros Hn.
  destruct (decide (Exists P (seq 0 n))) as [Hex|Hex].
  - apply Exists_exists in Hex as (x & Hx%elem_of_seq & HP).
    destruct (IH x ltac:(lia) HP) as (j & ? & ? & ?). exists j. split; [lia|done].
  - exists n. split; [lia|]. split; [done|]. intros j' Hj' HP. apply Hex, Exists_exists.
    exists j'. split; [apply elem_of_seq; lia|done].
Qed.

(** A fold over a list whose body may go wrong. *)
Fixpoint foldo {A P} (f : A → P → outcome P) (xs : list A) (p : P) : outcome P :=
  match xs with
  | [] => Ret p
  | x :: xs => p ← f x p; foldo f xs p
  end.

(** A fold that stops at the first element whose callback says so. *)
Fixpoint fold_while {A P} (f : A → P → P * bool) (xs : list A) (p : P) : P :=
  match xs with
  | [] => p
  | x :: xs => let (p, go) := f x p in if go : bool then fold_while f xs p else p
  end.

(** ** Machine integers: [size_t] and [uint64_t] (64 bits), [uint32_t] *)

Definition u64 (z : Z) : Z := z mod 2 ^ 64.
Definition u32 (z : Z) : Z := z mod 2 ^ 32.
Definition SIZE_MAX : Z := 2 ^ 64 - 1.

Lemma u64_small z : 0 ≤ z < 2 ^ 64 → u64 z = z.
Proof. apply Z.mod_small. Qed.
Lemma u32_small z : 0 ≤ z < 2 ^ 32 → u32 z = z.
Proof. apply Z.mod_small. Qed.
Lemma u64_range z : 0 ≤ u64 z < 2 ^ 64.
Proof. by apply Z.mod_pos_bound. Qed.
Lemma u32_range z : 0 ≤ u32 z < 2 ^ 32.
Proof. by apply Z.mod_pos_bound. Qed.

(** [lia] with integer division and modulus by constants. *)
Ltac dlia := Z.to_euclidean_division_equations; lia.

(** Removes every [u64]/[u32] whose argument is in range. *)
Ltac unwrap :=
  repeat match goal with
  | |- context [u64 ?z] => rewrite (u64_small z) by (lia || dlia)
  | H : context [u64 ?z] |- _ => rewrite (u64_small z) in H by (lia || dlia)
  | |- context [u32 ?z] => rewrite (u32_small z) by (lia || dlia)
  | H : context [u32 ?z] |- _ => rewrite (u32_small z) in H by (lia || dlia)
  end.

(** ** Allocation

    [malloc] and [realloc] either fail or give an object. An allocator is
    what one call of them answers for a size in bytes; no object is larger
    than the user address space of the machine, [2^47] bytes on x86-64. *)

Abbreviation allocator := (Z → bool).
Definition MAXOBJ : Z := 2 ^ 47.
Definition alloc_sane (al : allocator) : Prop := ∀ n, al n = true → n ≤ MAXOBJ.

(** The allocations of a run are indexed by where they happen: the [n]-th
    call site or turn of a loop of a function that runs under the oracle [o]
    runs under [sub o n], and [at_ o n] is what its allocation answers. No
    two allocations of a run share an index, so an oracle can answer each of
    them as it likes. *)
Abbreviation oracle := (list nat → allocator).
Definition at_ (o : oracle) (n : nat) : allocator := o [n].
Definition sub (o : oracle) (n : nat) : oracle := λ p, o (n :: p).
Definition oracle_sane (o : oracle) : Prop := ∀ p, alloc_sane (o p).
(** Every allocation of at most [limit] bytes succeeds. *)
Definition grants (o : oracle) (limit : Z) : Prop := ∀ p n, n ≤ limit → o p n = true.

Lemma oracle_sane_sub o n : oracle_sane o → oracle_sane (sub o n).
Proof. intros Ho p. apply Ho. Qed.
Lemma oracle_sane_at o n : oracle_sane o → alloc_sane (at_ o n).
Proof. intros Ho. apply Ho. Qed.
Lemma grants_sub o n limit : grants o limit → grants (sub o n) limit.
Proof. intros Ho p. apply Ho. Qed.
Create HintDb oracle.
#[export] Hint Resolve oracle_sane_sub oracle_sane_at grants_sub : oracle.

(** ** C arrays

    An array object is the list of its cells; [None] is an indeterminate
    cell. Indices are integers, so that an index that wrapped around is out
    of bounds like any other. *)

Abbreviation carray A := (list (option A)).

Definition zlen {A} (l : list A) : Z := Z.of_nat (length l).
Definition zget {A} (l : list A) (i : Z) : option A :=
  if decide (0 ≤ i) then l !! Z.to_nat i else None.

Definition aread {A} (arr : carray A) (i : Z) : outcome A :=
  match zget arr i with Some (Some x) => Ret x | _ => Undef end.

Definition awrite {A} (arr : carray A) (i : Z) (x : A) : outcome (carray A) :=
  if decide (0 ≤ i < zlen arr) then Ret (<[Z.to_nat i := Some x]> arr) else Undef.

(** [memcpy]/[memmove] of [n] cells from [src + soff] to [dst + doff]. *)
Definition blit {A} (src : carray A) (soff : Z) (dst : carray A) (doff n : Z)
    : outcome (carray A) :=
  if decide (0 ≤ n ∧ 0 ≤ soff ∧ soff + n ≤ zlen src ∧ 0 ≤ doff ∧ doff + n ≤ zlen dst)
  then Ret (take (Z.to_nat doff) dst
            ++ take (Z.to_nat n) (drop (Z.to_nat soff) src)
            ++ drop (Z.to_nat (doff + n)) dst)
  else Undef.

(** The [n] cells of [arr] from [off] on, none of them indeterminate. *)
Definition slice {A} (arr : carray A) (off n : Z) : outcome (list A) :=
  if decide (0 ≤ n ∧ 0 ≤ off ∧ off + n ≤ zlen arr) then
    match mapM id (take (Z.to_nat n) (drop (Z.to_nat off) arr)) with
    | Some l => Ret l
    | None => Undef
    end
  else Undef.

Definition malloc {A} (al : allocator) (bytes width : Z) : option (carray A) :=
  if al bytes then Some (replicate (Z.to_nat (bytes / width)) None) else None.

(** [realloc] of an array whose elements are [width] bytes wide. *)
Definition realloc {A} (al : allocator) (arr : carray A) (bytes width : Z)
    : option (carray A) :=
  if al bytes then Some (resize (Z.to_nat (bytes / width)) None arr) else None.

Section arrays.
Context {A : Type}.
Implicit Types (l : list A) (arr : carray A) (i j n : Z) (x : A).

Lemma zlen_nonneg l : 0 ≤ zlen l.
Proof. unfold zlen; lia. Qed.
Lemma zlen_nil : zlen (@nil A) = 0.
Proof. done. Qed.
Lemma zlen_cons x l : zlen (x :: l) = 1 + zlen l.
Proof. unfold zlen; simpl; lia. Qed.
Lemma zlen_app l1 l2 : zlen (l1 ++ l2) = zlen l1 + zlen l2.
Proof. unfold zlen; rewrite length_app; lia. Qed.

Lemma zget_nat l (k : nat) : zget l (Z.of_nat k) = l !! k.
Proof. unfold zget. rewrite decide_True by lia. by rewrite Nat2Z.id. Qed.
Lemma zget_Some_lt l i x : zget l i = Some x → 0 ≤ i < zlen l.
Proof.
  unfold zget, zlen. case_decide; [|done]. intros ?%lookup_lt_Some; lia.
Qed.
Lemma zget_is_Some l i : 0 ≤ i < zlen l → ∃ x, zget l i = Some x.
Proof.
  unfold zget, zlen. intros. rewrite decide_True by lia.
  apply lookup_lt_is_Some_2. lia.
Qed.
Lemma zget_None l i : i < 0 ∨ zlen l ≤ i → zget l i = None.
Proof.
  unfold zget, zlen. intros. case_decide; [|done].
  apply lookup_ge_None_2. lia.
Qed.
Lemma zget_cons_0 x l : zget (x :: l) 0 = Some x.
Proof. done. Qed.
Lemma zget_cons_S x l i : 0 < i → zget (x :: l) i = zget l (i - 1).
Proof.
  intros. unfold zget. rewrite !decide_True by lia.
  by replace (Z.to_nat i) with (S (Z.to_nat (i - 1))) by lia.
Qed.
Lemma zget_app_l l1 l2 i : i < zlen l1 → zget (l1 ++ l2) i = zget l1 i.
Proof.
  unfold zget, zlen. intros. case_decide; [|done]. apply lookup_app_l. lia.
Qed.
Lemma zget_app_r l1 l2 i : zlen l1 ≤ i → zget (l1 ++ l2) i = zget l2 (i - zlen l1).
Proof.
  unfold zget, zlen. intros. rewrite !decide_True by lia.
  rewrite lookup_app_r by lia. f_equal. lia.
Qed.
Lemma zget_ext l1 l2 :
  zlen l1 = zlen l2 → (∀ i, 0 ≤ i < zlen l1 → zget l1 i = zget l2 i) → l1 = l2.
Proof.
  unfold zlen. intros Hlen H. apply list_eq_same_length with (length l1); [lia|done|].
  intros k x y Hk Hx Hy. specialize (H (Z.of_nat k) ltac:(lia)).
  rewrite !zget_nat in H. congruence.
Qed.
Lemma zget_take l n i : 0 ≤ i < n → zget (take (Z.to_nat n) l) i = zget l i.
Proof.
  unfold zget. intros. rewrite !decide_True by lia. apply lookup_take_lt. lia.
Qed.
Lemma zget_drop l n i : 0 ≤ n → 0 ≤ i → zget (drop (Z.to_nat n) l) i = zget l (n + i).
Proof.
  unfold zget. intros. rewrite !decide_True by lia. rewrite lookup_drop.
  f_equal. lia.
Qed.
Lemma zlen_take l n : zlen (take (Z.to_nat n) l) = Z.min (Z.max 0 n) (zlen l).
Proof. unfold zlen. rewrite length_take. lia. Qed.
Lemma zlen_drop l n : 0 ≤ n → zlen (drop (Z.to_nat n) l) = Z.max 0 (zlen l - n).
Proof. unfold zlen. rewrite length_drop. lia. Qed.
End arrays.

Create HintDb zlen.
#[export] Hint Rewrite @zlen_nil @zlen_cons @zlen_app : zlen.

(** Linear arithmetic on list lengths. *)
Ltac zlia :=
  autorewrite with zlen in *;
  repeat match goal with
  | |- context [zlen ?l] =>
      lazymatch goal with H : 0 ≤ zlen l |- _ => fail | _ => pose proof (zlen_nonneg l) end
  | _ : context [zlen ?l] |- _ =>
      lazymatch goal with H : 0 ≤ zlen l |- _ => fail | _ => pose proof (zlen_nonneg l) end
  end; lia.

Section array_ops.
Context {A : Type}.
Implicit Types (arr : carray A) (i j n : Z) (x : A).

Lemma aread_Some arr i x : zget arr i = Some (Some x) → aread arr i = Ret x.
Proof. unfold aread. by intros ->. Qed.

Lemma awrite_spec arr i x :
  0 ≤ i < zlen arr →
  returns (awrite arr i x) (λ arr', zlen arr' = zlen arr ∧
    ∀ j, zget arr' j = if decide (j = i) then Some (Some x) else zget arr j).
Proof.
  intros Hi. unfold awrite. rewrite decide_True by done. simpl.
  unfold zlen, zget in *. rewrite length_insert. split; [done|].
  intros j. case_decide; [|by rewrite decide_False by lia].
  case_decide; [subst; apply list_lookup_insert_eq; lia|].
  apply list_lookup_insert_ne. lia.
Qed.

Lemma blit_spec (src dst : carray A) soff doff n :
  0 ≤ n → 0 ≤ soff → soff + n ≤ zlen src → 0 ≤ doff → doff + n ≤ zlen dst →
  returns (blit src soff dst doff n) (λ arr', zlen arr' = zlen dst ∧
    ∀ j, zget arr' j =
      if decide (doff ≤ j < doff + n) then zget src (j - doff + soff) else zget dst j).
Proof.
  intros. unfold blit. rewrite decide_True by lia. simpl.
  rewrite !zlen_app, !zlen_take, !zlen_drop by lia.
  split; [lia|]. intros j.
  destruct (decide (j < 0)).
  { rewrite decide_False by lia. by rewrite !zget_None by lia. }
  destruct (decide (j < doff)).
  { rewrite decide_False by lia. rewrite zget_app_l by (rewrite zlen_take; lia).
    by rewrite zget_take by lia. }
  rewrite zget_app_r by (rewrite zlen_take; lia). rewrite zlen_take.
  replace (j - _) with (j - doff) by lia.
  destruct (decide (j < doff + n)).
  - rewrite decide_True by lia.
    rewrite zget_app_l by (rewrite zlen_take, zlen_drop; lia).
    rewrite zget_take, zget_drop by lia. f_equal. lia.
  - rewrite decide_False by lia.
    rewrite zget_app_r by (rewrite zlen_take, zlen_drop; lia).
    rewrite zlen_take, zlen_drop by lia.
    rewrite zget_drop by lia. f_equal. lia.
Qed.

Lemma slice_spec arr off (xs : list A) :
  0 ≤ off → off + zlen xs ≤ zlen arr →
  (∀ k x, zget xs k = Some x → zget arr (off + k) = Some (Some x)) →
  slice arr off (zlen xs) = Ret xs.
Proof.
  intros Hoff Hlen H. unfold slice. pose proof (zlen_nonneg xs).
  rewrite decide_True by lia.
  assert (take (Z.to_nat (zlen xs)) (drop (Z.to_nat off) arr) = Some <$> xs) as ->.
  { apply zget_ext.
    - rewrite zlen_take, zlen_drop by lia. unfold zlen. rewrite length_fmap.
      unfold zlen in *. lia.
    - intros i Hi. rewrite zlen_take, zlen_drop in Hi by lia.
      rewrite zget_take, zget_drop by lia.
      destruct (zget_is_Some xs i) as [x Hx]; [lia|]. rewrite (H _ _ Hx).
      unfold zget in *. destruct (decide (0 ≤ i)); [|done].
      by rewrite list_lookup_fmap, Hx. }
  by rewrite mapM_fmap_Some.
Qed.

Lemma zlen_realloc al arr bytes width arr' :
  0 ≤ bytes → 0 < width → realloc al arr bytes width = Some arr' →
  zlen arr' = bytes / width.
Proof.
  unfold realloc, zlen. intros. case_match; simplify_eq.
  rewrite length_resize. pose proof (Z.div_pos bytes width). lia.
Qed.
Lemma zget_realloc al arr bytes width arr' i :
  zlen arr ≤ bytes / width → realloc al arr bytes width = Some arr' →
  0 ≤ i < zlen arr → zget arr' i = zget arr i.
Proof.
  unfold realloc, zlen, zget. intros. case_match; simplify_eq.
  rewrite !decide_True by lia.
  rewrite lookup_resize by lia. done.
Qed.
End array_ops.

(** ** Lists indexed by integers, updated in place *)

Definition zset {A} (l : list A) (i : Z) (x : A) : list A :=
  if decide (0 ≤ i) then <[Z.to_nat i := x]> l else l.

Section zset.
Context {A : Type}.
Implicit Types (l : list A) (i j : Z) (x y : A).

Lemma zlen_zset l i x : zlen (zset l i x) = zlen l.
Proof. unfold zset, zlen. case_decide; [|done]. by rewrite length_insert. Qed.
Lemma zget_zset_eq l i x : 0 ≤ i < zlen l → zget (zset l i x) i = Some x.
Proof.
  unfold zget, zset, zlen. intros. rewrite !decide_True by lia.
  apply list_lookup_insert_eq. lia.
Qed.
Lemma zget_zset_ne l i j x : i ≠ j → zget (zset l i x) j = zget l j.
Proof.
  unfold zget, zset. intros. repeat case_decide; try done.
  apply list_lookup_insert_ne. lia.
Qed.
Lemma zset_id l i x : zget l i = Some x → zset l i x = l.
Proof. unfold zget, zset. case_decide; [|done]. apply list_insert_id. Qed.
Lemma zset_zset l i x y : zset (zset l i x) i y = zset l i y.
Proof. unfold zset. case_decide; [|done]. apply list_insert_insert_eq. Qed.
Lemma zset_split l i x y :
  zget l i = Some x → ∃ l1 l2, l = l1 ++ x :: l2 ∧ zset l i y = l1 ++ y :: l2 ∧ zlen l1 = i.
Proof.
  unfold zget, zset, zlen. case_decide; [|done]. intros H'.
  pose proof (lookup_lt_Some _ _ _ H').
  exists (take (Z.to_nat i) l), (drop (S (Z.to_nat i)) l). split_and!.
  - by rewrite take_drop_middle.
  - by apply insert_take_drop.
  - rewrite length_take. lia.
Qed.
End zset.

(** ** Circular buffers

    The index [i], at most once past the end of an array of [cap] cells, as
    an index of the array. *)
Definition wrap (cap i : Z) : Z := if i <? cap then i else i - cap.

(** Solves goals about indices: opens [wrap] and the tests on indices. *)
Ltac idx :=
  unfold wrap, MAXOBJ in *;
  repeat match goal with
  | H : context [if ?a <? ?b then _ else _] |- _ => destruct (Z.ltb_spec a b)
  | |- context [if ?a <? ?b then _ else _] => destruct (Z.ltb_spec a b)
  | H : context [if ?a =? ?b then _ else _] |- _ => destruct (Z.eqb_spec a b)
  | |- context [if ?a =? ?b then _ else _] => destruct (Z.eqb_spec a b)
  end; try lia; try dlia.
