(* ===== verification/Deque.v ===== *)
(** * Double-ended queue ([server/deque.c])

    [dime_deque] is the C struct: the array with its capacity, and the two
    indices that chase each other around it. [deque_rep d xs] says that the
    struct [d] stores the sequence [xs]; every operation is proved against
    the same operation on [xs]. *)

From S2P Require Import Prelude.

(** ** The struct and its operations *)

Record dime_deque (A : Type) := Deque {
  dq_len : Z;
  dq_arr : carray A;
  dq_cap : Z;
  dq_begin : Z;
  dq_end : Z;
}.
Arguments Deque {A} _ _ _ _ _.
Arguments dq_len {A} _.
Arguments dq_arr {A} _.
Arguments dq_cap {A} _.
Arguments dq_begin {A} _.
Arguments dq_end {A} _.

(** [dime_deque_init]: the return code, and the struct; [arr] is [NULL] (no
    cell) when [malloc] fails. *)
Definition dime_deque_init {A} (al : allocator) : Z * dime_deque A :=
  let cap := 16 in
  match malloc al (cap * 8) 8 with
  | Some arr => (0, Deque 0 arr cap 0 0)
  | None => (-1, Deque 0 [] cap 0 0)
  end.

(** The block both pushes start with: grow the array by a half when it is
    full, moving the elements between [begin] and the end of the old array
    to the end of the new one. [None]: [realloc] failed. *)
Definition deque_reserve {A} (al : allocator) (d : dime_deque A)
    : outcome (option (dime_deque A)) :=
  if dq_cap d <=? dq_len d then
    let ncap := u64 (3 * dq_cap d) / 2 in
    match realloc al (dq_arr d) (u64 (ncap * 8)) 8 with
    | None => Ret None
    | Some narr =>
        if dq_end d <=? dq_begin d then
          let nbegin := u64 (dq_begin d + u64 (ncap - dq_cap d)) in
          narr ← blit narr (dq_begin d) narr nbegin (u64 (ncap - nbegin));
          Ret (Some (Deque (dq_len d) narr ncap nbegin (dq_end d)))
        else Ret (Some (Deque (dq_len d) narr ncap (dq_begin d) (dq_end d)))
    end
  else Ret (Some d).

Definition dime_deque_pushl {A} (al : allocator) (d : dime_deque A) (p : A)
    : outcome (Z * dime_deque A) :=
  r ← deque_reserve al d;
  match r with
  | None => Ret (-1, d)
  | Some d =>
      let begin := if dq_begin d =? 0 then dq_cap d else dq_begin d in
      let begin := u64 (begin - 1) in
      arr ← awrite (dq_arr d) begin p;
      Ret (0, Deque (u64 (dq_len d + 1)) arr (dq_cap d) begin (dq_end d))
  end.

Definition dime_deque_pushr {A} (al : allocator) (d : dime_deque A) (p : A)
    : outcome (Z * dime_deque A) :=
  r ← deque_reserve al d;
  match r with
  | None => Ret (-1, d)
  | Some d =>
      arr ← awrite (dq_arr d) (dq_end d) p;
      let end_ := u64 (dq_end d + 1) in
      let end_ := if end_ =? dq_cap d then 0 else end_ in
      Ret (0, Deque (u64 (dq_len d + 1)) arr (dq_cap d) (dq_begin d) end_)
  end.

(** [None] is the [NULL] answer of an empty deque. *)
Definition dime_deque_popl {A} (d : dime_deque A) : outcome (option A * dime_deque A) :=
  if dq_len d =? 0 then Ret (None, d)
  else
    p ← aread (dq_arr d) (dq_begin d);
    let begin := u64 (dq_begin d + 1) in
    let begin := if begin =? dq_cap d then 0 else begin in
    Ret (Some p, Deque (u64 (dq_len d - 1)) (dq_arr d) (dq_cap d) begin (dq_end d)).

(** The code assigns [begin], not [end], when [end] is at the start of the
    array. *)
Definition dime_deque_popr {A} (d : dime_deque A) : outcome (option A * dime_deque A) :=
  if dq_len d =? 0 then Ret (None, d)
  else
    let begin := if dq_end d =? 0 then dq_cap d else dq_begin d in
    let end_ := u64 (dq_end d - 1) in
    p ← aread (dq_arr d) end_;
    Ret (Some p, Deque (u64 (dq_len d - 1)) (dq_arr d) (dq_cap d) begin end_).

Definition dime_deque_len {A} (d : dime_deque A) : Z := dq_len d.

(** The iterator: its index in the array; the deque is passed along. *)
Definition dime_deque_iter_init {A} (d : dime_deque A) : Z := u64 (dq_begin d - 1).

(** The new index, and the element under it unless the iteration is over. *)
Definition dime_deque_iter_next {A} (d : dime_deque A) (i : Z) : outcome (Z * option A) :=
  let i := u64 (i + 1) in
  let i := if i =? dq_cap d then 0 else i in
  if i =? dq_end d then Ret (i, None)
  else v ← aread (dq_arr d) i; Ret (i, Some v).

(** [dime_deque_apply]: the callback updates what [p] points to and says
    whether to go on. [deque_apply_step] is one turn of its loop. *)
Definition deque_apply_step {A P} (d : dime_deque A) (f : A → P → P * bool)
    (s : Z * P) : outcome (Z * P + P) :=
  let (i, p) := s in
  if i =? dq_end d then Ret (inr p)
  else
    v ← aread (dq_arr d) i;
    let (p, go) := f v p in
    if go : bool then
      let i := u64 (i + 1) in
      Ret (inl (if i =? dq_cap d then 0 else i, p))
    else Ret (inr p).

Definition dime_deque_apply {A P} (d : dime_deque A) (f : A → P → P * bool) (p : P)
    : outcome P :=
  loop (deque_apply_step d f) (S (Z.to_nat (dq_cap d))) (dq_begin d, p).

(** The loop of the header's example, [while (dime_deque_iter_next(&it))],
    with a body that takes each element in turn. *)
Definition deque_foreach_step {A P} (d : dime_deque A) (f : A → P → outcome P)
    (s : Z * P) : outcome (Z * P + P) :=
  let (i, p) := s in
  '(i, v) ← dime_deque_iter_next d i;
  match v with
  | None => Ret (inr p)
  | Some v => p ← f v p; Ret (inl (i, p))
  end.

Definition deque_foreach {A P} (d : dime_deque A) (f : A → P → outcome P) (p : P)
    : outcome P :=
  loop (deque_foreach_step d f) (S (Z.to_nat (dq_cap d))) (dime_deque_iter_init d, p).

(** ** Representation *)

(** The invariant of the struct. *)
Record deque_rep {A} (d : dime_deque A) (xs : list A) : Prop := {
  dr_arr : zlen (dq_arr d) = dq_cap d;
  dr_cap : 16 ≤ dq_cap d ∧ dq_cap d * 8 ≤ MAXOBJ;
  dr_len : dq_len d = zlen xs ∧ zlen xs ≤ dq_cap d;
  dr_begin : 0 ≤ dq_begin d < dq_cap d;
  dr_end : dq_end d = wrap (dq_cap d) (dq_begin d + zlen xs);
  dr_cells k x : zget xs k = Some x →
    zget (dq_arr d) (wrap (dq_cap d) (dq_begin d + k)) = Some (Some x);
}.

(** The capacity that a push finds or makes, of a deque with [len] elements:
    a full array is made half as large again, if the allocator grants it. *)
Definition deque_room (al : allocator) (cap len : Z) : option Z :=
  if len <? cap then Some cap
  else let ncap := 3 * cap / 2 in if al (ncap * 8) then Some ncap else None.

Section rep.
Context {A : Type}.
Implicit Types (d : dime_deque A) (xs : list A) (x : A).

Lemma deque_init_rep al d :
  alloc_sane al → dime_deque_init al = (0, d) → deque_rep d [].
Proof.
  unfold dime_deque_init, malloc. intros Hal ?. destruct (al _) eqn:E; simplify_eq.
  apply Hal in E. split; simpl; unfold MAXOBJ, zlen; try done; try lia.
  intros k x Hk%zget_Some_lt. unfold zlen in Hk. simpl in Hk. lia.
Qed.

(** After [deque_reserve] there is a free cell, and the contents are the
    same. *)
Lemma deque_reserve_rep al d xs :
  alloc_sane al → deque_rep d xs →
  returns (deque_reserve al d) (λ r,
    match r with
    | None => zlen xs = dq_cap d ∧ 16 ≤ zlen xs ∧
        al (u64 (u64 (3 * dq_cap d) / 2 * 8)) = false ∧ deque_room al (dq_cap d) (zlen xs) = None
    | Some d' => deque_rep d' xs ∧ zlen xs < dq_cap d' ∧
        deque_room al (dq_cap d) (zlen xs) = Some (dq_cap d')
    end).
Proof.
  intros Hal []. pose proof (zlen_nonneg xs). unfold deque_reserve, deque_room.
  destruct (Z.leb_spec (dq_cap d) (dq_len d)).
  2:{ rewrite (proj2 (Z.ltb_lt (zlen xs) _)) by lia. simpl. split; [by split|]. split; [lia|done]. }
  rewrite (proj2 (Z.ltb_ge (zlen xs) _)) by lia.
  assert (zlen xs = dq_cap d) as Hfull by lia. unfold MAXOBJ in *.
  assert (dq_end d = dq_begin d) as Hend by idx. unwrap.
  destruct (realloc _ _ _ _) as [narr|] eqn:Hre.
  2:{ simpl. unfold realloc in Hre. unwrap. split_and!; [lia|lia|by case_match..]. }
  assert (al (3 * dq_cap d / 2 * 8) = true) as Hok.
  { unfold realloc in Hre. by case_match. }
  rewrite Hok. apply Hal in Hok. unfold MAXOBJ in *.
  assert (zlen narr = 3 * dq_cap d / 2) as Hlen.
  { etrans; [eapply zlen_realloc; [| |exact Hre]; dlia|]. by rewrite Z.div_mul. }
  assert (∀ i, 0 ≤ i < dq_cap d → zget narr i = zget (dq_arr d) i) as Hcells.
  { intros i Hi. eapply zget_realloc; [|done|lia]. rewrite Z.div_mul by lia. dlia. }
  rewrite Hend, Z.leb_refl. unwrap.
  eapply returns_bind.
  { apply blit_spec; dlia. }
  intros arr' [Hlen' Harr']. simpl. split; [|split; [dlia|done]]. split; simpl; [idx..|].
  intros k x Hk. pose proof (zget_Some_lt _ _ _ Hk).
  rewrite Harr'. rewrite <-(dr_cells0 _ _ Hk).
  case_decide; rewrite Hcells by idx; f_equal; idx.
Qed.

Definition push_post al d xs xs' : Z * dime_deque A → Prop := λ '(rc, d'),
  (rc = 0 ∧ deque_rep d' xs' ∧ deque_room al (dq_cap d) (zlen xs) = Some (dq_cap d')) ∨
  (rc = -1 ∧ d' = d ∧ zlen xs = dq_cap d ∧ 16 ≤ zlen xs ∧
   al (u64 (u64 (3 * dq_cap d) / 2 * 8)) = false ∧ deque_room al (dq_cap d) (zlen xs) = None).

Lemma pushl_rep al d xs x :
  alloc_sane al → deque_rep d xs →
  returns (dime_deque_pushl al d x) (push_post al d xs (x :: xs)).
Proof.
  intros Hal Hrep. unfold dime_deque_pushl.
  eapply returns_bind; [by apply deque_reserve_rep|].
  intros [d'|]; [intros [[] [Hfree Hroom]] | by right].
  pose proof (zlen_nonneg xs). unfold MAXOBJ in *.
  assert (0 ≤ (if dq_begin d' =? 0 then dq_cap d' else dq_begin d') - 1 < dq_cap d')
    by idx.
  unwrap. eapply returns_bind; [apply awrite_spec; lia|].
  intros arr [Hlen Harr]. simpl. left. split; [done|]. split; [|done].
  split; simpl; rewrite ?zlen_cons; try solve [idx].
  intros k y Hk. pose proof (zget_Some_lt _ _ _ Hk). rewrite zlen_cons in *.
  rewrite Harr. destruct (decide (k = 0)) as [->|].
  - rewrite zget_cons_0 in Hk. simplify_eq. rewrite decide_True by idx. done.
  - rewrite zget_cons_S in Hk by lia. rewrite decide_False by idx.
    rewrite <-(dr_cells0 _ _ Hk). f_equal. idx.
Qed.

Lemma pushr_rep al d xs x :
  alloc_sane al → deque_rep d xs →
  returns (dime_deque_pushr al d x) (push_post al d xs (xs ++ [x])).
Proof.
  intros Hal Hrep. unfold dime_deque_pushr.
  eapply returns_bind; [by apply deque_reserve_rep|].
  intros [d'|]; [intros [[] [Hfree Hroom]] | by right].
  pose proof (zlen_nonneg xs). unfold MAXOBJ in *.
  eapply returns_bind; [apply awrite_spec; idx|].
  intros arr [Hlen Harr]. simpl. left. split; [done|]. split; [|done].
  assert (zlen (xs ++ [x]) = zlen xs + 1) as Hx by by rewrite zlen_app.
  assert (0 ≤ dq_end d' < dq_cap d') by idx. unwrap.
  split; simpl; rewrite ?Hx; try solve [idx].
  intros k y Hk. pose proof (zget_Some_lt _ _ _ Hk). rewrite Harr.
  destruct (decide (k = zlen xs)) as [->|].
  - rewrite zget_app_r, Z.sub_diag in Hk by lia. rewrite zget_cons_0 in Hk.
    simplify_eq. by rewrite decide_True by idx.
  - rewrite zget_app_l in Hk by lia. rewrite decide_False by idx.
    by rewrite <-(dr_cells0 _ _ Hk).
Qed.

Lemma popl_rep d xs :
  deque_rep d xs →
  returns (dime_deque_popl d) (λ '(r, d'), r = head xs ∧ deque_rep d' (tail xs)).
Proof.
  intros Hrep. pose proof Hrep as []. unfold dime_deque_popl, MAXOBJ in *.
  destruct xs as [|x xs].
  { replace (dq_len d) with 0 by (rewrite (proj1 dr_len0); done). done. }
  rewrite zlen_cons in *. pose proof (zlen_nonneg xs).
  rewrite (proj2 (Z.eqb_neq _ _)) by lia.
  pose proof (dr_cells0 0 x eq_refl) as Hx.
  replace (wrap _ _) with (dq_begin d) in Hx by idx.
  rewrite (aread_Some _ _ _ Hx). simpl. split; [done|]. unwrap.
  split; simpl; try solve [idx].
  intros k y Hk. pose proof (zget_Some_lt _ _ _ Hk).
  rewrite <-(dr_cells0 (k + 1) y); [f_equal; idx|].
  rewrite zget_cons_S by lia. by replace (k + 1 - 1) with k by lia.
Qed.

(** Away from the start of the array [popr] takes the last element; at the
    start it reads [arr\[SIZE_MAX\]]. *)
Lemma popr_rep d xs :
  deque_rep d xs → dq_end d ≠ 0 →
  returns (dime_deque_popr d) (λ '(r, d'),
    r = last xs ∧ deque_rep d' (take (length xs - 1) xs)).
Proof.
  intros Hrep Hend. pose proof Hrep as []. unfold dime_deque_popr, MAXOBJ in *.
  destruct xs as [|x xs _] using rev_ind.
  { replace (dq_len d) with 0 by (rewrite (proj1 dr_len0); done). done. }
  assert (zlen (xs ++ [x]) = zlen xs + 1) as Hlen by by rewrite zlen_app.
  rewrite Hlen in *. pose proof (zlen_nonneg xs).
  rewrite !(proj2 (Z.eqb_neq _ _)) by lia.
  assert (zget (xs ++ [x]) (zlen xs) = Some x) as Hx.
  { by rewrite zget_app_r, Z.sub_diag by lia. }
  apply dr_cells0 in Hx.
  assert (0 < dq_end d) by idx. assert (dq_end d < dq_cap d) by idx. unwrap.
  replace (wrap _ _) with (dq_end d - 1) in Hx by idx.
  rewrite (aread_Some _ _ _ Hx). simpl. split; [by rewrite last_snoc|].
  rewrite length_app. simpl. replace (_ + 1 - 1)%nat with (length xs) by lia.
  rewrite take_app_length. split; simpl; try solve [idx].
  intros k y Hk. pose proof (zget_Some_lt _ _ _ Hk).
  apply dr_cells0. by rewrite zget_app_l by lia.
Qed.

Lemma popr_at_start d xs :
  deque_rep d xs → xs ≠ [] → dq_end d = 0 → dime_deque_popr d = Undef.
Proof.
  intros [] Hne Hend. unfold dime_deque_popr.
  destruct xs as [|x xs]; [done|]. rewrite zlen_cons in *. pose proof (zlen_nonneg xs).
  rewrite (proj2 (Z.eqb_neq _ _)) by lia. rewrite Hend.
  change (u64 (0 - 1)) with (2 ^ 64 - 1).
  unfold aread. rewrite zget_None; [done|]. unfold MAXOBJ in *. lia.
Qed.

(** The index [i] of an iterator that stands before the [k]-th element. *)
Definition iter_before d (i k : Z) : Prop :=
  (if u64 (i + 1) =? dq_cap d then 0 else u64 (i + 1)) = wrap (dq_cap d) (dq_begin d + k).

Lemma iter_init_before d xs :
  deque_rep d xs → iter_before d (dime_deque_iter_init d) 0.
Proof.
  intros []. unfold iter_before, dime_deque_iter_init, MAXOBJ in *.
  assert (u64 (u64 (dq_begin d - 1) + 1) = dq_begin d) as ->; [|idx].
  unfold u64. rewrite Zplus_mod_idemp_l.
  replace (_ - 1 + 1) with (dq_begin d) by lia. apply Z.mod_small. lia.
Qed.

Lemma iter_next_rep d xs i k :
  deque_rep d xs → zlen xs < dq_cap d → 0 ≤ k ≤ zlen xs → iter_before d i k →
  dime_deque_iter_next d i = Ret (wrap (dq_cap d) (dq_begin d + k), zget xs k) ∧
  iter_before d (wrap (dq_cap d) (dq_begin d + k)) (k + 1).
Proof.
  intros [] Hfree Hk Hi. unfold dime_deque_iter_next. rewrite Hi.
  unfold iter_before, MAXOBJ in *. split.
  - destruct (decide (k = zlen xs)) as [->|].
    + rewrite dr_end0, Z.eqb_refl, zget_None by lia. done.
    + destruct (zget_is_Some xs k) as [x Hx]; [lia|].
      rewrite (proj2 (Z.eqb_neq _ _)) by idx.
      by rewrite (aread_Some _ _ _ (dr_cells0 _ _ Hx)), Hx.
  - assert (0 ≤ wrap (dq_cap d) (dq_begin d + k) < dq_cap d) by idx. unwrap. idx.
Qed.

(** The iterator loop of a deque that is not full visits the elements in
    order. *)
Lemma foreach_rep {P} (f : A → P → outcome P) d xs p :
  deque_rep d xs → zlen xs < dq_cap d →
  deque_foreach d f p = foldo f xs p.
Proof.
  intros Hrep Hfree. unfold deque_foreach.
  assert (∀ ys zs i p fuel, xs = zs ++ ys → iter_before d i (zlen zs) →
    (length ys < fuel)%nat →
    loop (deque_foreach_step d f) fuel (i, p) = foldo f ys p) as Hgo.
  { induction ys as [|y ys IH]; intros zs i q [|fuel] -> Hi Hf;
      simpl in Hf; try lia; simpl; rewrite !zlen_app in *;
      pose proof (zlen_nonneg zs).
    - destruct (iter_next_rep d _ i (zlen zs) Hrep) as [-> _];
        [zlia..|done|].
      by rewrite zget_app_r, Z.sub_diag by lia.
    - pose proof (zlen_nonneg ys).
      destruct (iter_next_rep d _ i (zlen zs) Hrep) as [-> Hnext];
        [zlia..|done|].
      rewrite zget_app_r, Z.sub_diag by lia. simpl.
      destruct (f y q); simpl; [|done..].
      eapply (IH (zs ++ [y])); [by rewrite <-app_assoc| |lia].
      by rewrite zlen_app. }
  eapply (Hgo xs []); [done|by eapply iter_init_before|].
  unfold zlen in *. lia.
Qed.

Lemma apply_rep {P} (f : A → P → P * bool) d xs p :
  deque_rep d xs → zlen xs < dq_cap d →
  dime_deque_apply d f p = Ret (fold_while f xs p).
Proof.
  intros [] Hfree. unfold dime_deque_apply, MAXOBJ in *.
  assert (∀ ys zs i p fuel, xs = zs ++ ys → i = wrap (dq_cap d) (dq_begin d + zlen zs) →
    (length ys < fuel)%nat →
    loop (deque_apply_step d f) fuel (i, p) = Ret (fold_while f ys p)) as Hgo.
  { induction ys as [|y ys IH]; intros zs i q [|fuel] -> Hi Hf;
      simpl in Hf; try lia; simpl; autorewrite with zlen in *;
      pose proof (zlen_nonneg zs).
    - rewrite dr_end0, Hi, Z.add_0_r, Z.eqb_refl. done.
    - pose proof (zlen_nonneg ys). rewrite (proj2 (Z.eqb_neq _ _)) by idx.
      assert (zget (zs ++ y :: ys) (zlen zs) = Some y) as Hy.
      { by rewrite zget_app_r, Z.sub_diag by lia. }
      apply dr_cells0 in Hy. rewrite <-Hi in Hy. rewrite (aread_Some _ _ _ Hy). simpl.
      destruct (f y q) as [q' [|]]; simpl; [|done].
      assert (0 ≤ i < dq_cap d) by (rewrite Hi; idx).
      eapply (IH (zs ++ [y])); [by rewrite <-app_assoc| |lia].
      autorewrite with zlen. unwrap. idx. }
  eapply (Hgo xs []); [done|unfold zlen; simpl; idx|unfold zlen in *; lia].
Qed.

(** When the deque is exactly full [begin] and [end] coincide and both
    iterations end before the first element. *)
Lemma foreach_full {P} (f : A → P → outcome P) d xs p :
  deque_rep d xs → zlen xs = dq_cap d → deque_foreach d f p = Ret p.
Proof.
  intros Hrep Hfull. pose proof (iter_init_before d xs Hrep) as Hi.
  destruct Hrep as []. unfold deque_foreach, iter_before in *. simpl.
  unfold dime_deque_iter_next. rewrite Hi.
  by rewrite (proj2 (Z.eqb_eq (wrap _ _) (dq_end d))) by idx.
Qed.

Lemma apply_full {P} (f : A → P → P * bool) d xs p :
  deque_rep d xs → zlen xs = dq_cap d → dime_deque_apply d f p = Ret p.
Proof.
  intros [] Hfull. unfold dime_deque_apply. simpl.
  by rewrite (proj2 (Z.eqb_eq (dq_begin d) (dq_end d))) by idx.
Qed.
End rep.

(** ** The abstract deque, and traces of calls *)

Inductive deque_call (A : Type) :=
  | CallPushl (x : A)
  | CallPushr (x : A)
  | CallPopl.
Arguments CallPushl {A} x.
Arguments CallPushr {A} x.
Arguments CallPopl {A}.

Inductive deque_answer (A : Type) :=
  | AnsCode (rc : Z)
  | AnsElem (r : option A).
Arguments AnsCode {A} rc.
Arguments AnsElem {A} r.

(** One call on the struct. *)
Definition deque_exec {A} (al : allocator) (c : deque_call A) (d : dime_deque A)
    : outcome (deque_answer A * dime_deque A) :=
  match c with
  | CallPushl x => '(rc, d) ← dime_deque_pushl al d x; Ret (AnsCode rc, d)
  | CallPushr x => '(rc, d) ← dime_deque_pushr al d x; Ret (AnsCode rc, d)
  | CallPopl => '(r, d) ← dime_deque_popl d; Ret (AnsElem r, d)
  end.

(** The [n]-th call meets the allocator [als n]. *)
Fixpoint deque_run {A} (als : nat → allocator) (cs : list (deque_call A))
    (d : dime_deque A) : outcome (list (deque_answer A) * dime_deque A) :=
  match cs with
  | [] => Ret ([], d)
  | c :: cs =>
      '(a, d) ← deque_exec (als O) c d;
      '(tr, d) ← deque_run (λ n, als (S n)) cs d;
      Ret (a :: tr, d)
  end.

(** What a deque promises, as a function of the list it stores and of its
    capacity. A push adds its element at its end and answers 0; only when the
    array is full and the allocator refuses the growth it asks for, it answers
    [-1] instead and does nothing. [popl] takes the first element. *)
Definition abs_push {A} (al : allocator) (xs' : list A) (s : Z * list A)
    : deque_answer A * (Z * list A) :=
  match deque_room al s.1 (zlen s.2) with
  | Some cap => (AnsCode 0, (cap, xs'))
  | None => (AnsCode (-1), s)
  end.

Definition abs_deque {A} (al : allocator) (c : deque_call A) (s : Z * list A)
    : deque_answer A * (Z * list A) :=
  match c with
  | CallPushl x => abs_push al (x :: s.2) s
  | CallPushr x => abs_push al (s.2 ++ [x]) s
  | CallPopl => (AnsElem (head s.2), (s.1, tail s.2))
  end.

Fixpoint abs_deque_run {A} (als : nat → allocator) (cs : list (deque_call A)) (s : Z * list A)
    : list (deque_answer A) * (Z * list A) :=
  match cs with
  | [] => ([], s)
  | c :: cs =>
      let '(a, s) := abs_deque (als O) c s in
      let '(tr, s) := abs_deque_run (λ n, als (S n)) cs s in
      (a :: tr, s)
  end.

(** The struct [d] stores the list [xs] in an array of [cap] cells. *)
Definition deque_abs {A} (d : dime_deque A) (s : Z * list A) : Prop :=
  dq_cap d = s.1 ∧ deque_rep d s.2.

Lemma push_exec_rep {A} al d (xs xs' : list A) m :
  deque_rep d xs → returns m (push_post al d xs xs') →
  returns ('(rc, d) ← m; Ret (AnsCode rc, d))
    (λ '(a, d'), ∃ s', abs_push al xs' (dq_cap d, xs) = (a, s') ∧ deque_abs d' s').
Proof.
  intros Hrep Hm. eapply returns_bind; [exact Hm|]. unfold abs_push. simpl.
  intros [rc d'] [(-> & ? & ->)|(-> & -> & _ & _ & _ & ->)]; by eexists.
Qed.

Lemma popl_cap {A} (d : dime_deque A) r d' :
  dime_deque_popl d = Ret (r, d') → dq_cap d' = dq_cap d.
Proof. unfold dime_deque_popl. intros H. unfold_ret. Qed.

Lemma deque_exec_rep {A} al (c : deque_call A) d s :
  alloc_sane al → deque_abs d s →
  returns (deque_exec al c d) (λ '(a, d'), ∃ s', abs_deque al c s = (a, s') ∧ deque_abs d' s').
Proof.
  destruct s as [cap xs]. intros Hal [Hcap Hrep]. simpl in *. subst cap.
  destruct c as [x|x|]; unfold deque_exec, abs_deque; simpl.
  - apply push_exec_rep; [done|by apply pushl_rep].
  - apply push_exec_rep; [done|by apply pushr_rep].
  - pose proof (popl_rep d xs Hrep) as Hpop. apply returns_eq in Hpop as ([r d'] & Hpop & -> & ?).
    rewrite Hpop. simpl. eexists. split; [done|]. split; [by eapply popl_cap|done].
Qed.

Lemma deque_run_rep {A} (cs : list (deque_call A)) : ∀ als d s,
  (∀ n, alloc_sane (als n)) → deque_abs d s →
  returns (deque_run als cs d)
    (λ '(tr, d'), ∃ s', abs_deque_run als cs s = (tr, s') ∧ deque_abs d' s').
Proof.
  induction cs as [|c cs IH]; intros als d s Hals Hrep; simpl.
  { eexists. by split. }
  eapply returns_bind; [by apply deque_exec_rep|]. intros [a d1] (s1 & -> & Hrep1).
  eapply returns_bind; [eapply IH; [intros; apply Hals|done]|].
  intros [tr d2] (s2 & -> & ?). by exists s2.
Qed.

(** ** Properties *)

(** C36: any sequence of [pushl], [pushr] and [popl] calls on a freshly
    initialised deque, whatever the allocator answers to each call, runs
    without undefined behaviour and gives exactly the answers of a list with
    a capacity, which starts at 16: a push succeeds if the list is shorter
    than the capacity or the allocator grants an array half as large again,
    and is otherwise refused and changes nothing. The struct is left
    well-formed, with the elements, the length and the capacity of the list. *)
Theorem deque_trace_refines {A} (al0 : allocator) (als : nat → allocator)
    (d : dime_deque A) (cs : list (deque_call A)) :
  alloc_sane al0 → (∀ n, alloc_sane (als n)) → dime_deque_init al0 = (0, d) →
  ∃ tr d' cap xs, deque_run als cs d = Ret (tr, d') ∧
    abs_deque_run als cs (16, []) = (tr, (cap, xs)) ∧
    deque_rep d' xs ∧ dq_cap d' = cap ∧ dime_deque_len d' = zlen xs.
Proof.
  intros Hal0 Hals Hinit. pose proof (deque_init_rep _ _ Hal0 Hinit) as Hrep.
  assert (deque_abs d (16, [])) as Habs.
  { split; [|done]. unfold dime_deque_init in Hinit. by case_match; simplify_eq. }
  pose proof (deque_run_rep cs als d _ Hals Habs) as H.
  apply returns_eq in H as ([tr d'] & ? & [cap xs] & ? & Hcap & Hrep').
  exists tr, d', cap, xs. split_and!; [done..|]. apply Hrep'.
Qed.

Definition alloc_small : allocator := λ n, n <=? 4096.

Lemma alloc_small_sane : alloc_sane alloc_small.
Proof. intros n. unfold alloc_small, MAXOBJ. rewrite Z.leb_le. lia. Qed.

Definition deque0 : dime_deque Z := snd (dime_deque_init alloc_small).

Lemma deque_trace_refines_witness :
  ∃ tr d' cap xs, deque_run (λ _, alloc_small) [CallPushr 1; CallPushl 2; CallPopl] deque0
    = Ret (tr, d') ∧
    abs_deque_run (λ _, alloc_small) [CallPushr 1; CallPushl 2; CallPopl] (16, []) = (tr, (cap, xs)) ∧
    deque_rep d' xs ∧ dq_cap d' = cap ∧ dime_deque_len d' = zlen xs.
Proof.
  apply (deque_trace_refines alloc_small); [apply alloc_small_sane|..|reflexivity].
  intros _. apply alloc_small_sane.
Defined.

(** The two ways to iterate, [dime_deque_iter_next] in a loop and
    [dime_deque_apply], visit the stored elements from first to last as long
    as the array has a free cell; when it has none, both visit nothing at
    all, because [begin] equals [end]. *)
Theorem deque_iteration_visits {A P} (d : dime_deque A) (xs : list A)
    (f : A → P → outcome P) (g : A → P → P * bool) (p : P) :
  deque_rep d xs →
  deque_foreach d f p = (if zlen xs <? dq_cap d then foldo f xs p else Ret p) ∧
  dime_deque_apply d g p = Ret (if zlen xs <? dq_cap d then fold_while g xs p else p).
Proof.
  intros Hrep. pose proof Hrep as []. destruct (Z.ltb_spec (zlen xs) (dq_cap d)).
  - split; [by apply foreach_rep|by apply apply_rep].
  - split; [apply (foreach_full _ _ xs)|apply (apply_full _ _ xs)]; (done || lia).
Qed.

(** The deque with one element [x] pushed on the left of an empty one. *)
Lemma pushl_once : ∃ d, dime_deque_pushl alloc_small deque0 7 = Ret (0, d) ∧
  deque_rep d [7] ∧ dq_end d = 0 ∧ dq_cap d = 16.
Proof.
  pose proof (pushl_rep alloc_small deque0 [] 7 alloc_small_sane
    (deque_init_rep alloc_small _ alloc_small_sane eq_refl)) as H.
  eexists. split; [reflexivity|]. split; [|done].
  by destruct H as [(_ & H & _)|[H _]].
Qed.

Lemma deque_iteration_visits_witness : ∃ d : dime_deque Z,
  deque_rep d [7] ∧ deque_foreach d (λ x s, Ret (x + s)) 0 = Ret 7 ∧
  dime_deque_apply d (λ x s, (x + s, true)) 0 = Ret 7.
Proof.
  destruct pushl_once as (d & _ & Hrep & _ & Hcap). exists d. split; [exact Hrep|].
  destruct (deque_iteration_visits d [7] (λ x s, Ret (x + s)) (λ x s, (x + s, true)) 0 Hrep)
    as [H1 H2].
  rewrite H1, H2, Hcap. split; reflexivity.
Defined.

(** [dime_deque_popr] removes and answers the last element unless [end]
    is at the start of the array; there it sets [begin] instead of [end],
    [end - 1] wraps to [SIZE_MAX], and the read is out of bounds. *)
Theorem deque_popr_reads {A} (d : dime_deque A) (xs : list A) :
  deque_rep d xs → xs ≠ [] →
  if dq_end d =? 0 then dime_deque_popr d = Undef
  else ∃ d', dime_deque_popr d = Ret (last xs, d') ∧
             deque_rep d' (take (length xs - 1) xs).
Proof.
  intros Hrep Hne. destruct (Z.eqb_spec (dq_end d) 0).
  - by eapply popr_at_start.
  - pose proof (popr_rep d xs Hrep) as H. apply returns_eq in H as ([r d'] & -> & -> & ?);
      [|done]. eauto.
Qed.

Lemma deque_popr_reads_witness : ∃ d : dime_deque Z,
  dime_deque_pushl alloc_small deque0 7 = Ret (0, d) ∧ dime_deque_popr d = Undef.
Proof.
  destruct pushl_once as (d & Hpush & Hrep & Hend & _). exists d. split; [exact Hpush|].
  pose proof (deque_popr_reads d [7] Hrep ltac:(discriminate)) as H.
  rewrite Hend in H. exact H.
Defined.
