(* ===== verification/Ringbuffer.v ===== *)
(** * Ring buffer ([server/ringbuffer.c])

    A first-in first-out buffer of bytes. [dime_ringbuffer] is the C struct;
    [ring_rep r bs] says that its readable bytes are [bs]. Bytes are integers.
    The buffer a caller passes to [write] is the list of its bytes, the bytes
    [peek] and [read] store in the caller's buffer are part of their answer. *)

From S2P Require Import Prelude.

(** ** The struct and its operations *)

Record dime_ringbuffer := Ring {
  rb_len : Z;
  rb_arr : carray Z;
  rb_cap : Z;
  rb_begin : Z;
  rb_end : Z;
}.

(** [-1] and [NULL] when [malloc] fails. *)
Definition dime_ringbuffer_init (al : allocator) : Z * dime_ringbuffer :=
  let cap := 1024 in
  match malloc al cap 1 with
  | Some arr => (0, Ring 0 arr cap 0 0)
  | None => (-1, Ring 0 [] cap 0 0)
  end.

(** The growth step of [dime_ringbuffer_write] for [siz] more bytes. *)
Definition ring_reserve (al : allocator) (r : dime_ringbuffer) (siz : Z)
    : outcome (option dime_ringbuffer) :=
  if rb_cap r <=? u64 (rb_len r + siz) then
    let ncap := u64 (3 * u64 (rb_len r + siz)) / 2 in
    match realloc al (rb_arr r) ncap 1 with
    | None => Ret None
    | Some narr =>
        if rb_end r <? rb_begin r then
          let nbegin := u64 (rb_begin r + u64 (ncap - rb_cap r)) in
          narr ← blit narr (rb_begin r) narr nbegin (u64 (ncap - nbegin));
          Ret (Some (Ring (rb_len r) narr ncap nbegin (rb_end r)))
        else Ret (Some (Ring (rb_len r) narr ncap (rb_begin r) (rb_end r)))
    end
  else Ret (Some r).

Definition dime_ringbuffer_write (al : allocator) (r : dime_ringbuffer) (buf : list Z)
    : outcome (Z * dime_ringbuffer) :=
  let siz := zlen buf in
  if siz =? 0 then Ret (0, r)
  else
    g ← ring_reserve al r siz;
    match g with
    | None => Ret (-1, r)
    | Some r =>
        let spaceleft := u64 (rb_cap r - rb_end r) in
        let src := Some <$> buf in
        arr ← (if spaceleft <? siz then
                 arr ← blit src 0 (rb_arr r) (rb_end r) spaceleft;
                 blit src spaceleft arr 0 (u64 (siz - spaceleft))
               else blit src 0 (rb_arr r) (rb_end r) siz);
        let end_ := u64 (rb_end r + siz) in
        let end_ := if rb_cap r <=? end_ then u64 (end_ - rb_cap r) else end_ in
        Ret (siz, Ring (u64 (rb_len r + siz)) arr (rb_cap r) (rb_begin r) end_)
    end.

Definition dime_ringbuffer_peek (r : dime_ringbuffer) (siz : Z) : outcome (Z * list Z) :=
  let siz := if rb_len r <? siz then rb_len r else siz in
  if siz =? 0 then Ret (0, [])
  else
    let spaceleft := u64 (rb_cap r - rb_begin r) in
    bytes ← (if spaceleft <? siz then
               b1 ← slice (rb_arr r) (rb_begin r) spaceleft;
               b2 ← slice (rb_arr r) 0 (u64 (siz - spaceleft));
               Ret (b1 ++ b2)
             else slice (rb_arr r) (rb_begin r) siz);
    Ret (siz, bytes).

Definition dime_ringbuffer_discard (r : dime_ringbuffer) (siz : Z) : Z * dime_ringbuffer :=
  let siz := if rb_len r <? siz then rb_len r else siz in
  let begin := u64 (rb_begin r + siz) in
  let begin := if rb_cap r <=? begin then u64 (begin - rb_cap r) else begin in
  (siz, Ring (u64 (rb_len r - siz)) (rb_arr r) (rb_cap r) begin (rb_end r)).

Definition dime_ringbuffer_read (r : dime_ringbuffer) (siz : Z)
    : outcome (Z * list Z * dime_ringbuffer) :=
  '(n, bytes) ← dime_ringbuffer_peek r siz;
  let (n, r) := dime_ringbuffer_discard r n in
  Ret (n, bytes, r).

Definition dime_ringbuffer_len (r : dime_ringbuffer) : Z := rb_len r.

(** ** Representation *)

Record ring_rep (r : dime_ringbuffer) (bs : list Z) : Prop := {
  rr_arr : zlen (rb_arr r) = rb_cap r;
  rr_cap : 1024 ≤ rb_cap r ≤ MAXOBJ;
  rr_len : rb_len r = zlen bs ∧ zlen bs < rb_cap r;
  rr_begin : 0 ≤ rb_begin r < rb_cap r;
  rr_end : rb_end r = wrap (rb_cap r) (rb_begin r + zlen bs);
  rr_cells k b : zget bs k = Some b →
    zget (rb_arr r) (wrap (rb_cap r) (rb_begin r + k)) = Some (Some b);
}.

(** The capacity that a write finds or makes for [n] bytes in all: a buffer
    they would fill becomes half as large again as they need, if the allocator
    grants it. *)
Definition ring_room (al : allocator) (cap n : Z) : option Z :=
  if n <? cap then Some cap
  else let ncap := 3 * n / 2 in if al ncap then Some ncap else None.

Lemma ring_init_rep al r :
  alloc_sane al → dime_ringbuffer_init al = (0, r) → ring_rep r [].
Proof.
  unfold dime_ringbuffer_init, malloc. intros Hal ?. destruct (al _) eqn:E; simplify_eq.
  split; simpl; unfold MAXOBJ, zlen; try done; try lia.
  intros k x Hk%zget_Some_lt. unfold zlen in Hk. simpl in Hk. lia.
Qed.

Lemma ring_reserve_rep al r bs siz :
  alloc_sane al → ring_rep r bs → 0 ≤ siz ≤ MAXOBJ →
  returns (ring_reserve al r siz) (λ g,
    match g with
    | None => rb_cap r ≤ zlen bs + siz ∧ al (3 * (zlen bs + siz) / 2) = false
    | Some r' => ring_rep r' bs ∧ zlen bs + siz < rb_cap r' ∧
        ring_room al (rb_cap r) (zlen bs + siz) = Some (rb_cap r')
    end).
Proof.
  intros Hal [] Hsiz. pose proof (zlen_nonneg bs). unfold ring_reserve, ring_room, MAXOBJ in *.
  rewrite (proj1 rr_len0) in *. unwrap.
  destruct (Z.leb_spec (rb_cap r) (zlen bs + siz)).
  2:{ rewrite (proj2 (Z.ltb_lt (zlen bs + siz) _)) by lia. simpl. by split; [by split|]. }
  rewrite (proj2 (Z.ltb_ge (zlen bs + siz) _)) by lia.
  destruct (realloc _ _ _ _) as [narr|] eqn:Hre.
  2:{ simpl. unfold realloc in Hre. split; [lia|by case_match]. }
  assert (al (3 * (zlen bs + siz) / 2) = true) as Hok.
  { unfold realloc in Hre. by case_match. }
  rewrite Hok. apply Hal in Hok. unfold MAXOBJ in *.
  assert (zlen narr = 3 * (zlen bs + siz) / 2) as Hnlen.
  { etrans; [eapply zlen_realloc; [| |exact Hre]; dlia|]. by rewrite Z.div_1_r. }
  assert (∀ i, 0 ≤ i < rb_cap r → zget narr i = zget (rb_arr r) i) as Hold.
  { intros i Hi. eapply zget_realloc; [|done|lia]. rewrite Z.div_1_r. dlia. }
  assert (rb_cap r ≤ 3 * (zlen bs + siz) / 2) by dlia.
  destruct (Z.ltb_spec (rb_end r) (rb_begin r)).
  - unwrap. eapply returns_bind; [apply blit_spec; dlia|].
    intros arr' [Hlen' Harr']. simpl. split; [|split; [dlia|done]]. split; simpl; [idx..|].
    intros k x Hk. pose proof (zget_Some_lt _ _ _ Hk).
    rewrite Harr'. rewrite <-(rr_cells0 _ _ Hk).
    case_decide; rewrite Hold by idx; f_equal; idx.
  - simpl. split; [|split; [dlia|done]]. split; simpl; [idx..|].
    intros k x Hk. pose proof (zget_Some_lt _ _ _ Hk).
    rewrite <-(rr_cells0 _ _ Hk), Hold by idx. f_equal; idx.
Qed.

Lemma zget_fmap_Some (l : list Z) i : zget (Some <$> l) i = Some <$> zget l i.
Proof. unfold zget. case_decide; [|done]. apply list_lookup_fmap. Qed.

Lemma zlen_fmap_Some (l : list Z) : zlen (Some <$> l) = zlen l.
Proof. unfold zlen. by rewrite length_fmap. Qed.

(** Copying [buf] after the readable bytes of a buffer with enough room. *)
Lemma ring_copy_rep r bs buf :
  ring_rep r bs → 0 < zlen buf → zlen bs + zlen buf < rb_cap r →
  returns (let spaceleft := u64 (rb_cap r - rb_end r) in
           let src := Some <$> buf in
           if spaceleft <? zlen buf then
             arr ← blit src 0 (rb_arr r) (rb_end r) spaceleft;
             blit src spaceleft arr 0 (u64 (zlen buf - spaceleft))
           else blit src 0 (rb_arr r) (rb_end r) (zlen buf))
    (λ arr, zlen arr = rb_cap r ∧ ∀ k b, zget (bs ++ buf) k = Some b →
       zget arr (wrap (rb_cap r) (rb_begin r + k)) = Some (Some b)).
Proof.
  intros [] Hpos Hroom. pose proof (zlen_nonneg bs). unfold MAXOBJ in *.
  assert (0 ≤ rb_end r < rb_cap r) by idx. unwrap.
  assert (∀ arr, zlen arr = rb_cap r →
    (∀ j, zget arr j = let k := (if rb_end r <=? j then j - rb_end r
                                 else j - rb_end r + rb_cap r) in
       if decide (0 ≤ j < rb_cap r ∧ k < zlen buf) then zget (Some <$> buf) k
       else zget (rb_arr r) j) →
    zlen arr = rb_cap r ∧ ∀ k b, zget (bs ++ buf) k = Some b →
      zget arr (wrap (rb_cap r) (rb_begin r + k)) = Some (Some b)) as Hfin.
  { intros arr Hlen Hget. split; [done|]. intros k b Hk.
    pose proof (zget_Some_lt _ _ _ Hk) as Hlt. rewrite zlen_app in Hlt.
    rewrite Hget. cbv zeta. set (w := wrap _ _).
    assert (0 ≤ w < rb_cap r) by (subst w; idx).
    assert ((if rb_end r <=? w then w - rb_end r else w - rb_end r + rb_cap r) =
            (if k <? zlen bs then k - zlen bs + rb_cap r else k - zlen bs)) as ->.
    { destruct (Z.leb_spec (rb_end r) w); subst w; idx. }
    destruct (Z.ltb_spec k (zlen bs)).
    - rewrite decide_False by lia. apply rr_cells0. by rewrite zget_app_l in Hk.
    - rewrite decide_True by lia. rewrite zget_app_r in Hk by lia.
      by rewrite zget_fmap_Some, Hk. }
  destruct (Z.ltb_spec (rb_cap r - rb_end r) (zlen buf)).
  - eapply returns_bind; [apply blit_spec; rewrite ?zlen_fmap_Some; lia|].
    intros arr1 [Hlen1 Harr1]. unwrap.
    eapply returns_mono; [apply blit_spec; rewrite ?zlen_fmap_Some; lia|].
    intros arr2 [Hlen2 Harr2]. apply Hfin; [lia|]. intros j. cbv zeta.
    rewrite Harr2, Harr1.
    destruct (Z.leb_spec (rb_end r) j); repeat case_decide; try (f_equal; lia); try lia.
  - eapply returns_mono; [apply blit_spec; rewrite ?zlen_fmap_Some; lia|].
    intros arr [Hlen Harr]. apply Hfin; [lia|]. intros j. cbv zeta. rewrite Harr.
    destruct (Z.leb_spec (rb_end r) j); repeat case_decide; try (f_equal; lia); lia.
Qed.

Lemma write_exact al r bs buf :
  alloc_sane al → ring_rep r bs → zlen buf ≤ MAXOBJ →
  returns (dime_ringbuffer_write al r buf) (λ '(rc, r'),
    (rc = zlen buf ∧ ring_rep r' (bs ++ buf) ∧
     (if zlen buf =? 0 then rb_cap r' = rb_cap r
      else ring_room al (rb_cap r) (zlen bs + zlen buf) = Some (rb_cap r'))) ∨
    (rc = -1 ∧ r' = r ∧ buf ≠ [] ∧ rb_cap r ≤ zlen bs + zlen buf ∧
     al (3 * (zlen bs + zlen buf) / 2) = false)).
Proof.
  intros Hal Hrep Hbuf. unfold dime_ringbuffer_write.
  destruct (Z.eqb_spec (zlen buf) 0).
  { destruct buf; [|zlia]. left. by rewrite app_nil_r. }
  pose proof (zlen_nonneg buf).
  eapply returns_bind; [apply ring_reserve_rep; (done || lia)|].
  intros [r'|]; [intros (Hrep' & Hroom & Hcap)|intros []; right; split_and!; try done; by intros ->].
  cbv zeta. eapply returns_bind; [apply (ring_copy_rep r' bs buf); (done || lia)|].
  intros arr [Hlen Hcells]. simpl. left. split; [done|]. split; [|done].
  destruct Hrep'. pose proof (zlen_nonneg bs). unfold MAXOBJ in *.
  assert (0 ≤ rb_end r' < rb_cap r') by idx. rewrite (proj1 rr_len0). unwrap.
  split; simpl; rewrite ?zlen_app; try done; try lia.
  destruct (Z.leb_spec (rb_cap r') (rb_end r' + zlen buf)); unwrap; idx.
Qed.

Lemma write_rep al r bs buf :
  alloc_sane al → ring_rep r bs → zlen buf ≤ MAXOBJ →
  returns (dime_ringbuffer_write al r buf) (λ '(rc, r'),
    (rc = zlen buf ∧ ring_rep r' (bs ++ buf)) ∨
    (rc = -1 ∧ r' = r ∧ buf ≠ [] ∧ rb_cap r ≤ zlen bs + zlen buf ∧
     al (3 * (zlen bs + zlen buf) / 2) = false)).
Proof.
  intros Hal Hrep Hbuf. eapply returns_mono; [by apply write_exact|].
  intros [rc r'] [(-> & ? & _)|?]; auto.
Qed.

Lemma peek_rep r bs siz :
  ring_rep r bs → 0 ≤ siz →
  dime_ringbuffer_peek r siz = Ret (Z.min siz (zlen bs), take (Z.to_nat siz) bs).
Proof.
  intros [] Hsiz. unfold dime_ringbuffer_peek, MAXOBJ in *.
  rewrite (proj1 rr_len0). pose proof (zlen_nonneg bs).
  assert ((if zlen bs <? siz then zlen bs else siz) = Z.min siz (zlen bs)) as -> by idx.
  destruct (Z.eqb_spec (Z.min siz (zlen bs)) 0) as [E|Hn0].
  { rewrite E. assert (zlen (take (Z.to_nat siz) bs) = 0) by (rewrite zlen_take; lia).
    by destruct (take _ _); [|zlia]. }
  set (n := Z.min _ _) in *. set (out := take _ bs).
  assert (zlen out = n) as Hout by (subst out n; rewrite zlen_take; lia).
  assert (∀ k x, zget out k = Some x → zget bs k = Some x) as Hsub.
  { intros k x Hk. pose proof (zget_Some_lt _ _ _ Hk). subst out n.
    rewrite zlen_take in *. by rewrite zget_take in Hk by lia. }
  unwrap. destruct (Z.ltb_spec (rb_cap r - rb_begin r) n).
  - set (m := rb_cap r - rb_begin r) in *.
    assert (out = take (Z.to_nat m) out ++ drop (Z.to_nat m) out) as Hsplit
      by by rewrite take_drop.
    assert (zlen (take (Z.to_nat m) out) = m) as Hl1 by (rewrite zlen_take; lia).
    assert (zlen (drop (Z.to_nat m) out) = n - m) as Hl2 by (rewrite zlen_drop; lia).
    rewrite <-Hl1 at 1. rewrite slice_spec; [|lia..|].
    2:{ intros k x Hk. pose proof (zget_Some_lt _ _ _ Hk).
        rewrite zget_take in Hk by lia. apply Hsub, rr_cells0 in Hk.
        rewrite <-Hk. f_equal. subst m. idx. }
    unwrap. rewrite <-Hl2. rewrite slice_spec; [|lia..|].
    2:{ intros k x Hk. pose proof (zget_Some_lt _ _ _ Hk).
        rewrite zget_drop in Hk by lia. apply Hsub, rr_cells0 in Hk.
        rewrite <-Hk. f_equal. subst m. idx. }
    simpl. by rewrite <-Hsplit.
  - rewrite <-Hout. rewrite slice_spec; [done|lia..|].
    intros k x Hk. pose proof (zget_Some_lt _ _ _ Hk).
    apply Hsub, rr_cells0 in Hk. rewrite <-Hk. f_equal. idx.
Qed.

Lemma discard_rep r bs siz :
  ring_rep r bs → 0 ≤ siz →
  let '(n, r') := dime_ringbuffer_discard r siz in
  n = Z.min siz (zlen bs) ∧ ring_rep r' (drop (Z.to_nat siz) bs).
Proof.
  intros [] Hsiz. unfold dime_ringbuffer_discard, MAXOBJ in *.
  rewrite (proj1 rr_len0). pose proof (zlen_nonneg bs).
  assert ((if zlen bs <? siz then zlen bs else siz) = Z.min siz (zlen bs)) as -> by idx.
  split; [done|]. set (n := Z.min _ _) in *. unwrap.
  assert (zlen (drop (Z.to_nat siz) bs) = zlen bs - n) as Hl
    by (subst n; rewrite zlen_drop; lia).
  split; simpl; rewrite ?Hl; try done; try lia.
  1,2: destruct (Z.leb_spec (rb_cap r) (rb_begin r + n)); unwrap; idx.
  intros k x Hk. pose proof (zget_Some_lt _ _ _ Hk).
  rewrite zget_drop in Hk by lia. apply rr_cells0 in Hk. rewrite <-Hk. f_equal.
  assert (n = siz) by (subst n; lia).
  destruct (Z.leb_spec (rb_cap r) (rb_begin r + n)); unwrap; idx.
Qed.

(** ** The abstract byte stream, and traces of calls *)

Inductive ring_call :=
  | CallWrite (buf : list Z)
  | CallPeek (siz : Z)
  | CallDiscard (siz : Z)
  | CallRead (siz : Z).

Inductive ring_answer :=
  | AnsCount (n : Z)
  | AnsBytes (n : Z) (bytes : list Z).

Definition ring_exec (al : allocator) (c : ring_call) (r : dime_ringbuffer)
    : outcome (ring_answer * dime_ringbuffer) :=
  match c with
  | CallWrite buf => '(rc, r) ← dime_ringbuffer_write al r buf; Ret (AnsCount rc, r)
  | CallPeek siz => '(n, bytes) ← dime_ringbuffer_peek r siz; Ret (AnsBytes n bytes, r)
  | CallDiscard siz => let (n, r) := dime_ringbuffer_discard r siz in Ret (AnsCount n, r)
  | CallRead siz =>
      '(n, bytes, r) ← dime_ringbuffer_read r siz; Ret (AnsBytes n bytes, r)
  end.

Fixpoint ring_run (als : nat → allocator) (cs : list ring_call) (r : dime_ringbuffer)
    : outcome (list ring_answer * dime_ringbuffer) :=
  match cs with
  | [] => Ret ([], r)
  | c :: cs =>
      '(a, r) ← ring_exec (als O) c r;
      '(tr, r) ← ring_run (λ n, als (S n)) cs r;
      Ret (a :: tr, r)
  end.

(** What the buffer promises, as a function of the bytes it stores and of its
    capacity: [write] appends all its bytes, or, if they do not fit and the
    allocator refuses the array it asks for, answers [-1] and appends none;
    [peek] answers the first bytes, [discard] drops them, [read] does both. *)
Definition abs_ring (al : allocator) (c : ring_call) (s : Z * list Z)
    : ring_answer * (Z * list Z) :=
  let '(cap, bs) := s in
  match c with
  | CallWrite [] => (AnsCount 0, s)
  | CallWrite buf =>
      match ring_room al cap (zlen bs + zlen buf) with
      | Some cap => (AnsCount (zlen buf), (cap, bs ++ buf))
      | None => (AnsCount (-1), s)
      end
  | CallPeek siz => (AnsBytes (Z.min siz (zlen bs)) (take (Z.to_nat siz) bs), s)
  | CallDiscard siz => (AnsCount (Z.min siz (zlen bs)), (cap, drop (Z.to_nat siz) bs))
  | CallRead siz =>
      (AnsBytes (Z.min siz (zlen bs)) (take (Z.to_nat siz) bs), (cap, drop (Z.to_nat siz) bs))
  end.

Fixpoint abs_ring_run (als : nat → allocator) (cs : list ring_call) (s : Z * list Z)
    : list ring_answer * (Z * list Z) :=
  match cs with
  | [] => ([], s)
  | c :: cs =>
      let '(a, s) := abs_ring (als O) c s in
      let '(tr, s) := abs_ring_run (λ n, als (S n)) cs s in
      (a :: tr, s)
  end.

(** The struct [r] stores the bytes [bs] in an array of [cap] cells. *)
Definition ring_abs (r : dime_ringbuffer) (s : Z * list Z) : Prop :=
  rb_cap r = s.1 ∧ ring_rep r s.2.

(** Sizes are [size_t] values, and the caller's buffer is an object. *)
Definition ring_call_ok (c : ring_call) : Prop :=
  match c with
  | CallWrite buf => zlen buf ≤ MAXOBJ
  | CallPeek siz | CallDiscard siz | CallRead siz => 0 ≤ siz
  end.

Lemma read_rep r bs siz :
  ring_rep r bs → 0 ≤ siz →
  returns (dime_ringbuffer_read r siz) (λ '(n, bytes, r'),
    n = Z.min siz (zlen bs) ∧ bytes = take (Z.to_nat siz) bs ∧
    ring_rep r' (drop (Z.to_nat siz) bs)).
Proof.
  intros Hrep Hsiz. unfold dime_ringbuffer_read. rewrite (peek_rep r bs) by done.
  unfold mbind, outcome_bind. pose proof (zlen_nonneg bs).
  pose proof (discard_rep r bs (Z.min siz (zlen bs)) Hrep ltac:(lia)) as H'.
  destruct (dime_ringbuffer_discard r _) as [n r']. simpl. destruct H' as [-> Hrep'].
  split; [lia|]. split; [done|]. destruct (decide (siz ≤ zlen bs)).
  - by rewrite Z.min_l in Hrep' by lia.
  - rewrite Z.min_r in Hrep' by lia. unfold zlen in *.
    by rewrite drop_ge in Hrep' |- * by lia.
Qed.

Lemma discard_cap r siz : rb_cap (dime_ringbuffer_discard r siz).2 = rb_cap r.
Proof. done. Qed.

Lemma read_cap r siz n bytes r' :
  dime_ringbuffer_read r siz = Ret (n, bytes, r') → rb_cap r' = rb_cap r.
Proof.
  unfold dime_ringbuffer_read. intros ([n' b] & _ & H)%bind_ret_inv. by injection H as _ _ <-.
Qed.

Lemma ring_exec_rep al c r s :
  alloc_sane al → ring_call_ok c → ring_abs r s →
  returns (ring_exec al c r) (λ '(a, r'), ∃ s', abs_ring al c s = (a, s') ∧ ring_abs r' s').
Proof.
  destruct s as [cap bs]. intros Hal Hc [Hcap Hrep]. simpl in Hcap, Hrep. subst cap.
  destruct c as [buf|siz|siz|siz]; unfold ring_exec; simpl in Hc.
  - destruct buf as [|b buf]; [by eexists|]. pose proof (zlen_nonneg buf).
    eapply returns_bind; [by apply write_exact|]. unfold abs_ring.
    intros [rc r'] [(-> & ? & Hcap)|(-> & -> & _ & Hfull & Hno)].
    + rewrite (proj2 (Z.eqb_neq _ _)) in Hcap by zlia. rewrite Hcap. by eexists.
    + unfold ring_room. rewrite (proj2 (Z.ltb_ge _ _)) by done. rewrite Hno. by eexists.
  - rewrite (peek_rep r bs) by done. by eexists.
  - pose proof (discard_rep r bs siz Hrep Hc) as H. pose proof (discard_cap r siz).
    destruct (dime_ringbuffer_discard r siz) as [n r']. destruct H as [-> ?]. by eexists.
  - pose proof (read_rep r bs siz Hrep Hc) as H.
    apply returns_eq in H as ([[n bytes] r'] & Hread & -> & -> & ?). rewrite Hread.
    eexists. split; [done|]. split; [by eapply read_cap|done].
Qed.

Lemma ring_run_rep cs : ∀ als r s,
  (∀ n, alloc_sane (als n)) → Forall ring_call_ok cs → ring_abs r s →
  returns (ring_run als cs r)
    (λ '(tr, r'), ∃ s', abs_ring_run als cs s = (tr, s') ∧ ring_abs r' s').
Proof.
  induction cs as [|c cs IH]; intros als r s Hals Hcs Hrep; simpl.
  { eexists. by split. }
  apply Forall_cons in Hcs as [Hc Hcs].
  eapply returns_bind; [by apply ring_exec_rep|]. intros [a r1] (s1 & -> & Hrep1).
  eapply returns_bind; [eapply IH; [intros; apply Hals|done..]|].
  intros [tr r2] (s2 & -> & ?). by exists s2.
Qed.

Lemma ring_init_abs al r :
  alloc_sane al → dime_ringbuffer_init al = (0, r) → ring_abs r (1024, []).
Proof.
  intros Hal Hinit. split; [|by eapply ring_init_rep].
  unfold dime_ringbuffer_init in Hinit. by case_match; simplify_eq.
Qed.

(** The bytes that successful writes accepted, and those that reads gave. *)
Fixpoint accepted (cs : list ring_call) (tr : list ring_answer) : list Z :=
  match cs, tr with
  | CallWrite buf :: cs, AnsCount n :: tr => (if 0 <=? n then buf else []) ++ accepted cs tr
  | _ :: cs, _ :: tr => accepted cs tr
  | _, _ => []
  end.

Fixpoint delivered (cs : list ring_call) (tr : list ring_answer) : list Z :=
  match cs, tr with
  | CallRead _ :: cs, AnsBytes _ bytes :: tr => bytes ++ delivered cs tr
  | _ :: cs, _ :: tr => delivered cs tr
  | _, _ => []
  end.

Definition not_discard (c : ring_call) : Prop :=
  match c with CallDiscard _ => False | _ => True end.

Lemma abs_ring_fifo cs : ∀ als s tr s',
  abs_ring_run als cs s = (tr, s') → Forall not_discard cs →
  s.2 ++ accepted cs tr = delivered cs tr ++ s'.2.
Proof.
  induction cs as [|c cs IH]; intros als [cap bs] tr s'; cbn [abs_ring_run].
  { intros [= <- <-] _. by rewrite app_nil_r. }
  intros Hrun [Hnd Hcs]%Forall_cons.
  destruct (abs_ring (als 0%nat) c (cap, bs)) as [a s1] eqn:Hc.
  destruct (abs_ring_run (λ n, als (S n)) cs s1) as [tr1 s2] eqn:Hrest.
  injection Hrun as <- <-.
  pose proof (IH _ _ _ _ Hrest Hcs) as Heq.
  destruct c as [[|b buf]|siz|siz|siz]; simpl in *; simplify_eq/=; try done.
  - destruct (ring_room _ _ _) as [cap'|]; simplify_eq/=; [|done].
    by rewrite <-Heq, <-app_assoc.
  - by rewrite <-app_assoc, <-Heq, app_assoc, take_drop.
Qed.

(** ** Properties *)

(** C37: a sequence of [write], [peek], [discard] and [read] calls on a fresh
    ring buffer behaves exactly as on a byte string with a capacity, which
    starts at 1024, whatever the allocator answers to each call: no access is
    out of bounds or reads an indeterminate byte; a write is complete, unless
    the bytes do not fit and the allocator refuses an array half as large again
    as they need, in which case it is refused and changes nothing; and the
    struct stays well formed. *)
Theorem ringbuffer_trace_refines (al0 : allocator) (als : nat → allocator)
    (r : dime_ringbuffer) (cs : list ring_call) :
  alloc_sane al0 → (∀ n, alloc_sane (als n)) → Forall ring_call_ok cs →
  dime_ringbuffer_init al0 = (0, r) →
  ∃ tr r' cap bs, ring_run als cs r = Ret (tr, r') ∧
    abs_ring_run als cs (1024, []) = (tr, (cap, bs)) ∧
    ring_rep r' bs ∧ rb_cap r' = cap ∧ dime_ringbuffer_len r' = zlen bs.
Proof.
  intros Hal0 Hals Hcs Hinit.
  pose proof (ring_run_rep cs als r _ Hals Hcs (ring_init_abs _ _ Hal0 Hinit)) as H.
  apply returns_eq in H as ([tr r'] & ? & [cap bs] & ? & Hcap & Hrep).
  exists tr, r', cap, bs. split_and!; [done..|]. apply Hrep.
Qed.

Definition alloc_64k : allocator := λ n, n <=? 65536.

Lemma alloc_64k_sane : alloc_sane alloc_64k.
Proof. intros n. unfold alloc_64k, MAXOBJ. rewrite Z.leb_le. lia. Qed.

Definition ring0 : dime_ringbuffer := snd (dime_ringbuffer_init alloc_64k).

Lemma ring_calls_demo_ok :
  Forall ring_call_ok [CallWrite (replicate 600 1); CallRead 500;
    CallWrite (replicate 1500 2); CallPeek 3; CallDiscard 4; CallRead 9].
Proof. do 6 (apply Forall_cons; split; [vm_compute; discriminate|]). by apply Forall_nil. Qed.

Lemma ringbuffer_trace_refines_witness :
  ∃ tr r' cap bs, ring_run (λ _, alloc_64k)
    [CallWrite (replicate 600 1); CallRead 500; CallWrite (replicate 1500 2);
     CallPeek 3; CallDiscard 4; CallRead 9] ring0 = Ret (tr, r') ∧
    abs_ring_run (λ _, alloc_64k)
    [CallWrite (replicate 600 1); CallRead 500; CallWrite (replicate 1500 2);
     CallPeek 3; CallDiscard 4; CallRead 9] (1024, []) = (tr, (cap, bs)) ∧
    ring_rep r' bs ∧ rb_cap r' = cap ∧ dime_ringbuffer_len r' = zlen bs.
Proof.
  apply (ringbuffer_trace_refines alloc_64k);
    [apply alloc_64k_sane|intros _; apply alloc_64k_sane|
     apply ring_calls_demo_ok|reflexivity].
Defined.

(** The buffer is first in, first out: over a run of writes, peeks and
    reads, the bytes delivered by the reads followed by those still in the
    buffer are exactly the bytes of the successful writes, in order. *)
Theorem ringbuffer_fifo (al0 : allocator) (als : nat → allocator)
    (r : dime_ringbuffer) (cs : list ring_call) :
  alloc_sane al0 → (∀ n, alloc_sane (als n)) → Forall ring_call_ok cs →
  Forall not_discard cs → dime_ringbuffer_init al0 = (0, r) →
  ∃ tr r' bs, ring_run als cs r = Ret (tr, r') ∧ ring_rep r' bs ∧
    accepted cs tr = delivered cs tr ++ bs.
Proof.
  intros Hal0 Hals Hcs Hnd Hinit.
  pose proof (ring_run_rep cs als r _ Hals Hcs (ring_init_abs _ _ Hal0 Hinit)) as H.
  apply returns_eq in H as ([tr r'] & ? & s & Htr & _ & Hrep).
  exists tr, r', s.2. split_and!; [done..|]. by apply (abs_ring_fifo cs _ _ _ _ Htr).
Qed.

Lemma ringbuffer_fifo_witness :
  ∃ tr r' bs, ring_run (λ _, alloc_64k) [CallWrite [1; 2; 3]; CallRead 2] ring0 = Ret (tr, r') ∧
    ring_rep r' bs ∧
    accepted [CallWrite [1; 2; 3]; CallRead 2] tr =
      delivered [CallWrite [1; 2; 3]; CallRead 2] tr ++ bs.
Proof.
  apply (ringbuffer_fifo alloc_64k);
    [apply alloc_64k_sane|intros _; apply alloc_64k_sane|..|reflexivity].
  - do 2 (apply Forall_cons; split; [vm_compute; discriminate|]). by apply Forall_nil.
  - do 2 (apply Forall_cons; split; [exact I|]). by apply Forall_nil.
Defined.
