(* ===== verification/Double.v ===== *)
(** * The C [double] comparisons of the hash table

    [table.c] compares counters with fractions of other counters in
    [double]: an unsigned integer is converted, a factor is multiplied in,
    and the two sides are compared, all in IEEE 754 binary64, which
    Stdlib's [SpecFloat] gives executably. For the load factor one half the
    comparison is exact ([half_lt], [lt_half]). *)

From S2P Require Import Prelude.
From Stdlib Require Import SpecFloat.

Definition prec : Z := 53.
Definition emax : Z := 1024.

(** The conversion [(double)n]. *)
Definition double_of (n : Z) : spec_float := binary_normalize prec emax n 0 false.

Definition double_mul (x y : spec_float) : spec_float := SFmul prec emax x y.
Definition double_lt (x y : spec_float) : bool := SFltb x y.

(** [0.5], as the binary64 number [2^52 * 2^-53]. *)
Definition double_half : spec_float := S754_finite false (2 ^ 52) (-53).

(** The mantissa [m] shifted left by [k] bits. *)
Definition shl (m : positive) (k : nat) : positive := Nat.iter k xO m.

Lemma digits_shl m k : Zpos (digits2_pos (shl m k)) = Zpos (digits2_pos m) + Z.of_nat k.
Proof. induction k as [|k IH]; simpl; [lia|]. rewrite Pos2Z.inj_succ. lia. Qed.

Lemma Zpos_shl m k : Zpos (shl m k) = Zpos m * 2 ^ Z.of_nat k.
Proof.
  induction k as [|k IH]; [simpl; lia|]. rewrite Nat2Z.inj_succ, Z.pow_succ_r by lia.
  simpl. rewrite Pos2Z.inj_xO. rewrite IH. lia.
Qed.

Lemma digits_bounds m :
  2 ^ (Zpos (digits2_pos m) - 1) ≤ Zpos m < 2 ^ Zpos (digits2_pos m).
Proof.
  induction m as [m IH|m IH|]; cbn [digits2_pos]; [| |cbn; lia].
  all: rewrite Pos2Z.inj_succ; set (d := Zpos (digits2_pos m)) in *.
  all: assert (2 ^ d = 2 * 2 ^ (d - 1)) by
    (rewrite <-Z.pow_succ_r by lia; f_equal; lia).
  all: replace (Z.succ d - 1) with d by lia; rewrite Z.pow_succ_r by lia; lia.
Qed.

(** A mantissa of 53 bits is rounded to itself. *)
Lemma round_exact m e :
  Zpos (digits2_pos m) = 53 → -1074 ≤ e ≤ 971 →
  binary_round_aux prec emax false (Zpos m) e loc_Exact = S754_finite false m e.
Proof.
  intros Hm He.
  assert (∀ l, shr_fexp prec emax (Zpos m) e l = (shr_record_of_loc (Zpos m) l, e)) as Hshr.
  { intros l. unfold shr_fexp. cbn [Zdigits2]. rewrite Hm.
    replace (fexp prec emax (53 + e) - e) with 0; [done|].
    unfold fexp, emin, prec, emax. lia. }
  unfold binary_round_aux. rewrite Hshr. cbn. rewrite Hshr. cbn.
  rewrite (proj2 (Z.leb_le _ _)); [done|unfold emax, prec; lia].
Qed.

(** The normalised form of an integer below [2^53]. *)
Definition norm_shift (m : positive) : nat := Z.to_nat (53 - Zpos (digits2_pos m)).

Lemma norm_digits m : Zpos m < 2 ^ 53 → 1 ≤ Zpos (digits2_pos m) ≤ 53.
Proof.
  intros Hm. pose proof (digits_bounds m). split; [lia|].
  destruct (decide (Zpos (digits2_pos m) ≤ 53)); [done|].
  assert (2 ^ 53 ≤ 2 ^ (Zpos (digits2_pos m) - 1)) by (apply Z.pow_le_mono_r; lia). lia.
Qed.

Lemma double_of_pos m :
  Zpos m < 2 ^ 53 →
  double_of (Zpos m) =
    S754_finite false (shl m (norm_shift m)) (- Z.of_nat (norm_shift m)).
Proof.
  intros Hm. pose proof (norm_digits m Hm).
  unfold double_of, binary_normalize, binary_round, norm_shift.
  rewrite Z.add_0_r.
  assert (fexp prec emax (Zpos (digits2_pos m)) = Zpos (digits2_pos m) - 53) as ->.
  { unfold fexp, emin, prec, emax. lia. }
  unfold shl_align. rewrite Z.sub_0_r.
  set (k := Z.to_nat _). assert (Zpos (digits2_pos m) - 53 = - Z.of_nat k) as -> by lia.
  assert (match - Z.of_nat k with
    | Zneg d => (Pos.iter xO m d, - Z.of_nat k) | _ => (m, 0) end
    = (shl m k, - Z.of_nat k)) as Hk.
  { destruct k as [|k]; [done|].
    change (- Z.of_nat (S k)) with (Zneg (Pos.of_succ_nat k)). cbv iota.
    pose proof (Pos2Nat.inj_iter (Pos.of_succ_nat k) xO m) as Hi.
    rewrite SuccNat2Pos.id_succ in Hi. f_equal. exact Hi. }
  rewrite Hk.
  apply round_exact; [|lia]. rewrite digits_shl. lia.
Qed.

(** Multiplying by one half only changes the exponent. *)
Lemma double_half_mul m e :
  Zpos (digits2_pos m) = 53 → -900 ≤ e ≤ 900 →
  double_mul double_half (S754_finite false m e) = S754_finite false m (e - 1).
Proof.
  intros Hm He. unfold double_mul, double_half, SFmul. cbn [xorb].
  assert ((2 ^ 52 * m)%positive = shl m 52) as -> by reflexivity.
  assert (shr_fexp prec emax (Zpos (shl m 52)) (-53 + e) loc_Exact =
          (Build_shr_record (Zpos m) false false, e - 1)) as Hshr.
  { unfold shr_fexp. cbn [Zdigits2]. rewrite digits_shl, Hm.
    replace (fexp prec emax (53 + Z.of_nat 52 + (-53 + e)) - (-53 + e)) with 52
      by (unfold fexp, emin, prec, emax; lia).
    unfold shr. replace (-53 + e + 52) with (e - 1) by lia. reflexivity. }
  unfold binary_round_aux. rewrite Hshr.
  pose proof (round_exact m (e - 1) Hm ltac:(lia)) as Hround.
  unfold binary_round_aux in Hround. cbn in Hround |- *.
  assert (∀ l, shr_fexp prec emax (Zpos m) (e - 1) l =
            (shr_record_of_loc (Zpos m) l, e - 1)) as Hs.
  { intros l. unfold shr_fexp. cbn [Zdigits2]. rewrite Hm.
    replace (fexp prec emax (53 + (e - 1)) - (e - 1)) with 0; [done|].
    unfold fexp, emin, prec, emax. lia. }
  rewrite Hs. cbn. rewrite (proj2 (Z.leb_le _ _)); [done|unfold emax, prec; lia].
Qed.

(** Two normalised mantissas compare as the numbers they stand for. *)
Lemma norm_lt m1 e1 m2 e2 b :
  Zpos (digits2_pos m1) = 53 → Zpos (digits2_pos m2) = 53 →
  (e1 < e2 → b = true) → (e2 < e1 → b = false) → (e1 = e2 → b = (Zpos m1 <? Zpos m2)) →
  double_lt (S754_finite false m1 e1) (S754_finite false m2 e2) = b.
Proof.
  intros ?? Hlt Hgt Heq. unfold double_lt, SFltb, SFcompare.
  destruct (Z.compare_spec e1 e2) as [E|E|E].
  - rewrite (Heq E). unfold Z.ltb. cbn. fold (Pos.compare m1 m2).
    by destruct (Pos.compare m1 m2).
  - by rewrite (Hlt E).
  - by rewrite (Hgt E).
Qed.

Lemma norm_scale m :
  Zpos m < 2 ^ 53 →
  2 ^ 52 ≤ Zpos (shl m (norm_shift m)) < 2 ^ 53 ∧
  Zpos (digits2_pos (shl m (norm_shift m))) = 53 ∧
  Zpos (shl m (norm_shift m)) = Zpos m * 2 ^ Z.of_nat (norm_shift m) ∧
  0 ≤ Z.of_nat (norm_shift m) ≤ 52.
Proof.
  intros Hm. pose proof (norm_digits m Hm).
  assert (Zpos (digits2_pos (shl m (norm_shift m))) = 53) as Hd.
  { rewrite digits_shl. unfold norm_shift. lia. }
  pose proof (digits_bounds (shl m (norm_shift m))) as Hb. rewrite Hd in Hb.
  split; [done|]. split; [done|]. split; [apply Zpos_shl|]. unfold norm_shift. lia.
Qed.

(** Comparing numbers of 53 bits scaled down by different powers of two. *)
Lemma scale_cmp a b s t M N :
  0 ≤ s → 0 ≤ t → 2 ^ 52 ≤ M < 2 ^ 53 → 2 ^ 52 ≤ N < 2 ^ 53 →
  M = a * 2 ^ s → N = b * 2 ^ t → t < s → a < b.
Proof.
  intros Hs Ht HM HN -> -> Hlt.
  replace s with (t + (s - t - 1) + 1) in HM by lia.
  rewrite !Z.pow_add_r in HM by lia.
  assert (0 < 2 ^ t) by (apply Z.pow_pos_nonneg; lia).
  assert (0 < 2 ^ (s - t - 1)) by (apply Z.pow_pos_nonneg; lia).
  change (2 ^ 1) with 2 in HM. change (2 ^ 53) with (2 * 2 ^ 52) in *.
  destruct (Z.le_gt_cases b a) as [Hba|]; [|done].
  assert (b * 2 ^ t ≤ a * 2 ^ t) by nia.
  assert (a * 2 ^ t ≤ a * (2 ^ t * 2 ^ (s - t - 1))) by nia. nia.
Qed.

Lemma half_lt a b :
  0 ≤ a < 2 ^ 52 → 0 ≤ b < 2 ^ 52 →
  double_lt (double_mul double_half (double_of a)) (double_of b) = (a <? 2 * b).
Proof.
  intros Ha Hb. destruct a as [|a|a]; [..|lia].
  { destruct b as [|b|b]; [done| |lia]. rewrite (double_of_pos b) by lia. done. }
  rewrite (double_of_pos a) by lia.
  destruct (norm_scale a) as (Ha1 & Ha2 & Ha3 & Ha4); [lia|].
  rewrite double_half_mul by lia.
  destruct b as [|b|b]; [|..|lia].
  { simpl. symmetry. apply Z.ltb_ge. lia. }
  rewrite (double_of_pos b) by lia.
  destruct (norm_scale b) as (Hb1 & Hb2 & Hb3 & Hb4); [lia|].
  set (s := Z.of_nat (norm_shift a)) in *. set (t := Z.of_nat (norm_shift b)) in *.
  assert (t ≠ 0) as Ht.
  { intros Ht. rewrite Ht, Z.mul_1_r in Hb3. lia. }
  assert (Zpos (shl b (norm_shift b)) = 2 * Zpos b * 2 ^ (t - 1)) as Hb3'.
  { rewrite Hb3.
    replace t with (Z.succ (t - 1)) at 1 by lia. rewrite Z.pow_succ_r by lia. lia. }
  apply norm_lt; [done..| | |].
  - intros He. apply Z.ltb_lt.
    eapply (scale_cmp (Zpos a) (2 * Zpos b) s (t - 1)); [..|exact Ha3|exact Hb3'|]; lia.
  - intros He. apply Z.ltb_ge.
    assert (2 * Zpos b < Zpos a); [|lia].
    eapply (scale_cmp (2 * Zpos b) (Zpos a) (t - 1) s); [..|exact Hb3'|exact Ha3|]; lia.
  - intros He. replace (t - 1) with s in Hb3' by lia.
    rewrite Ha3, Hb3'. assert (0 < 2 ^ s) by (apply Z.pow_pos_nonneg; lia).
    destruct (Z.ltb_spec (Zpos a) (2 * Zpos b)); symmetry; [apply Z.ltb_lt|apply Z.ltb_ge]; nia.
Qed.

Lemma lt_half a b :
  0 ≤ a < 2 ^ 52 → 0 ≤ b < 2 ^ 52 →
  double_lt (double_of b) (double_mul double_half (double_of a)) = (2 * b <? a).
Proof.
  intros Ha Hb. destruct a as [|a|a]; [..|lia].
  { destruct b as [|b|b]; [done| |lia]. rewrite (double_of_pos b) by lia. done. }
  rewrite (double_of_pos a) by lia.
  destruct (norm_scale a) as (Ha1 & Ha2 & Ha3 & Ha4); [lia|].
  rewrite double_half_mul by lia.
  destruct b as [|b|b]; [done|..|lia].
  rewrite (double_of_pos b) by lia.
  destruct (norm_scale b) as (Hb1 & Hb2 & Hb3 & Hb4); [lia|].
  set (s := Z.of_nat (norm_shift a)) in *. set (t := Z.of_nat (norm_shift b)) in *.
  assert (t ≠ 0) as Ht.
  { intros Ht. rewrite Ht, Z.mul_1_r in Hb3. lia. }
  assert (Zpos (shl b (norm_shift b)) = 2 * Zpos b * 2 ^ (t - 1)) as Hb3'.
  { rewrite Hb3.
    replace t with (Z.succ (t - 1)) at 1 by lia. rewrite Z.pow_succ_r by lia. lia. }
  apply norm_lt; [done..| | |].
  - intros He. apply Z.ltb_lt.
    eapply (scale_cmp (2 * Zpos b) (Zpos a) (t - 1) s); [..|exact Hb3'|exact Ha3|]; lia.
  - intros He. apply Z.ltb_ge.
    assert (Zpos a < 2 * Zpos b); [|lia].
    eapply (scale_cmp (Zpos a) (2 * Zpos b) s (t - 1)); [..|exact Ha3|exact Hb3'|]; lia.
  - intros He. replace (t - 1) with s in Hb3' by lia.
    rewrite Ha3, Hb3'. assert (0 < 2 ^ s) by (apply Z.pow_pos_nonneg; lia).
    destruct (Z.ltb_spec (2 * Zpos b) (Zpos a)); symmetry; [apply Z.ltb_lt|apply Z.ltb_ge]; nia.
Qed.
