(* ===== verification/Probe.v ===== *)
(** * Probe sequences of the hash table

    [table.c] probes the slots [h], [h + 1], [h + 1 + 2], ... of an array
    whose capacity is a power of two, reducing with a bit mask. The lemmas of
    this file say that the first [cap] probes visit every slot exactly
    once. *)

From S2P Require Import Prelude.

(** [hash & (cap - 1)] and [(i + k) & (cap - 1)], on 64-bit integers. *)
Definition home (cap h : Z) : Z := Z.land h (u64 (cap - 1)).
Definition next_probe (cap i k : Z) : Z := Z.land (u64 (i + k)) (u64 (cap - 1)).

(** The slot of the [j]-th probe. *)
Fixpoint probe (cap h : Z) (j : nat) : Z :=
  match j with
  | O => home cap h
  | S j => next_probe cap (probe cap h j) (Z.of_nat (S j))
  end.

(** The capacities in use. *)
Definition cap_ok (cap : Z) : Prop := ∃ n, 5 ≤ n ≤ 47 ∧ cap = 2 ^ n.

Lemma cap_ok_bounds cap : cap_ok cap → 32 ≤ cap ≤ 2 ^ 47.
Proof.
  intros (n & Hn & ->). split.
  - change 32 with (2 ^ 5). apply Z.pow_le_mono_r; lia.
  - apply Z.pow_le_mono_r; lia.
Qed.

Lemma cap_ok_double cap : cap_ok cap → cap * 2 ≤ 2 ^ 47 → cap_ok (cap * 2).
Proof.
  intros (n & Hn & ->) Hle. exists (n + 1). rewrite Z.pow_add_r by lia. split; [|done].
  split; [lia|]. destruct (decide (n + 1 ≤ 47)); [done|].
  assert (2 ^ 47 ≤ 2 ^ n) by (apply Z.pow_le_mono_r; lia). lia.
Qed.

Lemma land_mask cap x : cap_ok cap → Z.land x (u64 (cap - 1)) = x mod cap.
Proof.
  intros Hcap. pose proof (cap_ok_bounds _ Hcap). destruct Hcap as (n & Hn & ->).
  unwrap. rewrite Z.sub_1_r, <-Z.ones_equiv. apply Z.land_ones. lia.
Qed.

Lemma mod64_mod cap x : cap_ok cap → u64 x mod cap = x mod cap.
Proof.
  intros (n & Hn & ->). unfold u64.
  replace (2 ^ 64) with (2 ^ n * 2 ^ (64 - n)) by (rewrite <-Z.pow_add_r by lia; f_equal; lia).
  assert (0 < 2 ^ n) by (apply Z.pow_pos_nonneg; lia).
  assert (0 < 2 ^ (64 - n)) by (apply Z.pow_pos_nonneg; lia).
  rewrite Z.rem_mul_r by lia. rewrite Z.mul_comm, Z_mod_plus_full.
  by rewrite Z.mod_mod by lia.
Qed.

Lemma next_probe_mod cap i k : cap_ok cap → next_probe cap i k = (i + k) mod cap.
Proof. intros Hcap. unfold next_probe. by rewrite land_mask, mod64_mod. Qed.

(** Triangular numbers. *)
Fixpoint tri (j : nat) : Z := match j with O => 0 | S j => tri j + Z.of_nat (S j) end.

Lemma tri_double j : 2 * tri j = Z.of_nat j * (Z.of_nat j + 1).
Proof. induction j as [|j IH]; [done|]. cbn [tri]. lia. Qed.

Lemma probe_mod cap h j : cap_ok cap → probe cap h j = (h + tri j) mod cap.
Proof.
  intros Hcap. pose proof (cap_ok_bounds _ Hcap). induction j as [|j IH]; cbn [probe tri].
  - unfold home. rewrite land_mask by done. by rewrite Z.add_0_r.
  - rewrite next_probe_mod, IH by done. rewrite Zplus_mod_idemp_l. f_equal. lia.
Qed.

Lemma probe_range cap h j : cap_ok cap → 0 ≤ probe cap h j < cap.
Proof.
  intros Hcap. pose proof (cap_ok_bounds _ Hcap). rewrite probe_mod by done.
  apply Z.mod_pos_bound. lia.
Qed.

(** An odd factor does not help a power of two to divide a product. *)
Lemma pow2_divide_odd n a b : Z.odd a = true → (2 ^ Z.of_nat n | a * b) → (2 ^ Z.of_nat n | b).
Proof.
  intros Ha. revert b. induction n as [|n IH]; intros b Hd; [apply Z.divide_1_l|].
  rewrite Nat2Z.inj_succ, Z.pow_succ_r in * by lia.
  assert (Z.even b = true) as Hb.
  { destruct (Z.even b) eqn:E; [done|]. destruct Hd as [q Hq].
    assert (Z.odd (a * b) = true) as Hodd
      by (rewrite Z.odd_mul, Ha, <-Z.negb_even, E; done).
    rewrite Hq in Hodd. rewrite !Z.odd_mul in Hodd. simpl in Hodd.
    by rewrite andb_false_r in Hodd. }
  apply Z.even_spec in Hb as [c ->].
  apply Z.mul_divide_mono_l, IH. destruct Hd as [q Hq]. exists q. lia.
Qed.

Lemma probe_inj cap h j1 j2 :
  cap_ok cap → Z.of_nat j1 < cap → Z.of_nat j2 < cap →
  probe cap h j1 = probe cap h j2 → j1 = j2.
Proof.
  intros Hcap. revert j1 j2.
  assert (∀ j1 j2, (j1 < j2)%nat → Z.of_nat j2 < cap →
            probe cap h j1 ≠ probe cap h j2) as Hlt.
  { intros j1 j2 Hj Hj2 Heq. rewrite !probe_mod in Heq by done.
    pose proof (cap_ok_bounds _ Hcap). destruct Hcap as (n & Hn & ->).
    assert (2 ^ n | tri j2 - tri j1) as [q Hq].
    { apply Z.mod_divide; [lia|]. replace (tri j2 - tri j1) with
        ((h + tri j2) - (h + tri j1)) by lia.
      by rewrite Zminus_mod, Heq, Z.sub_diag, Z.mod_0_l by lia. }
    pose proof (tri_double j1). pose proof (tri_double j2).
    set (a := Z.of_nat j2 - Z.of_nat j1). set (b := Z.of_nat j1 + Z.of_nat j2 + 1).
    assert (Hn' : 2 ^ Z.of_nat (Z.to_nat (n + 1)) = 2 * 2 ^ n).
    { rewrite Z2Nat.id, Z.pow_add_r by lia. lia. }
    assert (2 ^ Z.of_nat (Z.to_nat (n + 1)) | a * b) as Hd.
    { rewrite Hn'. exists q. subst a b. lia. }
    destruct (Z.odd a) eqn:Ea.
    - apply pow2_divide_odd, Z.divide_pos_le in Hd; [|subst b; lia|done].
      rewrite Hn' in Hd. subst b. lia.
    - rewrite Z.mul_comm in Hd.
      apply pow2_divide_odd, Z.divide_pos_le in Hd; [|subst a; lia|].
      + rewrite Hn' in Hd. subst a. lia.
      + replace b with (a + 2 * Z.of_nat j1 + 1) by (subst a b; lia).
        rewrite !Z.odd_add, Ea, Z.odd_mul. done. }
  intros j1 j2 H1 H2 Heq. destruct (Nat.lt_trichotomy j1 j2) as [Hj|[Hj|Hj]]; [|done|].
  - by destruct (Hlt j1 j2 Hj H2).
  - by destruct (Hlt j2 j1 Hj H1).
Qed.

(** Every slot is probed. *)
Lemma probe_surj cap h s :
  cap_ok cap → 0 ≤ s < cap → ∃ j, Z.of_nat j < cap ∧ probe cap h j = s.
Proof.
  intros Hcap Hs. set (l := probe cap h <$> seq 0 (Z.to_nat cap)).
  assert (NoDup l) as Hnd.
  { apply NoDup_fmap_2_strong; [|apply NoDup_seq].
    intros x y Hx%elem_of_seq Hy%elem_of_seq. apply probe_inj; (done || lia). }
  assert (l ⊆+ seqZ 0 cap) as Hsub.
  { apply NoDup_submseteq; [done|]. intros x (j & -> & _)%list_elem_of_fmap.
    apply elem_of_seqZ. pose proof (probe_range cap h j Hcap). lia. }
  apply submseteq_length_Permutation in Hsub.
  2:{ subst l. rewrite length_fmap, length_seq, length_seqZ. done. }
  assert (s ∈ l) as (j & -> & Hj%elem_of_seq)%list_elem_of_fmap.
  { rewrite Hsub. apply elem_of_seqZ. lia. }
  exists j. split; [lia|done].
Qed.
