(* ===== verification/Table.v ===== *)
(** * Hash table ([server/table.c]): data and operations

    Open addressing with the probe sequence of [Probe]. The proofs are in
    [TableRelocate] (the in-place rehash) and [TableSpec] (the table as a
    finite map). *)

From S2P Require Import Prelude Double Probe.
From Stdlib Require Import SpecFloat.

(** [dime_table_elem_t]: the [use] field as constructor, with the fields the
    code reads when the element is occupied. *)
Inductive dime_table_elem (K V : Type) :=
  | ELEM_FREE
  | ELEM_OCCUPIED (hash : Z) (key : K) (val : V)
  | ELEM_REMOVED.
Arguments ELEM_FREE {K V}.
Arguments ELEM_OCCUPIED {K V} hash key val.
Arguments ELEM_REMOVED {K V}.

Record dime_table (K V : Type) := Table {
  tb_len : Z;
  tb_arr : list (dime_table_elem K V);
  tb_cap : Z;
  tb_ncollisions : Z;
  tb_nfree : Z;
}.
Arguments Table {K V} _ _ _ _ _.
Arguments tb_len {K V} _.
Arguments tb_arr {K V} _.
Arguments tb_cap {K V} _.
Arguments tb_ncollisions {K V} _.
Arguments tb_nfree {K V} _.

(** The two factors as binary64 numbers; [0.20225424859373685602] rounds to
    [7286977268806824 * 2^-55]. *)
Definition MAX_LOAD_FACTOR : spec_float := double_half.
Definition MAX_OVERFLOW_FACTOR : spec_float := S754_finite false 7286977268806824 (-55).

Definition sizeof_elem : Z := 32.

Section table.
Context {K V : Type}.
Variable cmp_f : K → K → Z.
Variable hash_f : K → Z.
Implicit Types (tbl : dime_table K V) (e : dime_table_elem K V).

Definition tget tbl (i : Z) : outcome (dime_table_elem K V) :=
  match zget (tb_arr tbl) i with Some e => Ret e | None => Undef end.

Definition tset tbl (i : Z) e : outcome (dime_table K V) :=
  if decide (0 ≤ i < zlen (tb_arr tbl))
  then Ret (Table (tb_len tbl) (zset (tb_arr tbl) i e) (tb_cap tbl)
                  (tb_ncollisions tbl) (tb_nfree tbl))
  else Undef.

Definition with_len tbl n : dime_table K V :=
  Table n (tb_arr tbl) (tb_cap tbl) (tb_ncollisions tbl) (tb_nfree tbl).
Definition with_ncollisions tbl n : dime_table K V :=
  Table (tb_len tbl) (tb_arr tbl) (tb_cap tbl) n (tb_nfree tbl).
Definition with_nfree tbl n : dime_table K V :=
  Table (tb_len tbl) (tb_arr tbl) (tb_cap tbl) (tb_ncollisions tbl) n.

(** One turn of the [while] loop of [dime_table_relocate]; [rec] is the
    recursive call, the state is the table with [i] and [k]. *)
Definition relocate_step (rec : dime_table K V → Z → outcome (dime_table K V))
    (s : dime_table K V * Z * Z)
    : outcome (dime_table K V * Z * Z + dime_table K V * Z * Z) :=
  let '(tbl, i, k) := s in
  tbl ← rec tbl i;
  e ← tget tbl i;
  match e with
  | ELEM_OCCUPIED _ _ _ => Ret (inl (tbl, next_probe (tb_cap tbl) i k, u64 (k + 1)))
  | _ => Ret (inr (tbl, i, k))
  end.

(** The recursion is bounded by [fuel] and the loop by the capacity. *)
Fixpoint dime_table_relocate (fuel : nat) tbl (i0 : Z) : outcome (dime_table K V) :=
  match fuel with
  | O => Diverge
  | S fuel =>
      e ← tget tbl i0;
      match e with
      | ELEM_OCCUPIED hash _ _ =>
          let i := home (tb_cap tbl) hash in
          if i =? i0 then Ret tbl
          else
            tbl ← tset tbl i0 ELEM_FREE;
            '(tbl, i, k) ← loop (relocate_step (dime_table_relocate fuel))
                                (Z.to_nat (tb_cap tbl)) (tbl, i, 1);
            tbl ← tset tbl i e;
            if 1 <? k then Ret (with_ncollisions tbl (u64 (tb_ncollisions tbl + 1)))
            else Ret tbl
      | _ => tset tbl i0 ELEM_FREE
      end
  end.

(** Relocating the slots of a list in turn; the fuel allows one recursive
    call per slot of the table. *)
Definition relocate_all (slots : list Z) tbl : outcome (dime_table K V) :=
  foldo (λ i tbl, dime_table_relocate (S (Z.to_nat (tb_cap tbl))) tbl i) slots tbl.

Definition dime_table_grow (al : allocator) tbl : outcome (bool * dime_table K V) :=
  let cap := tb_cap tbl in
  let ncap := u64 (Z.shiftl cap 1) in
  let bytes := u64 (ncap * sizeof_elem) in
  if al bytes then
    let arr := resize (Z.to_nat (bytes / sizeof_elem)) ELEM_FREE (tb_arr tbl) in
    tbl ← relocate_all (reverse (seqZ 0 cap))
            (Table (tb_len tbl) arr ncap 0 (u64 (ncap - tb_len tbl)));
    Ret (true, tbl)
  else Ret (false, tbl).

Definition dime_table_init (al : allocator) : Z * dime_table K V :=
  let cap := 32 in
  if al (cap * sizeof_elem)
  then (0, Table 0 (replicate (Z.to_nat cap) ELEM_FREE) cap 0 cap)
  else (-1, Table 0 [] cap 0 cap).

(** The search for a slot in [dime_table_insert]. [None]: the key was met;
    otherwise the slot, its index and the number of the probe. *)
Definition insert_step tbl (key : K) (s : Z * Z)
    : outcome (Z * Z + option (Z * Z * dime_table_elem K V)) :=
  let (i, k) := s in
  e ← tget tbl i;
  match e with
  | ELEM_OCCUPIED _ key' _ =>
      if cmp_f key key' =? 0 then Ret (inr None)
      else Ret (inl (next_probe (tb_cap tbl) i k, u64 (k + 1)))
  | _ => Ret (inr (Some (i, k, e)))
  end.

(** [(double)tbl->len > MAX_LOAD_FACTOR * tbl->cap] and its two companions. *)
Definition over_load tbl : bool :=
  double_lt (double_mul MAX_LOAD_FACTOR (double_of (tb_cap tbl))) (double_of (tb_len tbl)).
Definition over_collisions tbl : bool :=
  double_lt (double_mul MAX_OVERFLOW_FACTOR (double_of (tb_len tbl)))
            (double_of (tb_ncollisions tbl)).
Definition under_free tbl : bool :=
  double_lt (double_of (tb_nfree tbl))
            (double_mul MAX_LOAD_FACTOR (double_of (tb_cap tbl))).

(** What [dime_table_insert] does before it looks for a slot; [None]: the
    table is full and cannot grow. *)
Definition insert_grow (al : allocator) tbl : outcome (option (dime_table K V)) :=
  if tb_cap tbl <=? tb_len tbl then
    '(ok, tbl) ← dime_table_grow al tbl;
    Ret (if ok : bool then Some tbl else None)
  else if over_load tbl then
    '(_, tbl) ← dime_table_grow al tbl; Ret (Some tbl)
  else Ret (Some tbl).

(** What it does after it filled the slot: the collision count, and the
    free count if the slot was free. *)
Definition insert_collision (al : allocator) (k : Z) tbl : outcome (dime_table K V) :=
  if 1 <? k then
    let tbl := with_ncollisions tbl (u64 (tb_ncollisions tbl + 1)) in
    if over_collisions tbl then '(_, tbl) ← dime_table_grow al tbl; Ret tbl
    else Ret tbl
  else Ret tbl.

Definition insert_free (prevuse : dime_table_elem K V) tbl : outcome (dime_table K V) :=
  match prevuse with
  | ELEM_FREE =>
      let tbl := with_nfree tbl (u64 (tb_nfree tbl - 1)) in
      if under_free tbl then
        relocate_all (seqZ 0 (tb_cap tbl))
          (with_nfree tbl (u64 (tb_cap tbl - tb_len tbl)))
      else Ret tbl
  | _ => Ret tbl
  end.

Definition dime_table_insert (als : nat → allocator) tbl (key : K) (val : V)
    : outcome (Z * dime_table K V) :=
  r ← insert_grow (als 0%nat) tbl;
  match r with
  | None => Ret (-1, tbl)
  | Some tbl =>
      let hash := hash_f key in
      slot ← loop (insert_step tbl key) (S (Z.to_nat (tb_cap tbl)))
                  (home (tb_cap tbl) hash, 1);
      match slot with
      | None => Ret (-1, tbl)
      | Some (i, k, prevuse) =>
          tbl ← tset tbl i (ELEM_OCCUPIED hash key val);
          tbl ← insert_collision (als 1%nat) k (with_len tbl (u64 (tb_len tbl + 1)));
          tbl ← insert_free prevuse tbl;
          Ret (0, tbl)
      end
  end.

(** [dime_table_search]; the state adds [firstavail] to [i] and [k]. *)
Definition search_step tbl (key : K) (s : Z * Z * Z)
    : outcome (Z * Z * Z + option (Z * Z * dime_table_elem K V)) :=
  let '(i, k, firstavail) := s in
  e ← tget tbl i;
  let next fa := Ret (inl (next_probe (tb_cap tbl) i k, u64 (k + 1), fa)) in
  match e with
  | ELEM_FREE => Ret (inr None)
  | ELEM_OCCUPIED _ key' _ =>
      if cmp_f key key' =? 0 then Ret (inr (Some (i, firstavail, e))) else next firstavail
  | ELEM_REMOVED => next (if firstavail =? SIZE_MAX then i else firstavail)
  end.

Definition dime_table_search tbl (key : K) : outcome (option V * dime_table K V) :=
  let first := home (tb_cap tbl) (hash_f key) in
  r ← loop (search_step tbl key) (S (Z.to_nat (tb_cap tbl))) (first, 1, SIZE_MAX);
  match r with
  | None => Ret (None, tbl)
  | Some (i, firstavail, e) =>
      '(i, tbl) ← (if firstavail =? SIZE_MAX then Ret (i, tbl)
                   else
                     tbl ← tset tbl firstavail e;
                     tbl ← tset tbl i ELEM_REMOVED;
                     let tbl := if first =? firstavail
                       then with_ncollisions tbl (u64 (tb_ncollisions tbl - 1)) else tbl in
                     Ret (firstavail, tbl));
      e ← tget tbl i;
      match e with
      | ELEM_OCCUPIED _ _ val => Ret (Some val, tbl)
      | _ => Undef
      end
  end.

(** The loop [dime_table_search_r] and [dime_table_remove] share. *)
Definition find_step tbl (key : K) (s : Z * Z) : outcome (Z * Z + option (Z * V)) :=
  let (i, k) := s in
  e ← tget tbl i;
  let next := Ret (inl (next_probe (tb_cap tbl) i k, u64 (k + 1))) in
  match e with
  | ELEM_FREE => Ret (inr None)
  | ELEM_OCCUPIED _ key' val =>
      if cmp_f key key' =? 0 then Ret (inr (Some (i, val))) else next
  | ELEM_REMOVED => next
  end.

Definition table_find tbl (key : K) : outcome (option (Z * V)) :=
  loop (find_step tbl key) (S (Z.to_nat (tb_cap tbl))) (home (tb_cap tbl) (hash_f key), 1).

Definition dime_table_search_r tbl (key : K) : outcome (option V) :=
  r ← table_find tbl key;
  match r with None => Ret None | Some (_, val) => Ret (Some val) end.

Definition dime_table_remove tbl (key : K) : outcome (option V * dime_table K V) :=
  r ← table_find tbl key;
  match r with
  | None => Ret (None, tbl)
  | Some (i, val) =>
      tbl ← tset tbl i ELEM_REMOVED;
      Ret (Some val, with_len tbl (u64 (tb_len tbl - 1)))
  end.

Definition dime_table_len tbl : Z := tb_len tbl.

(** The iterator: its index, [SIZE_MAX] at first. *)
Definition dime_table_iter_init : Z := SIZE_MAX.

Definition iter_step tbl (i : Z) : outcome (Z + Z * option (K * V)) :=
  let i := u64 (i + 1) in
  if i <? tb_cap tbl then
    e ← tget tbl i;
    match e with
    | ELEM_OCCUPIED _ key val => Ret (inr (i, Some (key, val)))
    | _ => Ret (inl i)
    end
  else if i =? tb_cap tbl then Ret (inr (i, None)) else Undef.

Definition dime_table_iter_next tbl (i : Z) : outcome (Z * option (K * V)) :=
  loop (iter_step tbl) (S (Z.to_nat (tb_cap tbl))) i.

(** [while (dime_table_iter_next(&it))] with a body run on each element. *)
Definition table_foreach_step {P} tbl (f : K * V → P → outcome P) (s : Z * P)
    : outcome (Z * P + P) :=
  let (i, p) := s in
  '(i, kv) ← dime_table_iter_next tbl i;
  match kv with
  | None => Ret (inr p)
  | Some kv => p ← f kv p; Ret (inl (i, p))
  end.

Definition table_foreach {P} tbl (f : K * V → P → outcome P) (p : P) : outcome P :=
  loop (table_foreach_step tbl f) (S (Z.to_nat (tb_cap tbl))) (dime_table_iter_init, p).

(** [dime_table_apply]: the callback says whether to go on. *)
Definition apply_step {P} tbl (f : K → V → P → P * bool) (s : Z * P)
    : outcome (Z * P + P) :=
  let (i, p) := s in
  if i <? tb_cap tbl then
    e ← tget tbl i;
    match e with
    | ELEM_OCCUPIED _ key val =>
        let (p, go) := f key val p in
        if go : bool then Ret (inl (u64 (i + 1), p)) else Ret (inr p)
    | _ => Ret (inl (u64 (i + 1), p))
    end
  else Ret (inr p).

Definition dime_table_apply {P} tbl (f : K → V → P → P * bool) (p : P) : outcome P :=
  loop (apply_step tbl f) (S (Z.to_nat (tb_cap tbl))) (0, p).
End table.
