(* ===== verification/TableRelocate.v ===== *)
(** * The in-place rehash of the hash table

    [dime_table_relocate] takes the element of a slot out of the array and
    puts it back at the first slot of its probe sequence that is not taken,
    after it relocated, recursively, every slot it met on the way. The proof
    that this terminates and loses nothing keeps the list [L] of the slots
    that are settled, in the order they became so: each holds an element
    whose earlier probes are all settled before it. A settled slot never
    changes again; a slot just relocated is free or settled. *)

From S2P Require Import Prelude Probe Table.

Section relocate.
Context {K V : Type}.
Implicit Types (tbl : dime_table K V) (arr : list (dime_table_elem K V)) (L : list Z)
  (e : dime_table_elem K V).

Definition elem_entry e : option (Z * K * V) :=
  match e with ELEM_OCCUPIED h k v => Some (h, k, v) | _ => None end.

(** The stored elements: hash, key and value. *)
Definition entries arr : list (Z * K * V) := omap elem_entry arr.

Lemma omap_cons_option {A B} (f : A → option B) x l :
  omap f (x :: l) = option_list (f x) ++ omap f l.
Proof. simpl. by destruct (f x). Qed.

(** Updating a cell exchanges what the old and the new element contribute. *)
Lemma omap_zset {B} (f : dime_table_elem K V → option B) arr i e e' :
  zget arr i = Some e →
  option_list (f e) ++ omap f (zset arr i e') ≡ₚ option_list (f e') ++ omap f arr.
Proof.
  intros (l1 & l2 & -> & -> & _)%(zset_split _ _ _ e').
  rewrite !omap_app, !omap_cons_option. solve_Permutation.
Qed.

Lemma entries_zset arr i e e' :
  zget arr i = Some e →
  option_list (elem_entry e) ++ entries (zset arr i e') ≡ₚ
  option_list (elem_entry e') ++ entries arr.
Proof. apply omap_zset. Qed.

Lemma entries_cons e arr : entries (e :: arr) = option_list (elem_entry e) ++ entries arr.
Proof. apply omap_cons_option. Qed.

Lemma entries_app arr1 arr2 : entries (arr1 ++ arr2) = entries arr1 ++ entries arr2.
Proof. apply omap_app. Qed.

Lemma entries_length arr : (length (entries arr) ≤ length arr)%nat.
Proof.
  induction arr as [|e arr IH]; [done|]. rewrite entries_cons, length_app.
  destruct (elem_entry e); simpl; lia.
Qed.

Lemma entries_elem arr h k v :
  (h, k, v) ∈ entries arr ↔ ∃ i, zget arr i = Some (ELEM_OCCUPIED h k v).
Proof.
  unfold entries. rewrite list_elem_of_omap. split.
  - intros (e & (n & Hn)%list_elem_of_lookup & He). exists (Z.of_nat n).
    rewrite zget_nat, Hn. destruct e; simplify_eq/=; done.
  - intros [i Hi]. exists (ELEM_OCCUPIED h k v). split; [|done].
    unfold zget in Hi. case_decide; [|done].
    by eapply list_elem_of_lookup_2.
Qed.

Definition used arr (i : Z) : Prop := ∃ h k v, zget arr i = Some (ELEM_OCCUPIED h k v).

Lemma used_length L : ∀ arr,
  NoDup L → (∀ i, i ∈ L → used arr i) → (length L ≤ length (entries arr))%nat.
Proof.
  induction L as [|i L IH]; intros arr Hnd Hused; simpl; [lia|].
  apply NoDup_cons in Hnd as [Hi Hnd].
  destruct (Hused i) as (h & k & v & Hget); [set_solver|].
  assert (length L ≤ length (entries (zset arr i ELEM_FREE)))%nat as Hle.
  { apply IH; [done|]. intros i' Hi'. destruct (Hused i') as (h' & k' & v' & ?); [set_solver|].
    exists h', k', v'. rewrite zget_zset_ne by set_solver. done. }
  pose proof (entries_zset arr i _ ELEM_FREE Hget) as Hp%Permutation_length.
  simpl in Hp. lia.
Qed.

(** [L] lists settled slots, each after the slots it depends on. *)
Definition orderly (cap : Z) arr L : Prop :=
  NoDup L ∧ ∀ m i, L !! m = Some i → ∃ h k v j,
    zget arr i = Some (ELEM_OCCUPIED h k v) ∧ Z.of_nat j < cap ∧ probe cap h j = i ∧
    ∀ j', (j' < j)%nat → probe cap h j' ∈ take m L.

Lemma orderly_nil cap arr : orderly cap arr [].
Proof. split; [constructor|]. intros m i Hm. by rewrite lookup_nil in Hm. Qed.

Lemma orderly_used cap arr L i : orderly cap arr L → i ∈ L → used arr i.
Proof.
  intros [_ HL] [m Hm]%list_elem_of_lookup. destruct (HL m i Hm) as (h & k & v & j & ? & _).
  by exists h, k, v.
Qed.

Lemma orderly_ext cap arr arr' L :
  (∀ i, i ∈ L → zget arr' i = zget arr i) → orderly cap arr L → orderly cap arr' L.
Proof.
  intros Heq [Hnd HL]. split; [done|]. intros m i Hm.
  destruct (HL m i Hm) as (h & k & v & j & Hget & ?). exists h, k, v, j.
  rewrite Heq; [done|]. by eapply list_elem_of_lookup_2.
Qed.

Lemma orderly_take cap arr L m : orderly cap arr L → orderly cap arr (take m L).
Proof.
  intros [Hnd HL]. split.
  - rewrite <-(take_drop m L) in Hnd. by apply NoDup_app in Hnd as [? _].
  - intros n i Hn. pose proof (lookup_lt_Some _ _ _ Hn) as Hlt. rewrite length_take in Hlt.
    rewrite lookup_take_lt in Hn by lia.
    destruct (HL n i Hn) as (h & k & v & j & ? & ? & ? & Hj). exists h, k, v, j.
    split_and!; [done..|]. intros j' Hj'. rewrite take_take, Nat.min_l by lia. by apply Hj.
Qed.

Lemma orderly_snoc cap arr L i h k v j :
  orderly cap arr L → i ∉ L → zget arr i = Some (ELEM_OCCUPIED h k v) →
  Z.of_nat j < cap → probe cap h j = i → (∀ j', (j' < j)%nat → probe cap h j' ∈ L) →
  orderly cap arr (L ++ [i]).
Proof.
  intros [Hnd HL] Hi Hget Hj Hp Hprev. split.
  { apply NoDup_app. split; [done|]. split; [set_solver|]. apply NoDup_singleton. }
  intros m i' Hm. apply lookup_snoc_Some in Hm as [[Hlt Hm]|[-> <-]].
  - destruct (HL m i' Hm) as (h' & k' & v' & j1 & ? & ? & ? & Hj1). exists h', k', v', j1.
    split_and!; [done..|]. intros j' Hj'. rewrite take_app_le by lia. by apply Hj1.
  - exists h, k, v, j. split_and!; [done..|]. intros j' Hj'.
    rewrite take_app_length. by apply Hprev.
Qed.

(** A slot the rehash need not come back to. *)
Definition clean arr L (i : Z) : Prop := zget arr i = Some ELEM_FREE ∨ i ∈ L.

(** What relocations do to the array and to the settled slots. *)
Record reloc_rel (cap : Z) arr L arr' L' : Prop := {
  rl_zlen : zlen arr' = zlen arr;
  rl_prefix : L `prefix_of` L';
  rl_orderly : orderly cap arr' L';
  rl_perm : entries arr' ≡ₚ entries arr;
  rl_keep i : i ∈ L → zget arr' i = zget arr i;
  rl_clean i : clean arr L i → clean arr' L' i;
}.

Lemma reloc_refl cap arr L : orderly cap arr L → reloc_rel cap arr L arr L.
Proof. by split. Qed.

Lemma reloc_trans cap arr1 L1 arr2 L2 arr3 L3 :
  reloc_rel cap arr1 L1 arr2 L2 → reloc_rel cap arr2 L2 arr3 L3 →
  reloc_rel cap arr1 L1 arr3 L3.
Proof.
  intros [] []. split; [congruence|by etrans|done|by etrans| |auto].
  intros i Hi. rewrite rl_keep1; [auto|]. by eapply elem_of_prefix.
Qed.

(** The table with another array and collision count. *)
Definition upd tbl arr nc : dime_table K V :=
  Table (tb_len tbl) arr (tb_cap tbl) nc (tb_nfree tbl).

Lemma tset_upd tbl i e :
  0 ≤ i < zlen (tb_arr tbl) →
  tset tbl i e = Ret (upd tbl (zset (tb_arr tbl) i e) (tb_ncollisions tbl)).
Proof. intros. unfold tset. by rewrite decide_True. Qed.

Lemma tget_zget tbl i e : zget (tb_arr tbl) i = Some e → tget tbl i = Ret e.
Proof. intros H. unfold tget. by rewrite H. Qed.

Lemma probe_S cap h j :
  cap_ok cap → Z.of_nat j < cap →
  next_probe cap (probe cap h j) (Z.of_nat j + 1) = probe cap h (S j) ∧
  u64 (Z.of_nat j + 1 + 1) = Z.of_nat (S j) + 1.
Proof.
  intros Hcap Hj. pose proof (cap_ok_bounds _ Hcap). split; [|unwrap; lia].
  cbn [probe]. f_equal. lia.
Qed.

(** The loop of [dime_table_relocate] over probes whose slots are settled:
    if every recursive call leaves the table as it is, up to the collision
    count, the loop stops at the first slot that is not in use. *)
Lemma relocate_loop_settled (rec : dime_table K V → Z → outcome (dime_table K V))
    cap tbl h j : ∀ d j1 n nc,
  cap_ok cap → tb_cap tbl = cap → j = (j1 + d)%nat → (d < n)%nat → Z.of_nat j < cap →
  (∀ j' nc, (j1 ≤ j' < j)%nat → used (tb_arr tbl) (probe cap h j') ∧
     ∃ nc', rec (upd tbl (tb_arr tbl) nc) (probe cap h j') = Ret (upd tbl (tb_arr tbl) nc')) →
  (∀ nc, ∃ nc', rec (upd tbl (tb_arr tbl) nc) (probe cap h j)
     = Ret (upd tbl (tb_arr tbl) nc')) →
  zget (tb_arr tbl) (probe cap h j) = Some ELEM_FREE →
  ∃ nc', loop (relocate_step rec) n (upd tbl (tb_arr tbl) nc, probe cap h j1, Z.of_nat j1 + 1)
    = Ret (upd tbl (tb_arr tbl) nc', probe cap h j, Z.of_nat j + 1).
Proof.
  induction d as [|d IH]; intros j1 [|n] nc Hcap Htc Hj Hn Hjc Hprev Hlast Hfree; try lia.
  - replace j1 with j by lia. destruct (Hlast nc) as [nc' Hrec].
    exists nc'. simpl. rewrite Hrec. simpl. by rewrite (tget_zget (upd tbl (tb_arr tbl) nc') _ _ Hfree).
  - destruct (Hprev j1 nc) as [(h' & k' & v' & Hget) [nc' Hrec]]; [lia|].
    destruct (IH (S j1) n nc') as [nc'' Hloop]; try done; try lia.
    { intros j' nc0 Hj'. apply Hprev. lia. }
    exists nc''. rewrite <-Hloop. simpl loop at 1. rewrite Hrec. simpl.
    rewrite (tget_zget (upd tbl (tb_arr tbl) nc') _ _ Hget). simpl. rewrite Htc.
    destruct (probe_S cap h j1 Hcap) as [Hp Hk]; [lia|]. by rewrite Hp, Hk.
Qed.

(** Relocating a settled slot changes nothing but the collision count. *)
Lemma relocate_settled m : ∀ fuel tbl L i0,
  cap_ok (tb_cap tbl) → zlen (tb_arr tbl) = tb_cap tbl →
  orderly (tb_cap tbl) (tb_arr tbl) L → L !! m = Some i0 →
  (length (entries (tb_arr tbl)) < fuel)%nat →
  ∃ nc, dime_table_relocate fuel tbl i0 = Ret (upd tbl (tb_arr tbl) nc).
Proof.
  induction (lt_wf m) as [m _ IH]. intros [|fuel] tbl L i0 Hcap Hlen HL Hm Hfuel; [lia|].
  pose proof HL as [Hnd HL']. destruct (HL' m i0 Hm) as (h & k & v & j & Hget & Hj & Hp & Hprev).
  pose proof (zget_Some_lt _ _ _ Hget) as Hi0.
  set (arr := tb_arr tbl) in *. set (cap := tb_cap tbl) in *.
  set (arr1 := zset arr i0 ELEM_FREE).
  cbn [dime_table_relocate]. rewrite (tget_zget tbl i0 _ Hget). simpl. fold cap.
  destruct (Z.eqb_spec (home cap h) i0) as [|Hhome].
  { exists (tb_ncollisions tbl). subst arr. by destruct tbl. }
  rewrite tset_upd by done. simpl. fold arr arr1.
  pose proof (entries_zset arr i0 _ ELEM_FREE Hget) as Hperm%Permutation_length.
  simpl in Hperm. fold arr1 in Hperm.
  assert (zlen arr1 = cap) as Hlen1 by (subst arr1; by rewrite zlen_zset).
  assert (i0 ∉ take m L) as Hni0.
  { intros (m' & Hm')%list_elem_of_lookup. pose proof (lookup_lt_Some _ _ _ Hm') as Hlt.
    rewrite length_take in Hlt. rewrite lookup_take_lt in Hm' by lia.
    pose proof (NoDup_lookup _ _ _ _ Hnd Hm' Hm). lia. }
  assert (orderly cap arr1 (take m L)) as HL1.
  { eapply orderly_ext; [|by apply orderly_take]. intros i Hi. subst arr1.
    apply zget_zset_ne. by intros ->. }
  assert (zget arr1 i0 = Some ELEM_FREE) as Hfree by (by apply zget_zset_eq).
  set (tbl1 := upd tbl arr1 (tb_ncollisions tbl)).
  destruct (relocate_loop_settled (dime_table_relocate fuel) cap tbl1 h j j O
              (Z.to_nat cap) (tb_ncollisions tbl)) as [nc Hloop]; try done.
  - lia.
  - intros j' nc Hj'. assert (probe cap h j' ∈ take m L) as Hin by (apply Hprev; lia).
    split; [by eapply orderly_used|].
    apply list_elem_of_lookup in Hin as [m' Hm'].
    pose proof (lookup_lt_Some _ _ _ Hm') as Hlt. rewrite length_take in Hlt.
    apply (IH m' ltac:(lia) fuel (upd tbl1 arr1 nc) (take m L)); try done. simpl. lia.
  - intros nc. rewrite Hp. exists nc. destruct fuel as [|fuel]; [lia|].
    cbn [dime_table_relocate]. rewrite (tget_zget (upd tbl1 (tb_arr tbl1) nc) i0 _ Hfree). simpl.
    rewrite tset_upd by (simpl; lia). by rewrite zset_id.
  - by rewrite Hp.
  - match goal with |- context [loop ?st ?n ?s] =>
      replace (loop st n s) with (Ret (upd tbl1 (tb_arr tbl1) nc, probe cap h j, Z.of_nat j + 1))
    end.
    simpl.
    rewrite Hp, tset_upd by (simpl; lia). simpl.
    unfold arr1. rewrite zset_zset, (zset_id _ _ _ Hget).
    destruct (1 <? Z.of_nat j + 1); eexists; done.
Qed.

(** The specification of one relocation, as the invariant of the recursion. *)
Definition relocates (rec : dime_table K V → Z → outcome (dime_table K V)) (bound : nat)
    (cap : Z) : Prop :=
  ∀ tbl L i0, tb_cap tbl = cap → zlen (tb_arr tbl) = cap → 0 ≤ i0 < cap →
    orderly cap (tb_arr tbl) L → (length (entries (tb_arr tbl)) < bound)%nat →
    ∃ arr' nc L', rec tbl i0 = Ret (upd tbl arr' nc) ∧
      reloc_rel cap (tb_arr tbl) L arr' L' ∧ clean arr' L' i0.

(** Too many settled slots for the elements there are. *)
Lemma probes_settled_lt cap arr L h j :
  cap_ok cap → orderly cap arr L → (∀ j', (j' < j)%nat → probe cap h j' ∈ L) →
  Z.of_nat j ≤ cap → Z.of_nat j ≤ zlen (entries arr).
Proof.
  intros Hcap HL Hj Hle.
  assert (length (probe cap h <$> seq 0 j) ≤ length L)%nat as Hlen.
  { apply submseteq_length, NoDup_submseteq.
    - apply NoDup_fmap_2_strong; [|apply NoDup_seq].
      intros x y Hx%elem_of_seq Hy%elem_of_seq. apply probe_inj; (done || lia).
    - intros x (j' & -> & Hj'%elem_of_seq)%list_elem_of_fmap. apply Hj. lia. }
  rewrite length_fmap, length_seq in Hlen.
  pose proof (used_length L arr (proj1 HL) (λ i, orderly_used _ _ _ i HL)). unfold zlen. lia.
Qed.

Lemma clean_cases cap arr L i :
  orderly cap arr L → clean arr L i →
  zget arr i = Some ELEM_FREE ∨ (i ∈ L ∧ used arr i).
Proof. intros HL [?|Hi]; [by left|right; split; [done|by eapply orderly_used]]. Qed.

Lemma relocate_loop (rec : dime_table K V → Z → outcome (dime_table K V)) bound cap h :
  cap_ok cap → relocates rec bound cap →
  ∀ d j1 tbl L, tb_cap tbl = cap → zlen (tb_arr tbl) = cap →
  orderly cap (tb_arr tbl) L → (length (entries (tb_arr tbl)) < bound)%nat →
  zlen (entries (tb_arr tbl)) < cap → cap = Z.of_nat j1 + Z.of_nat d →
  (∀ j', (j' < j1)%nat → probe cap h j' ∈ L) →
  ∃ arr' nc L' j,
    loop (relocate_step rec) d (tbl, probe cap h j1, Z.of_nat j1 + 1)
      = Ret (upd tbl arr' nc, probe cap h j, Z.of_nat j + 1) ∧
    reloc_rel cap (tb_arr tbl) L arr' L' ∧ Z.of_nat j < cap ∧
    (∀ j', (j' < j)%nat → probe cap h j' ∈ L') ∧
    zget arr' (probe cap h j) = Some ELEM_FREE.
Proof.
  intros Hcap Hrec. induction d as [|d IH]; intros j1 tbl L Htc Hlen HL Hb Hroom Hd Hj1.
  { pose proof (probes_settled_lt cap _ L h j1 Hcap HL Hj1). lia. }
  destruct (Hrec tbl L (probe cap h j1)) as (arr1 & nc1 & L1 & Hr & Hrel & Hat); try done.
  { by apply probe_range. }
  pose proof Hrel as [Hz1 Hpre1 HL1 Hperm1 Hkeep1 Hclean1].
  simpl loop. rewrite Hr. simpl.
  destruct (clean_cases _ _ _ _ HL1 Hat) as [Hfree|[Hin (h' & k' & v' & Hget)]].
  - rewrite (tget_zget (upd tbl arr1 nc1) _ _ Hfree). simpl.
    exists arr1, nc1, L1, j1. split_and!; try done; try lia.
    intros j' Hj'. eapply elem_of_prefix; [by apply Hj1|done].
  - rewrite (tget_zget (upd tbl arr1 nc1) _ _ Hget). simpl. rewrite Htc.
    destruct (probe_S cap h j1 Hcap) as [-> ->]; [lia|].
    pose proof (Permutation_length Hperm1) as Hplen.
    destruct (IH (S j1) (upd tbl arr1 nc1) L1) as (arr2 & nc2 & L2 & j & Hloop & Hrel2 & ?);
      try done; simpl; try lia.
    + unfold zlen in *. lia.
    + intros j' Hj'. destruct (decide (j' = j1)) as [->|]; [done|].
      eapply elem_of_prefix; [apply Hj1; lia|done].
    + exists arr2, nc2, L2, j. split_and!; try apply H; try done.
      by eapply reloc_trans.
Qed.

(** Putting the element taken from [i0] at the slot the loop stopped at. *)
Lemma reloc_place cap arr L i0 h k v arr2 L2 j :
  cap_ok cap → zget arr i0 = Some (ELEM_OCCUPIED h k v) → i0 ∉ L → orderly cap arr L →
  reloc_rel cap (zset arr i0 ELEM_FREE) L arr2 L2 → Z.of_nat j < cap →
  zlen arr = cap →
  (∀ j', (j' < j)%nat → probe cap h j' ∈ L2) →
  zget arr2 (probe cap h j) = Some ELEM_FREE →
  let i := probe cap h j in
  let arr3 := zset arr2 i (ELEM_OCCUPIED h k v) in
  reloc_rel cap arr L arr3 (L2 ++ [i]) ∧ clean arr3 (L2 ++ [i]) i0.
Proof.
  intros Hcap Hget Hi0 HL [Hz2 Hpre2 HL2 Hperm2 Hkeep2 Hclean2] Hj Hlen Hprev Hfree i arr3.
  assert (i ∉ L2) as Hi.
  { intros Hin. destruct (orderly_used _ _ _ _ HL2 Hin) as (? & ? & ? & Hu).
    subst i. rewrite Hfree in Hu. done. }
  pose proof (zget_Some_lt _ _ _ Hfree) as Hir. fold i in Hir, Hfree.
  pose proof (zget_Some_lt _ _ _ Hget) as Hi0r.
  assert (∀ x, clean arr2 L2 x → clean arr3 (L2 ++ [i]) x) as Hmono.
  { intros x [Hx|Hx]; [|right; set_solver].
    destruct (decide (x = i)) as [->|]; [right; set_solver|left].
    subst arr3. by rewrite zget_zset_ne. }
  split; [split|].
  - subst arr3. rewrite zlen_zset, Hz2. by rewrite zlen_zset.
  - by apply prefix_app_r.
  - eapply orderly_snoc; [|done|by apply zget_zset_eq|done|done|done].
    eapply orderly_ext; [|done]. intros x Hx. apply zget_zset_ne. by intros <-.
  - pose proof (entries_zset arr2 i _ (ELEM_OCCUPIED h k v) Hfree) as Hp1.
    pose proof (entries_zset arr i0 _ ELEM_FREE Hget) as Hp2. simpl in Hp1, Hp2.
    subst arr3. rewrite Hp1, Hperm2. by rewrite Hp2.
  - intros x Hx. subst arr3. rewrite zget_zset_ne.
    + rewrite Hkeep2 by done. apply zget_zset_ne. by intros ->.
    + intros <-. apply Hi. by eapply elem_of_prefix.
  - intros x [Hx|Hx].
    + apply Hmono, Hclean2. left. rewrite zget_zset_ne; [done|]. intros ->. congruence.
    + right. apply elem_of_app. left. by eapply elem_of_prefix.
  - apply Hmono, Hclean2. left. by apply zget_zset_eq.
Qed.

(** A slot without an element becomes free. *)
Lemma reloc_clear cap tbl L i0 e :
  zget (tb_arr tbl) i0 = Some e → elem_entry e = None → i0 ∉ L → orderly cap (tb_arr tbl) L →
  ∃ arr' nc L', tset tbl i0 ELEM_FREE = Ret (upd tbl arr' nc) ∧
    reloc_rel cap (tb_arr tbl) L arr' L' ∧ clean arr' L' i0.
Proof.
  intros He Hnone Hnin HL. pose proof (zget_Some_lt _ _ _ He).
  rewrite tset_upd by lia. do 2 eexists. exists L. split; [done|].
  assert (∀ i, i ∈ L → zget (zset (tb_arr tbl) i0 ELEM_FREE) i = zget (tb_arr tbl) i) as Hk.
  { intros i Hi. apply zget_zset_ne. by intros ->. }
  split; [split|left; apply zget_zset_eq; lia].
  - by rewrite zlen_zset.
  - done.
  - by eapply orderly_ext.
  - pose proof (entries_zset _ i0 e ELEM_FREE He) as Hp. by rewrite Hnone in Hp.
  - done.
  - intros i [Hi|Hi]; [left|by right]. destruct (decide (i = i0)) as [->|].
    + apply zget_zset_eq. lia.
    + by rewrite zget_zset_ne.
Qed.

(** An element at its first slot stays. *)
Lemma reloc_home cap arr L i0 h k v :
  cap_ok cap → zget arr i0 = Some (ELEM_OCCUPIED h k v) → i0 ∉ L → orderly cap arr L →
  home cap h = i0 → reloc_rel cap arr L arr (L ++ [i0]) ∧ clean arr (L ++ [i0]) i0.
Proof.
  intros Hcap He Hnin HL Hhome. pose proof (cap_ok_bounds _ Hcap).
  split; [|right; set_solver]. split; [done|by apply prefix_app_r| |done|done|].
  - eapply (orderly_snoc cap _ L i0 h k v 0); try done; [lia|]. intros j' ?. lia.
  - intros i [Hi|Hi]; [by left|right; set_solver].
Qed.

Lemma relocate_spec cap fuel :
  cap_ok cap → relocates (dime_table_relocate fuel) fuel cap.
Proof.
  intros Hcap. induction fuel as [|fuel IH]; intros tbl L i0 Htc Hlen Hi0 HL Hfuel; [lia|].
  destruct (decide (i0 ∈ L)) as [Hin|Hnin].
  { apply list_elem_of_lookup in Hin as [m Hm].
    destruct (relocate_settled m (S fuel) tbl L i0) as [nc Hnc]; try (by rewrite Htc); try done.
    exists (tb_arr tbl), nc, L. split; [done|]. split; [by apply reloc_refl|].
    right. by eapply list_elem_of_lookup_2. }
  destruct (zget_is_Some (tb_arr tbl) i0) as [e He]; [lia|].
  pose proof (cap_ok_bounds _ Hcap).
  cbn [dime_table_relocate]. rewrite (tget_zget tbl i0 _ He). simpl.
  destruct e as [|h k v|]; [by eapply reloc_clear| |by eapply reloc_clear].
  rewrite Htc. destruct (Z.eqb_spec (home cap h) i0) as [Hhome|Hhome].
  { exists (tb_arr tbl), (tb_ncollisions tbl), (L ++ [i0]).
    split; [by destruct tbl|]. by eapply reloc_home. }
  rewrite tset_upd by lia. simpl. rewrite Htc.
  set (tbl1 := upd tbl (zset (tb_arr tbl) i0 ELEM_FREE) (tb_ncollisions tbl)).
  pose proof (entries_zset _ i0 _ ELEM_FREE He) as Hp%Permutation_length. simpl in Hp.
  pose proof (entries_length (tb_arr tbl)).
  destruct (relocate_loop (dime_table_relocate fuel) fuel cap h Hcap IH (Z.to_nat cap) 0 tbl1 L)
    as (arr2 & nc2 & L2 & j & Hloop & Hrel & Hj & Hprev & Hfree); simpl; try done; try lia.
  - by rewrite zlen_zset.
  - eapply orderly_ext; [|done]. intros i Hi. apply zget_zset_ne. by intros ->.
  - unfold zlen in *. lia.
  - match goal with |- context [loop ?st ?n ?s] =>
      replace (loop st n s) with (Ret (upd tbl1 arr2 nc2, probe cap h j, Z.of_nat j + 1))
    end.
    pose proof (reloc_place cap (tb_arr tbl) L i0 h k v arr2 L2 j Hcap He Hnin HL Hrel Hj
                  Hlen Hprev Hfree) as [Hrel' Hat].
    pose proof (zget_Some_lt _ _ _ Hfree).
    simpl. rewrite tset_upd by done. simpl.
    destruct (1 <? _); eexists _, _, _; (split; [reflexivity|done]).
Qed.

(** Relocating a list of slots makes them all free or settled. *)
Lemma relocate_all_spec slots : ∀ tbl L,
  cap_ok (tb_cap tbl) → zlen (tb_arr tbl) = tb_cap tbl →
  Forall (λ i, 0 ≤ i < tb_cap tbl) slots → orderly (tb_cap tbl) (tb_arr tbl) L →
  ∃ arr' nc L', relocate_all slots tbl = Ret (upd tbl arr' nc) ∧
    reloc_rel (tb_cap tbl) (tb_arr tbl) L arr' L' ∧ (∀ i, i ∈ slots → clean arr' L' i).
Proof.
  induction slots as [|i slots IH]; intros tbl L Hcap Hlen Hslots HL.
  { exists (tb_arr tbl), (tb_ncollisions tbl), L. split; [by destruct tbl|].
    split; [by apply reloc_refl|]. set_solver. }
  apply Forall_cons in Hslots as [Hi Hslots].
  pose proof (entries_length (tb_arr tbl)).
  destruct (relocate_spec (tb_cap tbl) (S (Z.to_nat (tb_cap tbl))) Hcap tbl L i)
    as (arr1 & nc1 & L1 & Hr & Hrel & Hat); try done.
  { unfold zlen in *. lia. }
  destruct (IH (upd tbl arr1 nc1) L1) as (arr2 & nc2 & L2 & Hrs & Hrel2 & Hcl); try done.
  { simpl. rewrite (rl_zlen _ _ _ _ _ Hrel). done. }
  { apply Hrel. }
  exists arr2, nc2, L2. split.
  { unfold relocate_all in *. cbn [foldo]. rewrite Hr. exact Hrs. }
  split; [by eapply reloc_trans|]. intros i' [->|Hi']%elem_of_cons; [|by apply Hcl].
  by apply (rl_clean _ _ _ _ _ Hrel2).
Qed.
End relocate.
