(* ===== verification/TableSpec.v ===== *)
(** * The hash table as a finite map

    [table_rep tbl m]: the C table [tbl] is well formed and stores the finite
    map [m]. Under it every operation of [Table] answers what the map
    operation answers. [hole tbl] says that some element of the array is
    free, which is what makes unsuccessful searches end. *)

From S2P Require Import Prelude Double Probe Table TableRelocate.

Section spec.
Context {K V : Type} `{Countable K}.
Variable cmp_f : K → K → Z.
Variable hash_f : K → Z.
(** The comparison function decides equality of keys. *)
Hypothesis cmp_eq : ∀ a b, cmp_f a b = 0 ↔ a = b.
Implicit Types (tbl : dime_table K V) (arr : list (dime_table_elem K V)) (m : gmap K V).

Definition free_entry (e : dime_table_elem K V) : option unit :=
  match e with ELEM_FREE => Some () | _ => None end.

(** The number of free elements. *)
Definition frees arr : Z := zlen (omap free_entry arr).

Definition hole tbl : Prop := ∃ i, zget (tb_arr tbl) i = Some ELEM_FREE.

(** The keys and values, in the order of the array. *)
Definition kvs arr : list (K * V) := (λ e : Z * K * V, (e.1.2, e.2)) <$> entries arr.

(** Every element can be reached from its home slot. *)
Definition reachable arr : Prop := ∀ i h k v,
  zget arr i = Some (ELEM_OCCUPIED h k v) →
  ∃ j, Z.of_nat j < zlen arr ∧ probe (zlen arr) h j = i ∧
    ∀ j', (j' < j)%nat → zget arr (probe (zlen arr) h j') ≠ Some ELEM_FREE.

Record table_rep tbl m : Prop := {
  tr_cap : cap_ok (tb_cap tbl);
  tr_zlen : zlen (tb_arr tbl) = tb_cap tbl;
  tr_bytes : tb_cap tbl * sizeof_elem ≤ MAXOBJ;
  tr_len : tb_len tbl = zlen (entries (tb_arr tbl));
  tr_hash h k v : (h, k, v) ∈ entries (tb_arr tbl) → h = hash_f k;
  tr_keys : NoDup (kvs (tb_arr tbl)).*1;
  tr_reach : reachable (tb_arr tbl);
  tr_nfree : 0 ≤ tb_nfree tbl ≤ frees (tb_arr tbl) ∧
    (tb_nfree tbl = frees (tb_arr tbl) ∨ tb_cap tbl ≤ 2 * tb_nfree tbl);
  tr_map : m = list_to_map (kvs (tb_arr tbl));
}.

(** ** Counting *)

Lemma frees_zset arr i e e' :
  zget arr i = Some e →
  frees (zset arr i e') = frees arr + zlen (option_list (free_entry e'))
                          - zlen (option_list (free_entry e)).
Proof.
  intros Hp%(omap_zset free_entry arr i e e')%Permutation_length.
  rewrite !length_app in Hp. unfold frees, zlen. lia.
Qed.

Lemma frees_bound arr : 0 ≤ frees arr ≤ zlen arr - zlen (entries arr).
Proof.
  induction arr as [|e arr IH]; [done|]. unfold frees in *.
  rewrite omap_cons_option, entries_cons. destruct e; simpl; zlia.
Qed.

Lemma frees_hole tbl : hole tbl ↔ 0 < frees (tb_arr tbl).
Proof.
  unfold hole, frees. split.
  - intros [i Hi]. pose proof (frees_zset _ _ _ ELEM_REMOVED Hi) as Hz.
    pose proof (frees_bound (zset (tb_arr tbl) i ELEM_REMOVED)). unfold frees, zlen in *.
    simpl in Hz. lia.
  - intros Hpos. destruct (omap free_entry (tb_arr tbl)) as [|u l] eqn:E; [done|].
    assert (u ∈ omap free_entry (tb_arr tbl)) as Hu by (rewrite E; left).
    apply list_elem_of_omap in Hu as (e & [n Hn]%list_elem_of_lookup & He).
    exists (Z.of_nat n). rewrite zget_nat, Hn. by destruct e.
Qed.

Lemma zget_cons_shift (e : dime_table_elem K V) arr i :
  0 ≤ i → zget (e :: arr) (i + 1) = zget arr i.
Proof. intros. rewrite zget_cons_S by lia. f_equal. lia. Qed.

(** Without removed elements, what is not in use is free. *)
Lemma frees_exact arr :
  (∀ i, 0 ≤ i < zlen arr → zget arr i = Some ELEM_FREE ∨ used arr i) →
  frees arr = zlen arr - zlen (entries arr).
Proof.
  induction arr as [|e arr IH]; intros Hall; [done|]. unfold frees in *.
  rewrite omap_cons_option, entries_cons.
  assert (zlen (omap free_entry arr) = zlen arr - zlen (entries arr)) as IH'.
  { apply IH. intros i Hi. unfold used. rewrite <-(zget_cons_shift e) by lia.
    apply Hall. zlia. }
  destruct (Hall 0) as [Hg|(h & k & v & Hg)]; [zlia|..];
    rewrite zget_cons_0 in Hg; simplify_eq; simpl; zlia.
Qed.

Lemma kvs_elem arr k v : (k, v) ∈ kvs arr ↔ ∃ h, (h, k, v) ∈ entries arr.
Proof.
  unfold kvs. rewrite list_elem_of_fmap. split.
  - intros ([[h k'] v'] & [=-> ->] & ?). eauto.
  - intros [h ?]. by exists (h, k, v).
Qed.

Lemma rep_lookup tbl m k v :
  table_rep tbl m → m !! k = Some v ↔
  ∃ i, zget (tb_arr tbl) i = Some (ELEM_OCCUPIED (hash_f k) k v).
Proof.
  intros []. rewrite tr_map0, <-elem_of_list_to_map, kvs_elem by done. split.
  - intros [h Hin]. pose proof (tr_hash0 _ _ _ Hin). subst h. by apply entries_elem.
  - intros Hi%entries_elem. eauto.
Qed.

Lemma rep_get tbl m i h k v :
  table_rep tbl m → zget (tb_arr tbl) i = Some (ELEM_OCCUPIED h k v) →
  h = hash_f k ∧ m !! k = Some v.
Proof.
  intros Hrep Hi. assert (h = hash_f k) as ->.
  { eapply tr_hash; [done|]. apply entries_elem. eauto. }
  split; [done|]. apply (rep_lookup tbl); eauto.
Qed.

Lemma rep_size tbl m : table_rep tbl m → dime_table_len tbl = Z.of_nat (size m).
Proof.
  intros []. unfold dime_table_len. rewrite tr_len0, tr_map0.
  unfold zlen. rewrite <-(length_fmap (λ e : Z * K * V, (e.1.2, e.2)) (entries _)).
  fold (kvs (tb_arr tbl)). rewrite <-length_map_to_list.
  by rewrite (Permutation_length (map_to_list_to_map _ tr_keys0)).
Qed.

(** ** Probing for a key *)

(** An element the probe for [k] passes over. *)
Definition skips (k : K) (e : dime_table_elem K V) : Prop :=
  match e with
  | ELEM_FREE => False
  | ELEM_OCCUPIED _ k' _ => k' ≠ k
  | ELEM_REMOVED => True
  end.

Instance skips_dec k e : Decision (skips k e).
Proof. destruct e; simpl; apply _. Defined.

Lemma probe_get tbl m h j :
  table_rep tbl m → ∃ e, zget (tb_arr tbl) (probe (tb_cap tbl) h j) = Some e.
Proof.
  intros []. apply zget_is_Some. rewrite tr_zlen0. by apply probe_range.
Qed.

(** The probe for [k] stops at its element if the map has one, and at a
    free element otherwise. *)
Lemma probe_stop tbl m k :
  table_rep tbl m → hole tbl ∨ is_Some (m !! k) →
  ∃ j, Z.of_nat j < tb_cap tbl ∧
    (∀ j', (j' < j)%nat → ∃ e,
       zget (tb_arr tbl) (probe (tb_cap tbl) (hash_f k) j') = Some e ∧ skips k e) ∧
    zget (tb_arr tbl) (probe (tb_cap tbl) (hash_f k) j) = Some
      match m !! k with
      | Some v => ELEM_OCCUPIED (hash_f k) k v
      | None => ELEM_FREE
      end.
Proof.
  intros Hrep Hor. pose proof Hrep as [].
  set (cell j := zget (tb_arr tbl) (probe (tb_cap tbl) (hash_f k) j)).
  set (P := λ j, match cell j with Some e => ¬ skips k e | None => False end).
  assert (∀ j, Decision (P j)).
  { intros j. unfold P. destruct (cell j); apply _. }
  assert (∃ n, Z.of_nat n < tb_cap tbl ∧ P n ∧
    (is_Some (m !! k) → ∀ j', (j' < n)%nat → cell j' ≠ Some ELEM_FREE)) as (n & Hn & HP & Hnf).
  { destruct (m !! k) as [v|] eqn:E.
    - apply (rep_lookup tbl) in E as [i Hi]; [|done].
      destruct (tr_reach0 _ _ _ _ Hi) as (j & Hj & Hp & Hprev). rewrite tr_zlen0 in *.
      exists j. split; [done|]. split; [|by intros _].
      unfold P, cell. rewrite Hp, Hi. simpl. by intros [].
    - destruct Hor as [[i Hi]|[v [=]]]. pose proof (zget_Some_lt _ _ _ Hi).
      destruct (probe_surj (tb_cap tbl) (hash_f k) i) as (j & Hj & Hp); [done|lia|].
      exists j. split; [done|]. split; [|by intros []].
      unfold P, cell. rewrite Hp, Hi. by intros []. }
  destruct (least_nat P n HP) as (j & Hj & HPj & Hmin).
  exists j. split; [lia|]. split.
  - intros j' Hj'. destruct (probe_get tbl m (hash_f k) j' Hrep) as [e He].
    exists e. split; [done|]. specialize (Hmin j' Hj'). unfold P, cell in Hmin.
    rewrite He in Hmin. by destruct (decide (skips k e)).
  - unfold P in HPj. fold (cell j). destruct (cell j) as [e|] eqn:E; [|done].
    destruct e as [|h k' v'|]; simpl in HPj; [| |done].
    + destruct (m !! k) as [v|] eqn:Em; [|done].
      destruct (decide (j = n)) as [->|].
      * exfalso. unfold P in HP. rewrite E in HP. simpl in HP.
        apply (rep_lookup tbl) in Em as [i Hi]; [|done].
        destruct (tr_reach0 _ _ _ _ Hi) as (jt & Hjt & Hp & Hprev). rewrite tr_zlen0 in *.
        destruct (decide (jt ≤ n)%nat).
        -- destruct (decide (jt = n)) as [->|].
           { unfold cell in E. rewrite Hp in E. congruence. }
           apply (Hmin jt ltac:(lia)). unfold P, cell. rewrite Hp, Hi. simpl. by intros [].
        -- apply (Hprev n ltac:(lia)). done.
      * exfalso. eapply (Hnf ltac:(eauto) j); [lia|done].
    + assert (k' = k) as -> by (destruct (decide (k' = k)); [done|by destruct HPj]).
      destruct (rep_get tbl m _ _ _ _ Hrep E) as [-> ->]. done.
Qed.

Lemma cmp_eqb a b : (cmp_f a b =? 0) = bool_decide (a = b).
Proof.
  destruct (Z.eqb_spec (cmp_f a b) 0) as [E|E]; symmetry.
  - apply bool_decide_eq_true_2. by apply cmp_eq.
  - apply bool_decide_eq_false_2. by rewrite <-cmp_eq.
Qed.

Lemma cmp_refl a : (cmp_f a a =? 0) = true.
Proof. rewrite cmp_eqb. by apply bool_decide_eq_true_2. Qed.

Lemma cmp_ne a b : b ≠ a → (cmp_f a b =? 0) = false.
Proof. intros. rewrite cmp_eqb. by apply bool_decide_eq_false_2. Qed.

(** The state of the probing loops before the [j]-th probe. *)
Definition probe_state cap h (j : nat) : Z * Z := (probe cap h j, Z.of_nat j + 1).

Lemma probe_state_S cap h j :
  cap_ok cap → Z.of_nat j < cap →
  (next_probe cap (probe cap h j) (Z.of_nat j + 1), u64 (Z.of_nat j + 1 + 1))
  = probe_state cap h (1 + j).
Proof.
  intros Hcap Hj. destruct (probe_S cap h j Hcap Hj) as [-> ->]. done.
Qed.

Lemma find_spec tbl m k :
  table_rep tbl m → hole tbl ∨ is_Some (m !! k) →
  match m !! k with
  | Some v => ∃ i, table_find cmp_f hash_f tbl k = Ret (Some (i, v)) ∧
      zget (tb_arr tbl) i = Some (ELEM_OCCUPIED (hash_f k) k v)
  | None => table_find cmp_f hash_f tbl k = Ret None
  end.
Proof.
  intros Hrep Hor. destruct (probe_stop tbl m k Hrep Hor) as (j & Hj & Hprev & Hstop).
  pose proof (tr_cap _ _ Hrep) as Hcap. set (cap := tb_cap tbl) in *.
  assert (∀ r, find_step cmp_f tbl k (probe_state cap (hash_f k) j) = Ret (inr r) →
    table_find cmp_f hash_f tbl k = Ret r) as Hgo.
  { intros r Hr. unfold table_find. fold cap.
    apply (loop_iter _ (probe_state cap (hash_f k)) r j); [|done|lia].
    intros j' Hj'. destruct (Hprev j' Hj') as (e & He & Hskip). unfold find_step, probe_state at 1.
    rewrite (tget_zget tbl _ _ He). simpl. fold cap.
    rewrite probe_state_S by (done || lia).
    destruct e as [|h' k' v'|]; simpl in Hskip; [done| |done]. by rewrite cmp_ne. }
  unfold find_step, probe_state in Hgo. rewrite (tget_zget tbl _ _ Hstop) in Hgo.
  destruct (m !! k) as [v|]; simpl in Hgo.
  - rewrite cmp_refl in Hgo. eauto.
  - by apply Hgo.
Qed.

(** ** Unsuccessful and read-only searches, removal *)

Lemma search_r_spec tbl m k :
  table_rep tbl m → hole tbl ∨ is_Some (m !! k) →
  dime_table_search_r cmp_f hash_f tbl k = Ret (m !! k).
Proof.
  intros Hrep Hor. pose proof (find_spec tbl m k Hrep Hor) as Hf.
  unfold dime_table_search_r.
  destruct (m !! k) as [v|]; [destruct Hf as (i & -> & _)|rewrite Hf]; done.
Qed.

Lemma kvs_perm arr arr' : entries arr' ≡ₚ entries arr → kvs arr' ≡ₚ kvs arr.
Proof. intros Hp. unfold kvs. by rewrite Hp. Qed.

(** A change of the array that keeps the stored elements. *)
Lemma rep_same_entries tbl tbl' m :
  table_rep tbl m → cap_ok (tb_cap tbl') → zlen (tb_arr tbl') = tb_cap tbl' →
  tb_cap tbl' * sizeof_elem ≤ MAXOBJ → tb_len tbl' = tb_len tbl →
  entries (tb_arr tbl') ≡ₚ entries (tb_arr tbl) → reachable (tb_arr tbl') →
  0 ≤ tb_nfree tbl' ≤ frees (tb_arr tbl') →
  (tb_nfree tbl' = frees (tb_arr tbl') ∨ tb_cap tbl' ≤ 2 * tb_nfree tbl') →
  table_rep tbl' m.
Proof.
  intros [] Hcap Hlen Hb Htl Hp Hr Hnf Hnf'. pose proof (kvs_perm _ _ Hp) as Hk.
  split; try done.
  - rewrite Htl, tr_len0. unfold zlen. by rewrite Hp.
  - intros h k v Hin. rewrite Hp in Hin. eauto.
  - by rewrite Hk.
  - rewrite tr_map0. symmetry. apply list_to_map_proper; [by rewrite Hk|done].
Qed.

Lemma remove_spec tbl m k :
  table_rep tbl m → hole tbl ∨ is_Some (m !! k) →
  returns (dime_table_remove cmp_f hash_f tbl k) (λ '(r, tbl'),
    r = m !! k ∧ table_rep tbl' (delete k m) ∧ tb_cap tbl' = tb_cap tbl ∧
    (hole tbl → hole tbl')).
Proof.
  intros Hrep Hor. pose proof (find_spec tbl m k Hrep Hor) as Hf.
  unfold dime_table_remove. destruct (m !! k) as [v|] eqn:Hm.
  2:{ rewrite Hf. simpl. split_and!; try done. by rewrite delete_id. }
  destruct Hf as (i & -> & Hi). simpl. pose proof (zget_Some_lt _ _ _ Hi).
  pose proof Hrep as []. rewrite tset_upd by done. simpl.
  pose proof (entries_zset _ _ _ ELEM_REMOVED Hi) as Hp. simpl in Hp.
  pose proof (frees_zset _ _ _ ELEM_REMOVED Hi) as Hfr. simpl in Hfr.
  set (arr := tb_arr tbl) in *. set (arr' := zset arr i ELEM_REMOVED) in *.
  assert (kvs arr ≡ₚ (k, v) :: kvs arr') as Hk.
  { unfold kvs. by rewrite <-Hp. }
  rewrite Hk in tr_keys0. simpl in tr_keys0.
  pose proof (zlen_nonneg (entries arr')). pose proof (Permutation_length Hp) as Hpl.
  simpl in Hpl. pose proof (cap_ok_bounds _ tr_cap0).
  assert (zlen arr' = zlen arr) as Hz by (subst arr'; apply zlen_zset).
  pose proof (entries_length arr).
  split; [done|]. split; [split; simpl; try done|split; [done|]].
  - lia.
  - unfold zlen in *. unwrap. lia.
  - intros h' k' v' Hin. apply (tr_hash0 h' k' v'). rewrite <-Hp. by right.
  - by apply NoDup_cons in tr_keys0 as [_ ?].
  - intros i' h' k' v' Hi'. rewrite Hz. destruct (decide (i' = i)) as [->|Hne].
    { subst arr'. by rewrite zget_zset_eq in Hi' by done. }
    subst arr'. rewrite zget_zset_ne in Hi' by done.
    destruct (tr_reach0 _ _ _ _ Hi') as (j & Hj & Hpj & Hprev).
    exists j. split; [done|]. split; [done|]. intros j' Hj'.
    destruct (decide (probe (zlen arr) h' j' = i)) as [->|Hne'].
    + by rewrite zget_zset_eq by done.
    + rewrite zget_zset_ne by done. by apply Hprev.
  - unfold zlen in *. lia.
  - rewrite tr_map0. transitivity (delete k (list_to_map ((k, v) :: kvs arr') : gmap K V)).
    + f_equal. apply list_to_map_proper; [by rewrite Hk|done].
    + simpl. rewrite delete_insert_id; [done|].
      apply not_elem_of_list_to_map_1. by apply NoDup_cons in tr_keys0 as [? _].
  - rewrite !frees_hole. simpl. unfold zlen in *. fold arr arr'. lia.
Qed.

(** ** The search that moves what it finds *)

Lemma reachable_change arr arr' :
  zlen arr' = zlen arr → reachable arr →
  (∀ i, zget arr' i = Some ELEM_FREE → zget arr i = Some ELEM_FREE) →
  (∀ i h k v, zget arr' i = Some (ELEM_OCCUPIED h k v) →
     zget arr i = Some (ELEM_OCCUPIED h k v) ∨
     ∃ j, Z.of_nat j < zlen arr ∧ probe (zlen arr) h j = i ∧
       ∀ j', (j' < j)%nat → zget arr (probe (zlen arr) h j') ≠ Some ELEM_FREE) →
  reachable arr'.
Proof.
  intros Hlen Hr Hfree Hocc i h k v Hi. rewrite Hlen.
  assert (∃ j, Z.of_nat j < zlen arr ∧ probe (zlen arr) h j = i ∧
       ∀ j', (j' < j)%nat → zget arr (probe (zlen arr) h j') ≠ Some ELEM_FREE)
    as (j & ? & ? & Hprev).
  { destruct (Hocc i h k v Hi) as [Hi'|]; [by apply (Hr _ _ _ _ Hi')|done]. }
  exists j. split_and!; [done..|]. intros j' Hj' Hf. by apply (Hprev j' Hj'), Hfree.
Qed.

(** Moving the element of slot [i] to the removed slot [fa] that its probe
    met before. *)
Lemma move_rep tbl m k v j0 j nc :
  table_rep tbl m → (j0 < j)%nat → Z.of_nat j < tb_cap tbl →
  let fa := probe (tb_cap tbl) (hash_f k) j0 in
  let i := probe (tb_cap tbl) (hash_f k) j in
  let e := ELEM_OCCUPIED (hash_f k) k v in
  zget (tb_arr tbl) fa = Some ELEM_REMOVED → zget (tb_arr tbl) i = Some e →
  (∀ j', (j' < j)%nat →
     zget (tb_arr tbl) (probe (tb_cap tbl) (hash_f k) j') ≠ Some ELEM_FREE) →
  let tbl' := upd tbl (zset (zset (tb_arr tbl) fa e) i ELEM_REMOVED) nc in
  table_rep tbl' m ∧ (hole tbl → hole tbl').
Proof.
  intros Hrep Hj0 Hj fa i e Hfa Hi Hprev tbl'. pose proof Hrep as [].
  assert (fa ≠ i) as Hne by (intros Heq; rewrite Heq, Hi in Hfa; done).
  pose proof (zget_Some_lt _ _ _ Hfa). pose proof (zget_Some_lt _ _ _ Hi).
  set (arr := tb_arr tbl) in *. set (arr1 := zset arr fa e) in *.
  assert (zget arr1 i = Some e) as Hi1 by (subst arr1; by rewrite zget_zset_ne).
  pose proof (entries_zset _ _ _ e Hfa) as Hp1.
  pose proof (entries_zset _ _ _ ELEM_REMOVED Hi1) as Hp2.
  pose proof (frees_zset _ _ _ e Hfa) as Hf1. pose proof (frees_zset _ _ _ ELEM_REMOVED Hi1) as Hf2.
  simpl in Hp1, Hp2, Hf1, Hf2. fold arr1 in Hp1, Hf1.
  set (arr2 := zset arr1 i ELEM_REMOVED) in *.
  assert (frees arr2 = frees arr) as Hf by (unfold zlen in *; simpl in *; lia).
  assert (zlen arr2 = zlen arr) as Hz by (subst arr2 arr1; by rewrite !zlen_zset).
  assert (∀ x, zget arr2 x = if decide (x = i) then Some ELEM_REMOVED
                             else if decide (x = fa) then Some e else zget arr x) as Hget.
  { intros x. subst arr2 arr1. repeat case_decide; subst.
    - apply zget_zset_eq. by rewrite zlen_zset.
    - rewrite zget_zset_ne by done. by apply zget_zset_eq.
    - by rewrite !zget_zset_ne by done. }
  split.
  - eapply (rep_same_entries tbl tbl' m Hrep); simpl; fold arr arr1 arr2; try done.
    + lia.
    + rewrite Hp1 in Hp2. by apply (Permutation_cons_inv (a := (hash_f k, k, v))).
    + apply (reachable_change arr); try done.
      * intros x. rewrite Hget. by repeat case_decide.
      * intros x h' k' v'. rewrite Hget. repeat case_decide; intros Hx; [done| |by left].
        right. simplify_eq. exists j0. rewrite tr_zlen0.
        split; [lia|]. split; [done|]. intros j' Hj'. apply Hprev. lia.
    + lia.
    + rewrite Hf. by apply tr_nfree0.
  - rewrite !frees_hole. simpl. fold arr arr1 arr2. lia.
Qed.

(** The first removed slot among the first [j] probes. *)
Fixpoint first_avail arr (cap h : Z) (j : nat) : Z :=
  match j with
  | O => SIZE_MAX
  | S j =>
      let fa := first_avail arr cap h j in
      match zget arr (probe cap h j) with
      | Some ELEM_REMOVED => if fa =? SIZE_MAX then probe cap h j else fa
      | _ => fa
      end
  end.

Lemma first_avail_spec arr cap h j :
  cap_ok cap →
  (first_avail arr cap h j = SIZE_MAX ∧
     ∀ j', (j' < j)%nat → zget arr (probe cap h j') ≠ Some ELEM_REMOVED) ∨
  (∃ j0, (j0 < j)%nat ∧ first_avail arr cap h j = probe cap h j0 ∧
     first_avail arr cap h j ≠ SIZE_MAX ∧
     zget arr (probe cap h j0) = Some ELEM_REMOVED ∧
     ∀ j', (j' < j0)%nat → zget arr (probe cap h j') ≠ Some ELEM_REMOVED).
Proof.
  intros Hcap. assert (∀ j, probe cap h j ≠ SIZE_MAX) as Hmax.
  { intros j'. pose proof (probe_range cap h j' Hcap). pose proof (cap_ok_bounds _ Hcap).
    unfold SIZE_MAX. lia. }
  induction j as [|j IH]; [left; split; [done|lia]|]. simpl.
  destruct IH as [[-> Hnone]|(j0 & Hj0 & Hfa & Hnm & Hrem & Hfirst)].
  - destruct (zget arr (probe cap h j)) as [[|h' k' v'|]|] eqn:E.
    3: { right. exists j. simpl. split_and!; try done; try lia; apply Hmax. }
    all: left; split; [done|]; intros j' Hj'; destruct (decide (j' = j)) as [->|];
      [congruence|apply Hnone; lia].
  - right. exists j0. rewrite (proj2 (Z.eqb_neq _ _) Hnm).
    destruct (zget arr (probe cap h j)) as [[| |]|]; split_and!; (done || lia).
Qed.

(** The probe for [k] meets only occupied slots before the slot of [k]. *)
Definition direct tbl (k : K) : Prop := ∃ j v,
  Z.of_nat j < tb_cap tbl ∧
  zget (tb_arr tbl) (probe (tb_cap tbl) (hash_f k) j) = Some (ELEM_OCCUPIED (hash_f k) k v) ∧
  ∀ j', (j' < j)%nat → ∃ h' k' v', k' ≠ k ∧
    zget (tb_arr tbl) (probe (tb_cap tbl) (hash_f k) j') = Some (ELEM_OCCUPIED h' k' v').

Lemma search_found tbl m k v j :
  table_rep tbl m → Z.of_nat j < tb_cap tbl →
  (∀ j', (j' < j)%nat → ∃ e,
     zget (tb_arr tbl) (probe (tb_cap tbl) (hash_f k) j') = Some e ∧ skips k e) →
  zget (tb_arr tbl) (probe (tb_cap tbl) (hash_f k) j)
    = Some (ELEM_OCCUPIED (hash_f k) k v) →
  loop (search_step cmp_f tbl k) (S (Z.to_nat (tb_cap tbl)))
    (home (tb_cap tbl) (hash_f k), 1, SIZE_MAX)
    = Ret (Some (probe (tb_cap tbl) (hash_f k) j,
                 first_avail (tb_arr tbl) (tb_cap tbl) (hash_f k) j,
                 ELEM_OCCUPIED (hash_f k) k v)) →
  returns (dime_table_search cmp_f hash_f tbl k) (λ '(r, tbl'),
    r = Some v ∧ table_rep tbl' m ∧ tb_cap tbl' = tb_cap tbl ∧
    (hole tbl → hole tbl') ∧ direct tbl' k).
Proof.
  intros Hrep Hj Hprev Hi Hloop. unfold dime_table_search. rewrite Hloop.
  cbn [mbind outcome_bind]. pose proof (tr_cap _ _ Hrep) as Hcap.
  pose proof (tr_zlen _ _ Hrep) as Hz.
  set (cap := tb_cap tbl) in *. set (arr := tb_arr tbl) in *. set (h := hash_f k) in *.
  assert (∀ j', (j' < j)%nat → zget arr (probe cap h j') ≠ Some ELEM_FREE) as Hnf.
  { intros j' Hj' Hf. destruct (Hprev j' Hj') as (e & He & Hs).
    rewrite Hf in He. by simplify_eq. }
  assert (∀ j', (j' < j)%nat → zget arr (probe cap h j') ≠ Some ELEM_REMOVED →
    ∃ h' k' v', k' ≠ k ∧ zget arr (probe cap h j') = Some (ELEM_OCCUPIED h' k' v')) as Hocc.
  { intros j' Hj' Hnr. destruct (Hprev j' Hj') as (e & He & Hs).
    destruct e as [|h' k' v'|]; [done| |done]. by exists h', k', v'. }
  destruct (first_avail_spec arr cap h j Hcap)
    as [[-> Hnone]|(j0 & Hj0 & Hfa & Hnm & Hrem & Hfirst)].
  - cbn [Z.eqb]. rewrite Z.eqb_refl. cbn [mbind outcome_bind].
    rewrite (tget_zget tbl _ _ Hi). simpl. split_and!; try done.
    exists j, v. split_and!; [done..|]. intros j' Hj'. apply Hocc; [done|]. by apply Hnone.
  - rewrite (proj2 (Z.eqb_neq _ _) Hnm). rewrite Hfa.
    pose proof (zget_Some_lt _ _ _ Hrem) as Hlt1. pose proof (zget_Some_lt _ _ _ Hi) as Hlt2.
    rewrite tset_upd by done. cbn [mbind outcome_bind].
    rewrite tset_upd by (simpl; by rewrite zlen_zset). cbn [mbind outcome_bind].
    set (nc := tb_ncollisions tbl).
    set (arr2 := zset (zset arr (probe cap h j0) (ELEM_OCCUPIED h k v)) (probe cap h j) ELEM_REMOVED).
    assert (∃ nc', (if home cap h =? probe cap h j0
      then with_ncollisions (upd (upd tbl (zset arr (probe cap h j0) (ELEM_OCCUPIED h k v)) nc)
             arr2 nc) (u64 (nc - 1))
      else upd (upd tbl (zset arr (probe cap h j0) (ELEM_OCCUPIED h k v)) nc) arr2 nc)
      = upd tbl arr2 nc') as [nc' Htbl'].
    { destruct (_ =? _); eexists; reflexivity. }
    simpl tb_arr. simpl tb_ncollisions. fold arr nc arr2. rewrite Htbl'.
    destruct (move_rep tbl m k v j0 j nc' Hrep Hj0 Hj Hrem Hi Hnf) as [Hrep' Hhole].
    assert (probe cap h j0 ≠ probe cap h j) as Hne.
    { intros Heq. apply probe_inj in Heq; [lia|done|lia|done]. }
    assert (zget arr2 (probe cap h j0) = Some (ELEM_OCCUPIED h k v)) as Hnew.
    { subst arr2. rewrite zget_zset_ne by done. by apply zget_zset_eq. }
    rewrite (tget_zget (upd tbl arr2 nc') _ _ Hnew). simpl. split_and!; try done.
    exists j0, v. simpl. split_and!; [lia|done|]. intros j' Hj'.
    destruct (Hocc j') as (h' & k' & v' & ? & Hg); [lia|by apply Hfirst|].
    exists h', k', v'. split; [done|]. subst arr2. fold cap h.
    rewrite !zget_zset_ne; [done|..]; intros Heq; apply probe_inj in Heq; try done; lia.
Qed.

Lemma search_spec tbl m k :
  table_rep tbl m → hole tbl ∨ is_Some (m !! k) →
  returns (dime_table_search cmp_f hash_f tbl k) (λ '(r, tbl'),
    r = m !! k ∧ table_rep tbl' m ∧ tb_cap tbl' = tb_cap tbl ∧
    (hole tbl → hole tbl') ∧ (is_Some (m !! k) → direct tbl' k)).
Proof.
  intros Hrep Hor. destruct (probe_stop tbl m k Hrep Hor) as (j & Hj & Hprev & Hstop).
  pose proof (tr_cap _ _ Hrep) as Hcap.
  set (cap := tb_cap tbl) in *. set (arr := tb_arr tbl) in *. set (h := hash_f k) in *.
  set (s j := (probe cap h j, Z.of_nat j + 1, first_avail arr cap h j)).
  assert (∀ r, search_step cmp_f tbl k (s j) = Ret (inr r) →
    loop (search_step cmp_f tbl k) (S (Z.to_nat cap)) (home cap h, 1, SIZE_MAX) = Ret r) as Hgo.
  { intros r Hr. apply (loop_iter _ s r j); [|done|lia]. intros j' Hj'.
    destruct (Hprev j' Hj') as (e & He & Hskip). unfold search_step, s at 1.
    rewrite (tget_zget tbl _ _ He). cbn [mbind outcome_bind]. fold cap.
    destruct (probe_S cap h j' Hcap) as [Hp1 Hp2]; [lia|]. rewrite Hp1, Hp2. unfold s.
    replace (Z.of_nat (1 + j') + 1) with (Z.of_nat (S j') + 1) by lia.
    cbn [first_avail Nat.add]. rewrite He.
    destruct e as [|h' k' v'|]; simpl in Hskip; [done| |done]. by rewrite cmp_ne. }
  assert (search_step cmp_f tbl k (s j) = Ret (inr
    match m !! k with
    | Some v => Some (probe cap h j, first_avail arr cap h j, ELEM_OCCUPIED h k v)
    | None => None
    end)) as Hr.
  { unfold search_step, s. rewrite (tget_zget tbl _ _ Hstop).
    destruct (m !! k); cbn [mbind outcome_bind]; [by rewrite cmp_refl|done]. }
  apply Hgo in Hr. destruct (m !! k) as [v|] eqn:Hm.
  - eapply returns_mono.
    + by apply (search_found tbl m k v j).
    + intros [r tbl'] (? & ? & ? & ? & ?). split_and!; done.
  - unfold dime_table_search. fold cap h. rewrite Hr. simpl.
    split_and!; try done.
Qed.

(** ** Rehashing and growing *)

(** [table_rep] without what it says of the free count. *)
Definition table_wf tbl m : Prop :=
  table_rep (with_nfree tbl (frees (tb_arr tbl))) m.

(** No element is marked removed. *)
Definition fresh tbl : Prop := ∀ i,
  0 ≤ i < tb_cap tbl → zget (tb_arr tbl) i = Some ELEM_FREE ∨ used (tb_arr tbl) i.

Lemma rep_wf tbl m : table_rep tbl m → table_wf tbl m.
Proof. intros []. split; try done. split; [|by left]. simpl. pose proof (frees_bound (tb_arr tbl)). lia. Qed.

Lemma rep_wf_nfree tbl m n : table_rep tbl m → table_wf (with_nfree tbl n) m.
Proof. intros []%rep_wf. by split. Qed.

Lemma wf_rep tbl m :
  table_wf tbl m → 0 ≤ tb_nfree tbl ≤ frees (tb_arr tbl) →
  (tb_nfree tbl = frees (tb_arr tbl) ∨ tb_cap tbl ≤ 2 * tb_nfree tbl) → table_rep tbl m.
Proof. intros [] ??. by split. Qed.

(** Where every slot is free or settled, probes are unbroken. *)
Lemma clean_reachable arr L :
  orderly (zlen arr) arr L → (∀ i, 0 ≤ i < zlen arr → clean arr L i) → reachable arr.
Proof.
  intros HL Hclean i h k v Hi. pose proof (zget_Some_lt _ _ _ Hi).
  destruct (Hclean i) as [?|Hin]; [done|congruence|].
  apply list_elem_of_lookup in Hin as [n Hn].
  destruct (proj2 HL n i Hn) as (h' & k' & v' & j & Hg & ? & ? & Hprev).
  rewrite Hi in Hg. simplify_eq. exists j. split_and!; [done..|]. intros j' Hj' Hf.
  assert (probe (zlen arr) h' j' ∈ L) as Hin.
  { eapply elem_of_prefix; [by apply Hprev|]. apply prefix_take. }
  destruct (orderly_used _ _ _ _ HL Hin) as (? & ? & ? & ?). congruence.
Qed.

Lemma relocated_rep tbl tbl' m L :
  table_wf tbl m → cap_ok (tb_cap tbl') → zlen (tb_arr tbl') = tb_cap tbl' →
  tb_cap tbl' * sizeof_elem ≤ MAXOBJ → tb_len tbl' = tb_len tbl →
  tb_nfree tbl' = tb_cap tbl' - tb_len tbl →
  entries (tb_arr tbl') ≡ₚ entries (tb_arr tbl) →
  orderly (tb_cap tbl') (tb_arr tbl') L →
  (∀ i, 0 ≤ i < tb_cap tbl' → clean (tb_arr tbl') L i) →
  table_rep tbl' m ∧ fresh tbl' ∧ frees (tb_arr tbl') = tb_cap tbl' - tb_len tbl.
Proof.
  intros Hwf Hcap Hlen Hb Htl Hnf Hp HL Hclean.
  assert (fresh tbl') as Hfresh.
  { intros i Hi. destruct (Hclean i Hi) as [|Hin]; [by left|right].
    by apply (orderly_used (tb_cap tbl') _ L). }
  assert (frees (tb_arr tbl') = tb_cap tbl' - tb_len tbl) as Hfr.
  { rewrite frees_exact; [|by rewrite Hlen].
    pose proof (tr_len _ _ Hwf) as Hl. simpl in Hl. unfold zlen in *. rewrite Hp. lia. }
  split; [|done]. pose proof (frees_bound (tb_arr tbl')).
  eapply (rep_same_entries _ tbl' m Hwf); try done.
  - rewrite <-Hlen in HL, Hclean. by eapply clean_reachable.
  - lia.
  - left. congruence.
Qed.

Lemma resize_entries arr n :
  zlen arr ≤ n → entries (resize (Z.to_nat n) ELEM_FREE arr) = entries arr.
Proof.
  unfold zlen. intros Hn. rewrite resize_ge by lia. rewrite entries_app.
  replace (entries (replicate _ _)) with (@nil (Z * K * V)); [by rewrite app_nil_r|].
  generalize (Z.to_nat n - length arr)%nat. by intros m; induction m.
Qed.

Lemma grow_spec al tbl m :
  alloc_sane al → table_wf tbl m →
  returns (dime_table_grow al tbl) (λ '(ok, tbl'),
    ok = al (2 * tb_cap tbl * sizeof_elem) ∧
    if ok : bool then
      table_rep tbl' m ∧ fresh tbl' ∧ tb_cap tbl' = 2 * tb_cap tbl ∧
      tb_nfree tbl' = frees (tb_arr tbl') ∧ frees (tb_arr tbl') = tb_cap tbl' - tb_len tbl ∧
      tb_len tbl' = tb_len tbl
    else tbl' = tbl).
Proof.
  intros Hsane Hwf. pose proof Hwf as []. simpl in *.
  pose proof (cap_ok_bounds _ tr_cap0). unfold dime_table_grow.
  set (cap := tb_cap tbl) in *. set (arr := tb_arr tbl) in *.
  assert (u64 (Z.shiftl cap 1) = cap * 2) as ->.
  { rewrite Z.shiftl_mul_pow2 by lia. unfold MAXOBJ, sizeof_elem in *. unwrap. lia. }
  assert (u64 (cap * 2 * sizeof_elem) = 2 * cap * sizeof_elem) as ->.
  { unfold MAXOBJ, sizeof_elem in *. unwrap. lia. }
  destruct (al _) eqn:Hal; [|done]. apply Hsane in Hal.
  replace (2 * cap * sizeof_elem / sizeof_elem) with (cap * 2)
    by (rewrite Z.div_mul by done; lia).
  set (arr1 := resize _ _ _). pose proof (frees_bound arr). pose proof (zlen_nonneg (entries arr)).
  assert (entries arr1 = entries arr) as He by (apply resize_entries; lia).
  assert (zlen arr1 = cap * 2) as Hz.
  { subst arr1. unfold zlen. rewrite length_resize. lia. }
  unfold MAXOBJ, sizeof_elem in *.
  assert (cap_ok (cap * 2)) as Hcap2 by (apply cap_ok_double; [done|lia]).
  edestruct (relocate_all_spec (reverse (seqZ 0 cap))
    (Table (tb_len tbl) arr1 (cap * 2) 0 (u64 (cap * 2 - tb_len tbl))) [])
    as (arr' & nc & L' & -> & [] & Hc); simpl; try done.
  { apply Forall_forall. intros i. rewrite elem_of_reverse, elem_of_seqZ. lia. }
  { apply orderly_nil. }
  simpl in *. split; [done|].
  edestruct (relocated_rep tbl (upd (Table (tb_len tbl) arr1 (cap * 2) 0
    (u64 (cap * 2 - tb_len tbl))) arr' nc) m L') as (? & ? & ?); simpl; try done.
  - lia.
  - unfold sizeof_elem, MAXOBJ. lia.
  - apply u64_small. lia.
  - fold arr. by rewrite <-He.
  - intros i Hi. destruct (decide (i < cap)).
    + apply Hc. rewrite elem_of_reverse, elem_of_seqZ. lia.
    + apply rl_clean. left. simpl. subst arr1. unfold zget, zlen in *.
      rewrite decide_True by lia. rewrite lookup_resize_new by lia. done.
  - split_and!; try done; try lia. simpl in *. rewrite u64_small; lia.
Qed.

(** The in-place rehash of [dime_table_insert]. *)
Lemma rehash_spec tbl m :
  table_wf tbl m → tb_nfree tbl = tb_cap tbl - tb_len tbl →
  returns (relocate_all (seqZ 0 (tb_cap tbl)) tbl) (λ tbl',
    table_rep tbl' m ∧ fresh tbl' ∧ tb_cap tbl' = tb_cap tbl ∧ tb_len tbl' = tb_len tbl ∧
    frees (tb_arr tbl') = tb_cap tbl - tb_len tbl).
Proof.
  intros Hwf Hnf. pose proof Hwf as []. simpl in *.
  edestruct (relocate_all_spec (seqZ 0 (tb_cap tbl)) tbl [])
    as (arr' & nc & L' & -> & [] & Hc); try done.
  { apply Forall_forall. intros i. rewrite elem_of_seqZ. lia. }
  { apply orderly_nil. }
  edestruct (relocated_rep tbl (upd tbl arr' nc) m L') as (? & ? & ?); simpl; try done.
  - lia.
  - intros i Hi. apply Hc, elem_of_seqZ. lia.
Qed.

(** ** Insertion *)

(** In a fresh table the probe for a key meets no removed element. *)
Lemma fresh_direct tbl m k :
  table_rep tbl m → fresh tbl → is_Some (m !! k) → direct tbl k.
Proof.
  intros Hrep Hfresh [v Hm]. pose proof (tr_cap _ _ Hrep) as Hcap.
  destruct (probe_stop tbl m k Hrep) as (j & Hj & Hprev & Hstop); [eauto|].
  rewrite Hm in Hstop. exists j, v. split_and!; [done..|]. intros j' Hj'.
  destruct (Hprev j' Hj') as (e & He & Hs).
  destruct (Hfresh (probe (tb_cap tbl) (hash_f k) j')) as [Hf|(h' & k' & v' & Hf)];
    [by apply probe_range|..]; rewrite He in Hf; simplify_eq; [done|].
  by exists h', k', v'.
Qed.

(** The slot an insertion settles on: the first one not occupied. *)
Lemma insert_slot tbl m k :
  table_rep tbl m → m !! k = None → tb_len tbl < tb_cap tbl →
  ∃ j e, Z.of_nat j < tb_cap tbl ∧
    loop (insert_step cmp_f tbl k) (S (Z.to_nat (tb_cap tbl)))
      (home (tb_cap tbl) (hash_f k), 1)
    = Ret (Some (probe (tb_cap tbl) (hash_f k) j, Z.of_nat j + 1, e)) ∧
    zget (tb_arr tbl) (probe (tb_cap tbl) (hash_f k) j) = Some e ∧
    elem_entry e = None ∧
    ∀ j', (j' < j)%nat → used (tb_arr tbl) (probe (tb_cap tbl) (hash_f k) j').
Proof.
  intros Hrep Hm Hlen. pose proof Hrep as [].
  set (cap := tb_cap tbl) in *. set (arr := tb_arr tbl) in *. set (h := hash_f k) in *.
  set (P := λ j, match zget arr (probe cap h j) with
                 | Some e => elem_entry e = None | None => False end).
  assert (∀ j, Decision (P j)).
  { intros j. unfold P. destruct (zget arr (probe cap h j)) as [[| |]|]; simpl;
      first [by left|right; discriminate|right; by intros []]. }
  destruct (decide (Exists P (seq 0 (Z.to_nat cap)))) as [Hex|Hex].
  2:{ exfalso. assert (length (probe cap h <$> seq 0 (Z.to_nat cap)) ≤ length (entries arr))%nat
        as Hle.
      { apply used_length.
        - apply NoDup_fmap_2_strong; [|apply NoDup_seq].
          intros x y Hx%elem_of_seq Hy%elem_of_seq. apply probe_inj; (done || lia).
        - intros i (j & -> & Hj)%list_elem_of_fmap.
          destruct (probe_get tbl m h j Hrep) as [e He]. fold cap arr in He.
          destruct (decide (P j)) as [HP|HP].
          + exfalso. apply Hex, Exists_exists. eauto.
          + unfold P in HP. rewrite He in HP. destruct e as [|h' k' v'|]; try done.
            by exists h', k', v'. }
      rewrite length_fmap, length_seq in Hle. unfold zlen in *. lia. }
  apply Exists_exists in Hex as (n & Hn%elem_of_seq & HPn).
  destruct (least_nat P n HPn) as (j & Hj & HPj & Hmin).
  assert (∀ j', (j' < j)%nat → ∃ h' k' v', k' ≠ k ∧
    zget arr (probe cap h j') = Some (ELEM_OCCUPIED h' k' v')) as Hprev.
  { intros j' Hj'. destruct (probe_get tbl m h j' Hrep) as [e He]. fold cap arr in He.
    specialize (Hmin j' Hj'). unfold P in Hmin. rewrite He in Hmin.
    destruct e as [|h' k' v'|]; try done. exists h', k', v'. split; [|done].
    intros ->. destruct (rep_get tbl m _ _ _ _ Hrep He) as [_ ?]. congruence. }
  unfold P in HPj. destruct (zget arr (probe cap h j)) as [e|] eqn:He; [|done].
  exists j, e. split; [lia|]. split_and!; try done.
  2:{ intros j' Hj'. destruct (Hprev j' Hj') as (h' & k' & v' & _ & ?). by exists h', k', v'. }
  apply (loop_iter _ (probe_state cap h) _ j); [..|lia].
  - intros j' Hj'. destruct (Hprev j' Hj') as (h' & k' & v' & Hne & Hg).
    unfold insert_step, probe_state at 1. rewrite (tget_zget tbl _ _ Hg).
    cbn [mbind outcome_bind]. fold cap. rewrite cmp_ne by done.
    by rewrite probe_state_S by (done || lia).
  - unfold insert_step, probe_state. rewrite (tget_zget tbl _ _ He).
    cbn [mbind outcome_bind]. by destruct e.
Qed.

(** Filling that slot. *)
Lemma fill_wf tbl m k v j e nc :
  table_rep tbl m → m !! k = None → Z.of_nat j < tb_cap tbl →
  zget (tb_arr tbl) (probe (tb_cap tbl) (hash_f k) j) = Some e → elem_entry e = None →
  (∀ j', (j' < j)%nat → used (tb_arr tbl) (probe (tb_cap tbl) (hash_f k) j')) →
  let i := probe (tb_cap tbl) (hash_f k) j in
  let tbl' := with_len (upd tbl (zset (tb_arr tbl) i (ELEM_OCCUPIED (hash_f k) k v)) nc)
                (tb_len tbl + 1) in
  table_wf tbl' (<[k:=v]> m) ∧
  frees (tb_arr tbl') = frees (tb_arr tbl) - zlen (option_list (free_entry e)).
Proof.
  intros Hrep Hm Hj He Hnone Hprev i tbl'. pose proof Hrep as [].
  set (o := ELEM_OCCUPIED (hash_f k) k v) in *.
  pose proof (entries_zset _ _ _ o He) as Hp. pose proof (frees_zset _ _ _ o He) as Hfr.
  rewrite Hnone in Hp. simpl in Hp, Hfr. rewrite zlen_nil in Hfr. pose proof (zget_Some_lt _ _ _ He).
  fold i in He, Hp, Hfr. set (arr := tb_arr tbl) in *. set (arr' := zset arr i o) in *.
  assert (zlen arr' = zlen arr) as Hz by (subst arr'; apply zlen_zset).
  assert (kvs arr' ≡ₚ (k, v) :: kvs arr) as Hk by (unfold kvs; by rewrite Hp).
  assert (NoDup (kvs arr').*1) as Hnd.
  { rewrite Hk. simpl. constructor; [|done]. intros Hin.
    apply list_elem_of_fmap in Hin as ([k' v'] & -> & Hin). simpl in *.
    apply elem_of_list_to_map in Hin; [|done]. congruence. }
  split; [|simpl; fold arr arr'; lia]. split; simpl; fold arr arr'; try done.
  - lia.
  - pose proof (Permutation_length Hp). unfold zlen in *. simpl in *. lia.
  - intros h' k' v' Hin. rewrite Hp in Hin. apply elem_of_cons in Hin as [[=-> -> ->]|Hin]; eauto.
  - apply (reachable_change arr); try done.
    + intros x. destruct (decide (x = i)) as [->|]; [|subst arr'; by rewrite zget_zset_ne].
      subst arr'. by rewrite zget_zset_eq.
    + intros x h' k' v'. destruct (decide (x = i)) as [->|].
      2:{ subst arr'. rewrite zget_zset_ne by done. by left. }
      subst arr'. rewrite zget_zset_eq by done. intros [= <- <- <-]. right. exists j.
      rewrite tr_zlen0. split_and!; [done..|]. intros j' Hj' Hf.
      destruct (Hprev j' Hj') as (? & ? & ? & ?). congruence.
  - pose proof (frees_bound arr'). lia.
  - rewrite tr_map0. transitivity (list_to_map ((k, v) :: kvs arr) : gmap K V); [done|].
    symmetry. by apply list_to_map_proper.
Qed.

(** The free count after a free slot was filled. *)
Lemma insert_free_spec tbl m :
  table_wf tbl m → 1 ≤ tb_nfree tbl ≤ frees (tb_arr tbl) + 1 →
  returns (insert_free ELEM_FREE tbl) (λ tbl',
    table_rep tbl' m ∧ tb_cap tbl' = tb_cap tbl ∧ tb_len tbl' = tb_len tbl ∧
    (tb_len tbl < tb_cap tbl → hole tbl')).
Proof.
  intros Hwf Hnf. pose proof Hwf as []. simpl in *. pose proof (cap_ok_bounds _ tr_cap0).
  pose proof (frees_bound (tb_arr tbl)). pose proof (zlen_nonneg (entries (tb_arr tbl))).
  unfold MAXOBJ, sizeof_elem in *.
  unfold insert_free. rewrite (u64_small (tb_nfree tbl - 1)) by lia.
  unfold under_free, MAX_LOAD_FACTOR.
  cbn [tb_nfree tb_cap tb_len with_nfree]. rewrite lt_half by lia.
  destruct (Z.ltb_spec (2 * (tb_nfree tbl - 1)) (tb_cap tbl)) as [Hlt|Hge].
  - rewrite u64_small by lia.
    eapply returns_mono; [eapply (rehash_spec (with_nfree tbl (tb_cap tbl - tb_len tbl)) m);
      [by split|done]|].
    intros tbl' (? & ? & Hc & Hl & Hfr). simpl in *. split_and!; try done. intros.
    apply frees_hole. lia.
  - simpl. split_and!; try done; [|intros; apply frees_hole; simpl; lia].
    apply wf_rep; [by split|..]; simpl; lia.
Qed.

(** The growth before the search for a slot. *)
Lemma insert_grow_spec al tbl m :
  alloc_sane al → table_rep tbl m →
  returns (insert_grow al tbl) (λ r,
    match r with
    | None => tb_cap tbl ≤ tb_len tbl ∧ al (2 * tb_cap tbl * sizeof_elem) = false
    | Some tbl' =>
        table_rep tbl' m ∧ tb_len tbl' = tb_len tbl ∧ tb_len tbl < tb_cap tbl' ∧
        tb_cap tbl ≤ tb_cap tbl' ∧ (hole tbl → hole tbl') ∧
        (∀ k, direct tbl k → is_Some (m !! k) → direct tbl' k) ∧
        (al (2 * tb_cap tbl * sizeof_elem) = true → 2 * tb_len tbl ≤ tb_cap tbl')
    end).
Proof.
  intros Hsane Hrep. pose proof Hrep as []. pose proof (cap_ok_bounds _ tr_cap0).
  pose proof (frees_bound (tb_arr tbl)). pose proof (zlen_nonneg (entries (tb_arr tbl))).
  pose proof (grow_spec al tbl m Hsane (rep_wf _ _ Hrep)) as Hg.
  unfold insert_grow. apply returns_eq in Hg as ([ok tbl'] & Hg & -> & Hok).
  assert (al (2 * tb_cap tbl * sizeof_elem) = true → 
    table_rep tbl' m ∧ tb_len tbl' = tb_len tbl ∧ tb_len tbl < tb_cap tbl' ∧
    tb_cap tbl ≤ tb_cap tbl' ∧ (hole tbl → hole tbl') ∧
    (∀ k, direct tbl k → is_Some (m !! k) → direct tbl' k) ∧
    2 * tb_len tbl ≤ tb_cap tbl') as Hgrown.
  { intros Hal. rewrite Hal in Hok. destruct Hok as (? & ? & ? & ? & ? & ?).
    split_and!; try done; try lia.
    - intros _. apply frees_hole. lia.
    - intros k _ Hk. by apply (fresh_direct _ m). }
  destruct (Z.leb_spec (tb_cap tbl) (tb_len tbl)).
  { rewrite Hg. simpl. destruct (al _); [|done]. 
    destruct Hgrown as (? & ? & ? & ? & ? & ? & ?); [done|]. by split_and!. }
  assert (returns (Ret (Some tbl)) (λ r, match r with None => False | Some tbl' =>
    table_rep tbl' m ∧ tb_len tbl' = tb_len tbl ∧ tb_len tbl < tb_cap tbl' ∧
    tb_cap tbl ≤ tb_cap tbl' ∧ (hole tbl → hole tbl') ∧
    (∀ k, direct tbl k → is_Some (m !! k) → direct tbl' k) end)) as Hsame.
  { simpl. split_and!; (done || lia). }
  unfold over_load, MAX_LOAD_FACTOR. rewrite half_lt by (unfold MAXOBJ, sizeof_elem in *; lia).
  destruct (Z.ltb_spec (tb_cap tbl) (2 * tb_len tbl)).
  - rewrite Hg. simpl in *. destruct (al _).
    + destruct Hgrown as (? & ? & ? & ? & ? & ? & ?); [done|]. by split_and!.
    + subst tbl'. split_and!; try done; lia.
  - simpl in *. split_and!; try done; lia.
Qed.

Lemma insert_collision_spec al k tbl m :
  alloc_sane al → table_wf tbl m →
  returns (insert_collision al k tbl) (λ tbl',
    (∃ nc, tbl' = with_ncollisions tbl nc) ∨
    (table_rep tbl' m ∧ fresh tbl' ∧ tb_cap tbl' = 2 * tb_cap tbl ∧
     tb_nfree tbl' = frees (tb_arr tbl') ∧ frees (tb_arr tbl') = tb_cap tbl' - tb_len tbl ∧
     tb_len tbl' = tb_len tbl)).
Proof.
  intros Hsane Hwf. unfold insert_collision. destruct (1 <? k).
  2:{ left. exists (tb_ncollisions tbl). by destruct tbl. }
  destruct (over_collisions _); [|simpl; eauto].
  pose proof (grow_spec al (with_ncollisions tbl (u64 (tb_ncollisions tbl + 1))) m Hsane) as Hg.
  apply returns_eq in Hg as ([ok tbl'] & -> & -> & Hok); [|by destruct Hwf; split].
  simpl in *. destruct (al _); [by right|left; eauto].
Qed.

(** Inserting a new key. *)
Lemma insert_new_spec als tbl m k v :
  (∀ n, alloc_sane (als n)) → table_rep tbl m → m !! k = None →
  returns (dime_table_insert cmp_f hash_f als tbl k v) (λ '(rc, tbl'),
    (rc = -1 ∧ tbl' = tbl ∧ tb_cap tbl ≤ tb_len tbl ∧
       als 0%nat (2 * tb_cap tbl * sizeof_elem) = false) ∨
    (rc = 0 ∧ table_rep tbl' (<[k:=v]> m) ∧ tb_cap tbl ≤ tb_cap tbl' ∧
       (hole tbl → tb_len tbl' < tb_cap tbl' → hole tbl') ∧
       (als 0%nat (2 * tb_cap tbl * sizeof_elem) = true → 2 * tb_len tbl ≤ tb_cap tbl'))).
Proof.
  intros Hsane Hrep Hm. unfold dime_table_insert.
  pose proof (insert_grow_spec (als 0%nat) tbl m (Hsane _) Hrep) as Hg.
  apply returns_eq in Hg as ([tbl0|] & -> & Hr); cbn [mbind outcome_bind].
  2:{ simpl. left. tauto. }
  destruct Hr as (Hrep0 & Hl0 & Hlt & Hc0 & Hh0 & _ & Hroom). clear Hrep. 
  destruct (insert_slot tbl0 m k Hrep0 Hm) as (j & e & Hj & -> & He & Hnone & Hused); [lia|].
  cbn [mbind outcome_bind]. pose proof (zget_Some_lt _ _ _ He).
  pose proof Hrep0 as []. pose proof (cap_ok_bounds _ tr_cap0).
  unfold MAXOBJ, sizeof_elem in *.
  pose proof (zlen_nonneg (entries (tb_arr tbl0))).
  destruct (fill_wf tbl0 m k v j e (tb_ncollisions tbl0)) as [Hwf Hfr]; try done.
  rewrite tset_upd by done. cbn [mbind outcome_bind].
  change (tb_len (upd tbl0 ?a ?n)) with (tb_len tbl0). rewrite (u64_small (tb_len tbl0 + 1)) by lia.
  set (tbl1 := with_len _ _) in *. set (m' := <[k:=v]> m) in *.
  pose proof (insert_collision_spec (als 1%nat) (Z.of_nat j + 1) tbl1 m' (Hsane _) Hwf) as Hc.
  apply returns_eq in Hc as (tbl2 & -> & Hc). cbn [mbind outcome_bind].
  assert (tb_cap tbl1 = tb_cap tbl0) as Hcap1 by done.
  assert (tb_len tbl1 = tb_len tbl0 + 1) as Hlen1 by done.
  assert (tb_nfree tbl1 = tb_nfree tbl0) as Hnf1 by done.
  assert (table_wf tbl2 m' ∧ tb_len tbl2 = tb_len tbl1 ∧ tb_cap tbl1 ≤ tb_cap tbl2 ∧
    ((tb_nfree tbl2 = tb_nfree tbl1 ∧ tb_cap tbl2 = tb_cap tbl1 ∧
        frees (tb_arr tbl2) = frees (tb_arr tbl1)) ∨
     (table_rep tbl2 m' ∧ tb_nfree tbl2 = frees (tb_arr tbl2) ∧ 1 ≤ frees (tb_arr tbl2))))
    as (Hwf2 & Hlen2 & Hcap2 & Hnf2).
  { destruct Hc as [[nc ->]|(Hrep2 & _ & ? & ? & ? & ?)].
    - split_and!; try done. { by destruct Hwf; split. } by left.
    - split_and!; [by apply rep_wf|done|lia|]. right. split_and!; [done..|]. lia. }
  destruct e as [|h' k' v'|]; [| done|].
  - change (zlen (option_list (free_entry ELEM_FREE))) with 1 in Hfr.
    pose proof (frees_bound (tb_arr tbl1)).
    pose proof (insert_free_spec tbl2 m' Hwf2 ltac:(lia)) as Hf.
    apply returns_eq in Hf as (tbl3 & -> & Hrep3 & Hc3 & Hl3 & Hh3). simpl. right.
    split_and!; try done; try lia; [intros _ ?; apply Hh3; lia|].
    intros Hal%Hroom. lia.
  - change (zlen (option_list (free_entry ELEM_REMOVED))) with 0 in Hfr. simpl. right.
    assert (table_rep tbl2 m') as Hrep2.
    { destruct Hnf2 as [(? & ? & ?)|(? & ? & ?)]; [|done]. apply wf_rep; [done|lia..]. }
    split_and!; try done; try lia; [|intros Hal%Hroom; lia].
    intros Hh%Hh0%frees_hole _. apply frees_hole.
    destruct Hnf2 as [(? & ? & ?)|(? & ? & ?)]; lia.
Qed.
End spec.
