(* ===== verification/Hash.v ===== *)
(** * Hash and comparison functions ([server/server.c])

    The keys of the two tables of the server: file descriptors for
    [fd2clnt], group names for [name2clnt]. *)

From S2P Require Import Prelude Probe.
From Stdlib Require Import Ascii.

(** [*b - *a] does not overflow on descriptors, which are not negative. *)
Definition cmp_fd (a b : Z) : Z := b - a.

Definition hash_fd (a : Z) : Z := u64 (u64 a * 0x9E3779B97F4A7BB9).

(** The bytes of a C string before its terminator; [strcmp] compares them as
    [unsigned char], and only the sign of its answer is specified. *)
Fixpoint strcmp (a b : string) : Z :=
  match a, b with
  | EmptyString, EmptyString => 0
  | EmptyString, String _ _ => -1
  | String _ _, EmptyString => 1
  | String c a, String d b =>
      match Z.compare (Z.of_N (N_of_ascii c)) (Z.of_N (N_of_ascii d)) with
      | Eq => strcmp a b
      | Lt => -1
      | Gt => 1
      end
  end.

Definition cmp_name : string → string → Z := strcmp.

(** A [char] is signed on x86-64: bytes from 128 on are negative. *)
Definition char_val (c : ascii) : Z :=
  let n := Z.of_N (N_of_ascii c) in if n <? 128 then n else n - 256.

(** FNV1a, with each [char] converted to [uint64_t]. *)
Fixpoint hash_name_loop (y : Z) (s : string) : Z :=
  match s with
  | EmptyString => y
  | String c s => hash_name_loop (u64 (Z.lxor y (u64 (char_val c)) * 1099511628211)) s
  end.

Definition hash_name (s : string) : Z := hash_name_loop 0xCBF29CE484222325 s.

Lemma cmp_fd_eq a b : cmp_fd a b = 0 ↔ a = b.
Proof. unfold cmp_fd. lia. Qed.

Lemma strcmp_eq a : ∀ b, strcmp a b = 0 ↔ a = b.
Proof.
  induction a as [|c a IH]; intros [|d b]; simpl; try done.
  destruct (Z.compare_spec (Z.of_N (N_of_ascii c)) (Z.of_N (N_of_ascii d))) as [E|E|E].
  - apply N2Z.inj in E. rewrite IH.
    rewrite <-(ascii_N_embedding c), E, (ascii_N_embedding d).
    split; [by intros ->|by intros [= ->]].
  - split; [done|]. intros [= -> ->]. lia.
  - split; [done|]. intros [= -> ->]. lia.
Qed.

Lemma cmp_name_eq a b : cmp_name a b = 0 ↔ a = b.
Proof. apply strcmp_eq. Qed.

Lemma home_hash_fd cap a : cap_ok cap → home cap (hash_fd a) = (a * 0x9E3779B97F4A7BB9) mod cap.
Proof.
  intros Hcap. unfold home, hash_fd. rewrite land_mask, mod64_mod by done.
  pose proof (cap_ok_bounds _ Hcap).
  by rewrite <-Z.mul_mod_idemp_l, mod64_mod, Z.mul_mod_idemp_l by (done || lia).
Qed.

(** The multiplier of [hash_fd] is odd, so that descriptors below the
    capacity of the table get pairwise distinct home slots: as long as the
    table has more slots than the process has descriptors in use (numbered
    from 0, as the kernel does), no look-up of a client by its descriptor
    ever has to probe twice. *)
Theorem hash_fd_no_collision cap a b :
  cap_ok cap → 0 ≤ a < cap → 0 ≤ b < cap → a ≠ b →
  home cap (hash_fd a) ≠ home cap (hash_fd b).
Proof.
  intros Hcap Ha Hb Hne. rewrite !home_hash_fd by done.
  pose proof (cap_ok_bounds _ Hcap). destruct Hcap as (n & Hn & ->). intros Heq. apply Hne.
  set (C := 0x9E3779B97F4A7BB9) in *.
  assert (2 ^ n | C * (a - b)) as Hd.
  { apply Z.mod_divide; [lia|]. replace (C * (a - b)) with (a * C - b * C) by lia.
    by rewrite Zminus_mod, Heq, Z.sub_diag, Z.mod_0_l by lia. }
  rewrite <-(Z2Nat.id n) in Hd by lia. apply pow2_divide_odd in Hd; [|done].
  rewrite Z2Nat.id in Hd by lia. destruct Hd as [q Hq].
  assert (q = 0) by (apply Z.le_antisymm; apply Z.nlt_ge; intros ?; nia). lia.
Qed.

Lemma hash_fd_no_collision_witness :
  cap_ok 32 ∧ home 32 (hash_fd 5) ≠ home 32 (hash_fd 6).
Proof.
  assert (cap_ok 32) as Hcap by (exists 5; split; [lia|reflexivity]).
  split; [exact Hcap|]. apply (hash_fd_no_collision 32 5 6); [exact Hcap|lia..].
Defined.
