(* ===== verification/TableMap.v ===== *)
(** * What the hash table promises: sequences of calls, iteration

    The table behaves, call after call, as a finite map; its iterators visit
    the elements in the order of the array. *)

From S2P Require Import Prelude Double Probe Table TableRelocate TableSpec Hash.

(** ** Initialisation and the insertion of a key that is present *)

Section map.
Context {K V : Type} `{Countable K}.
Variable cmp_f : K → K → Z.
Variable hash_f : K → Z.
Hypothesis cmp_eq : ∀ a b, cmp_f a b = 0 ↔ a = b.
Implicit Types (tbl : dime_table K V) (m : gmap K V).

(** The table grew whenever it was more than half full. *)
Definition roomy tbl : Prop := 2 * (tb_len tbl - 1) ≤ tb_cap tbl.

Lemma table_init_rep al tbl :
  dime_table_init al = (0, tbl) → table_rep hash_f tbl ∅ ∧ hole tbl ∧ roomy tbl.
Proof.
  unfold dime_table_init. destruct (al _); intros [= <-]. split; [|split].
  2:{ exists 0. by vm_compute. } 2:{ unfold roomy. simpl. lia. }
  assert (∀ i h k v, zget (replicate 32 (@ELEM_FREE K V)) i ≠ Some (ELEM_OCCUPIED h k v)) as Hno.
  { intros i h k v Hi. unfold zget in Hi. case_decide; [|done].
    apply lookup_replicate_1 in Hi as [? _]. done. }
  split; simpl tb_arr; simpl tb_cap; simpl tb_len; simpl tb_nfree; try done.
  - exists 5. split; [lia|done].
  - intros h k v [i Hi]%entries_elem. by apply Hno in Hi.
  - constructor.
  - intros i h k v Hi. by apply Hno in Hi.
  - vm_compute. split; [split|left]; done.
Qed.

(** A search, successful here, leaves the table so that inserting its key
    again is refused. *)
Lemma insert_dup_spec als tbl m k v :
  (∀ n, alloc_sane (als n)) → table_rep hash_f tbl m → is_Some (m !! k) →
  direct hash_f tbl k →
  returns (dime_table_insert cmp_f hash_f als tbl k v) (λ '(rc, tbl'),
    rc = -1 ∧ table_rep hash_f tbl' m ∧ (hole tbl → hole tbl')).
Proof.
  intros Hsane Hrep Hm Hd. unfold dime_table_insert.
  pose proof (insert_grow_spec hash_f (als 0%nat) tbl m (Hsane _) Hrep) as Hg.
  apply returns_eq in Hg as ([tbl0|] & -> & Hr); cbn [mbind outcome_bind]; [|done].
  destruct Hr as (Hrep0 & _ & _ & _ & Hh & Hd0 & _). specialize (Hd0 k Hd Hm).
  destruct Hd0 as (j & v0 & Hj & Hg & Hprev). pose proof (tr_cap _ _ _ Hrep0) as Hcap.
  set (st := probe_state (tb_cap tbl0) (hash_f k)).
  assert (loop (insert_step cmp_f tbl0 k) (S (Z.to_nat (tb_cap tbl0)))
    (home (tb_cap tbl0) (hash_f k), 1) = Ret None) as ->; [|done].
  apply (loop_iter _ st None j); [| |lia].
  - intros j' Hj'. destruct (Hprev j' Hj') as (h' & k' & v' & Hne & Hg').
    unfold insert_step, st, probe_state at 1. rewrite (tget_zget tbl0 _ _ Hg').
    cbn [mbind outcome_bind]. rewrite (cmp_ne cmp_f cmp_eq) by done.
    by rewrite probe_state_S by (done || lia).
  - unfold insert_step, st, probe_state. rewrite (tget_zget tbl0 _ _ Hg).
    cbn [mbind outcome_bind]. by rewrite (cmp_refl cmp_f cmp_eq).
Qed.

(** ** Sequences of calls *)

Inductive table_call :=
  | CallInsert (key : K) (val : V)
  | CallSearch (key : K)
  | CallSearchR (key : K)
  | CallRemove (key : K).

Inductive table_answer :=
  | AnsStatus (rc : Z)
  | AnsVal (r : option V).

Definition table_exec (als : nat → allocator) (c : table_call) tbl
    : outcome (table_answer * dime_table K V) :=
  match c with
  | CallInsert key val =>
      '(rc, tbl) ← dime_table_insert cmp_f hash_f als tbl key val; Ret (AnsStatus rc, tbl)
  | CallSearch key =>
      '(r, tbl) ← dime_table_search cmp_f hash_f tbl key; Ret (AnsVal r, tbl)
  | CallSearchR key =>
      r ← dime_table_search_r cmp_f hash_f tbl key; Ret (AnsVal r, tbl)
  | CallRemove key =>
      '(r, tbl) ← dime_table_remove cmp_f hash_f tbl key; Ret (AnsVal r, tbl)
  end.

Fixpoint table_run (als : nat → nat → allocator) (cs : list table_call) tbl
    : outcome (list table_answer * dime_table K V) :=
  match cs with
  | [] => Ret ([], tbl)
  | c :: cs =>
      '(a, tbl) ← table_exec (als O) c tbl;
      '(tr, tbl) ← table_run (λ n, als (S n)) cs tbl;
      Ret (a :: tr, tbl)
  end.

(** The ideal map. *)
Definition abs_table (c : table_call) m : table_answer * gmap K V :=
  match c with
  | CallInsert key val => (AnsStatus 0, <[key:=val]> m)
  | CallSearch key | CallSearchR key => (AnsVal (m !! key), m)
  | CallRemove key => (AnsVal (m !! key), delete key m)
  end.

Fixpoint abs_table_run (cs : list table_call) m : list table_answer * gmap K V :=
  match cs with
  | [] => ([], m)
  | c :: cs =>
      let (a, m) := abs_table c m in
      let (tr, m) := abs_table_run cs m in (a :: tr, m)
  end.

(** What callers owe: insert new keys only, and at most [bound] of them. *)
Definition table_legal1 (bound : Z) (c : table_call) m : bool :=
  match c with
  | CallInsert key _ =>
      bool_decide (m !! key = None) && (Z.of_nat (size m) <? bound)
  | _ => true
  end.

Fixpoint table_legal (bound : Z) (cs : list table_call) m : bool :=
  match cs with
  | [] => true
  | c :: cs => table_legal1 bound c m && table_legal bound cs (abs_table c m).2
  end.

Definition table_inv tbl m : Prop := table_rep hash_f tbl m ∧ hole tbl ∧ roomy tbl.

(** Allocations of at most [2^b] bytes succeed. *)
Definition budget (b : Z) (als : nat → allocator) : Prop :=
  ∀ i, alloc_sane (als i) ∧ ∀ n, n ≤ 2 ^ b → als i n = true.

Lemma budget_grow b als cap n :
  10 ≤ b ≤ 47 → budget b als → cap_ok cap → cap < 2 * n → n ≤ 2 ^ (b - 6) →
  als 0%nat (2 * cap * sizeof_elem) = true.
Proof.
  intros Hb Hals (e & He & ->) Hlt Hn. apply Hals. unfold sizeof_elem.
  assert (2 ^ e < 2 ^ (b - 5)) as He'.
  { replace (b - 5) with (Z.succ (b - 6)) by lia. rewrite Z.pow_succ_r by lia. lia. }
  apply Z.pow_lt_mono_r_iff in He'; [|lia..].
  replace (2 * 2 ^ e * 32) with (2 ^ (e + 6)) by (rewrite Z.pow_add_r by lia; lia).
  apply Z.pow_le_mono_r; lia.
Qed.

(** The operations on a table with the invariant. *)
Lemma inv_insert b als tbl m k v :
  10 ≤ b ≤ 47 → budget b als → table_inv tbl m → m !! k = None →
  Z.of_nat (size m) < 2 ^ (b - 6) →
  returns (dime_table_insert cmp_f hash_f als tbl k v) (λ '(rc, tbl'),
    rc = 0 ∧ table_inv tbl' (<[k:=v]> m)).
Proof.
  intros Hb Hals (Hrep & Hhole & Hroomy) Hk Hsize. unfold roomy in *.
  pose proof (tr_cap _ _ _ Hrep) as Hcap. pose proof (cap_ok_bounds _ Hcap).
  pose proof (rep_size _ _ _ Hrep) as Hlen. unfold dime_table_len in Hlen.
  eapply returns_mono; [apply (insert_new_spec cmp_f hash_f cmp_eq als tbl m k v)|];
    [by intros; apply Hals|done..|].
  intros [rc tbl'] [(_ & _ & ? & _)|(-> & Hrep' & Hc & Hh & Hal)]; [lia|].
  pose proof (rep_size _ _ _ Hrep') as Hlen'. unfold dime_table_len in Hlen'.
  rewrite map_size_insert_None in Hlen' by done.
  assert (2 * tb_len tbl ≤ tb_cap tbl').
  { destruct (decide (2 * tb_len tbl ≤ tb_cap tbl)); [lia|]. apply Hal.
    eapply (budget_grow b als _ (tb_len tbl)); try done; lia. }
  split; [done|]. split_and!; [done| |unfold roomy; lia]. apply Hh; [done|lia].
Qed.

Lemma inv_search tbl m k :
  table_inv tbl m →
  returns (dime_table_search cmp_f hash_f tbl k) (λ '(r, tbl'), r = m !! k ∧ table_inv tbl' m).
Proof.
  intros (Hrep & Hhole & Hroomy). unfold roomy in *.
  eapply returns_mono; [apply (search_spec cmp_f hash_f cmp_eq tbl m k); auto|].
  intros [r tbl'] (-> & Hrep' & Hc & Hh & _). split; [done|]. split_and!; [done|auto|].
  unfold roomy. pose proof (rep_size _ _ _ Hrep). pose proof (rep_size _ _ _ Hrep').
  unfold dime_table_len in *. lia.
Qed.

Lemma inv_remove tbl m k :
  table_inv tbl m →
  returns (dime_table_remove cmp_f hash_f tbl k) (λ '(r, tbl'),
    r = m !! k ∧ table_inv tbl' (delete k m)).
Proof.
  intros (Hrep & Hhole & Hroomy). unfold roomy in *.
  eapply returns_mono; [apply (remove_spec cmp_f hash_f cmp_eq tbl m k); auto|].
  intros [r tbl'] (-> & Hrep' & Hc & Hh). split; [done|]. split_and!; [done|auto|].
  unfold roomy. pose proof (rep_size _ _ _ Hrep). pose proof (rep_size _ _ _ Hrep') as Hs.
  unfold dime_table_len in *. simpl in Hs.
  assert (size (delete k m) ≤ size m)%nat; [|lia].
  apply map_subseteq_size, delete_subseteq.
Qed.

Lemma table_exec_rep b als c tbl m :
  10 ≤ b ≤ 47 → budget b als → table_inv tbl m → table_legal1 (2 ^ (b - 6)) c m = true →
  returns (table_exec als c tbl) (λ '(a, tbl'),
    a = (abs_table c m).1 ∧ table_inv tbl' (abs_table c m).2).
Proof.
  intros Hb Hals Hinv Hlegal. destruct c as [k v|k|k|k]; unfold table_exec.
  - apply andb_true_iff in Hlegal as [Hk%bool_decide_eq_true_1 Hsize%Z.ltb_lt].
    eapply returns_bind; [by apply (inv_insert b als tbl m k v)|]. by intros [rc tbl'] [-> ?].
  - eapply returns_bind; [by apply (inv_search tbl m k)|]. by intros [r tbl'] [-> ?].
  - destruct Hinv as (Hrep & Hhole & ?).
    rewrite (search_r_spec cmp_f hash_f cmp_eq tbl m k) by auto. simpl.
    split; [done|]. by split_and!.
  - eapply returns_bind; [by apply (inv_remove tbl m k)|]. by intros [r tbl'] [-> ?].
Qed.

Lemma table_run_rep b cs : ∀ als tbl m,
  10 ≤ b ≤ 47 → (∀ n, budget b (als n)) → table_inv tbl m →
  table_legal (2 ^ (b - 6)) cs m = true →
  returns (table_run als cs tbl) (λ '(tr, tbl'),
    tr = (abs_table_run cs m).1 ∧ table_inv tbl' (abs_table_run cs m).2).
Proof.
  induction cs as [|c cs IH]; intros als tbl m Hb Hals Hinv Hlegal; [done|].
  apply andb_true_iff in Hlegal as [Hl1 Hl2]. cbn [table_run abs_table_run].
  eapply returns_bind; [by apply (table_exec_rep b _ c tbl m)|]. intros [a tbl1] (-> & Hinv1).
  eapply returns_bind; [by eapply (IH (λ n, als (S n)) _ _ Hb (λ n, Hals (S n)) Hinv1 Hl2)|].
  intros [tr tbl2] (-> & Hinv2). simpl. destruct (abs_table c m) as [a m1]. simpl in *.
  by destruct (abs_table_run cs m1).
Qed.
End map.

(** ** Iteration *)

Section iteration.
Context {K V P : Type}.
Implicit Types (tbl : dime_table K V) (arr : list (dime_table_elem K V)).

(** The elements from slot [n] on. *)
Definition kvs_from (n : nat) arr : list (K * V) := kvs (drop n arr).

Lemma kvs_from_S n arr e :
  arr !! n = Some e →
  kvs_from n arr = match e with
                   | ELEM_OCCUPIED _ k v => (k, v) :: kvs_from (S n) arr
                   | _ => kvs_from (S n) arr
                   end.
Proof. intros He. unfold kvs_from, kvs. rewrite (drop_S _ _ _ He). by destruct e. Qed.

Lemma kvs_from_end n arr : (length arr ≤ n)%nat → kvs_from n arr = [].
Proof. intros. unfold kvs_from. by rewrite drop_ge. Qed.

Definition iterable tbl : Prop := zlen (tb_arr tbl) = tb_cap tbl ∧ tb_cap tbl < SIZE_MAX.

Lemma iter_step_at tbl n i :
  iterable tbl → (n ≤ length (tb_arr tbl))%nat → u64 (i + 1) = Z.of_nat n →
  iter_step tbl i = match tb_arr tbl !! n with
                    | Some (ELEM_OCCUPIED _ k v) => Ret (inr (Z.of_nat n, Some (k, v)))
                    | Some _ => Ret (inl (Z.of_nat n))
                    | None => Ret (inr (tb_cap tbl, None))
                    end.
Proof.
  intros [Hlen Hcap] Hn Hi. unfold iter_step, tget. rewrite Hi. unfold zlen in *.
  rewrite zget_nat. destruct (Z.ltb_spec (Z.of_nat n) (tb_cap tbl)).
  - destruct (lookup_lt_is_Some_2 (tb_arr tbl) n ltac:(lia)) as [e ->]. by destruct e.
  - rewrite lookup_ge_None_2 by lia. replace (Z.of_nat n) with (tb_cap tbl) by lia.
    by rewrite Z.eqb_refl.
Qed.

Lemma iter_next_spec tbl fuel : ∀ n i,
  iterable tbl → (n ≤ length (tb_arr tbl))%nat → u64 (i + 1) = Z.of_nat n →
  (length (tb_arr tbl) - n < fuel)%nat →
  match kvs_from n (tb_arr tbl) with
  | [] => loop (iter_step tbl) fuel i = Ret (tb_cap tbl, None)
  | kv :: kvs => ∃ n', (n ≤ n' < length (tb_arr tbl))%nat ∧
      loop (iter_step tbl) fuel i = Ret (Z.of_nat n', Some kv) ∧
      kvs_from (S n') (tb_arr tbl) = kvs
  end.
Proof.
  induction fuel as [|fuel IH]; intros n i [Hlen Hcap] Hn Hi Hf; [lia|].
  cbn [loop]. rewrite (iter_step_at tbl n i) by done. unfold zlen, SIZE_MAX in *.
  destruct (tb_arr tbl !! n) as [e|] eqn:He.
  2:{ by rewrite kvs_from_end by (by apply lookup_ge_None_1). }
  pose proof (lookup_lt_Some _ _ _ He). rewrite (kvs_from_S _ _ _ He).
  assert (u64 (Z.of_nat n + 1) = Z.of_nat (S n)) as Hn1 by (rewrite u64_small; lia).
  destruct e as [|h k v|]; cbn [mbind outcome_bind].
  2:{ exists n. split_and!; (done || lia). }
  all: pose proof (IH (S n) (Z.of_nat n) ltac:(done) ltac:(lia) Hn1 ltac:(lia)) as Hr;
    destruct (kvs_from (S n) (tb_arr tbl)); [done|];
    destruct Hr as (n' & ? & ? & ?); exists n'; split_and!; (done || lia).
Qed.

Lemma foreach_step_at tbl (f : K * V → P → outcome P) i p :
  table_foreach_step tbl f (i, p) =
    '(i, kv) ← dime_table_iter_next tbl i;
    match kv with
    | None => Ret (inr p)
    | Some kv => p ← f kv p; Ret (inl (i, p))
    end.
Proof. done. Qed.

Lemma foreach_from tbl (f : K * V → P → outcome P) l : ∀ fuel n i p,
  iterable tbl → (n ≤ length (tb_arr tbl))%nat → u64 (i + 1) = Z.of_nat n →
  kvs_from n (tb_arr tbl) = l → (length l < fuel)%nat →
  loop (table_foreach_step tbl f) fuel (i, p) = foldo f l p.
Proof.
  induction l as [|kv l IH]; intros [|fuel] n i p Hit Hn Hi Hl Hf; simpl in Hf; try lia;
    cbn [loop]; rewrite foreach_step_at; unfold dime_table_iter_next;
    pose proof (iter_next_spec tbl (S (Z.to_nat (tb_cap tbl))) n i Hit Hn Hi) as Hnext;
    rewrite Hl in Hnext; destruct Hit as [Hlen Hcap]; unfold zlen in *.
  - rewrite Hnext by lia. done.
  - destruct Hnext as (n' & Hn' & -> & Hl'); [lia|]. cbn [mbind outcome_bind foldo].
    destruct (f kv p) as [p'| |]; [|done..]. cbn [mbind outcome_bind].
    apply (IH fuel (S n')); try done; try lia.
    unfold SIZE_MAX in *. rewrite u64_small; lia.
Qed.

Lemma table_foreach_spec tbl (f : K * V → P → outcome P) p :
  iterable tbl → table_foreach tbl f p = foldo f (kvs (tb_arr tbl)) p.
Proof.
  intros Hit. unfold table_foreach. pose proof Hit as [Hlen Hcap]. unfold zlen in *.
  apply (foreach_from tbl f _ _ 0); try done; [lia|].
  unfold kvs. rewrite length_fmap. pose proof (entries_length (tb_arr tbl)). lia.
Qed.

Lemma apply_step_at tbl (f : K → V → P → P * bool) i p :
  apply_step tbl f (i, p) =
    if i <? tb_cap tbl then
      e ← tget tbl i;
      match e with
      | ELEM_OCCUPIED _ key val =>
          let (p, go) := f key val p in
          if go : bool then Ret (inl (u64 (i + 1), p)) else Ret (inr p)
      | _ => Ret (inl (u64 (i + 1), p))
      end
    else Ret (inr p).
Proof. done. Qed.

Lemma apply_from tbl (f : K → V → P → P * bool) fuel : ∀ n p,
  iterable tbl → (n ≤ length (tb_arr tbl))%nat → (length (tb_arr tbl) - n < fuel)%nat →
  loop (apply_step tbl f) fuel (Z.of_nat n, p)
  = Ret (fold_while (λ kv, f kv.1 kv.2) (kvs_from n (tb_arr tbl)) p).
Proof.
  induction fuel as [|fuel IH]; intros n p [Hlen Hcap] Hn Hf; [lia|].
  cbn [loop]. rewrite apply_step_at. unfold zlen, SIZE_MAX in *.
  destruct (Z.ltb_spec (Z.of_nat n) (tb_cap tbl)); [|by rewrite kvs_from_end by lia].
  destruct (lookup_lt_is_Some_2 (tb_arr tbl) n ltac:(lia)) as [e He].
  unfold tget. rewrite zget_nat, He, (kvs_from_S _ _ _ He). cbn [mbind outcome_bind].
  replace (u64 (Z.of_nat n + 1)) with (Z.of_nat (S n)) by (rewrite u64_small; lia).
  destruct e as [|h k v|]; simpl.
  2:{ destruct (f k v p) as [p' []]; cbn [mbind outcome_bind]; [|done]. apply IH; done || lia. }
  all: apply IH; done || lia.
Qed.
End iteration.

(** ** Properties *)

Section properties.
Context {K V : Type} `{Countable K}.
Variable cmp_f : K → K → Z.
Variable hash_f : K → Z.
Hypothesis cmp_eq : ∀ a b, cmp_f a b = 0 ↔ a = b.

(** C33: the hash table is a finite map. On a freshly initialised table, any
    sequence of insertions (of keys that are not present, as the callers
    make them), searches, read-only searches and removals runs without
    undefined behaviour and terminates, each call answers what the same
    call on an ideal map answers, and the table left behind represents the
    ideal map: whatever rehashing, growing, lazy deletion and moving of
    elements happened inside. The allocator must only grant blocks of up to
    [2^b] bytes, for a number of elements of at most [2^(b-6)]. *)
Theorem table_trace_refines b al als cs tbl :
  10 ≤ b ≤ 47 → (∀ n, budget b (als n)) → dime_table_init al = (0, tbl) →
  table_legal (K:=K) (V:=V) (2 ^ (b - 6)) cs ∅ = true →
  ∃ tbl', table_run cmp_f hash_f als cs tbl = Ret ((abs_table_run cs ∅).1, tbl') ∧
    table_rep hash_f tbl' (abs_table_run cs ∅).2 ∧
    dime_table_len tbl' = Z.of_nat (size (abs_table_run cs ∅).2).
Proof.
  intros Hb Hals Hinit Hlegal.
  pose proof (table_run_rep cmp_f hash_f cmp_eq b cs als tbl ∅ Hb Hals
    (table_init_rep hash_f _ _ Hinit) Hlegal) as Hr.
  apply returns_eq in Hr as ([tr tbl'] & Hrun & -> & Hinv). exists tbl'.
  split_and!; [done|apply Hinv|]. apply (rep_size hash_f), Hinv.
Qed.

(** C34: relocating every slot of a table in place (the rehash of
    [dime_table_insert], started when fewer than half of the slots are free)
    terminates, although each relocation may recursively relocate what is
    in its way; no element is lost or duplicated, no slot stays marked
    removed, and the table still represents the same map. *)
Theorem rehash_in_place tbl m :
  table_wf (K:=K) (V:=V) hash_f tbl m → tb_nfree tbl = tb_cap tbl - tb_len tbl →
  ∃ tbl', relocate_all (seqZ 0 (tb_cap tbl)) tbl = Ret tbl' ∧ table_rep hash_f tbl' m ∧
    entries (tb_arr tbl') ≡ₚ entries (tb_arr tbl) ∧
    ∀ i, 0 ≤ i < tb_cap tbl' → zget (tb_arr tbl') i ≠ Some ELEM_REMOVED.
Proof.
  intros Hwf Hnf. pose proof (rehash_spec hash_f tbl m Hwf Hnf) as Hr.
  apply returns_eq in Hr as (tbl' & Hrun & Hrep & Hfresh & _). exists tbl'.
  split_and!; [done..| |].
  - pose proof Hwf as []. simpl in *.
    destruct (relocate_all_spec (seqZ 0 (tb_cap tbl)) tbl [])
      as (arr' & nc & L' & Hrun' & Hrel & _); try done.
    { apply Forall_forall. intros i. rewrite elem_of_seqZ. lia. }
    { apply orderly_nil. }
    rewrite Hrun in Hrun'. simplify_eq. apply Hrel.
  - intros i Hi. destruct (Hfresh i Hi) as [->|(? & ? & ? & ->)]; done.
Qed.

(** The pattern of [dime_client_join], a search followed by an insertion
    of the same key: if the search finds the key, the insertion would be
    refused with [-1] and the map unchanged, because the search moves what
    it found in front of every removed slot. *)
Theorem search_then_insert als (tbl : dime_table K V) m k v v0 :
  (∀ n, alloc_sane (als n)) → table_rep hash_f tbl m → m !! k = Some v0 →
  ∃ tbl1 tbl2, dime_table_search cmp_f hash_f tbl k = Ret (Some v0, tbl1) ∧
    dime_table_insert cmp_f hash_f als tbl1 k v = Ret (-1, tbl2) ∧
    table_rep hash_f tbl2 m.
Proof.
  intros Hals Hrep Hk.
  pose proof (search_spec cmp_f hash_f cmp_eq tbl m k Hrep) as Hs. rewrite Hk in Hs.
  apply returns_eq in Hs as ([r tbl1] & Hs & -> & Hrep1 & _ & _ & Hd); [|eauto].
  pose proof (insert_dup_spec cmp_f hash_f cmp_eq als tbl1 m k v Hals Hrep1) as Hi.
  apply returns_eq in Hi as ([rc tbl2] & Hi & -> & Hrep2 & _); [|rewrite Hk; eauto|eauto].
  eauto.
Qed.

(** C35: iterating over a table (the loops of [client.c] and [server.c]) runs
    the body on every element exactly once: on the elements of the map it
    represents, without repetition, and then ends. [dime_table_apply] does
    the same up to the first callback that answers 0. *)
Theorem table_iteration {P} (tbl : dime_table K V) m (f : K * V → P → outcome P)
    (g : K → V → P → P * bool) p :
  table_rep hash_f tbl m →
  ∃ l, l ≡ₚ map_to_list m ∧ table_foreach tbl f p = foldo f l p ∧
    dime_table_apply tbl g p = Ret (fold_while (λ kv, g kv.1 kv.2) l p).
Proof.
  intros Hrep. assert (iterable tbl) as Hit.
  { split; [apply Hrep|]. pose proof (cap_ok_bounds _ (tr_cap _ _ _ Hrep)).
    unfold SIZE_MAX. lia. }
  exists (kvs (tb_arr tbl)). split_and!.
  - rewrite (tr_map _ _ _ Hrep), map_to_list_to_map; [done|apply Hrep].
  - by apply table_foreach_spec.
  - unfold dime_table_apply. unfold iterable, zlen in *.
    by rewrite (apply_from tbl g _ 0) by (done || lia).
Qed.
End properties.

(** ** Instances *)

Definition alloc_1M : allocator := λ n, n <=? 2 ^ 20.

Lemma alloc_1M_budget n : budget 20 ((λ _ _, alloc_1M : allocator) (n : nat)).
Proof.
  intros i. split.
  - intros x. unfold alloc_1M, MAXOBJ. rewrite Z.leb_le. lia.
  - intros x Hx. by apply Z.leb_le.
Qed.

(** Descriptors as keys, descriptors as values. *)
Definition fd_table0 : dime_table Z Z := snd (dime_table_init alloc_1M).
Definition fd_calls : list (@table_call Z Z) :=
  ((λ i, CallInsert i (i + 100)) <$> seqZ 3 20)
  ++ [CallRemove 5; CallInsert 37 1; CallSearch 37; CallSearchR 5; CallRemove 37].

Lemma table_trace_refines_witness :
  ∃ tbl', table_run cmp_fd hash_fd (λ _ _, alloc_1M) fd_calls fd_table0
    = Ret ((abs_table_run fd_calls ∅).1, tbl') ∧
    table_rep hash_fd tbl' (abs_table_run fd_calls ∅).2 ∧
    dime_table_len tbl' = Z.of_nat (size (abs_table_run fd_calls ∅).2).
Proof.
  apply (table_trace_refines cmp_fd hash_fd cmp_fd_eq 20 alloc_1M).
  - lia.
  - apply alloc_1M_budget.
  - reflexivity.
  - vm_compute. reflexivity.
Defined.

(** The table and the map after the calls of [fd_calls] up to the first
    [n]. *)
Definition fd_table (n : nat) : dime_table Z Z :=
  match table_run cmp_fd hash_fd (λ _ _, alloc_1M) (take n fd_calls) fd_table0 with
  | Ret (_, tbl) => tbl
  | _ => fd_table0
  end.
Definition fd_map (n : nat) : gmap Z Z := (abs_table_run (take n fd_calls) ∅).2.

Lemma fd_table_rep n :
  table_legal (2 ^ 14) (take n fd_calls) ∅ = true → table_rep hash_fd (fd_table n) (fd_map n).
Proof.
  intros Hlegal. unfold fd_table, fd_map.
  pose proof (table_run_rep cmp_fd hash_fd cmp_fd_eq 20 (take n fd_calls) (λ _ _, alloc_1M)
    fd_table0 ∅ ltac:(lia) alloc_1M_budget
    (table_init_rep hash_fd alloc_1M _ eq_refl) Hlegal) as Hr.
  apply returns_eq in Hr as ([tr tbl'] & -> & _ & Hinv). apply Hinv.
Qed.

Lemma rehash_in_place_witness :
  ∃ tbl', relocate_all (seqZ 0 (tb_cap (fd_table 21)))
      (with_nfree (fd_table 21) (tb_cap (fd_table 21) - tb_len (fd_table 21))) = Ret tbl' ∧
    table_rep hash_fd tbl' (fd_map 21) ∧
    entries (tb_arr tbl') ≡ₚ entries (tb_arr (fd_table 21)) ∧
    ∀ i, 0 ≤ i < tb_cap tbl' → zget (tb_arr tbl') i ≠ Some ELEM_REMOVED.
Proof.
  apply (rehash_in_place hash_fd
    (with_nfree (fd_table 21) (tb_cap (fd_table 21) - tb_len (fd_table 21))) (fd_map 21)).
  - apply rep_wf_nfree, fd_table_rep. vm_compute. reflexivity.
  - reflexivity.
Defined.

Lemma search_then_insert_witness :
  ∃ tbl1 tbl2, dime_table_search cmp_fd hash_fd (fd_table 22) 37 = Ret (Some 1, tbl1) ∧
    dime_table_insert cmp_fd hash_fd (λ _, alloc_1M) tbl1 37 2 = Ret (-1, tbl2) ∧
    table_rep hash_fd tbl2 (fd_map 22).
Proof.
  apply (search_then_insert cmp_fd hash_fd cmp_fd_eq).
  - intros n. apply (alloc_1M_budget 0%nat 0%nat).
  - apply fd_table_rep. vm_compute. reflexivity.
  - vm_compute. reflexivity.
Defined.

Lemma table_iteration_witness :
  ∃ l, l ≡ₚ map_to_list (fd_map 22) ∧
    table_foreach (fd_table 22) (λ kv p, Ret (kv.2 + p)) 0
      = foldo (λ kv p, Ret (kv.2 + p)) l 0 ∧
    dime_table_apply (fd_table 22) (λ k v p, (v + p, k =? 37)) 0
      = Ret (fold_while (λ kv p, (kv.2 + p, kv.1 =? 37)) l 0).
Proof.
  apply (table_iteration hash_fd (fd_table 22) (fd_map 22) (λ kv p, Ret (kv.2 + p))
    (λ k v p, (v + p, k =? 37)) 0).
  apply fd_table_rep. vm_compute. reflexivity.
Defined.

(** Inserting a key that is present is not always refused. After
    inserting the descriptors 3 to 7 and 37, which shares its home slot with
    5, and removing 5, a second insertion of 37 answers 0: it stops at the
    slot of 5, marked removed, before it meets the first 37. The table then
    holds two elements with the same key. (The program never inserts a
    descriptor that is in the table, and searches before it inserts a
    name.) *)
Theorem insert_duplicate_after_remove :
  let calls := [CallInsert 3 0; CallInsert 4 0; CallInsert 5 0; CallInsert 6 0;
                CallInsert 7 0; CallInsert 37 1; CallRemove 5; CallInsert 37 2] in
  ∃ tbl, table_run cmp_fd hash_fd (λ _ _, alloc_1M) calls fd_table0
    = Ret ([AnsStatus 0; AnsStatus 0; AnsStatus 0; AnsStatus 0; AnsStatus 0; AnsStatus 0;
            AnsVal (Some 0); AnsStatus 0], tbl) ∧
    (hash_fd 37, 37, 1) ∈ entries (tb_arr tbl) ∧ (hash_fd 37, 37, 2) ∈ entries (tb_arr tbl) ∧
    dime_table_len tbl = 6.
Proof.
  eexists. split; [vm_compute; reflexivity|]. split; [|split; [|reflexivity]].
  - apply (bool_decide_unpack _). vm_compute. exact I.
  - apply (bool_decide_unpack _). vm_compute. exact I.
Qed.
