(* ===== verification/Bytes.v ===== *)
(** * Integers as bytes

    The byte orders of the wire formats: [htonl]/[ntohl] on a little-endian
    machine, and the shifts and masks of the WebSocket headers. *)

From S2P Require Import Prelude.

Definition byte (z : Z) : Prop := 0 ≤ z < 256.

(** The bytes that [htonl n] has in memory. *)
Definition be32 (n : Z) : list Z :=
  [Z.land (Z.shiftr n 24) 255; Z.land (Z.shiftr n 16) 255;
   Z.land (Z.shiftr n 8) 255; Z.land n 255].

(** [ntohl] of four bytes in memory. *)
Definition be32_dec (b0 b1 b2 b3 : Z) : Z :=
  Z.lor (Z.lor (Z.lor (Z.shiftl b0 24) (Z.shiftl b1 16)) (Z.shiftl b2 8)) b3.

Lemma testbit_high k b n : 0 ≤ b < 2 ^ k → k ≤ n → Z.testbit b n = false.
Proof.
  intros Hb Hn. destruct (decide (b = 0)) as [->|]; [apply Z.bits_0|].
  apply Z.bits_above_log2; [lia|]. apply Z.lt_le_trans with k; [|done].
  apply Z.log2_lt_pow2; lia.
Qed.

(** An [|] of disjoint bits is a sum. *)
Lemma lor_disjoint k a b : 0 ≤ k → 0 ≤ b < 2 ^ k → Z.lor (a * 2 ^ k) b = a * 2 ^ k + b.
Proof.
  intros Hk Hb. rewrite <-(Z.shiftl_mul_pow2 a k) by done.
  assert (Z.land (Z.shiftl a k) b = 0) as Hland.
  { apply Z.bits_inj'. intros n Hn. rewrite Z.land_spec, Z.bits_0.
    destruct (decide (n < k)); [by rewrite Z.shiftl_spec_low|].
    rewrite (testbit_high k b) by (done || lia). apply andb_false_r. }
  by rewrite Z.add_nocarry_lxor, Z.lxor_lor.
Qed.

Lemma land_255 z : Z.land z 255 = z mod 256.
Proof. change 255 with (Z.ones 8). by rewrite Z.land_ones. Qed.

Lemma byte_land_255 z : byte (Z.land z 255).
Proof. rewrite land_255. unfold byte. by apply Z.mod_pos_bound. Qed.

(** One more byte of a big-endian number. *)
Lemma lor_byte a b : byte b → Z.lor (a * 256) b = a * 256 + b.
Proof. apply (lor_disjoint 8). done. Qed.

Lemma be32_dec_sum b0 b1 b2 b3 :
  byte b0 → byte b1 → byte b2 → byte b3 →
  be32_dec b0 b1 b2 b3 = b0 * 2 ^ 24 + b1 * 2 ^ 16 + b2 * 2 ^ 8 + b3.
Proof.
  unfold byte, be32_dec. intros. rewrite !Z.shiftl_mul_pow2 by done.
  rewrite (lor_disjoint 24) by lia.
  replace (b0 * 2 ^ 24 + b1 * 2 ^ 16) with ((b0 * 2 ^ 8 + b1) * 2 ^ 16) by lia.
  rewrite (lor_disjoint 16) by lia.
  replace ((b0 * 2 ^ 8 + b1) * 2 ^ 16 + b2 * 2 ^ 8)
    with ((b0 * 2 ^ 16 + b1 * 2 ^ 8 + b2) * 2 ^ 8) by lia.
  rewrite (lor_disjoint 8) by lia. lia.
Qed.

Lemma be32_bytes n : Forall byte (be32 n).
Proof. repeat constructor; apply byte_land_255 || apply byte_land_255. Qed.

Lemma be32_roundtrip n :
  0 ≤ n < 2 ^ 32 →
  be32_dec (Z.land (Z.shiftr n 24) 255) (Z.land (Z.shiftr n 16) 255)
    (Z.land (Z.shiftr n 8) 255) (Z.land n 255) = n.
Proof.
  intros Hn. rewrite be32_dec_sum by apply byte_land_255.
  rewrite !land_255, !Z.shiftr_div_pow2 by done. dlia.
Qed.

(** The eight length bytes of a long WebSocket header. *)
Definition be64 (n : Z) : list Z :=
  [Z.land (Z.shiftr n 56) 255; Z.land (Z.shiftr n 48) 255;
   Z.land (Z.shiftr n 40) 255; Z.land (Z.shiftr n 32) 255;
   Z.land (Z.shiftr n 24) 255; Z.land (Z.shiftr n 16) 255;
   Z.land (Z.shiftr n 8) 255; Z.land n 255].

Definition be64_dec (b0 b1 b2 b3 b4 b5 b6 b7 : Z) : Z :=
  Z.lor (Z.lor (Z.lor (Z.lor (Z.lor (Z.lor (Z.lor
    (Z.shiftl b0 56) (Z.shiftl b1 48)) (Z.shiftl b2 40)) (Z.shiftl b3 32))
    (Z.shiftl b4 24)) (Z.shiftl b5 16)) (Z.shiftl b6 8)) b7.

Lemma be64_dec_sum b0 b1 b2 b3 b4 b5 b6 b7 :
  byte b0 → byte b1 → byte b2 → byte b3 → byte b4 → byte b5 → byte b6 → byte b7 →
  be64_dec b0 b1 b2 b3 b4 b5 b6 b7 =
  (b0 * 2 ^ 24 + b1 * 2 ^ 16 + b2 * 2 ^ 8 + b3) * 2 ^ 32
  + (b4 * 2 ^ 24 + b5 * 2 ^ 16 + b6 * 2 ^ 8 + b7).
Proof.
  unfold byte, be64_dec. intros. rewrite !Z.shiftl_mul_pow2 by done.
  rewrite (lor_disjoint 56) by lia.
  replace (b0 * 2 ^ 56 + b1 * 2 ^ 48) with ((b0 * 2 ^ 8 + b1) * 2 ^ 48) by lia.
  rewrite (lor_disjoint 48) by lia.
  replace (_ * 2 ^ 48 + b2 * 2 ^ 40) with (((b0 * 2 ^ 8 + b1) * 2 ^ 8 + b2) * 2 ^ 40) by lia.
  rewrite (lor_disjoint 40) by lia. set (x := (b0 * 2 ^ 8 + b1) * 2 ^ 8 + b2).
  replace (x * 2 ^ 40 + b3 * 2 ^ 32) with ((x * 2 ^ 8 + b3) * 2 ^ 32) by lia.
  rewrite (lor_disjoint 32) by lia. set (y := x * 2 ^ 8 + b3).
  replace (y * 2 ^ 32 + b4 * 2 ^ 24) with ((y * 2 ^ 8 + b4) * 2 ^ 24) by lia.
  rewrite (lor_disjoint 24) by lia.
  replace (_ * 2 ^ 24 + b5 * 2 ^ 16) with (((y * 2 ^ 8 + b4) * 2 ^ 8 + b5) * 2 ^ 16) by lia.
  rewrite (lor_disjoint 16) by lia. set (z := (y * 2 ^ 8 + b4) * 2 ^ 8 + b5).
  replace (z * 2 ^ 16 + b6 * 2 ^ 8) with ((z * 2 ^ 8 + b6) * 2 ^ 8) by lia.
  rewrite (lor_disjoint 8) by lia. subst x y z. lia.
Qed.

Lemma be64_range b0 b1 b2 b3 b4 b5 b6 b7 :
  byte b0 → byte b1 → byte b2 → byte b3 → byte b4 → byte b5 → byte b6 → byte b7 →
  0 ≤ be64_dec b0 b1 b2 b3 b4 b5 b6 b7 < 2 ^ 64.
Proof. intros. rewrite be64_dec_sum by done. unfold byte in *. lia. Qed.

Lemma be64_roundtrip n :
  0 ≤ n < 2 ^ 64 →
  be64_dec (Z.land (Z.shiftr n 56) 255) (Z.land (Z.shiftr n 48) 255)
    (Z.land (Z.shiftr n 40) 255) (Z.land (Z.shiftr n 32) 255)
    (Z.land (Z.shiftr n 24) 255) (Z.land (Z.shiftr n 16) 255)
    (Z.land (Z.shiftr n 8) 255) (Z.land n 255) = n.
Proof.
  intros Hn. rewrite be64_dec_sum by apply byte_land_255.
  rewrite !land_255, !Z.shiftr_div_pow2 by done. dlia.
Qed.
