(* ===== verification/Json.v ===== *)
(** * The JSON library

    The program handles JSON through the library jansson, whose code is not
    part of the repository: [Jansson] lists the calls the program makes, one
    method each, with their results as values. A call that allocates takes
    the allocator as an argument and may answer [None] for [NULL]. *)

From S2P Require Import Prelude.
From Stdlib Require Import Ascii.
From Stdlib Require String.

(** The values of a [json_pack] format: [i]/[I], [s], [s+] (two strings to
    concatenate), [b] and [o]. *)
Inductive pack_arg (J : Type) :=
  | PackInt (n : Z)
  | PackStr (s : string)
  | PackCat (s t : string)
  | PackBool (b : bool)
  | PackObj (j : J).
Arguments PackInt {J} n.
Arguments PackStr {J} s.
Arguments PackCat {J} s t.
Arguments PackBool {J} b.
Arguments PackObj {J} j.

(** [json_unpack_ex] answers a value or the text of the error. *)
Class Jansson := {
  json : Type;
  json_loadb : list Z → option json;
  json_dumps : allocator → json → option (list Z);
  json_unpack_sssb : json → string → string → string * bool + string;
  json_unpack_so : json → string → json + string;
  json_unpack_ss : json → string → string + string;
  json_unpack_sI : json → string → option Z;
  json_string_value : json → option string;
  json_array_elems : json → list json;
  json_pack : allocator → list (string * pack_arg json) → option json;
  json_array : allocator → option json;
  json_string : allocator → string → option json;
  json_array_append_new : allocator → json → json → option json;
}.

(** The bytes of a C string. *)
Definition bytes_of (s : string) : list Z :=
  (λ c, Z.of_N (N_of_ascii c)) <$> String.list_ascii_of_string s.

Definition string_of_bytes (l : list Z) : string :=
  String.string_of_list_ascii (ascii_of_N ∘ Z.to_N <$> l).

Lemma zlen_bytes_of s : zlen (bytes_of s) = Z.of_nat (String.length s).
Proof.
  unfold bytes_of, zlen. rewrite length_fmap. f_equal. induction s; simpl; congruence.
Qed.

(** An instance for examples: a value is its own text, and it is packed as
    the text of its arguments. Every member of an object is the value itself
    again, and an array has one element. *)
Definition text_of_arg (a : pack_arg (list Z)) : list Z :=
  match a with
  | PackInt n => [n]
  | PackStr s => bytes_of s
  | PackCat s t => bytes_of s ++ bytes_of t
  | PackBool b => [if b then 1 else 0]
  | PackObj j => j
  end.

Definition text_json : Jansson := {|
  json := list Z;
  json_loadb := Some;
  json_dumps al j := if al (zlen j) then Some j else None;
  json_unpack_sssb j _ _ := inl (string_of_bytes j, false);
  json_unpack_so j _ := inl j;
  json_unpack_ss j _ := inl (string_of_bytes j);
  json_unpack_sI j _ := head j;
  json_string_value j := Some (string_of_bytes j);
  json_array_elems j := [j];
  json_pack al args := if al 1 then Some (concat (text_of_arg ∘ snd <$> args)) else None;
  json_array al := if al 1 then Some [] else None;
  json_string al s := if al 1 then Some (bytes_of s) else None;
  json_array_append_new al j j' := if al 1 then Some (j ++ j') else None;
|}.
