(* ===== verification/Socket.v ===== *)
(** * DiME sockets ([server/socket.c]): data and operations

    A socket buffers what it receives and what it is to send in two ring
    buffers, frames messages with the DiME header and, on WebSocket
    connections, with a WebSocket header. The network is the environment: the
    bytes [recv] delivers and the number of bytes [send] takes are arguments.
    TLS and plain sockets differ only in the system call, so that both are
    the same here. The error string [sock->err] is not kept. *)

From S2P Require Import Prelude Ringbuffer Bytes Json.

Record dime_socket := Socket {
  so_fd : Z;
  so_rbuf : dime_ringbuffer;
  so_wbuf : dime_ringbuffer;
  so_tls : bool;
  so_ws : bool;
  so_ws_rbuf : dime_ringbuffer;
  so_zlib : bool;
  so_zlib_rbuf : dime_ringbuffer;
  so_ev : option bool;
}.

Definition with_rbuf (s : dime_socket) r : dime_socket :=
  Socket (so_fd s) r (so_wbuf s) (so_tls s) (so_ws s) (so_ws_rbuf s) (so_zlib s) (so_zlib_rbuf s) (so_ev s).
Definition with_wbuf (s : dime_socket) r : dime_socket :=
  Socket (so_fd s) (so_rbuf s) r (so_tls s) (so_ws s) (so_ws_rbuf s) (so_zlib s) (so_zlib_rbuf s) (so_ev s).
Definition with_tls (s : dime_socket) b : dime_socket :=
  Socket (so_fd s) (so_rbuf s) (so_wbuf s) b (so_ws s) (so_ws_rbuf s) (so_zlib s) (so_zlib_rbuf s) (so_ev s).
Definition with_ws (s : dime_socket) b r : dime_socket :=
  Socket (so_fd s) (so_rbuf s) (so_wbuf s) (so_tls s) b r (so_zlib s) (so_zlib_rbuf s) (so_ev s).
Definition with_zlib_rbuf (s : dime_socket) r : dime_socket :=
  Socket (so_fd s) (so_rbuf s) (so_wbuf s) (so_tls s) (so_ws s) (so_ws_rbuf s) (so_zlib s) r (so_ev s).
Definition with_ev (s : dime_socket) e : dime_socket :=
  Socket (so_fd s) (so_rbuf s) (so_wbuf s) (so_tls s) (so_ws s) (so_ws_rbuf s) (so_zlib s) (so_zlib_rbuf s) e.

Definition SENDBUFLEN : Z := 200000000.
Definition RECVBUFLEN : Z := 200000000.

(** A ring buffer that is not initialised yet. *)
Definition no_ring : dime_ringbuffer := Ring 0 [] 0 0 0.

Definition dime_socket_init (o : oracle) (fd : Z) : Z * dime_socket :=
  match dime_ringbuffer_init (at_ o 0) with
  | (rc, rbuf) =>
      if rc <? 0 then (-1, Socket fd no_ring no_ring false false no_ring false no_ring None)
      else
        let (rc, wbuf) := dime_ringbuffer_init (at_ o 1) in
        if rc <? 0 then (-1, Socket fd rbuf no_ring false false no_ring false no_ring None)
        else (0, Socket fd rbuf wbuf false false no_ring false no_ring None)
  end.

(** ** Sending *)

(** "DiME". *)
Definition magic : list Z := [68; 105; 77; 69].

(** [dime_header_t] in memory. *)
Definition dime_header (jsondata_len bindata_len : Z) : list Z :=
  magic ++ be32 (u32 jsondata_len) ++ be32 (u32 bindata_len).

(** The header of an unmasked, final, binary WebSocket frame. *)
Definition ws_header (payload_len : Z) : outcome (list Z) :=
  if payload_len <? 126 then Ret [0x82; payload_len]
  else if payload_len <? Z.shiftl 1 16 then
    Ret [0x82; 126; Z.land (Z.shiftr payload_len 8) 0xFF; Z.land payload_len 0xFF]
  else if Z.land payload_len (Z.shiftl 1 63) =? 0 then
    Ret ([0x82; 127] ++ be64 payload_len)
  else Undef.

(** [dime_ringbuffer_write] answers a [ssize_t]: compared with a [size_t] it
    is converted, so that [-1] is not less than the length; compared with the
    [int] 12 it is not. *)
Definition push_bytes (o : oracle) (s : dime_socket) (jsonstr bindata : list Z)
    : outcome (Z * dime_socket) :=
  let jsondata_len := zlen jsonstr in
  let bindata_len := zlen bindata in
  ws ← (if so_ws s then
          hdr ← ws_header (u64 (12 + jsondata_len + bindata_len));
          '(rc, w) ← dime_ringbuffer_write (at_ o 0) (so_wbuf s) hdr;
          Ret (u64 rc <? zlen hdr, zlen hdr, w)
        else Ret (false, 0, so_wbuf s));
  let '(failed, ws_len, w) := ws in
  if failed : bool then Ret (-1, with_wbuf s w)
  else
    '(rc, w) ← dime_ringbuffer_write (at_ o 1) w (dime_header jsondata_len bindata_len);
    if rc <? 12 then Ret (-1, with_wbuf s w)
    else
      '(rc, w) ← dime_ringbuffer_write (at_ o 2) w jsonstr;
      if u64 rc <? jsondata_len then Ret (-1, with_wbuf s w)
      else
        '(rc, w) ← dime_ringbuffer_write (at_ o 3) w bindata;
        if u64 rc <? bindata_len then Ret (-1, with_wbuf s w)
        else Ret (12 + ws_len + jsondata_len + bindata_len, with_wbuf s w).

(** In the build with libev the socket asks to be told when it can send, if
    it had nothing to send up to now. *)
Definition start_wwatcher (s : dime_socket) : dime_socket :=
  if (dime_ringbuffer_len (so_wbuf s) =? 0) && bool_decide (is_Some (so_ev s))
  then with_ev s (Some true) else s.

Definition dime_socket_push_str (o : oracle) (s : dime_socket) (jsonstr bindata : list Z)
    : outcome (Z * dime_socket) :=
  push_bytes o (start_wwatcher s) jsonstr bindata.

Definition dime_socket_push `{Jansson} (o : oracle) (s : dime_socket) (jsondata : json)
    (bindata : list Z) : outcome (Z * dime_socket) :=
  match json_dumps (at_ o 0) jsondata with
  | None => Ret (-1, s)
  | Some jsonstr => dime_socket_push_str (sub o 1) s jsonstr bindata
  end.

(** [send] takes [sent] bytes of what it is offered, or fails; the bytes it
    takes are the second component of the answer. *)
Definition dime_socket_sendpartial (al : allocator) (s : dime_socket) (send : list Z → Z)
    : outcome (Z * list Z * dime_socket) :=
  if al SENDBUFLEN then
    '(nread, buf) ← dime_ringbuffer_peek (so_wbuf s) SENDBUFLEN;
    let nsent := send buf in
    if nsent <? 0 then Ret (-1, [], s)
    else
      let (_, w) := dime_ringbuffer_discard (so_wbuf s) nsent in
      Ret (nsent, take (Z.to_nat nsent) buf, with_wbuf s w)
  else Ret (-1, [], s).

(** ** Receiving *)

(** [recv] delivers some bytes, none at the end of the stream, or fails. *)
Definition dime_socket_recvpartial (o : oracle) (s : dime_socket) (recv : option (list Z))
    : outcome (Z * dime_socket) :=
  if at_ o 0 RECVBUFLEN then
    match recv with
    | None => Ret (-1, s)
    | Some buf =>
        let rbuf := if so_ws s then so_ws_rbuf s
                    else if so_zlib s then so_zlib_rbuf s else so_rbuf s in
        '(rc, r) ← dime_ringbuffer_write (at_ o 1) rbuf buf;
        let s := if so_ws s then with_ws s true r
                 else if so_zlib s then with_zlib_rbuf s r else with_rbuf s r in
        if rc <? 0 then Ret (-1, s) else Ret (zlen buf, s)
    end
  else Ret (-1, s).

(** The [i]-th byte of a buffer of bytes peeked at; the program looks at a
    byte past the last one only where its value does not matter. *)
Definition peeked (bytes : list Z) (i : Z) : Z := default 0 (zget bytes i).

(** The length of the header, the length of the payload and the mask of a
    frame, once enough bytes are there. *)
Definition ws_frame (nread : Z) (ws_hdr : list Z) : option (Z * Z * list Z) :=
  let h := peeked ws_hdr in
  let l := Z.land (h 1) (Z.lnot 0x80) in
  if (l <? 126) && (6 <=? nread) then
    Some (6, l, [h 2; h 3; h 4; h 5])
  else if (l =? 126) && (8 <=? nread) then
    Some (8, Z.lor (Z.shiftl (h 2) 8) (h 3), [h 4; h 5; h 6; h 7])
  else if (l =? 127) && (nread =? 14) then
    Some (14, be64_dec (h 2) (h 3) (h 4) (h 5) (h 6) (h 7) (h 8) (h 9),
          [h 10; h 11; h 12; h 13])
  else None.

Definition unmask (mask frame : list Z) : list Z :=
  imap (λ i b, Z.lxor b (peeked mask (Z.land (Z.of_nat i) 3))) frame.

(** One turn of the [while (1)] of [dime_socket_pop]. It answers [inl] to go
    on, [inr true] at a [break] and [inr false] at a [return -1]. The loop
    that unmasks writes past the end of [msg] if the size of the frame wraps
    around. *)
Definition ws_step (o : oracle) (st : nat * dime_socket)
    : outcome (nat * dime_socket + bool * dime_socket) :=
  let (n, s) := st in
  '(nread, ws_hdr) ← dime_ringbuffer_peek (so_ws_rbuf s) 14;
  match ws_frame nread ws_hdr with
  | None => Ret (inr (true, s))
  | Some (hdr_len, frame_len, mask) =>
      if Z.land (peeked ws_hdr 1) 0x80 =? 0 then Ret (inr (false, s))
      else
        let msgsiz := u64 (hdr_len + frame_len) in
        if at_ (sub o n) 0 msgsiz then
          '(got, msg) ← dime_ringbuffer_peek (so_ws_rbuf s) msgsiz;
          if got =? msgsiz then
            if hdr_len + frame_len <=? zlen msg then
              let frame := unmask mask (drop (Z.to_nat hdr_len) msg) in
              '(rc, r) ← dime_ringbuffer_write (at_ (sub o n) 1) (so_rbuf s) frame;
              if rc <? 0 then Ret (inr (false, with_rbuf s r))
              else
                let (_, wsr) := dime_ringbuffer_discard (so_ws_rbuf s) msgsiz in
                Ret (inl (S n, with_ws (with_rbuf s r) true wsr))
            else Undef
          else Ret (inr (true, s))
        else Ret (inr (false, s))
  end.

Section pop.
Context `{Jansson}.

(** What [dime_socket_pop] does with the DiME stream. [12 + jsondata_len +
    bindata_len] is computed in 32 bits; [json_loadb] and [memcpy] must not
    be told to read past the end of [buf]. *)
Definition pop_message (o : oracle) (s : dime_socket)
    : outcome (Z * option (json * list Z) * dime_socket) :=
  '(nread, hdr) ← dime_ringbuffer_peek (so_rbuf s) 12;
  if nread =? 12 then
    if bool_decide (take 4 hdr = magic) then
      let h := peeked hdr in
      let jsondata_len := be32_dec (h 4) (h 5) (h 6) (h 7) in
      let bindata_len := be32_dec (h 8) (h 9) (h 10) (h 11) in
      let msgsiz := u32 (12 + jsondata_len + bindata_len) in
      if at_ o 0 msgsiz then
        '(got, buf) ← dime_ringbuffer_peek (so_rbuf s) msgsiz;
        if got =? msgsiz then
          if 12 + jsondata_len + bindata_len <=? zlen buf then
            match json_loadb (take (Z.to_nat jsondata_len) (drop 12 buf)) with
            | None => Ret (-1, None, s)
            | Some jsondata =>
                if at_ o 1 bindata_len then
                  let bindata := take (Z.to_nat bindata_len)
                                   (drop (Z.to_nat (12 + jsondata_len)) buf) in
                  let (_, r) := dime_ringbuffer_discard (so_rbuf s) msgsiz in
                  Ret (msgsiz, Some (jsondata, bindata), with_rbuf s r)
                else Ret (-1, None, s)
            end
          else Undef
        else Ret (0, None, s)
      else Ret (-1, None, s)
    else Ret (-1, None, s)
  else Ret (0, None, s).

(** Each frame takes at least six bytes of the WebSocket buffer. *)
Definition dime_socket_pop (o : oracle) (s : dime_socket)
    : outcome (Z * option (json * list Z) * dime_socket) :=
  '(go, s) ← (if so_ws s then
                loop (ws_step (sub o 0))
                  (S (Z.to_nat (dime_ringbuffer_len (so_ws_rbuf s)))) (0%nat, s)
              else Ret (true, s));
  if go : bool then pop_message (sub o 1) s else Ret (-1, None, s).
End pop.

Definition dime_socket_sendlen (s : dime_socket) : Z := dime_ringbuffer_len (so_wbuf s).
Definition dime_socket_recvlen (s : dime_socket) : Z := dime_ringbuffer_len (so_rbuf s).

(** ** Blocking and not blocking, and the end of a socket *)

(** What [fcntl] answers to [F_GETFL], the flags or an error, and to
    [F_SETFL] with some flags. *)
Record fcntl_env := Fcntl {
  fc_getfl : Z;
  fc_setfl : Z → Z;
}.

Definition O_NONBLOCK : Z := 0x800.

Definition nonblocking_flags (flags : Z) (nonblocking : bool) : Z :=
  if nonblocking then Z.lor flags O_NONBLOCK else Z.land flags (Z.lnot O_NONBLOCK).

Definition dime_socket_setnonblocking (env : fcntl_env) (nonblocking : bool) : Z :=
  let flags := fc_getfl env in
  if flags <? 0 then -1 else fc_setfl env (nonblocking_flags flags nonblocking).

Definition dime_socket_fd (s : dime_socket) : Z := so_fd s.

(** What the end of a socket gives back: the arrays of ring buffers, what
    OpenSSL and zlib hold, and the descriptor. *)
Inductive release :=
  | FreeRing (r : dime_ringbuffer)
  | SslShutdown
  | SslFree
  | DeflateEnd
  | Shutdown (fd : Z)
  | Close (fd : Z).

Definition dime_socket_destroy (s : dime_socket) : list release :=
  [FreeRing (so_rbuf s); FreeRing (so_wbuf s)] ++
  (if so_tls s then [SslShutdown; SslFree] else []) ++
  (if so_ws s then [FreeRing (so_ws_rbuf s)] else []) ++
  (if so_zlib s then [FreeRing (so_zlib_rbuf s); DeflateEnd] else []) ++
  [Shutdown (so_fd s); Close (so_fd s)].

(** ** Switching to TLS *)

(** What the system and OpenSSL answer to [dime_socket_init_tls]: [fcntl] when
    it makes the socket blocking, what the [n]-th [send] takes, whether
    [SSL_new], [SSL_set_fd] and [SSL_accept] succeed, and [fcntl] when it
    makes the socket non-blocking again. *)
Record tls_env := TlsEnv {
  te_block : fcntl_env;
  te_send : nat → list Z → Z;
  te_new : bool;
  te_set_fd : bool;
  te_accept : bool;
  te_unblock : fcntl_env;
}.

(** One turn of the loop that empties the outbuffer; [out] is what has been
    sent. *)
Definition flush_step (o : oracle) (env : tls_env) (st : nat * list Z * dime_socket)
    : outcome (nat * list Z * dime_socket + bool * list Z * dime_socket) :=
  let '(n, out, s) := st in
  if 0 <? dime_ringbuffer_len (so_wbuf s) then
    '(rc, sent, s) ← dime_socket_sendpartial (at_ o n) s (te_send env n);
    if rc <? 0 then Ret (inr (false, out, s)) else Ret (inl (S n, out ++ sent, s))
  else Ret (inr (true, out, s)).

(** A blocking [send] takes at least one byte. The answer has the bytes that
    have been sent. *)
Definition dime_socket_init_tls (o : oracle) (env : tls_env) (s : dime_socket)
    : outcome (Z * list Z * dime_socket) :=
  if dime_socket_setnonblocking (te_block env) false <? 0 then Ret (0, [], s)
  else if dime_ringbuffer_len (so_rbuf s) =? 0 then
    '(ok, out, s) ← loop (flush_step o env)
                 (S (Z.to_nat (dime_ringbuffer_len (so_wbuf s)))) (0%nat, [], s);
    if ok : bool then
      if te_new env && te_set_fd env && te_accept env then
        if dime_socket_setnonblocking (te_unblock env) true <? 0 then Ret (0, out, s)
        else Ret (0, out, with_tls s true)
      else Ret (-1, out, s)
    else Ret (-1, out, s)
  else Undef.
