(* ===== verification/SocketSpec.v ===== *)
(** * What DiME sockets promise

    [sock_rep s rb wb wsb]: the socket [s] is well formed; its inbuffer holds
    [rb], its outbuffer [wb] and its WebSocket inbuffer [wsb]. *)

From S2P Require Import Prelude Ringbuffer Bytes Json Socket.

Record sock_rep (s : dime_socket) (rb wb wsb : list Z) : Prop := {
  sr_rbuf : ring_rep (so_rbuf s) rb;
  sr_wbuf : ring_rep (so_wbuf s) wb;
  sr_ws : so_ws s = true → ring_rep (so_ws_rbuf s) wsb;
  sr_zlib : so_zlib s = false;
  sr_ev : so_ev s = Some false → wb = [];
}.

(** The inbuffers of a well-formed socket hold bytes. *)
Definition sock_wf (s : dime_socket) : Prop := ∃ rb wb wsb, sock_rep s rb wb wsb ∧
  Forall byte rb ∧ (so_ws s = true → Forall byte wsb).

(** Whether libev watches a socket. *)
Definition ev_watched (s : dime_socket) : bool := bool_decide (is_Some (so_ev s)).

(** An [fcntl] that succeeds and one that fails. *)
Definition fcntl_ok : fcntl_env := Fcntl 0 (λ _, 0).
Definition fcntl_fails : fcntl_env := Fcntl (-1) (λ _, -1).

Lemma init_rep o fd s :
  oracle_sane o → dime_socket_init o fd = (0, s) → sock_rep s [] [] [] ∧ so_ws s = false.
Proof.
  unfold dime_socket_init. intros Ho.
  destruct (dime_ringbuffer_init (at_ o 0)) as [rc1 r1] eqn:E1.
  destruct (dime_ringbuffer_init (at_ o 1)) as [rc2 r2] eqn:E2.
  assert (∀ al rc r, dime_ringbuffer_init al = (rc, r) → rc = 0 ∨ rc <? 0 = true) as Hrc.
  { intros al rc r. unfold dime_ringbuffer_init. case_match; intros [= <- <-]; auto. }
  destruct (Hrc _ _ _ E1) as [->| ->]; [|done]. destruct (Hrc _ _ _ E2) as [->| ->]; [|done].
  intros [= <-]. apply ring_init_rep in E1; [|eauto with oracle].
  apply ring_init_rep in E2; [|eauto with oracle]. by split.
Qed.

(** Taking bytes off the front of the outbuffer. *)
Lemma sock_rep_drop s rb wb wsb k w :
  sock_rep s rb wb wsb → ring_rep w (drop k wb) → sock_rep (with_wbuf s w) rb (drop k wb) wsb.
Proof. intros [Hrb Hwb Hws Hz Hev] Hw. split; try done. intros ->%Hev. apply drop_nil. Qed.

(** ** Writes that the allocator does not refuse *)

Lemma grants_limit o limit : oracle_sane o → grants o limit → limit ≤ MAXOBJ.
Proof. intros Hs Hg. apply (Hs []), Hg. lia. Qed.

Lemma write_grants al limit r bs buf :
  alloc_sane al → (∀ n, n ≤ limit → al n = true) → ring_rep r bs →
  2 * (zlen bs + zlen buf) ≤ limit →
  ∃ r', dime_ringbuffer_write al r buf = Ret (zlen buf, r') ∧ ring_rep r' (bs ++ buf).
Proof.
  intros Hs Hg Hrep Hlim. pose proof (zlen_nonneg bs). pose proof (zlen_nonneg buf).
  assert (limit ≤ MAXOBJ) by (apply Hs, Hg; lia).
  pose proof (write_rep al r bs buf Hs Hrep ltac:(lia)) as Hw.
  apply returns_eq in Hw as ([rc r'] & -> & [[-> ?]|(_ & _ & _ & _ & Hal)]); [eauto|].
  rewrite Hg in Hal by dlia. done.
Qed.

(** ** Messages *)

(** The bytes of a message: its JSON text and its binary part. *)
Definition msg_bytes (m : list Z * list Z) : list Z :=
  dime_header (zlen m.1) (zlen m.2) ++ m.1 ++ m.2.

Lemma zlen_header a b : zlen (dime_header a b) = 12.
Proof. done. Qed.

Lemma zlen_msg m : zlen (msg_bytes m) = 12 + zlen m.1 + zlen m.2.
Proof. unfold msg_bytes. rewrite !zlen_app, zlen_header. lia. Qed.

#[export] Hint Rewrite zlen_header zlen_msg : zlen.

(** The WebSocket header of a frame with [n] bytes of payload. *)
Definition ws_header_bytes (n : Z) : list Z :=
  if n <? 126 then [0x82; n]
  else if n <? 65536 then [0x82; 126; n / 256; n mod 256]
  else [0x82; 127] ++ be64 n.

Lemma ws_header_ok n : 0 ≤ n < 2 ^ 63 → ws_header n = Ret (ws_header_bytes n).
Proof.
  intros Hn. unfold ws_header, ws_header_bytes. destruct (n <? 126); [done|].
  change (Z.shiftl 1 16) with 65536. destruct (Z.ltb_spec n 65536).
  - rewrite !land_255, Z.shiftr_div_pow2 by done. do 4 f_equal. dlia.
  - assert (Z.land n (Z.shiftl 1 63) = 0) as ->; [|done].
    apply Z.bits_inj'. intros i Hi. rewrite Z.land_spec, Z.bits_0.
    destruct (decide (i < 63)); [by rewrite Z.shiftl_spec_low, andb_false_r|].
    by rewrite (testbit_high 63) by lia.
Qed.

Lemma zlen_ws_header n : 2 ≤ zlen (ws_header_bytes n) ≤ 10.
Proof. unfold ws_header_bytes, zlen. repeat case_match; simpl; lia. Qed.

(** What a push adds to the outbuffer. *)
Definition wire (ws : bool) (m : list Z * list Z) : list Z :=
  (if ws then ws_header_bytes (zlen (msg_bytes m)) else []) ++ msg_bytes m.

Lemma zlen_wire_bound ws m : zlen m.1 + zlen m.2 + 12 ≤ zlen (wire ws m).
Proof.
  unfold wire. rewrite zlen_app, zlen_msg. destruct ws; [|rewrite zlen_nil; lia].
  pose proof (zlen_ws_header (12 + zlen m.1 + zlen m.2)). lia.
Qed.

Lemma push_bytes_spec o limit s rb wb wsb js bin :
  oracle_sane o → grants o limit → sock_rep s rb wb wsb → so_ev s ≠ Some false →
  2 * (zlen wb + zlen js + zlen bin + 22) ≤ limit →
  ∃ s', push_bytes o s js bin = Ret (zlen (wire (so_ws s) (js, bin)), s') ∧
    sock_rep s' rb (wb ++ wire (so_ws s) (js, bin)) wsb ∧ so_ws s' = so_ws s ∧ so_fd s' = so_fd s.
Proof.
  intros Hs Hg [Hrb Hwb Hws Hz _] Hev Hlim. pose proof (grants_limit _ _ Hs Hg). unfold MAXOBJ in *.
  assert (0 ≤ zlen js ∧ 0 ≤ zlen bin ∧ 0 ≤ zlen wb) as (? & ? & ?).
  { split_and!; apply zlen_nonneg. }
  assert (∃ hdr w, (if so_ws s then
      hdr ← ws_header (u64 (12 + zlen js + zlen bin));
      '(rc, w) ← dime_ringbuffer_write (at_ o 0) (so_wbuf s) hdr;
      Ret (u64 rc <? zlen hdr, zlen hdr, w)
    else Ret (false, 0, so_wbuf s)) = Ret (false, zlen hdr, w) ∧ ring_rep w (wb ++ hdr) ∧
    zlen hdr ≤ 10 ∧
    hdr = (if so_ws s then ws_header_bytes (zlen (msg_bytes (js, bin))) else []))
    as (hdr & w & Hhdr & Hw & Hlen & Heq).
  { rewrite zlen_msg. simpl. destruct (so_ws s).
    - pose proof (zlen_ws_header (12 + zlen js + zlen bin)).
      set (hdr := ws_header_bytes _) in *. exists hdr.
      destruct (write_grants (at_ o 0) limit (so_wbuf s) wb hdr) as (w & Hw & Hrep);
        [eauto with oracle|apply Hg|done|lia|].
      exists w. rewrite u64_small by lia. rewrite ws_header_ok by lia. fold hdr.
      cbn [mbind outcome_bind]. rewrite Hw. cbn [mbind outcome_bind].
      rewrite u64_small, Z.ltb_irrefl by lia. split_and!; (done || lia).
    - exists [], (so_wbuf s). rewrite app_nil_r. split_and!; (done || lia). }
  unfold push_bytes. rewrite Hhdr. cbn [mbind outcome_bind].
  destruct (write_grants (at_ o 1) limit w (wb ++ hdr) (dime_header (zlen js) (zlen bin)))
    as (w1 & -> & Hw1); [eauto with oracle|apply Hg|done|zlia|].
  cbn [mbind outcome_bind]. rewrite zlen_header. cbn [Z.ltb Z.compare Pos.compare Pos.compare_cont].
  destruct (write_grants (at_ o 2) limit w1 _ js ltac:(eauto with oracle)
    ltac:(intros; by apply Hg) Hw1) as (w2 & -> & Hw2); [zlia|].
  cbn [mbind outcome_bind]. rewrite u64_small, Z.ltb_irrefl by lia.
  destruct (write_grants (at_ o 3) limit w2 _ bin ltac:(eauto with oracle)
    ltac:(intros; by apply Hg) Hw2) as (w3 & -> & Hw3); [zlia|].
  cbn [mbind outcome_bind]. rewrite u64_small, Z.ltb_irrefl by lia.
  eexists. split.
  { do 2 f_equal. unfold wire. rewrite <-Heq. rewrite zlen_app, zlen_msg. simpl. lia. }
  split; [|done]. split; [exact Hrb| |exact Hws|exact Hz|by intros].
  unfold wire. rewrite <-Heq. rewrite <-!app_assoc in Hw3. exact Hw3.
Qed.

(** ** Pushing without enough memory *)

Lemma write_any al r bs buf :
  alloc_sane al → ring_rep r bs → zlen buf ≤ MAXOBJ →
  ∃ rc r' bs', dime_ringbuffer_write al r buf = Ret (rc, r') ∧ ring_rep r' bs' ∧
    zlen bs ≤ zlen bs' ≤ zlen bs + zlen buf ∧ (rc = zlen buf ∨ rc = -1) ∧
    ∀ limit, (∀ n, n ≤ limit → al n = true) → 2 * (zlen bs + zlen buf) ≤ limit → rc = zlen buf.
Proof.
  intros Hs Hrep Hbuf. pose proof (write_rep al r bs buf Hs Hrep Hbuf) as Hw.
  pose proof (zlen_nonneg bs). pose proof (zlen_nonneg buf).
  apply returns_eq in Hw as ([rc r'] & -> & [[-> ?]|(-> & -> & _ & _ & Hal)]).
  - exists (zlen buf), r', (bs ++ buf). rewrite zlen_app. split_and!; (done || lia || auto).
  - exists (-1), r, bs. split_and!; try (done || lia || auto). intros limit Hg Hlim.
    rewrite Hg in Hal by dlia. done.
Qed.

(** The answer of a failed write, converted to [size_t], is not less than a
    length. *)
Lemma unnoticed rc n : 0 ≤ n ≤ 2 ^ 47 → rc = n ∨ rc = -1 → u64 rc <? n = false.
Proof.
  intros Hn [->| ->]; apply Z.ltb_ge; [rewrite u64_small; lia|].
  change (u64 (-1)) with (2 ^ 64 - 1). lia.
Qed.

(** Whatever the allocator answers, the socket stays well formed; the push
    answers [-1] only if the header finds no room. *)
Lemma push_bytes_any o s rb wb wsb js bin :
  oracle_sane o → sock_rep s rb wb wsb → so_ev s ≠ Some false →
  zlen js ≤ MAXOBJ → zlen bin ≤ MAXOBJ →
  returns (push_bytes o s js bin) (λ '(rc, s'),
    (∃ wb', sock_rep s' rb wb' wsb) ∧ so_ws s' = so_ws s ∧
    so_rbuf s' = so_rbuf s ∧ so_ws_rbuf s' = so_ws_rbuf s ∧
    so_fd s' = so_fd s ∧ so_ev s' = so_ev s ∧
    (∀ limit, grants o limit → 2 * (zlen wb + 22) ≤ limit → 0 ≤ rc)).
Proof.
  intros Hs [Hrb Hwb Hws Hz _] Hev Hjs Hbin. unfold push_bytes, MAXOBJ in *.
  pose proof (zlen_nonneg js). pose proof (zlen_nonneg bin). pose proof (zlen_nonneg wb).
  assert (∃ n w wb1, (if so_ws s then
      hdr ← ws_header (u64 (12 + zlen js + zlen bin));
      '(rc, w) ← dime_ringbuffer_write (at_ o 0) (so_wbuf s) hdr;
      Ret (u64 rc <? zlen hdr, zlen hdr, w)
    else Ret (false, 0, so_wbuf s)) = Ret (false, n, w) ∧ 0 ≤ n ∧ ring_rep w wb1 ∧
    zlen wb1 ≤ zlen wb + 10) as (n & w & wb1 & -> & Hn & Hw & Hlen).
  { destruct (so_ws s); [|exists 0, (so_wbuf s), wb; split_and!; (done || lia)].
    rewrite u64_small, ws_header_ok by lia. cbn [mbind outcome_bind].
    pose proof (zlen_ws_header (12 + zlen js + zlen bin)). set (hdr := ws_header_bytes _) in *.
    destruct (write_any (at_ o 0) (so_wbuf s) wb hdr) as (rc & w & wb1 & -> & Hw & ? & Hrc & _);
      [eauto with oracle|done|unfold MAXOBJ; lia|].
    cbn [mbind outcome_bind]. exists (zlen hdr), w, wb1.
    rewrite unnoticed by (done || lia). split_and!; (done || lia). }
  cbn [mbind outcome_bind].
  destruct (write_any (at_ o 1) w wb1 (dime_header (zlen js) (zlen bin)))
    as (rc & w1 & wb2 & -> & Hw1 & _ & Hrc & Hok); [eauto with oracle|done|done|].
  cbn [mbind outcome_bind]. rewrite zlen_header in *. destruct (Z.ltb_spec rc 12).
  { simpl. split; [by exists wb2; split|]. do 5 (split; [done|]). intros limit Hg Hlim.
    assert (rc = 12) by (apply (Hok limit); [intros; by apply Hg|lia]). lia. }
  destruct (write_any (at_ o 2) w1 wb2 js) as (rc2 & w2 & wb3 & -> & Hw2 & _ & Hrc2 & _);
    [eauto with oracle|done|done|].
  cbn [mbind outcome_bind]. rewrite unnoticed by (done || lia).
  destruct (write_any (at_ o 3) w2 wb3 bin) as (rc3 & w3 & wb4 & -> & Hw3 & _ & Hrc3 & _);
    [eauto with oracle|done|done|].
  cbn [mbind outcome_bind]. rewrite unnoticed by (done || lia).
  simpl. split; [by exists wb4; split|]. do 5 (split; [done|]). intros. lia.
Qed.

(** ** Pushing, with the watcher of the build with libev *)

Lemma start_wwatcher_rep s rb wb wsb :
  sock_rep s rb wb wsb →
  sock_rep (start_wwatcher s) rb wb wsb ∧ so_ev (start_wwatcher s) ≠ Some false ∧
  ∃ e, start_wwatcher s = with_ev s e ∧ (is_Some e ↔ is_Some (so_ev s)).
Proof.
  intros [Hrb Hwb Hws Hz Hev]. unfold start_wwatcher, dime_ringbuffer_len.
  rewrite (proj1 (rr_len _ _ Hwb)).
  assert (s = with_ev s (so_ev s)) as Hs by by destruct s.
  destruct (Z.eqb_spec (zlen wb) 0) as [|Hne]; cbn [andb].
  - case_bool_decide as Hsome.
    { split; [by split|]. split; [done|]. by exists (Some true). }
    split; [by split|]. split; [|eauto]. intros He. by rewrite He in Hsome; destruct Hsome.
  - split; [by split|]. split; [|eauto]. by intros ->%Hev.
Qed.

Lemma push_str_spec o limit s rb wb wsb js bin :
  oracle_sane o → grants o limit → sock_rep s rb wb wsb →
  2 * (zlen wb + zlen js + zlen bin + 22) ≤ limit →
  ∃ s', dime_socket_push_str o s js bin = Ret (zlen (wire (so_ws s) (js, bin)), s') ∧
    sock_rep s' rb (wb ++ wire (so_ws s) (js, bin)) wsb ∧ so_ws s' = so_ws s ∧ so_fd s' = so_fd s.
Proof.
  intros Hs Hg (Hrep & Hev & e & He & Hsome)%start_wwatcher_rep Hlim. unfold dime_socket_push_str.
  pose proof (push_bytes_spec o limit _ rb wb wsb js bin Hs Hg Hrep Hev Hlim) as Hp.
  by rewrite He in Hp |- *.
Qed.

Lemma push_str_any o s rb wb wsb js bin :
  oracle_sane o → sock_rep s rb wb wsb → zlen js ≤ MAXOBJ → zlen bin ≤ MAXOBJ →
  returns (dime_socket_push_str o s js bin) (λ '(rc, s'),
    (∃ wb', sock_rep s' rb wb' wsb) ∧ so_ws s' = so_ws s ∧
    so_rbuf s' = so_rbuf s ∧ so_ws_rbuf s' = so_ws_rbuf s ∧ so_fd s' = so_fd s ∧
    (is_Some (so_ev s') ↔ is_Some (so_ev s)) ∧
    (∀ limit, grants o limit → 2 * (zlen wb + 22) ≤ limit → 0 ≤ rc)).
Proof.
  intros Hs (Hrep & Hev & e & He & Hsome)%start_wwatcher_rep Hjs Hbin. unfold dime_socket_push_str.
  pose proof (push_bytes_any o _ rb wb wsb js bin Hs Hrep Hev Hjs Hbin) as Hp.
  rewrite He in Hp |- *. eapply returns_mono; [exact Hp|].
  intros [rc s'] (? & ? & ? & ? & ? & Hev' & ?). split_and!; try done. by rewrite Hev'.
Qed.

(** ** Taking one message off the inbuffer *)

Section pop.
Context `{Jansson}.

(** A message the peer may send: its size fits 32 bits and its text is
    JSON. *)
Definition decodes (m : list Z * list Z) (d : json * list Z) : Prop :=
  12 + zlen m.1 + zlen m.2 < 2 ^ 32 ∧ json_loadb m.1 = Some d.1 ∧ d.2 = m.2.

(** A proper beginning of a message. *)
Definition incomplete (tail : list Z) : Prop :=
  ∃ m rest, rest ≠ [] ∧ 12 + zlen m.1 + zlen m.2 < 2 ^ 32 ∧ msg_bytes m = tail ++ rest.

Lemma incomplete_nil : incomplete [].
Proof. exists ([], []), (msg_bytes ([], [])). split_and!; done. Qed.

Lemma peeked_app_l bs bs' i : i < zlen bs → peeked (bs ++ bs') i = peeked bs i.
Proof. intros. unfold peeked. by rewrite zget_app_l. Qed.

(** Decoding a header. *)
Lemma header_dec a b :
  0 ≤ a < 2 ^ 32 → 0 ≤ b < 2 ^ 32 →
  let h := peeked (dime_header a b) in
  take 4 (dime_header a b) = magic ∧
  be32_dec (h 4) (h 5) (h 6) (h 7) = a ∧ be32_dec (h 8) (h 9) (h 10) (h 11) = b.
Proof.
  intros Ha Hb h. split; [done|]. subst h. unfold dime_header. rewrite !u32_small by done.
  split; by apply be32_roundtrip.
Qed.

Lemma take_app_zlen (l1 l2 : list Z) n : n = zlen l1 → take (Z.to_nat n) (l1 ++ l2) = l1.
Proof. intros ->. unfold zlen. rewrite Nat2Z.id. apply take_app_length. Qed.

Lemma drop_app_zlen (l1 l2 : list Z) n : n = zlen l1 → drop (Z.to_nat n) (l1 ++ l2) = l2.
Proof. intros ->. unfold zlen. rewrite Nat2Z.id. apply drop_app_length. Qed.

Lemma pop_complete o limit s m d rest wb wsb :
  oracle_sane o → grants o limit → sock_rep s (msg_bytes m ++ rest) wb wsb → decodes m d →
  zlen (msg_bytes m) ≤ limit →
  ∃ s', pop_message o s = Ret (zlen (msg_bytes m), Some d, s') ∧
    sock_rep s' rest wb wsb ∧ so_ws s' = so_ws s ∧ so_ws_rbuf s' = so_ws_rbuf s.
Proof.
  intros Hs Hg [Hrb Hwb Hws Hz Hev] (Hsize & Hload & Hbin) Hlim. unfold pop_message.
  set (L := zlen (msg_bytes m)) in *. set (bs := msg_bytes m ++ rest) in *.
  assert (0 ≤ zlen m.1 ∧ 0 ≤ zlen m.2 ∧ 0 ≤ zlen rest) as (? & ? & ?).
  { split_and!; apply zlen_nonneg. }
  assert (L = 12 + zlen m.1 + zlen m.2) as HL by apply zlen_msg.
  assert (zlen bs = L + zlen rest) as Hbs by apply zlen_app.
  rewrite (peek_rep _ bs) by (done || lia). cbn [mbind outcome_bind].
  rewrite Z.min_l by lia. cbn [Z.eqb Pos.eqb].
  assert (take 12 bs = dime_header (zlen m.1) (zlen m.2)) as Hhdr.
  { subst bs. unfold msg_bytes. rewrite <-app_assoc. by apply (take_app_zlen _ _ 12). }
  change (Z.to_nat 12) with 12%nat. rewrite Hhdr.
  destruct (header_dec (zlen m.1) (zlen m.2)) as (Hm & Hd1 & Hd2); [lia..|].
  rewrite Hm, bool_decide_eq_true_2 by done. cbv zeta. rewrite Hd1, Hd2, <-HL.
  rewrite (u32_small L) by lia. unfold at_. rewrite Hg by done.
  rewrite (peek_rep _ bs) by (done || lia). cbn [mbind outcome_bind].
  rewrite Z.min_l by lia. rewrite Z.eqb_refl.
  assert (take (Z.to_nat L) bs = msg_bytes m) as -> by by apply take_app_zlen.
  fold L. rewrite (proj2 (Z.leb_le L L)) by lia.
  assert (drop 12 (msg_bytes m) = m.1 ++ m.2) as -> by done.
  rewrite take_app_zlen by done. rewrite Hload, Hg by lia.
  assert (drop (Z.to_nat (12 + zlen m.1)) (msg_bytes m) = m.2) as ->.
  { unfold msg_bytes. rewrite app_assoc. apply drop_app_zlen.
    by rewrite zlen_app, zlen_header. }
  rewrite (firstn_all2 m.2) by (unfold zlen; lia).
  pose proof (discard_rep (so_rbuf s) bs L Hrb ltac:(lia)) as Hdisc.
  destruct (dime_ringbuffer_discard (so_rbuf s) L) as [n r]. destruct Hdisc as [_ Hr].
  exists (with_rbuf s r). split; [|split; [|done]].
  - by rewrite <-Hbin, <-surjective_pairing.
  - split; try done. simpl. subst bs. by rewrite drop_app_zlen in Hr.
Qed.

Lemma pop_incomplete o limit s tail wb wsb :
  oracle_sane o → grants o limit → sock_rep s tail wb wsb → incomplete tail →
  2 ^ 32 ≤ limit → pop_message o s = Ret (0, None, s).
Proof.
  intros Hs Hg [Hrb Hwb Hws Hz Hev] (m & rest & Hrest & Hsize & Heq) Hlim. unfold pop_message.
  assert (0 ≤ zlen m.1 ∧ 0 ≤ zlen m.2 ∧ 0 ≤ zlen tail) as (? & ? & ?).
  { split_and!; apply zlen_nonneg. }
  assert (zlen tail < 12 + zlen m.1 + zlen m.2) as Hlt.
  { rewrite <-zlen_msg, Heq, zlen_app. destruct rest; [done|]. zlia. }
  rewrite (peek_rep _ tail) by (done || lia). cbn [mbind outcome_bind].
  destruct (Z.eqb_spec (Z.min 12 (zlen tail)) 12); [|done].
  assert (take 12 tail = dime_header (zlen m.1) (zlen m.2)) as Hhdr.
  { transitivity (take 12 (tail ++ rest)); [|by rewrite <-Heq].
    rewrite take_app_le; [done|]. unfold zlen in *. lia. }
  change (Z.to_nat 12) with 12%nat. rewrite Hhdr.
  destruct (header_dec (zlen m.1) (zlen m.2)) as (Hm & Hd1 & Hd2); [lia..|].
  rewrite Hm, bool_decide_eq_true_2 by done. cbv zeta. rewrite Hd1, Hd2.
  rewrite u32_small by lia. unfold at_. rewrite Hg by lia.
  rewrite (peek_rep _ tail) by (done || lia). cbn [mbind outcome_bind].
  destruct (Z.eqb_spec (Z.min (12 + zlen m.1 + zlen m.2) (zlen tail))
    (12 + zlen m.1 + zlen m.2)); [lia|done].
Qed.
End pop.
