(* ===== verification/SocketStream.v ===== *)
(** * Streams of messages

    What arrives at a socket is a stream of bytes cut into pieces by the
    network. This file says which messages a receiver gets: all of them, in
    order, whatever the pieces, both on plain connections and on WebSocket
    connections, where the stream is first cut into masked frames. *)

From S2P Require Import Prelude Ringbuffer Bytes Json Socket SocketSpec.

(** ** Cutting a concatenation *)

Section cut.
Context {A : Type} (enc : A → list Z).

(** [tail] is a proper beginning of the first element's encoding. *)
Definition tail_of (tail : list Z) (ms : list A) : Prop :=
  tail = [] ∨ ∃ m ms' rest, ms = m :: ms' ∧ rest ≠ [] ∧ enc m = tail ++ rest.

Lemma split_prefix ms : ∀ p q,
  p ++ q = concat (enc <$> ms) →
  ∃ ms1 ms2 tail, ms = ms1 ++ ms2 ∧ p = concat (enc <$> ms1) ++ tail ∧
    tail ++ q = concat (enc <$> ms2) ∧ tail_of tail ms2.
Proof.
  induction ms as [|m ms IH]; intros p q Heq; simpl in Heq.
  { apply app_nil in Heq as [-> ->]. exists [], [], []. split_and!; try done. by left. }
  destruct (decide (length p < length (enc m))%nat) as [Hlt|Hge].
  - exists [], (m :: ms), p. split_and!; try done. right.
    exists m, ms, (drop (length p) (enc m)). split_and!; [done|..].
    + intros Hnil. apply (f_equal length) in Hnil. rewrite length_drop in Hnil. simpl in Hnil. lia.
    + rewrite <-(take_drop (length p) (enc m)) at 1. f_equal.
      transitivity (take (length p) (p ++ q)); [|by rewrite take_app_length].
      rewrite Heq. by rewrite take_app_le by lia.
  - destruct (app_eq_inv _ _ _ _ Heq) as [(k & -> & Hq)|(k & Hm & ->)].
    + destruct (IH k q) as (ms1 & ms2 & tail & -> & -> & ? & ?); [by symmetry|].
      exists (m :: ms1), ms2, tail. split_and!; try done. simpl. by rewrite app_assoc.
    + assert (k = []) as ->.
      { apply (f_equal length) in Hm. rewrite length_app in Hm.
        destruct k; [done|simpl in *; lia]. }
      rewrite app_nil_r in Hm. subst p. destruct (IH [] (concat (enc <$> ms))) as
        (ms1 & ms2 & tail & -> & Hp & ? & ?); [done|].
      exists (m :: ms1), ms2, tail. split_and!; try done.
      rewrite fmap_cons. cbn [concat]. by rewrite <-app_assoc, <-Hp, app_nil_r.
Qed.

(** Nothing is left when the input ends with an element. *)
Lemma tail_of_end tail ms :
  Forall (λ m, enc m ≠ []) ms → tail_of tail ms → tail = concat (enc <$> ms) →
  tail = [] ∧ ms = [].
Proof.
  intros Hne [->|(m & ms' & rest & -> & Hrest & Hm)] Heq.
  - split; [done|]. destruct ms as [|m ms]; [done|]. simpl in Heq. symmetry in Heq.
    apply app_nil in Heq as [Heq _]. by apply Forall_cons in Hne as [? _].
  - exfalso. simpl in Heq. apply (f_equal length) in Heq, Hm. rewrite length_app in Heq, Hm.
    destruct rest; [done|simpl in Hm; lia].
Qed.
End cut.

(** ** WebSocket frames of a client *)

(** A frame: its first byte, its mask and its payload, which the client
    sends masked (RFC 6455, 5.2 and 5.3). *)
Record frame := Frame { f_b0 : Z; f_mask : list Z; f_payload : list Z }.

Definition masked (mask payload : list Z) : list Z :=
  imap (λ i b, Z.lxor b (nth (i mod 4) mask 0)) payload.

Definition frame_header (b0 n : Z) : list Z :=
  if n <? 126 then [b0; 128 + n]
  else if n <? 65536 then [b0; 254; n / 256; n mod 256]
  else [b0; 255] ++ be64 n.

Definition frame_bytes (f : frame) : list Z :=
  frame_header (f_b0 f) (zlen (f_payload f)) ++ f_mask f ++ masked (f_mask f) (f_payload f).

Definition frame_ok (f : frame) : Prop := length (f_mask f) = 4%nat ∧ zlen (f_payload f) < 2 ^ 62.

Definition header_len (n : Z) : Z := if n <? 126 then 6 else if n <? 65536 then 8 else 14.

Lemma frame_header_len b0 n : zlen (frame_header b0 n) + 4 = header_len n.
Proof. unfold frame_header, header_len, zlen. by repeat case_match. Qed.

Lemma zlen_masked mask payload : zlen (masked mask payload) = zlen payload.
Proof. unfold masked, zlen. by rewrite length_imap. Qed.

Lemma zlen_frame f :
  frame_ok f → zlen (frame_bytes f) = header_len (zlen (f_payload f)) + zlen (f_payload f).
Proof.
  intros [Hm _]. unfold frame_bytes. rewrite !zlen_app, zlen_masked.
  rewrite <-(frame_header_len (f_b0 f)). unfold zlen. rewrite Hm. lia.
Qed.

Lemma mask_index mask i : nth (i mod 4) mask 0 = peeked mask (Z.land (Z.of_nat i) 3).
Proof.
  change 3 with (Z.ones 2). rewrite Z.land_ones by done. change (2 ^ 2) with (Z.of_nat 4).
  rewrite <-Nat2Z.inj_mod. unfold peeked. rewrite zget_nat.
  generalize (i mod 4)%nat. intros n. revert mask.
  induction n as [|n IH]; intros [|b mask]; try done. apply IH.
Qed.

Lemma unmask_masked mask payload : unmask mask (masked mask payload) = payload.
Proof.
  unfold unmask, masked. apply list_eq. intros i. rewrite !list_lookup_imap.
  destruct (payload !! i); simpl; [|done].
  by rewrite <-mask_index, Z.lxor_assoc, Z.lxor_nilpotent, Z.lxor_0_r.
Qed.

Lemma take_header_mask f rest :
  frame_ok f →
  drop (Z.to_nat (header_len (zlen (f_payload f)))) (frame_bytes f ++ rest)
  = masked (f_mask f) (f_payload f) ++ rest.
Proof.
  intros [Hm _]. unfold frame_bytes. rewrite <-!app_assoc, (app_assoc _ (f_mask f)).
  apply drop_app_zlen. rewrite zlen_app, <-(frame_header_len (f_b0 f)).
  assert (zlen (f_mask f) = 4) by (unfold zlen; by rewrite Hm). lia.
Qed.

Lemma land_byte7 n : 0 ≤ n < 128 → Z.land (128 + n) (Z.lnot 0x80) = n.
Proof.
  intros. rewrite <-Z.ldiff_land. replace (128 + n) with (Z.lor (1 * 2 ^ 7) n)
    by (rewrite lor_disjoint; lia).
  apply Z.bits_inj'. intros i Hi. rewrite Z.ldiff_spec, Z.lor_spec.
  change (1 * 2 ^ 7) with 128. destruct (Z.testbit 128 i) eqn:E; simpl.
  - destruct (decide (i < 7)).
    + change 128 with (2 ^ 7) in E. rewrite Z.pow2_bits_false in E by lia. done.
    + symmetry. apply (testbit_high 7); lia.
  - by rewrite andb_true_r.
Qed.

Lemma land_mask_bit n : 0 ≤ n < 128 → Z.land (128 + n) 0x80 =? 0 = false.
Proof.
  intros. apply Z.eqb_neq. intros H0. apply (f_equal (λ z, Z.testbit z 7)) in H0.
  rewrite Z.land_spec, Z.bits_0 in H0. replace (128 + n) with (Z.lor (1 * 2 ^ 7) n) in H0
    by (rewrite lor_disjoint; lia).
  by rewrite Z.lor_spec in H0.
Qed.

(** Recognising a frame from its first bytes. *)
Lemma ws_frame_at f t :
  frame_ok f →
  let bs := frame_header (f_b0 f) (zlen (f_payload f)) ++ f_mask f ++ t in
  ws_frame (Z.min 14 (zlen bs)) (take 14 bs)
    = Some (header_len (zlen (f_payload f)), zlen (f_payload f), f_mask f) ∧
  Z.land (peeked (take 14 bs) 1) 0x80 =? 0 = false.
Proof.
  intros [Hm Hn]. destruct f as [b0 mask payload]. simpl f_b0. simpl f_mask in *.
  simpl f_payload in *. pose proof (zlen_nonneg payload) as Hpos. set (n := zlen payload) in *.
  destruct mask as [|m0 [|m1 [|m2 [|m3 [|]]]]]; try done. clear Hm.
  unfold ws_frame, frame_header, header_len. pose proof (zlen_nonneg t).
  destruct (Z.ltb_spec n 126); [|destruct (Z.ltb_spec n 65536)]; cbv zeta;
    rewrite !app_assoc, zlen_app; rewrite <-!app_assoc.
  - change (peeked _ 1) with (128 + n). rewrite land_byte7, land_mask_bit by lia.
    rewrite (proj2 (Z.ltb_lt n 126)), (proj2 (Z.leb_le 6 _)) by (unfold zlen in *; simpl; lia).
    done.
  - change (peeked _ 1) with 254.
    change (Z.land 254 (Z.lnot 128)) with 126. cbn [Z.ltb Z.eqb Z.compare Pos.compare
      Pos.compare_cont Pos.eqb andb].
    rewrite (proj2 (Z.leb_le 8 _)) by (unfold zlen in *; simpl; lia).
    split; [|done]. do 3 f_equal.
    change (Z.lor (Z.shiftl (n / 256) 8) (n mod 256) = n).
    rewrite Z.shiftl_mul_pow2 by done. rewrite (lor_disjoint 8); [dlia|done|].
    by apply Z.mod_pos_bound.
  - change (peeked _ 1) with 255.
    change (Z.land 255 (Z.lnot 128)) with 127. cbn [Z.ltb Z.eqb Z.compare Pos.compare
      Pos.compare_cont Pos.eqb andb].
    rewrite Z.min_l by (unfold zlen in *; simpl; lia).
    split; [|done]. cbn [Z.eqb Pos.eqb]. do 3 f_equal. by apply be64_roundtrip; lia.
Qed.

Lemma ws_frame_short f tail rest :
  frame_ok f → frame_bytes f = tail ++ rest → zlen tail < header_len (zlen (f_payload f)) →
  ws_frame (Z.min 14 (zlen tail)) (take 14 tail) = None.
Proof.
  intros [Hm Hn] Heq Hlt. destruct f as [b0 mask payload]. simpl in *.
  unfold frame_bytes in Heq. simpl in Heq. pose proof (zlen_nonneg payload).
  set (n := zlen payload) in *. unfold ws_frame, header_len, frame_header in *.
  assert (2 ≤ zlen tail → ∀ b l, tail ++ rest = b0 :: b :: l → peeked (take 14 tail) 1 = b)
    as Hb.
  { intros Hlen b l Hl. destruct tail as [|x [|y tail]]; simplify_eq/=; [zlia..|done]. }
  destruct (Z.ltb_spec n 126) as [H126|H126].
  { rewrite !(proj2 (Z.leb_gt _ (Z.min 14 (zlen tail)))) by lia.
    rewrite (proj2 (Z.eqb_neq (Z.min 14 (zlen tail)) 14)) by lia. by rewrite !andb_false_r. }
  rewrite (proj2 (Z.eqb_neq (Z.min 14 (zlen tail)) 14)) by (repeat case_match; lia).
  destruct (Z.leb_spec 6 (Z.min 14 (zlen tail))).
  2:{ rewrite (proj2 (Z.leb_gt 8 _)) by lia. by rewrite !andb_false_r. }
  destruct (Z.ltb_spec n 65536).
  - rewrite (Hb ltac:(lia) _ _ (eq_sym Heq)).
    rewrite (proj2 (Z.leb_gt 8 _)) by lia. by rewrite !andb_false_r.
  - rewrite (Hb ltac:(lia) _ _ (eq_sym Heq)). by rewrite !andb_false_r.
Qed.

(** ** The loop that unmasks frames *)

Lemma ws_step_frame o limit n s rb wb f rest :
  oracle_sane o → grants o limit →
  sock_rep s rb wb (frame_bytes f ++ rest) → so_ws s = true → frame_ok f →
  2 * (zlen rb + zlen (frame_bytes f)) ≤ limit →
  ∃ s', ws_step o (n, s) = Ret (inl (S n, s')) ∧
    sock_rep s' (rb ++ f_payload f) wb rest ∧ so_ws s' = true.
Proof.
  intros Hs Hg [Hrb Hwb Hws Hz Hev] Hon Hok Hlim. specialize (Hws Hon).
  pose proof (ws_frame_at f (masked (f_mask f) (f_payload f) ++ rest) Hok) as [Hf Hbit].
  set (bs := frame_bytes f ++ rest) in *.
  assert (bs = frame_header (f_b0 f) (zlen (f_payload f)) ++ f_mask f ++
    masked (f_mask f) (f_payload f) ++ rest) as Heq by (subst bs; unfold frame_bytes;
      by rewrite <-!app_assoc).
  rewrite <-Heq in Hf, Hbit. pose proof (zlen_frame f Hok) as Hlen.
  pose proof (zlen_nonneg (f_payload f)). pose proof (zlen_nonneg rb). pose proof (zlen_nonneg rest).
  pose proof (grants_limit _ _ Hs Hg). unfold MAXOBJ in *.
  assert (6 ≤ header_len (zlen (f_payload f)) ≤ 14) by (unfold header_len; repeat case_match; lia).
  unfold ws_step. rewrite (peek_rep _ bs) by (done || lia). cbn [mbind outcome_bind].
  change (Z.to_nat 14) with 14%nat. rewrite Hf, Hbit.
  rewrite u64_small, <-Hlen by lia. unfold at_, sub at 1. rewrite Hg by lia.
  assert (zlen bs = zlen (frame_bytes f) + zlen rest) as Hbs by apply zlen_app.
  rewrite (peek_rep _ bs) by (done || lia). cbn [mbind outcome_bind].
  rewrite Z.min_l, Z.eqb_refl by lia.
  assert (take (Z.to_nat (zlen (frame_bytes f))) bs = frame_bytes f) as ->
    by by apply take_app_zlen.
  rewrite (proj2 (Z.leb_le _ _)) by lia.
  pose proof (take_header_mask f [] Hok) as Hdrop. rewrite !app_nil_r in Hdrop.
  rewrite Hdrop, unmask_masked.
  destruct (write_grants (sub o n [1%nat]) limit (so_rbuf s) rb (f_payload f)) as (r & -> & Hr);
    [apply Hs|intros; by apply Hg|done|lia|].
  cbn [mbind outcome_bind]. rewrite (proj2 (Z.ltb_ge _ _)) by lia.
  pose proof (discard_rep (so_ws_rbuf s) bs (zlen (frame_bytes f)) Hws ltac:(lia)) as Hd.
  destruct (dime_ringbuffer_discard _ _) as [n' r']. destruct Hd as [_ Hr'].
  subst bs. rewrite drop_app_zlen in Hr' by done.
  exists (with_ws (with_rbuf s r) true r'). split; [done|]. by split.
Qed.

(** Fewer bytes than a frame: the loop stops and changes nothing. *)
Lemma ws_step_tail o limit n s rb wb f tail rest :
  oracle_sane o → grants o limit → sock_rep s rb wb tail → so_ws s = true → frame_ok f →
  frame_bytes f = tail ++ rest → rest ≠ [] → zlen (frame_bytes f) ≤ limit →
  ws_step o (n, s) = Ret (inr (true, s)).
Proof.
  intros Hs Hg [Hrb Hwb Hws Hz Hev] Hon Hok Heq Hrest Hlim. specialize (Hws Hon).
  pose proof (zlen_frame f Hok) as Hlen. pose proof (zlen_nonneg tail).
  pose proof (zlen_nonneg (f_payload f)). pose proof (grants_limit _ _ Hs Hg). unfold MAXOBJ in *.
  assert (zlen tail < zlen (frame_bytes f)) by (rewrite Heq; destruct rest; [done|zlia]).
  assert (6 ≤ header_len (zlen (f_payload f)) ≤ 14) by (unfold header_len; repeat case_match; lia).
  unfold ws_step. rewrite (peek_rep _ tail) by (done || lia). cbn [mbind outcome_bind].
  change (Z.to_nat 14) with 14%nat.
  destruct (decide (zlen tail < header_len (zlen (f_payload f)))) as [Hlt|Hge].
  { by rewrite (ws_frame_short f tail rest). }
  assert (∃ t, tail = frame_header (f_b0 f) (zlen (f_payload f)) ++ f_mask f ++ t) as [t Ht].
  { unfold frame_bytes in Heq. rewrite app_assoc in Heq.
    destruct (app_eq_inv _ _ _ _ Heq) as [(k & Hk & _)|(k & -> & _)].
    - assert (k = []) as ->.
      { apply (f_equal zlen) in Hk. rewrite !zlen_app in Hk.
        pose proof (frame_header_len (f_b0 f) (zlen (f_payload f))).
        assert (zlen (f_mask f) = 4) by (unfold zlen; by rewrite (proj1 Hok)).
        destruct k; [done|zlia]. }
      rewrite app_nil_r in Hk. exists []. by rewrite app_nil_r.
    - exists k. by rewrite <-app_assoc. }
  pose proof (ws_frame_at f t Hok) as [Hf Hbit]. rewrite <-Ht in Hf, Hbit. rewrite Hf, Hbit.
  rewrite u64_small, <-Hlen by lia. unfold at_, sub at 1. rewrite Hg by lia.
  rewrite (peek_rep _ tail) by (done || lia). cbn [mbind outcome_bind].
  destruct (Z.eqb_spec (Z.min (zlen (frame_bytes f)) (zlen tail)) (zlen (frame_bytes f)));
    [lia|done].
Qed.

Definition payloads (fs : list frame) : list Z := concat (f_payload <$> fs).

Lemma frame_bytes_nonempty f : frame_ok f → frame_bytes f ≠ [].
Proof.
  intros Hok Hnil. pose proof (zlen_frame f Hok) as Hl. rewrite Hnil, zlen_nil in Hl.
  pose proof (zlen_nonneg (f_payload f)). unfold header_len in Hl. repeat case_match; lia.
Qed.

Lemma msg_bytes_nonempty m : msg_bytes m ≠ [].
Proof. done. Qed.

Lemma ws_loop_frames o limit wb fs : ∀ fuel n s rb tail ms,
  oracle_sane o → grants o limit → so_ws s = true → Forall frame_ok (fs ++ ms) →
  sock_rep s rb wb (concat (frame_bytes <$> fs) ++ tail) → tail_of frame_bytes tail ms →
  Forall (λ f, zlen (frame_bytes f) ≤ limit) ms →
  2 * (zlen rb + zlen (concat (frame_bytes <$> fs) ++ tail)) ≤ limit → (length fs < fuel)%nat →
  ∃ s', loop (ws_step o) fuel (n, s) = Ret (true, s') ∧
    sock_rep s' (rb ++ payloads fs) wb tail ∧ so_ws s' = true.
Proof.
  unfold payloads.
  induction fs as [|f fs IH]; intros [|fuel] n s rb tail ms Hs Hg Hon Hok Hrep Htail Hms Hlim
    Hfuel; simpl in Hfuel; try lia; cbn [loop].
  - exists s. rewrite app_nil_r. split; [|by split]. simpl in Hrep, Hok.
    destruct Htail as [->|(m & ms' & rest & -> & Hrest & Hm)].
    + destruct Hrep as [_ _ Hws _]. specialize (Hws Hon). unfold ws_step.
      rewrite (peek_rep _ []) by done. done.
    + apply Forall_cons in Hok as [Hok _]. apply Forall_cons in Hms as [Hm' _].
      by rewrite (ws_step_tail o limit n s rb wb m tail rest).
  - cbn [app] in Hok. apply Forall_cons in Hok as [Hf Hok].
    rewrite fmap_cons in *. cbn [concat] in *. rewrite <-app_assoc in *.
    rewrite zlen_app in Hlim. pose proof (zlen_frame f Hf) as Hlen.
    assert (6 ≤ header_len (zlen (f_payload f))) by (unfold header_len; repeat case_match; lia).
    pose proof (zlen_nonneg (concat (frame_bytes <$> fs) ++ tail)).
    pose proof (zlen_nonneg (f_payload f)). pose proof (zlen_nonneg rb).
    destruct (ws_step_frame o limit n s rb wb f (concat (frame_bytes <$> fs) ++ tail))
      as (s1 & -> & Hrep1 & Hon1); try done; [lia|].
    cbn [mbind outcome_bind].
    destruct (IH fuel (S n) s1 (rb ++ f_payload f) tail ms) as (s' & -> & Hrep' & Hon');
      try done; [rewrite zlen_app; lia|lia|].
    exists s'. by rewrite <-app_assoc in Hrep'.
Qed.

(** Frames take at least six bytes each. *)
Lemma frames_length fs tail :
  Forall frame_ok fs → Z.of_nat (length fs) ≤ zlen (concat (frame_bytes <$> fs) ++ tail).
Proof.
  induction 1 as [|f fs Hf _ IH]; [apply zlen_nonneg|].
  rewrite fmap_cons. cbn [concat length]. rewrite <-app_assoc, zlen_app.
  pose proof (zlen_frame f Hf). pose proof (zlen_nonneg (f_payload f)).
  assert (6 ≤ header_len (zlen (f_payload f))) by (unfold header_len; repeat case_match; lia).
  lia.
Qed.

(** ** What is still to come *)

(** After some of the input, [ms] are the messages that are not delivered
    yet; [input] is what has not arrived yet. *)
Definition pending (ws : bool) (rb wsb input : list Z) (ms : list (list Z * list Z)) : Prop :=
  tail_of msg_bytes rb ms ∧
  if ws then ∃ fs, wsb ++ input = concat (frame_bytes <$> fs) ∧ Forall frame_ok fs ∧
      tail_of frame_bytes wsb fs ∧ rb ++ payloads fs = concat (msg_bytes <$> ms)
  else rb ++ input = concat (msg_bytes <$> ms).

Definition small (m : list Z * list Z) : Prop := 12 + zlen m.1 + zlen m.2 < 2 ^ 32.

Lemma tail_of_incomplete `{Jansson} tail ms :
  Forall small ms → tail_of msg_bytes tail ms → incomplete tail.
Proof.
  intros Hms [->|(m & ms' & rest & -> & ? & ?)]; [apply incomplete_nil|].
  apply Forall_cons in Hms as [? _]. by exists m, rest.
Qed.

(** New bytes: the frames they complete go to the inbuffer, where they
    complete messages. *)
Definition arrives (ws : bool) (wsb c pl wsb' : list Z) (fs fs2 : list frame) : Prop :=
  if ws then wsb ++ c = concat (frame_bytes <$> fs) ++ wsb' ∧ Forall frame_ok (fs ++ fs2) ∧
    tail_of frame_bytes wsb' fs2 ∧ pl = payloads fs
  else pl = c ∧ wsb' = wsb ∧ fs = [] ∧ fs2 = [].

Lemma pending_arrive ws rb wsb c input ms :
  pending ws rb wsb (c ++ input) ms →
  ∃ fs fs2 pl wsb' ms1 rb' ms2,
    arrives ws wsb c pl wsb' fs fs2 ∧ (ws = true → concat (frame_bytes <$> fs2) = wsb' ++ input) ∧
    ms = ms1 ++ ms2 ∧ rb ++ pl = concat (msg_bytes <$> ms1) ++ rb' ∧
    pending ws rb' wsb' input ms2.
Proof.
  intros [Hrb Hp]. destruct ws.
  - destruct Hp as (fs0 & Hin & Hok & Htail & Hpay). rewrite app_assoc in Hin.
    destruct (split_prefix frame_bytes fs0 _ _ Hin) as (fs & fs2 & wsb' & -> & Hc & Hrest & Ht).
    unfold payloads in *. rewrite fmap_app, concat_app, app_assoc in Hpay.
    destruct (split_prefix msg_bytes ms _ _ Hpay) as (ms1 & ms2 & rb' & -> & Hm & Hmrest & Hmt).
    exists fs, fs2, (concat (f_payload <$> fs)), wsb', ms1, rb', ms2. split; [done|].
    split; [done|]. split; [done|]. split; [done|]. split; [done|].
    exists fs2. split_and!; try done. by apply Forall_app in Hok as [_ ?].
  - rewrite app_assoc in Hp.
    destruct (split_prefix msg_bytes ms _ _ Hp) as (ms1 & ms2 & rb' & -> & Hm & Hrest & Ht).
    exists [], [], c, wsb, ms1, rb', ms2. by split_and!.
Qed.

(** The WebSocket inbuffer, and what the first stage of a pop needs of it:
    complete frames [fs], then the beginning of the frames [fs2]. *)
Definition in_frames (ws : bool) (fs : list frame) (wsb' : list Z) : list Z :=
  if ws then concat (frame_bytes <$> fs) ++ wsb' else wsb'.

Definition stage_ok (ws : bool) (limit : Z) (rb : list Z) (fs : list frame) (wsb' : list Z)
    (fs2 : list frame) : Prop :=
  if ws then Forall frame_ok (fs ++ fs2) ∧ tail_of frame_bytes wsb' fs2 ∧
    Forall (λ f, zlen (frame_bytes f) ≤ limit) fs2 ∧
    2 * (zlen rb + zlen (concat (frame_bytes <$> fs) ++ wsb')) ≤ limit
  else fs = [] ∧ 2 * zlen rb ≤ limit.

Lemma payloads_le fs :
  Forall frame_ok fs → zlen (payloads fs) ≤ zlen (concat (frame_bytes <$> fs)).
Proof.
  unfold payloads. induction 1 as [|f fs Hf _ IH]; [done|].
  rewrite !fmap_cons. cbn [concat]. rewrite !zlen_app. pose proof (zlen_frame f Hf).
  assert (6 ≤ header_len (zlen (f_payload f))) by (unfold header_len; repeat case_match; lia).
  lia.
Qed.

Lemma stage_bound ws limit rb fs wsb' fs2 :
  stage_ok ws limit rb fs wsb' fs2 → 2 * zlen (rb ++ payloads fs) ≤ limit.
Proof.
  rewrite zlen_app. pose proof (zlen_nonneg wsb').
  destruct ws; intros Hst; [|destruct Hst as [-> ?]; unfold payloads; simpl; zlia].
  destruct Hst as (Hok & _ & _ & Hlim).
  apply Forall_app in Hok as [Hok _]. apply payloads_le in Hok. rewrite zlen_app in Hlim. lia.
Qed.

(** After the first stage. *)
Lemma stage_done ws limit rb rb' fs wsb' fs2 :
  stage_ok ws limit rb fs wsb' fs2 → zlen rb' ≤ zlen (rb ++ payloads fs) →
  stage_ok ws limit rb' [] wsb' fs2.
Proof.
  intros Hst Hle. pose proof (stage_bound _ _ _ _ _ _ Hst). destruct ws; simpl in *.
  - destruct Hst as (Hok & Ht & Hl & Hlim). apply Forall_app in Hok as [Hok1 Hok2].
    split_and!; try done. apply payloads_le in Hok1. rewrite zlen_app in *. lia.
  - split; [done|lia].
Qed.

(** The first stage of a pop. *)
Lemma pop_stage o limit s rb wb fs wsb' fs2 :
  oracle_sane o → grants o limit →
  sock_rep s rb wb (in_frames (so_ws s) fs wsb') →
  stage_ok (so_ws s) limit rb fs wsb' fs2 →
  ∃ s', (if so_ws s then
           loop (ws_step (sub o 0)) (S (Z.to_nat (dime_ringbuffer_len (so_ws_rbuf s)))) (0%nat, s)
         else Ret (true, s)) = Ret (true, s') ∧
    sock_rep s' (rb ++ payloads fs) wb wsb' ∧ so_ws s' = so_ws s.
Proof.
  unfold in_frames. intros Hs Hg Hrep Hstage. destruct (so_ws s) eqn:Hon.
  - destruct Hstage as (Hok & Htail & Hfit & Hlim).
    assert (dime_ringbuffer_len (so_ws_rbuf s) = zlen (concat (frame_bytes <$> fs) ++ wsb')) as ->.
    { destruct Hrep as [_ _ Hws _]. specialize (Hws Hon). apply (rr_len _ _ Hws). }
    pose proof (frames_length fs wsb' (proj1 (proj1 (Forall_app _ _ _) Hok))).
    destruct (ws_loop_frames (sub o 0) limit wb fs (S (Z.to_nat (zlen
      (concat (frame_bytes <$> fs) ++ wsb')))) 0%nat s rb wsb' fs2) as (s' & -> & ? & ?);
      try done; try lia; eauto with oracle.
  - destruct Hstage as [-> _]. exists s. unfold payloads. simpl. by rewrite app_nil_r.
Qed.

(** ** Receiving *)

Section receive.
Context `{Jansson}.

(** The way the server reads a connection: receive once, then pop messages
    until there is none left ([dime_server_loop]). The answer of the last
    pop comes with the messages. *)
Definition drain_step (o : oracle) (st : nat * list (json * list Z) * dime_socket)
    : outcome (nat * list (json * list Z) * dime_socket
               + Z * list (json * list Z) * dime_socket) :=
  let '(n, got, s) := st in
  '(rc, d, s) ← dime_socket_pop (sub o n) s;
  match d with
  | Some d => if 0 <? rc then Ret (inl (S n, got ++ [d], s)) else Ret (inr (rc, got, s))
  | None => Ret (inr (rc, got, s))
  end.

(** A message takes at least twelve bytes. *)
Definition receive (o : oracle) (s : dime_socket) (c : list Z)
    : outcome (Z * list (json * list Z) * dime_socket) :=
  '(n, s) ← dime_socket_recvpartial (sub o 0) s (Some c);
  if n <=? 0 then Ret (-1, [], s)
  else loop (drain_step (sub o 1))
         (S (Z.to_nat (dime_socket_recvlen s +
                       if so_ws s then dime_ringbuffer_len (so_ws_rbuf s) else 0)))
         (0%nat, [], s).

Fixpoint receive_all (o : oracle) (s : dime_socket) (cs : list (list Z))
    : outcome (Z * list (json * list Z) * dime_socket) :=
  match cs with
  | [] => Ret (0, [], s)
  | c :: cs =>
      '(rc, got, s) ← receive (sub o 0) s c;
      if rc <? 0 then Ret (rc, got, s)
      else
        '(rc, got', s) ← receive_all (sub o 1) s cs;
        Ret (rc, got ++ got', s)
  end.

Lemma pop_spec o limit s rb wb fs wsb' fs2 m d rest :
  oracle_sane o → grants o limit →
  sock_rep s rb wb (in_frames (so_ws s) fs wsb') → stage_ok (so_ws s) limit rb fs wsb' fs2 →
  rb ++ payloads fs = msg_bytes m ++ rest → decodes m d →
  ∃ s', dime_socket_pop o s = Ret (zlen (msg_bytes m), Some d, s') ∧
    sock_rep s' rest wb wsb' ∧ so_ws s' = so_ws s.
Proof.
  intros Hs Hg Hrep Hst Heq Hd. unfold dime_socket_pop.
  destruct (pop_stage o limit s rb wb fs wsb' fs2) as (s1 & -> & Hrep1 & Hon1); try done.
  cbn [mbind outcome_bind]. pose proof (stage_bound _ _ _ _ _ _ Hst) as Hb.
  rewrite Heq in Hrep1, Hb. rewrite zlen_app in Hb. pose proof (zlen_nonneg rest).
  pose proof (zlen_nonneg (msg_bytes m)).
  destruct (pop_complete (sub o 1) limit s1 m d rest wb wsb') as (s2 & -> & Hrep2 & Hon2 & _);
    try done; try lia; eauto with oracle.
Qed.

Lemma pop_nothing o limit s rb wb fs wsb' fs2 :
  oracle_sane o → grants o limit → 2 ^ 32 ≤ limit →
  sock_rep s rb wb (in_frames (so_ws s) fs wsb') → stage_ok (so_ws s) limit rb fs wsb' fs2 →
  incomplete (rb ++ payloads fs) →
  ∃ s', dime_socket_pop o s = Ret (0, None, s') ∧
    sock_rep s' (rb ++ payloads fs) wb wsb' ∧ so_ws s' = so_ws s.
Proof.
  intros Hs Hg Hlim Hrep Hst Hinc. unfold dime_socket_pop.
  destruct (pop_stage o limit s rb wb fs wsb' fs2) as (s1 & -> & Hrep1 & Hon1); try done.
  cbn [mbind outcome_bind]. exists s1.
  by rewrite (pop_incomplete (sub o 1) limit s1 _ wb wsb') by eauto with oracle.
Qed.

Lemma drain_step_at o n got s :
  drain_step o (n, got, s) =
    '(rc, d, s) ← dime_socket_pop (sub o n) s;
    match d with
    | Some d => if 0 <? rc then Ret (inl (S n, got ++ [d], s)) else Ret (inr (rc, got, s))
    | None => Ret (inr (rc, got, s))
    end.
Proof. done. Qed.

Lemma drain_spec o limit fs2 wsb' rb' wb ms : ∀ fuel n got s rb fs ds,
  oracle_sane o → grants o limit → 2 ^ 32 ≤ limit →
  sock_rep s rb wb (in_frames (so_ws s) fs wsb') → stage_ok (so_ws s) limit rb fs wsb' fs2 →
  rb ++ payloads fs = concat (msg_bytes <$> ms) ++ rb' → incomplete rb' →
  Forall2 decodes ms ds → (length ms < fuel)%nat →
  ∃ s', loop (drain_step o) fuel (n, got, s) = Ret (0, got ++ ds, s') ∧
    sock_rep s' rb' wb wsb' ∧ so_ws s' = so_ws s.
Proof.
  induction ms as [|m ms IH]; intros [|fuel] n got s rb fs ds Hs Hg Hlim Hrep Hst Heq Hinc Hds
    Hf; simpl in Hf; try lia; cbn [loop]; rewrite drain_step_at.
  - apply Forall2_nil_inv_l in Hds as ->. simpl in Heq. rewrite app_nil_r.
    destruct (pop_nothing (sub o n) limit s rb wb fs wsb' fs2) as (s1 & -> & Hrep1 & Hon1);
      try done; [by eauto with oracle..|by rewrite Heq|].
    exists s1. by rewrite Heq in Hrep1.
  - apply Forall2_cons_inv_l in Hds as (d & ds' & Hd & Hds & ->).
    rewrite fmap_cons in Heq. cbn [concat] in Heq. rewrite <-app_assoc in Heq.
    destruct (pop_spec (sub o n) limit s rb wb fs wsb' fs2 m d (concat (msg_bytes <$> ms) ++ rb'))
      as (s1 & -> & Hrep1 & Hon1); try done; [by eauto with oracle..|].
    cbn [mbind outcome_bind]. pose proof (zlen_msg m). pose proof (zlen_nonneg m.1).
    pose proof (zlen_nonneg m.2). rewrite (proj2 (Z.ltb_lt 0 (zlen (msg_bytes m)))) by lia.
    cbn [mbind outcome_bind].
    destruct (IH fuel (S n) (got ++ [d]) s1 (concat (msg_bytes <$> ms) ++ rb') [] ds')
      as (s2 & -> & Hrep2 & Hon2); try done.
    + by destruct (so_ws s1).
    + rewrite Hon1. eapply stage_done; [done|]. rewrite Heq, (zlen_app (msg_bytes m)). lia.
    + unfold payloads. simpl. by rewrite app_nil_r.
    + lia.
    + exists s2. rewrite <-app_assoc. split_and!; try done. congruence.
Qed.

Lemma recv_spec o limit s rb wb wsb c :
  oracle_sane o → grants o limit → RECVBUFLEN ≤ limit → sock_rep s rb wb wsb →
  2 * (zlen rb + zlen wsb + zlen c) ≤ limit →
  ∃ s', dime_socket_recvpartial o s (Some c) = Ret (zlen c, s') ∧ so_ws s' = so_ws s ∧
    sock_rep s' (if so_ws s then rb else rb ++ c) wb (if so_ws s then wsb ++ c else wsb).
Proof.
  intros Hs Hg Hr [Hrb Hwb Hws Hz Hev] Hlim. unfold dime_socket_recvpartial.
  pose proof (zlen_nonneg rb). pose proof (zlen_nonneg wsb). pose proof (zlen_nonneg c).
  unfold at_ at 1. rewrite Hg by done. rewrite Hz. destruct (so_ws s) eqn:Hon.
  - destruct (write_grants (at_ o 1) limit (so_ws_rbuf s) wsb c) as (r & -> & Hrep);
      [apply Hs|intros; by apply Hg|auto|lia|].
    cbn [mbind outcome_bind]. rewrite (proj2 (Z.ltb_ge _ _)) by lia.
    exists (with_ws s true r). by split_and!.
  - destruct (write_grants (at_ o 1) limit (so_rbuf s) rb c) as (r & -> & Hrep);
      [apply Hs|intros; by apply Hg|auto|lia|].
    cbn [mbind outcome_bind]. rewrite (proj2 (Z.ltb_ge _ _)) by lia.
    exists (with_rbuf s r). split_and!; [done|done|]. split; try done. simpl. by rewrite Hon.
Qed.

Lemma zlen_elem {A} (enc : A → list Z) x xs :
  x ∈ xs → zlen (enc x) ≤ zlen (concat (enc <$> xs)).
Proof.
  induction 1 as [x xs|x y xs _ IH]; rewrite fmap_cons; cbn [concat]; rewrite zlen_app.
  - pose proof (zlen_nonneg (concat (enc <$> xs))). lia.
  - pose proof (zlen_nonneg (enc y)). lia.
Qed.

Lemma messages_length ms : Z.of_nat (length ms) ≤ zlen (concat (msg_bytes <$> ms)).
Proof.
  induction ms as [|m ms IH]; [done|]. rewrite fmap_cons. cbn [concat length].
  rewrite zlen_app, zlen_msg. pose proof (zlen_nonneg m.1). pose proof (zlen_nonneg m.2). lia.
Qed.

(** What the bytes that have arrived come to in the buffers. *)
Lemma arrives_stage limit ws (rb rb' wsb c input pl wsb' : list Z) fs fs2 :
  arrives ws wsb c pl wsb' fs fs2 → (ws = true → concat (frame_bytes <$> fs2) = wsb' ++ input) →
  zlen rb' ≤ zlen (rb ++ pl) → 2 * (zlen rb + zlen wsb + zlen c + zlen input) ≤ limit →
  let rb1 := if ws then rb else rb ++ c in
  (if ws then wsb ++ c else wsb) = in_frames ws fs wsb' ∧
  rb1 ++ payloads fs = rb ++ pl ∧ stage_ok ws limit rb1 fs wsb' fs2 ∧
  zlen (rb ++ pl) ≤ zlen rb1 + (if ws then zlen (wsb ++ c) else 0) ∧
  zlen rb' + zlen wsb' ≤ zlen rb + zlen wsb + zlen c.
Proof.
  intros Harr Hfs2 Hrb' Hsize rb1. pose proof (zlen_nonneg input). pose proof (zlen_nonneg rb).
  pose proof (zlen_nonneg wsb). pose proof (zlen_nonneg c).
  unfold arrives in Harr. unfold rb1, in_frames, stage_ok. destruct ws.
  - destruct Harr as (Hcut & Hok & Ht & ->). rewrite <-Hcut.
    pose proof (payloads_le fs (proj1 (proj1 (Forall_app _ _ _) Hok))).
    apply (f_equal zlen) in Hcut. rewrite !zlen_app in *.
    pose proof (zlen_nonneg wsb'). pose proof (zlen_nonneg (payloads fs)). split_and!; try done; try lia.
    apply Forall_forall. intros f Hf. apply (zlen_elem frame_bytes) in Hf.
    rewrite (Hfs2 eq_refl), zlen_app in Hf. lia.
  - destruct Harr as (-> & -> & -> & ->). unfold payloads. simpl. rewrite !app_nil_r, !zlen_app.
    split_and!; try done; try lia. rewrite zlen_app in Hrb'. lia.
Qed.

Lemma receive_spec o limit s rb wb wsb c input ms ds :
  oracle_sane o → grants o limit → RECVBUFLEN ≤ limit → 2 ^ 32 ≤ limit →
  sock_rep s rb wb wsb → c ≠ [] → Forall2 decodes ms ds →
  pending (so_ws s) rb wsb (c ++ input) ms →
  2 * (zlen rb + zlen wsb + zlen c + zlen input) ≤ limit →
  ∃ s' ms1 ms2 ds1 ds2 rb' wsb', ms = ms1 ++ ms2 ∧ ds = ds1 ++ ds2 ∧
    receive o s c = Ret (0, ds1, s') ∧ Forall2 decodes ms2 ds2 ∧
    sock_rep s' rb' wb wsb' ∧ so_ws s' = so_ws s ∧ pending (so_ws s) rb' wsb' input ms2 ∧
    zlen rb' + zlen wsb' + zlen input ≤ zlen rb + zlen wsb + zlen c + zlen input.
Proof.
  intros Hs Hg Hr Hlim Hrep Hc Hds Hpend Hsize.
  destruct (pending_arrive _ _ _ _ _ _ Hpend)
    as (fs & fs2 & pl & wsb' & ms1 & rb' & ms2 & Harr & Hfs2 & -> & Heq & Hpend').
  apply Forall2_app_inv_l in Hds as (ds1 & ds2 & Hds1 & Hds2 & ->).
  pose proof (zlen_nonneg input). pose proof (zlen_nonneg rb). pose proof (zlen_nonneg wsb).
  assert (0 < zlen c) as Hcpos by (destruct c; [done|zlia]).
  unfold receive.
  destruct (recv_spec (sub o 0) limit s rb wb wsb c) as (s1 & -> & Hon1 & Hrep1);
    try done; try lia; [by eauto with oracle..|].
  cbn [mbind outcome_bind]. rewrite (proj2 (Z.leb_gt (zlen c) 0)) by lia.
  set (rb1 := if so_ws s then rb else rb ++ c) in *.
  assert (zlen rb' ≤ zlen (rb ++ pl)) as Hrb'.
  { rewrite Heq, zlen_app. pose proof (zlen_nonneg (concat (msg_bytes <$> ms1))). lia. }
  destruct (arrives_stage limit _ rb rb' wsb c input pl wsb' fs fs2 Harr Hfs2 Hrb' Hsize)
    as (Hin & Hpl & Hst & Hbytes & Hless). fold rb1 in Hpl, Hst, Hbytes.
  rewrite <-Hon1 in Hst. replace (in_frames (so_ws s)) with (in_frames (so_ws s1)) in Hin by congruence.
  rewrite Hin in Hrep1.
  assert (incomplete rb') as Hinc.
  { destruct Hpend' as [Ht _]. eapply tail_of_incomplete; [|done].
    clear -Hds2. induction Hds2 as [|m d ms ds Hd]; [done|]. constructor; [apply Hd|done]. }
  pose proof (messages_length ms1) as Hml. pose proof (f_equal zlen Heq) as Hzl.
  rewrite (zlen_app (concat _)) in Hzl. pose proof (zlen_nonneg rb').
  assert (dime_socket_recvlen s1 = zlen rb1) as Hl1 by apply (rr_len _ _ (sr_rbuf _ _ _ _ Hrep1)).
  assert ((if so_ws s1 then dime_ringbuffer_len (so_ws_rbuf s1) else 0)
    = if so_ws s then zlen (wsb ++ c) else 0) as Hl2.
  { rewrite <-Hin in Hrep1. rewrite Hon1 in *. destruct (so_ws s); [|done].
    apply (rr_len _ _ (sr_ws _ _ _ _ Hrep1 Hon1)). }
  rewrite Hl1, Hl2.
  destruct (drain_spec (sub o 1) limit fs2 wsb' rb' wb ms1
    (S (Z.to_nat (zlen rb1 + if so_ws s then zlen (wsb ++ c) else 0))) 0%nat [] s1 rb1 fs ds1)
    as (s2 & -> & Hrep2 & Hon2); try done; [by eauto with oracle..|by rewrite Hpl|lia|].
  exists s2, ms1, ms2, ds1, ds2, rb', wsb'. rewrite Hon2, Hon1. split_and!; (done || lia).
Qed.

Lemma receive_all_spec limit cs : ∀ o s rb wb wsb ms ds,
  oracle_sane o → grants o limit → RECVBUFLEN ≤ limit → 2 ^ 32 ≤ limit →
  sock_rep s rb wb wsb → Forall (λ c, c ≠ []) cs → Forall2 decodes ms ds →
  pending (so_ws s) rb wsb (concat cs) ms →
  2 * (zlen rb + zlen wsb + zlen (concat cs)) ≤ limit →
  ∃ s', receive_all o s cs = Ret (0, ds, s') ∧ sock_rep s' [] wb [] ∧ so_ws s' = so_ws s.
Proof.
  induction cs as [|c cs IH]; intros o s rb wb wsb ms ds Hs Hg Hr Hlim Hrep Hcs Hds Hpend Hsize.
  - exists s. destruct Hpend as [Ht Hp]. simpl in Hp.
    assert (rb = [] ∧ ms = [] ∧ (so_ws s = true → wsb = [])) as (-> & -> & Hwsb).
    { destruct (so_ws s); rewrite ?app_nil_r in Hp.
      - destruct Hp as (fs & Heq & Hok & Htf & Hm).
        apply (tail_of_end frame_bytes) in Htf as [-> ->]; [| |done].
        + rewrite app_nil_r in Hm.
          apply (tail_of_end msg_bytes) in Ht as [-> ->]; try done.
          by apply Forall_forall.
        + eapply Forall_impl; [done|apply frame_bytes_nonempty].
      - apply (tail_of_end msg_bytes) in Ht as [-> ->]; try done. by apply Forall_forall. }
    apply Forall2_nil_inv_l in Hds as ->. split; [done|]. split; [|done].
    destruct Hrep as [? ? Hws ?]. split; try done. intros Hon. by rewrite <-(Hwsb Hon); auto.
  - apply Forall_cons in Hcs as [Hc Hcs]. cbn [concat] in *. rewrite zlen_app in Hsize.
    destruct (receive_spec (sub o 0) limit s rb wb wsb c (concat cs) ms ds)
      as (s1 & ms1 & ms2 & ds1 & ds2 & rb' & wsb' & -> & -> & Hrecv & Hds2 & Hrep1 & Hon1 &
          Hpend1 & Hle); try done; try lia; [by eauto with oracle..|].
    cbn [receive_all]. rewrite Hrecv. cbn [mbind outcome_bind Z.ltb Z.compare].
    destruct (IH (sub o 1) s1 rb' wb wsb' ms2 ds2) as (s2 & -> & Hrep2 & Hon2);
      try done; [by eauto with oracle..|by rewrite Hon1|lia|].
    exists s2. split; [done|]. split; [done|]. congruence.
Qed.
End receive.
