(* ===== verification/SocketProps.v ===== *)
(** * Properties of DiME sockets *)

From S2P Require Import Prelude Ringbuffer Bytes Json Socket SocketSpec SocketStream.

(** ** The sending side *)

(** A sender pushes messages and lets the network take up to some number of
    bytes, in any order. *)
Inductive send_call :=
  | CallPush (jsonstr bindata : list Z)
  | CallSend (n : Z).

Definition taking (n : Z) (buf : list Z) : Z := Z.min n (zlen buf).

(** The answers of the pushes, and the bytes that left. *)
Fixpoint send_run (o : oracle) (s : dime_socket) (cs : list send_call)
    : outcome (list Z * list Z * dime_socket) :=
  match cs with
  | [] => Ret ([], [], s)
  | CallPush js bin :: cs =>
      '(rc, s) ← dime_socket_push_str (sub o 0) s js bin;
      '(rcs, out, s) ← send_run (sub o 1) s cs;
      Ret (rc :: rcs, out, s)
  | CallSend n :: cs =>
      '(_, sent, s) ← dime_socket_sendpartial (at_ o 0) s (taking n);
      '(rcs, out, s) ← send_run (sub o 1) s cs;
      Ret (rcs, sent ++ out, s)
  end.

Fixpoint pushed (cs : list send_call) : list (list Z * list Z) :=
  match cs with
  | [] => []
  | CallPush js bin :: cs => (js, bin) :: pushed cs
  | CallSend _ :: cs => pushed cs
  end.

Definition send_call_ok (c : send_call) : Prop :=
  match c with CallPush _ _ => True | CallSend n => 0 ≤ n end.

Lemma sendpartial_spec al s rb wb wsb n :
  al SENDBUFLEN = true → sock_rep s rb wb wsb → 0 ≤ n →
  ∃ k s', dime_socket_sendpartial al s (taking n) = Ret (k, take (Z.to_nat k) wb, s') ∧
    0 ≤ k ≤ zlen wb ∧ so_ws s' = so_ws s ∧ sock_rep s' rb (drop (Z.to_nat k) wb) wsb.
Proof.
  intros Hal [Hrb Hwb Hws Hz Hev] Hn. unfold dime_socket_sendpartial. rewrite Hal.
  rewrite (peek_rep _ wb) by (done || (unfold SENDBUFLEN; lia)). cbn [mbind outcome_bind].
  pose proof (zlen_nonneg wb). set (buf := take _ wb).
  assert (zlen buf = Z.min SENDBUFLEN (zlen wb)) as Hbuf.
  { unfold buf. rewrite zlen_take. unfold SENDBUFLEN. lia. }
  assert (0 ≤ taking n buf ≤ Z.min SENDBUFLEN (zlen wb)) as Hk.
  { unfold taking. unfold SENDBUFLEN in *. lia. }
  set (k := taking n buf) in *. rewrite (proj2 (Z.ltb_ge k 0)) by lia.
  pose proof (discard_rep (so_wbuf s) wb k Hwb ltac:(lia)) as Hd.
  destruct (dime_ringbuffer_discard (so_wbuf s) k) as [n' w]. destruct Hd as [_ Hw].
  exists k, (with_wbuf s w). split.
  { unfold buf. do 3 f_equal. rewrite take_take. f_equal. lia. }
  split; [lia|]. split; [done|]. by apply sock_rep_drop.
Qed.

Lemma send_run_spec limit cs : ∀ o s rb wb wsb,
  oracle_sane o → grants o limit → SENDBUFLEN ≤ limit → sock_rep s rb wb wsb →
  Forall send_call_ok cs →
  2 * (zlen wb + zlen (concat (wire (so_ws s) <$> pushed cs)) + 22) ≤ limit →
  ∃ out wb' s', send_run o s cs
    = Ret ((λ m, zlen (wire (so_ws s) m)) <$> pushed cs, out, s') ∧
    sock_rep s' rb wb' wsb ∧ so_ws s' = so_ws s ∧
    out ++ wb' = wb ++ concat (wire (so_ws s) <$> pushed cs).
Proof.
  induction cs as [|[js bin|n] cs IH]; intros o s rb wb wsb Hs Hg Hsend Hrep Hok Hlim;
    cbn [send_run pushed] in *.
  - exists [], wb, s. simpl. by rewrite app_nil_r.
  - apply Forall_cons in Hok as [_ Hok]. rewrite !fmap_cons. rewrite fmap_cons in Hlim.
    cbn [concat] in *. rewrite zlen_app in Hlim. pose proof (zlen_wire_bound (so_ws s) (js, bin)) as Hb. simpl in Hb.
    pose proof (zlen_nonneg (concat (wire (so_ws s) <$> pushed cs))).
    destruct (push_str_spec (sub o 0) limit s rb wb wsb js bin) as (s1 & -> & Hrep1 & Hon1 & _);
      try done; [by eauto with oracle..|lia|].
    cbn [mbind outcome_bind].
    destruct (IH (sub o 1) s1 rb (wb ++ wire (so_ws s) (js, bin)) wsb)
      as (out & wb' & s2 & -> & Hrep2 & Hon2 & Heq); try done; [by eauto with oracle..| |].
    { rewrite Hon1, zlen_app. lia. }
    exists out, wb', s2. rewrite Hon1 in *. rewrite <-app_assoc in Heq. by split_and!.
  - apply Forall_cons in Hok as [Hn Hok].
    destruct (sendpartial_spec (at_ o 0) s rb wb wsb n) as (k & s1 & -> & Hk & Hon1 & Hrep1);
      try done; [by apply Hg|].
    cbn [mbind outcome_bind].
    destruct (IH (sub o 1) s1 rb (drop (Z.to_nat k) wb) wsb)
      as (out & wb' & s2 & -> & Hrep2 & Hon2 & Heq); try done; [by eauto with oracle..| |].
    { rewrite Hon1, zlen_drop by lia. pose proof (zlen_nonneg wb). lia. }
    exists (take (Z.to_nat k) wb ++ out), wb', s2. rewrite Hon1 in *. split_and!; try done.
    by rewrite <-app_assoc, Heq, app_assoc, take_drop.
Qed.

(** ** Properties *)

Section properties.
Context `{Jansson}.

(** A fresh socket reads messages as they were sent. *)
Lemma peer_reads o limit' fd peer pieces ms ds :
  oracle_sane o → grants o limit' → RECVBUFLEN ≤ limit' → 2 ^ 32 ≤ limit' →
  dime_socket_init (sub o 0) fd = (0, peer) → Forall (λ p, p ≠ []) pieces →
  concat pieces = concat (msg_bytes <$> ms) → Forall2 decodes ms ds →
  2 * zlen (concat pieces) ≤ limit' →
  ∃ peer', receive_all (sub o 1) peer pieces = Ret (0, ds, peer') ∧ sock_rep peer' [] [] [].
Proof.
  intros Hs Hg Hrecv Hlim Hinit Hpieces Hcut Hds Hsize.
  destruct (init_rep _ _ _ (oracle_sane_sub _ 0 Hs) Hinit) as [Hrep Hon].
  destruct (receive_all_spec limit' pieces (sub o 1) peer [] [] [] ms ds)
    as (s2 & Hrun2 & Hrep2 & _);
    [eauto with oracle|eauto with oracle|done|done|exact Hrep|done|exact Hds| |done|by exists s2].
  rewrite Hon. split; [by left|exact Hcut].
Qed.

(** C19: messages survive the network. One socket pushes messages and sends the
    bytes of its outbuffer in partial sends of any sizes, in any order, with
    memory for twice the bytes of all messages; every push answers the number
    of bytes of its message; once everything has left, and however the network
    cuts the bytes into pieces, the socket at the other end pops exactly these
    messages, in order, and ends with empty buffers. *)
Theorem socket_end_to_end o o' limit fd fd' s s' cs pieces ds :
  oracle_sane o → grants o limit → oracle_sane o' → grants o' limit →
  SENDBUFLEN ≤ limit → RECVBUFLEN ≤ limit → 2 ^ 32 ≤ limit →
  2 * (zlen (concat (msg_bytes <$> pushed cs)) + 22) ≤ limit →
  dime_socket_init (sub o 0) fd = (0, s) → dime_socket_init (sub o' 0) fd' = (0, s') →
  Forall send_call_ok cs → Forall2 decodes (pushed cs) ds → Forall (λ c, c ≠ []) pieces →
  ∃ out s1, send_run (sub o 1) s cs = Ret ((λ m, zlen (msg_bytes m)) <$> pushed cs, out, s1) ∧
    (dime_socket_sendlen s1 = 0 → concat pieces = out →
     ∃ s2, receive_all (sub o' 1) s' pieces = Ret (0, ds, s2) ∧ dime_socket_recvlen s2 = 0).
Proof.
  intros Hs Hg Hs' Hg' Hsb Hrb Hlim Hsize Hinit Hinit' Hcs Hds Hp.
  destruct (init_rep _ _ _ (oracle_sane_sub _ 0 Hs) Hinit) as [Hrep Hon].
  assert (∀ ms, concat (wire (so_ws s) <$> ms) = concat (msg_bytes <$> ms)) as Hw by by rewrite Hon.
  destruct (send_run_spec limit cs (sub o 1) s [] [] []) as (out & wb & s1 & -> & Hrep1 & _ & Heq);
    try done; [by eauto with oracle..|by rewrite Hw|].
  exists out, s1. split; [by rewrite Hon|]. intros Hempty Hpieces.
  assert (wb = []) as ->.
  { pose proof (rr_len _ _ (sr_wbuf _ _ _ _ Hrep1)) as [Hl _].
    unfold dime_socket_sendlen, dime_ringbuffer_len in Hempty. rewrite Hempty in Hl.
    destruct wb; [done|zlia]. }
  rewrite app_nil_r, Hw in Heq. simpl in Heq.
  destruct (peer_reads o' limit fd' s' pieces (pushed cs) ds) as (s2 & -> & Hrep2); try done.
  - by rewrite Hpieces.
  - rewrite Hpieces, Heq. lia.
  - exists s2. split; [done|]. apply (rr_len _ _ (sr_rbuf _ _ _ _ Hrep2)).
Qed.

(** C20: a WebSocket client may cut the stream of its messages into frames as
    it likes, mask each frame with a key of its own, and the network may cut
    the frames into pieces: the socket, with memory for twice the bytes,
    unmasks and pops exactly the messages of the client, in order. *)
Theorem websocket_receive o limit s frames ms ds pieces :
  oracle_sane o → grants o limit → RECVBUFLEN ≤ limit → 2 ^ 32 ≤ limit →
  sock_rep s [] [] [] → so_ws s = true → Forall frame_ok frames →
  payloads frames = concat (msg_bytes <$> ms) → Forall2 decodes ms ds →
  Forall (λ c, c ≠ []) pieces → concat pieces = concat (frame_bytes <$> frames) →
  2 * zlen (concat pieces) ≤ limit →
  ∃ s', receive_all o s pieces = Ret (0, ds, s') ∧ sock_rep s' [] [] [].
Proof.
  intros Hs Hg Hr Hlim Hrep Hon Hf Hpay Hds Hp Hcut Hsize.
  destruct (receive_all_spec limit pieces o s [] [] [] ms ds) as (s' & -> & Hrep' & _); try done.
  - rewrite Hon. split; [by left|]. exists frames. split_and!; try done. by left.
  - by exists s'.
Qed.

(** The payload of one unmasked, final, binary frame, as RFC 6455 says to
    read it, with what follows the frame. *)
Definition read_frame (bs : list Z) : option (list Z * list Z) :=
  match bs with
  | 0x82 :: l :: bs =>
      let payload n bs :=
        if n <=? zlen bs then Some (take (Z.to_nat n) bs, drop (Z.to_nat n) bs) else None in
      if l <? 126 then payload l bs
      else if l =? 126 then
        match bs with b0 :: b1 :: bs => payload (b0 * 256 + b1) bs | _ => None end
      else
        match bs with
        | b0 :: b1 :: b2 :: b3 :: b4 :: b5 :: b6 :: b7 :: bs =>
            payload (be64_dec b0 b1 b2 b3 b4 b5 b6 b7) bs
        | _ => None
        end
  | _ => None
  end.

(** The payloads of a stream of such frames. *)
Fixpoint read_frames (fuel : nat) (bs : list Z) : option (list (list Z)) :=
  match bs, fuel with
  | [], _ => Some []
  | _, O => None
  | _, S fuel =>
      '(payload, bs) ← read_frame bs;
      payloads ← read_frames fuel bs;
      Some (payload :: payloads)
  end.

Lemma read_frame_wire msg rest :
  zlen (msg_bytes msg) < 2 ^ 64 → read_frame (wire true msg ++ rest) = Some (msg_bytes msg, rest).
Proof.
  unfold wire. set (m := msg_bytes msg). pose proof (zlen_nonneg m). intros Hm.
  assert ((if zlen m <=? zlen (m ++ rest)
           then Some (take (Z.to_nat (zlen m)) (m ++ rest), drop (Z.to_nat (zlen m)) (m ++ rest))
           else None) = Some (m, rest)) as Hread.
  { rewrite take_app_zlen, drop_app_zlen by done. rewrite zlen_app.
    pose proof (zlen_nonneg rest). by rewrite (proj2 (Z.leb_le _ _)) by lia. }
  unfold ws_header_bytes. rewrite <-app_assoc.
  destruct (Z.ltb_spec (zlen m) 126); [|destruct (Z.ltb_spec (zlen m) 65536)];
    cbn [app be64 read_frame].
  - by rewrite (proj2 (Z.ltb_lt _ _)).
  - cbn [Z.ltb Z.eqb Z.compare Pos.compare Pos.compare_cont Pos.eqb].
    by replace (zlen m / 256 * 256 + zlen m mod 256) with (zlen m) by dlia.
  - cbn [Z.ltb Z.eqb Z.compare Pos.compare Pos.compare_cont Pos.eqb].
    by rewrite be64_roundtrip by lia.
Qed.

Lemma read_frames_wire ms : ∀ fuel,
  Forall (λ m, zlen (msg_bytes m) < 2 ^ 64) ms → (length ms ≤ fuel)%nat →
  read_frames fuel (concat (wire true <$> ms)) = Some (msg_bytes <$> ms).
Proof.
  induction ms as [|m ms IH]; intros fuel Hms Hf; [by destruct fuel|].
  apply Forall_cons in Hms as [Hm Hms]. destruct fuel as [|fuel]; [simpl in Hf; lia|].
  cbn [fmap list_fmap concat]. pose proof (zlen_wire_bound true m) as Hlen.
  destruct (wire true m ++ _) as [|y bs] eqn:E.
  { apply app_nil in E as [E _]. rewrite E, zlen_nil in Hlen. pose proof (zlen_nonneg m.1).
    pose proof (zlen_nonneg m.2). lia. }
  cbn [read_frames]. rewrite <-E, read_frame_wire by done. simpl.
  rewrite IH; [done|done|simpl in Hf; lia].
Qed.

(** C21: on a WebSocket connection every push for which there is memory adds
    one final binary frame to the outbuffer; a client that reads the frame as
    RFC 6455 says gets the DiME message, whichever of the three forms of the
    length the server used. *)
Theorem websocket_push_frame o limit s wb wsb js bin rest :
  oracle_sane o → grants o limit → sock_rep s [] wb wsb → so_ws s = true →
  2 * (zlen wb + zlen js + zlen bin + 22) ≤ limit →
  ∃ s' w, dime_socket_push_str o s js bin = Ret (zlen w, s') ∧ sock_rep s' [] (wb ++ w) wsb ∧
    read_frame (w ++ rest) = Some (msg_bytes (js, bin), rest).
Proof.
  intros Hs Hg Hrep Hon Hlim.
  destruct (push_str_spec o limit s [] wb wsb js bin) as (s' & Hrun & Hrep' & _); try done.
  pose proof (grants_limit _ _ Hs Hg). unfold MAXOBJ in *.
  exists s', (wire true (js, bin)). rewrite Hon in *. split_and!; [done..|].
  apply read_frame_wire. rewrite zlen_msg. simpl. pose proof (zlen_nonneg wb). lia.
Qed.

(** A header that announces more than [2^32 - 12] bytes makes the
    receiver read out of bounds. The size of the message is added up in 32
    bits and wraps around; as soon as that many bytes are there, the receiver
    copies them to a buffer of that size and parses beyond its end. *)
Theorem pop_size_wraps o limit s a b rest wb wsb :
  oracle_sane o → grants o limit → 2 ^ 32 ≤ limit → so_ws s = false →
  0 ≤ a < 2 ^ 32 → 0 ≤ b < 2 ^ 32 → 2 ^ 32 ≤ 12 + a + b → 
  sock_rep s (dime_header a b ++ rest) wb wsb → 12 + a + b - 2 ^ 32 ≤ 12 + zlen rest →
  dime_socket_pop o s = Undef.
Proof.
  intros Hs Hg Hlim Hon Ha Hb Hwrap Hrep Hrest. unfold dime_socket_pop. rewrite Hon.
  cbn [mbind outcome_bind]. unfold pop_message. destruct Hrep as [Hrb _ _ _ _].
  set (bs := dime_header a b ++ rest) in *. pose proof (zlen_nonneg rest).
  assert (zlen bs = 12 + zlen rest) as Hbs by (unfold bs; by rewrite zlen_app).
  rewrite (peek_rep _ bs) by (done || lia). cbn [mbind outcome_bind].
  rewrite Z.min_l by lia. cbn [Z.eqb Pos.eqb].
  assert (take (Z.to_nat 12) bs = dime_header a b) as -> by by apply take_app_zlen.
  destruct (header_dec a b Ha Hb) as (Hm & Hd1 & Hd2).
  rewrite Hm, bool_decide_eq_true_2 by done. cbv zeta. rewrite Hd1, Hd2.
  assert (u32 (12 + a + b) = (12 + a + b - 2 ^ 32) ∨ u32 (12 + a + b) = (12 + a + b - 2 ^ 33))
    as Hu by (unfold u32; dlia).
  unfold at_. rewrite (grants_sub _ 1 _ Hg) by (pose proof (u32_range (12 + a + b)); lia).
  pose proof (u32_range (12 + a + b)). set (n := u32 (12 + a + b)) in *.
  rewrite (peek_rep _ bs) by (done || lia). cbn [mbind outcome_bind].
  rewrite Z.min_l, Z.eqb_refl by lia. rewrite (proj2 (Z.leb_gt _ _)); [done|].
  rewrite zlen_take. lia.
Qed.

(** A WebSocket frame whose 64-bit length is close to [2^64] makes the
    receiver write out of bounds: its size wraps around to a few bytes, and
    the loop that unmasks the payload runs past the end of the buffer. *)
Theorem pop_frame_wraps o limit s b0 len mask rest rb wb :
  oracle_sane o → grants o limit → 14 ≤ limit → so_ws s = true →
  length mask = 4%nat → 2 ^ 64 - 14 ≤ len < 2 ^ 64 →
  sock_rep s rb wb ([b0; 255] ++ be64 len ++ mask ++ rest) →
  dime_socket_pop o s = Undef.
Proof.
  intros Hs Hg Hlim Hon Hmask Hlen Hrep. unfold dime_socket_pop. rewrite Hon.
  destruct Hrep as [_ _ Hws _]. specialize (Hws Hon).
  destruct mask as [|m0 [|m1 [|m2 [|m3 [|]]]]]; try done.
  set (bs := _ ++ _) in *. pose proof (zlen_nonneg rest).
  assert (ws_step (sub o 0) (0%nat, s) = Undef) as Hstep; [|cbn [loop]; by rewrite Hstep].
  unfold ws_step.
  assert (zlen bs = 14 + zlen rest) as Hbs.
  { unfold bs, be64. cbn [app]. rewrite !zlen_cons. lia. }
  rewrite (peek_rep _ bs) by (done || lia). cbn [mbind outcome_bind].
  rewrite Z.min_l by lia.
  assert (ws_frame 14 (take (Z.to_nat 14) bs) = Some (14, len, [m0; m1; m2; m3])) as ->.
  { unfold ws_frame, bs. change (peeked _ 1) with 255.
    change (Z.land 255 (Z.lnot 128)) with 127. cbn [Z.ltb Z.eqb Z.compare Pos.compare
      Pos.compare_cont Pos.eqb andb]. do 3 f_equal. by apply be64_roundtrip; lia. }
  change (peeked (take (Z.to_nat 14) bs) 1) with 255.
  change (Z.land 255 128 =? 0) with false. cbv iota.
  assert (u64 (14 + len) = 14 + len - 2 ^ 64) as -> by (unfold u64; dlia).
  unfold at_. rewrite (grants_sub _ 0 _ (grants_sub _ 0 _ Hg) [0%nat]) by lia.
  rewrite (peek_rep _ bs) by (done || lia). cbn [mbind outcome_bind].
  rewrite Z.min_l, Z.eqb_refl by lia. rewrite (proj2 (Z.leb_gt _ _)); [done|].
  rewrite zlen_take. lia.
Qed.

(** A write that fits needs no memory, and one that does not fit fails without
    it. *)
Lemma write_fits al r bs buf :
  alloc_sane al → ring_rep r bs → 0 < zlen buf → zlen bs + zlen buf < rb_cap r →
  ∃ w, dime_ringbuffer_write al r buf = Ret (zlen buf, w) ∧ ring_rep w (bs ++ buf) ∧
    rb_cap w = rb_cap r.
Proof.
  intros Ha Hr Hpos Hfit. pose proof (rr_cap _ _ Hr) as Hcap. pose proof (zlen_nonneg bs).
  unfold MAXOBJ in Hcap. pose proof (write_rep al r bs buf) as Hwr.
  apply returns_eq in Hwr as ([rc w] & Hrun & Hw); [|done..|unfold MAXOBJ; lia].
  destruct Hw as [[-> Hw]|(_ & _ & _ & ? & _)]; [|lia].
  exists w. split_and!; [done..|]. unfold dime_ringbuffer_write in Hrun.
  rewrite (proj2 (Z.eqb_neq _ _)) in Hrun by lia. unfold ring_reserve in Hrun.
  rewrite (proj1 (rr_len _ _ Hr)), u64_small in Hrun by lia.
  rewrite (proj2 (Z.leb_gt _ _)) in Hrun by lia. cbn [mbind outcome_bind] in Hrun.
  apply bind_ret_inv in Hrun as (arr & _ & Hrun). by simplify_eq.
Qed.

Lemma write_refused al r bs buf :
  ring_rep r bs → zlen buf ≤ 2 ^ 47 → (∀ n, al n = false) →
  rb_cap r ≤ zlen bs + zlen buf → 0 < zlen buf → dime_ringbuffer_write al r buf = Ret (-1, r).
Proof.
  intros Hr Hb Hal Hbig Hpos. pose proof (rr_cap _ _ Hr) as Hc.
  pose proof (rr_len _ _ Hr) as [Hl ?]. pose proof (zlen_nonneg bs). unfold MAXOBJ in Hc.
  unfold dime_ringbuffer_write. rewrite (proj2 (Z.eqb_neq _ _)) by lia.
  unfold ring_reserve. rewrite Hl, u64_small, (proj2 (Z.leb_le _ _)) by lia.
  unfold realloc. by rewrite Hal.
Qed.

(** A push that fails half-way is not noticed. If memory runs out after
    the header was written, [-1] is compared as an unsigned number with the
    length of the text: the push answers the length of the whole message,
    but the outbuffer only gained the header, and the stream is out of step
    from there on. *)
Theorem push_loses_text o s rb wb wsb js bin :
  oracle_sane o → sock_rep s rb wb wsb → so_ws s = false →
  js ≠ [] → zlen js ≤ MAXOBJ → zlen bin ≤ MAXOBJ → 
  zlen wb + 12 < rb_cap (so_wbuf s) → rb_cap (so_wbuf s) ≤ zlen wb + 12 + zlen js →
  (∀ n, at_ o 2 n = false) → (∀ n, at_ o 3 n = false) →
  ∃ s', dime_socket_push_str o s js bin = Ret (12 + zlen js + zlen bin, s') ∧
    (sock_rep s' rb (wb ++ dime_header (zlen js) (zlen bin)) wsb ∨
     sock_rep s' rb (wb ++ dime_header (zlen js) (zlen bin) ++ bin) wsb).
Proof.
  intros Hs (Hrep & Hev & e & He & _)%start_wwatcher_rep Hon Hjs Hmax Hmax' Hfit Hbig H2 H3.
  unfold dime_socket_push_str. rewrite He in *. destruct Hrep as [Hrb Hwb Hws Hz _].
  change (so_wbuf s) with (so_wbuf (with_ev s e)) in *. change (so_ws s) with (so_ws (with_ev s e)) in *.
  set (s0 := with_ev s e) in *.
  assert (0 < zlen js) by (destruct js; [done|zlia]). pose proof (zlen_nonneg bin).
  pose proof (zlen_nonneg wb). unfold MAXOBJ in *.
  unfold push_bytes. rewrite Hon. cbn [mbind outcome_bind].
  pose proof (rr_cap _ _ Hwb) as Hcap. unfold MAXOBJ in Hcap.
  destruct (write_fits (at_ o 1) (so_wbuf s0) wb (dime_header (zlen js) (zlen bin)))
    as (w & Hrun & Hw & Hwc); rewrite ?zlen_header; [eauto with oracle|done|lia|done|].
  rewrite Hrun, zlen_header.
  cbn [mbind outcome_bind Z.ltb Z.compare Pos.compare Pos.compare_cont].
  rewrite (write_refused _ w (wb ++ dime_header (zlen js) (zlen bin)) js);
    [|done..|rewrite Hwc, zlen_app, zlen_header; lia|lia].
  cbn [mbind outcome_bind]. change (u64 (-1)) with (2 ^ 64 - 1).
  rewrite (proj2 (Z.ltb_ge _ _)) by lia.
  pose proof (write_rep (at_ o 3) w _ bin ltac:(eauto with oracle) Hw Hmax') as Hr.
  apply returns_eq in Hr as ([rc w'] & -> & Hr). cbn [mbind outcome_bind].
  exists (with_wbuf s0 w'). destruct Hr as [[-> Hw']|(-> & -> & _)].
  - rewrite u64_small, Z.ltb_irrefl by lia. split; [f_equal; f_equal; lia|].
    right. rewrite app_assoc. by split.
  - change (u64 (-1)) with (2 ^ 64 - 1). rewrite (proj2 (Z.ltb_ge _ _)) by lia.
    split; [f_equal; f_equal; lia|]. left. by split.
Qed.
End properties.

(** ** Instances *)

Definition alloc_1T : oracle := λ _ n, n <=? 2 ^ 40.

Lemma alloc_1T_sane : oracle_sane alloc_1T.
Proof. intros p n. unfold alloc_1T, MAXOBJ. rewrite Z.leb_le. lia. Qed.

Lemma alloc_1T_grants : grants alloc_1T (2 ^ 40).
Proof. intros p n Hn. by apply Z.leb_le. Qed.

Lemma ring_with bs : 2 * zlen bs ≤ 2 ^ 40 → ∃ r, ring_rep r bs.
Proof.
  intros Hb. pose proof (alloc_1T_sane []) as Hs.
  pose proof (ring_init_rep (alloc_1T []) (snd (dime_ringbuffer_init (alloc_1T []))) Hs eq_refl).
  destruct (write_grants (alloc_1T []) (2 ^ 40) (snd (dime_ringbuffer_init (alloc_1T []))) [] bs)
    as (r & _ & Hr); [done|intros; by apply alloc_1T_grants|done|zlia|].
  by exists r.
Qed.

Lemma sock_with (ws : bool) rb wsb :
  2 * zlen rb ≤ 2 ^ 40 → 2 * zlen wsb ≤ 2 ^ 40 → ∃ s, sock_rep s rb [] wsb ∧ so_ws s = ws.
Proof.
  intros H1 H2. destruct (ring_with rb H1) as [r1 Hr1]. destruct (ring_with wsb H2) as [r2 Hr2].
  destruct (ring_with []) as [r3 Hr3]; [by vm_compute|].
  exists (Socket 0 r1 r3 false ws r2 false no_ring None). by split.
Qed.

Definition demo_calls : list send_call :=
  [CallPush [1; 2] [3]; CallSend 5; CallPush [4] []; CallSend 3; CallSend 100].

Definition demo_pieces : list (list Z) := (λ b, [b]) <$> concat (msg_bytes <$> pushed demo_calls).

Definition demo_socket (o : oracle) : dime_socket := snd (dime_socket_init o 5).

Lemma socket_end_to_end_witness :
  ∃ out s1, send_run (sub alloc_1T 1) (demo_socket (sub alloc_1T 0)) demo_calls
      = Ret ((λ m, zlen (msg_bytes m)) <$> pushed demo_calls, out, s1) ∧
    (dime_socket_sendlen s1 = 0 → concat demo_pieces = out →
     ∃ s2, @receive_all text_json (sub alloc_1T 1) (demo_socket (sub alloc_1T 0)) demo_pieces
       = Ret (0, [([1; 2], [3]); ([4], [])], s2) ∧ dime_socket_recvlen s2 = 0).
Proof.
  apply (@socket_end_to_end text_json alloc_1T alloc_1T (2 ^ 40) 5 5);
    [exact alloc_1T_sane|exact alloc_1T_grants|exact alloc_1T_sane|exact alloc_1T_grants
    |vm_compute; discriminate..|reflexivity|reflexivity| | |].
  - repeat (constructor; [vm_compute; (exact I || discriminate)|]). constructor.
  - repeat constructor.
  - apply Forall_forall. intros c (b & -> & _)%list_elem_of_fmap. discriminate.
Defined.

Definition demo_frames : list frame :=
  [Frame 0x82 [9; 8; 7; 6] (take 10 (msg_bytes ([1; 2], [3]))); Frame 0 [1; 2; 3; 4] [];
   Frame 0x82 [5; 5; 5; 5] (drop 10 (msg_bytes ([1; 2], [3])))].

Lemma websocket_receive_witness :
  ∃ s s', @receive_all text_json alloc_1T s ((λ b, [b]) <$> concat (frame_bytes <$> demo_frames))
      = Ret (0, [([1; 2], [3])], s') ∧ sock_rep s' [] [] [].
Proof.
  destruct (sock_with true [] []) as (s & Hrep & Hon); [vm_compute; discriminate..|]. exists s.
  apply (@websocket_receive text_json alloc_1T (2 ^ 40) s demo_frames [([1; 2], [3])]);
    [exact alloc_1T_sane|exact alloc_1T_grants|vm_compute; discriminate..|exact Hrep|exact Hon
    | |reflexivity| | | |vm_compute; discriminate].
  - repeat (constructor; [vm_compute; split; reflexivity|]). constructor.
  - repeat constructor.
  - apply Forall_forall. intros c (b & -> & _)%list_elem_of_fmap. discriminate.
  - reflexivity.
Defined.

Lemma websocket_push_frame_witness :
  ∃ s s' w, dime_socket_push_str alloc_1T s (replicate 200 1) [2] = Ret (zlen w, s') ∧
    sock_rep s' [] w [] ∧
    read_frame (w ++ [3]) = Some (msg_bytes (replicate 200 1, [2]), [3]).
Proof.
  destruct (sock_with true [] []) as (s & Hrep & Hon); [vm_compute; discriminate..|]. exists s.
  apply (websocket_push_frame alloc_1T (2 ^ 40) s [] []);
    [apply alloc_1T_sane|apply alloc_1T_grants|exact Hrep|exact Hon|vm_compute; discriminate].
Defined.

Lemma pop_size_wraps_witness :
  ∃ s, sock_rep s (dime_header (2 ^ 32 - 1) 0) [] [] ∧
    @dime_socket_pop text_json alloc_1T s = Undef.
Proof.
  destruct (sock_with false (dime_header (2 ^ 32 - 1) 0) []) as (s & Hrep & Hon);
    [vm_compute; discriminate..|].
  exists s. split; [exact Hrep|].
  apply (@pop_size_wraps text_json alloc_1T (2 ^ 40) s (2 ^ 32 - 1) 0 [] [] []);
    try apply alloc_1T_sane; try apply alloc_1T_grants; try exact Hon; try exact Hrep;
    vm_compute; repeat split; (reflexivity || discriminate).
Defined.

Lemma pop_frame_wraps_witness :
  ∃ s, sock_rep s [] [] ([0x82; 255] ++ be64 (2 ^ 64 - 1) ++ [1; 2; 3; 4] ++ [0]) ∧
    @dime_socket_pop text_json alloc_1T s = Undef.
Proof.
  destruct (sock_with true [] ([0x82; 255] ++ be64 (2 ^ 64 - 1) ++ [1; 2; 3; 4] ++ [0]))
    as (s & Hrep & Hon); [vm_compute; discriminate..|].
  exists s. split; [exact Hrep|].
  apply (@pop_frame_wraps text_json alloc_1T (2 ^ 40) s 0x82 (2 ^ 64 - 1) [1; 2; 3; 4] [0] [] []);
    try apply alloc_1T_sane; try apply alloc_1T_grants; try exact Hon; try exact Hrep;
    vm_compute; repeat split; (reflexivity || discriminate).
Defined.

(** An allocator that refuses what the text of a message asks for. *)
Definition alloc_header_only : oracle := λ p n,
  match p with [2%nat] | [3%nat] => false | _ => n <=? 2 ^ 40 end.

Lemma alloc_header_only_sane : oracle_sane alloc_header_only.
Proof.
  intros p n. unfold alloc_header_only, MAXOBJ. repeat case_match; try done; rewrite Z.leb_le; lia.
Qed.

Lemma push_loses_text_witness :
  ∃ s', dime_socket_push_str alloc_header_only (demo_socket alloc_1T) (replicate 2000 1) []
      = Ret (12 + zlen (replicate 2000 1) + zlen (@nil Z), s') ∧
    (sock_rep s' [] ([] ++ dime_header (zlen (replicate 2000 1)) (zlen (@nil Z))) [] ∨
     sock_rep s' [] ([] ++ dime_header (zlen (replicate 2000 1)) (zlen (@nil Z)) ++ []) []).
Proof.
  destruct (init_rep alloc_1T 5 (demo_socket alloc_1T) alloc_1T_sane eq_refl) as [Hrep Hon].
  apply (push_loses_text alloc_header_only (demo_socket alloc_1T) [] [] [] (replicate 2000 1) []);
    [apply alloc_header_only_sane|exact Hrep|exact Hon|discriminate|vm_compute; discriminate..| | | |].
  - vm_compute. reflexivity.
  - vm_compute. discriminate.
  - reflexivity.
  - reflexivity.
Defined.
