(* ===== verification/SocketWf.v ===== *)
(** * Sockets stay well formed, and popping ends

    What [SocketProps] shows of exchanges between two ends that follow the
    protocol, shown here as far as it holds of any bytes at all. *)

From S2P Require Import Prelude Ringbuffer Bytes Json Socket SocketSpec SocketProps.

Lemma peeked_byte l i : Forall byte l → byte (peeked l i).
Proof.
  intros Hl. unfold peeked, zget. case_decide; [|by vm_compute].
  destruct (l !! Z.to_nat i) eqn:E; simpl; [|by vm_compute]. by eapply Forall_lookup_1 in E.
Qed.

Lemma lxor_byte a b : byte a → byte b → byte (Z.lxor a b).
Proof.
  unfold byte. intros Ha Hb. assert (0 ≤ Z.lxor a b) by (apply Z.lxor_nonneg; lia).
  split; [done|]. destruct (decide (Z.lxor a b = 0)) as [->|Hne]; [lia|].
  apply Z.nle_gt. intros Hge.
  assert (Z.testbit (Z.lxor a b) (Z.log2 (Z.lxor a b)) = true) as Hbit by (apply Z.bit_log2; lia).
  assert (8 ≤ Z.log2 (Z.lxor a b)) by (apply (Z.log2_le_mono 256); lia).
  rewrite Z.lxor_spec, !(testbit_high 8) in Hbit by (done || lia). done.
Qed.

Lemma unmask_bytes mask l : Forall byte mask → Forall byte l → Forall byte (unmask mask l).
Proof.
  intros Hm Hl. unfold unmask. apply Forall_lookup_2. intros i x.
  rewrite list_lookup_imap. intros (y & Hy & ->)%fmap_Some.
  apply lxor_byte; [by eapply Forall_lookup_1 in Hy|by apply peeked_byte].
Qed.

Lemma zlen_unmask mask l : zlen (unmask mask l) = zlen l.
Proof. unfold zlen, unmask. by rewrite length_imap. Qed.

(** ** [recvpartial] and [sendpartial] *)

Lemma write_bytes al r bs buf :
  alloc_sane al → ring_rep r bs → zlen buf ≤ MAXOBJ → Forall byte bs → Forall byte buf →
  ∃ rc r' bs', dime_ringbuffer_write al r buf = Ret (rc, r') ∧ ring_rep r' bs' ∧ Forall byte bs'.
Proof.
  intros Hs Hr Hlen Hbs Hbuf. pose proof (write_rep al r bs buf Hs Hr Hlen) as Hw.
  apply returns_eq in Hw as ([rc r'] & -> & [[_ Hr']|(_ & -> & _)]).
  - exists rc, r', (bs ++ buf). split_and!; [done..|by apply Forall_app].
  - by exists rc, r, bs.
Qed.

Lemma recvpartial_wf o s recv :
  oracle_sane o → sock_wf s →
  (∀ buf, recv = Some buf → zlen buf ≤ RECVBUFLEN ∧ Forall byte buf) →
  returns (dime_socket_recvpartial o s recv) (λ '(n, s'), sock_wf s' ∧ so_fd s' = so_fd s).
Proof.
  intros Hs Hwf Hrecv. pose proof Hwf as (rb & wb & wsb & [Hrb Hwb Hws Hz Hev] & Hb1 & Hb2).
  unfold dime_socket_recvpartial. destruct (at_ o 0 RECVBUFLEN); [|done].
  destruct recv as [buf|]; [|done]. destruct (Hrecv buf eq_refl) as [Hlen Hbuf]. rewrite Hz.
  assert (zlen buf ≤ MAXOBJ) by (unfold RECVBUFLEN, MAXOBJ in *; lia).
  destruct (so_ws s) eqn:Ews.
  - destruct (write_bytes (at_ o 1) _ wsb buf ltac:(eauto with oracle) (Hws eq_refl) ltac:(done)
      (Hb2 eq_refl) Hbuf) as (rc & r & bs & -> & Hr & Hbs). cbn [mbind outcome_bind].
    assert (sock_wf (with_ws s true r)) by by exists rb, wb, bs.
    destruct (rc <? 0); simpl; done.
  - destruct (write_bytes (at_ o 1) _ rb buf ltac:(eauto with oracle) Hrb ltac:(done) Hb1 Hbuf)
      as (rc & r & bs & -> & Hr & Hbs). cbn [mbind outcome_bind].
    assert (sock_wf (with_rbuf s r)).
    { exists bs, wb, wsb. simpl. rewrite Ews. split; [|done]. split; try done. simpl. by rewrite Ews. }
    destruct (rc <? 0); simpl; done.
Qed.

Lemma sendpartial_wf al s send :
  sock_wf s → returns (dime_socket_sendpartial al s send) (λ '(n, _, s'),
    sock_wf s' ∧ so_fd s' = so_fd s).
Proof.
  intros Hwf. pose proof Hwf as (rb & wb & wsb & [Hrb Hwb Hws Hz Hev] & Hb1 & Hb2).
  unfold dime_socket_sendpartial. destruct (al SENDBUFLEN); [|done].
  rewrite (peek_rep _ wb) by (done || (unfold SENDBUFLEN; lia)). cbn [mbind outcome_bind].
  destruct (Z.ltb_spec (send (take (Z.to_nat SENDBUFLEN) wb)) 0); [done|].
  pose proof (discard_rep (so_wbuf s) wb (send (take (Z.to_nat SENDBUFLEN) wb)) Hwb ltac:(done)) as Hd.
  destruct (dime_ringbuffer_discard _ _) as [n' w]. destruct Hd as [_ Hw]. simpl. split; [|done].
  exists rb, (drop (Z.to_nat (send (take (Z.to_nat SENDBUFLEN) wb))) wb), wsb.
  split; [|done]. by apply sock_rep_drop.
Qed.

(** ** What no operation changes: the descriptor, and whether libev watches it *)

Definition sock_kept (s : dime_socket) : Z * bool := (so_fd s, ev_watched s).

Lemma push_str_kept o s text bin rc s' :
  dime_socket_push_str o s text bin = Ret (rc, s') → sock_kept s' = sock_kept s.
Proof.
  unfold dime_socket_push_str. intros Hr. transitivity (sock_kept (start_wwatcher s)).
  - unfold push_bytes in Hr. unfold_ret.
  - unfold start_wwatcher, sock_kept, ev_watched.
    destruct (_ =? 0); [|done]. destruct (so_ev s) eqn:E; simpl; by rewrite ?E.
Qed.

Lemma sendpartial_kept al s send n out s' :
  dime_socket_sendpartial al s send = Ret (n, out, s') → sock_kept s' = sock_kept s.
Proof. unfold dime_socket_sendpartial. intros Hr. unfold_ret. Qed.

Lemma recvpartial_kept o s recv n s' :
  dime_socket_recvpartial o s recv = Ret (n, s') → sock_kept s' = sock_kept s.
Proof. unfold dime_socket_recvpartial. intros Hr. unfold_ret. Qed.

Lemma loop_kept (step : nat * dime_socket → outcome (nat * dime_socket + bool * dime_socket)) fuel st r :
  (∀ st r, step st = Ret r → match r with inl st' => sock_kept st'.2 | inr r => sock_kept r.2 end
     = sock_kept st.2) →
  loop step fuel st = Ret r → sock_kept r.2 = sock_kept st.2.
Proof.
  intros Hstep. apply (loop_keeps _ (λ st', sock_kept st'.2 = sock_kept st.2)
    (λ r, sock_kept r.2 = sock_kept st.2)); [..|done].
  - intros s1 s2 <- Hr. exact (Hstep _ _ Hr).
  - intros s1 r1 <- Hr. exact (Hstep _ _ Hr).
Qed.

Lemma init_tls_kept o env s rc out s' :
  dime_socket_init_tls o env s = Ret (rc, out, s') → sock_kept s' = sock_kept s.
Proof.
  unfold dime_socket_init_tls. intros Hr. destruct (_ <? 0); [by simplify_eq|].
  destruct (_ =? 0); [|done]. apply bind_ret_inv in Hr as ([[ok out'] s0] & Hf & Hr).
  transitivity (sock_kept s0); [unfold_ret|]. revert Hf.
  apply (loop_keeps _ (λ st, sock_kept st.2 = sock_kept s) (λ r, sock_kept r.2 = sock_kept s));
    [..|done]; intros [[n out1] t] r <- Ht; cbn [flush_step] in Ht;
    (destruct (0 <? _); [|by simplify_eq]);
    apply bind_ret_inv in Ht as ([[rc' out2] t2] & Hs & Ht); apply sendpartial_kept in Hs; unfold_ret.
Qed.

Lemma socket_pop_kept `{Jansson} o s n m s' :
  dime_socket_pop o s = Ret (n, m, s') → sock_kept s' = sock_kept s.
Proof.
  unfold dime_socket_pop. intros Hr. apply bind_ret_inv in Hr as ([go s0] & Hws & Hr).
  transitivity (sock_kept s0).
  - destruct go; [|by simplify_eq]. unfold pop_message in Hr. unfold_ret.
  - destruct (so_ws s); [|by simplify_eq]. apply loop_kept in Hws; [exact Hws|].
    intros [k t] r Ht. unfold ws_step in Ht. unfold_ret.
Qed.

(** ** Frames *)

Lemma ws_frame_bounds nread hdr hl fl mask :
  Forall byte hdr → ws_frame nread hdr = Some (hl, fl, mask) → 6 ≤ hl ∧ 0 ≤ fl ∧ Forall byte mask.
Proof.
  intros Hh. assert (∀ i, byte (peeked hdr i)) as Hp by (intros; by apply peeked_byte).
  unfold ws_frame. repeat case_match; intros [= <- <- <-];
    (split; [lia|split; [|repeat first [apply Forall_nil_2 | apply Forall_cons_2; [apply Hp|]]]]).
  - apply Z.land_nonneg. left. apply Hp.
  - apply Z.lor_nonneg. split; [apply Z.shiftl_nonneg|]; apply Hp.
  - by apply be64_range.
Qed.

(** What the header of a frame at the front of some bytes says, and whether
    the size of such a frame exceeds a [size_t]. *)
Definition front_frame (wsb : list Z) : option (Z * Z * list Z) :=
  ws_frame (Z.min 14 (zlen wsb)) (take 14 wsb).

Definition frame_wraps (wsb : list Z) : Prop :=
  ∃ hl fl mask, front_frame wsb = Some (hl, fl, mask) ∧ 2 ^ 64 ≤ hl + fl.

(** The payload of a complete frame at the front of some bytes, and the bytes
    after it. *)
Inductive one_frame (wsb : list Z) : list Z → list Z → Prop :=
  | OneFrame hl fl mask : front_frame wsb = Some (hl, fl, mask) → hl + fl ≤ zlen wsb →
      one_frame wsb (unmask mask (drop (Z.to_nat hl) (take (Z.to_nat (hl + fl)) wsb)))
        (drop (Z.to_nat (hl + fl)) wsb).

(** The payloads of some frames at the front of some bytes. *)
Inductive unframed : list Z → list Z → list Z → Prop :=
  | unframed_nil wsb : unframed wsb [] wsb
  | unframed_cons wsb f wsb1 pl rest :
      one_frame wsb f wsb1 → unframed wsb1 pl rest → unframed wsb (f ++ pl) rest.

Lemma one_frame_bytes wsb f rest :
  Forall byte wsb → one_frame wsb f rest →
  zlen f + zlen rest + 6 ≤ zlen wsb ∧ Forall byte f ∧ Forall byte rest.
Proof.
  intros Hb [hl fl mask Hf Hle].
  apply ws_frame_bounds in Hf as (Hhl & Hfl & Hmask); [|by apply Forall_take].
  split_and!; [|by apply unmask_bytes; [|apply Forall_drop, Forall_take]|by apply Forall_drop].
  rewrite zlen_unmask, !zlen_drop, !zlen_take by (rewrite ?zlen_take; lia). lia.
Qed.

Lemma unframed_bytes wsb pl rest :
  unframed wsb pl rest → Forall byte wsb →
  zlen pl + zlen rest ≤ zlen wsb ∧ Forall byte pl ∧ Forall byte rest.
Proof.
  induction 1 as [wsb|wsb f wsb1 pl rest H1 _ IH]; intros Hb; [split_and!; [zlia|done|done]|].
  apply one_frame_bytes in H1 as (? & ? & Hb1); [|done]. destruct (IH Hb1) as (? & ? & ?).
  rewrite zlen_app. split_and!; [lia|by apply Forall_app|done].
Qed.

(** A turn of the loop takes a frame off one buffer and adds its payload to the
    other. *)
Lemma ws_step_any o n s rb wb wsb :
  oracle_sane o → sock_rep s rb wb wsb → so_ws s = true → Forall byte wsb →
  match ws_step o (n, s) with
  | Diverge => False
  | Undef => frame_wraps wsb
  | Ret (inl (n', s')) => n' = S n ∧ so_ws s' = true ∧ so_fd s' = so_fd s ∧
      ∃ f rest, one_frame wsb f rest ∧ sock_rep s' (rb ++ f) wb rest
  | Ret (inr (_, s')) => so_ws s' = true ∧ so_fd s' = so_fd s ∧ sock_rep s' rb wb wsb
  end.
Proof.
  intros Hs [Hrb Hwb Hws Hz Hev] Hon Hbwsb. specialize (Hws Hon). unfold ws_step.
  rewrite (peek_rep _ wsb) by (done || lia). cbn [mbind outcome_bind].
  change (ws_frame _ _) with (front_frame wsb).
  destruct (front_frame wsb) as [[[hl fl] mask]|] eqn:Ef; [|done].
  pose proof Ef as (Hhl & Hfl & Hmask)%ws_frame_bounds; [|by apply Forall_take].
  destruct (_ =? 0); [done|]. destruct (at_ (sub o n) 0 _); [|done].
  pose proof (u64_range (hl + fl)). rewrite (peek_rep _ wsb) by (done || lia).
  cbn [mbind outcome_bind]. set (siz := u64 (hl + fl)) in *. set (msg := take (Z.to_nat siz) wsb).
  destruct (Z.eqb_spec (Z.min siz (zlen wsb)) siz) as [Hgot|]; [|done].
  assert (zlen msg = siz) as Hmsg by (unfold msg; rewrite zlen_take; lia).
  destruct (Z.leb_spec (hl + fl) (zlen msg)) as [Hle|Hgt].
  2:{ exists hl, fl, mask. split; [done|]. apply Z.nlt_ge. intros Hlt.
      assert (siz = hl + fl) by (unfold siz; unwrap; lia). lia. }
  assert (siz = hl + fl) as Hsiz.
  { pose proof (rr_len _ _ Hws). pose proof (rr_cap _ _ Hws). unfold siz, MAXOBJ in *. unwrap. lia. }
  set (frame := unmask mask (drop (Z.to_nat hl) msg)).
  assert (one_frame wsb frame (drop (Z.to_nat siz) wsb)) as H1.
  { unfold frame, msg. rewrite Hsiz. constructor; [done|lia]. }
  destruct (one_frame_bytes _ _ _ Hbwsb H1) as [Hlen _]. pose proof (zlen_nonneg (drop (Z.to_nat siz) wsb)).
  assert (zlen frame ≤ MAXOBJ) as Hmax.
  { pose proof (rr_len _ _ Hws). pose proof (rr_cap _ _ Hws). lia. }
  pose proof (write_rep (at_ (sub o n) 1) _ rb frame ltac:(eauto with oracle) Hrb Hmax) as Hw.
  pose proof (zlen_nonneg frame).
  apply returns_eq in Hw as ([rc r] & -> & [[-> Hr]|(-> & -> & _)]); cbn [mbind outcome_bind].
  - rewrite (proj2 (Z.ltb_ge _ _)) by lia.
    pose proof (discard_rep (so_ws_rbuf s) wsb siz Hws ltac:(lia)) as Hd.
    change (so_ws_rbuf (with_rbuf s r)) with (so_ws_rbuf s).
    destruct (dime_ringbuffer_discard (so_ws_rbuf s) siz) as [n' w]. destruct Hd as [_ Hwr].
    split_and!; [done..|]. eexists _, _. by split.
  - simpl. by split_and!.
Qed.

Lemma ws_loop_any o fuel : ∀ n s rb wb wsb,
  oracle_sane o → sock_rep s rb wb wsb → so_ws s = true → Forall byte wsb →
  (Z.to_nat (zlen wsb) < fuel)%nat →
  match loop (ws_step o) fuel (n, s) with
  | Diverge => False
  | Undef => ∃ pl rest, unframed wsb pl rest ∧ frame_wraps rest
  | Ret (_, s') => so_ws s' = true ∧ so_fd s' = so_fd s ∧
      ∃ pl rest, unframed wsb pl rest ∧ sock_rep s' (rb ++ pl) wb rest
  end.
Proof.
  induction fuel as [|fuel IH]; intros n s rb wb wsb Hs Hrep Hon Hbwsb Hf; [lia|].
  cbn [loop]. pose proof (ws_step_any o n s rb wb wsb Hs Hrep Hon Hbwsb) as Hst.
  destruct (ws_step o (n, s)) as [[[n' s']|[go s']]| |]; cbn [mbind outcome_bind]; [| | |done].
  - destruct Hst as (-> & Hon' & Hfd & f & rest & H1 & Hrep').
    destruct (one_frame_bytes _ _ _ Hbwsb H1) as (Hlen & Hbf & Hbr).
    pose proof (zlen_nonneg f). pose proof (zlen_nonneg rest).
    specialize (IH (S n) s' (rb ++ f) wb rest Hs Hrep' Hon' Hbr ltac:(lia)).
    destruct (loop _ _ _) as [[go s2]| |]; [| |done].
    + destruct IH as (? & ? & pl & rest' & ? & ?). split_and!; [done|congruence|].
      exists (f ++ pl), rest'. rewrite app_assoc. split; [by econstructor|done].
    + destruct IH as (pl & rest' & ? & ?). exists (f ++ pl), rest'. split; [by econstructor|done].
  - destruct Hst as (? & ? & ?). split_and!; [done..|]. exists [], wsb. rewrite app_nil_r.
    split; [constructor|done].
  - exists [], wsb. split; [constructor|done].
Qed.

(** ** Messages *)

Section pop.
Context `{Jansson}.

Lemma be32_dec_byte a b c d : byte a → byte b → byte c → byte d → 0 ≤ be32_dec a b c d.
Proof. intros. rewrite be32_dec_sum by done. unfold byte in *. lia. Qed.

(** Whether the size of a message at the front of some bytes exceeds the 32
    bits in which it is computed. *)
Definition message_wraps (rb : list Z) : Prop :=
  let h := peeked (take 12 rb) in
  12 ≤ zlen rb ∧ take 4 rb = magic ∧
  2 ^ 32 ≤ 12 + be32_dec (h 4) (h 5) (h 6) (h 7) + be32_dec (h 8) (h 9) (h 10) (h 11).

(** A size wraps: that of a frame that has come to the front, or that of the
    message that the payloads of the frames complete. *)
Definition size_wraps (ws : bool) (rb wsb : list Z) : Prop :=
  if ws then ∃ pl rest, unframed wsb pl rest ∧ (frame_wraps rest ∨ message_wraps (rb ++ pl))
  else message_wraps rb.

(** No size in what has arrived wraps around. *)
Definition sizes_fit (s : dime_socket) : Prop :=
  ∀ rb wb wsb, sock_rep s rb wb wsb → ¬ size_wraps (so_ws s) rb wsb.

Lemma sizes_fit_short s rb wb wsb :
  sock_rep s rb wb wsb → so_ws s = false → zlen rb < 12 → sizes_fit s.
Proof.
  intros [Hr _ _ _ _] Hws Hlen rb' wb' wsb' [Hr' _ _ _ _] Hsz. rewrite Hws in Hsz.
  destruct Hsz as [Hlen' _]. rewrite <-(proj1 (rr_len _ _ Hr')), (proj1 (rr_len _ _ Hr)) in Hlen'. lia.
Qed.

Lemma pop_message_any o s rb wb wsb :
  oracle_sane o → sock_rep s rb wb wsb → Forall byte rb →
  match pop_message o s with
  | Diverge => False
  | Undef => message_wraps rb
  | Ret (n, m, s') => ∃ rb', sock_rep s' rb' wb wsb ∧ so_ws s' = so_ws s ∧ so_fd s' = so_fd s ∧
      Forall byte rb' ∧
      match m with
      | Some (_, bin) => 12 ≤ n ∧ zlen rb' + n = zlen rb ∧ zlen bin ≤ MAXOBJ
      | None => n ≤ 0 ∧ rb' = rb
      end
  end.
Proof.
  intros Hs [Hrb Hwb Hws Hz Hev] Hb. unfold pop_message.
  assert (∀ n : Z, n ≤ 0 → ∃ rb', sock_rep s rb' wb wsb ∧ so_ws s = so_ws s ∧ so_fd s = so_fd s ∧
      Forall byte rb' ∧ n ≤ 0 ∧ rb' = rb) as Hstay.
  { intros n Hn. exists rb. by split_and!. }
  rewrite (peek_rep _ rb) by (done || lia). cbn [mbind outcome_bind].
  destruct (Z.eqb_spec (Z.min 12 (zlen rb)) 12); [|by apply Hstay].
  case_bool_decide as Hmagic; [|by apply Hstay]. cbv zeta.
  set (hdr := take (Z.to_nat 12) rb).
  assert (∀ i, byte (peeked hdr i)) as Hp by (intros; by apply peeked_byte, Forall_take).
  set (a := be32_dec (peeked hdr 4) _ _ _). set (b := be32_dec (peeked hdr 8) _ _ _).
  assert (0 ≤ a ∧ 0 ≤ b) as [Ha Hb0] by (split; by apply be32_dec_byte).
  pose proof (u32_range (12 + a + b)). set (siz := u32 (12 + a + b)) in *.
  destruct (at_ o 0 siz); [|by apply Hstay].
  rewrite (peek_rep _ rb) by (done || lia). cbn [mbind outcome_bind].
  destruct (Z.eqb_spec (Z.min siz (zlen rb)) siz); [|by apply Hstay].
  assert (zlen (take (Z.to_nat siz) rb) = siz) as -> by (rewrite zlen_take; lia).
  destruct (Z.leb_spec (12 + a + b) siz) as [|Hgt].
  2:{ rewrite take_take in Hmagic. assert (2 ^ 32 ≤ 12 + a + b) as Hbig; [|by split_and!; [lia|..]].
      apply Z.nlt_ge. intros Hlt. unfold siz in Hgt. rewrite u32_small in Hgt by lia. lia. }
  destruct (json_loadb _) as [j|]; [|by apply Hstay].
  destruct (at_ o 1 b) eqn:Eb; [|by apply Hstay].
  apply (oracle_sane_at o 1 Hs) in Eb.
  pose proof (discard_rep (so_rbuf s) rb siz Hrb ltac:(lia)) as Hd.
  destruct (dime_ringbuffer_discard (so_rbuf s) siz) as [n' r]. destruct Hd as [_ Hr].
  exists (drop (Z.to_nat siz) rb). split_and!; [by split|done|done|by apply Forall_drop|lia|..].
  - rewrite zlen_drop by lia. lia.
  - rewrite zlen_take. lia.
Qed.

Lemma socket_pop_any o s rb wb wsb :
  oracle_sane o → sock_rep s rb wb wsb → Forall byte rb →
  (so_ws s = true → Forall byte wsb) →
  match dime_socket_pop o s with
  | Diverge => False
  | Undef => size_wraps (so_ws s) rb wsb
  | Ret (n, m, s') => ∃ rb' wsb', sock_rep s' rb' wb wsb' ∧ so_ws s' = so_ws s ∧
      so_fd s' = so_fd s ∧ Forall byte rb' ∧ (so_ws s = true → Forall byte wsb') ∧
      match m with
      | Some (_, bin) => 0 < n ∧ zlen rb' + zlen wsb' + 12 ≤ zlen rb + zlen wsb ∧ zlen bin ≤ MAXOBJ
      | None => n ≤ 0 ∧ zlen rb' + zlen wsb' ≤ zlen rb + zlen wsb
      end
  end.
Proof.
  intros Hs Hrep Hbrb Hbwsb. unfold dime_socket_pop, size_wraps.
  destruct (so_ws s) eqn:Hon; cbn [mbind outcome_bind].
  - pose proof (sr_ws _ _ _ _ Hrep Hon) as Hws. specialize (Hbwsb eq_refl).
    pose proof (ws_loop_any (sub o 0) (S (Z.to_nat (dime_ringbuffer_len (so_ws_rbuf s)))) 0%nat s
      rb wb wsb ltac:(eauto with oracle) Hrep Hon Hbwsb) as Hl.
    unfold dime_ringbuffer_len in Hl |- *. rewrite (proj1 (rr_len _ _ Hws)) in Hl |- *.
    specialize (Hl ltac:(lia)).
    destruct (loop _ _ _) as [[go s1]| |]; cbn [mbind outcome_bind]; [| |done].
    2:{ destruct Hl as (pl & rest & ? & ?). exists pl, rest. auto. }
    destruct Hl as (Hon1 & Hfd1 & pl & rest & Hun & Hrep1).
    destruct (unframed_bytes _ _ _ Hun Hbwsb) as (Hlen & Hbp & Hbr).
    assert (Forall byte (rb ++ pl)) as Hb1 by by apply Forall_app.
    destruct go; [|exists (rb ++ pl), rest; rewrite zlen_app; by split_and!; (done || lia)].
    pose proof (pop_message_any (sub o 1) s1 _ wb rest ltac:(eauto with oracle) Hrep1 Hb1) as Hp.
    destruct (pop_message (sub o 1) s1) as [[[n m] s']| |]; [|by exists pl, rest; auto|done].
    destruct Hp as (rb' & Hrep' & Hon' & Hfd' & Hb' & Hm). exists rb', rest.
    rewrite zlen_app in Hm. split_and!; [done|congruence|congruence|done|done|].
    destruct m as [[j bin]|]; [|destruct Hm as [? ->]; rewrite zlen_app]; split_and?; (done || lia).
  - pose proof (pop_message_any (sub o 1) s rb wb wsb ltac:(eauto with oracle) Hrep Hbrb) as Hp.
    destruct (pop_message (sub o 1) s) as [[[n m] s']| |]; [|done|done].
    destruct Hp as (rb' & Hrep' & Hon' & Hfd' & Hb' & Hm). exists rb', wsb.
    split_and!; [done|congruence|done|done|done|].
    destruct m as [[j bin]|]; [|destruct Hm as [? ->]]; split_and?; (done || lia).
Qed.

(** C23: popping ends, whatever bytes have arrived and whatever the allocator
    refuses: [dime_socket_pop] never loops for ever. Unless the size of a frame
    that has come to the front of the WebSocket buffer exceeds 64 bits, or the
    size of the message that has then come to the front of the inbuffer 32, it
    returns; the buffers then still hold sequences of bytes, the outbuffer the
    same as before, the bytes of both inbuffers together have become fewer by
    at least 12 if there is a message and not more if there is none, and there is a
    message only if the answer is positive. *)
Theorem socket_pop_ends o s rb wb wsb :
  oracle_sane o → sock_rep s rb wb wsb → Forall byte rb → (so_ws s = true → Forall byte wsb) →
  match dime_socket_pop o s with
  | Diverge => False
  | Undef => size_wraps (so_ws s) rb wsb
  | Ret (n, m, s') => ∃ rb' wsb', sock_rep s' rb' wb wsb' ∧ so_ws s' = so_ws s ∧
      Forall byte rb' ∧ (so_ws s = true → Forall byte wsb') ∧
      match m with
      | Some (_, bin) => 0 < n ∧ zlen rb' + zlen wsb' + 12 ≤ zlen rb + zlen wsb ∧ zlen bin ≤ MAXOBJ
      | None => n ≤ 0 ∧ zlen rb' + zlen wsb' ≤ zlen rb + zlen wsb
      end
  end.
Proof.
  intros Hs Hrep Hb Hbw. pose proof (socket_pop_any o s rb wb wsb Hs Hrep Hb Hbw) as Hp.
  destruct (dime_socket_pop o s) as [[[n m] s']| |]; [|done|done].
  destruct Hp as (rb' & wsb' & Hrep' & Hon & _ & Hb' & Hbw' & Hm). by exists rb', wsb'.
Qed.
End pop.

(** A frame that claims 13 bytes and brings none of them. *)
Lemma socket_pop_ends_witness :
  ∃ s, sock_rep s [1; 2; 3] [] [0x82; 0x80 + 13; 1; 2; 3; 4] ∧
    ∃ r, @dime_socket_pop text_json alloc_1T s = r ∧ r ≠ Diverge.
Proof.
  destruct (sock_with true [1; 2; 3] [0x82; 0x80 + 13; 1; 2; 3; 4]) as (s & Hrep & Hon);
    [vm_compute; discriminate..|].
  exists s. split; [exact Hrep|]. eexists. split; [reflexivity|].
  pose proof (@socket_pop_ends text_json alloc_1T s [1; 2; 3] [] [0x82; 0x80 + 13; 1; 2; 3; 4]
    alloc_1T_sane Hrep) as Hp.
  destruct (dime_socket_pop alloc_1T s); [done|done|]. intros _. apply Hp.
  - repeat constructor; vm_compute; discriminate.
  - intros _. repeat constructor; vm_compute; discriminate.
Defined.
