(* ===== verification/WebSocket.v ===== *)
(** * The WebSocket opening handshake ([dime_socket_init_ws] of
    [server/socket.c])

    The program reads the request of the client into a growing buffer, splits
    it into lines, checks the request line and four of the fields, and answers
    with the key the client sent, hashed. SHA-1 and base 64 come from OpenSSL
    and are arguments. *)

From S2P Require Import Prelude Ringbuffer Json Socket SocketSpec.
From Stdlib Require String DecimalString.

(** ** C strings *)

(** A NUL-terminated string in a buffer. *)
Fixpoint c_string (l : list Z) : list Z :=
  match l with [] => [] | c :: l => if c =? 0 then [] else c :: c_string l end.

(** Whether one list is the beginning of another, and what follows it. *)
Fixpoint strip_prefix (p l : list Z) : option (list Z) :=
  match p, l with
  | [], _ => Some l
  | _, [] => None
  | c :: p, d :: l => if c =? d then strip_prefix p l else None
  end.

(** [strstr]: what precedes the first occurrence and what follows it. *)
Fixpoint strstr (l p : list Z) : option (list Z * list Z) :=
  match strip_prefix p l with
  | Some rest => Some ([], rest)
  | None =>
      match l with
      | [] => None
      | c :: l => match strstr l p with Some (a, b) => Some (c :: a, b) | None => None end
      end
  end.

(** All that [strtok_r(s, delims)] answers until it answers [NULL]. *)
Fixpoint strtok_from (delims acc l : list Z) : list (list Z) :=
  match l with
  | [] => match acc with [] => [] | _ => [acc] end
  | c :: l =>
      if bool_decide (c ∈ delims) then
        match acc with [] => strtok_from delims [] l | _ => acc :: strtok_from delims [] l end
      else strtok_from delims (acc ++ [c]) l
  end.
Definition strtok (delims l : list Z) : list (list Z) := strtok_from delims [] l.

Definition isspace (c : Z) : bool := (c =? 32) || (9 <=? c) && (c <=? 13).
Definition isdigit (c : Z) : bool := (48 <=? c) && (c <=? 57).

(** ** [sscanf(line, "%7s %*s HTTP/%d.%d", method, &major, &minor)] *)

Fixpoint skip_space (l : list Z) : list Z :=
  match l with [] => [] | c :: l' => if isspace c then skip_space l' else l end.

(** The longest beginning of at most [n] bytes that satisfy a test. *)
Fixpoint span_n (n : nat) (f : Z → bool) (l : list Z) : list Z * list Z :=
  match n, l with
  | S n, c :: l' => if f c then let (a, b) := span_n n f l' in (c :: a, b) else ([], l)
  | _, _ => ([], l)
  end.

(** [%s] with a field width. *)
Definition scan_s (n : nat) (l : list Z) : option (list Z * list Z) :=
  match span_n n (λ c, negb (isspace c)) (skip_space l) with
  | ([], _) => None
  | r => Some r
  end.

Definition digits_val (ds : list Z) : Z := foldl (λ v d, 10 * v + (d - 48)) 0 ds.

Definition INT_MIN : Z := - 2 ^ 31.
Definition INT_MAX : Z := 2 ^ 31 - 1.

(** [%d]; a value that is not an [int] is undefined behaviour. *)
Definition scan_d (l : list Z) : outcome (option (Z * list Z)) :=
  let l := skip_space l in
  let '(neg, l) := match l with
                   | 45 :: l => (true, l) | 43 :: l => (false, l) | _ => (false, l)
                   end in
  match span_n (length l) isdigit l with
  | ([], _) => Ret None
  | (ds, rest) =>
      let v := if neg : bool then - digits_val ds else digits_val ds in
      if (INT_MIN <=? v) && (v <=? INT_MAX) then Ret (Some (v, rest)) else Undef
  end.

(** "HTTP/". *)
Definition http_slash : list Z := [72; 84; 84; 80; 47].

(** The three values, if [sscanf] answers 3. *)
Definition scan_request (line : list Z) : outcome (option (list Z * Z * Z)) :=
  match scan_s 7 line with
  | None => Ret None
  | Some (method, l) =>
      match scan_s (length l) l with
      | None => Ret None
      | Some (_, l) =>
          match strip_prefix http_slash (skip_space l) with
          | None => Ret None
          | Some l =>
              major ← scan_d l;
              match major with
              | Some (major, 46 :: l) =>
                  minor ← scan_d l;
                  match minor with
                  | Some (minor, _) => Ret (Some (method, major, minor))
                  | None => Ret None
                  end
              | _ => Ret None
              end
          end
      end
  end.

(** ** Reading the request *)

Record ws_env := WsEnv {
  we_block : fcntl_env;                   (* [fcntl], to make the socket blocking *)
  (* the [n]-th [recv], after some bytes, for a room *)
  we_recv : nat → list Z → Z → option (list Z);
  we_send : list Z → bool;                (* [send] takes the response *)
  we_unblock : fcntl_env;                 (* and to make it non-blocking again *)
}.

Definition crlf2 : list Z := [13; 10; 13; 10].

(** One turn of the loop: the bytes received so far and the capacity of
    [http_hdr]. [None]: [recv] or [realloc] failed. *)
Definition read_step (o : oracle) (env : ws_env) (st : nat * list Z * Z)
    : outcome (nat * list Z * Z + option (list Z)) :=
  let '(n, hdr, cap) := st in
  match we_recv env n hdr (cap - zlen hdr) with
  | None => Ret (inr None)
  | Some got =>
      let hdr := hdr ++ got in
      let ncap := if cap <=? zlen hdr then
                    let ncap := u64 (cap * 3) / 2 in if at_ o n ncap then Some ncap else None
                  else Some cap in
      match ncap with
      | None => Ret (inr None)
      | Some cap =>
          if zlen hdr <? cap then
            match strstr (c_string hdr) crlf2 with
            | Some _ => Ret (inr (Some hdr))
            | None => Ret (inl (S n, hdr, cap))
            end
          else Undef
      end
  end.

(** ** The fields *)

Record ws_fields := WsFields {
  wf_connection : option (list Z);
  wf_upgrade : option (list Z);
  wf_sec_ws_key : option (list Z);
  wf_sec_ws_version : option (list Z);
}.

Definition no_fields : ws_fields := WsFields None None None None.

Definition colon_space : list Z := [58; 32].

Section keys.
Local Open Scope string_scope.
Local Open Scope Z_scope.

(** One field; other keys are ignored. *)
Definition set_field (f : ws_fields) (key val : list Z) : ws_fields :=
  if bool_decide (key = bytes_of "Connection") then
    WsFields (Some val) (wf_upgrade f) (wf_sec_ws_key f) (wf_sec_ws_version f)
  else if bool_decide (key = bytes_of "Upgrade") then
    WsFields (wf_connection f) (Some val) (wf_sec_ws_key f) (wf_sec_ws_version f)
  else if bool_decide (key = bytes_of "Sec-WebSocket-Key") then
    WsFields (wf_connection f) (wf_upgrade f) (Some val) (wf_sec_ws_version f)
  else if bool_decide (key = bytes_of "Sec-WebSocket-Version") then
    WsFields (wf_connection f) (wf_upgrade f) (wf_sec_ws_key f) (Some val)
  else f.

(** [None]: a line without a delimiter. *)
Fixpoint parse_fields (f : ws_fields) (lines : list (list Z)) : option ws_fields :=
  match lines with
  | [] => Some f
  | line :: lines =>
      match strstr line colon_space with
      | None => None
      | Some (key, val) => parse_fields (set_field f key val) lines
      end
  end.

(** The key, if the fields ask for version 13 of the protocol. *)
Definition ws_key (f : ws_fields) : option (list Z) :=
  match wf_connection f, wf_upgrade f, wf_sec_ws_key f, wf_sec_ws_version f with
  | Some connection, Some upgrade, Some key, Some version =>
      match strstr connection (bytes_of "Upgrade") with
      | Some _ =>
          if bool_decide (upgrade = bytes_of "websocket") && negb (zlen key =? 0) &&
             bool_decide (version = bytes_of "13")
          then Some key else None
      | None => None
      end
  | _, _, _, _ => None
  end.

Definition ws_guid : list Z := bytes_of "258EAFA5-E914-47DA-95CA-C5AB0DC85B11".

(** [%d]. *)
Definition print_d (z : Z) : list Z :=
  bytes_of (DecimalString.NilZero.string_of_int (Z.to_int z)).

Definition crlf : list Z := [13; 10].

Definition ws_response (major minor : Z) (accept : list Z) : list Z :=
  bytes_of "HTTP/" ++ print_d major ++ [46] ++ print_d minor
    ++ bytes_of " 101 Switching Protocols" ++ crlf
    ++ bytes_of "Connection: Upgrade" ++ crlf
    ++ bytes_of "Upgrade: websocket" ++ crlf
    ++ bytes_of "Sec-WebSocket-Accept: " ++ accept ++ crlf2.

Section init_ws.
Variable sha1 : list Z → list Z.
Variable encode_block : list Z → list Z.

(** What to answer to a request that has been read: [None] for an error, else
    the response. *)
Definition ws_answer (http_hdr : list Z) : outcome (option (list Z)) :=
  match strtok crlf (c_string http_hdr) with
  | [] => Undef
  | line :: lines =>
      r ← scan_request line;
      match r with
      | None => Ret None
      | Some (method, major, minor) =>
          if bool_decide (method = bytes_of "GET") then
            let v := major * 10 in
            if (INT_MIN <=? v) && (v <=? INT_MAX) && (INT_MIN <=? v + minor)
               && (v + minor <=? INT_MAX) then
              if v + minor <? 11 then Ret None
              else
                match parse_fields no_fields lines with
                | None => Ret None
                | Some f =>
                    match ws_key f with
                    | None => Ret None
                    | Some key =>
                        let response := ws_response major minor
                                          (encode_block (sha1 (key ++ ws_guid))) in
                        if zlen response <? 200 then Ret (Some response) else Undef
                    end
                end
            else Undef
          else Ret None
      end
  end.

(** How long the client takes to send its request is not bounded: [fuel] is
    the number of calls of [recv]. The response is the second component. *)
Definition dime_socket_init_ws (fuel : nat) (o : oracle) (env : ws_env) (s : dime_socket)
    : outcome (Z * option (list Z) * dime_socket) :=
  if dime_socket_setnonblocking (we_block env) false <? 0 then Ret (-1, None, s)
  else
    if at_ o 0 500 then
      hdr ← loop (read_step (sub o 1) env) fuel (0%nat, [], 500);
      match hdr with
      | None => Ret (-1, None, s)
      | Some hdr =>
          r ← ws_answer hdr;
          match r with
          | None => Ret (-1, None, s)
          | Some response =>
              if we_send env response then
                if dime_socket_setnonblocking (we_unblock env) true <? 0 then
                  Ret (0, Some response, s)
                else
                  let (rc, r) := dime_ringbuffer_init (at_ o 2) in
                  Ret (if rc <? 0 then -1 else 0, Some response, with_ws s true r)
              else Ret (-1, None, s)
          end
      end
    else Ret (-1, None, s).
End init_ws.
End keys.

(** ** Reading *)

(** [recv] delivers at most as many bytes as there is room for. *)
Definition recv_fits (env : ws_env) : Prop :=
  ∀ n hdr room got, we_recv env n hdr room = Some got → zlen got ≤ room.

(** The network delivers the bytes of [req], in pieces of any size. *)
Definition streams (env : ws_env) (req : list Z) : Prop :=
  ∀ n hdr rest room, req = hdr ++ rest → rest ≠ [] → 0 < room →
  ∃ got rest', we_recv env n hdr room = Some got ∧ rest = got ++ rest' ∧ got ≠ [] ∧
    zlen got ≤ room.

(** The same of a network that may break down at any point: [recv] then
    fails. *)
Definition delivers (env : ws_env) (req : list Z) : Prop :=
  ∀ n hdr rest room, req = hdr ++ rest → rest ≠ [] → 0 < room →
  we_recv env n hdr room = None ∨
  ∃ got rest', we_recv env n hdr room = Some got ∧ rest = got ++ rest' ∧ got ≠ [] ∧
    zlen got ≤ room.

Lemma streams_delivers env req : streams env req → delivers env req.
Proof. intros Hst n hdr rest room Hreq Hne Hroom. right. by apply (Hst n hdr). Qed.

(** The buffer always has a free byte for the terminator. *)
Lemma read_step_ok o env n hdr cap :
  oracle_sane o → recv_fits env → 500 ≤ cap ≤ MAXOBJ → zlen hdr < cap →
  returns (read_step o env (n, hdr, cap)) (λ r, ∀ n' hdr' cap', r = inl (n', hdr', cap') →
    500 ≤ cap' ≤ MAXOBJ ∧ zlen hdr' < cap').
Proof.
  intros Hs Hfits Hcap Hhdr. unfold MAXOBJ in *. cbn [read_step].
  destruct (we_recv env n hdr (cap - zlen hdr)) as [got|] eqn:Erecv; [|done].
  apply Hfits in Erecv. pose proof (zlen_nonneg got). pose proof (zlen_nonneg hdr).
  assert (zlen (hdr ++ got) ≤ cap) by (rewrite zlen_app; lia). unwrap.
  assert (∀ c, 500 ≤ c ≤ 2 ^ 47 → zlen (hdr ++ got) < c →
    returns (if zlen (hdr ++ got) <? c
      then match strstr (c_string (hdr ++ got)) crlf2 with
           | Some _ => Ret (inr (Some (hdr ++ got)))
           | None => Ret (inl (S n, hdr ++ got, c))
           end
      else Undef) (λ r, ∀ n' hdr' cap', r = inl (n', hdr', cap') →
        500 ≤ cap' ≤ 2 ^ 47 ∧ zlen hdr' < cap')) as Hend.
  { intros c Hc Hlt. rewrite (proj2 (Z.ltb_lt _ _)) by done.
    destruct (strstr _ _); simpl; [done|]. by intros n' hdr' cap' [= <- <- <-]. }
  destruct (Z.leb_spec cap (zlen (hdr ++ got))); [|by apply Hend].
  destruct (at_ o n (cap * 3 / 2)) eqn:Eal; [|done].
  apply (oracle_sane_at o n Hs) in Eal. unfold MAXOBJ in *. apply Hend; dlia.
Qed.

Lemma read_loop_ok o env fuel : ∀ n hdr cap,
  oracle_sane o → recv_fits env → 500 ≤ cap ≤ MAXOBJ → zlen hdr < cap →
  loop (read_step o env) fuel (n, hdr, cap) ≠ Undef.
Proof.
  induction fuel as [|fuel IH]; intros n hdr cap Hs Hfits Hcap Hhdr; [done|].
  cbn [loop]. pose proof (read_step_ok o env n hdr cap Hs Hfits Hcap Hhdr) as Hr.
  apply returns_eq in Hr as ([[[n' hdr'] cap']|r] & -> & Hr); [|done].
  cbn [mbind outcome_bind]. destruct (Hr _ _ _ eq_refl). by apply IH.
Qed.

(** ** Requests *)

(** No terminator. *)
Lemma c_string_id l : 0 ∉ l → c_string l = l.
Proof.
  induction l as [|c l IH]; intros Hl; [done|]. cbn [c_string].
  rewrite (proj2 (Z.eqb_neq _ _)) by set_solver. rewrite IH by set_solver. done.
Qed.

Lemma strip_prefix_app p l : strip_prefix p (p ++ l) = Some l.
Proof. induction p as [|c p IH]; [by destruct l|]. simpl. by rewrite Z.eqb_refl. Qed.

Lemma strstr_eq l p :
  strstr l p = match strip_prefix p l with
               | Some rest => Some ([], rest)
               | None => match l with
                         | [] => None
                         | c :: l => match strstr l p with
                                     | Some (a, b) => Some (c :: a, b) | None => None
                                     end
                         end
               end.
Proof. by destruct l. Qed.

Lemma strstr_at l p rest c p' :
  p = c :: p' → c ∉ l → strstr (l ++ p ++ rest) p = Some (l, rest).
Proof.
  intros -> Hl. induction l as [|d l IH].
  - by rewrite app_nil_l, strstr_eq, strip_prefix_app.
  - rewrite <-app_comm_cons, strstr_eq. cbn [strip_prefix].
    rewrite (proj2 (Z.eqb_neq c d)) by set_solver. by rewrite IH by set_solver.
Qed.

(** [strtok] on lines with their ends. *)
Definition line_ok (l : list Z) : Prop := l ≠ [] ∧ 13 ∉ l ∧ 10 ∉ l ∧ 0 ∉ l.

Lemma strtok_line acc l rest :
  13 ∉ l → 10 ∉ l →
  strtok_from crlf acc (l ++ crlf ++ rest)
  = match acc ++ l with [] => strtok_from crlf [] rest | t => t :: strtok_from crlf [] rest end.
Proof.
  revert acc. induction l as [|c l IH]; intros acc H13 H10.
  - rewrite app_nil_r. cbn. by destruct acc.
  - rewrite <-app_comm_cons. cbn [strtok_from].
    rewrite bool_decide_eq_false_2 by (unfold crlf; set_solver).
    rewrite IH by set_solver. by rewrite <-app_assoc.
Qed.

Definition lines (ls : list (list Z)) : list Z := concat ((λ l, l ++ crlf) <$> ls).

Lemma strtok_lines ls :
  Forall line_ok ls → strtok crlf (lines ls ++ crlf) = ls.
Proof.
  unfold strtok, lines. induction 1 as [|l ls (Hne & H13 & H10 & _) Hls IH]; [done|].
  cbn [fmap list_fmap concat]. rewrite <-!app_assoc. rewrite strtok_line by done. rewrite IH.
  cbn [app]. by destruct l.
Qed.

Lemma lines_no_nul ls : Forall line_ok ls → 0 ∉ lines ls ++ crlf.
Proof.
  unfold lines. induction 1 as [|l ls (Hne & H13 & H10 & H0) Hls IH]; [unfold crlf; set_solver|].
  cbn [fmap list_fmap concat]. unfold crlf in *. set_solver.
Qed.

(** The fields of a request. *)
Definition field_ok (f : list Z * list Z) : Prop :=
  58 ∉ f.1 ∧ 13 ∉ f.1 ++ f.2 ∧ 10 ∉ f.1 ++ f.2 ∧ 0 ∉ f.1 ++ f.2.

Definition field_line (f : list Z * list Z) : list Z := f.1 ++ colon_space ++ f.2.

Lemma field_line_ok f : field_ok f → line_ok (field_line f).
Proof.
  intros (? & ? & ? & ?). unfold field_line, colon_space, line_ok. destruct f as [k v]. simpl in *.
  split; [by destruct k|]. set_solver.
Qed.

(** The value of the last field of a name. *)
Definition field_of (name : string) (fs : list (list Z * list Z)) : option (list Z) :=
  snd <$> last (filter (λ kv, kv.1 = bytes_of name) fs).

(** What section 4.2.1 of RFC 6455 asks of the fields of a request; names and
    values are compared with their case. *)
Definition asks_upgrade (fs : list (list Z * list Z)) (key : list Z) : Prop :=
  (∃ a b, field_of "Connection" fs = Some (a ++ bytes_of "Upgrade"%string ++ b)) ∧
  field_of "Upgrade" fs = Some (bytes_of "websocket"%string) ∧
  field_of "Sec-WebSocket-Key" fs = Some key ∧ key ≠ [] ∧
  field_of "Sec-WebSocket-Version" fs = Some (bytes_of "13"%string).

Lemma field_of_snoc name fs kv :
  field_of name (fs ++ [kv]) = if bool_decide (kv.1 = bytes_of name) then Some kv.2 else field_of name fs.
Proof.
  unfold field_of. rewrite filter_app, filter_cons, filter_nil. case_bool_decide as Hk.
  - rewrite decide_True by done. by rewrite last_snoc.
  - rewrite decide_False by done. by rewrite app_nil_r.
Qed.

Lemma set_fields_spec fs :
  foldl (λ f kv, set_field f kv.1 kv.2) no_fields fs
  = WsFields (field_of "Connection" fs) (field_of "Upgrade" fs)
      (field_of "Sec-WebSocket-Key" fs) (field_of "Sec-WebSocket-Version" fs).
Proof.
  induction fs as [|[k v] fs IH] using rev_ind; [done|].
  rewrite foldl_app. cbn [foldl]. rewrite IH, !field_of_snoc. cbn [fst snd]. unfold set_field.
  do 4 (match goal with |- context [bool_decide (k = ?x)] =>
          destruct (decide (k = x)) as [->|]; [reflexivity|rewrite !(bool_decide_eq_false_2 (k = x)) by done]
        end). done.
Qed.

Lemma parse_fields_lines fs : ∀ f,
  Forall field_ok fs →
  parse_fields f (field_line <$> fs) = Some (foldl (λ f kv, set_field f kv.1 kv.2) f fs).
Proof.
  induction fs as [|[k v] fs IH]; intros f Hfs; [done|]. inversion_clear Hfs as [|? ? Hok Hfs'].
  cbn [fmap list_fmap parse_fields].
  assert (strstr (field_line (k, v)) colon_space = Some (k, v)) as ->.
  { apply (strstr_at k colon_space v 58 [32]); [done|apply Hok]. }
  by apply IH.
Qed.

(** A path as clients send it. *)
Definition path_ok (path : list Z) : Prop :=
  path ≠ [] ∧ ∀ c, c ∈ path → isspace c = false ∧ c ≠ 0.

Definition request_line (path : list Z) : list Z :=
  bytes_of "GET "%string ++ path ++ bytes_of " HTTP/1.1"%string.

Definition request (path : list Z) (fs : list (list Z * list Z)) : list Z :=
  lines (request_line path :: (field_line <$> fs)) ++ crlf.

Lemma span_n_all f l rest n :
  (∀ c, c ∈ l → f c = true) → (∀ c rest', rest = c :: rest' → f c = false) →
  (length l < n)%nat → span_n n f (l ++ rest) = (l, rest).
Proof.
  revert n. induction l as [|c l IH]; intros [|n] Hl Hrest Hn; simpl in Hn; try lia.
  - destruct rest as [|c rest]; [done|]. simpl. by rewrite (Hrest c rest).
  - simpl. rewrite Hl by by left. rewrite IH; [done| |done|lia]. intros d Hd. apply Hl. by right.
Qed.

Lemma scan_request_line path :
  path_ok path → scan_request (request_line path) = Ret (Some (bytes_of "GET"%string, 1, 1)).
Proof.
  intros [Hne Hpath]. unfold scan_request, request_line.
  change (bytes_of "GET "%string) with ([71; 69; 84] ++ [32]).
  change (bytes_of " HTTP/1.1"%string) with (32 :: http_slash ++ [49; 46; 49]).
  unfold scan_s at 1. rewrite <-app_assoc.
  change (skip_space ([71; 69; 84] ++ [32] ++ path ++ 32 :: http_slash ++ [49; 46; 49]))
    with ([71; 69; 84] ++ [32] ++ path ++ 32 :: http_slash ++ [49; 46; 49]).
  rewrite span_n_all; [| | |simpl; lia].
  2:{ intros c Hc. repeat (apply elem_of_cons in Hc as [->|Hc]; [done|]).
      by apply not_elem_of_nil in Hc. }
  2:{ by intros c rest' [= <- _]. }
  unfold scan_s.
  assert (skip_space ([32] ++ path ++ 32 :: http_slash ++ [49; 46; 49])
    = path ++ 32 :: http_slash ++ [49; 46; 49]) as ->.
  { cbn [app skip_space]. change (isspace 32) with true. cbv iota.
    destruct path as [|c path]; [done|]. cbn [app skip_space].
    by rewrite (proj1 (Hpath c ltac:(by left))). }
  rewrite span_n_all.
  - destruct path as [|c path'] eqn:Ep; [done|]. reflexivity.
  - intros c Hc. by rewrite (proj1 (Hpath c Hc)).
  - by intros c rest' [= <- _].
  - rewrite length_app. simpl. rewrite length_app. lia.
Qed.

(** ** The end of a request *)

Lemma strip_prefix_Some p l r : strip_prefix p l = Some r → l = p ++ r.
Proof.
  revert l. induction p as [|c p IH]; intros l; [destruct l; by intros [= <-]|].
  destruct l as [|d l]; [done|]. simpl. destruct (Z.eqb_spec c d); [|done]. subst.
  intros Hr. by rewrite (IH _ Hr).
Qed.

Lemma strstr_Some p l : ∀ a b, strstr l p = Some (a, b) → l = a ++ p ++ b.
Proof.
  induction l as [|c l IH]; intros a b; rewrite strstr_eq;
    (destruct (strip_prefix p _) eqn:E; [intros [= <- <-]; exact (strip_prefix_Some _ _ _ E)|]); [done|].
  destruct (strstr l p) as [[a' b']|]; [|done]. intros [= <- <-]. simpl. f_equal. by apply IH.
Qed.

Lemma strstr_contains p l : (∃ ab, strstr l p = Some ab) ↔ ∃ a b, l = a ++ p ++ b.
Proof.
  split.
  - intros [[a b] Hl%strstr_Some]. eauto.
  - intros (a & b & ->). revert a. induction a as [|c a [ab IH]].
    + rewrite app_nil_l, strstr_eq, strip_prefix_app. eauto.
    + rewrite <-app_comm_cons, strstr_eq. destruct (strip_prefix p _); [eauto|].
      rewrite IH. destruct ab. eauto.
Qed.

Lemma ws_key_asks fs key :
  ws_key (foldl (λ f kv, set_field f kv.1 kv.2) no_fields fs) = Some key ↔ asks_upgrade fs key.
Proof.
  rewrite set_fields_spec. unfold asks_upgrade, ws_key.
  cbn [wf_connection wf_upgrade wf_sec_ws_key wf_sec_ws_version].
  set (c := field_of "Connection" fs). set (u := field_of "Upgrade" fs).
  set (k := field_of "Sec-WebSocket-Key" fs). set (v := field_of "Sec-WebSocket-Version" fs).
  clearbody c u k v. split.
  - destruct c as [c|]; [|done]. destruct u as [u|]; [|done]. destruct k as [k|]; [|done].
    destruct v as [v|]; [|done]. destruct (strstr c _) as [ab|] eqn:E; [|done].
    destruct (proj1 (strstr_contains _ _) (ex_intro _ _ E)) as (a & b & ->).
    do 2 (case_bool_decide; [|done || (rewrite andb_false_r; done)]). subst.
    destruct (Z.eqb_spec (zlen k) 0); [done|]. intros [= ->].
    split_and!; eauto. by intros ->.
  - intros ((a & b & ->) & -> & -> & Hne & ->).
    destruct (proj2 (strstr_contains (bytes_of "Upgrade"%string) _)
      (ex_intro _ a (ex_intro _ b eq_refl))) as [ab ->].
    rewrite !bool_decide_eq_true_2 by done.
    destruct (Z.eqb_spec (zlen key) 0) as [Hz|]; [|done]. destruct key; [done|zlia].
Qed.

Lemma strstr_first p a b : ∃ a' b', strstr (a ++ p ++ b) p = Some (a', b') ∧
  (length a' ≤ length a)%nat.
Proof.
  induction a as [|c a IH].
  - exists [], b. by rewrite app_nil_l, strstr_eq, strip_prefix_app.
  - destruct IH as (a' & b' & Heq & Hle). rewrite <-app_comm_cons, strstr_eq.
    destruct (strip_prefix p _) as [r|]; [exists [], r; split; [done|simpl; lia]|].
    rewrite Heq. exists (c :: a'), b'. split; [done|]. simpl. lia.
Qed.

(** A text that ends with the first occurrence of [p] has no beginning with an
    occurrence. *)
Lemma strstr_end p req a hdr rest :
  strstr req p = Some (a, []) → req = hdr ++ rest → rest ≠ [] → strstr hdr p = None.
Proof.
  intros Hreq -> Hne. destruct (strstr hdr p) as [[a' b']|] eqn:E; [|done].
  apply strstr_Some in E. subst hdr. rewrite <-!app_assoc in Hreq.
  destruct (strstr_first p a' (b' ++ rest)) as (a2 & b2 & Heq & Hle).
  pose proof (strstr_Some _ _ _ _ Hreq) as Hl. rewrite Heq in Hreq. injection Hreq as -> ->.
  apply (f_equal length) in Hl. rewrite !length_app in Hl. simpl in Hl.
  destruct rest; [done|]. simpl in Hl. lia.
Qed.

Lemma strstr_skip p l x a b :
  (∀ x1 c x2, x = x1 ++ c :: x2 → strip_prefix p (c :: x2 ++ l) = None) →
  strstr l p = Some (a, b) → strstr (x ++ l) p = Some (x ++ a, b).
Proof.
  intros Hx Hl. induction x as [|c x IH]; [done|].
  rewrite <-app_comm_cons, strstr_eq. rewrite (Hx [] c x) by done.
  rewrite IH; [done|]. intros x1 d x2 ->. apply (Hx (c :: x1)). done.
Qed.

(** No line is empty, so that the empty line is the last. *)
Lemma strstr_lines ls :
  Forall line_ok ls → ls ≠ [] → ∃ a, strstr (lines ls ++ crlf) crlf2 = Some (a, []).
Proof.
  induction 1 as [|l ls Hl Hls IH]; [done|]. intros _. destruct Hl as (Hne & H13 & H10 & H0).
  unfold lines in *. cbn [fmap list_fmap concat]. rewrite <-!app_assoc. destruct ls as [|l' ls].
  - exists l. by apply (strstr_at l crlf2 [] 13 [10; 13; 10]).
  - destruct IH as [a Ha]; [done|]. inversion_clear Hls as [|? ? Hl' _].
    exists ((l ++ crlf) ++ a). rewrite app_assoc. apply strstr_skip; [|done].
    destruct Hl' as (Hne' & H13' & _). destruct l' as [|d l']; [done|].
    intros x1 c x2 Heq. apply eq_None_not_Some. intros [r Hr%strip_prefix_Some].
    cbn [fmap list_fmap concat app] in Hr. unfold crlf2 in Hr.
    replace (l ++ crlf) with ((l ++ [13]) ++ [10]) in Heq by by rewrite <-app_assoc.
    destruct x2 as [|e x2 _] using rev_ind.
    { by apply app_inj_2 in Heq as [_ [= <-]]. }
    rewrite app_comm_cons, app_assoc in Heq. apply app_inj_2 in Heq as [Heq [= <-]]; [|done].
    destruct x2 as [|f x2 _] using rev_ind.
    + apply app_inj_2 in Heq as [_ [= <-]]; [|done]. injection Hr as -> _. set_solver.
    + rewrite app_comm_cons, app_assoc in Heq. apply app_inj_2 in Heq as [Heq [= <-]]; [|done].
      injection Hr as -> _. set_solver.
Qed.

(** ** Properties *)

Section props.
Variable sha1 : list Z → list Z.
Variable encode_block : list Z → list Z.

Lemma zlen_ws_response accept :
  zlen accept = 28 → zlen (ws_response 1 1 accept) = 129.
Proof. intros Ha. unfold ws_response. rewrite !zlen_app, Ha. by vm_compute. Qed.

(** What section 4.2.2 of RFC 6455 has the server answer to a key: the accept
    field is the key with the GUID of the protocol, hashed and encoded. *)
Definition rfc_accept (key : list Z) : list Z :=
  encode_block (sha1 (key ++ bytes_of "258EAFA5-E914-47DA-95CA-C5AB0DC85B11"%string)).

Definition rfc_response (key : list Z) : list Z :=
  lines [bytes_of "HTTP/1.1 101 Switching Protocols"%string;
         bytes_of "Connection: Upgrade"%string;
         bytes_of "Upgrade: websocket"%string;
         bytes_of "Sec-WebSocket-Accept: "%string ++ rfc_accept key] ++ crlf.

Lemma response_prescribed key :
  ws_response 1 1 (encode_block (sha1 (key ++ ws_guid))) = rfc_response key.
Proof.
  unfold rfc_response, rfc_accept, ws_guid, lines. cbn [fmap list_fmap concat].
  unfold ws_response. rewrite <-!app_assoc. done.
Qed.

Lemma request_line_ok path : path_ok path → line_ok (request_line path).
Proof.
  intros [Hne Hpath]. unfold request_line.
  assert (∀ c, c ∈ [13; 10; 0] → c ∉ path) as Hno.
  { intros c Hc Hin. destruct (Hpath _ Hin) as [Hs H0].
    repeat (apply elem_of_cons in Hc as [->|Hc]; [done|]). by apply not_elem_of_nil in Hc. }
  assert (∀ c, c ∈ [13; 10; 0] → c ∉ bytes_of "GET "%string ++ path ++ bytes_of " HTTP/1.1"%string)
    as Hno'.
  { intros c Hc. rewrite !not_elem_of_app. split_and!; [|by apply Hno|];
      repeat (apply elem_of_cons in Hc as [->|Hc]; [apply (bool_decide_unpack _); by vm_compute|]);
      by apply not_elem_of_nil in Hc. }
  split; [done|]. split_and!; apply Hno'; set_solver.
Qed.

Lemma request_lines_ok path fs :
  path_ok path → Forall field_ok fs → Forall line_ok (request_line path :: (field_line <$> fs)).
Proof.
  intros Hp Hfs. constructor; [by apply request_line_ok|].
  apply Forall_fmap. eapply Forall_impl; [done|]. apply field_line_ok.
Qed.

Lemma ws_answer_request path fs :
  path_ok path → Forall field_ok fs → (∀ x, zlen (encode_block (sha1 x)) = 28) →
  ws_answer sha1 encode_block (request path fs)
  = Ret (rfc_response <$> ws_key (foldl (λ f kv, set_field f kv.1 kv.2) no_fields fs)).
Proof.
  intros Hp Hfs Henc. pose proof (request_lines_ok _ _ Hp Hfs) as Hlines.
  unfold ws_answer, request. rewrite c_string_id by by apply lines_no_nul.
  rewrite strtok_lines by done. rewrite scan_request_line by done. cbn [mbind outcome_bind].
  rewrite bool_decide_eq_true_2 by done. cbn -[ws_key parse_fields ws_response].
  rewrite parse_fields_lines by done.
  destruct (ws_key _) as [key|]; [|done]. rewrite zlen_ws_response by done.
  change (129 <? 200) with true. cbn -[ws_response rfc_response]. by rewrite response_prescribed.
Qed.

(** A turn of the loop gives up, because [recv] or [realloc] failed, has the
    whole request, or goes on with less left to come. *)
Lemma read_step_delivers o env req a n hdr rest cap :
  oracle_sane o → delivers env req → 0 ∉ req → strstr req crlf2 = Some (a, []) →
  req = hdr ++ rest → rest ≠ [] → 500 ≤ cap ≤ MAXOBJ → zlen hdr < cap →
  (read_step o env (n, hdr, cap) = Ret (inr None) ∧
     (we_recv env n hdr (cap - zlen hdr) = None ∨
      ∃ ncap, at_ o n ncap = false ∧ 2 * ncap ≤ 3 * cap ∧ cap ≤ zlen req)) ∨
  read_step o env (n, hdr, cap) = Ret (inr (Some req)) ∨
  ∃ hdr' rest' cap', read_step o env (n, hdr, cap) = Ret (inl (S n, hdr', cap')) ∧
    req = hdr' ++ rest' ∧ rest' ≠ [] ∧ 500 ≤ cap' ≤ MAXOBJ ∧ zlen hdr' < cap' ∧
    (cap' = cap ∨ 2 * cap' ≤ 3 * cap ∧ cap ≤ zlen req) ∧ (length rest' < length rest)%nat.
Proof.
  intros Hs Hst H0 Hend Hreq Hne Hcap Hlt. unfold MAXOBJ in *. cbn [read_step].
  destruct (Hst n hdr rest (cap - zlen hdr) Hreq Hne) as [->|(got & rest' & Hrecv & -> & Hgne & Hroom)];
    [lia|by auto|]. rewrite Hrecv.
  assert (zlen (hdr ++ got) ≤ cap ∧ zlen (hdr ++ got) ≤ zlen req) as [Hle Hle'].
  { rewrite Hreq, !zlen_app. pose proof (zlen_nonneg rest'). lia. }
  rewrite app_assoc in Hreq. assert (length rest' < length (got ++ rest'))%nat as Hless.
  { rewrite length_app. destruct got; [done|]. simpl. lia. }
  assert (∀ ncap, zlen (hdr ++ got) < ncap →
    (if zlen (hdr ++ got) <? ncap
     then match strstr (c_string (hdr ++ got)) crlf2 with
          | Some _ => Ret (inr (Some (hdr ++ got)))
          | None => Ret (inl (S n, hdr ++ got, ncap))
          end
     else Undef)
    = if decide (rest' = []) then Ret (inr (Some req)) else Ret (inl (S n, hdr ++ got, ncap))) as Hgo.
  { intros ncap Hn. rewrite (proj2 (Z.ltb_lt _ _)) by done.
    rewrite c_string_id by (rewrite Hreq in H0; set_solver). case_decide as Hnil.
    - rewrite Hnil, app_nil_r in Hreq. by rewrite <-Hreq, Hend.
    - by rewrite (strstr_end _ _ _ _ _ Hend Hreq). }
  destruct (Z.leb_spec cap (zlen (hdr ++ got))) as [Hfull|Hfree].
  - unwrap. destruct (at_ o n (cap * 3 / 2)) eqn:Eal.
    2:{ left. split; [done|]. right. exists (cap * 3 / 2). split; [done|]. dlia. }
    apply (oracle_sane_at o n Hs) in Eal. unfold MAXOBJ in Eal. rewrite Hgo by dlia.
    right. case_decide; [by left|right].
    exists (hdr ++ got), rest', (cap * 3 / 2). split_and!; try done; dlia.
  - rewrite Hgo by done. right. case_decide; [by left|right].
    exists (hdr ++ got), rest', cap. split_and!; try done; lia.
Qed.

Lemma read_loop_delivers o env req a fuel : ∀ n hdr rest cap,
  oracle_sane o → delivers env req → 0 ∉ req → strstr req crlf2 = Some (a, []) →
  req = hdr ++ rest → rest ≠ [] → 500 ≤ cap ≤ MAXOBJ → zlen hdr < cap → (length rest ≤ fuel)%nat →
  ∃ r, loop (read_step o env) fuel (n, hdr, cap) = Ret r ∧ (r = None ∨ r = Some req).
Proof.
  induction fuel as [|fuel IH];
    intros n hdr rest cap Hs Hst H0 Hend Hreq Hne Hcap Hlt Hf; cbn [loop].
  { destruct rest; [done|]. simpl in Hf. lia. }
  destruct (read_step_delivers o env req a n hdr rest cap)
    as [[-> _]|[->|(hdr' & rest' & cap' & -> & Hreq' & Hne' & Hcap' & Hlt' & _ & Hlen)]]; try done;
    [by eauto..|]. cbn [mbind outcome_bind]. apply (IH _ _ rest'); try done. lia.
Qed.

Lemma read_loop_streams o limit env req a fuel : ∀ n hdr rest cap,
  oracle_sane o → grants o limit → streams env req → 500 + 2 * zlen req ≤ limit → 0 ∉ req →
  strstr req crlf2 = Some (a, []) → req = hdr ++ rest → rest ≠ [] → 500 ≤ cap ≤ limit →
  zlen hdr < cap → (length rest ≤ fuel)%nat →
  loop (read_step o env) fuel (n, hdr, cap) = Ret (Some req).
Proof.
  induction fuel as [|fuel IH];
    intros n hdr rest cap Hs Hg Hst Hlim H0 Hend Hreq Hne Hcap Hlt Hf; cbn [loop].
  { destruct rest; [done|]. simpl in Hf. lia. }
  pose proof (grants_limit _ _ Hs Hg) as Hmax.
  destruct (read_step_delivers o env req a n hdr rest cap)
    as [[_ [Hno|(k & Hno & Hk & Hle)]]|[->|(hdr' & rest' & cap' & -> & Hreq' & Hne' & Hcap' & Hlt' & Hgrow & Hlen)]];
    try done; [by apply streams_delivers|lia|..].
  - destruct (Hst n hdr rest (cap - zlen hdr) Hreq Hne) as (got & ? & Hgot & _); [lia|]. congruence.
  - unfold at_ in Hno. rewrite Hg in Hno; [done|lia].
  - cbn [mbind outcome_bind]. apply (IH _ _ rest'); try done; lia.
Qed.

(** A client that sends an HTTP request with any fields, or breaks off with
    an error, and a number of calls of [recv] that is enough for it. *)
Definition http_client (ws : nat * ws_env) : Prop :=
  ∃ path fs, path_ok path ∧ Forall field_ok fs ∧ delivers ws.2 (request path fs) ∧
    (length (request path fs) ≤ ws.1)%nat.

(** What a WebSocket connection can rely on: such a client, and that 20 bytes
    are encoded as 28 characters. *)
Definition ws_peer (ws : nat * ws_env) : Prop :=
  http_client ws ∧ ∀ x, zlen (encode_block (sha1 x)) = 28.

(** Whatever memory there is, the handshake with such a client ends. *)
Lemma init_ws_returns o ws s :
  oracle_sane o → ws_peer ws →
  ∃ rc resp s', dime_socket_init_ws sha1 encode_block ws.1 o ws.2 s = Ret (rc, resp, s').
Proof.
  intros Hs [(path & fs & Hp & Hfs & Hst & Hfuel) Henc].
  pose proof (request_lines_ok _ _ Hp Hfs) as Hlines.
  destruct (strstr_lines _ Hlines ltac:(done)) as [a Ha].
  unfold dime_socket_init_ws. destruct (_ <? 0); [eauto|]. destruct (at_ o 0 500); [|eauto].
  destruct (read_loop_delivers (sub o 1) ws.2 (request path fs) a ws.1 0 [] (request path fs) 500)
    as (r & -> & Hr); eauto with oracle;
    [by apply lines_no_nul|unfold MAXOBJ; lia|done|].
  cbn [mbind outcome_bind]. destruct Hr as [-> | ->]; [eauto|].
  rewrite ws_answer_request by done. cbn [mbind outcome_bind].
  destruct (ws_key _) as [key|]; [|eauto]. simpl. destruct (we_send _ _); [|eauto].
  destruct (_ <? 0); [eauto|]. destruct (dime_ringbuffer_init _). eauto.
Qed.

(** Whether it ends does not depend on the socket. *)
Lemma init_ws_any_sock o ws s r :
  dime_socket_init_ws sha1 encode_block ws.1 o ws.2 s = Ret r →
  ∀ s1, ∃ rc resp s', dime_socket_init_ws sha1 encode_block ws.1 o ws.2 s1 = Ret (rc, resp, s').
Proof.
  unfold dime_socket_init_ws. intros Hr s1.
  destruct (_ <? 0); [eauto|]. destruct (at_ o 0 500); [|eauto].
  destruct (loop _ _ _) as [[hdr|]| |]; cbn [mbind outcome_bind] in *; [|eauto|done|done].
  destruct (ws_answer _ _ _) as [[resp|]| |]; cbn [mbind outcome_bind] in *; [|eauto|done|done].
  destruct (we_send _ _); [|eauto]. destruct (_ <? 0); [eauto|].
  destruct (dime_ringbuffer_init _). eauto.
Qed.

(** The whole function on a request. *)
Lemma init_ws_request o limit env s path fs :
  oracle_sane o → grants o limit →
  (dime_socket_setnonblocking (we_block env) false <? 0) = false →
  (dime_socket_setnonblocking (we_unblock env) true <? 0) = false →
  path_ok path → Forall field_ok fs → (∀ x, zlen (encode_block (sha1 x)) = 28) →
  streams env (request path fs) → 262144 + 2 * zlen (request path fs) ≤ limit →
  ∃ r, ring_rep r [] ∧
    dime_socket_init_ws sha1 encode_block (length (request path fs)) o env s
    = Ret (match ws_key (foldl (λ f kv, set_field f kv.1 kv.2) no_fields fs) with
           | None => (-1, None, s)
           | Some key =>
               if we_send env (rfc_response key)
               then (0, Some (rfc_response key), with_ws s true r) else (-1, None, s)
           end).
Proof.
  intros Hs Hg Hblock Hunblock Hp Hfs Henc Hst Hlim.
  pose proof (request_lines_ok _ _ Hp Hfs) as Hlines. set (req := request path fs) in *.
  destruct (strstr_lines _ Hlines ltac:(done)) as [a Ha]. pose proof (zlen_nonneg req).
  assert (req ≠ []) as Hne.
  { unfold req, request. intros [_ ?]%app_nil. done. }
  unfold dime_socket_init_ws. rewrite Hblock. unfold at_. rewrite Hg by lia.
  rewrite (read_loop_streams (sub o 1) limit env req a _ 0 [] req 500); eauto with oracle; try lia;
    [|by apply lines_no_nul|by rewrite zlen_nil].
  cbn [mbind outcome_bind]. unfold req. rewrite ws_answer_request by done.
  cbn [mbind outcome_bind].
  destruct (dime_ringbuffer_init (at_ o 2)) as [rc r] eqn:Er.
  assert (rc = 0) as ->.
  { revert Er. unfold dime_ringbuffer_init, malloc. unfold at_. rewrite Hg by lia. by intros [= <- _]. }
  exists r. split; [eapply ring_init_rep; [|done]; eauto with oracle|].
  destruct (ws_key _) as [key|]; [|done]. cbn [fmap option_fmap option_map].
  destruct (we_send env _); [|done]. rewrite Hunblock. unfold at_ in Er. by rewrite Er.
Qed.

(** C22: the server answers the opening handshake as RFC 6455 prescribes. Let the
    memory be there, the socket change its mode, and a client send a request
    for some path with any fields, cut by the network into any pieces. If the
    last fields of their names ask for an upgrade to version 13 of the
    protocol with some key, spelled in the case of the RFC, then the answer
    is the text of the RFC with the hash of that key, and, once it is sent,
    the socket is in WebSocket mode with an empty buffer; if they do not, the
    connection is refused and nothing is sent. As many calls of [recv] as the
    request has bytes are enough. *)
Theorem websocket_handshake o limit env s path fs :
  oracle_sane o → grants o limit →
  0 ≤ dime_socket_setnonblocking (we_block env) false →
  0 ≤ dime_socket_setnonblocking (we_unblock env) true →
  path_ok path → Forall field_ok fs → (∀ x, zlen (encode_block (sha1 x)) = 28) →
  streams env (request path fs) → 262144 + 2 * zlen (request path fs) ≤ limit →
  ∃ r, ring_rep r [] ∧
    (∀ key, asks_upgrade fs key →
      dime_socket_init_ws sha1 encode_block (length (request path fs)) o env s
      = Ret (if we_send env (rfc_response key)
             then (0, Some (rfc_response key), with_ws s true r) else (-1, None, s))) ∧
    ((∀ key, ¬ asks_upgrade fs key) →
      dime_socket_init_ws sha1 encode_block (length (request path fs)) o env s
      = Ret (-1, None, s)).
Proof.
  intros Hs Hg Hblock%Z.ltb_ge Hunblock%Z.ltb_ge Hp Hfs Henc Hst Hlim.
  destruct (init_ws_request o limit env s path fs) as (r & Hr & Heq); try done.
  exists r. split; [done|]. rewrite Heq. split.
  - intros key ->%ws_key_asks. done.
  - intros Hno. destruct (ws_key _) as [key|] eqn:E; [|done].
    by apply ws_key_asks, Hno in E.
Qed.


(** A client that closes the connection before the end of its request
    keeps the server in the loop for ever, since [recv] answers 0 and that is
    no error; a request of two line ends makes [strtok_r] answer [NULL],
    which [sscanf] follows. *)
Theorem handshake_defects o env s :
  0 ≤ dime_socket_setnonblocking (we_block env) false → at_ o 0 500 = true →
  ((∀ n hdr room, we_recv env n hdr room = Some []) →
     ∀ fuel, dime_socket_init_ws sha1 encode_block fuel o env s = Diverge) ∧
  (we_recv env 0%nat [] 500 = Some crlf2 →
     ∀ fuel, dime_socket_init_ws sha1 encode_block (S fuel) o env s = Undef).
Proof.
  intros Hblock%Z.ltb_ge Hal. unfold dime_socket_init_ws. rewrite Hblock, Hal. split.
  - intros Hrecv fuel.
    assert (∀ n, loop (read_step (sub o 1) env) fuel (n, [], 500) = Diverge) as Hloop.
    { induction fuel as [|fuel IH]; intros n; [done|]. cbn [loop read_step]. rewrite Hrecv. apply IH. }
    by rewrite Hloop.
  - intros Hrecv fuel. cbn [loop read_step]. change (500 - zlen []) with 500. by rewrite Hrecv.
Qed.
End props.

(** ** Examples *)

(** A network that delivers a request byte by byte. *)
Definition byte_env (req : list Z) : ws_env :=
  WsEnv fcntl_ok (λ _ hdr _, Some (take 1 (drop (length hdr) req))) (λ _, true) fcntl_ok.

Lemma byte_env_streams req : streams (byte_env req) req.
Proof.
  intros n hdr rest room -> Hne Hroom. destruct rest as [|c rest]; [done|].
  exists [c], rest. cbn [byte_env we_recv]. rewrite drop_app_length.
  split_and!; [done|done|done|]. change (zlen [c]) with 1. lia.
Qed.

Definition example_fields : list (list Z * list Z) :=
  [(bytes_of "Host", bytes_of "server"); (bytes_of "Upgrade", bytes_of "websocket");
   (bytes_of "Connection", bytes_of "Upgrade"); (bytes_of "Sec-WebSocket-Key", bytes_of "a2V5");
   (bytes_of "Sec-WebSocket-Version", bytes_of "13")]%string.

Definition alloc_4M : oracle := λ _ n, n <=? 2 ^ 22.
Lemma alloc_4M_sane : oracle_sane alloc_4M.
Proof. intros p n. unfold alloc_4M, MAXOBJ. rewrite Z.leb_le. lia. Qed.
Lemma alloc_4M_grants : grants alloc_4M (2 ^ 22).
Proof. intros p n Hn. by apply Z.leb_le. Qed.

Definition fresh_socket : dime_socket := snd (dime_socket_init alloc_4M 5).
Definition example_path : list Z := bytes_of "/"%string.

Lemma websocket_handshake_witness : ∃ response r,
    response = rfc_response id (λ _, replicate 28 65) (bytes_of "a2V5"%string) ∧
    dime_socket_init_ws id (λ _, replicate 28 65) (length (request example_path example_fields))
      alloc_4M (byte_env (request example_path example_fields)) fresh_socket
      = Ret (0, Some response, with_ws fresh_socket true r) ∧ ring_rep r [].
Proof.
  destruct (websocket_handshake id (λ _, replicate 28 65) alloc_4M (2 ^ 22)
    (byte_env (request example_path example_fields)) fresh_socket example_path example_fields
    alloc_4M_sane alloc_4M_grants (Z.le_refl 0) (Z.le_refl 0)) as (r & Hr & Heq & _).
  - split; [done|]. intros c ->%list_elem_of_singleton. done.
  - repeat (apply Forall_cons; split;
      [split_and!; apply (bool_decide_unpack _); by vm_compute|]). apply Forall_nil. done.
  - done.
  - apply byte_env_streams.
  - by vm_compute.
  - eexists _, r. split; [reflexivity|]. split; [|exact Hr]. apply Heq.
    split; [by exists [], []|]. by split_and!.
Defined.

(** A network that fills the room. *)
Definition full_env : ws_env :=
  WsEnv fcntl_ok (λ _ _ room, if room <? 0 then None else Some (replicate (Z.to_nat room) 65))
    (λ _, true) fcntl_ok.


Lemma handshake_defects_witness :
  (∀ fuel, dime_socket_init_ws id id fuel alloc_4M (WsEnv fcntl_ok (λ _ _ _, Some []) (λ _, true) fcntl_ok) fresh_socket
     = Diverge) ∧
  dime_socket_init_ws id id 1 alloc_4M (WsEnv fcntl_ok (λ _ _ _, Some crlf2) (λ _, true) fcntl_ok) fresh_socket = Undef.
Proof.
  split.
  - apply (handshake_defects id id alloc_4M (WsEnv fcntl_ok (λ _ _ _, Some []) (λ _, true) fcntl_ok) fresh_socket);
      (reflexivity || discriminate).
  - apply (handshake_defects id id alloc_4M (WsEnv fcntl_ok (λ _ _ _, Some crlf2) (λ _, true) fcntl_ok) fresh_socket);
      (reflexivity || discriminate).
Defined.
