(* ===== verification/Log.v ===== *)
(** * The log ([server/log.c])

    [dime_info], [dime_warn] and [dime_err] print one line to the standard
    error output: a tag, the local time and a message that is cut off after 160
    bytes. The clock is an argument. Of [printf] the model has the conversions
    the program uses in its messages. *)

From S2P Require Import Prelude Json WebSocket.
From Stdlib Require String.

Local Open Scope string_scope.
Local Open Scope Z_scope.

(** ** [vsnprintf] *)

(** An argument of a format: an integer, whatever its width, or a string. *)
Inductive fmt_arg := ArgInt (z : Z) | ArgStr (s : list Z).

(** A conversion is one of [%d], [%ld], [%lld], [%zd], [%hu], [%s]; after its [%]
    the length modifiers are skipped. [None]: the arguments do not fit. *)
Fixpoint c_format (conv : bool) (fmt : list Z) (args : list fmt_arg) : option (list Z) :=
  match fmt with
  | [] => if conv then None else Some []
  | c :: fmt =>
      if conv then
        if (c =? 108) || (c =? 122) || (c =? 104) then c_format true fmt args
        else
          match args with
          | ArgInt z :: args =>
              if (c =? 100) || (c =? 117) && (0 <=? z)
              then app (print_d z) <$> c_format false fmt args else None
          | ArgStr s :: args => if c =? 115 then app s <$> c_format false fmt args else None
          | [] => None
          end
      else if c =? 37 then c_format true fmt args
      else cons c <$> c_format false fmt args
  end.

(** [vsnprintf] into an array of [n] bytes, one of them for the terminator. *)
Definition vsnprintf (n : nat) (fmt : list Z) (args : list fmt_arg) : outcome (list Z) :=
  match c_format false fmt args with Some s => Ret (take (n - 1) s) | None => Undef end.

(** ** [strftime] with the format "%a, %d %b %Y %T %z", in the C locale *)

Record tm := Tm {
  tm_sec : Z;
  tm_min : Z;
  tm_hour : Z;
  tm_mday : Z;
  tm_mon : Z;
  tm_year : Z;
  tm_wday : Z;
  tm_gmtoff : Z;
}.

Definition two_digits (z : Z) : list Z := [48 + z / 10; 48 + z mod 10].

Definition day_names : list string := ["Sun"; "Mon"; "Tue"; "Wed"; "Thu"; "Fri"; "Sat"].
Definition month_names : list string :=
  ["Jan"; "Feb"; "Mar"; "Apr"; "May"; "Jun"; "Jul"; "Aug"; "Sep"; "Oct"; "Nov"; "Dec"].

(** A name of a table, of three letters. *)
Definition name_of (names : list string) (i : Z) : list Z :=
  bytes_of (default "?" (names !! Z.to_nat i)).

Definition zone (gmtoff : Z) : list Z :=
  let m := Z.abs gmtoff / 60 in
  (if gmtoff <? 0 then 45 else 43) :: (two_digits (m / 60) ++ two_digits (m mod 60))%list.

Definition time_text (t : tm) : list Z :=
  (name_of day_names (tm_wday t) ++ bytes_of ", " ++ two_digits (tm_mday t) ++ bytes_of " " ++
   name_of month_names (tm_mon t) ++ bytes_of " " ++ print_d (1900 + tm_year t) ++ bytes_of " " ++
   two_digits (tm_hour t) ++ bytes_of ":" ++ two_digits (tm_min t) ++ bytes_of ":" ++
   two_digits (tm_sec t) ++ bytes_of " " ++ zone (tm_gmtoff t))%list.

(** The array is left as it is, that is indeterminate, if the text and its
    terminator do not fit. *)
Definition strftime (n : Z) (t : tm) : outcome (list Z) :=
  if zlen (time_text t) <? n then Ret (time_text t) else Undef.

(** ** The functions of the log *)

(** [localtime] may answer [NULL], which is followed. The answer is what is
    printed. *)
Definition dime_print (typestr : list Z) (localtime : option tm) (fmt : list Z) (args : list fmt_arg)
    : outcome (list Z) :=
  match localtime with
  | None => Undef
  | Some timeval =>
      timestr ← strftime 32 timeval;
      outstr ← vsnprintf 161 fmt args;
      Ret (bytes_of "[" ++ typestr ++ bytes_of " " ++ timestr ++ bytes_of "] " ++ outstr ++ [10])%list
  end.

(** The tag in one of the colours of the terminal. *)
Definition coloured (colour : string) (tag : string) : list Z :=
  ([27] ++ bytes_of colour ++ bytes_of tag ++ [27] ++ bytes_of "[0m")%list.

Definition dime_info := dime_print (coloured "[34m" "INFO").
Definition dime_warn := dime_print (coloured "[33m" "WARN").
Definition dime_err := dime_print (coloured "[31m" "ERR ").

(** ** Properties *)

(** The times a clock shows up to the end of the year 9999. *)
Record tm_ok (t : tm) : Prop := {
  to_wday : 0 ≤ tm_wday t < 7;
  to_mon : 0 ≤ tm_mon t < 12;
  to_year : 0 ≤ tm_year t ≤ 8099;
}.

Lemma name_of_length names i :
  0 ≤ i < Z.of_nat (length names) → Forall (λ s, zlen (bytes_of s) = 3) names →
  zlen (name_of names i) = 3.
Proof.
  intros Hi Hall. unfold name_of.
  destruct (lookup_lt_is_Some_2 names (Z.to_nat i)) as [s Hs]; [lia|]. rewrite Hs.
  exact (Forall_lookup_1 _ _ _ _ Hall Hs).
Qed.

Lemma year_length y : 1900 ≤ y ≤ 9999 → zlen (print_d y) = 4.
Proof.
  intros Hy. assert (forallb (λ y, zlen (print_d y) =? 4) (seqZ 1900 8100) = true) as Hall.
  { by vm_compute. }
  apply Z.eqb_eq. rewrite forallb_forall in Hall. apply Hall, list_elem_of_In, elem_of_seqZ. lia.
Qed.

Lemma zone_length g : zlen (zone g) = 5.
Proof. done. Qed.

(** The time always takes the 31 bytes there are. *)
Lemma time_length t : tm_ok t → zlen (time_text t) = 31.
Proof.
  intros [Hw Hm Hy]. unfold time_text. rewrite !zlen_app, zone_length, year_length by lia.
  rewrite !name_of_length; [done|simpl; lia|by repeat constructor|simpl; lia|by repeat constructor].
Qed.

(** A line of the log is the tag, the time and what [vsnprintf] makes of the
    message, cut off after 160 bytes: at most 198 bytes and the tag. *)
Theorem print_line typestr t fmt args text :
  tm_ok t → c_format false fmt args = Some text →
  ∃ line, dime_print typestr (Some t) fmt args = Ret line ∧
    line = (bytes_of "[" ++ typestr ++ bytes_of " " ++ time_text t ++ bytes_of "] " ++
            take 160 text ++ [10])%list ∧
    zlen line = zlen typestr + Z.min 160 (zlen text) + 36.
Proof.
  intros Ht Htext. unfold dime_print, strftime, vsnprintf. rewrite time_length by done.
  cbn [Z.ltb Z.compare Pos.compare Pos.compare_cont mbind outcome_bind]. rewrite Htext.
  eexists. split; [done|]. split; [done|]. rewrite !zlen_app, time_length by done.
  change (take (161 - 1) text) with (take (Z.to_nat 160) text). rewrite zlen_take.
  change (zlen (bytes_of "[")) with 1. change (zlen (bytes_of " ")) with 1.
  change (zlen (bytes_of "] ")) with 2. change (zlen [10]) with 1. lia.
Qed.

(** From the year 10000 on the array is too short, and is printed
    nevertheless; so is a [NULL] followed. *)
Lemma print_undef typestr t fmt args :
  32 ≤ zlen (time_text t) →
  dime_print typestr (Some t) fmt args = Undef ∧ dime_print typestr None fmt args = Undef.
Proof.
  intros Hlen. split; [|done]. unfold dime_print, strftime.
  by rewrite (proj2 (Z.ltb_ge _ _)) by lia.
Qed.

(** The formats of the program, with a text and a number. *)
Example sent_line :
  dime_info (Some (Tm 5 4 3 2 0 120 4 (-18000)))
    (bytes_of "Sent %zd bytes of data to %s") [ArgInt 42; ArgStr (bytes_of "fd 5")] =
  Ret (bytes_of "[" ++ ([27] ++ bytes_of "[34mINFO" ++ [27] ++ bytes_of "[0m") ++
       bytes_of " Thu, 02 Jan 2020 03:04:05 -0500] Sent 42 bytes of data to fd 5" ++ [10])%list.
Proof. by vm_compute. Qed.
