(* ===== verification/State.v ===== *)
(** * The state of the server ([client.h], [server.h])

    Clients, groups and messages live in a store, each under a number that
    stands for its address; the arrays, queues and tables that point to them
    hold these numbers. Following a number that is not in the store is
    undefined behaviour, and so is freeing it. Addresses are not reused.
    What only serves the log ([addr], [verbosity], the text of [err]) is left
    out; that a write to [err] stays within its 81 bytes is not. *)

From S2P Require Import Prelude Deque Ringbuffer Json Socket Table Hash.
From Stdlib Require String.

Inductive dime_serialization :=
  DIME_NO_SERIALIZATION | DIME_MATLAB | DIME_PICKLE | DIME_DIMEB | DIME_JSON.

#[export] Instance dime_serialization_eq_dec : EqDecision dime_serialization.
Proof. solve_decision. Defined.

(** [refs] is an [unsigned int]. *)
Record dime_rcmessage := Msg {
  ms_refs : Z;
  ms_jsondata : list Z;
  ms_bindata : list Z;
}.

(** The first [clnts_len] elements of [clnts], and its capacity. *)
Record dime_group := Group {
  gr_name : string;
  gr_clnts : list Z;
  gr_clnts_cap : Z;
}.

Record dime_client := Client {
  cl_fd : Z;
  cl_waiting : bool;
  cl_groups : list Z;
  cl_groups_cap : Z;
  cl_sock : dime_socket;
  cl_queue : dime_deque Z;
}.

Record dime_server := Server {
  sv_clients : gmap Z dime_client;
  sv_groups : gmap Z dime_group;
  sv_msgs : gmap Z dime_rcmessage;
  sv_next : Z;
  sv_fd2clnt : dime_table Z Z;
  sv_name2clnt : dime_table string Z;
  sv_serialization : dime_serialization;
  sv_tlsctx : bool;
}.

Definition cl_set_waiting (c : dime_client) b :=
  Client (cl_fd c) b (cl_groups c) (cl_groups_cap c) (cl_sock c) (cl_queue c).
Definition cl_set_groups (c : dime_client) gs cap :=
  Client (cl_fd c) (cl_waiting c) gs cap (cl_sock c) (cl_queue c).
Definition cl_set_sock (c : dime_client) s :=
  Client (cl_fd c) (cl_waiting c) (cl_groups c) (cl_groups_cap c) s (cl_queue c).
Definition cl_set_queue (c : dime_client) q :=
  Client (cl_fd c) (cl_waiting c) (cl_groups c) (cl_groups_cap c) (cl_sock c) q.
Definition gr_set_clnts (g : dime_group) cs cap := Group (gr_name g) cs cap.
Definition ms_set_refs (m : dime_rcmessage) n := Msg n (ms_jsondata m) (ms_bindata m).

Definition sv_set_clients (s : dime_server) x :=
  Server x (sv_groups s) (sv_msgs s) (sv_next s) (sv_fd2clnt s) (sv_name2clnt s)
    (sv_serialization s) (sv_tlsctx s).
Definition sv_set_groups (s : dime_server) x :=
  Server (sv_clients s) x (sv_msgs s) (sv_next s) (sv_fd2clnt s) (sv_name2clnt s)
    (sv_serialization s) (sv_tlsctx s).
Definition sv_set_msgs (s : dime_server) x :=
  Server (sv_clients s) (sv_groups s) x (sv_next s) (sv_fd2clnt s) (sv_name2clnt s)
    (sv_serialization s) (sv_tlsctx s).
Definition sv_set_next (s : dime_server) x :=
  Server (sv_clients s) (sv_groups s) (sv_msgs s) x (sv_fd2clnt s) (sv_name2clnt s)
    (sv_serialization s) (sv_tlsctx s).
Definition sv_set_fd2clnt (s : dime_server) x :=
  Server (sv_clients s) (sv_groups s) (sv_msgs s) (sv_next s) x (sv_name2clnt s)
    (sv_serialization s) (sv_tlsctx s).
Definition sv_set_name2clnt (s : dime_server) x :=
  Server (sv_clients s) (sv_groups s) (sv_msgs s) (sv_next s) (sv_fd2clnt s) x
    (sv_serialization s) (sv_tlsctx s).
Definition sv_set_serialization (s : dime_server) x :=
  Server (sv_clients s) (sv_groups s) (sv_msgs s) (sv_next s) (sv_fd2clnt s) (sv_name2clnt s)
    x (sv_tlsctx s).

(** ** Computations on the state *)

Definition M (A : Type) : Type := dime_server → outcome (A * dime_server).

#[export] Instance M_ret : MRet M := λ A a srv, Ret (a, srv).
#[export] Instance M_bind : MBind M := λ A B f m srv,
  match m srv with Ret (a, srv) => f a srv | Undef => Undef | Diverge => Diverge end.

Definition lift {A} (m : outcome A) : M A := λ srv,
  match m with Ret a => Ret (a, srv) | Undef => Undef | Diverge => Diverge end.
Definition gets {A} (f : dime_server → A) : M A := λ srv, Ret (f srv, srv).
Definition modify (f : dime_server → dime_server) : M unit := λ srv, Ret ((), f srv).

(** Following a pointer. *)
Definition deref {A} (f : dime_server → gmap Z A) (p : Z) : M A := λ srv,
  match f srv !! p with Some a => Ret (a, srv) | None => Undef end.

Definition get_client : Z → M dime_client := deref sv_clients.
Definition get_group : Z → M dime_group := deref sv_groups.
Definition get_msg : Z → M dime_rcmessage := deref sv_msgs.
Definition put_client (p : Z) (c : dime_client) : M unit :=
  modify (λ srv, sv_set_clients srv (<[p := c]> (sv_clients srv))).
Definition put_group (p : Z) (g : dime_group) : M unit :=
  modify (λ srv, sv_set_groups srv (<[p := g]> (sv_groups srv))).
Definition put_msg (p : Z) (m : dime_rcmessage) : M unit :=
  modify (λ srv, sv_set_msgs srv (<[p := m]> (sv_msgs srv))).
Definition free_msg (p : Z) : M unit :=
  _ ← get_msg p; modify (λ srv, sv_set_msgs srv (delete p (sv_msgs srv))).
Definition free_group (p : Z) : M unit :=
  _ ← get_group p; modify (λ srv, sv_set_groups srv (delete p (sv_groups srv))).
Definition free_client (p : Z) : M unit :=
  _ ← get_client p; modify (λ srv, sv_set_clients srv (delete p (sv_clients srv))).

(** A new address. *)
Definition fresh : M Z := λ srv, Ret (sv_next srv, sv_set_next srv (sv_next srv + 1)).

(** A loop over the elements of a list; its body answers [Some rc] to return
    [rc] from the enclosing function. *)
Fixpoint for_each {A} (o : oracle) (body : oracle → A → M (option Z)) (xs : list A)
    : M (option Z) :=
  match xs with
  | [] => mret None
  | x :: xs =>
      r ← body (sub o 0) x;
      match r with Some rc => mret (Some rc) | None => for_each (sub o 1) body xs end
  end.

(** [while (dime_table_iter_next(&it))] over a table that the body leaves
    alone. *)
Definition for_table_step {K} (body : oracle → Z → M (option Z)) (kv : K * Z)
    (st : option Z * dime_server * oracle) : outcome (option Z * dime_server * oracle) :=
  let '(r, srv, o) := st in
  match r with
  | Some _ => Ret st
  | None => '(r, srv) ← body (sub o 0) kv.2 srv; Ret (r, srv, sub o 1)
  end.

Definition for_table {K} (o : oracle) (tbl : dime_table K Z) (body : oracle → Z → M (option Z))
    : M (option Z) := λ srv,
  '(r, srv, _) ← table_foreach tbl (for_table_step body) (None, srv, o);
  Ret (r, srv).

(** [strncpy(srv->err, s)] and a terminator always fit. After
    [strncpy(srv->err, s); strncat(srv->err, t, sizeof(srv->err) -
    strlen(srv->err))] with [t] too long, [strncat] writes its terminator
    behind the array. *)
Definition set_err2 (s t : string) : M unit :=
  if (String.length s + String.length t <? 81)%nat then mret () else lift Undef.
