(* ===== verification/Client.v ===== *)
(** * Clients and their commands ([server/client.c])

    One definition per function of [client.c], on the state of [State]. A
    handler answers the value the C function returns. *)

From S2P Require Import Prelude Deque Ringbuffer Json Socket Table Hash State.
From Stdlib Require String.

Local Open Scope string_scope.
Local Open Scope Z_scope.

(** ** A new client *)

(** The size of the buffer for the text of the address. *)
Inductive address_family := AF_INET6 | AF_INET | AF_OTHER.
Definition addr_size (f : address_family) : Z :=
  match f with AF_INET6 => 40 | AF_INET => 22 | AF_OTHER => 14 end.

Definition sizeof_ptr : Z := 8.

Definition dime_client_init (o : oracle) (fd : Z) (f : address_family) : option dime_client :=
  if at_ o 0 (addr_size f) then
    if at_ o 1 (sizeof_ptr * 4) then
      let (rc, sock) := dime_socket_init (sub o 2) fd in
      if rc <? 0 then None
      else
        let (rc, queue) := dime_deque_init (at_ o 3) in
        if rc <? 0 then None else Some (Client fd false [] 4 sock queue)
    else None
  else None.

(** ** Lists of pointers *)

(** The index of the first element that satisfies a test. *)
Fixpoint find_index {A} (f : A → bool) (xs : list A) : option nat :=
  match xs with
  | [] => None
  | x :: xs => if f x then Some O else S <$> find_index f xs
  end.

(** [len--; arr[i] = arr[len]]. *)
Definition swap_remove {A} (i : nat) (xs : list A) : list A :=
  match last xs with
  | Some x => take (length xs - 1) (<[i := x]> xs)
  | None => []
  end.

Section client.
Context `{Jansson}.

(** The text that [strerror(errno)] gives. *)
Variable strerror : string.

Definition cmd_args : Type := list (string * pack_arg json).

Definition args_error (text : string) : cmd_args :=
  [("status", PackInt (-1)); ("error", PackStr text)].
Definition args_error2 (s t : string) : cmd_args :=
  [("status", PackInt (-1)); ("error", PackCat s t)].
Definition args_n (n : Z) : cmd_args := [("status", PackInt 0); ("n", PackInt n)].

(** {"status":0} as bytes. *)
Definition status0 : list Z := [123; 34; 115; 116; 97; 116; 117; 115; 34; 58; 48; 125].

Definition parse_error : string := "JSON parsing error: ".

(** [dime_socket_push] and [dime_socket_push_str] on the socket of a client. *)
Definition push_json (o : oracle) (cid : Z) (j : json) : M Z :=
  c ← get_client cid;
  '(rc, s) ← lift (dime_socket_push o (cl_sock c) j []);
  put_client cid (cl_set_sock c s);; mret rc.

Definition push_text (o : oracle) (cid : Z) (text bin : list Z) : M Z :=
  c ← get_client cid;
  '(rc, s) ← lift (dime_socket_push_str o (cl_sock c) text bin);
  put_client cid (cl_set_sock c s);; mret rc.

(** Packing a response and pushing it; failures are ignored. *)
Definition respond (o : oracle) (cid : Z) (args : cmd_args) : M unit :=
  match json_pack (at_ o 0) args with
  | Some r => _ ← push_json (sub o 1) cid r; mret ()
  | None => mret ()
  end.

Definition fail_errno (o : oracle) (cid : Z) : M Z :=
  respond o cid (args_error strerror);; mret (-1).

Definition fail_text (o : oracle) (cid : Z) (text : string) : M Z :=
  respond o cid (args_error text);; mret (-1).

Definition fail_text2 (o : oracle) (cid : Z) (s t : string) : M Z :=
  set_err2 s t;; respond o cid (args_error2 s t);; mret (-1).

(** The end of most handlers. *)
Definition finish (o : oracle) (cid : Z) : M Z :=
  rc ← push_text (sub o 0) cid status0 [];
  if rc <? 0 then fail_errno (sub o 1) cid else mret 0.

(** ** Messages *)

Definition sizeof_msg : Z := 32.

Definition free_if_unused (mid : Z) : M unit :=
  m ← get_msg mid;
  if ms_refs m =? 0 then free_msg mid else mret ().

(** [msg->refs--], and freeing the message at zero. *)
Definition unref (mid : Z) : M unit :=
  m ← get_msg mid;
  put_msg mid (ms_set_refs m (u32 (ms_refs m - 1)));;
  free_if_unused mid.

Definition ref (mid : Z) : M unit :=
  m ← get_msg mid;
  put_msg mid (ms_set_refs m (u32 (ms_refs m + 1))).

(** ** [dime_client_destroy] *)

(** Leaving the group of one entry of [clnt->groups]. *)
Definition leave_group (cid gid : Z) : M unit :=
  g ← get_group gid;
  match find_index (λ c, c =? cid) (gr_clnts g) with
  | Some j => put_group gid (gr_set_clnts g (swap_remove j (gr_clnts g)) (gr_clnts_cap g))
  | None => mret ()
  end.

Definition leave_groups (cid : Z) (gs : list Z) : M unit :=
  mapM (leave_group cid) gs;; mret ().

(** The loop over the queue, on the deque's own iterator. *)
Definition unref_queue (q : dime_deque Z) : M unit := λ srv,
  srv ← deque_foreach q (λ mid srv, '(_, srv) ← unref mid srv; Ret srv) srv;
  Ret ((), srv).

(** With the [free(clnt)] that follows every call. *)
Definition dime_client_destroy (cid : Z) : M unit :=
  c ← get_client cid;
  leave_groups cid (cl_groups c);;
  unref_queue (cl_queue c);;
  free_client cid.

(** ** [dime_client_handshake] *)

Definition serialization_of (s : string) : option dime_serialization :=
  if String.eqb s "matlab" then Some DIME_MATLAB
  else if String.eqb s "pickle" then Some DIME_PICKLE
  else if String.eqb s "dimeb" then Some DIME_DIMEB
  else if String.eqb s "json" then Some DIME_JSON
  else None.

Definition serialization_name (s : dime_serialization) (default : string) : string :=
  match s with
  | DIME_NO_SERIALIZATION => default
  | DIME_MATLAB => "matlab"
  | DIME_PICKLE => "pickle"
  | DIME_DIMEB => "dimeb"
  | DIME_JSON => "json"
  end.

Definition args_meta : cmd_args :=
  [("status", PackInt 1); ("meta", PackBool true); ("command", PackStr "reregister");
   ("serialization", PackStr "dimeb")].

(** Telling all other clients to register again with [dimeb]. *)
Definition reregister (o : oracle) (cid : Z) : M (option Z) :=
  match json_pack (at_ o 0) args_meta with
  | None => mret (Some (-1))
  | Some meta =>
      match json_dumps (at_ o 1) meta with
      | None => mret (Some (-1))
      | Some meta_str =>
          fd2clnt ← gets sv_fd2clnt;
          r ← for_table (sub o 2) fd2clnt (λ o other,
                if other =? cid then mret None
                else
                  rc ← push_text o other meta_str [];
                  mret (if rc <? 0 then Some (-1) else None));
          match r with
          | Some rc => mret (Some rc)
          | None => modify (λ srv, sv_set_serialization srv DIME_DIMEB);; mret None
          end
      end
  end.

Definition negotiate (o : oracle) (cid : Z) (i : dime_serialization) : M (option Z) :=
  cur ← gets sv_serialization;
  if decide (cur = DIME_NO_SERIALIZATION) then
    modify (λ srv, sv_set_serialization srv i);; mret None
  else if decide (cur ≠ i ∧ cur ≠ DIME_DIMEB ∧ cur ≠ DIME_JSON) then reregister o cid
  else mret None.

Definition dime_client_handshake (o : oracle) (env : tls_env) (cid : Z) (jsondata : json) : M Z :=
  match json_unpack_sssb jsondata "serialization" "tls" with
  | inr text => fail_text2 (sub o 0) cid parse_error text
  | inl (serialization, tls) =>
      match serialization_of serialization with
      | None => mret (-1)
      | Some i =>
          r ← negotiate (sub o 1) cid i;
          match r with
          | Some rc => mret rc
          | None =>
              cur ← gets sv_serialization;
              tlsctx ← gets sv_tlsctx;
              let tls := tls && tlsctx in
              match json_pack (at_ o 2)
                [("status", PackInt 0);
                 ("serialization", PackStr (serialization_name cur serialization));
                 ("tls", PackBool tls)] with
              | None => mret (-1)
              | Some response =>
                  rc ← push_json (sub o 3) cid response;
                  if rc <? 0 then mret (-1)
                  else if tls then
                    c ← get_client cid;
                    '(rc, _, s) ← lift (dime_socket_init_tls (sub o 4) env (cl_sock c));
                    put_client cid (cl_set_sock c s);;
                    mret (if rc <? 0 then -1 else 0)
                  else mret 0
              end
          end
      end
  end.

(** ** [dime_client_join] *)

Definition sizeof_group : Z := 32.

(** Looking up a group, and creating it if there is none. [inr] is the value
    [dime_client_join] returns. *)
Definition find_or_create (o : oracle) (cid : Z) (name : string) : M (Z + Z) :=
  name2clnt ← gets sv_name2clnt;
  '(r, name2clnt) ← lift (dime_table_search cmp_name hash_name name2clnt name);
  modify (λ srv, sv_set_name2clnt srv name2clnt);;
  match r with
  | Some gid => mret (inl gid)
  | None =>
      if at_ o 0 sizeof_group && at_ o 1 (Z.of_nat (String.length name) + 1)
         && at_ o 2 (sizeof_ptr * 4) then
        gid ← fresh;
        put_group gid (Group name [] 4);;
        '(rc, name2clnt) ← lift (dime_table_insert cmp_name hash_name
                                   (at_ (sub o 3)) name2clnt name gid);
        modify (λ srv, sv_set_name2clnt srv name2clnt);;
        if rc <? 0 then
          free_group gid;; rc ← fail_errno (sub o 4) cid; mret (inr rc)
        else mret (inl gid)
      else rc ← fail_errno (sub o 4) cid; mret (inr rc)
  end.

(** The capacity after making room for one more pointer, if there is
    memory. *)
Definition reserve_ptr (al : allocator) (len cap : Z) : option Z :=
  if cap <=? len then
    let ncap := u64 (cap * 3) / 2 in
    if al (u64 (sizeof_ptr * ncap)) then Some ncap else None
  else Some cap.

(** [arr[len] = p; len++]. *)
Definition append_ptr (ps : list Z) (cap p : Z) : M (list Z) :=
  if zlen ps <? cap then mret (ps ++ [p])%list else lift Undef.

(** Both arrays are made larger before the client and the group are put into
    them. *)
Definition enter_group (o : oracle) (cid gid : Z) : M (option Z) :=
  c ← get_client cid;
  match reserve_ptr (at_ o 3) (zlen (cl_groups c)) (cl_groups_cap c) with
  | None => rc ← fail_errno (sub o 4) cid; mret (Some rc)
  | Some ccap =>
      put_client cid (cl_set_groups c (cl_groups c) ccap);;
      g ← get_group gid;
      match reserve_ptr (at_ o 5) (zlen (gr_clnts g)) (gr_clnts_cap g) with
      | None => rc ← fail_errno (sub o 6) cid; mret (Some rc)
      | Some gcap =>
          gs ← append_ptr (cl_groups c) ccap gid;
          put_client cid (cl_set_groups c gs ccap);;
          cs ← append_ptr (gr_clnts g) gcap cid;
          put_group gid (gr_set_clnts g cs gcap);;
          mret None
      end
  end.

Definition join_one (o : oracle) (cid : Z) (v : json) : M (option Z) :=
  match json_string_value v with
  | None => rc ← fail_text (sub o 0) cid "JSON parsing error: expected string"; mret (Some rc)
  | Some name =>
      c ← get_client cid;
      names ← mapM (λ gid, g ← get_group gid; mret (gr_name g)) (cl_groups c);
      if existsb (String.eqb name) names then
        rc ← fail_text2 (sub o 1) cid "Client is already in group: " name; mret (Some rc)
      else
        r ← find_or_create (sub o 2) cid name;
        match r with
        | inr rc => mret (Some rc)
        | inl gid => enter_group o cid gid
        end
  end.

Definition dime_client_join (o : oracle) (cid : Z) (jsondata : json) : M Z :=
  match json_unpack_so jsondata "name" with
  | inr text => fail_text2 (sub o 0) cid parse_error text
  | inl arr =>
      r ← for_each (sub o 1) (λ o v, join_one o cid v) (json_array_elems arr);
      match r with Some rc => mret rc | None => finish (sub o 2) cid end
  end.

(** ** [dime_client_leave] *)

Definition leave_one (o : oracle) (cid : Z) (v : json) : M (option Z) :=
  match json_string_value v with
  | None => rc ← fail_text (sub o 0) cid "JSON parsing error: expected string"; mret (Some rc)
  | Some name =>
      c ← get_client cid;
      names ← mapM (λ gid, g ← get_group gid; mret (gr_name g)) (cl_groups c);
      match find_index (String.eqb name) names with
      | Some i =>
          match cl_groups c !! i with
          | Some gid =>
              g ← get_group gid;
              match find_index (λ p, p =? cid) (gr_clnts g) with
              | Some j =>
                  put_group gid (gr_set_clnts g (swap_remove j (gr_clnts g)) (gr_clnts_cap g));;
                  put_client cid (cl_set_groups c (swap_remove i (cl_groups c)) (cl_groups_cap c));;
                  mret None
              | None => lift Undef
              end
          | None => lift Undef
          end
      | None => rc ← fail_text2 (sub o 1) cid "Client is not in group: " name; mret (Some rc)
      end
  end.

Definition dime_client_leave (o : oracle) (cid : Z) (jsondata : json) : M Z :=
  match json_unpack_so jsondata "name" with
  | inr text => fail_text2 (sub o 0) cid parse_error text
  | inl arr =>
      r ← for_each (sub o 1) (λ o v, leave_one o cid v) (json_array_elems arr);
      match r with Some rc => mret rc | None => finish (sub o 2) cid end
  end.

(** ** [dime_client_send] and [dime_client_broadcast] *)

(** [malloc] and [json_dumps] for a new message without references. *)
Definition new_msg (o : oracle) (jsondata : json) (bindata : list Z) : M (option Z) :=
  if at_ o 0 sizeof_msg then
    match json_dumps (at_ o 1) jsondata with
    | None => mret None
    | Some text => mid ← fresh; put_msg mid (Msg 0 text bindata);; mret (Some mid)
    end
  else mret None.

(** Queueing the message at one receiver and waking it up if it waits. A
    failure to queue is reported to the sender [cid], a failure to wake up to
    the receiver [other]. *)
Definition deliver (o : oracle) (cid mid other : Z) : M (option Z) :=
  c ← get_client other;
  '(rc, q) ← lift (dime_deque_pushr (at_ o 0) (cl_queue c) mid);
  put_client other (cl_set_queue c q);;
  if rc <? 0 then
    free_if_unused mid;; rc ← fail_errno (sub o 1) cid; mret (Some rc)
  else
    c ← get_client other;
    if cl_waiting c then
      match json_pack (at_ o 2) (args_n (dime_deque_len (cl_queue c))) with
      | None => rc ← fail_errno (sub o 3) other; mret (Some rc)
      | Some response =>
          rc ← push_json (sub o 4) other response;
          if rc <? 0 then rc ← fail_errno (sub o 5) other; mret (Some rc)
          else
            c ← get_client other;
            put_client other (cl_set_waiting c false);;
            ref mid;; mret None
      end
    else ref mid;; mret None.

(** A new message goes to the members of a group, of which there are some. *)
Definition send_members (o : oracle) (cid : Z) (jsondata : json) (bindata : list Z)
    (members : list Z) : M Z :=
  m ← new_msg (sub o 2) jsondata bindata;
  match m with
  | None => fail_errno (sub o 3) cid
  | Some mid =>
      r ← for_each (sub o 4) (λ o other, deliver o cid mid other) members;
      match r with
      | Some rc => mret rc
      | None =>
          m ← get_msg mid;
          if 0 <? ms_refs m then finish (sub o 5) cid else lift Undef
      end
  end.

Definition dime_client_send (o : oracle) (cid : Z) (jsondata : json) (bindata : list Z) : M Z :=
  match json_unpack_ss jsondata "name" with
  | inr text => fail_text2 (sub o 0) cid parse_error text
  | inl name =>
      name2clnt ← gets sv_name2clnt;
      '(r, name2clnt) ← lift (dime_table_search cmp_name hash_name name2clnt name);
      modify (λ srv, sv_set_name2clnt srv name2clnt);;
      members ← match r with
                | Some gid => g ← get_group gid; mret (gr_clnts g)
                | None => mret []
                end;
      match members with
      | [] => fail_text2 (sub o 1) cid "No such group exists: " name
      | _ => send_members o cid jsondata bindata members
      end
  end.

Definition dime_client_broadcast (o : oracle) (cid : Z) (jsondata : json) (bindata : list Z)
    : M Z :=
  m ← new_msg (sub o 0) jsondata bindata;
  match m with
  | None => fail_errno (sub o 1) cid
  | Some mid =>
      fd2clnt ← gets sv_fd2clnt;
      r ← for_table (sub o 2) fd2clnt (λ o other,
            c ← get_client cid;
            c' ← get_client other;
            if cl_fd c =? cl_fd c' then mret None else deliver o cid mid other);
      match r with
      | Some rc => mret rc
      | None => free_if_unused mid;; finish (sub o 3) cid
      end
  end.

(** ** [dime_client_sync] *)

(** One turn of the loop: [i] messages have been sent. *)
Definition sync_turn (o : oracle) (cid m i : Z) : M (option (option Z)) :=
  if i <? m then
    c ← get_client cid;
    '(r, q) ← lift (dime_deque_popl (cl_queue c));
    put_client cid (cl_set_queue c q);;
    match r with
    | None => mret (Some None)
    | Some mid =>
        msg ← get_msg mid;
        rc ← push_text (sub o 0) cid (ms_jsondata msg) (ms_bindata msg);
        if rc <? 0 then
          c ← get_client cid;
          '(_, q) ← lift (dime_deque_pushl (at_ o 1) (cl_queue c) mid);
          put_client cid (cl_set_queue c q);; mret (Some (Some (-1)))
        else unref mid;; mret None
    end
  else mret (Some None).

Fixpoint sync_loop (fuel : nat) (o : oracle) (cid m i : Z) : M (option Z) :=
  match fuel with
  | O => lift Diverge
  | S fuel =>
      r ← sync_turn (sub o 0) cid m i;
      match r with
      | Some r => mret r
      | None => sync_loop fuel (sub o 1) cid m (i + 1)
      end
  end.

(** A negative number stands for all messages. Each turn takes one message
    off the queue. *)
Definition dime_client_sync (o : oracle) (cid : Z) (jsondata : json) : M Z :=
  match json_unpack_sI jsondata "n" with
  | None => mret (-1)
  | Some n =>
      let m := u64 (if n <? 0 then -1 else n) in
      c ← get_client cid;
      r ← sync_loop (S (S (Z.to_nat (dime_deque_len (cl_queue c))))) (sub o 0) cid m 0;
      match r with Some rc => mret rc | None => finish (sub o 1) cid end
  end.

(** ** [dime_client_wait] *)

Definition dime_client_wait (o : oracle) (cid : Z) : M Z :=
  c ← get_client cid;
  if 0 <? dime_deque_len (cl_queue c) then
    match json_pack (at_ o 0) (args_n (dime_deque_len (cl_queue c))) with
    | None => fail_errno (sub o 1) cid
    | Some response =>
        rc ← push_json (sub o 2) cid response;
        if rc <? 0 then fail_errno (sub o 3) cid else mret 0
    end
  else put_client cid (cl_set_waiting c true);; mret 0.

(** ** [dime_client_devices] *)

(** The array under construction is an argument of the loop; [inr] is the
    value to return. [json_array_append_new] takes the reference to [str] also
    when it fails, and the program then drops it again. *)
Fixpoint devices_loop (o : oracle) (cid : Z) (gids : list Z) (arr : json) : M (json + Z) :=
  match gids with
  | [] => mret (inl arr)
  | gid :: gids =>
      g ← get_group gid;
      match gr_clnts g with
      | [] => devices_loop (sub o 0) cid gids arr
      | _ =>
          match json_string (at_ o 1) (gr_name g) with
          | None => rc ← fail_errno (sub o 2) cid; mret (inr rc)
          | Some str =>
              match json_array_append_new (at_ o 3) arr str with
              | None => lift Undef
              | Some arr => devices_loop (sub o 0) cid gids arr
              end
          end
      end
  end.

(** The groups in the order of the table's iterator. The format [o] of
    [json_pack] takes the reference to [arr], which the program drops again
    when [json_pack] fails. *)
Definition table_vals {K} (tbl : dime_table K Z) : M (list Z) :=
  lift (table_foreach tbl (λ kv l, Ret (l ++ [kv.2])%list) []).

Definition dime_client_devices (o : oracle) (cid : Z) : M Z :=
  match json_array (at_ o 0) with
  | None => fail_errno (sub o 1) cid
  | Some arr =>
      name2clnt ← gets sv_name2clnt;
      gids ← table_vals name2clnt;
      r ← devices_loop (sub o 2) cid gids arr;
      match r with
      | inr rc => mret rc
      | inl arr =>
          match json_pack (at_ o 3) [("status", PackInt 0); ("devices", PackObj arr)] with
          | None => lift Undef
          | Some response =>
              rc ← push_json (sub o 5) cid response;
              if rc <? 0 then fail_errno (sub o 6) cid else mret 0
          end
      end
  end.
End client.
