(* ===== verification/Invariant.v ===== *)
(** * The invariant of the server

    What holds of the state between any two commands, in parts that depend
    on different fields:
    - [refs_inv]: every queued message is in the store, its reference count
      is the number of queues it is in, and no other message is in the store;
    - [groups_inv]: clients and groups point to each other;
    - [names_inv], [fds_inv]: the two tables hold exactly the groups and
      clients of the store;
    - every queue and every socket is well formed;
    - the queue of a client that waits is empty;
    - there is no TLS context: the code that would make one is commented
      out. *)

From S2P Require Import Prelude Deque Ringbuffer Json Socket SocketSpec Table TableSpec TableMap.
From S2P Require Import Hash State Client.

(** ** Messages and queues *)

(** The number of queues that hold a message. *)
Definition refs_of (qs : gmap Z (list Z)) (mid : Z) : Z :=
  Z.of_nat (size (filter (λ p : Z * list Z, mid ∈ p.2) qs)).

Definition held (mid : Z) (xs : list Z) : Z := if decide (mid ∈ xs) then 1 else 0.

Lemma refs_of_insert qs cid xs mid :
  qs !! cid = None → refs_of (<[cid := xs]> qs) mid = refs_of qs mid + held mid xs.
Proof.
  intros Hnone. unfold refs_of, held. case_decide as Hin.
  - rewrite map_filter_insert_True by done. rewrite map_size_insert_None; [lia|].
    apply map_lookup_filter_None. by left.
  - rewrite map_filter_insert_False by done. rewrite delete_id by done. lia.
Qed.

Lemma refs_of_delete qs cid xs mid :
  qs !! cid = Some xs → refs_of qs mid = refs_of (delete cid qs) mid + held mid xs.
Proof.
  intros Hin. rewrite <-(refs_of_insert _ cid xs) by apply lookup_delete_eq.
  by rewrite insert_delete_id.
Qed.

Lemma refs_of_update qs cid xs xs' mid :
  qs !! cid = Some xs →
  refs_of (<[cid := xs']> qs) mid = refs_of qs mid - held mid xs + held mid xs'.
Proof.
  intros Hin. rewrite (refs_of_delete qs cid xs) by done.
  rewrite <-insert_delete_eq, refs_of_insert by apply lookup_delete_eq. lia.
Qed.

Lemma refs_of_bound qs mid : 0 ≤ refs_of qs mid ≤ Z.of_nat (size qs).
Proof.
  unfold refs_of. split; [lia|]. apply inj_le, map_subseteq_size, map_filter_subseteq.
Qed.

Lemma refs_of_zero qs mid cid xs : refs_of qs mid = 0 → qs !! cid = Some xs → mid ∉ xs.
Proof.
  intros H0 Hq Hin. rewrite (refs_of_delete qs cid xs) in H0 by done.
  pose proof (refs_of_bound (delete cid qs) mid). unfold held in H0.
  rewrite decide_True in H0 by done. lia.
Qed.

(** The parts of a message fit in memory. *)
Definition msg_fits (m : dime_rcmessage) : Prop :=
  zlen (ms_jsondata m) ≤ MAXOBJ ∧ zlen (ms_bindata m) ≤ MAXOBJ.

(** [busy] is a message that is being delivered and may have no reference
    yet. *)
Record refs_inv (busy : option Z) (msgs : gmap Z dime_rcmessage) (qs : gmap Z (list Z)) : Prop := {
  ri_nodup cid xs : qs !! cid = Some xs → NoDup xs;
  ri_refs mid m : msgs !! mid = Some m → ms_refs m = refs_of qs mid ∧ msg_fits m;
  ri_used mid m : msgs !! mid = Some m → 0 < ms_refs m ∨ busy = Some mid;
  ri_live cid xs mid : qs !! cid = Some xs → mid ∈ xs → is_Some (msgs !! mid);
  ri_few : Z.of_nat (size qs) < 2 ^ 32;
}.

(** Taking the first message off the queue of a client and dropping the
    reference: what [unref] leaves in the store. *)
Definition unref_store (msgs : gmap Z dime_rcmessage) (mid : Z) (m : dime_rcmessage) :=
  if decide (ms_refs m = 1) then delete mid msgs
  else <[mid := ms_set_refs m (ms_refs m - 1)]> msgs.

Lemma refs_inv_unref msgs qs cid mid xs m :
  refs_inv None msgs qs → qs !! cid = Some (mid :: xs) → msgs !! mid = Some m →
  refs_inv None (unref_store msgs mid m) (<[cid := xs]> qs).
Proof.
  intros [] Hq Hm. destruct (ri_refs0 _ _ Hm) as [Hrefs Hfits].
  pose proof (ri_nodup0 _ _ Hq) as Hnd. apply NoDup_cons in Hnd as [Hnin Hnd].
  assert (∀ mid', refs_of (<[cid := xs]> qs) mid'
    = refs_of qs mid' - if decide (mid' = mid) then 1 else 0) as Hupd.
  { intros mid'. rewrite (refs_of_update _ _ (mid :: xs)) by done. unfold held.
    destruct (decide (mid' = mid)) as [->|].
    - rewrite decide_True by left. rewrite decide_False by done. lia.
    - destruct (decide (mid' ∈ xs)); [rewrite decide_True by (by right)|
        rewrite decide_False by (by rewrite elem_of_cons; intros [?|?])]; lia. }
  assert (∀ mid' m', unref_store msgs mid m !! mid' = Some m' →
    (mid' ≠ mid ∧ msgs !! mid' = Some m') ∨
    (mid' = mid ∧ m' = ms_set_refs m (ms_refs m - 1) ∧ ms_refs m ≠ 1)) as Hst.
  { intros mid' m'. unfold unref_store. case_decide.
    - intros [? ?]%lookup_delete_Some. by left.
    - intros [[<- <-]|[? ?]]%lookup_insert_Some; [by right|by left]. }
  split.
  - intros cid' xs' [[<- <-]|[? ?]]%lookup_insert_Some; [done|eauto].
  - intros mid' m' [[Hne Hm']|(-> & -> & Hn1)]%Hst; rewrite Hupd.
    + rewrite decide_False by done. destruct (ri_refs0 _ _ Hm'). split; [lia|done].
    + rewrite decide_True by done. simpl. split; [lia|done].
  - intros mid' m' [[Hne Hm']|(-> & -> & Hn1)]%Hst; [eauto|]. simpl.
    destruct (ri_used0 _ _ Hm); [|done]. left. lia.
  - intros cid' xs' mid' Hq' Hin. unfold unref_store.
    assert (mid' ≠ mid ∨ ms_refs m ≠ 1) as Hor.
    { destruct (decide (mid' = mid)) as [->|]; [right|by left]. intros H1.
      assert (refs_of (<[cid := xs]> qs) mid = 0) as H0.
      { rewrite Hupd, decide_True by done. lia. }
      by apply (refs_of_zero _ _ _ _ H0 Hq'). }
    assert (is_Some (msgs !! mid')).
    { apply lookup_insert_Some in Hq' as [[<- <-]|[? ?]]; [|by eapply ri_live0].
      eapply ri_live0; [done|by right]. }
    case_decide.
    + rewrite lookup_delete_ne; [done|]. by destruct Hor as [?|?]; [intros ->|].
    + apply lookup_insert_is_Some. destruct (decide (mid = mid')); [by left|by right].
  - rewrite map_size_insert_Some; [done|by rewrite Hq].
Qed.

(** Queueing the message under delivery at one more client. *)
Lemma refs_inv_push msgs qs cid mid xs m :
  refs_inv (Some mid) msgs qs → qs !! cid = Some xs → mid ∉ xs → msgs !! mid = Some m →
  ms_refs m + 1 < 2 ^ 32 ∧
  refs_inv (Some mid) (<[mid := ms_set_refs m (u32 (ms_refs m + 1))]> msgs)
    (<[cid := xs ++ [mid]]> qs).
Proof.
  intros [] Hq Hnin Hm. destruct (ri_refs0 _ _ Hm) as [Hrefs Hfits].
  assert (∀ mid', refs_of (<[cid := xs ++ [mid]]> qs) mid'
    = refs_of qs mid' + if decide (mid' = mid) then 1 else 0) as Hupd.
  { intros mid'. rewrite (refs_of_update _ _ xs) by done. unfold held.
    destruct (decide (mid' = mid)) as [->|].
    - rewrite decide_False by done. rewrite decide_True by set_solver. lia.
    - destruct (decide (mid' ∈ xs)); [rewrite decide_True by set_solver|
        rewrite decide_False by set_solver]; lia. }
  pose proof (refs_of_bound (<[cid := xs ++ [mid]]> qs) mid) as Hb.
  rewrite map_size_insert_Some in Hb by (by rewrite Hq).
  rewrite Hupd, decide_True in Hb by done. pose proof (refs_of_bound qs mid).
  rewrite u32_small by lia. split; [lia|]. split.
  - intros cid' xs' [[<- <-]|[? ?]]%lookup_insert_Some; [|eauto].
    apply NoDup_app. split; [eauto|]. split; [set_solver|apply NoDup_singleton].
  - intros mid' m' [[<- <-]|[Hne Hm']]%lookup_insert_Some; rewrite Hupd.
    + rewrite decide_True by done. simpl. split; [lia|done].
    + rewrite decide_False by done. destruct (ri_refs0 _ _ Hm'). split; [lia|done].
  - intros mid' m' [[<- <-]|[Hne Hm']]%lookup_insert_Some; [by right|eauto].
  - intros cid' xs' mid' Hq' Hin. apply lookup_insert_is_Some.
    destruct (decide (mid = mid')) as [|Hne]; [by left|right; split; [done|]].
    apply lookup_insert_Some in Hq' as [[<- <-]|[? ?]]; [|by eapply ri_live0].
    eapply ri_live0; [done|]. set_solver.
  - rewrite map_size_insert_Some; [done|by rewrite Hq].
Qed.

(** A new message, not queued anywhere yet. *)
Lemma refs_inv_new msgs qs mid m :
  refs_inv None msgs qs → msgs !! mid = None → ms_refs m = 0 → msg_fits m →
  refs_inv (Some mid) (<[mid := m]> msgs) qs.
Proof.
  intros [] Hnone H0 Hfits.
  assert (refs_of qs mid = 0) as Hr.
  { unfold refs_of. replace (filter _ qs) with (∅ : gmap Z (list Z)); [done|].
    symmetry. apply map_empty. intros cid. apply map_lookup_filter_None. right.
    intros xs Hq Hin. simpl in Hin.
    destruct (ri_live0 _ _ _ Hq Hin). congruence. }
  split; try done.
  - intros mid' m' [[<- <-]|[? ?]]%lookup_insert_Some; [split; [lia|done]|eauto].
  - intros mid' m' [[<- <-]|[? Hm']]%lookup_insert_Some; [by right|].
    destruct (ri_used0 _ _ Hm'); [by left|done].
  - intros cid xs mid' Hq Hin. apply lookup_insert_is_Some.
    destruct (decide (mid = mid')); [by left|right; eauto].
Qed.

(** The end of a delivery: a message with a reference stays, one without is
    freed. *)
Lemma refs_inv_done msgs qs mid m :
  refs_inv (Some mid) msgs qs → msgs !! mid = Some m →
  refs_inv None (if ms_refs m =? 0 then delete mid msgs else msgs) qs.
Proof.
  intros [] Hm. destruct (ri_refs0 _ _ Hm) as [Hrefs Hfits].
  pose proof (refs_of_bound qs mid). destruct (Z.eqb_spec (ms_refs m) 0) as [E|E].
  - split; try done.
    + intros mid' m' [? ?]%lookup_delete_Some. eauto.
    + intros mid' m' [? Hm']%lookup_delete_Some.
      destruct (ri_used0 _ _ Hm'); [by left|simplify_eq].
    + intros cid xs mid' Hq Hin. rewrite lookup_delete_ne; [eauto|]. intros ->.
      eapply refs_of_zero; [|done|done]. lia.
  - split; try done. intros mid' m' Hm'.
    destruct (ri_used0 _ _ Hm') as [|[= <-]]; [by left|left]. simplify_eq. lia.
Qed.

(** A client whose queue was emptied goes away; a new one has an empty
    queue. *)
Lemma refs_inv_delete busy msgs qs cid :
  refs_inv busy msgs qs → qs !! cid = Some [] → refs_inv busy msgs (delete cid qs).
Proof.
  intros [] Hq. split; try done.
  - intros cid' xs [_ ?]%lookup_delete_Some. eauto.
  - intros mid m Hm. destruct (ri_refs0 _ _ Hm) as [-> ?]. split; [|done].
    rewrite (refs_of_delete qs cid []) by done. unfold held.
    rewrite decide_False by apply not_elem_of_nil. lia.
  - intros cid' xs mid [_ ?]%lookup_delete_Some. eauto.
  - pose proof (map_subseteq_size _ _ (delete_subseteq qs cid)). lia.
Qed.

Lemma refs_inv_insert busy msgs qs cid :
  refs_inv busy msgs qs → qs !! cid = None → Z.of_nat (size qs) + 1 < 2 ^ 32 →
  refs_inv busy msgs (<[cid := []]> qs).
Proof.
  intros [] Hq Hsize. split; try done.
  - intros cid' xs [[<- <-]|[_ ?]]%lookup_insert_Some; [constructor|eauto].
  - intros mid m Hm. destruct (ri_refs0 _ _ Hm) as [-> ?]. split; [|done].
    rewrite refs_of_insert by done. unfold held.
    rewrite decide_False by apply not_elem_of_nil. lia.
  - intros cid' xs mid [[<- <-]|[_ ?]]%lookup_insert_Some Hin; [|eauto].
    by apply not_elem_of_nil in Hin.
  - rewrite map_size_insert_None by done. lia.
Qed.

(** ** Groups and their members *)

(** The first [len] of [cap] pointers. *)
Definition ptrs_ok (ps : list Z) (cap : Z) : Prop :=
  NoDup ps ∧ 4 ≤ cap ≤ 2 ^ 44 ∧ zlen ps ≤ cap.

Record groups_inv (cgs : gmap Z (list Z * Z)) (groups : gmap Z dime_group) : Prop := {
  gi_client cid gs cap : cgs !! cid = Some (gs, cap) → ptrs_ok gs cap;
  gi_group gid g : groups !! gid = Some g → ptrs_ok (gr_clnts g) (gr_clnts_cap g);
  gi_joined cid gs cap gid : cgs !! cid = Some (gs, cap) → gid ∈ gs →
    ∃ g, groups !! gid = Some g ∧ cid ∈ gr_clnts g;
  gi_member gid g cid : groups !! gid = Some g → cid ∈ gr_clnts g →
    ∃ gs cap, cgs !! cid = Some (gs, cap) ∧ gid ∈ gs;
}.

Lemma find_index_Some {A} (f : A → bool) xs i :
  find_index f xs = Some i → ∃ x, xs !! i = Some x ∧ f x = true.
Proof.
  revert i. induction xs as [|x xs IH]; intros i; [done|]. simpl. destruct (f x) eqn:E.
  - intros [= <-]. eauto.
  - destruct (find_index f xs) as [j|]; [|done]. intros [= <-]. by apply IH.
Qed.

Lemma find_index_None {A} (f : A → bool) xs x :
  find_index f xs = None → x ∈ xs → f x = false.
Proof.
  intros Hn Hin. induction Hin as [x xs|x y xs Hin IH]; simpl in Hn.
  - by destruct (f x).
  - destruct (f y); [done|]. apply IH. by destruct (find_index f xs).
Qed.

Lemma swap_remove_perm {A} (xs : list A) i x :
  xs !! i = Some x → x :: swap_remove i xs ≡ₚ xs.
Proof.
  intros Hi. destruct xs as [|y xs _] using rev_ind; [done|].
  unfold swap_remove. rewrite last_snoc, length_app. simpl.
  replace (length xs + 1 - 1)%nat with (length xs) by lia.
  apply lookup_snoc_Some in Hi as [[Hlt Hi]|[-> <-]].
  - rewrite insert_app_l, take_app_le, firstn_all2 by (rewrite ?length_insert; lia).
    assert (xs ≡ₚ x :: delete i xs) as Hp by by apply delete_Permutation.
    assert (<[i := y]> xs ≡ₚ y :: delete i xs) as Hp'.
    { rewrite insert_take_drop, delete_take_drop by done. solve_Permutation. }
    rewrite Hp'. trans (y :: (x :: delete i xs)); [solve_Permutation|].
    rewrite <-Hp. solve_Permutation.
  - rewrite insert_app_r_alt by lia. rewrite take_app_le, firstn_all2 by lia.
    solve_Permutation.
Qed.

Lemma swap_remove_spec xs i x cap :
  xs !! i = Some x → ptrs_ok xs cap →
  ptrs_ok (swap_remove i xs) cap ∧ ∀ y, y ∈ swap_remove i xs ↔ y ∈ xs ∧ y ≠ x.
Proof.
  intros Hi (Hnd & Hcap & Hlen). pose proof (swap_remove_perm xs i x Hi) as Hp.
  rewrite <-Hp in Hnd. apply NoDup_cons in Hnd as [Hnin Hnd]. split.
  - split; [done|]. split; [done|]. unfold zlen in *. apply Permutation_length in Hp.
    simpl in Hp. lia.
  - intros y. assert (y ∈ xs ↔ y ∈ x :: swap_remove i xs) as -> by by rewrite Hp.
    rewrite elem_of_cons. split; [|by intros [[->|?] ?]].
    intros Hy. split; [by right|]. by intros ->.
Qed.

Lemma ptrs_ok_snoc xs cap x : ptrs_ok xs cap → x ∉ xs → zlen xs < cap → ptrs_ok (xs ++ [x]) cap.
Proof.
  intros (Hnd & Hcap & Hlen) Hx Hlt. split; [|split; [done|]].
  - apply NoDup_app. split; [done|]. split; [set_solver|apply NoDup_singleton].
  - rewrite zlen_app. change (zlen [x]) with 1. lia.
Qed.

(** A client leaves a group: both forget each other. *)
Lemma groups_inv_forget cgs groups cid gs gs1 cap gid g j :
  groups_inv cgs groups → cgs !! cid = Some (gs, cap) →
  ptrs_ok gs1 cap ∧ (∀ y, y ∈ gs1 ↔ y ∈ gs ∧ y ≠ gid) →
  groups !! gid = Some g → gr_clnts g !! j = Some cid →
  groups_inv (<[cid := (gs1, cap)]> cgs)
    (<[gid := gr_set_clnts g (swap_remove j (gr_clnts g)) (gr_clnts_cap g)]> groups).
Proof.
  intros [] Hc [Hok1 Hin1] Hg Hj.
  destruct (swap_remove_spec _ j cid _ Hj (gi_group0 _ _ Hg)) as [Hok2 Hin2]. split.
  - intros cid' gs' cap' [[<- [= <- <-]]|[? ?]]%lookup_insert_Some; eauto.
  - intros gid' g' [[<- <-]|[? ?]]%lookup_insert_Some; eauto.
  - intros cid' gs' cap' gid' [[<- [= <- <-]]|[Hne Hc']]%lookup_insert_Some Hin.
    + apply Hin1 in Hin as [Hin Hne]. destruct (gi_joined0 _ _ _ _ Hc Hin) as (g' & ? & ?).
      exists g'. by rewrite lookup_insert_ne.
    + destruct (gi_joined0 _ _ _ _ Hc' Hin) as (g' & Hg' & ?).
      destruct (decide (gid' = gid)) as [->|]; [|exists g'; by rewrite lookup_insert_ne].
      eexists. rewrite lookup_insert_eq. split; [done|]. simpl. simplify_eq. by apply Hin2.
  - intros gid' g' cid' [[<- <-]|[Hne Hg']]%lookup_insert_Some Hin.
    + simpl in Hin. apply Hin2 in Hin as [Hin Hne].
      destruct (gi_member0 _ _ _ Hg Hin) as (gs' & cap' & ? & ?).
      exists gs', cap'. by rewrite lookup_insert_ne.
    + destruct (gi_member0 _ _ _ Hg' Hin) as (gs' & cap' & Hc' & ?).
      destruct (decide (cid' = cid)) as [->|]; [|exists gs', cap'; by rewrite lookup_insert_ne].
      exists gs1, cap. rewrite lookup_insert_eq. split; [done|]. simplify_eq.
      by apply Hin1.
Qed.

Lemma groups_inv_leave cgs groups cid gs cap i gid g j :
  groups_inv cgs groups → cgs !! cid = Some (gs, cap) → gs !! i = Some gid →
  groups !! gid = Some g → gr_clnts g !! j = Some cid →
  groups_inv (<[cid := (swap_remove i gs, cap)]> cgs)
    (<[gid := gr_set_clnts g (swap_remove j (gr_clnts g)) (gr_clnts_cap g)]> groups).
Proof.
  intros Hinv Hc Hi. apply (groups_inv_forget _ _ _ gs); [done..|].
  apply swap_remove_spec; [done|by eapply gi_client].
Qed.

(** A client without groups goes away. *)
Lemma groups_inv_delete cgs groups cid cap :
  groups_inv cgs groups → cgs !! cid = Some ([], cap) → groups_inv (delete cid cgs) groups.
Proof.
  intros [] Hc. split; [|done|..].
  - intros cid' gs' cap' [_ ?]%lookup_delete_Some. eauto.
  - intros cid' gs' cap' gid [_ ?]%lookup_delete_Some. eauto.
  - intros gid g cid' Hg Hin. destruct (gi_member0 _ _ _ Hg Hin) as (gs & cap' & Hc' & Hin').
    exists gs, cap'. rewrite lookup_delete_ne; [done|]. intros <-. simplify_eq.
    by apply not_elem_of_nil in Hin'.
Qed.

(** A new client. *)
Lemma groups_inv_client cgs groups cid cap :
  groups_inv cgs groups → cgs !! cid = None → 4 ≤ cap ≤ 2 ^ 44 →
  groups_inv (<[cid := ([], cap)]> cgs) groups.
Proof.
  intros [] Hnone Hcap. split; [|done|..].
  - intros cid' gs' cap' [[<- [= <- <-]]|[_ ?]]%lookup_insert_Some; [|eauto].
    split; [constructor|]. change (zlen []) with 0. lia.
  - intros cid' gs' cap' gid [[<- [= <- <-]]|[_ ?]]%lookup_insert_Some Hin; [|eauto].
    by apply not_elem_of_nil in Hin.
  - intros gid g cid' Hg Hin. destruct (gi_member0 _ _ _ Hg Hin) as (gs & cap' & Hc' & Hin').
    exists gs, cap'. rewrite lookup_insert_ne; [done|]. intros <-. congruence.
Qed.

(** A client joins a group it is not in. *)
Lemma groups_inv_join cgs groups cid gs cap cap' gid g gcap :
  groups_inv cgs groups → cgs !! cid = Some (gs, cap) → groups !! gid = Some g →
  gid ∉ gs → cap ≤ cap' ≤ 2 ^ 44 → gr_clnts_cap g ≤ gcap ≤ 2 ^ 44 → zlen gs < cap' →
  zlen (gr_clnts g) < gcap →
  groups_inv (<[cid := (gs ++ [gid], cap')]> cgs)
    (<[gid := gr_set_clnts g (gr_clnts g ++ [cid]) gcap]> groups).
Proof.
  intros [] Hc Hg Hnin Hcap Hgcap Hlt Hglt.
  assert (cid ∉ gr_clnts g) as Hnin'.
  { intros Hin. destruct (gi_member0 _ _ _ Hg Hin) as (gs' & c' & ? & ?). by simplify_eq. }
  destruct (gi_client0 _ _ _ Hc) as (Hnd & ? & ?), (gi_group0 _ _ Hg) as (Hnd' & ? & ?). split.
  - intros cid' gs' c' [[<- [= <- <-]]|[? ?]]%lookup_insert_Some; [|eauto].
    apply ptrs_ok_snoc; [split; [done|lia]|done|done].
  - intros gid' g' [[<- <-]|[? ?]]%lookup_insert_Some; [|eauto].
    simpl. apply ptrs_ok_snoc; [split; [done|lia]|done|done].
  - intros cid' gs' c' gid' [[<- [= <- <-]]|[Hne Hc']]%lookup_insert_Some Hin.
    + destruct (decide (gid' = gid)) as [->|].
      * eexists. rewrite lookup_insert_eq. split; [done|]. simpl. set_solver.
      * destruct (gi_joined0 _ _ _ gid' Hc) as (g' & ? & ?); [set_solver|].
        exists g'. by rewrite lookup_insert_ne.
    + destruct (gi_joined0 _ _ _ _ Hc' Hin) as (g' & ? & ?).
      destruct (decide (gid' = gid)) as [->|]; [|exists g'; by rewrite lookup_insert_ne].
      eexists. rewrite lookup_insert_eq. split; [done|]. simpl. simplify_eq. set_solver.
  - intros gid' g' cid' [[<- <-]|[Hne Hg']]%lookup_insert_Some Hin.
    + simpl in Hin. destruct (decide (cid' = cid)) as [->|].
      * exists (gs ++ [gid]), cap'. rewrite lookup_insert_eq. split; [done|]. set_solver.
      * destruct (gi_member0 _ _ cid' Hg) as (gs' & c' & ? & ?); [set_solver|].
        exists gs', c'. by rewrite lookup_insert_ne.
    + destruct (gi_member0 _ _ _ Hg' Hin) as (gs' & c' & ? & ?).
      destruct (decide (cid' = cid)) as [->|]; [|exists gs', c'; by rewrite lookup_insert_ne].
      exists (gs ++ [gid]), cap'. rewrite lookup_insert_eq. split; [done|]. simplify_eq. set_solver.
Qed.

(** A new group without members, a larger array of pointers. *)
Lemma groups_inv_new cgs groups gid name :
  groups_inv cgs groups → groups !! gid = None →
  groups_inv cgs (<[gid := Group name [] 4]> groups).
Proof.
  intros [] Hnone. split; [done|..].
  - intros gid' g [[<- <-]|[? ?]]%lookup_insert_Some; [|eauto].
    split; [constructor|]. by vm_compute.
  - intros cid gs cap gid' Hc Hin. destruct (gi_joined0 _ _ _ _ Hc Hin) as (g & ? & ?).
    exists g. rewrite lookup_insert_ne; [done|congruence].
  - intros gid' g cid [[<- <-]|[? ?]]%lookup_insert_Some Hin; [|eauto].
    by apply not_elem_of_nil in Hin.
Qed.

Lemma groups_inv_recap cgs groups cid gs cap cap' :
  groups_inv cgs groups → cgs !! cid = Some (gs, cap) → cap ≤ cap' ≤ 2 ^ 44 →
  groups_inv (<[cid := (gs, cap')]> cgs) groups.
Proof.
  intros [] Hc Hle. destruct (gi_client0 _ _ _ Hc) as (? & ? & ?). split; [|done|..].
  - intros cid' gs' c' [[<- [= <- <-]]|[? ?]]%lookup_insert_Some; [|eauto]. by split; [|lia].
  - intros cid' gs' c' gid [[<- [= <- <-]]|[? ?]]%lookup_insert_Some Hin; eauto.
  - intros gid g cid' Hg Hin. destruct (gi_member0 _ _ _ Hg Hin) as (gs' & c' & ? & ?).
    destruct (decide (cid' = cid)) as [->|]; [|exists gs', c'; by rewrite lookup_insert_ne].
    exists gs, cap'. rewrite lookup_insert_eq. split; [done|]. by simplify_eq.
Qed.

(** ** The tables *)

(** The table maps the name of every group to the group. *)
Definition names_inv (names : gmap Z string) (tbl : dime_table string Z) : Prop :=
  ∃ nm, table_inv hash_name tbl nm ∧ ∀ name gid, nm !! name = Some gid ↔ names !! gid = Some name.

(** The table maps the descriptor of every client to the client. *)
Definition fds_inv (fds : gmap Z Z) (tbl : dime_table Z Z) : Prop :=
  ∃ fm, table_inv hash_fd tbl fm ∧ ∀ fd cid, fm !! fd = Some cid ↔ fds !! cid = Some fd.

(** ** The state *)

Definition queues_inv (queues : gmap Z (dime_deque Z)) (qs : gmap Z (list Z)) : Prop :=
  ∀ cid, match queues !! cid, qs !! cid with
         | Some d, Some xs => deque_rep d xs
         | None, None => True
         | _, _ => False
         end.

Definition joined (c : dime_client) : list Z * Z := (cl_groups c, cl_groups_cap c).

Record server_inv (busy : option Z) (srv : dime_server) (qs : gmap Z (list Z)) : Prop := {
  vi_queues : queues_inv (cl_queue <$> sv_clients srv) qs;
  vi_refs : refs_inv busy (sv_msgs srv) qs;
  vi_groups : groups_inv (joined <$> sv_clients srv) (sv_groups srv);
  vi_names : names_inv (gr_name <$> sv_groups srv) (sv_name2clnt srv);
  vi_fds : fds_inv (cl_fd <$> sv_clients srv) (sv_fd2clnt srv);
  vi_socks cid c : sv_clients srv !! cid = Some c → sock_wf (cl_sock c);
  vi_waiting cid c : sv_clients srv !! cid = Some c → cl_waiting c = true → qs !! cid = Some [];
  vi_tlsctx : sv_tlsctx srv = false;
  vi_next p : is_Some (sv_clients srv !! p) ∨ is_Some (sv_groups srv !! p) ∨
    is_Some (sv_msgs srv !! p) → p < sv_next srv;
}.

(** What holds between commands. *)
Definition server_ok (srv : dime_server) : Prop := ∃ qs, server_inv None srv qs.

Lemma inv_queue busy srv qs cid c :
  server_inv busy srv qs → sv_clients srv !! cid = Some c →
  ∃ xs, qs !! cid = Some xs ∧ deque_rep (cl_queue c) xs.
Proof.
  intros Hinv Hc. pose proof (vi_queues _ _ _ Hinv cid) as Hq.
  rewrite lookup_fmap, Hc in Hq. simpl in Hq. destruct (qs !! cid); [eauto|done].
Qed.

(** ** Changes that concern sockets only *)

(** What commands leave alone of the socket of a client: the inbuffers, and
    whether libev watches it. *)
Definition inbufs (c : dime_client) : bool * dime_ringbuffer * dime_ringbuffer * bool :=
  (so_ws (cl_sock c), so_rbuf (cl_sock c), so_ws_rbuf (cl_sock c), ev_watched (cl_sock c)).

(** The sockets of the clients in [T] may have changed, except their inbuffers,
    and these clients may have ceased to wait. *)
Record quiet (T : Z → Prop) (srv srv' : dime_server) : Prop := {
  qu_other cid : ¬ T cid → sv_clients srv' !! cid = sv_clients srv !! cid;
  qu_fd : cl_fd <$> sv_clients srv' = cl_fd <$> sv_clients srv;
  qu_joined : joined <$> sv_clients srv' = joined <$> sv_clients srv;
  qu_queue : cl_queue <$> sv_clients srv' = cl_queue <$> sv_clients srv;
  qu_inbufs : inbufs <$> sv_clients srv' = inbufs <$> sv_clients srv;
  qu_socks : (∀ cid c, sv_clients srv !! cid = Some c → sock_wf (cl_sock c)) →
    ∀ cid c, sv_clients srv' !! cid = Some c → sock_wf (cl_sock c);
  qu_waiting cid c' : sv_clients srv' !! cid = Some c' → cl_waiting c' = true →
    ∃ c, sv_clients srv !! cid = Some c ∧ cl_waiting c = true;
  qu_groups : sv_groups srv' = sv_groups srv;
  qu_msgs : sv_msgs srv' = sv_msgs srv;
  qu_next : sv_next srv' = sv_next srv;
  qu_fd2clnt : sv_fd2clnt srv' = sv_fd2clnt srv;
  qu_name2clnt : sv_name2clnt srv' = sv_name2clnt srv;
  qu_tlsctx : sv_tlsctx srv' = sv_tlsctx srv;
}.

Lemma quiet_refl T srv : quiet T srv srv.
Proof. split; eauto. Qed.

Lemma quiet_trans T srv1 srv2 srv3 : quiet T srv1 srv2 → quiet T srv2 srv3 → quiet T srv1 srv3.
Proof.
  intros [] []. split; try congruence.
  - intros cid Hc. rewrite qu_other1, qu_other0; done.
  - intros Hwf. exact (qu_socks1 (qu_socks0 Hwf)).
  - intros cid c3 H3 Hw3. destruct (qu_waiting1 _ _ H3 Hw3) as (c2 & H2 & Hw2). eauto.
Qed.

Lemma quiet_weaken (T T' : Z → Prop) srv srv' :
  (∀ x, T x → T' x) → quiet T srv srv' → quiet T' srv srv'.
Proof. intros HT []. split; auto. Qed.

Lemma fmap_eq_is_Some {A B} (f : A → B) (m m' : gmap Z A) i :
  f <$> m' = f <$> m → is_Some (m' !! i) ↔ is_Some (m !! i).
Proof.
  intros Heq. apply (f_equal (λ m, m !! i)) in Heq. rewrite !lookup_fmap in Heq.
  destruct (m !! i), (m' !! i); simpl in Heq; split; intros [? [=]]; eauto; done.
Qed.

Lemma quiet_inv T busy srv srv' qs :
  quiet T srv srv' → server_inv busy srv qs → server_inv busy srv' qs.
Proof.
  intros [] []. split.
  - by rewrite qu_queue0.
  - by rewrite qu_msgs0.
  - by rewrite qu_joined0, qu_groups0.
  - by rewrite qu_groups0, qu_name2clnt0.
  - by rewrite qu_fd0, qu_fd2clnt0.
  - exact (qu_socks0 vi_socks0).
  - intros cid c Hc Hw. destruct (qu_waiting0 _ _ Hc Hw) as (c0 & Hc0 & Hw0). eauto.
  - by rewrite qu_tlsctx0.
  - intros p Hp. rewrite qu_next0. apply vi_next0. rewrite qu_groups0, qu_msgs0 in Hp.
    destruct Hp as [Hp|Hp]; [left|by right]. by apply (fmap_eq_is_Some cl_fd _ _ _ qu_fd0).
Qed.

Lemma quiet_client T srv srv' cid c :
  quiet T srv srv' → sv_clients srv !! cid = Some c → ∃ c', sv_clients srv' !! cid = Some c'.
Proof.
  intros Hq Hc. apply (fmap_eq_is_Some cl_fd _ _ cid (qu_fd _ _ _ Hq)). eauto.
Qed.

Lemma quiet_queue T srv srv' cid c c' :
  quiet T srv srv' → sv_clients srv !! cid = Some c → sv_clients srv' !! cid = Some c' →
  cl_queue c' = cl_queue c.
Proof.
  intros Hq Hc Hc'. pose proof (qu_queue _ _ _ Hq) as Hqq. apply (f_equal (λ m, m !! cid)) in Hqq.
  rewrite !lookup_fmap, Hc, Hc' in Hqq. by injection Hqq.
Qed.

(** The client [cid] exists and all sockets are well formed. *)
Definition ready (srv : dime_server) (cid : Z) : Prop :=
  is_Some (sv_clients srv !! cid) ∧ ∀ cid c, sv_clients srv !! cid = Some c → sock_wf (cl_sock c).

Lemma quiet_ready T srv srv' cid : quiet T srv srv' → ready srv cid → ready srv' cid.
Proof.
  intros Hq [[c Hc] Hwf]. split; [|exact (qu_socks _ _ _ Hq Hwf)].
  by destruct (quiet_client _ _ _ _ _ Hq Hc) as [c' ->].
Qed.

Lemma inv_ready busy srv qs cid :
  server_inv busy srv qs → is_Some (sv_clients srv !! cid) → ready srv cid.
Proof. intros [] Hc. by split. Qed.

Lemma fmap_insert_same {A B} (f : A → B) (m : gmap Z A) i x y :
  m !! i = Some x → f y = f x → f <$> <[i := y]> m = f <$> m.
Proof.
  intros Hi Hf. rewrite fmap_insert, Hf. apply insert_id. by rewrite lookup_fmap, Hi.
Qed.

(** Giving a client another socket or waiting flag. *)
Lemma quiet_put srv cid c c' :
  sv_clients srv !! cid = Some c → cl_fd c' = cl_fd c → joined c' = joined c →
  cl_queue c' = cl_queue c → inbufs c' = inbufs c →
  (sock_wf (cl_sock c) → sock_wf (cl_sock c')) →
  (cl_waiting c' = true → cl_waiting c = true) →
  quiet (λ x, x = cid) srv (sv_set_clients srv (<[cid := c']> (sv_clients srv))).
Proof.
  intros Hc Hfd Hj Hq Hin Hs Hw. split; simpl; try done.
  - intros x Hx. by rewrite lookup_insert_ne.
  - by eapply fmap_insert_same.
  - by eapply fmap_insert_same.
  - by eapply fmap_insert_same.
  - by eapply fmap_insert_same.
  - intros Hwf x c0 [[<- <-]|[? ?]]%lookup_insert_Some; eauto.
  - intros x c0 [[<- <-]|[? ?]]%lookup_insert_Some; eauto.
Qed.

(** The same change of a client on both sides. *)
Lemma quiet_upd T srv1 srv2 cid c1 c2 c1' c2' :
  quiet T srv1 srv2 → sv_clients srv1 !! cid = Some c1 → sv_clients srv2 !! cid = Some c2 →
  cl_fd c1' = cl_fd c1 → cl_fd c2' = cl_fd c2 → joined c1' = joined c1 → joined c2' = joined c2 →
  cl_sock c1' = cl_sock c1 → cl_sock c2' = cl_sock c2 → cl_queue c2' = cl_queue c1' →
  (cl_waiting c2' = true → cl_waiting c1' = true) →
  quiet (λ x, T x ∨ x = cid) (sv_set_clients srv1 (<[cid := c1']> (sv_clients srv1)))
    (sv_set_clients srv2 (<[cid := c2']> (sv_clients srv2))).
Proof.
  intros [] Hc1 Hc2 Hfd1 Hfd2 Hj1 Hj2 Hs1 Hs2 Hqq Hw. split; simpl; try done.
  - intros x Hx. rewrite !lookup_insert_ne by (intros ->; tauto). apply qu_other0. tauto.
  - by rewrite (fmap_insert_same cl_fd _ _ c2), (fmap_insert_same cl_fd _ _ c1).
  - by rewrite (fmap_insert_same joined _ _ c2), (fmap_insert_same joined _ _ c1).
  - by rewrite !fmap_insert, qu_queue0, Hqq.
  - rewrite (fmap_insert_same inbufs _ _ c2), (fmap_insert_same inbufs _ _ c1); try done;
      unfold inbufs; congruence.
  - intros Hwf.
    assert (∀ x c, sv_clients srv1 !! x = Some c → sock_wf (cl_sock c)) as Hwf1.
    { intros x c Hx. destruct (decide (x = cid)) as [->|Hne].
      - simplify_eq. rewrite <-Hs1. apply (Hwf cid). apply lookup_insert_eq.
      - apply (Hwf x). by rewrite lookup_insert_ne. }
    intros x c [[<- <-]|[_ Hx]]%lookup_insert_Some; [|by eapply qu_socks0].
    rewrite Hs2. by eapply qu_socks0.
  - intros x c' [[<- <-]|[Hne Hx]]%lookup_insert_Some Hwx.
    + exists c1'. rewrite lookup_insert_eq. auto.
    + destruct (qu_waiting0 _ _ Hx Hwx) as (c & ? & ?). exists c. by rewrite lookup_insert_ne.
Qed.

(** ** Reasoning about computations on the state *)

Definition wp {A} (m : M A) (srv : dime_server) (Q : A → dime_server → Prop) : Prop :=
  returns (m srv) (λ '(a, srv'), Q a srv').

Lemma wp_ret {A} (a : A) srv (Q : A → dime_server → Prop) : Q a srv → wp (mret a) srv Q.
Proof. done. Qed.

Lemma wp_bind {A B} (m : M A) (f : A → M B) srv Q :
  wp m srv (λ a srv', wp (f a) srv' Q) → wp (m ≫= f) srv Q.
Proof.
  unfold wp, mbind, M_bind. destruct (m srv) as [[a srv']| |]; simpl; done.
Qed.

Lemma wp_mono {A} (m : M A) srv (Q Q' : A → dime_server → Prop) :
  wp m srv Q → (∀ a srv', Q a srv' → Q' a srv') → wp m srv Q'.
Proof. unfold wp. intros H HQ. eapply returns_mono; [done|]. intros [a srv']. apply HQ. Qed.

Lemma wp_lift {A} (m : outcome A) srv (Q : A → dime_server → Prop) :
  returns m (λ a, Q a srv) → wp (lift m) srv Q.
Proof. unfold wp, lift. by destruct m. Qed.

Lemma wp_gets {A} (f : dime_server → A) srv (Q : A → dime_server → Prop) :
  Q (f srv) srv → wp (gets f) srv Q.
Proof. done. Qed.

Lemma wp_modify f srv (Q : unit → dime_server → Prop) : Q () (f srv) → wp (modify f) srv Q.
Proof. done. Qed.

Lemma wp_deref {A} (f : dime_server → gmap Z A) p a srv (Q : A → dime_server → Prop) :
  f srv !! p = Some a → Q a srv → wp (deref f p) srv Q.
Proof. unfold wp, deref. by intros ->. Qed.

Lemma wp_get_client p c srv (Q : dime_client → dime_server → Prop) :
  sv_clients srv !! p = Some c → Q c srv → wp (get_client p) srv Q.
Proof. apply wp_deref. Qed.
Lemma wp_get_group p g srv (Q : dime_group → dime_server → Prop) :
  sv_groups srv !! p = Some g → Q g srv → wp (get_group p) srv Q.
Proof. apply wp_deref. Qed.
Lemma wp_get_msg p m srv (Q : dime_rcmessage → dime_server → Prop) :
  sv_msgs srv !! p = Some m → Q m srv → wp (get_msg p) srv Q.
Proof. apply wp_deref. Qed.

(** Runs the first computation of a sequence with one of these rules. *)
Ltac wp_step := apply wp_bind;
  first [ eapply wp_get_client; [eassumption|]
        | eapply wp_get_group; [eassumption|]
        | eapply wp_get_msg; [eassumption|]
        | apply wp_gets | apply wp_modify | apply wp_ret ].
