(* ===== verification/ClientSpec.v ===== *)
(** * The commands preserve the invariant

    Every lemma is about one definition of [Client]: run in a state with the
    invariant it terminates without undefined behaviour, and the invariant
    holds again. *)

From S2P Require Import Prelude Bytes Deque Ringbuffer Json Socket SocketSpec Probe Table.
From S2P Require Import TableRelocate TableSpec TableMap Hash State Client Invariant.
From Stdlib Require String.

(** What the program relies on of the JSON library: a text it encodes is an
    object in memory, and with enough memory the small responses that wake up
    a waiting client can be packed and encoded. *)
Class JanssonLaws `{Jansson} (limit : Z) : Prop := {
  dumps_fit al j text : alloc_sane al → json_dumps al j = Some text → zlen text ≤ MAXOBJ;
  pack_n al n : (∀ k, k ≤ limit → al k = true) → is_Some (json_pack al (args_n n));
  dumps_n al al' n j : (∀ k, k ≤ limit → al k = true) → json_pack al' (args_n n) = Some j →
    is_Some (json_dumps al j);
}.

#[export] Instance text_json_laws limit : 2 ≤ limit → @JanssonLaws text_json limit.
Proof.
  intros Hlim. split; simpl.
  - intros al j text Hs. destruct (al (zlen j)) eqn:E; [intros [= <-]; by apply Hs|done].
  - intros al n Hg. rewrite Hg by lia. eauto.
  - intros al al' n j Hg. destruct (al' 1); [intros [= <-]|done].
    rewrite Hg; [eauto|]. by vm_compute.
Qed.

Section spec.
Context `{Jansson} {limit : Z} `{!JanssonLaws limit}.
Variable strerror : string.
Implicit Types (o : oracle) (cid gid mid : Z) (srv : dime_server).

(** ** Responses *)

Definition at_client (cid : Z) : Z → Prop := λ x, x = cid.

(** The outbuffer of a client has room for a header. *)
Definition has_room (c : dime_client) : Prop :=
  ∀ rb wb wsb, sock_rep (cl_sock c) rb wb wsb → 2 * (zlen wb + 22) ≤ limit.

Lemma wp_push_text o cid text bin srv :
  oracle_sane o → ready srv cid → zlen text ≤ MAXOBJ → zlen bin ≤ MAXOBJ →
  wp (push_text o cid text bin) srv (λ rc srv', quiet (at_client cid) srv srv' ∧
    ∀ c, sv_clients srv !! cid = Some c → has_room c → grants o limit → 0 ≤ rc).
Proof.
  intros Hs [[c Hc] Hwf] Ht Hb. destruct (Hwf _ _ Hc) as (rb & wb & wsb & Hrep & Hb1 & Hb2).
  unfold push_text. wp_step. apply wp_bind, wp_lift.
  pose proof (push_str_any o _ rb wb wsb text bin Hs Hrep Ht Hb) as Hp.
  apply returns_eq in Hp as ([rc s'] & -> & [wb' Hrep'] & Hws & Hrb & Hwsb & _ & Hsome & Hrc). simpl.
  apply wp_bind, wp_modify, wp_ret. split.
  - apply (quiet_put srv cid c); try done.
    + unfold inbufs, ev_watched. simpl. do 2 f_equal; [congruence..|]. by apply bool_decide_ext.
    + intros _. exists rb, wb', wsb. simpl. by rewrite Hws.
  - intros c' Hc' Hroom Hg. simplify_eq. by apply (Hrc limit), (Hroom rb wb wsb).
Qed.

Lemma wp_push_json o cid j srv :
  oracle_sane o → ready srv cid →
  wp (push_json o cid j) srv (λ rc srv', quiet (at_client cid) srv srv' ∧
    ∀ c, sv_clients srv !! cid = Some c → has_room c → grants o limit →
      is_Some (json_dumps (at_ o 0) j) → 0 ≤ rc).
Proof.
  intros Hs Hr. pose proof Hr as [[c Hc] Hwf]. unfold push_json. wp_step. unfold dime_socket_push.
  destruct (json_dumps (at_ o 0) j) as [text|] eqn:E.
  - pose proof (wp_push_text (sub o 1) cid text [] srv ltac:(eauto with oracle) Hr
      (dumps_fit _ _ _ (oracle_sane_at o 0 Hs) E) ltac:(done)) as Hp.
    unfold push_text in Hp. unfold wp, mbind, M_bind, get_client, deref in Hp. rewrite Hc in Hp.
    eapply returns_mono; [exact Hp|]. intros [rc srv'] [? Hrc]. split; [done|].
    intros c' Hc' Hroom Hg _. apply (Hrc c'); [congruence|done|by apply grants_sub].
  - apply wp_bind, wp_lift. simpl. apply wp_bind, wp_modify, wp_ret. split.
    + by apply (quiet_put srv cid c).
    + by intros ??? _ [].
Qed.

Lemma wp_respond o cid args srv :
  oracle_sane o → ready srv cid →
  wp (respond o cid args) srv (λ _ srv', quiet (at_client cid) srv srv').
Proof.
  intros Hs Hr. unfold respond. destruct (json_pack _ _) as [r|].
  - apply wp_bind. eapply wp_mono; [apply (wp_push_json (sub o 1)); eauto with oracle|].
    by intros rc srv' [? _].
  - apply wp_ret, quiet_refl.
Qed.

Lemma wp_fail_text o cid text srv :
  oracle_sane o → ready srv cid →
  wp (fail_text o cid text) srv (λ rc srv', rc = -1 ∧ quiet (at_client cid) srv srv').
Proof.
  intros. apply wp_bind. eapply wp_mono; [by apply wp_respond|]. intros [] srv' Hq. by split.
Qed.

Lemma wp_fail_errno o cid srv :
  oracle_sane o → ready srv cid →
  wp (fail_errno strerror o cid) srv (λ rc srv', rc = -1 ∧ quiet (at_client cid) srv srv').
Proof. apply wp_fail_text. Qed.

Lemma wp_fail_text2 o cid s t srv :
  oracle_sane o → ready srv cid → (String.length s + String.length t < 81)%nat →
  wp (fail_text2 o cid s t) srv (λ rc srv', rc = -1 ∧ quiet (at_client cid) srv srv').
Proof.
  intros Hs Hr Hlen. unfold fail_text2, set_err2.
  rewrite (proj2 (Nat.ltb_lt _ _)) by done. apply wp_bind, wp_ret.
  apply wp_bind. eapply wp_mono; [by apply wp_respond|]. intros [] srv' Hq. by split.
Qed.

(** The value of a handler and a change of the client's own socket. *)
Definition answers (cid : Z) srv (rc : Z) srv' : Prop :=
  (rc = 0 ∨ rc = -1) ∧ quiet (at_client cid) srv srv'.

Lemma wp_finish o cid srv :
  oracle_sane o → ready srv cid → wp (finish strerror o cid) srv (answers cid srv).
Proof.
  intros Hs Hr. unfold finish. apply wp_bind. eapply wp_mono.
  { apply (wp_push_text (sub o 0)); eauto with oracle; by vm_compute. }
  intros rc srv1 [Hq _]. destruct (rc <? 0); [|apply wp_ret; split; auto].
  eapply wp_mono; [apply (wp_fail_errno (sub o 1)); [eauto with oracle|by eapply quiet_ready]|].
  intros rc' srv2 [-> Hq2]. split; [by right|by eapply quiet_trans].
Qed.

(** ** Reference counts *)

Lemma wp_unref mid m srv :
  sv_msgs srv !! mid = Some m → 1 ≤ ms_refs m < 2 ^ 32 →
  wp (unref mid) srv (λ _ srv', srv' = sv_set_msgs srv (unref_store (sv_msgs srv) mid m)).
Proof.
  intros Hm Hrefs. unfold unref. wp_step. rewrite u32_small by lia.
  apply wp_bind, wp_modify. unfold free_if_unused.
  apply wp_bind. eapply wp_get_msg; [apply lookup_insert_eq|]. unfold unref_store.
  cbn [ms_refs ms_set_refs]. case_decide as E.
  - rewrite (proj2 (Z.eqb_eq _ _)) by lia. unfold free_msg.
    apply wp_bind. eapply wp_get_msg; [apply lookup_insert_eq|]. apply wp_modify.
    unfold sv_set_msgs. simpl. by rewrite delete_insert_eq.
  - rewrite (proj2 (Z.eqb_neq _ _)) by lia. by apply wp_ret.
Qed.

Lemma wp_ref mid m srv :
  sv_msgs srv !! mid = Some m →
  wp (ref mid) srv (λ _ srv', srv' = sv_set_msgs srv
    (<[mid := ms_set_refs m (u32 (ms_refs m + 1))]> (sv_msgs srv))).
Proof. intros Hm. unfold ref. wp_step. by apply wp_modify. Qed.

Lemma wp_free_if_unused mid m srv :
  sv_msgs srv !! mid = Some m →
  wp (free_if_unused mid) srv (λ _ srv', srv' = sv_set_msgs srv
    (if ms_refs m =? 0 then delete mid (sv_msgs srv) else sv_msgs srv)).
Proof.
  intros Hm. unfold free_if_unused. wp_step. destruct (ms_refs m =? 0).
  - unfold free_msg. wp_step. by apply wp_modify.
  - apply wp_ret. by destruct srv.
Qed.

(** Another store of messages and other queues. *)
Lemma inv_set_msgs busy busy' srv qs msgs' :
  server_inv busy srv qs → refs_inv busy' msgs' qs →
  (∀ p, is_Some (msgs' !! p) → is_Some (sv_msgs srv !! p)) →
  server_inv busy' (sv_set_msgs srv msgs') qs.
Proof.
  intros Hinv Hr Hdom. split; try apply Hinv; try done.
  simpl. intros p [?|[?|?]]; apply (vi_next _ _ _ Hinv); auto.
Qed.

Lemma unref_store_dom msgs mid m p :
  msgs !! mid = Some m → is_Some (unref_store msgs mid m !! p) → is_Some (msgs !! p).
Proof.
  intros Hm. unfold unref_store. case_decide.
  - intros [? [_ ?]%lookup_delete_Some]. eauto.
  - intros [<-|[_ ?]]%lookup_insert_is_Some; eauto.
Qed.

(** A message without references is freed. *)
Lemma inv_done srv qs mid m :
  server_inv (Some mid) srv qs → sv_msgs srv !! mid = Some m →
  server_inv None (sv_set_msgs srv
    (if ms_refs m =? 0 then delete mid (sv_msgs srv) else sv_msgs srv)) qs.
Proof.
  intros Hinv Hm. eapply inv_set_msgs; [done|..].
  - eapply refs_inv_done; [apply Hinv|done].
  - intros p. destruct (ms_refs m =? 0); [|done].
    intros [? [_ ?]%lookup_delete_Some]. eauto.
Qed.

(** Giving a client another queue. *)
Lemma inv_set_queue busy busy' srv qs cid c c' xs msgs' :
  server_inv busy srv qs → sv_clients srv !! cid = Some c → deque_rep (cl_queue c') xs →
  cl_fd c' = cl_fd c → joined c' = joined c → cl_sock c' = cl_sock c →
  (cl_waiting c' = true → xs = []) → refs_inv busy' msgs' (<[cid := xs]> qs) →
  (∀ p, is_Some (msgs' !! p) → is_Some (sv_msgs srv !! p)) →
  server_inv busy' (sv_set_msgs (sv_set_clients srv (<[cid := c']> (sv_clients srv))) msgs')
    (<[cid := xs]> qs).
Proof.
  intros Hinv Hc Hd Hfd Hj Hs Hw Hr Hdom. split; simpl; try apply Hinv; try done.
  - intros x. rewrite fmap_insert. simpl. pose proof (vi_queues _ _ _ Hinv x).
    destruct (decide (cid = x)) as [->|].
    + by rewrite !lookup_insert_eq.
    + by rewrite !lookup_insert_ne.
  - rewrite (fmap_insert_same joined _ _ c) by done. apply Hinv.
  - rewrite (fmap_insert_same cl_fd _ _ c) by done. apply Hinv.
  - intros x c0 [[<- <-]|[? ?]]%lookup_insert_Some.
    + rewrite Hs. apply (vi_socks _ _ _ Hinv _ _ Hc).
    + by apply (vi_socks _ _ _ Hinv x).
  - intros x c0 [[<- <-]|[? ?]]%lookup_insert_Some Hwx; [by rewrite lookup_insert_eq, Hw|].
    rewrite lookup_insert_ne by done. by eapply (vi_waiting _ _ _ Hinv).
  - intros p Hp. apply (vi_next _ _ _ Hinv). destruct Hp as [[<-|[_ ?]]%lookup_insert_is_Some|[?|?]]; eauto.
Qed.

(** ** What a command keeps *)

(** The clients, their descriptors, their inbuffers and their groups are the
    same. *)
Record keeps srv srv' : Prop := {
  kp_fd : cl_fd <$> sv_clients srv' = cl_fd <$> sv_clients srv;
  kp_inbufs : inbufs <$> sv_clients srv' = inbufs <$> sv_clients srv;
  kp_joined : joined <$> sv_clients srv' = joined <$> sv_clients srv;
  kp_groups : sv_groups srv' = sv_groups srv;
}.

Lemma keeps_refl srv : keeps srv srv.
Proof. by split. Qed.
Lemma keeps_trans srv1 srv2 srv3 : keeps srv1 srv2 → keeps srv2 srv3 → keeps srv1 srv3.
Proof. intros [] []. split; congruence. Qed.
Lemma quiet_keeps T srv srv' : quiet T srv srv' → keeps srv srv'.
Proof. intros []. by split. Qed.
Lemma keeps_client srv srv' cid :
  keeps srv srv' → is_Some (sv_clients srv' !! cid) ↔ is_Some (sv_clients srv !! cid).
Proof. intros []. by eapply fmap_eq_is_Some. Qed.
Lemma keeps_set_msgs srv srv' msgs : keeps srv srv' → keeps srv (sv_set_msgs srv' msgs).
Proof. intros []. by split. Qed.
Lemma keeps_set_names srv tbl : keeps srv (sv_set_name2clnt srv tbl).
Proof. by split. Qed.
Lemma keeps_set_queue srv cid c q :
  sv_clients srv !! cid = Some c →
  keeps srv (sv_set_clients srv (<[cid := cl_set_queue c q]> (sv_clients srv))).
Proof. intros Hc. by split; [eapply fmap_insert_same..|]. Qed.

Lemma ready_set_queue srv cid c q x :
  sv_clients srv !! cid = Some c → ready srv x →
  ready (sv_set_clients srv (<[cid := cl_set_queue c q]> (sv_clients srv))) x.
Proof.
  intros Hc [Hx Hwf]. split.
  - by apply (keeps_client _ _ _ (keeps_set_queue srv cid c q Hc)).
  - intros y c'. cbn [sv_clients sv_set_clients].
    intros [[<- <-]|[_ Hy]]%lookup_insert_Some; [exact (Hwf _ _ Hc)|exact (Hwf _ _ Hy)].
Qed.

(** ** The tables *)

Lemma search_names names tbl name :
  names_inv names tbl →
  ∃ r tbl', dime_table_search cmp_name hash_name tbl name = Ret (r, tbl') ∧
    names_inv names tbl' ∧ ∀ gid, r = Some gid ↔ names !! gid = Some name.
Proof.
  intros (nm & Hinv & Hnm).
  pose proof (inv_search cmp_name hash_name cmp_name_eq tbl nm name Hinv) as Hs.
  apply returns_eq in Hs as ([r tbl'] & Hrun & -> & Hinv').
  exists (nm !! name), tbl'. split; [done|]. split; [by exists nm|]. intros gid. apply Hnm.
Qed.

Lemma inv_set_names busy srv qs tbl :
  server_inv busy srv qs → names_inv (gr_name <$> sv_groups srv) tbl →
  server_inv busy (sv_set_name2clnt srv tbl) qs.
Proof. intros Hinv Hn. by split; try apply Hinv. Qed.

(** The values an iterator over a table visits. *)
Lemma inv_iterable {K} `{Countable K} (hash_f : K → Z) (tbl : dime_table K Z) m :
  table_inv hash_f tbl m → iterable tbl.
Proof.
  intros (Hrep & _). split; [apply Hrep|]. pose proof (cap_ok_bounds _ (tr_cap _ _ _ Hrep)).
  unfold SIZE_MAX. lia.
Qed.

Lemma kvs_vals {K} `{Countable K} (hash_f : K → Z) (tbl : dime_table K Z) m :
  table_inv hash_f tbl m →
  (∀ k k' v, m !! k = Some v → m !! k' = Some v → k = k') →
  NoDup (kvs (tb_arr tbl)).*2 ∧
  ∀ v, v ∈ (kvs (tb_arr tbl)).*2 ↔ ∃ k, m !! k = Some v.
Proof.
  intros (Hrep & _) Hinj. pose proof (tr_keys _ _ _ Hrep) as Hnd.
  assert (∀ k v, (k, v) ∈ kvs (tb_arr tbl) ↔ m !! k = Some v) as Hin.
  { intros k v. rewrite (tr_map _ _ _ Hrep). by apply elem_of_list_to_map. }
  split.
  - assert (∀ k k' v, (k, v) ∈ kvs (tb_arr tbl) → (k', v) ∈ kvs (tb_arr tbl) → k = k') as Hinj'.
    { intros k k' v ?%Hin ?%Hin. by eapply Hinj. }
    clear Hin Hinj. induction (kvs (tb_arr tbl)) as [|[k v] l IH]; [constructor|].
    simpl in *. apply NoDup_cons in Hnd as [Hk Hnd]. constructor.
    + intros ([k' v'] & Hv & Hl)%list_elem_of_fmap. simpl in Hv. subst v'.
      assert (k = k') as -> by (eapply Hinj'; [by left|by right]).
      apply Hk, list_elem_of_fmap. by exists (k', v).
    + apply IH; [done|]. intros k1 k2 v1 H1 H2. by apply (Hinj' k1 k2 v1); right.
  - intros v. rewrite list_elem_of_fmap. split.
    + intros ([k v'] & -> & Hl). exists k. by apply Hin.
    + intros [k Hk]. exists (k, v). by rewrite Hin.
Qed.

Lemma for_table_step_at {K} body (kv : K * Z) srv o :
  for_table_step body kv (None, srv, o)
  = ('(r, srv) ← body (sub o 0) kv.2 srv; Ret (r, srv, sub o 1)).
Proof. done. Qed.

Lemma for_table_spec {K} o (tbl : dime_table K Z) (body : oracle → Z → M (option Z)) srv :
  iterable tbl → for_table o tbl body srv = for_each o body (kvs (tb_arr tbl)).*2 srv.
Proof.
  intros Hit. unfold for_table. rewrite table_foreach_spec by done.
  assert (∀ l rc o srv, foldo (for_table_step (K:=K) body) l (Some rc, srv, o)
    = Ret (Some rc, srv, o)) as Hstop.
  { intros l rc o'. induction l; intros srv'; [done|]. simpl. apply IHl. }
  generalize (kvs (tb_arr tbl)). intros l. revert o srv.
  induction l as [|kv l IH]; intros o srv; [done|]. cbn [foldo fmap list_fmap for_each].
  rewrite for_table_step_at. unfold mbind at 4. unfold M_bind.
  destruct (body (sub o 0) kv.2 srv) as [[[rc|] srv1]| |]; try done.
  - simpl. by rewrite Hstop.
  - apply IH.
Qed.

Lemma fds_vals busy srv qs :
  server_inv busy srv qs → iterable (sv_fd2clnt srv) ∧
    NoDup (kvs (tb_arr (sv_fd2clnt srv))).*2 ∧
    ∀ x, x ∈ (kvs (tb_arr (sv_fd2clnt srv))).*2 ↔ is_Some (sv_clients srv !! x).
Proof.
  intros Hinv. destruct (vi_fds _ _ _ Hinv) as (fm & Htbl & Hfm).
  split; [by eapply inv_iterable|].
  destruct (kvs_vals _ _ _ Htbl) as [Hnd Hin].
  { intros k k' v ?%Hfm ?%Hfm. congruence. }
  split; [done|]. intros x. rewrite Hin. split.
  - intros [fd Hfd%Hfm]. rewrite lookup_fmap in Hfd. by destruct (sv_clients srv !! x).
  - intros [c Hc]. exists (cl_fd c). apply Hfm. by rewrite lookup_fmap, Hc.
Qed.

(** Two clients with the same descriptor are the same. *)
Lemma fds_inj busy srv qs x y c c' :
  server_inv busy srv qs → sv_clients srv !! x = Some c → sv_clients srv !! y = Some c' →
  cl_fd c = cl_fd c' → x = y.
Proof.
  intros Hinv Hx Hy Hfd. destruct (vi_fds _ _ _ Hinv) as (fm & _ & Hfm).
  assert (fm !! cl_fd c = Some x) by (apply Hfm; by rewrite lookup_fmap, Hx).
  assert (fm !! cl_fd c = Some y) by (apply Hfm; by rewrite lookup_fmap, Hy, Hfd).
  congruence.
Qed.
End spec.
