(* ===== verification/ClientPush.v ===== *)
(** * Responses in full

    What a response puts into the outbuffer of a client if there is memory
    for it, byte for byte; [ClientSpec] has what holds if there is none. *)

From S2P Require Import Prelude Deque Json Socket SocketSpec State Client Invariant ClientSpec.
From Stdlib Require String.

(** ** Running the same computation twice *)

Lemma wp_conj {A} (m : M A) srv (Q1 Q2 : A → dime_server → Prop) :
  wp m srv Q1 → wp m srv Q2 → wp m srv (λ a srv', Q1 a srv' ∧ Q2 a srv').
Proof. unfold wp. destruct (m srv) as [[a srv']| |]; simpl; auto. Qed.

Lemma wp_impl {A} (m : M A) srv (P : Prop) (Q Q' : A → dime_server → Prop) :
  wp m srv Q → (P → wp m srv Q') → wp m srv (λ a srv', P → Q' a srv').
Proof. unfold wp. destruct (m srv) as [[a srv']| |]; simpl; auto. Qed.

Lemma wp_forall {A X} `{Inhabited X} (m : M A) srv (Q : X → A → dime_server → Prop) :
  (∀ x, wp m srv (Q x)) → wp m srv (λ a srv', ∀ x, Q x a srv').
Proof.
  unfold wp. intros HQ. pose proof (HQ inhabitant). destruct (m srv) as [[a srv']| |]; try done.
Qed.

Section push.
Context `{Jansson} {limit : Z} `{!JanssonLaws limit}.
Implicit Types (o : oracle) (cid gid mid : Z) (srv : dime_server).

(** What is in a queue and how it goes over the wire. *)
Definition message : Type := list Z * list Z.

(** The buffers of the socket of a client. *)
Definition buffers srv cid (ws : bool) (rb wb wsb : list Z) : Prop :=
  ∃ c, sv_clients srv !! cid = Some c ∧ sock_rep (cl_sock c) rb wb wsb ∧ so_ws (cl_sock c) = ws.

Lemma wp_push_text_all o cid text bin srv ws rb wb wsb :
  oracle_sane o → grants o limit → buffers srv cid ws rb wb wsb →
  2 * (zlen wb + zlen text + zlen bin + 22) ≤ limit →
  wp (push_text o cid text bin) srv (λ rc srv', 0 ≤ rc ∧
    buffers srv' cid ws rb (wb ++ wire ws (text, bin)) wsb).
Proof.
  intros Hs Hg (c & Hc & Hrep & Hws) Hlim. unfold push_text. wp_step.
  destruct (push_str_spec o limit _ rb wb wsb text bin Hs Hg Hrep Hlim)
    as (s' & -> & Hrep' & Hws' & _).
  apply wp_bind, wp_lift. simpl. apply wp_bind, wp_modify, wp_ret.
  split; [apply zlen_nonneg|]. rewrite Hws in *. eexists. simpl. split; [apply lookup_insert_eq|].
  by split.
Qed.

(** There is memory for the outbuffer of a client to take a message. *)
Definition push_fits o srv cid ws rb wb wsb (x : message) : Prop :=
  grants o limit ∧ buffers srv cid ws rb wb wsb ∧
  2 * (zlen wb + zlen x.1 + zlen x.2 + 22) ≤ limit.

Lemma wp_push_text_both o cid text bin srv ws rb wb wsb :
  oracle_sane o → ready srv cid → zlen text ≤ MAXOBJ → zlen bin ≤ MAXOBJ →
  wp (push_text o cid text bin) srv (λ rc srv', quiet (at_client cid) srv srv' ∧
    (push_fits o srv cid ws rb wb wsb (text, bin) →
     0 ≤ rc ∧ buffers srv' cid ws rb (wb ++ wire ws (text, bin)) wsb)).
Proof.
  intros Hs Hr Ht Hb. apply wp_conj.
  - eapply wp_mono; [by apply (wp_push_text (limit:=limit))|]. by intros rc srv' [? _].
  - apply (wp_impl _ _ _ (λ _ _, True)).
    + eapply wp_mono; [by apply (wp_push_text (limit:=limit))|done].
    + intros (Hg & Hbuf & Hlim). by apply wp_push_text_all.
Qed.

(** Pushing a JSON value: what an answer that is not negative says, and when
    the answer is not negative. *)
Lemma wp_push_json_all o cid j srv ws rb wb wsb :
  oracle_sane o → ready srv cid →
  wp (push_json o cid j) srv (λ rc srv', quiet (at_client cid) srv srv' ∧
    (0 ≤ rc → is_Some (json_dumps (at_ o 0) j)) ∧
    ∀ text, json_dumps (at_ o 0) j = Some text →
      push_fits (sub o 1) srv cid ws rb wb wsb (text, []) →
      0 ≤ rc ∧ buffers srv' cid ws rb (wb ++ wire ws (text, [])) wsb).
Proof.
  intros Hs Hr. destruct (json_dumps (at_ o 0) j) as [text|] eqn:Hd.
  - assert (push_json o cid j srv = push_text (sub o 1) cid text [] srv) as Heq.
    { unfold push_json, push_text, dime_socket_push. unfold mbind, M_bind.
      destruct (get_client cid srv) as [[c0 srv0]| |]; [|done..]. by rewrite Hd. }
    unfold wp. rewrite Heq. eapply wp_mono.
    { eapply (wp_push_text_both (sub o 1) cid text [] srv ws rb wb wsb); [by eauto with oracle|done| |done].
      eapply dumps_fit; [|done]. eauto with oracle. }
    intros rc srv' [Hq Hfit]. split; [done|]. split; [by eauto|]. by intros text' [= <-].
  - destruct Hr as [[c Hc] Hwf]. unfold push_json. wp_step. unfold dime_socket_push. rewrite Hd.
    apply wp_bind, wp_lift. simpl. apply wp_bind, wp_modify, wp_ret.
    split; [by apply (quiet_put srv cid c)|]. split; [lia|done].
Qed.

(** The outbuffer of [x] gets the message [m]. *)
Definition told (m : message) x srv srv' : Prop :=
  ∀ ws rb wb wsb, buffers srv x ws rb wb wsb →
    2 * (zlen wb + zlen m.1 + zlen m.2 + 22) ≤ limit →
    buffers srv' x ws rb (wb ++ wire ws m) wsb.

Lemma buffers_same srv srv' x ws rb wb wsb :
  sv_clients srv' !! x = sv_clients srv !! x →
  buffers srv' x ws rb wb wsb ↔ buffers srv x ws rb wb wsb.
Proof. intros Heq. unfold buffers. by rewrite Heq. Qed.

(** The outbuffer of the client itself. *)
Lemma wp_push_json_sent o cid j srv :
  oracle_sane o → ready srv cid →
  wp (push_json o cid j) srv (λ rc srv', quiet (at_client cid) srv srv' ∧
    (0 ≤ rc → is_Some (json_dumps (at_ o 0) j)) ∧
    ∀ text, json_dumps (at_ o 0) j = Some text → grants o limit → told (text, []) cid srv srv').
Proof.
  intros Hs Hr. eapply wp_mono.
  - apply (wp_forall _ _ (λ '(ws, rb, wb, wsb) rc srv', quiet (at_client cid) srv srv' ∧
      (0 ≤ rc → is_Some (json_dumps (at_ o 0) j)) ∧
      ∀ text, json_dumps (at_ o 0) j = Some text →
        push_fits (sub o 1) srv cid ws rb wb wsb (text, []) →
        0 ≤ rc ∧ buffers srv' cid ws rb (wb ++ wire ws (text, [])) wsb)).
    intros [[[ws rb] wb] wsb]. by apply wp_push_json_all.
  - intros rc srv' Hall. destruct (Hall (true, [], [], [])) as (Hq & Hd & _).
    split; [done|]. split; [done|]. intros text Htext Hg ws rb wb wsb Hbuf Hlim.
    destruct (Hall (ws, rb, wb, wsb)) as (_ & _ & Hfit). apply (Hfit text Htext).
    split; [by apply grants_sub|by split].
Qed.

Lemma wp_push_json_told o cid j srv :
  oracle_sane o → ready srv cid →
  wp (push_json o cid j) srv (λ rc srv', quiet (at_client cid) srv srv' ∧
    (0 ≤ rc → ∃ text, json_dumps (at_ o 0) j = Some text ∧
       (grants o limit → told (text, []) cid srv srv'))).
Proof.
  intros Hs Hr. eapply wp_mono; [by apply wp_push_json_sent|]. intros rc srv' (Hq & Hd & Ht).
  split; [done|]. intros [text Htext]%Hd. exists text. auto.
Qed.

(** The buffers depend on the socket only. *)
Lemma buffers_sock srv srv' x ws rb wb wsb :
  cl_sock <$> sv_clients srv' !! x = cl_sock <$> sv_clients srv !! x →
  buffers srv x ws rb wb wsb → buffers srv' x ws rb wb wsb.
Proof.
  intros Heq (c & Hc & Hrep & Hws). rewrite Hc in Heq.
  destruct (sv_clients srv' !! x) as [c'|] eqn:Hc'; [|done]. injection Heq as Heq.
  exists c'. by rewrite Heq.
Qed.

Lemma told_sock m x srv0 srv1 srv2 srv3 :
  cl_sock <$> sv_clients srv1 !! x = cl_sock <$> sv_clients srv0 !! x →
  cl_sock <$> sv_clients srv3 !! x = cl_sock <$> sv_clients srv2 !! x →
  told m x srv1 srv2 → told m x srv0 srv3.
Proof.
  intros H1 H2 Ht ws rb wb wsb Hbuf Hlim.
  by apply (buffers_sock srv2), Ht; [|by apply (buffers_sock srv0)|].
Qed.

Lemma told_after m x srv0 srv srv' :
  sv_clients srv !! x = sv_clients srv0 !! x → told m x srv srv' → told m x srv0 srv'.
Proof. intros Heq Ht ws rb wb wsb Hbuf. apply Ht. by apply (buffers_same srv0). Qed.

Lemma told_before m x srv0 srv srv' :
  sv_clients srv' !! x = sv_clients srv !! x → told m x srv0 srv → told m x srv0 srv'.
Proof. intros Heq Ht ws rb wb wsb Hbuf Hlim. apply (buffers_same srv); [done|by apply Ht]. Qed.

(** ** Error responses *)

(** An allocator with memory to spare. *)
Definition generous (al : allocator) : Prop := ∀ n, n ≤ limit → al n = true.

Lemma grants_generous o n : grants o limit → generous (at_ o n).
Proof. intros Hg k Hk. by apply Hg. Qed.

(** There is memory for a response of this kind, however it is packed. *)
Definition packs (args : cmd_args) : Prop :=
  (∀ al, generous al → is_Some (json_pack al args)) ∧
  ∀ al al' resp, generous al → json_pack al' args = Some resp → is_Some (json_dumps al resp).

(** The client is sent this response. *)
Definition replied (args : cmd_args) cid srv srv' : Prop :=
  ∃ al al' resp text, json_pack al args = Some resp ∧ json_dumps al' resp = Some text ∧
    told (text, []) cid srv srv'.

Lemma replied_sock args x srv0 srv1 srv2 srv3 :
  cl_sock <$> sv_clients srv1 !! x = cl_sock <$> sv_clients srv0 !! x →
  cl_sock <$> sv_clients srv3 !! x = cl_sock <$> sv_clients srv2 !! x →
  replied args x srv1 srv2 → replied args x srv0 srv3.
Proof.
  intros H1 H2 (al & al' & resp & text & ? & ? & Ht). exists al, al', resp, text.
  split_and!; [done..|]. by eapply told_sock.
Qed.

Variable strerror : string.

(** The responses to a command that fails. *)
Inductive error_args : cmd_args → Prop :=
  | error_errno : error_args (args_error strerror)
  | error_text s : (String.length s < 100)%nat → error_args (args_error s)
  | error_text2 s t : (String.length s + String.length t < 100)%nat → error_args (args_error2 s t).

(** There is memory for them. *)
Definition errors_pack : Prop := ∀ args, error_args args → packs args.

(** The command fails and says why. *)
Definition refused args o cid srv (rc : Z) srv' : Prop :=
  rc = -1 ∧ quiet (at_client cid) srv srv' ∧
  (grants o limit → errors_pack → replied args cid srv srv').

Lemma wp_respond_replied o cid args srv :
  oracle_sane o → ready srv cid → error_args args →
  wp (respond o cid args;; mret (-1)) srv (refused args o cid srv).
Proof.
  intros Hs Hr Hargs. unfold respond. apply wp_bind.
  destruct (json_pack (at_ o 0) args) as [resp|] eqn:E.
  - apply wp_bind. eapply wp_mono; [apply (wp_push_json_sent (sub o 1)); eauto with oracle|].
    intros _ srv' (Hq & _ & Ht). apply wp_ret, wp_ret. split; [done|]. split; [done|].
    intros Hg Hpack. destruct (Hpack _ Hargs) as [_ Hd].
    destruct (Hd (at_ (sub o 1) 0) (at_ o 0) resp) as [text Htext]; [|done|].
    { by apply grants_generous, grants_sub. }
    exists (at_ o 0), (at_ (sub o 1) 0), resp, text. split_and!; [done..|].
    by apply Ht; [|apply grants_sub].
  - apply wp_ret, wp_ret. split; [done|]. split; [apply quiet_refl|]. intros Hg Hpack.
    destruct (Hpack _ Hargs) as [Hp _].
    destruct (Hp (at_ o 0) (grants_generous _ _ Hg)). congruence.
Qed.

Lemma wp_refuse_errno o cid srv :
  oracle_sane o → ready srv cid →
  wp (fail_errno strerror o cid) srv (refused (args_error strerror) o cid srv).
Proof. intros. apply wp_respond_replied; [done..|constructor]. Qed.

Lemma wp_refuse_text o cid s srv :
  oracle_sane o → ready srv cid → (String.length s < 100)%nat →
  wp (fail_text o cid s) srv (refused (args_error s) o cid srv).
Proof. intros. apply wp_respond_replied; [done..|by constructor]. Qed.

Lemma wp_refuse_text2 o cid s t srv :
  oracle_sane o → ready srv cid → (String.length s + String.length t < 81)%nat →
  wp (fail_text2 o cid s t) srv (refused (args_error2 s t) o cid srv).
Proof.
  intros Hs Hr Hlen. unfold fail_text2, set_err2. rewrite (proj2 (Nat.ltb_lt _ _)) by done.
  apply wp_bind, wp_ret. apply wp_respond_replied; [done..|]. constructor. lia.
Qed.

(** ** The end of a command *)

Lemma wp_finish_all o cid srv ws rb wb wsb :
  oracle_sane o → ready srv cid →
  wp (finish strerror o cid) srv (λ rc srv', answers cid srv rc srv' ∧
    (push_fits (sub o 0) srv cid ws rb wb wsb (status0, []) →
     rc = 0 ∧ buffers srv' cid ws rb (wb ++ wire ws (status0, [])) wsb)).
Proof.
  intros Hs Hr. apply wp_conj; [by apply (wp_finish (limit:=limit))|].
  apply (wp_impl _ _ _ (λ _ _, True)).
  { eapply wp_mono; [by apply (wp_finish (limit:=limit))|done]. }
  intros (Hg & Hbuf & Hlim). unfold finish. apply wp_bind.
  eapply wp_mono; [apply (wp_push_text_all (sub o 0)); eauto with oracle|].
  intros rc srv' [Hrc Hbuf']. rewrite (proj2 (Z.ltb_ge _ _)) by done. by apply wp_ret.
Qed.

(** There is memory for the outbuffer of a client to take [n] bytes and a
    header. *)
Definition room (n : Z) (c : dime_client) : Prop :=
  ∀ rb wb wsb, sock_rep (cl_sock c) rb wb wsb → 2 * (zlen wb + n + 22) ≤ limit.

Lemma wp_finish_told o cid srv :
  oracle_sane o → grants o limit → ready srv cid →
  wp (finish strerror o cid) srv (λ rc srv', answers cid srv rc srv' ∧
    told (status0, []) cid srv srv' ∧
    ∀ c, sv_clients srv !! cid = Some c → room 12 c → rc = 0).
Proof.
  intros Hs Hg Hr. pose proof Hr as [[c Hc] Hwf].
  destruct (Hwf _ _ Hc) as (rb0 & wb0 & wsb0 & Hrep & _). eapply wp_mono.
  { apply (wp_forall _ _ (λ '(ws, rb, wb, wsb) rc srv', answers cid srv rc srv' ∧
      (push_fits (sub o 0) srv cid ws rb wb wsb (status0, []) →
       rc = 0 ∧ buffers srv' cid ws rb (wb ++ wire ws (status0, [])) wsb))).
    intros [[[ws rb] wb] wsb]. by apply wp_finish_all. }
  intros rc srv' Hall. split; [by apply (Hall (false, [], [], []))|]. split.
  - intros ws rb wb wsb Hbuf Hlim. apply (Hall (ws, rb, wb, wsb)). split; [eauto with oracle|done].
  - intros c0 Hc0 Hroom. simplify_eq.
    apply (Hall (so_ws (cl_sock c), rb0, wb0, wsb0)). split; [eauto with oracle|]. split.
    + by exists c.
    + apply (Hroom rb0 wb0 wsb0) in Hrep. simpl. change (zlen status0) with 12. zlia.
Qed.
End push.
