(* ===== verification/ClientDeliver.v ===== *)
(** * Delivery

    Queueing one message at one client, and at all clients of a list. *)

From S2P Require Import Prelude Deque Json Socket SocketSpec State Client Invariant ClientSpec ClientPush.
From Stdlib Require String.

Section deliver.
Context `{Jansson} {limit : Z} `{!JanssonLaws limit}.
Variable strerror : string.
Implicit Types (o : oracle) (cid gid mid : Z) (srv : dime_server).

(** ** Delivery *)

Lemma inv_msg_mid busy srv qs mid m :
  server_inv busy srv qs → sv_msgs srv !! mid = Some m → 0 ≤ ms_refs m < 2 ^ 32.
Proof.
  intros Hinv Hm. pose proof (vi_refs _ _ _ Hinv) as Hr.
  destruct (ri_refs _ _ _ Hr _ _ Hm) as [-> _].
  pose proof (refs_of_bound qs mid). pose proof (ri_few _ _ _ Hr). lia.
Qed.

(** [put_client] with another queue, when the queue is what it was. *)
Lemma put_same_queue srv cid c :
  sv_clients srv !! cid = Some c →
  sv_set_clients srv (<[cid := cl_set_queue c (cl_queue c)]> (sv_clients srv)) = srv.
Proof.
  intros Hc. destruct c, srv. simpl in *. unfold sv_set_clients. simpl. by rewrite insert_id.
Qed.

(** There is memory for the queue of a client to grow once. *)
Definition queue_room (c : dime_client) : Prop :=
  u64 (u64 (3 * dq_cap (cl_queue c)) / 2 * 8) ≤ limit.

(** The response to a [wait] has been sent. *)
Definition notified (n x : Z) srv srv' : Prop :=
  ∃ al al' j text, json_pack al (args_n n) = Some j ∧ json_dumps al' j = Some text ∧
    told (limit:=limit) (text, []) x srv srv'.

(** A receiver does not wait any more; if it did, it has been sent that there
    is one message, and else it has been sent nothing. *)
Definition woken srv srv' x : Prop :=
  ∀ c, sv_clients srv !! x = Some c → ∃ c', sv_clients srv' !! x = Some c' ∧
    cl_waiting c' = false ∧
    if cl_waiting c then notified 1 x srv srv' else cl_sock c' = cl_sock c.

Lemma woken_before srv0 srv1 srv2 x :
  sv_clients srv1 !! x = sv_clients srv0 !! x → woken srv1 srv2 x → woken srv0 srv2 x.
Proof.
  intros Heq Hw c Hc. rewrite <-Heq in Hc. destruct (Hw c Hc) as (c' & Hc' & Hf & Hn).
  exists c'. split; [done|]. split; [done|]. destruct (cl_waiting c); [|done].
  destruct Hn as (al & al' & j & text & ? & ? & Ht). exists al, al', j, text. split_and!; [done..|].
  eapply told_sock; [|done|exact Ht]. by rewrite Heq.
Qed.

Lemma woken_after srv0 srv1 srv2 x :
  sv_clients srv2 !! x = sv_clients srv1 !! x → woken srv0 srv1 x → woken srv0 srv2 x.
Proof.
  intros Heq Hw c Hc. destruct (Hw c Hc) as (c' & Hc' & Hf & Hn).
  exists c'. rewrite Heq. split; [done|]. split; [done|]. destruct (cl_waiting c); [|done].
  destruct Hn as (al & al' & j & text & ? & ? & Ht). exists al, al', j, text. split_and!; [done..|].
  eapply told_sock; [done| |exact Ht]. by rewrite Heq.
Qed.

(** A message without a reference is freed. *)
Definition if_used mid (m : dime_rcmessage) (msgs : gmap Z dime_rcmessage) :=
  if ms_refs m =? 0 then delete mid msgs else msgs.

(** Sending the notice to a receiver that waits. *)
Lemma wp_wake o other c resp srv :
  oracle_sane o → grants o limit → sv_clients srv !! other = Some c → has_room (limit:=limit) c →
  ready srv other → (∀ al, (∀ k, k ≤ limit → al k = true) → is_Some (json_dumps al resp)) →
  wp (push_json o other resp) srv (λ rc srv', 0 ≤ rc ∧ quiet (at_client other) srv srv' ∧
    ∃ text, json_dumps (at_ o 0) resp = Some text ∧ told (limit:=limit) (text, []) other srv srv').
Proof.
  intros Hs Hg Hc Hroom Hready Hdumps. eapply wp_mono.
  { apply wp_conj; [by apply (wp_push_json (limit:=limit) o)|by apply (wp_push_json_told o)]. }
  intros rc srv' [[Hq Hrc] [_ Htold]]. specialize (Hrc _ Hc Hroom Hg).
  assert (0 ≤ rc) as Hrc0 by (apply Hrc, Hdumps; intros; by apply Hg).
  split; [done|]. split; [done|]. destruct (Htold Hrc0) as (text & Hd & Ht). eauto.
Qed.

(** The receiver does not wait any more. *)
Lemma quiet_awake srv srv2 other c c2 q :
  sv_clients srv !! other = Some c →
  quiet (at_client other) (sv_set_clients srv (<[other := cl_set_queue c q]> (sv_clients srv))) srv2 →
  sv_clients srv2 !! other = Some c2 →
  quiet (at_client other)
    (sv_set_clients srv (<[other := cl_set_waiting (cl_set_queue c q) false]> (sv_clients srv)))
    (sv_set_clients srv2 (<[other := cl_set_waiting c2 false]> (sv_clients srv2))).
Proof.
  intros Hc Hq2 Hc2. set (srv1 := sv_set_clients srv _) in Hq2.
  assert (sv_clients srv1 !! other = Some (cl_set_queue c q)) as Hc1 by apply lookup_insert_eq.
  pose proof (quiet_upd _ _ _ other _ _ (cl_set_waiting (cl_set_queue c q) false)
    (cl_set_waiting c2 false) Hq2 Hc1 Hc2) as Hq3.
  eapply quiet_weaken; [|unfold srv1 in Hq3; cbn [sv_clients sv_set_clients] in Hq3;
    rewrite insert_insert_eq in Hq3; apply Hq3; try done; exact (quiet_queue _ _ _ _ _ _ Hq2 Hc1 Hc2)].
  unfold at_client. tauto.
Qed.

(** What a delivery comes to. *)
Definition delivered_one mid other srv qs m xs c (r : option Z) srv' : Prop :=
  match r with
  | None => server_inv (Some mid) srv' (<[other := xs ++ [mid]]> qs) ∧ keeps srv srv' ∧
      (∀ x, x ≠ other → sv_clients srv' !! x = sv_clients srv !! x) ∧
      sv_msgs srv' = <[mid := ms_set_refs m (ms_refs m + 1)]> (sv_msgs srv) ∧
      woken srv srv' other
  | Some rc => rc = -1 ∧ server_inv None srv' qs ∧ keeps srv srv' ∧ ¬ queue_room c ∧
      sv_msgs srv' = if_used mid m (sv_msgs srv)
  end.

(** The queue has no room. *)
Lemma wp_deliver_refused o cid mid other srv qs m xs c :
  oracle_sane o → server_inv (Some mid) srv qs → is_Some (sv_clients srv !! cid) →
  sv_msgs srv !! mid = Some m → ¬ queue_room c →
  wp (free_if_unused mid;; rc ← fail_errno strerror o cid; mret (Some rc)) srv
    (delivered_one mid other srv qs m xs c).
Proof.
  intros Hs Hinv Hcid Hm Hroom. pose proof (inv_done _ _ _ _ Hinv Hm) as Hinv1.
  apply wp_bind. eapply wp_mono; [by apply (wp_free_if_unused mid m)|]. intros [] srv1 ->.
  apply wp_bind. eapply wp_mono; [apply (wp_fail_errno strerror o); [done|by eapply inv_ready]|].
  intros rc srv2 [-> Hq2]. apply wp_ret. split; [done|]. split; [by eapply quiet_inv|].
  split; [|split; [done|by rewrite (qu_msgs _ _ _ Hq2)]].
  eapply keeps_trans; [by apply keeps_set_msgs, keeps_refl|by eapply quiet_keeps].
Qed.

(** What is left in the end is to count the reference, in a state in which the
    receiver does not wait and has the message in its queue. *)
Lemma wp_count_ref mid other srv srv2 qs m xs c q :
  server_inv (Some mid) srv qs → sv_clients srv !! other = Some c → qs !! other = Some xs →
  mid ∉ xs → sv_msgs srv !! mid = Some m → deque_rep q (xs ++ [mid]) → keeps srv srv2 →
  quiet (at_client other) (sv_set_clients srv
    (<[other := cl_set_waiting (cl_set_queue c q) false]> (sv_clients srv))) srv2 →
  woken srv srv2 other →
  wp (ref mid;; mret None) srv2 (delivered_one mid other srv qs m xs c).
Proof.
  intros Hinv Hc Hxs Hnin Hm Hq Hk2 Hq2 Hw2.
  destruct (refs_inv_push _ _ other mid xs m (vi_refs _ _ _ Hinv) Hxs Hnin Hm) as [Hlt Hrefs].
  pose proof (inv_msg_mid _ _ _ _ _ Hinv Hm). rewrite u32_small in Hrefs by lia.
  apply wp_bind. eapply wp_mono.
  { apply (wp_ref mid m). by rewrite (qu_msgs _ _ _ Hq2). }
  intros [] srv3 ->. apply wp_ret. rewrite (qu_msgs _ _ _ Hq2), u32_small by lia.
  pose proof (inv_set_queue (Some mid) (Some mid) srv qs other c
    (cl_set_waiting (cl_set_queue c q) false) (xs ++ [mid])
    (<[mid := ms_set_refs m (ms_refs m + 1)]> (sv_msgs srv)) Hinv Hc Hq eq_refl eq_refl eq_refl
    ltac:(done) Hrefs ltac:(intros p [<-|[_ ?]]%lookup_insert_is_Some; eauto)) as Hinv1.
  split_and!.
  - eapply (quiet_inv (at_client other)); [|exact Hinv1]. by destruct Hq2; split.
  - by apply keeps_set_msgs.
  - intros x Hx. simpl. rewrite (qu_other _ _ _ Hq2) by done. by apply lookup_insert_ne.
  - done.
  - by eapply woken_after.
Qed.

Lemma wp_deliver o cid mid other srv qs m xs c :
  oracle_sane o → grants o limit → server_inv (Some mid) srv qs →
  is_Some (sv_clients srv !! cid) → sv_clients srv !! other = Some c → has_room (limit:=limit) c →
  qs !! other = Some xs → mid ∉ xs → sv_msgs srv !! mid = Some m →
  wp (deliver strerror o cid mid other) srv (delivered_one mid other srv qs m xs c).
Proof.
  intros Hs Hg Hinv Hcid Hc Hroom Hxs Hnin Hm.
  destruct (inv_queue _ _ _ _ _ Hinv Hc) as (xs' & Hxs' & Hd). simplify_eq.
  unfold deliver. wp_step. apply wp_bind, wp_lift.
  pose proof (pushr_rep (at_ o 0) (cl_queue c) xs mid ltac:(eauto with oracle) Hd) as Hp.
  apply returns_eq in Hp as ([rc q] & -> & [(-> & Hq & _)|(-> & -> & _ & _ & Hno & _)]); simpl.
  2:{ apply wp_bind, wp_modify. rewrite put_same_queue by done. cbn [Z.ltb Z.compare].
      apply wp_deliver_refused; eauto with oracle.
      intros Hr. unfold at_ in Hno. rewrite Hg in Hno; done. }
  apply wp_bind, wp_modify. cbn [Z.ltb Z.compare].
  set (srv1 := sv_set_clients srv _). set (awake := cl_set_waiting (cl_set_queue c q) false).
  assert (sv_clients srv1 !! other = Some (cl_set_queue c q)) as Hc1 by apply lookup_insert_eq.
  assert (keeps srv srv1) as Hk1 by by apply keeps_set_queue.
  apply wp_bind. eapply wp_get_client; [exact Hc1|].
  destruct (cl_waiting (cl_set_queue c q)) eqn:Ewait.
  2:{ apply (wp_count_ref mid other srv _ qs m xs c q); try done.
      - assert (cl_set_waiting (cl_set_queue c q) false = cl_set_queue c q) as ->;
          [|apply quiet_refl]. rewrite <-Ewait. by destruct c.
      - intros c0 Hc0. simplify_eq. exists (cl_set_queue c q). simpl in Ewait. by rewrite Ewait. }
  destruct (pack_n (at_ o 2) (dime_deque_len (cl_queue (cl_set_queue c q)))) as [resp Hresp];
    [intros; by apply Hg|]. rewrite Hresp.
  assert (ready srv1 other) as Hready1.
  { apply ready_set_queue; [done|]. eapply inv_ready; [done|by rewrite Hc]. }
  apply wp_bind. eapply wp_mono; [by apply (wp_wake (sub o 4) other (cl_set_queue c q) resp srv1);
    eauto using grants_sub with oracle; intros al Hal; eapply dumps_n; [exact Hal|exact Hresp]|].
  intros rc srv2 (Hrc0 & Hq2 & text & Hd2 & Ht). rewrite (proj2 (Z.ltb_ge rc 0)) by done.
  destruct (quiet_client _ _ _ _ _ Hq2 Hc1) as [c2 Hc2]. wp_step. apply wp_bind, wp_modify.
  apply (wp_count_ref mid other srv _ qs m xs c q); try done.
  - eapply keeps_trans; [exact Hk1|]. eapply keeps_trans; [by eapply quiet_keeps|].
    by eapply quiet_keeps, (quiet_put _ _ c2).
  - by apply (quiet_awake _ _ _ _ c2).
  - intros c0 Hc0. simplify_eq. eexists. split; [apply lookup_insert_eq|]. split; [done|].
    simpl in Ewait. rewrite Ewait. exists (at_ o 2), (at_ (sub o 4) 0), resp, text.
    split; [|split; [done|]].
    + rewrite <-Hresp. do 2 f_equal. simpl.
      pose proof (vi_waiting _ _ _ Hinv _ _ Hc Ewait) as Hnil. simplify_eq.
      destruct Hq as [_ _ [Hl _] _ _ _]. by unfold dime_deque_len; rewrite Hl.
    + eapply told_sock; [| |exact Ht].
      * by rewrite Hc1, Hc.
      * cbn [sv_clients sv_set_clients]. by rewrite lookup_insert_eq, Hc2.
Qed.

(** The queues after a delivery to the clients of a list, except those to
    skip. *)
Definition push_all (skip : Z → bool) (mid : Z) (others : list Z) (qs : gmap Z (list Z)) :=
  foldl (λ qs x, if skip x then qs else alter (λ xs, xs ++ [mid]) x qs) qs others.

Lemma alter_insert {A} (f : A → A) (m : gmap Z A) i x :
  m !! i = Some x → alter f i m = <[i := f x]> m.
Proof.
  intros Hi. apply map_eq. intros j. destruct (decide (i = j)) as [->|].
  - by rewrite lookup_alter_eq, lookup_insert_eq, Hi.
  - by rewrite lookup_alter_ne, lookup_insert_ne.
Qed.

Definition served_count (skip : Z → bool) (others : list Z) : Z :=
  Z.of_nat (length (filter (λ x, skip x = false) others)).

(** What the deliveries come to. *)
Definition delivered_all (skip : Z → bool) mid others srv qs m (r : option Z) srv' : Prop :=
  match r with
  | None => server_inv (Some mid) srv' (push_all skip mid others qs) ∧ keeps srv srv' ∧
      sv_msgs srv' = <[mid := ms_set_refs m (ms_refs m + served_count skip others)]>
        (sv_msgs srv) ∧
      ∀ x, if bool_decide (x ∈ others) && negb (skip x) then woken srv srv' x
           else sv_clients srv' !! x = sv_clients srv !! x
  | Some rc => rc = -1 ∧ keeps srv srv' ∧ ∃ front x rest c m', others = front ++ x :: rest ∧
      sv_clients srv !! x = Some c ∧ ¬ queue_room c ∧
      m' = ms_set_refs m (ms_refs m + served_count skip front) ∧
      server_inv None srv' (push_all skip mid front qs) ∧
      sv_msgs srv' = if_used mid m' (<[mid := m']> (sv_msgs srv))
  end.

Lemma bool_decide_cons (x y : Z) l :
  bool_decide (y ∈ x :: l) = bool_decide (y = x) || bool_decide (y ∈ l).
Proof. rewrite <-bool_decide_or. apply bool_decide_ext, elem_of_cons. Qed.

Lemma served_cons skip x others :
  served_count skip (x :: others) = (if skip x then 0 else 1) + served_count skip others.
Proof.
  unfold served_count. destruct (skip x) eqn:Hx.
  - by rewrite filter_cons_False by (by rewrite Hx).
  - rewrite filter_cons_True by done. cbn [length]. lia.
Qed.

Lemma push_all_cons skip mid x others qs xs :
  qs !! x = Some xs →
  push_all skip mid (x :: others) qs
  = push_all skip mid others (if skip x then qs else <[x := xs ++ [mid]]> qs).
Proof. intros Hx. unfold push_all. simpl. by rewrite (alter_insert _ _ _ _ Hx). Qed.

(** One client is left out, then the rest. *)
Lemma delivered_skip skip mid x others srv qs m xs r srv' :
  skip x = true → qs !! x = Some xs → delivered_all skip mid others srv qs m r srv' →
  delivered_all skip mid (x :: others) srv qs m r srv'.
Proof.
  intros Hskip Hxs. destruct r as [rc|].
  - intros (? & ? & front & y & rest & cy & m' & -> & ? & ? & -> & ? & ?).
    split_and!; [done..|]. exists (x :: front), y, rest, cy. eexists.
    by rewrite (push_all_cons _ _ _ _ _ _ Hxs), served_cons, Hskip.
  - intros (? & ? & ? & Hw). unfold delivered_all.
    rewrite (push_all_cons _ _ _ _ _ _ Hxs), served_cons, Hskip.
    split_and!; try done. intros y. specialize (Hw y). rewrite bool_decide_cons.
    destruct (bool_decide_reflect (y = x)) as [->|]; [|done].
    by rewrite Hskip, andb_false_r in Hw |- *.
Qed.

(** One client has been reached, then the rest. *)
Lemma delivered_next skip mid x others srv srv1 qs m xs c r srv' :
  skip x = false → qs !! x = Some xs → x ∉ others →
  delivered_one mid x srv qs m xs c None srv1 →
  delivered_all skip mid others srv1 (<[x := xs ++ [mid]]> qs) (ms_set_refs m (ms_refs m + 1)) r srv' →
  delivered_all skip mid (x :: others) srv qs m r srv'.
Proof.
  intros Hskip Hxs Hx (Hinv1 & Hkeep & Hsame & Hm1 & Hw1). destruct r as [rc|].
  - intros (? & ? & front & y & rest & cy & m' & -> & Hcy & ? & -> & Hi & Hms).
    split_and!; [done|by eapply keeps_trans|]. exists (x :: front), y, rest, cy. eexists.
    assert (y ≠ x). { intros ->. apply Hx, elem_of_app. right. by left. }
    rewrite (push_all_cons _ _ _ _ _ _ Hxs), served_cons, Hskip, Z.add_assoc.
    split_and!; [done|by rewrite <-(Hsame y)|done..|].
    by rewrite Hms, Hm1, insert_insert_eq.
  - intros (Hinv2 & Hkeep2 & Hm2 & Hw2). unfold delivered_all.
    rewrite (push_all_cons _ _ _ _ _ _ Hxs), served_cons, Hskip, Z.add_assoc.
    split_and!; [exact Hinv2|by eapply keeps_trans|by rewrite Hm2, Hm1, insert_insert_eq|].
    intros y. specialize (Hw2 y). rewrite bool_decide_cons.
    destruct (bool_decide_reflect (y = x)) as [->|Hne].
    + rewrite (bool_decide_eq_false_2 _ Hx) in Hw2. simpl in Hw2 |- *. rewrite Hskip. simpl.
      by eapply woken_after.
    + simpl in Hw2 |- *. destruct (_ && _).
      * eapply woken_before; [|done]. by apply Hsame.
      * rewrite Hw2. by apply Hsame.
Qed.

(** One client could not be reached. *)
Lemma delivered_stop skip mid x others srv qs m xs c rc srv' :
  sv_msgs srv !! mid = Some m → sv_clients srv !! x = Some c →
  delivered_one mid x srv qs m xs c (Some rc) srv' →
  delivered_all skip mid (x :: others) srv qs m (Some rc) srv'.
Proof.
  intros Hm Hc (-> & ? & ? & ? & Hm1). split_and!; [done..|].
  exists [], x, others, c. eexists. split_and!; [done..|]. rewrite Hm1.
  unfold served_count. simpl. rewrite Z.add_0_r.
  replace (ms_set_refs m (ms_refs m)) with m by by destruct m. by rewrite insert_id.
Qed.

Lemma wp_deliver_all cid mid (skip : Z → bool) (body : oracle → Z → M (option Z)) others :
  (∀ o other srv qs, server_inv (Some mid) srv qs → is_Some (sv_clients srv !! cid) →
     is_Some (sv_clients srv !! other) →
     body o other srv
     = (if skip other then mret None else deliver strerror o cid mid other) srv) →
  ∀ o srv qs m, oracle_sane o → grants o limit → server_inv (Some mid) srv qs →
  is_Some (sv_clients srv !! cid) → sv_msgs srv !! mid = Some m → NoDup others →
  (∀ x, x ∈ others → ∃ c, sv_clients srv !! x = Some c ∧
     (skip x = false → has_room (limit:=limit) c ∧ ∀ xs, qs !! x = Some xs → mid ∉ xs)) →
  wp (for_each o body others) srv (delivered_all skip mid others srv qs m).
Proof.
  intros Hbody. induction others as [|x others IH]; intros o srv qs m Hs Hg Hinv Hcid Hm Hnd Hall.
  { apply wp_ret. split_and!; [done|apply keeps_refl| |].
    - unfold served_count. simpl. rewrite Z.add_0_r, insert_id; [done|]. rewrite Hm. by destruct m.
    - intros x. by rewrite bool_decide_eq_false_2 by apply not_elem_of_nil. }
  apply NoDup_cons in Hnd as [Hx Hnd]. cbn [for_each]. apply wp_bind.
  destruct (Hall x) as (c & Hc & Hroom); [by left|].
  destruct (inv_queue _ _ _ _ _ Hinv Hc) as (xs & Hxs & _). unfold wp.
  rewrite (Hbody (sub o 0) x srv qs) by (done || by rewrite Hc). destruct (skip x) eqn:Hskip.
  { eapply wp_mono; [apply (IH (sub o 1) srv qs m); eauto with oracle; intros y Hy; apply Hall;
      by right|]. intros r srv1. by eapply delivered_skip. }
  destruct (Hroom eq_refl) as [Hr Hq].
  eapply wp_mono; [by apply (wp_deliver (sub o 0) cid mid x srv qs m xs c); eauto with oracle|].
  intros [rc|] srv1 Hone; [by eapply wp_ret, delivered_stop|].
  pose proof Hone as (Hinv1 & Hkeep & Hsame & Hm1 & _).
  eapply wp_mono; [apply (IH (sub o 1) srv1 _ (ms_set_refs m (ms_refs m + 1))
    ltac:(eauto with oracle) ltac:(eauto with oracle) Hinv1); [..|exact Hnd|]|].
  - by apply (keeps_client _ _ _ Hkeep).
  - rewrite Hm1. apply lookup_insert_eq.
  - intros y Hy. assert (y ≠ x) as Hne by (intros ->; done).
    destruct (Hall y) as (cy & Hcy & Hroomy); [by right|]. exists cy.
    rewrite Hsame by done. split; [done|]. intros Hsy. destruct (Hroomy Hsy) as [? Hqy].
    split; [done|]. intros ys. rewrite lookup_insert_ne by done. apply Hqy.
  - intros r srv2. by eapply delivered_next.
Qed.
End deliver.
