(* ===== verification/Inbox.v ===== *)
(** * What clients have been sent

    The contract of the message commands speaks of the texts and data in the
    queue of every client, not of messages in the store and their reference
    counts. *)

From S2P Require Import Prelude Deque Json Socket State Client Invariant ClientSpec ClientPush ClientDeliver.

Definition content (m : dime_rcmessage) : message := (ms_jsondata m, ms_bindata m).

(** The messages that a list of addresses stands for. *)
Definition inbox (msgs : gmap Z dime_rcmessage) (xs : list Z) : list message :=
  omap (λ mid, content <$> msgs !! mid) xs.

(** The invariant holds, and [boxes] has the messages queued for each
    client. *)
Definition server_view (srv : dime_server) (boxes : gmap Z (list message)) : Prop :=
  ∃ qs, server_inv None srv qs ∧ boxes = inbox (sv_msgs srv) <$> qs.

(** Every client that passes the test gets one more message. *)
Definition posted (to : Z → bool) (m : message) (boxes : gmap Z (list message)) :
    gmap Z (list message) :=
  map_imap (λ x b, Some (if to x then b ++ [m] else b)) boxes.

Lemma lookup_posted to m boxes x :
  posted to m boxes !! x = (λ b, if to x then b ++ [m] else b) <$> boxes !! x.
Proof. unfold posted. rewrite map_lookup_imap. by destruct (boxes !! x). Qed.

Lemma posted_ext to to' m boxes :
  (∀ x, is_Some (boxes !! x) → to x = to' x) → posted to m boxes = posted to' m boxes.
Proof.
  intros Hto. apply map_eq. intros x. rewrite !lookup_posted.
  destruct (boxes !! x) eqn:E; [|done]. simpl. by rewrite Hto.
Qed.

Lemma posted_nobody to m boxes :
  (∀ x, is_Some (boxes !! x) → to x = false) → posted to m boxes = boxes.
Proof.
  intros Hto. apply map_eq. intros x. rewrite lookup_posted.
  destruct (boxes !! x) eqn:E; [|done]. simpl. by rewrite Hto.
Qed.

Lemma server_view_ok srv boxes : server_view srv boxes → server_ok srv.
Proof. intros (qs & ? & _). by exists qs. Qed.

Lemma server_ok_view srv : server_ok srv → ∃ boxes, server_view srv boxes.
Proof. intros (qs & ?). by exists (inbox (sv_msgs srv) <$> qs), qs. Qed.

Lemma inbox_cons msgs mid xs :
  inbox msgs (mid :: xs)
  = match content <$> msgs !! mid with Some m => m :: inbox msgs xs | None => inbox msgs xs end.
Proof. unfold inbox. simpl. by destruct (msgs !! mid). Qed.

Lemma inbox_ext msgs msgs' xs :
  (∀ mid, mid ∈ xs → content <$> msgs' !! mid = content <$> msgs !! mid) →
  inbox msgs' xs = inbox msgs xs.
Proof.
  induction xs as [|mid xs IH]; intros Heq; [done|]. rewrite !inbox_cons.
  rewrite (Heq mid) by by left. rewrite IH; [done|]. intros y Hy. apply Heq. by right.
Qed.

Lemma inbox_app msgs xs ys : inbox msgs (xs ++ ys) = inbox msgs xs ++ inbox msgs ys.
Proof. apply omap_app. Qed.

Lemma quiet_view T srv srv' boxes :
  quiet T srv srv' → server_view srv boxes → server_view srv' boxes.
Proof.
  intros Hq (qs & Hinv & ->). exists qs. split; [by eapply quiet_inv|].
  by rewrite (qu_msgs _ _ _ Hq).
Qed.

(** A box for every client. *)
Lemma server_view_dom srv boxes cid :
  server_view srv boxes → is_Some (boxes !! cid) ↔ is_Some (sv_clients srv !! cid).
Proof.
  intros (qs & Hinv & ->). rewrite lookup_fmap, fmap_is_Some.
  pose proof (vi_queues _ _ _ Hinv cid) as Hq. rewrite lookup_fmap in Hq.
  destruct (sv_clients srv !! cid), (qs !! cid); simpl in Hq; try done;
    split; intros [? [=]]; eauto.
Qed.

Lemma server_view_empty srv : server_view srv ∅ → sv_clients srv = ∅.
Proof.
  intros Hv. apply map_eq. intros x. rewrite lookup_empty. apply eq_None_not_Some.
  rewrite <-(server_view_dom _ _ x Hv), lookup_empty. by intros [? [=]].
Qed.

Lemma push_all_lookup skip mid others qs x :
  NoDup others →
  push_all skip mid others qs !! x
  = (λ xs, if bool_decide (x ∈ others) && negb (skip x) then xs ++ [mid] else xs) <$> qs !! x.
Proof.
  revert qs. induction others as [|y others IH]; intros qs Hnd.
  { rewrite bool_decide_eq_false_2 by apply not_elem_of_nil. simpl. by destruct (qs !! x). }
  apply NoDup_cons in Hnd as [Hy Hnd].
  change (push_all skip mid (y :: others) qs) with
    (push_all skip mid others (if skip y then qs else alter (λ xs, xs ++ [mid]) y qs)).
  rewrite IH by done. destruct (decide (x = y)) as [->|Hne].
  - rewrite (bool_decide_eq_false_2 (y ∈ others)), (bool_decide_eq_true_2 (y ∈ y :: others))
      by (done || by left).
    destruct (skip y); simpl.
    + by destruct (qs !! y).
    + rewrite lookup_alter_eq. by destruct (qs !! y).
  - assert (bool_decide (x ∈ y :: others) = bool_decide (x ∈ others)) as ->.
    { apply bool_decide_ext. rewrite elem_of_cons. naive_solver. }
    destruct (skip y); [done|]. by rewrite lookup_alter_ne.
Qed.

(** A new message that was queued at some clients, and its reference count,
    as a change of the boxes. *)
Lemma view_posted msgs qs mid m n skip others :
  (∀ cid xs mid', qs !! cid = Some xs → mid' ∈ xs → mid' ≠ mid) → NoDup others →
  inbox (<[mid := ms_set_refs m n]> msgs) <$> push_all skip mid others qs
  = posted (λ x, bool_decide (x ∈ others) && negb (skip x)) (content m) (inbox msgs <$> qs).
Proof.
  intros Hfresh Hnd. apply map_eq. intros x.
  rewrite lookup_posted, !lookup_fmap, push_all_lookup by done.
  destruct (qs !! x) as [xs|] eqn:Hx; [|done]. simpl. f_equal.
  assert (inbox (<[mid := ms_set_refs m n]> msgs) xs = inbox msgs xs) as Hsame.
  { apply inbox_ext. intros mid' Hin. rewrite lookup_insert_ne; [done|].
    intros <-. by eapply Hfresh. }
  destruct (_ && _); [|done]. rewrite inbox_app, Hsame. unfold inbox at 2. simpl.
  by rewrite lookup_insert_eq.
Qed.

(** Another store of messages with the same contents. *)
Lemma inbox_same busy msgs msgs' qs :
  refs_inv busy msgs' qs →
  (∀ mid m', msgs' !! mid = Some m' → content <$> msgs !! mid = Some (content m')) →
  inbox msgs' <$> qs = inbox msgs <$> qs.
Proof.
  intros Hr Hsame. apply map_fmap_ext. intros cid xs Hxs. apply inbox_ext. intros mid Hin.
  destruct (ri_live _ _ _ Hr _ _ _ Hxs Hin) as [m' Hm']. rewrite Hm'. symmetry. by apply Hsame.
Qed.

