(* ===== verification/Sound.v ===== *)
(** * What the invariant says, in the terms of the code

    The invariant of [Invariant] has the queues as a map of lists; here is what
    it comes to for the arrays, counters and pointers themselves. *)

From S2P Require Import Prelude Deque Json Socket State Client Invariant.

Record sound srv : Prop := {
  (** A stored message is queued somewhere, and its count is the number of
      queues it is in. *)
  sd_stored mid m : sv_msgs srv !! mid = Some m →
    0 < ms_refs m ∧ ∃ holders, NoDup holders ∧ ms_refs m = zlen holders ∧
      ∀ x, x ∈ holders ↔ ∃ c xs, sv_clients srv !! x = Some c ∧ deque_rep (cl_queue c) xs ∧ mid ∈ xs;
  (** What is queued is stored. *)
  sd_queued x c : sv_clients srv !! x = Some c → ∃ xs, deque_rep (cl_queue c) xs ∧ NoDup xs ∧
    ∀ mid, mid ∈ xs → is_Some (sv_msgs srv !! mid);
  (** Clients and groups agree on who is a member. *)
  sd_groups x c gid : sv_clients srv !! x = Some c → gid ∈ cl_groups c →
    ∃ g, sv_groups srv !! gid = Some g ∧ x ∈ gr_clnts g;
  sd_members gid g x : sv_groups srv !! gid = Some g → x ∈ gr_clnts g →
    ∃ c, sv_clients srv !! x = Some c ∧ gid ∈ cl_groups c;
  (** A client that waits has no messages. *)
  sd_waiting x c : sv_clients srv !! x = Some c → cl_waiting c = true →
    dime_deque_len (cl_queue c) = 0;
}.

Lemma deque_rep_inj {A} (d : dime_deque A) xs ys : deque_rep d xs → deque_rep d ys → xs = ys.
Proof.
  intros Hx Hy. assert (zlen xs = zlen ys) as Hlen.
  { destruct (dr_len _ _ Hx), (dr_len _ _ Hy). congruence. }
  apply zget_ext; [done|]. intros k Hk.
  destruct (zget_is_Some xs k) as [x Ex]; [lia|]. destruct (zget_is_Some ys k) as [y Ey]; [lia|].
  pose proof (dr_cells _ _ Hx _ _ Ex). pose proof (dr_cells _ _ Hy _ _ Ey). congruence.
Qed.

Lemma refs_holders qs mid :
  ∃ holders, NoDup holders ∧ refs_of qs mid = zlen holders ∧
    ∀ x, x ∈ holders ↔ ∃ xs, qs !! x = Some xs ∧ mid ∈ xs.
Proof.
  exists (elements (dom (filter (λ p : Z * list Z, mid ∈ p.2) qs))). split_and!.
  - apply NoDup_elements.
  - unfold refs_of, zlen. by rewrite <-size_dom.
  - intros x. rewrite elem_of_elements, elem_of_dom. split.
    + intros [xs [Hx Hin]%map_lookup_filter_Some]. by exists xs.
    + intros (xs & Hx & Hin). exists xs. by apply map_lookup_filter_Some.
Qed.

Lemma server_ok_sound srv : server_ok srv → sound srv.
Proof.
  intros (qs & Hinv). pose proof (vi_refs _ _ _ Hinv) as Hr. pose proof (vi_groups _ _ _ Hinv) as Hg.
  assert (∀ x xs, qs !! x = Some xs →
    ∃ c, sv_clients srv !! x = Some c ∧ deque_rep (cl_queue c) xs) as Hback.
  { intros x xs Hx. pose proof (vi_queues _ _ _ Hinv x) as Hq. rewrite lookup_fmap, Hx in Hq.
    destruct (sv_clients srv !! x) as [c|]; [by exists c|done]. }
  split.
  - intros mid m Hm. destruct (ri_refs _ _ _ Hr _ _ Hm) as [Hrefs _].
    destruct (ri_used _ _ _ Hr _ _ Hm) as [Hpos|]; [|done]. split; [done|].
    destruct (refs_holders qs mid) as (hs & Hnd & Hlen & Hin). exists hs. split; [done|].
    split; [congruence|]. intros x. rewrite Hin. split.
    + intros (xs & Hx & Hmid). destruct (Hback _ _ Hx) as (c & Hc & Hd). by exists c, xs.
    + intros (c & xs & Hc & Hd & Hmid). destruct (inv_queue _ _ _ _ _ Hinv Hc) as (ys & Hy & Hd').
      pose proof (deque_rep_inj _ _ _ Hd' Hd) as ->. by exists xs.
  - intros x c Hc. destruct (inv_queue _ _ _ _ _ Hinv Hc) as (xs & Hx & Hd). exists xs.
    split; [done|]. split; [by eapply (ri_nodup _ _ _ Hr)|]. intros mid. by eapply (ri_live _ _ _ Hr).
  - intros x c gid Hc Hin. eapply (gi_joined _ _ Hg x (cl_groups c) (cl_groups_cap c)); [|done].
    by rewrite lookup_fmap, Hc.
  - intros gid g x Hgid Hin. destruct (gi_member _ _ Hg _ _ _ Hgid Hin) as (gs & cap & Hc & Hx).
    rewrite lookup_fmap in Hc. destruct (sv_clients srv !! x) as [c|]; [|done].
    injection Hc as <- <-. by exists c.
  - intros x c Hc Hw. destruct (inv_queue _ _ _ _ _ Hinv Hc) as (xs & Hx & Hd).
    rewrite (vi_waiting _ _ _ Hinv _ _ Hc Hw) in Hx. injection Hx as <-. apply (dr_len _ _ Hd).
Qed.

