(* ===== verification/ClientSend.v ===== *)
(** * [send] and [broadcast]

    Both commands queue a new message at a number of clients: every member
    of a group, or every client but the sender. *)

From S2P Require Import Prelude Deque Json Socket SocketSpec Table TableSpec TableMap Hash State.
From S2P Require Import Client Invariant ClientSpec ClientPush ClientDeliver Inbox.
From Stdlib Require String.

(** The texts a handler copies to the error string are short enough. *)
Definition short (bound : nat) (s : string) : Prop := (String.length s < bound)%nat.

Section send.
Context `{Jansson} {limit : Z} `{!JanssonLaws limit}.
Variable strerror : string.
Implicit Types (o : oracle) (cid gid mid : Z) (srv : dime_server).

Definition all_room srv : Prop :=
  ∀ cid c, sv_clients srv !! cid = Some c → has_room (limit:=limit) c.

Lemma inv_fresh busy srv qs :
  server_inv busy srv qs →
  sv_clients srv !! sv_next srv = None ∧ sv_groups srv !! sv_next srv = None ∧
  sv_msgs srv !! sv_next srv = None.
Proof.
  intros Hinv. pose proof (vi_next _ _ _ Hinv (sv_next srv)) as Hn.
  split_and!; apply eq_None_not_Some; intros Hs;
    (assert (sv_next srv < sv_next srv) by (apply Hn; auto); lia).
Qed.

Lemma wp_new_msg o j bin srv qs :
  oracle_sane o → server_inv None srv qs → zlen bin ≤ MAXOBJ →
  wp (new_msg o j bin) srv (λ r srv',
    match r with
    | None => srv' = srv ∧ (at_ o 0 sizeof_msg = false ∨ json_dumps (at_ o 1) j = None)
    | Some mid => server_inv (Some mid) srv' qs ∧ sv_clients srv' = sv_clients srv ∧
        sv_fd2clnt srv' = sv_fd2clnt srv ∧ keeps srv srv' ∧ sv_msgs srv !! mid = None ∧ ∃ al text,
        json_dumps al j = Some text ∧ sv_msgs srv' = <[mid := Msg 0 text bin]> (sv_msgs srv)
    end).
Proof.
  intros Hs Hinv Hbin. unfold new_msg. destruct (at_ o 0 sizeof_msg); [|by apply wp_ret; auto].
  destruct (json_dumps (at_ o 1) j) as [text|] eqn:E; [|by apply wp_ret; auto].
  apply wp_bind. unfold fresh, wp at 1. cbn [returns].
  apply wp_bind, wp_modify, wp_ret.
  destruct (inv_fresh _ _ _ Hinv) as (_ & _ & Hnone).
  split_and!; try done.
  - split; try apply Hinv; try done.
    + apply refs_inv_new; [apply Hinv|done|done|]. split; [|done]. simpl.
      eapply dumps_fit; [|done]. eauto with oracle.
    + simpl. intros p [Hp|[Hp|Hp]].
      * pose proof (vi_next _ _ _ Hinv p (or_introl Hp)). lia.
      * pose proof (vi_next _ _ _ Hinv p (or_intror (or_introl Hp))). lia.
      * apply lookup_insert_is_Some in Hp as [<-|[_ Hp]]; [lia|].
        pose proof (vi_next _ _ _ Hinv p (or_intror (or_intror Hp))). lia.
  - by exists (at_ o 1), text.
Qed.

(** A command that fails has posted the message at some of the receivers, or
    at none. *)
Definition partly (to : Z → Prop) j bin (boxes boxes' : gmap Z (list message)) : Prop :=
  boxes' = boxes ∨ ∃ al text to', json_dumps al j = Some text ∧ (∀ x, to' x = true → to x) ∧
    boxes' = posted to' (text, bin) boxes.

(** What a command does that posts messages: it answers 0 or -1 and changes no
    group; if it answers 0 the new boxes and the new state satisfy [post], if
    it answers -1 the new boxes satisfy [part], and under the condition [P] it
    does answer 0. *)
Definition posts (P : Prop) (post : gmap Z (list message) → dime_server → Prop)
    (part : gmap Z (list message) → Prop) (srv : dime_server) (rc : Z) (srv' : dime_server) : Prop :=
  (rc = 0 ∨ rc = -1) ∧ keeps srv srv' ∧
  (∃ boxes', server_view srv' boxes' ∧ (rc = 0 → post boxes' srv') ∧ (rc = -1 → part boxes')) ∧
  (P → rc = 0).

Lemma posts_failed (P : Prop) post part srv srv' boxes' :
  (¬ P) → server_view srv' boxes' → part boxes' → keeps srv srv' → posts P post part srv (-1) srv'.
Proof.
  intros HP Hv Hpart Hk. split; [by right|]. split; [done|].
  split; [by exists boxes'|by intros ?%HP].
Qed.

(** A queued message is not the new one. *)
Lemma queued_old busy srv qs mid cid xs mid' :
  server_inv busy srv qs → sv_msgs srv !! mid = None → qs !! cid = Some xs → mid' ∈ xs →
  mid' ≠ mid.
Proof.
  intros Hinv Hnone Hq Hin ->. destruct (ri_live _ _ _ (vi_refs _ _ _ Hinv) _ _ _ Hq Hin).
  congruence.
Qed.

(** The clients for which [to] holds are reached. *)
Definition reached (to : Z → bool) srv srv' : Prop :=
  ∀ x, if to x then woken (limit:=limit) srv srv' x
       else sv_clients srv' !! x = sv_clients srv !! x.

(** Memory for all that the delivery of a message takes. *)
Record plenty j cid srv : Prop := {
  pl_limit : sizeof_msg ≤ limit;
  pl_dumps al : (∀ n, n ≤ limit → al n = true) → is_Some (json_dumps al j);
  pl_queue x c : sv_clients srv !! x = Some c → queue_room (limit:=limit) c;
  pl_sender c : sv_clients srv !! cid = Some c → cl_waiting c = false ∧ room (limit:=limit) 12 c;
}.

(** Queueing a new message at the clients of a list: the common part of the
    two commands. *)
Lemma wp_post cid (skip : Z → bool) (body : Z → oracle → Z → M (option Z)) o o' j bin others srv boxes
    (cont : Z → M Z) (rest : Z → option Z → M Z) (fail : M Z) Q :
  let to x := bool_decide (x ∈ others) && negb (skip x) in
  (∀ mid srv' qs, server_inv (Some mid) srv' qs → sv_fd2clnt srv' = sv_fd2clnt srv →
     cont mid srv' = (r ← for_each o' (body mid) others; rest mid r) srv') →
  (∀ mid o other srv qs, server_inv (Some mid) srv qs → is_Some (sv_clients srv !! cid) →
     is_Some (sv_clients srv !! other) →
     body mid o other srv
     = (if skip other then mret None else deliver strerror o cid mid other) srv) →
  oracle_sane o → oracle_sane o' → grants o limit → grants o' limit → server_view srv boxes →
  all_room srv → is_Some (sv_clients srv !! cid) → zlen bin ≤ MAXOBJ → NoDup others →
  (∀ x, x ∈ others → is_Some (sv_clients srv !! x)) →
  (¬ plenty j cid srv → wp fail srv Q) →
  (∀ mid srv' al text front last, ¬ plenty j cid srv → json_dumps al j = Some text →
     others = front ++ last → keeps srv srv' →
     server_view srv' (posted (λ x, bool_decide (x ∈ front) && negb (skip x)) (text, bin) boxes) →
     wp (rest mid (Some (-1))) srv' Q) →
  (∀ mid srv' al text qs n, json_dumps al j = Some text → server_inv (Some mid) srv' qs →
     keeps srv srv' → sv_msgs srv' !! mid = Some (Msg n text bin) →
     n = served_count skip others → reached to srv srv' →
     inbox (sv_msgs srv') <$> qs = posted to (text, bin) boxes →
     wp (rest mid None) srv' Q) →
  wp (m ← new_msg o j bin;
      match m with
      | None => fail
      | Some mid => cont mid
      end) srv Q.
Proof.
  intros to Hrun Hbody Hs Hs' Hg Hg' (qs & Hinv & ->) Hroom Hcid Hbin Hnd Hlive Hfail Hrc Hok.
  apply wp_bind. eapply wp_mono; [by apply (wp_new_msg o j bin srv qs)|].
  intros [mid|] srv1; [|intros [-> Hno]; apply Hfail; intros [Hlim Hd _ _]].
  2:{ destruct Hno as [Hno|Hno].
      - unfold at_ in Hno. by rewrite Hg in Hno.
      - destruct (Hd (at_ o 1)) as [? Hd']; [intros; by apply Hg|congruence]. }
  intros (Hinv1 & Hcl & Hfd & Hk & Hnone & al & text & Hd & Hm).
  assert (sv_msgs srv1 !! mid = Some (Msg 0 text bin)) as Hm1 by (rewrite Hm; apply lookup_insert_eq).
  unfold wp at 1. rewrite (Hrun _ _ _ Hinv1 Hfd).
  apply wp_bind. eapply wp_mono; [apply (wp_deliver_all strerror cid mid skip (body mid) others
    (Hbody mid) o' srv1 qs (Msg 0 text bin) Hs' Hg' Hinv1 ltac:(by rewrite Hcl) Hm1 Hnd)|].
  { intros x Hx. destruct (Hlive x Hx) as [c Hc]. exists c. rewrite Hcl. split; [done|].
    intros _. split; [by apply (Hroom x)|]. intros xs Hxs Hin.
    by apply (queued_old _ _ _ _ _ _ _ Hinv Hnone Hxs Hin). }
  intros [rc|] srv2.
  { intros (-> & ? & front & x & last & c & m' & -> & Hc & Hno & -> & Hinv2 & Hm2).
    apply (Hrc _ _ al text front (x :: last)); [|done|done|by eapply keeps_trans|].
    - intros Hp. apply Hno. rewrite Hcl in Hc. exact (pl_queue _ _ _ Hp _ _ Hc).
    - exists (push_all skip mid front qs). split; [done|].
      rewrite (inbox_same None (<[mid := ms_set_refs (Msg 0 text bin) (served_count skip front)]>
        (sv_msgs srv)) (sv_msgs srv2)); [|apply Hinv2|].
      + rewrite (view_posted (sv_msgs srv) qs mid (Msg 0 text bin)); [done| |].
        * intros y xs mid' Hq Hin. exact (queued_old _ _ _ _ _ _ _ Hinv Hnone Hq Hin).
        * by apply NoDup_app in Hnd as [? _].
      + rewrite Hm2, Hm, insert_insert_eq. unfold if_used. cbn [ms_refs ms_set_refs].
        intros mid' m' Hl. assert (<[mid := ms_set_refs (Msg 0 text bin) (served_count skip front)]>
          (sv_msgs srv) !! mid' = Some m') as ->; [|done].
        case_match; [by apply lookup_delete_Some in Hl as [_ ?]|done]. }
  intros (Hinv2 & Hk2 & Hm2 & Hreach).
  eapply (Hok _ _ al text _ (0 + served_count skip others)); [done..| | |lia| |].
  - by eapply keeps_trans.
  - rewrite Hm2. apply lookup_insert_eq.
  - intros x. specialize (Hreach x). unfold to. destruct (_ && _); [|by rewrite Hreach, Hcl].
    eapply woken_before; [|exact Hreach]. by rewrite Hcl.
  - rewrite Hm2, Hm. rewrite insert_insert_eq.
    rewrite (view_posted (sv_msgs srv) qs mid (Msg 0 text bin)); [done| |done].
    intros x xs mid' Hq Hin. exact (queued_old _ _ _ _ _ _ _ Hinv Hnone Hq Hin).
Qed.

(** After a delivery, a message without a reference is freed. *)
Lemma view_done srv qs mid m :
  server_inv (Some mid) srv qs → sv_msgs srv !! mid = Some m →
  server_view (sv_set_msgs srv
    (if ms_refs m =? 0 then delete mid (sv_msgs srv) else sv_msgs srv))
    (inbox (sv_msgs srv) <$> qs).
Proof.
  intros Hinv Hm. exists qs. split; [by apply inv_done|]. simpl.
  destruct (Z.eqb_spec (ms_refs m) 0) as [H0|]; [|done].
  apply map_fmap_ext. intros cid xs Hxs. apply inbox_ext. intros mid' Hin.
  rewrite lookup_delete_ne; [done|]. intros <-.
  destruct (ri_refs _ _ _ (vi_refs _ _ _ Hinv) _ _ Hm) as [Hr _].
  eapply refs_of_zero; [|done..]. lia.
Qed.

(** What the other clients and the sender see in the end. *)
Definition delivered (to : Z → bool) cid srv srv' : Prop :=
  (∀ x, x ≠ cid → if to x then woken (limit:=limit) srv srv' x
                  else sv_clients srv' !! x = sv_clients srv !! x) ∧
  ∀ c, sv_clients srv !! cid = Some c → cl_waiting c = false →
    told (limit:=limit) (status0, []) cid srv srv'.

(** A last response after the work is done. *)
Lemma posts_finish (P : Prop) (post : gmap Z (list message) → dime_server → Prop)
    (part : gmap Z (list message) → Prop) to o cid j
    srv0 srv boxes' :
  oracle_sane o → grants o limit → server_view srv boxes' → keeps srv0 srv →
  is_Some (sv_clients srv0 !! cid) → reached to srv0 srv → (P → plenty j cid srv0) →
  (∀ srv', delivered to cid srv0 srv' → post boxes' srv') → part boxes' →
  wp (finish strerror o cid) srv (posts P post part srv0).
Proof.
  intros Hs Hg Hv Hk [c0 Hc0] Hreach HP Hpost Hpart. pose proof Hv as (qs & Hinv & _).
  assert (is_Some (sv_clients srv !! cid)) as Hcid by (apply (keeps_client _ _ _ Hk); eauto).
  assert (∀ c, sv_clients srv0 !! cid = Some c → cl_waiting c = false →
    cl_sock <$> sv_clients srv !! cid = Some (cl_sock c)) as Hsock.
  { intros c Hc Hw. specialize (Hreach cid). destruct (to cid).
    - destruct (Hreach c Hc) as (c' & -> & _ & Hsock). rewrite Hw in Hsock. by rewrite <-Hsock.
    - by rewrite Hreach, Hc. }
  eapply wp_mono; [apply (wp_finish_told (limit:=limit)); [done..|by eapply inv_ready]|].
  intros rc srv' ([Hrc Hq] & Htold & Hok). split; [done|].
  split; [eapply keeps_trans; [done|by eapply quiet_keeps]|]. split.
  - exists boxes'. split; [by eapply quiet_view|]. split; [|done]. intros _. apply Hpost. split.
    + intros x Hx. assert (sv_clients srv' !! x = sv_clients srv !! x) as Hsame
        by by apply (qu_other _ _ _ Hq).
      specialize (Hreach x). destruct (to x); [by eapply woken_after|congruence].
    + intros c Hc Hw. eapply told_sock; [|done|exact Htold]. by rewrite (Hsock c), Hc.
  - intros Hp. destruct (pl_sender _ _ _ (HP Hp) _ Hc0) as [Hw Hroom].
    destruct Hcid as [c Hc]. apply (Hok c Hc). pose proof (Hsock _ Hc0 Hw) as Heq.
    rewrite Hc in Heq. injection Heq as Heq. unfold room. by rewrite Heq.
Qed.

Lemma posts_keeps P post part srv0 srv rc srv' :
  keeps srv0 srv → posts P post part srv rc srv' → posts P post part srv0 rc srv'.
Proof. intros Hk (? & ? & ?). split; [done|]. split; [by eapply keeps_trans|done]. Qed.

(** An error before anything is posted. *)
Lemma wp_posts_refused (P : Prop) post (part : gmap Z (list message) → Prop) cid srv0 srv boxes
    (m : M Z) :
  (¬ P) → server_view srv boxes → part boxes → keeps srv0 srv →
  wp m srv (λ rc srv', rc = -1 ∧ quiet (at_client cid) srv srv') →
  wp m srv (posts P post part srv0).
Proof.
  intros HP Hv Hpart Hk Hm. eapply wp_mono; [exact Hm|]. intros rc srv' [-> Hq].
  eapply posts_failed; [done|by eapply quiet_view|done|].
  eapply keeps_trans; [done|by eapply quiet_keeps].
Qed.

Lemma partly_posted (to : Z → Prop) to' j bin boxes al text :
  json_dumps al j = Some text → (∀ x, to' x = true → to x) →
  partly to j bin boxes (posted to' (text, bin) boxes).
Proof. intros Hd Hto. right. by exists al, text, to'. Qed.

(** What a [send] that answers 0 does. *)
Definition sent srv cid j bin boxes (boxes' : gmap Z (list message)) srv' : Prop :=
  ∃ name gid g al text, json_unpack_ss j "name" = inl name ∧ sv_groups srv !! gid = Some g ∧
    gr_name g = name ∧ gr_clnts g ≠ [] ∧ json_dumps al j = Some text ∧
    boxes' = posted (λ x, bool_decide (x ∈ gr_clnts g)) (text, bin) boxes ∧
    delivered (λ x, bool_decide (x ∈ gr_clnts g)) cid srv srv'.

(** The receivers of a [send]. *)
Definition addressed srv j x : Prop :=
  ∃ name gid g, json_unpack_ss j "name" = inl name ∧ sv_groups srv !! gid = Some g ∧
    gr_name g = name ∧ x ∈ gr_clnts g.

(** When it answers 0. *)
Definition can_send srv cid j : Prop :=
  plenty j cid srv ∧ ∃ gid g, json_unpack_ss j "name" = inl (gr_name g) ∧
    sv_groups srv !! gid = Some g ∧ gr_clnts g ≠ [].

(** The group a name stands for. *)
Lemma wp_members srv qs name :
  server_inv None srv qs →
  ∃ tbl members, server_inv None (sv_set_name2clnt srv tbl) qs ∧ NoDup members ∧
    (∀ x, x ∈ members → is_Some (sv_clients srv !! x)) ∧
    (members ≠ [] → ∃ gid g, sv_groups srv !! gid = Some g ∧ gr_name g = name ∧
       gr_clnts g = members) ∧
    (∀ gid g, sv_groups srv !! gid = Some g → gr_name g = name → gr_clnts g = members) ∧
    ∀ (k : list Z → M Z) Q, wp (k members) (sv_set_name2clnt srv tbl) Q →
      wp (name2clnt ← gets sv_name2clnt;
          '(r, name2clnt) ← lift (dime_table_search cmp_name hash_name name2clnt name);
          modify (λ srv, sv_set_name2clnt srv name2clnt);;
          members ← match r with
                    | Some gid => g ← get_group gid; mret (gr_clnts g)
                    | None => mret []
                    end;
          k members) srv Q.
Proof.
  intros Hinv. destruct (search_names _ _ name (vi_names _ _ _ Hinv)) as (r & tbl & Hrun & Hn & Hr).
  pose proof (inv_set_names _ _ _ _ Hinv Hn) as Hinv1.
  assert (∀ k Q, wp (members ← match r with
      | Some gid => g ← get_group gid; mret (gr_clnts g) | None => mret [] end; k members)
        (sv_set_name2clnt srv tbl) Q →
    wp (name2clnt ← gets sv_name2clnt;
          '(r, name2clnt) ← lift (dime_table_search cmp_name hash_name name2clnt name);
          modify (λ srv, sv_set_name2clnt srv name2clnt);;
          members ← match r with
                    | Some gid => g ← get_group gid; mret (gr_clnts g)
                    | None => mret []
                    end;
          k members : M Z) srv Q) as Hpre.
  { intros k Q Hk. wp_step. rewrite Hrun. apply wp_bind, wp_lift. simpl.
    apply wp_bind, wp_modify, Hk. }
  destruct r as [gid|].
  - destruct (Hr gid) as [Hr1 _]. specialize (Hr1 eq_refl). rewrite lookup_fmap in Hr1.
    destruct (sv_groups srv !! gid) as [g|] eqn:Hg; simplify_eq/=.
    exists tbl, (gr_clnts g). pose proof (vi_groups _ _ _ Hinv) as Hgr.
    split; [done|]. split; [apply (gi_group _ _ Hgr _ _ Hg)|]. split_and!.
    + intros x Hx. destruct (gi_member _ _ Hgr _ _ _ Hg Hx) as (gs & cap & Hj & _).
      rewrite lookup_fmap in Hj. by destruct (sv_clients srv !! x).
    + intros _. by exists gid, g.
    + intros gid' g' Hg' Hn'. assert (Some gid = Some gid') as [= ->]; [|congruence].
      apply Hr. by rewrite lookup_fmap, Hg', <-Hn'.
    + intros k Q Hk. apply Hpre. apply wp_bind. by wp_step.
  - exists tbl, []. split; [done|]. split; [constructor|]. split_and!; [set_solver|done| |].
    { intros gid' g' Hg' Hn'. assert (None = Some gid') as [=].
      apply Hr. by rewrite lookup_fmap, Hg', <-Hn'. }
    intros k Q Hk. apply Hpre. apply wp_bind. by apply wp_ret.
Qed.

Lemma plenty_ext j cid srv srv' :
  sv_clients srv' = sv_clients srv → plenty j cid srv' → plenty j cid srv.
Proof. intros Heq []. split; try done; rewrite <-Heq; eauto. Qed.

Lemma wp_send_members o cid j bin srv0 srv boxes gid g name :
  oracle_sane o → grants o limit → server_view srv boxes → all_room srv →
  is_Some (sv_clients srv !! cid) → zlen bin ≤ MAXOBJ → keeps srv0 srv →
  sv_clients srv = sv_clients srv0 → sv_groups srv0 !! gid = Some g →
  json_unpack_ss j "name" = inl name → gr_name g = name → gr_clnts g ≠ [] → NoDup (gr_clnts g) →
  (∀ x, x ∈ gr_clnts g → is_Some (sv_clients srv !! x)) →
  wp (send_members strerror o cid j bin (gr_clnts g)) srv
    (posts (can_send srv0 cid j) (sent srv0 cid j bin boxes)
       (partly (addressed srv0 j) j bin boxes) srv0).
Proof.
  intros Hs Hg Hv Hroom Hcid Hbin Hk0 Hcl Hgid Hname Hgname Hne Hnd Hlive.
  pose proof Hv as (qs & Hinv & _). unfold send_members.
  assert (¬ plenty j cid srv → ¬ can_send srv0 cid j) as Hno.
  { intros Hno [Hp _]. apply Hno. by apply (plenty_ext _ _ srv srv0). }
  assert (∀ x, x ∈ gr_clnts g → addressed srv0 j x) as Hadd by (intros x Hx; by exists name, gid, g).
  apply (wp_post cid (λ _, false) (λ mid o other, deliver strerror o cid mid other)
    (sub o 2) (sub o 4) j bin (gr_clnts g) srv boxes
    _ (λ mid r, match r with
                | Some rc => mret rc
                | None => m ← get_msg mid;
                    if 0 <? ms_refs m then finish strerror (sub o 5) cid else lift Undef
                end)); eauto with oracle.
  - intros Hp. eapply (wp_posts_refused _ _ _ cid); [by apply Hno|exact Hv|by left|done|].
    apply wp_fail_errno; [eauto with oracle|by eapply inv_ready].
  - intros mid srv' al text front last Hp Hd Hfront Hk Hv2.
    eapply wp_ret, posts_failed; [by apply Hno|exact Hv2| |by eapply keeps_trans].
    eapply partly_posted; [done|]. intros x [Hx%bool_decide_eq_true _]%andb_true_iff.
    apply Hadd. rewrite Hfront, elem_of_app. by left.
  - intros mid srv2 al text qs2 n Hd Hinv2 Hk Hm -> Hreach Hbox. wp_step.
    assert (0 < served_count (λ _, false) (gr_clnts g)) as Hpos.
    { destruct (gr_clnts g); [done|]. unfold served_count. rewrite filter_cons_True by done.
      simpl. lia. }
    cbn [ms_refs]. rewrite (proj2 (Z.ltb_lt _ _)) by done.
    pose proof (view_done _ _ _ _ Hinv2 Hm) as Hv2. cbn [ms_refs] in Hv2.
    rewrite (proj2 (Z.eqb_neq _ _)) in Hv2 by lia.
    replace (sv_set_msgs srv2 (sv_msgs srv2)) with srv2 in Hv2 by by destruct srv2.
    rewrite Hbox, (posted_ext _ (λ x, bool_decide (x ∈ gr_clnts g))) in Hv2
      by (intros; by rewrite andb_true_r).
    eapply (posts_finish _ _ _ (λ x, bool_decide (x ∈ gr_clnts g)) _ _ j);
      [eauto with oracle..|exact Hv2|by eapply keeps_trans|by rewrite <-Hcl| |by intros [? _]| |].
    + intros x. specialize (Hreach x). cbn [negb] in Hreach. rewrite andb_true_r, Hcl in Hreach.
      destruct (bool_decide _); [by eapply woken_before; [|exact Hreach]; rewrite Hcl|done].
    + intros srv' Hdel. by exists name, gid, g, al, text.
    + eapply partly_posted; [done|]. intros x Hx%bool_decide_eq_true. by apply Hadd.
Qed.

Lemma wp_send o cid j bin srv boxes :
  oracle_sane o → grants o limit → server_view srv boxes → all_room srv →
  is_Some (sv_clients srv !! cid) → zlen bin ≤ MAXOBJ →
  match json_unpack_ss j "name" with inl name => short 59 name | inr text => short 61 text end →
  wp (dime_client_send strerror o cid j bin) srv
    (posts (can_send srv cid j) (sent srv cid j bin boxes) (partly (addressed srv j) j bin boxes) srv).
Proof.
  intros Hs Hg Hv Hroom Hcid Hbin Hshort. pose proof Hv as (qs & Hinv & Hboxes).
  unfold dime_client_send. destruct (json_unpack_ss j "name") as [name|text] eqn:Hname.
  2:{ eapply (wp_posts_refused _ _ _ cid); [|done|by left|apply keeps_refl|].
      - intros (_ & gid & g & Hn & _). congruence.
      - apply wp_fail_text2; [eauto with oracle|by eapply inv_ready|].
        unfold short, parse_error in *. simpl. lia. }
  destruct (wp_members srv qs name Hinv)
    as (tbl & members & Hinv1 & Hnd & Hlive & Hgrp & Honly & Hwp).
  apply (Hwp (λ members, match members with [] => _ | _ => _ end)). clear Hwp.
  assert (keeps srv (sv_set_name2clnt srv tbl)) as Hk1 by apply keeps_set_names.
  assert (server_view (sv_set_name2clnt srv tbl) boxes) as Hv1 by (exists qs; by split).
  destruct members as [|x0 xs0] eqn:Emem.
  { eapply (wp_posts_refused _ _ _ cid); [|exact Hv1|by left|done|].
    - intros (_ & gid & g & Hn & Hgid & Hne). apply Hne, (Honly gid); [done|congruence].
    - apply wp_fail_text2; [eauto with oracle|by eapply inv_ready|]. unfold short in *. simpl. lia. }
  rewrite <-Emem in *. destruct Hgrp as (gid & g & Hgid & Hgname & <-); [by rewrite Emem|].
  eapply wp_send_members; try done. by rewrite Emem.
Qed.

(** A name that no client has joined. *)
Lemma wp_send_nobody o cid j bin srv boxes name :
  oracle_sane o → server_view srv boxes → is_Some (sv_clients srv !! cid) →
  json_unpack_ss j "name" = inl name → short 59 name →
  (∀ gid g, sv_groups srv !! gid = Some g → gr_name g = name → gr_clnts g = []) →
  wp (dime_client_send strerror o cid j bin) srv (λ rc srv', rc = -1 ∧ keeps srv srv' ∧
    server_view srv' boxes ∧ (grants o limit → errors_pack (limit:=limit) strerror →
      replied (limit:=limit) (args_error2 "No such group exists: " name) cid srv srv')).
Proof.
  intros Hs (qs & Hinv & ->) Hcid Hname Hshort Hnobody. unfold dime_client_send. rewrite Hname.
  destruct (wp_members srv qs name Hinv)
    as (tbl & members & Hinv1 & _ & _ & Hgrp & _ & Hwp).
  apply (Hwp (λ members, match members with [] => _ | _ => _ end)).
  destruct members as [|x l].
  2:{ destruct Hgrp as (gid & g & Hgid & Hn & Hm); [done|].
      by rewrite (Hnobody gid g) in Hm. }
  eapply wp_mono; [apply (wp_refuse_text2 (limit:=limit) strerror (sub o 1)); [eauto with oracle|by eapply inv_ready|]|].
  { unfold short in *. simpl. lia. }
  intros rc srv' (-> & Hq & Hreply). split; [done|]. split; [|split].
  - eapply keeps_trans; [apply keeps_set_names|by eapply quiet_keeps].
  - eapply quiet_view; [done|]. by exists qs.
  - intros Hg Hp. eapply replied_sock; [done..|]. by apply Hreply; [apply grants_sub|].
Qed.

(** What a [broadcast] that answers 0 does. *)
Definition broadcast_to_others srv cid j bin boxes (boxes' : gmap Z (list message)) srv' : Prop :=
  ∃ al text, json_dumps al j = Some text ∧
    boxes' = posted (λ x, negb (x =? cid)) (text, bin) boxes ∧
    delivered (λ x, negb (x =? cid)) cid srv srv'.

Lemma wp_broadcast o cid j bin srv boxes :
  oracle_sane o → grants o limit → server_view srv boxes → all_room srv →
  is_Some (sv_clients srv !! cid) → zlen bin ≤ MAXOBJ →
  wp (dime_client_broadcast strerror o cid j bin) srv
    (posts (plenty j cid srv) (broadcast_to_others srv cid j bin boxes)
       (partly (λ x, x ≠ cid) j bin boxes) srv).
Proof.
  intros Hs Hg Hv Hroom Hcid Hbin. pose proof Hv as (qs & Hinv & _).
  destruct (fds_vals _ _ _ Hinv) as (Hit & Hnd & Hin).
  set (others := (kvs (tb_arr (sv_fd2clnt srv))).*2) in *.
  set (body := λ mid o other, c ← get_client cid; c' ← get_client other;
    if cl_fd c =? cl_fd c' then mret None else deliver strerror o cid mid other).
  apply (wp_post cid (λ x, x =? cid) body (sub o 0) (sub o 2) j bin others srv boxes
    _ (λ mid r, match r with
                | Some rc => mret rc
                | None => free_if_unused mid;; finish strerror (sub o 3) cid
                end)); eauto with oracle.
  - intros mid srv' qs' _ Hfd. unfold mbind, M_bind, gets. rewrite Hfd.
    by rewrite for_table_spec.
  - intros mid o' x srv' qs' Hinv' [c Hc] [c' Hc'].
    unfold body, mbind, M_bind, get_client, deref. rewrite Hc, Hc'.
    assert ((cl_fd c =? cl_fd c') = (x =? cid)) as ->; [|done].
    apply eq_bool_prop_intro. rewrite !Is_true_true, !Z.eqb_eq. split.
    + intros Hfd. symmetry. by apply (fds_inj _ _ _ _ _ _ _ Hinv' Hc Hc').
    + intros ->. congruence.
  - intros x Hx. by apply Hin.
  - intros Hp. eapply (wp_posts_refused _ _ _ cid); [done|exact Hv|by left|apply keeps_refl|].
    apply wp_fail_errno; [eauto with oracle|by eapply inv_ready].
  - intros mid srv' al text front last Hp Hd _ Hk Hv2.
    eapply wp_ret, posts_failed; [done|exact Hv2| |done].
    eapply partly_posted; [done|]. intros x [_ Hx%negb_true_iff]%andb_true_iff. by apply Z.eqb_neq.
  - intros mid srv2 al text qs2 n Hd Hinv2 Hk Hm _ Hreach Hbox.
    apply wp_bind. eapply wp_mono; [by apply (wp_free_if_unused mid _ _ Hm)|]. intros [] srv3 ->.
    pose proof (view_done _ _ _ _ Hinv2 Hm) as Hv3.
    assert (∀ x, is_Some (boxes !! x) →
      bool_decide (x ∈ others) && negb (x =? cid) = negb (x =? cid)) as Hto.
    { intros x Hx. rewrite bool_decide_eq_true_2; [done|].
      apply Hin. by apply (server_view_dom _ _ _ Hv). }
    rewrite Hbox, (posted_ext _ (λ x, negb (x =? cid))) in Hv3 by done.
    eapply (posts_finish _ _ _ (λ x, negb (x =? cid)) _ _ j);
      [eauto with oracle..|exact Hv3|by apply keeps_set_msgs|done| |done| |].
    + intros x. specialize (Hreach x). destruct (sv_clients srv !! x) as [c|] eqn:Hc.
      * rewrite Hto in Hreach; [done|]. apply (server_view_dom _ _ _ Hv). eauto.
      * assert (sv_clients srv2 !! x = None) as Hnone.
        { apply eq_None_not_Some. rewrite (keeps_client _ _ _ Hk), Hc. by intros []. }
        destruct (negb (x =? cid)); [intros c Hc'; congruence|done].
    + intros srv' Hdel. by exists al, text.
    + eapply partly_posted; [done|]. intros x Hx%negb_true_iff. by apply Z.eqb_neq.
Qed.
End send.
