(* ===== verification/ClientQueue.v ===== *)
(** * [sync], [wait] and the end of a client

    The commands that a client uses to receive what others have sent it, and
    what happens to its queue when it goes away. *)

From S2P Require Import Prelude Deque Ringbuffer Json Socket SocketSpec Table TableSpec TableMap.
From S2P Require Import Hash State Client Invariant ClientSpec ClientPush ClientDeliver Inbox.
From S2P Require Import ClientSend.

(** ** Taking a message off a queue *)

(** A message that was just taken off can always be put back. *)
Lemma pop_push al (d : dime_deque Z) mid xs :
  alloc_sane al → deque_rep d (mid :: xs) →
  ∃ d', dime_deque_popl d = Ret (Some mid, d') ∧ deque_rep d' xs ∧
    ∃ d'', dime_deque_pushl al d' mid = Ret (0, d'') ∧ deque_rep d'' (mid :: xs).
Proof.
  intros Hs Hrep. pose proof (popl_rep d _ Hrep) as Hp.
  apply returns_eq in Hp as ([r d'] & Hpop & -> & Hrep'). exists d'. split; [done|].
  split; [done|]. pose proof (pushl_rep al d' xs mid Hs Hrep') as Hp.
  apply returns_eq in Hp as ([rc d''] & Hpush & [(-> & ? & _)|(_ & _ & Hfull & _)]); [by exists d''|].
  pose proof (popl_cap _ _ _ Hpop). pose proof (dr_len _ _ Hrep) as [_ Hl].
  rewrite zlen_cons in Hl. lia.
Qed.

Lemma unref_store_content msgs mid m mid' m' :
  msgs !! mid = Some m → unref_store msgs mid m !! mid' = Some m' →
  content <$> msgs !! mid' = Some (content m').
Proof.
  intros Hm. unfold unref_store. case_decide.
  - by intros [_ ->]%lookup_delete_Some.
  - intros [[<- <-]|[_ ->]]%lookup_insert_Some; [by rewrite Hm|done].
Qed.

Section queue.
Context `{Jansson} {limit : Z} `{!JanssonLaws limit}.
Variable strerror : string.
Implicit Types (o : oracle) (cid gid mid : Z) (srv : dime_server).

(** The two ways one turn of the loop goes on. *)
Lemma inv_pop srv qs cid c mid xs m d :
  server_inv None srv qs → sv_clients srv !! cid = Some c → qs !! cid = Some (mid :: xs) →
  sv_msgs srv !! mid = Some m → deque_rep d xs →
  server_inv None (sv_set_msgs (sv_set_clients srv (<[cid := cl_set_queue c d]> (sv_clients srv)))
    (unref_store (sv_msgs srv) mid m)) (<[cid := xs]> qs) ∧
  inbox (unref_store (sv_msgs srv) mid m) <$> <[cid := xs]> qs
  = <[cid := inbox (sv_msgs srv) xs]> (inbox (sv_msgs srv) <$> qs).
Proof.
  intros Hinv Hc Hq Hm Hd.
  pose proof (refs_inv_unref _ _ cid mid xs m (vi_refs _ _ _ Hinv) Hq Hm) as Hr. split.
  - eapply inv_set_queue; [done..| |done|].
    + simpl. intros Hw. pose proof (vi_waiting _ _ _ Hinv _ _ Hc Hw). congruence.
    + intros p. by apply unref_store_dom.
  - rewrite (inbox_same None (sv_msgs srv)); [by rewrite fmap_insert|done|].
    intros mid' m'. by apply unref_store_content.
Qed.

Lemma popl_empty (d : dime_deque Z) : deque_rep d [] → dime_deque_popl d = Ret (None, d).
Proof. intros [_ _ [Hl _] _ _ _]. unfold dime_deque_popl. by rewrite Hl. Qed.

(** A message that could not be sent is put back. *)
Lemma put_back srv srv2 qs cid c c2 d d2 xs :
  server_inv None srv qs → sv_clients srv !! cid = Some c → qs !! cid = Some xs → xs ≠ [] →
  deque_rep d2 xs →
  quiet (at_client cid) (sv_set_clients srv (<[cid := cl_set_queue c d]> (sv_clients srv))) srv2 →
  sv_clients srv2 !! cid = Some c2 →
  server_view (sv_set_clients srv2 (<[cid := cl_set_queue c2 d2]> (sv_clients srv2)))
    (inbox (sv_msgs srv) <$> qs).
Proof.
  intros Hinv Hc Hq Hne Hd2 Hq2 Hc2.
  assert (sv_clients (sv_set_clients srv (<[cid := cl_set_queue c d]> (sv_clients srv))) !! cid
    = Some (cl_set_queue c d)) as Hc1 by apply lookup_insert_eq.
  pose proof (quiet_upd _ _ _ _ _ _ (cl_set_queue c d2) (cl_set_queue c2 d2) Hq2 Hc1 Hc2) as Hq3.
  cbn [sv_clients sv_set_clients] in Hq3. rewrite insert_insert_eq in Hq3.
  eapply quiet_view; [apply Hq3; try done|].
  { intros Hw. destruct (qu_waiting _ _ _ Hq2 _ _ Hc2 Hw) as (c0 & Hc0 & Hw0).
    rewrite Hc1 in Hc0. by injection Hc0 as <-. }
  exists qs. split; [|done].
  pose proof (inv_set_queue None None srv qs cid c (cl_set_queue c d2) _ (sv_msgs srv) Hinv Hc
    Hd2 eq_refl eq_refl eq_refl) as Hinv3.
  rewrite (insert_id _ _ _ Hq) in Hinv3. apply Hinv3; [|apply Hinv|auto].
  intros Hw. pose proof (vi_waiting _ _ _ Hinv _ _ Hc Hw). congruence.
Qed.

(** The first message of a box is the one at the front of the queue. *)
Lemma first_queued srv boxes cid x b :
  server_view srv boxes → boxes !! cid = Some (x :: b) →
  ∃ qs c mid xs msg, server_inv None srv qs ∧ boxes = inbox (sv_msgs srv) <$> qs ∧
    sv_clients srv !! cid = Some c ∧ qs !! cid = Some (mid :: xs) ∧
    deque_rep (cl_queue c) (mid :: xs) ∧ sv_msgs srv !! mid = Some msg ∧
    x = (ms_jsondata msg, ms_bindata msg) ∧ b = inbox (sv_msgs srv) xs.
Proof.
  intros (qs & Hinv & ->) Hbox. rewrite lookup_fmap in Hbox.
  destruct (qs !! cid) as [xs|] eqn:Hq; [|done]. injection Hbox as Hbox.
  assert (is_Some (sv_clients srv !! cid)) as [c Hc].
  { pose proof (vi_queues _ _ _ Hinv cid) as Hd. rewrite Hq, lookup_fmap in Hd.
    by destruct (sv_clients srv !! cid). }
  destruct (inv_queue _ _ _ _ _ Hinv Hc) as (xs' & Hxs & Hd). simplify_eq.
  destruct xs as [|mid xs]; [done|]. rewrite inbox_cons in Hbox.
  destruct (ri_live _ _ _ (vi_refs _ _ _ Hinv) _ _ mid Hq) as [msg Hm]; [by left|].
  rewrite Hm in Hbox. simpl in Hbox. injection Hbox as <- <-.
  by exists qs, c, mid, xs, msg.
Qed.

Lemma wp_sync_turn o cid m i srv boxes x b ws rb wb wsb :
  oracle_sane o → server_view srv boxes → boxes !! cid = Some (x :: b) → i < m →
  wp (sync_turn o cid m i) srv (λ r srv', keeps srv srv' ∧
    (r = None ∧ server_view srv' (<[cid := b]> boxes) ∨
     r = Some (Some (-1)) ∧ server_view srv' boxes) ∧
    (push_fits (limit:=limit) (sub o 0) srv cid ws rb wb wsb x →
     r = None ∧ buffers srv' cid ws rb (wb ++ wire ws x) wsb)).
Proof.
  intros Hs Hv Hbox Hi.
  destruct (first_queued _ _ _ _ _ Hv Hbox)
    as (qs & c & mid & xs & msg & Hinv & -> & Hc & Hq & Hd & Hm & -> & ->).
  destruct (ri_refs _ _ _ (vi_refs _ _ _ Hinv) _ _ Hm) as [Hrefs [Hf1 Hf2]].
  unfold sync_turn. rewrite (proj2 (Z.ltb_lt _ _)) by done. wp_step.
  destruct (pop_push (at_ o 1) _ _ _ ltac:(eauto with oracle) Hd)
    as (d & -> & Hd' & d2 & Hpush & Hd2).
  apply wp_bind, wp_lift. simpl. apply wp_bind, wp_modify.
  set (srv1 := sv_set_clients srv _).
  assert (sv_clients srv1 !! cid = Some (cl_set_queue c d)) as Hc1 by apply lookup_insert_eq.
  assert (sv_msgs srv1 !! mid = Some msg) as Hm1 by done. wp_step.
  assert (ready srv1 cid) as Hready.
  { apply ready_set_queue; [done|]. eapply inv_ready; [done|by rewrite Hc]. }
  apply wp_bind. eapply wp_mono; [apply (wp_push_text_both (limit:=limit) (sub o 0) cid (ms_jsondata msg)
    (ms_bindata msg) srv1 ws rb wb wsb ltac:(eauto with oracle) Hready Hf1 Hf2)|].
  intros rc srv2 [Hq2 Hfit].
  destruct (quiet_client _ _ _ _ _ Hq2 Hc1) as [c2 Hc2].
  assert (keeps srv srv2) as Hk.
  { eapply keeps_trans; [by apply keeps_set_queue|by eapply quiet_keeps]. }
  assert (push_fits (limit:=limit) (sub o 0) srv cid ws rb wb wsb (ms_jsondata msg, ms_bindata msg) →
    0 ≤ rc ∧ buffers srv2 cid ws rb (wb ++ wire ws (ms_jsondata msg, ms_bindata msg)) wsb)
    as Hfit2.
  { intros (Hg & (c0 & Hc0 & Hbuf) & Hlim). apply Hfit. split; [done|]. split; [|done].
    simplify_eq. by exists (cl_set_queue c d). }
  destruct (Z.ltb_spec rc 0).
  - wp_step. apply wp_bind, wp_lift.
    rewrite (quiet_queue _ _ _ _ _ _ Hq2 Hc1 Hc2 : cl_queue c2 = d), Hpush. simpl. apply wp_bind, wp_modify, wp_ret. split_and!.
    + eapply keeps_trans; [exact Hk|by apply keeps_set_queue].
    + right. split; [done|].
      by apply (put_back srv srv2 qs cid c c2 d d2 (mid :: xs)).
    + intros Hp. destruct (Hfit2 Hp). lia.
  - destruct (inv_pop _ _ _ _ _ _ _ _ Hinv Hc Hq Hm Hd') as [Hinv1 Hbox1].
    apply wp_bind. eapply wp_mono.
    { apply (wp_unref mid msg); [by rewrite (qu_msgs _ _ _ Hq2)|].
      pose proof (inv_msg_mid _ _ _ _ _ Hinv Hm).
      destruct (ri_used _ _ _ (vi_refs _ _ _ Hinv) _ _ Hm); [lia|done]. }
    intros [] srv3 ->. apply wp_ret. rewrite (qu_msgs _ _ _ Hq2). split_and!.
    + by apply keeps_set_msgs.
    + left. split; [done|]. rewrite <-Hbox1. exists (<[cid:=xs]> qs). split; [|done].
      eapply (quiet_inv (at_client cid)); [|exact Hinv1]. by destruct Hq2; split.
    + intros Hp. split; [done|]. destruct (Hfit2 Hp) as [_ (c3 & ? & ?)]. by exists c3.
Qed.

Lemma wp_sync_none o cid m i srv boxes b :
  oracle_sane o → server_view srv boxes → boxes !! cid = Some b → b = [] ∨ m ≤ i →
  wp (sync_turn o cid m i) srv (λ r srv', r = Some None ∧ srv' = srv).
Proof.
  intros Hs Hv Hbox Hor. unfold sync_turn. destruct (Z.ltb_spec i m); [|by apply wp_ret].
  destruct Hor as [->|]; [|lia].
  assert (is_Some (sv_clients srv !! cid)) as [c Hc].
  { apply (server_view_dom _ _ _ Hv). eauto. }
  destruct Hv as (qs & Hinv & ->).
  destruct (inv_queue _ _ _ _ _ Hinv Hc) as (xs & Hxs & Hd).
  rewrite lookup_fmap, Hxs in Hbox. injection Hbox as Hbox.
  assert (xs = []) as ->.
  { destruct xs as [|mid xs]; [done|]. rewrite inbox_cons in Hbox.
    destruct (ri_live _ _ _ (vi_refs _ _ _ Hinv) _ _ mid Hxs) as [msg Hm]; [by left|].
    by rewrite Hm in Hbox. }
  wp_step. rewrite popl_empty by done. apply wp_bind, wp_lift. simpl.
  apply wp_bind, wp_modify, wp_ret. split; [done|]. by apply put_same_queue.
Qed.

(** All messages of a list, on the wire. *)
Definition wires ws (ms : list message) : list Z := concat (wire ws <$> ms).

Lemma wp_sync_loop fuel : ∀ o cid m i srv boxes b ws rb wb wsb,
  let n := (length b `min` Z.to_nat (m - i))%nat in
  (length b < fuel)%nat → oracle_sane o → server_view srv boxes → boxes !! cid = Some b → i ≤ m →
  wp (sync_loop fuel o cid m i) srv (λ r srv', keeps srv srv' ∧ ∃ k : nat,
    (k ≤ n)%nat ∧ server_view srv' (<[cid := drop k b]> boxes) ∧
    (r = None ∧ k = n ∨ r = Some (-1)) ∧
    (grants o limit → buffers srv cid ws rb wb wsb →
     2 * (zlen wb + zlen (wires ws (take n b)) + 22) ≤ limit →
     r = None ∧ buffers srv' cid ws rb (wb ++ wires ws (take n b)) wsb)).
Proof.
  induction fuel as [|fuel IH]; intros o cid m i srv boxes b ws rb wb wsb n Hf Hs Hv Hbox Hi; [lia|].
  cbn [sync_loop]. apply wp_bind. destruct (decide (b = [] ∨ m ≤ i)) as [Hor|Hor].
  { eapply wp_mono; [eapply (wp_sync_none (sub o 0)); eauto with oracle|]. intros r srv' [-> ->].
    apply wp_ret. split; [apply keeps_refl|]. exists 0%nat.
    assert (n = 0%nat) as -> by (unfold n; destruct Hor as [->|]; simpl; lia).
    rewrite drop_0, insert_id by done. split_and!; [lia|done|by left|].
    intros _ Hbuf _. split; [done|]. unfold wires. simpl. by rewrite app_nil_r. }
  destruct b as [|x b]; [tauto|]. assert (i < m) as Hlt by (apply Z.nle_gt; tauto).
  eapply wp_mono; [eapply (wp_sync_turn (sub o 0) cid m i srv boxes x b ws rb wb wsb);
    eauto with oracle|].
  assert (n = S (length b `min` Z.to_nat (m - (i + 1)))) as Hn.
  { unfold n. simpl. replace (Z.to_nat (m - i)) with (S (Z.to_nat (m - (i + 1)))) by lia. lia. }
  intros r srv1 (Hk & [[-> Hv1]|[-> Hv1]] & Hfit).
  - eapply wp_mono; [apply (IH (sub o 1) cid m (i + 1) srv1 (<[cid := b]> boxes) b ws rb (wb ++ wire ws x) wsb);
      [simpl in Hf; lia|eauto with oracle|exact Hv1|apply lookup_insert_eq|lia]|].
    intros r srv2 (Hk2 & k & Hle & Hv2 & Hr & Hrest). split; [by eapply keeps_trans|].
    exists (S k). rewrite insert_insert_eq in Hv2. split_and!; [lia|done| |].
    { destruct Hr as [[-> ->]|]; [left; split; [done|lia]|by right]. }
    intros Hg Hbuf Hlim. rewrite Hn in *. cbn [take] in *. unfold wires in *.
    cbn [fmap list_fmap concat] in *. rewrite zlen_app in Hlim.
    pose proof (zlen_wire_bound ws x).
    destruct Hfit as [_ Hbuf1].
    { split; [eauto with oracle|]. split; [done|]. zlia. }
    rewrite app_assoc. apply Hrest; [by apply grants_sub|done|]. rewrite zlen_app. lia.
  - apply wp_ret. split; [done|]. exists 0%nat. rewrite drop_0, insert_id by done.
    split_and!; [lia|done|by right|]. intros Hg Hbuf Hlim. rewrite Hn in *. cbn [take] in *.
    unfold wires in *. cbn [fmap list_fmap concat] in *. rewrite zlen_app in Hlim.
    pose proof (zlen_wire_bound ws x).
    destruct Hfit as [? _]; [|done]. split; [eauto with oracle|]. split; [done|]. zlia.
Qed.

(** ** [sync] *)

(** The queue of a client has as many messages as its box. *)
Lemma box_len srv boxes cid b c :
  server_view srv boxes → boxes !! cid = Some b → sv_clients srv !! cid = Some c →
  dime_deque_len (cl_queue c) = zlen b ∧ zlen b ≤ 2 ^ 47.
Proof.
  intros (qs & Hinv & ->) Hbox Hc.
  destruct (inv_queue _ _ _ _ _ Hinv Hc) as (xs & Hxs & Hd).
  rewrite lookup_fmap, Hxs in Hbox. injection Hbox as <-.
  assert (zlen (inbox (sv_msgs srv) xs) = zlen xs) as ->.
  { assert (∀ mid, mid ∈ xs → is_Some (sv_msgs srv !! mid)) as Hlive.
    { intros mid. by apply (ri_live _ _ _ (vi_refs _ _ _ Hinv) cid). }
    clear Hxs Hd. induction xs as [|mid xs IH]; [done|]. rewrite inbox_cons.
    destruct (Hlive mid) as [m ->]; [by left|]. simpl. rewrite !zlen_cons, IH; [done|].
    intros y Hy. apply Hlive. by right. }
  destruct Hd as [_ [? ?] [? ?] _ _ _]. unfold dime_deque_len, MAXOBJ in *. lia.
Qed.

(** The number of messages a [sync] is about. *)
Definition sync_count (n : Z) (b : list message) : nat :=
  if n <? 0 then length b else (length b `min` Z.to_nat n)%nat.

Lemma wp_sync o cid j n srv boxes b ws rb wb wsb :
  oracle_sane o → server_view srv boxes → boxes !! cid = Some b →
  json_unpack_sI j "n" = Some n → n < 2 ^ 63 →
  wp (dime_client_sync strerror o cid j) srv (λ rc srv',
    (rc = 0 ∨ rc = -1) ∧ keeps srv srv' ∧ ∃ k : nat,
    (k ≤ sync_count n b)%nat ∧ server_view srv' (<[cid := drop k b]> boxes) ∧
    (rc = 0 → k = sync_count n b) ∧
    (grants o limit → buffers srv cid ws rb wb wsb →
     2 * (zlen wb + zlen (wires ws (take (sync_count n b) b)) + 46) ≤ limit →
     rc = 0 ∧ buffers srv' cid ws rb
       (wb ++ wires ws (take (sync_count n b) b) ++ wire ws (status0, [])) wsb)).
Proof.
  intros Hs Hv Hbox Hn Hlt. unfold dime_client_sync. rewrite Hn.
  assert (is_Some (sv_clients srv !! cid)) as [c Hc].
  { apply (server_view_dom _ _ _ Hv). eauto. }
  destruct (box_len _ _ _ _ _ Hv Hbox Hc) as [Hlen Hmax]. wp_step. rewrite Hlen.
  set (m := u64 (if n <? 0 then -1 else n)).
  assert (0 ≤ m ∧ (length b `min` Z.to_nat (m - 0))%nat = sync_count n b) as [Hm Hcount].
  { unfold m, sync_count, zlen in *. destruct (Z.ltb_spec n 0).
    - change (u64 (-1)) with (2 ^ 64 - 1). lia.
    - rewrite u64_small by lia. lia. }
  apply wp_bind. eapply wp_mono.
  { apply (wp_sync_loop _ (sub o 0) cid m 0 srv boxes b ws rb wb wsb);
      [unfold zlen; lia|eauto with oracle|done..]. }
  intros r srv1 (Hk & k & Hle & Hv1 & Hr & Hall). rewrite Hcount in *.
  destruct r as [rc|].
  - destruct Hr as [[? _]|[= ->]]; [done|]. apply wp_ret. split; [by right|]. split; [done|].
    exists k. split_and!; [done|done|done|]. intros Hg Hbuf Hlim.
    destruct Hall as [? _]; [eauto with oracle|done|lia|done].
  - destruct Hr as [[_ ->]|?]; [|done]. pose proof Hv1 as (qs1 & Hinv1 & _).
    eapply wp_mono; [apply (wp_finish_all (limit:=limit) strerror (sub o 1) cid srv1 ws rb
      (wb ++ wires ws (take (sync_count n b) b)) wsb ltac:(eauto with oracle))|].
    { eapply inv_ready; [done|]. apply (keeps_client _ _ _ Hk). eauto. }
    intros rc srv2 [[Hrc Hq] Hfit]. split; [done|]. split.
    { eapply keeps_trans; [done|by eapply quiet_keeps]. }
    exists (sync_count n b). split_and!; [done|by eapply quiet_view|done|].
    intros Hg Hbuf Hlim. destruct Hall as [_ Hbuf1]; [eauto with oracle|done|lia|].
    rewrite app_assoc. apply Hfit. split; [eauto with oracle|]. split; [done|].
    rewrite zlen_app. change (zlen (status0, []).1) with 12. change (zlen (status0, []).2) with 0.
    lia.
Qed.

Lemma wp_sync_no_n o cid j srv :
  json_unpack_sI j "n" = None →
  wp (dime_client_sync strerror o cid j) srv (λ rc srv', rc = -1 ∧ srv' = srv).
Proof. intros Hn. unfold dime_client_sync. rewrite Hn. by apply wp_ret. Qed.

(** ** [wait] *)

(** [waiting c] after [wait] answers with an empty queue. *)
Lemma wp_wait_empty o cid srv boxes :
  server_view srv boxes → boxes !! cid = Some [] →
  wp (dime_client_wait strerror o cid) srv (λ rc srv', rc = 0 ∧ keeps srv srv' ∧
    server_view srv' boxes ∧ ∃ c, sv_clients srv !! cid = Some c ∧
    sv_clients srv' = <[cid := cl_set_waiting c true]> (sv_clients srv)).
Proof.
  intros Hv Hbox. assert (is_Some (sv_clients srv !! cid)) as [c Hc].
  { apply (server_view_dom _ _ _ Hv). eauto. }
  destruct (box_len _ _ _ _ _ Hv Hbox Hc) as [Hlen _].
  unfold dime_client_wait. wp_step. rewrite Hlen. simpl. apply wp_bind, wp_modify, wp_ret.
  split; [done|]. destruct Hv as (qs & Hinv & ->).
  destruct (inv_queue _ _ _ _ _ Hinv Hc) as (xs & Hxs & Hd).
  assert (xs = []) as ->.
  { destruct Hd as [_ _ [Hl _] _ _ _]. unfold dime_deque_len in Hlen. rewrite Hlen in Hl.
    destruct xs; [done|]. change (zlen []) with 0 in Hl. zlia. }
  split_and!.
  - split; [by eapply fmap_insert_same..|done].
  - exists qs. split; [|done].
    pose proof (inv_set_queue None None srv qs cid c (cl_set_waiting c true) [] (sv_msgs srv)
      Hinv Hc Hd eq_refl eq_refl eq_refl ltac:(done)) as Hinv1.
    rewrite (insert_id _ _ _ Hxs) in Hinv1. apply Hinv1; [apply Hinv|auto].
  - by exists c.
Qed.

Lemma wp_wait_some o cid srv boxes b ws rb wb wsb :
  oracle_sane o → server_view srv boxes → boxes !! cid = Some b → b ≠ [] →
  wp (dime_client_wait strerror o cid) srv (λ rc srv', (rc = 0 ∨ rc = -1) ∧ keeps srv srv' ∧
    server_view srv' boxes ∧
    (grants o limit → buffers srv cid ws rb wb wsb →
     (∀ al al' j text, json_pack al (args_n (zlen b)) = Some j → json_dumps al' j = Some text →
        2 * (zlen wb + zlen text + 22) ≤ limit) →
     rc = 0 ∧ ∃ al al' j text, json_pack al (args_n (zlen b)) = Some j ∧
       json_dumps al' j = Some text ∧
       buffers srv' cid ws rb (wb ++ wire ws (text, [])) wsb)).
Proof.
  intros Hs Hv Hbox Hne. assert (is_Some (sv_clients srv !! cid)) as [c Hc].
  { apply (server_view_dom _ _ _ Hv). eauto. }
  destruct (box_len _ _ _ _ _ Hv Hbox Hc) as [Hlen _].
  pose proof Hv as (qs & Hinv & _). assert (ready srv cid) as Hr by by eapply inv_ready.
  unfold dime_client_wait. wp_step. rewrite Hlen.
  rewrite (proj2 (Z.ltb_lt _ _)) by (destruct b; [done|zlia]).
  destruct (json_pack (at_ o 0) (args_n (zlen b))) as [j|] eqn:Ej.
  2:{ eapply wp_mono; [apply (wp_fail_errno (limit:=limit)); eauto with oracle|].
      intros rc srv' [-> Hq].
      split_and!; [by right|by eapply quiet_keeps|by eapply quiet_view|].
      intros Hg. destruct (pack_n (at_ o 0) (zlen b)); [intros; by apply Hg|congruence]. }
  apply wp_bind.
  eapply wp_mono; [by apply (wp_push_json_all (limit:=limit) (sub o 2) cid j srv ws rb wb wsb); eauto with oracle|].
  intros rc srv1 (Hq & _ & Hfit).
  assert (grants o limit → buffers srv cid ws rb wb wsb →
    (∀ al al' j text, json_pack al (args_n (zlen b)) = Some j → json_dumps al' j = Some text →
        2 * (zlen wb + zlen text + 22) ≤ limit) →
    0 ≤ rc ∧ ∃ text, json_dumps (at_ (sub o 2) 0) j = Some text ∧
      buffers srv1 cid ws rb (wb ++ wire ws (text, [])) wsb) as Hok.
  { intros Hg Hbuf Hlim. destruct (dumps_n (at_ (sub o 2) 0) (at_ o 0) (zlen b) j) as [text Hd];
      [intros; by apply Hg|done|]. destruct (Hfit text Hd) as [? ?]; [|by eauto].
    split; [eauto with oracle|]. split; [done|]. simpl. specialize (Hlim _ _ _ _ Ej Hd). zlia. }
  destruct (Z.ltb_spec rc 0).
  - eapply wp_mono.
    { apply (wp_fail_errno (limit:=limit)); [eauto with oracle|by eapply quiet_ready]. }
    intros rc' srv2 [-> Hq2].
    split_and!; [by right|eapply keeps_trans; by eapply quiet_keeps| |].
    { eapply quiet_view; [done|]. by eapply quiet_view. }
    intros Hg Hbuf Hlim. destruct (Hok Hg Hbuf Hlim). lia.
  - apply wp_ret. split_and!; [by left|by eapply quiet_keeps|by eapply quiet_view|].
    intros Hg Hbuf Hlim. split; [done|]. destruct (Hok Hg Hbuf Hlim) as (_ & text & Hd & Hbuf').
    by exists (at_ o 0), (at_ (sub o 2) 0), j, text.
Qed.
End queue.
