(* ===== verification/ClientGone.v ===== *)
(** * The end of a client

    [dime_client_destroy] takes the client out of its groups and drops the
    references its queue holds. *)

From S2P Require Import Prelude Deque Ringbuffer Json Socket SocketSpec Table TableSpec TableMap.
From S2P Require Import Hash State Client Invariant ClientSpec ClientPush ClientDeliver Inbox.
From S2P Require Import ClientQueue.

Implicit Types (cid gid mid : Z) (srv : dime_server).

Lemma member_index xs cid j :
  find_index (λ c, c =? cid) xs = Some j → xs !! j = Some cid.
Proof. intros (x & ? & ->%Z.eqb_eq)%find_index_Some. done. Qed.

Lemma member_index_None xs cid : find_index (λ c, c =? cid) xs = None → cid ∉ xs.
Proof.
  intros Hn Hin. pose proof (find_index_None _ _ _ Hn Hin) as Hf. simpl in Hf.
  by rewrite Z.eqb_refl in Hf.
Qed.

Lemma sv_set_groups_twice srv g1 g2 :
  sv_set_groups (sv_set_groups srv g1) g2 = sv_set_groups srv g2.
Proof. done. Qed.

Lemma wp_leave_groups cid gs cap : ∀ cgs srv,
  groups_inv (<[cid := (gs, cap)]> cgs) (sv_groups srv) →
  wp (leave_groups cid gs) srv (λ _ srv', ∃ groups', srv' = sv_set_groups srv groups' ∧
    groups_inv (<[cid := ([], cap)]> cgs) groups' ∧
    gr_name <$> groups' = gr_name <$> sv_groups srv).
Proof.
  intros cgs srv Hinv. unfold leave_groups. apply wp_bind.
  eapply (wp_mono _ _ (λ _ srv', ∃ groups', srv' = sv_set_groups srv groups' ∧
    groups_inv (<[cid := ([], cap)]> cgs) groups' ∧
    gr_name <$> groups' = gr_name <$> sv_groups srv)); [|done].
  revert srv Hinv. induction gs as [|gid gs IH]; intros srv Hinv.
  { apply wp_ret. exists (sv_groups srv). split_and!; [by destruct srv|done..]. }
  cbn [mapM]. apply wp_bind.
  pose proof (lookup_insert_eq cgs cid (gid :: gs, cap)) as Hc.
  destruct (gi_joined _ _ Hinv _ _ _ gid Hc) as (g & Hg & Hin); [by left|].
  pose proof (gi_client _ _ Hinv _ _ _ Hc) as (Hnd & Hcap & Hlen).
  apply NoDup_cons in Hnd as [Hnin Hnd].
  unfold leave_group. wp_step.
  destruct (find_index _ (gr_clnts g)) as [j|] eqn:Ej; [|by apply member_index_None in Ej].
  apply member_index in Ej. apply wp_modify. apply wp_bind.
  set (g' := gr_set_clnts g _ _). set (srv1 := sv_set_groups srv _).
  pose proof (groups_inv_forget _ _ cid (gid :: gs) gs cap gid g j Hinv Hc) as Hinv1.
  rewrite insert_insert_eq in Hinv1.
  eapply wp_mono; [apply (IH srv1)|].
  - apply Hinv1; [|done..]. split; [split; [done|zlia]|]. set_solver.
  - intros ? srv' (groups' & -> & Hinv' & Hnames). apply wp_ret. exists groups'.
    split; [done|]. split; [done|]. rewrite Hnames. by apply (fmap_insert_same _ _ _ g).
Qed.

(** Dropping the references of a whole queue. *)
Lemma foldo_unref cid xs : ∀ qs srv,
  refs_inv None (sv_msgs srv) qs → qs !! cid = Some xs →
  returns (foldo (λ mid srv, '(_, srv) ← unref mid srv; Ret srv) xs srv) (λ srv',
    ∃ msgs', srv' = sv_set_msgs srv msgs' ∧ refs_inv None msgs' (<[cid := []]> qs) ∧
      ∀ mid m', msgs' !! mid = Some m' → content <$> sv_msgs srv !! mid = Some (content m')).
Proof.
  induction xs as [|mid xs IH]; intros qs srv Hinv Hq; cbn [foldo].
  { exists (sv_msgs srv). rewrite insert_id by done. split_and!; [by destruct srv|done|].
    by intros mid m' ->. }
  destruct (ri_live _ _ _ Hinv _ _ mid Hq) as [m Hm]; [by left|].
  pose proof (refs_inv_unref _ _ _ _ _ _ Hinv Hq Hm) as Hinv1.
  assert (1 ≤ ms_refs m < 2 ^ 32) as Hrefs.
  { destruct (ri_refs _ _ _ Hinv _ _ Hm) as [Hr _]. pose proof (refs_of_bound qs mid).
    pose proof (ri_few _ _ _ Hinv). destruct (ri_used _ _ _ Hinv _ _ Hm); [lia|done]. }
  pose proof (wp_unref mid m srv Hm Hrefs) as Hu. unfold wp in Hu.
  apply returns_eq in Hu as ([[] srv1] & -> & ->). cbn [mbind outcome_bind].
  eapply returns_mono; [apply (IH (<[cid := xs]> qs)); [done|apply lookup_insert_eq]|].
  intros srv' (msgs' & -> & Hinv' & Hc). rewrite insert_insert_eq in Hinv'.
  exists msgs'. split_and!; [done|done|]. intros mid' m' Hm'.
  specialize (Hc _ _ Hm'). simpl in Hc. destruct (unref_store _ mid m !! mid') eqn:E; [|done].
  rewrite (unref_store_content _ _ _ _ _ Hm E). exact Hc.
Qed.

Lemma wp_unref_queue cid d xs qs srv :
  deque_rep d xs → zlen xs < dq_cap d → refs_inv None (sv_msgs srv) qs → qs !! cid = Some xs →
  wp (unref_queue d) srv (λ _ srv', ∃ msgs', srv' = sv_set_msgs srv msgs' ∧
    refs_inv None msgs' (<[cid := []]> qs) ∧
    ∀ mid m', msgs' !! mid = Some m' → content <$> sv_msgs srv !! mid = Some (content m')).
Proof.
  intros Hd Hfree Hinv Hq. unfold unref_queue, wp. rewrite (foreach_rep _ d xs) by done.
  pose proof (foldo_unref cid xs qs srv Hinv Hq) as Hf.
  apply returns_eq in Hf as (srv' & -> & Hpost). exact Hpost.
Qed.

(** Parts of the invariant that a client that goes away leaves behind, whatever
    the table of the descriptors is; with a table that has not got its
    descriptor any more the invariant holds again. *)
Lemma wp_destroy srv qs cid c xs tbl :
  server_inv None srv qs → sv_clients srv !! cid = Some c → qs !! cid = Some xs →
  zlen xs < dq_cap (cl_queue c) →
  wp (dime_client_destroy cid) (sv_set_fd2clnt srv tbl) (λ _ srv',
    (∀ tbl', fds_inv (delete cid (cl_fd <$> sv_clients srv)) tbl' →
       server_inv None (sv_set_fd2clnt srv' tbl') (delete cid qs)) ∧
    sv_fd2clnt srv' = tbl ∧ sv_name2clnt srv' = sv_name2clnt srv ∧
    sv_clients srv' = delete cid (sv_clients srv) ∧
    gr_name <$> sv_groups srv' = gr_name <$> sv_groups srv ∧
    inbox (sv_msgs srv') <$> delete cid qs = delete cid (inbox (sv_msgs srv) <$> qs)).
Proof.
  intros Hinv Hc Hq Hfree. destruct (inv_queue _ _ _ _ _ Hinv Hc) as (xs' & Hxs & Hd).
  assert (xs' = xs) as -> by congruence. unfold dime_client_destroy.
  apply wp_bind. eapply wp_get_client; [exact Hc|].
  assert ((joined <$> sv_clients srv) !! cid = Some (cl_groups c, cl_groups_cap c)) as Hj
    by by rewrite lookup_fmap, Hc.
  apply wp_bind. eapply wp_mono; [eapply (wp_leave_groups cid (cl_groups c) (cl_groups_cap c)
    (joined <$> sv_clients srv))|].
  { rewrite insert_id by done. apply Hinv. }
  intros ? srv1 (groups1 & -> & Hgr & Hnames). simpl in Hnames. apply wp_bind.
  eapply wp_mono; [by apply (wp_unref_queue cid _ xs qs); [..|apply Hinv|]|].
  intros ? srv2 (msgs2 & -> & Hrefs & Hcont). unfold free_client.
  apply wp_bind. eapply wp_get_client; [exact Hc|]. apply wp_modify.
  pose proof (refs_inv_delete _ _ _ cid Hrefs (lookup_insert_eq _ _ _)) as Hrefs'.
  rewrite delete_insert_eq in Hrefs'.
  pose proof (groups_inv_delete _ _ cid _ Hgr (lookup_insert_eq _ _ _)) as Hgr'.
  rewrite delete_insert_eq in Hgr'. split_and!.
  - intros tbl' Htbl. split; simpl.
    + intros x. rewrite fmap_delete. pose proof (vi_queues _ _ _ Hinv x).
      destruct (decide (cid = x)) as [->|]; [by rewrite !lookup_delete_eq|].
      by rewrite !lookup_delete_ne.
    + done.
    + by rewrite fmap_delete.
    + rewrite Hnames. apply Hinv.
    + by rewrite fmap_delete.
    + intros x c0 [_ Hx]%lookup_delete_Some. by eapply (vi_socks _ _ _ Hinv).
    + intros x c0 [Hne Hx]%lookup_delete_Some Hw. rewrite lookup_delete_ne by done.
      by eapply (vi_waiting _ _ _ Hinv).
    + apply (vi_tlsctx _ _ _ Hinv).
    + intros p Hp. apply (vi_next _ _ _ Hinv). destruct Hp as [[? [_ ?]%lookup_delete_Some]|[Hp|Hp]].
      * left. eauto.
      * right. left. apply (fmap_is_Some gr_name). rewrite <-lookup_fmap, <-Hnames, lookup_fmap.
        by apply fmap_is_Some.
      * right. right. destruct Hp as [m' Hm']. specialize (Hcont _ _ Hm'). simpl in Hcont.
        destruct (sv_msgs srv !! p); [eauto|done].
  - done.
  - done.
  - done.
  - done.
  - simpl. rewrite (inbox_same _ (sv_msgs srv) _ _ Hrefs' Hcont). by rewrite fmap_delete.
Qed.
