(* ===== verification/ClientGroups.v ===== *)
(** * [join] and [leave]

    Clients join groups by name; a group is created when the first client
    joins it and stays when the last one leaves. *)

From S2P Require Import Prelude Deque Ringbuffer Json Socket SocketSpec Table TableSpec TableMap.
From S2P Require Import Hash State Client Invariant ClientSpec ClientPush ClientDeliver Inbox.
From S2P Require Import ClientSend ClientGone.
From Stdlib Require String.

(** [cid] is a member of the group [name]. *)
Definition member (srv : dime_server) (name : string) (cid : Z) : Prop :=
  ∃ gid g, sv_groups srv !! gid = Some g ∧ gr_name g = name ∧ cid ∈ gr_clnts g.

(** The room in the array of pointers that [reserve_ptr] makes. *)
Lemma reserve_ptr_spec al ps cap cap' :
  alloc_sane al → ptrs_ok ps cap → reserve_ptr al (zlen ps) cap = Some cap' →
  cap ≤ cap' ≤ 2 ^ 44 ∧ zlen ps < cap'.
Proof.
  intros Hs (_ & Hcap & Hlen). unfold reserve_ptr.
  destruct (Z.leb_spec cap (zlen ps)); [|intros [= <-]; lia]. unwrap.
  destruct (al (u64 (sizeof_ptr * (cap * 3 / 2)))) eqn:E; intros [= <-].
  apply Hs in E. unfold sizeof_ptr, MAXOBJ in *. rewrite u64_small in E by dlia. dlia.
Qed.

Lemma reserve_ptr_None b al ps cap :
  (∀ n, n ≤ 2 ^ b → al n = true) → ptrs_ok ps cap → reserve_ptr al (zlen ps) cap = None →
  2 ^ b < 12 * cap.
Proof.
  intros Hg (_ & Hcap & _). unfold reserve_ptr.
  destruct (Z.leb_spec cap (zlen ps)); [|done]. unwrap.
  destruct (Z.lt_ge_cases (2 ^ b) (12 * cap)); [done|].
  rewrite Hg; [done|]. unfold sizeof_ptr. rewrite u64_small by dlia. dlia.
Qed.

(** A client and one of its groups change together. *)
Lemma inv_regroup busy srv qs cid c c' gid g g' :
  server_inv busy srv qs → sv_clients srv !! cid = Some c → sv_groups srv !! gid = Some g →
  cl_fd c' = cl_fd c → cl_queue c' = cl_queue c → cl_sock c' = cl_sock c →
  cl_waiting c' = cl_waiting c → gr_name g' = gr_name g →
  groups_inv (<[cid := joined c']> (joined <$> sv_clients srv)) (<[gid := g']> (sv_groups srv)) →
  server_inv busy (sv_set_groups (sv_set_clients srv (<[cid := c']> (sv_clients srv)))
    (<[gid := g']> (sv_groups srv))) qs.
Proof.
  intros Hinv Hc Hg Hfd Hq Hs Hw Hn Hgr. split; simpl; try apply Hinv; try done.
  - rewrite (fmap_insert_same cl_queue _ _ c) by done. apply Hinv.
  - by rewrite fmap_insert.
  - rewrite (fmap_insert_same gr_name _ _ g) by done. apply Hinv.
  - rewrite (fmap_insert_same cl_fd _ _ c) by done. apply Hinv.
  - intros x c0 [[<- <-]|[_ Hx]]%lookup_insert_Some.
    + rewrite Hs. by eapply (vi_socks _ _ _ Hinv).
    + by eapply (vi_socks _ _ _ Hinv).
  - intros x c0 [[<- <-]|[_ Hx]]%lookup_insert_Some Hwx.
    + rewrite Hw in Hwx. by eapply (vi_waiting _ _ _ Hinv).
    + by eapply (vi_waiting _ _ _ Hinv).
  - intros p Hp. apply (vi_next _ _ _ Hinv).
    destruct Hp as [[<-|[_ ?]]%lookup_insert_is_Some|[[<-|[_ ?]]%lookup_insert_is_Some|?]]; eauto.
Qed.

Section groups.
Context `{Jansson} {limit : Z} `{!JanssonLaws limit}.
Variable strerror : string.
Implicit Types (o : oracle) (cid gid mid : Z) (srv : dime_server).

(** The names of some groups. *)
Lemma wp_names srv gs (Q : list string → dime_server → Prop) :
  (∀ gid, gid ∈ gs → is_Some (sv_groups srv !! gid)) →
  (∀ names, length names = length gs →
     (∀ i gid, gs !! i = Some gid → ∃ g, sv_groups srv !! gid = Some g ∧
        names !! i = Some (gr_name g)) → Q names srv) →
  wp (mapM (λ gid, g ← get_group gid; mret (gr_name g)) gs) srv Q.
Proof.
  revert Q. induction gs as [|gid gs IH]; intros Q Hlive HQ; cbn [mapM].
  { apply wp_ret, HQ; [done|]. by intros i gid. }
  destruct (Hlive gid) as [g Hg]; [by left|].
  apply wp_bind. wp_step. apply wp_ret. apply wp_bind, IH.
  { intros y Hy. apply Hlive. by right. }
  intros names Hlen Hn. apply wp_ret, HQ; [simpl; by rewrite Hlen|].
  intros [|i] gid'; simpl; [intros [= <-]; eauto|apply Hn].
Qed.

(** Groups with the same name are the same. *)
Lemma group_name_inj busy srv qs gid gid' g g' :
  server_inv busy srv qs → sv_groups srv !! gid = Some g → sv_groups srv !! gid' = Some g' →
  gr_name g = gr_name g' → gid = gid'.
Proof.
  intros Hinv Hg Hg' Heq. destruct (vi_names _ _ _ Hinv) as (nm & _ & Hnm).
  assert (nm !! gr_name g = Some gid) by (apply Hnm; by rewrite lookup_fmap, Hg).
  assert (nm !! gr_name g = Some gid') by (apply Hnm; by rewrite lookup_fmap, Hg', Heq).
  congruence.
Qed.

(** Membership as the clients know it. *)
Lemma member_client busy srv qs n x :
  server_inv busy srv qs →
  member srv n x ↔ ∃ c gid, sv_clients srv !! x = Some c ∧ gid ∈ cl_groups c ∧
    (gr_name <$> sv_groups srv) !! gid = Some n.
Proof.
  intros Hinv. pose proof (vi_groups _ _ _ Hinv) as Hgr. split.
  - intros (gid & g & Hg & <- & Hx). destruct (gi_member _ _ Hgr _ _ _ Hg Hx) as (gs & cap & Hc & Hin).
    rewrite lookup_fmap in Hc. destruct (sv_clients srv !! x) as [c|] eqn:E; [|done].
    injection Hc as <- <-. exists c, gid. by rewrite lookup_fmap, Hg.
  - intros (c & gid & Hc & Hin & Hn).
    assert ((joined <$> sv_clients srv) !! x = Some (joined c)) as Hj by by rewrite lookup_fmap, Hc.
    destruct (gi_joined _ _ Hgr _ _ _ gid Hj Hin) as (g & Hg & Hx).
    exists gid, g. rewrite lookup_fmap, Hg in Hn. split; [done|]. split; [by injection Hn|done].
Qed.

Definition table_room (b : Z) (n : Z) srv : Prop :=
  dime_table_len (sv_name2clnt srv) + n ≤ 2 ^ (b - 6).

Lemma table_inv_len {K} `{Countable K} (hash_f : K → Z) (tbl : dime_table K Z) m :
  table_inv hash_f tbl m → dime_table_len tbl = Z.of_nat (size m).
Proof. intros (Hrep & _). by eapply rep_size. Qed.

(** The table has a new name for a group under a new address. *)
Lemma names_insert nm names gid name (tbl : dime_table string Z) :
  (∀ n x, nm !! n = Some x ↔ names !! x = Some n) → names !! gid = None →
  table_inv hash_name tbl (<[name := gid]> nm) → nm !! name = None →
  names_inv (<[gid := name]> names) tbl.
Proof.
  intros Hnm Hgid Htbl Hname. exists (<[name := gid]> nm). split; [done|]. intros n x.
  rewrite !lookup_insert_Some, Hnm. split.
  - intros [[-> ->]|[Hne Hx]]; [by left|]. right. split; [congruence|done].
  - intros [[-> ->]|[Hne Hx]]; [by left|]. right. split; [|done]. intros ->.
    apply Hnm in Hx. congruence.
Qed.

Lemma inv_new_group srv qs name tbl :
  server_inv None srv qs → names_inv (<[sv_next srv := name]> (gr_name <$> sv_groups srv)) tbl →
  server_inv None (Server (sv_clients srv) (<[sv_next srv := Group name [] 4]> (sv_groups srv))
    (sv_msgs srv) (sv_next srv + 1) (sv_fd2clnt srv) tbl (sv_serialization srv) (sv_tlsctx srv)) qs.
Proof.
  intros Hinv Hn. destruct (inv_fresh _ _ _ Hinv) as (_ & Hgnone & _).
  split; try apply Hinv; simpl.
  - apply groups_inv_new; [apply Hinv|done].
  - by rewrite fmap_insert.
  - assert (∀ p, is_Some (sv_clients srv !! p) ∨ is_Some (sv_groups srv !! p) ∨
      is_Some (sv_msgs srv !! p) → p < sv_next srv + 1) as Hnext.
    { intros p Hp. pose proof (vi_next _ _ _ Hinv p Hp). lia. }
    intros p [Hp|[[<-|[_ Hp]]%lookup_insert_is_Some|Hp]]; [|lia|..]; apply Hnext; tauto.
Qed.

Lemma wp_find_or_create b o cid name srv qs :
  10 ≤ b ≤ 47 → oracle_sane o → grants o (2 ^ b) → server_inv None srv qs →
  table_room b 1 srv → (String.length name < 100)%nat →
  wp (find_or_create strerror o cid name) srv (λ r srv', ∃ gid g, r = inl gid ∧
    server_inv None srv' qs ∧ sv_clients srv' = sv_clients srv ∧ sv_msgs srv' = sv_msgs srv ∧
    sv_groups srv' !! gid = Some g ∧ gr_name g = name ∧
    (sv_groups srv' = sv_groups srv ∨
     gr_clnts g = [] ∧ sv_groups srv !! gid = None ∧ sv_groups srv' = <[gid := g]> (sv_groups srv)) ∧
    dime_table_len (sv_name2clnt srv') ≤ dime_table_len (sv_name2clnt srv) + 1).
Proof.
  intros Hb Hs Hg Hinv Hroom Hlen. assert (1024 ≤ 2 ^ b).
  { change 1024 with (2 ^ 10). apply Z.pow_le_mono_r; lia. }
  unfold find_or_create. wp_step.
  destruct (vi_names _ _ _ Hinv) as (nm & Htbl & Hnm).
  pose proof (inv_search cmp_name hash_name cmp_name_eq _ _ name Htbl) as Hsearch.
  apply returns_eq in Hsearch as ([r tbl] & -> & -> & Htbl').
  apply wp_bind, wp_lift. simpl. apply wp_bind, wp_modify.
  assert (names_inv (gr_name <$> sv_groups srv) tbl) as Hn1 by (by exists nm).
  pose proof (inv_set_names _ _ _ _ Hinv Hn1) as Hinv1.
  pose proof (table_inv_len _ _ _ Htbl) as Hl. pose proof (table_inv_len _ _ _ Htbl') as Hl'.
  destruct (nm !! name) as [gid|] eqn:Hname.
  { apply wp_ret. apply Hnm in Hname as Hgid. rewrite lookup_fmap in Hgid.
    destruct (sv_groups srv !! gid) as [g|] eqn:Hgg; [|done]. injection Hgid as Hgid.
    exists gid, g. split_and!; try done; [by left|]. simpl. lia. }
  assert (∀ n k, k ≤ 2 ^ b → at_ o n k = true) as Hat by (intros; by apply Hg).
  rewrite !Hat by (unfold sizeof_group, sizeof_ptr; lia). cbn [andb].
  apply wp_bind. unfold fresh, wp at 1. cbn [returns].
  destruct (inv_fresh _ _ _ Hinv) as (_ & Hgnone & _).
  set (gid := sv_next (sv_set_name2clnt srv tbl)).
  apply wp_bind, wp_modify. cbn [sv_set_next sv_set_groups sv_set_name2clnt sv_groups].
  assert (budget b (at_ (sub o 3))) as Hbud.
  { intros i. split; [eauto with oracle|]. intros n Hn. by apply Hg. }
  pose proof (inv_insert cmp_name hash_name cmp_name_eq b _ _ _ name gid Hb Hbud Htbl' Hname)
    as Hins.
  apply returns_eq in Hins as ([rc tbl2] & Hrun & -> & Htbl2); [|unfold table_room in *; lia].
  apply wp_bind, wp_lift. rewrite Hrun. simpl. apply wp_bind, wp_modify, wp_ret.
  exists gid, (Group name [] 4). simpl. split_and!; try done.
  - apply (inv_new_group (sv_set_name2clnt srv tbl)); [done|].
    apply (names_insert nm); [exact Hnm| |done..].
    rewrite lookup_fmap. by apply fmap_None.
  - apply lookup_insert_eq.
  - by right.
  - pose proof (table_inv_len _ _ _ Htbl2) as Hl2. rewrite map_size_insert_None in Hl2 by done. lia.
Qed.

(** What [join] and [leave] keep: the messages, the descriptors and the
    inbuffers. *)
Record stays srv srv' : Prop := {
  st_msgs : sv_msgs srv' = sv_msgs srv;
  st_fd : cl_fd <$> sv_clients srv' = cl_fd <$> sv_clients srv;
  st_inbufs : inbufs <$> sv_clients srv' = inbufs <$> sv_clients srv;
}.

Lemma stays_put srv srv' cid c c' :
  sv_clients srv' = <[cid := c']> (sv_clients srv) → sv_clients srv !! cid = Some c →
  cl_fd c' = cl_fd c → cl_sock c' = cl_sock c → sv_msgs srv' = sv_msgs srv → stays srv srv'.
Proof.
  intros Hcl Hc Hfd Hs Hm. split; [done|..]; rewrite Hcl; eapply fmap_insert_same; try done.
  unfold inbufs. by rewrite Hs.
Qed.

Lemma stays_trans srv1 srv2 srv3 : stays srv1 srv2 → stays srv2 srv3 → stays srv1 srv3.
Proof. intros [] []. split; congruence. Qed.
Lemma quiet_stays T srv srv' : quiet T srv srv' → stays srv srv'.
Proof. intros Hq. split; apply Hq. Qed.
Lemma stays_client srv srv' cid :
  stays srv srv' → is_Some (sv_clients srv' !! cid) ↔ is_Some (sv_clients srv !! cid).
Proof. intros []. by eapply fmap_eq_is_Some. Qed.

Definition joins (names : list string) cid srv srv' : Prop :=
  ∀ n x, member srv' n x ↔ member srv n x ∨ n ∈ names ∧ x = cid.

Lemma quiet_member T srv srv' n x : quiet T srv srv' → member srv' n x ↔ member srv n x.
Proof. intros Hq. unfold member. by rewrite (qu_groups _ _ _ Hq). Qed.

(** Why an element of the list is refused, and the response that says so. *)
Inductive join_blocked (b : Z) cid (v : json) srv : cmd_args → Prop :=
  | join_no_string : json_string_value v = None →
      join_blocked b cid v srv (args_error "JSON parsing error: expected string")
  | join_twice name : json_string_value v = Some name → member srv name cid →
      join_blocked b cid v srv (args_error2 "Client is already in group: " name)
  | join_client_full c : sv_clients srv !! cid = Some c → 2 ^ b < 12 * cl_groups_cap c →
      join_blocked b cid v srv (args_error strerror)
  | join_group_full gid g : sv_groups srv !! gid = Some g → 2 ^ b < 12 * gr_clnts_cap g →
      join_blocked b cid v srv (args_error strerror).

Inductive leave_blocked cid (v : json) srv : cmd_args → Prop :=
  | leave_no_string : json_string_value v = None →
      leave_blocked cid v srv (args_error "JSON parsing error: expected string")
  | leave_no_member name : json_string_value v = Some name → ¬ member srv name cid →
      leave_blocked cid v srv (args_error2 "Client is not in group: " name).

Lemma quiet_join_blocked T b cid v args srv srv' :
  quiet T srv srv' → join_blocked b cid v srv args → join_blocked b cid v srv' args.
Proof.
  intros Hq [?|name ? ?|c Hc Hb|gid g ? ?].
  - by apply join_no_string.
  - apply join_twice; [done|]. by rewrite (quiet_member _ _ _ _ _ Hq).
  - pose proof (qu_joined _ _ _ Hq) as Hj.
    assert ((joined <$> sv_clients srv') !! cid = Some (joined c)) as Hc' by by rewrite Hj, lookup_fmap, Hc.
    rewrite lookup_fmap in Hc'. destruct (sv_clients srv' !! cid) as [c'|] eqn:E; [|done].
    injection Hc' as _ Hcap. eapply join_client_full; [exact E|]. by rewrite Hcap.
  - eapply join_group_full; [|done]. by rewrite (qu_groups _ _ _ Hq).
Qed.

Lemma quiet_leave_blocked T cid v args srv srv' :
  quiet T srv srv' → leave_blocked cid v srv args → leave_blocked cid v srv' args.
Proof.
  intros Hq [?|name ? ?]; [by apply leave_no_string|]. apply leave_no_member; [done|].
  by rewrite (quiet_member _ _ _ _ _ Hq).
Qed.

(** The result of one element: the relation [R] with the names dealt with; if
    the element is refused the client is told why. *)
Definition one_post (R : list string → dime_server → dime_server → Prop)
    (blocked : json → dime_server → cmd_args → Prop) o cid v srv qs (r : option Z) srv' : Prop :=
  server_inv None srv' qs ∧ stays srv srv' ∧
  dime_table_len (sv_name2clnt srv') ≤ dime_table_len (sv_name2clnt srv) + 1 ∧
  match r with
  | None => cl_sock <$> sv_clients srv' = cl_sock <$> sv_clients srv ∧
      ∃ name, json_string_value v = Some name ∧ R [name] srv srv'
  | Some rc => rc = -1 ∧ R [] srv srv' ∧ ∃ args, blocked v srv' args ∧
      (grants o limit → errors_pack (limit:=limit) strerror →
       replied (limit:=limit) args cid srv srv')
  end.

Lemma same_sock srv srv' x :
  cl_sock <$> sv_clients srv' = cl_sock <$> sv_clients srv →
  cl_sock <$> sv_clients srv' !! x = cl_sock <$> sv_clients srv !! x.
Proof. intros Heq. by rewrite <-!lookup_fmap, Heq. Qed.

(** An error response in the middle of a command. *)
Lemma wp_one_failed R blocked o n cid v args srv0 srv qs (m : M Z) :
  (∀ srv1 srv2, quiet (at_client cid) srv1 srv2 → blocked v srv1 args → blocked v srv2 args) →
  (∀ srv1 srv2, quiet (at_client cid) srv1 srv2 → R [] srv0 srv1 → R [] srv0 srv2) →
  R [] srv0 srv → blocked v srv args →
  server_inv None srv qs → stays srv0 srv →
  cl_sock <$> sv_clients srv = cl_sock <$> sv_clients srv0 →
  dime_table_len (sv_name2clnt srv) ≤ dime_table_len (sv_name2clnt srv0) + 1 →
  wp m srv (refused (limit:=limit) strerror args (sub o n) cid srv) →
  wp (rc ← m; mret (Some rc)) srv (one_post R blocked o cid v srv0 qs).
Proof.
  intros Hbq HRq HR Hb Hinv Hst Hsock Hlen Hm. apply wp_bind. eapply wp_mono; [exact Hm|].
  intros rc srv' (-> & Hq & Hreply). apply wp_ret. split; [by eapply quiet_inv|]. split.
  { eapply stays_trans; [done|by eapply quiet_stays]. }
  split; [by rewrite (qu_name2clnt _ _ _ Hq)|]. split; [done|]. split; [by eapply HRq|].
  exists args. split; [by eapply Hbq|]. intros Hg Hp.
  eapply replied_sock; [by apply same_sock|done|]. by apply Hreply; [apply grants_sub|].
Qed.

(** Both sides get to know each other. *)
Lemma joined_both srv qs cid c gid g ccap gcap :
  server_inv None srv qs → sv_clients srv !! cid = Some c → sv_groups srv !! gid = Some g →
  gid ∉ cl_groups c → cl_groups_cap c ≤ ccap ≤ 2 ^ 44 → gr_clnts_cap g ≤ gcap ≤ 2 ^ 44 →
  zlen (cl_groups c) < ccap → zlen (gr_clnts g) < gcap →
  server_inv None (sv_set_groups (sv_set_clients srv
      (<[cid := cl_set_groups c (cl_groups c ++ [gid]) ccap]> (sv_clients srv)))
    (<[gid := gr_set_clnts g (gr_clnts g ++ [cid]) gcap]> (sv_groups srv))) qs.
Proof.
  intros Hinv Hc Hg Hnin Hcc Hgc Hlt Hglt. eapply inv_regroup; try done.
  eapply groups_inv_join; try done; [apply Hinv|]. by rewrite lookup_fmap, Hc.
Qed.

Lemma inv_recap srv qs cid c ccap gid g :
  server_inv None srv qs → sv_clients srv !! cid = Some c → sv_groups srv !! gid = Some g →
  cl_groups_cap c ≤ ccap ≤ 2 ^ 44 →
  server_inv None (sv_set_clients srv
    (<[cid := cl_set_groups c (cl_groups c) ccap]> (sv_clients srv))) qs.
Proof.
  intros Hinv Hc Hg Hle.
  pose proof (inv_regroup None srv qs cid c (cl_set_groups c (cl_groups c) ccap) gid g g Hinv Hc Hg
    eq_refl eq_refl eq_refl eq_refl eq_refl) as Hr.
  rewrite (insert_id (sv_groups srv)) in Hr by done. apply Hr.
  eapply groups_inv_recap; [apply Hinv| |done]. by rewrite lookup_fmap, Hc.
Qed.

(** The names of the groups a client is in. *)
Lemma named_member srv qs cid c names name :
  server_inv None srv qs → sv_clients srv !! cid = Some c → length names = length (cl_groups c) →
  (∀ i gid, cl_groups c !! i = Some gid → ∃ g, sv_groups srv !! gid = Some g ∧
     names !! i = Some (gr_name g)) →
  existsb (String.eqb name) names = true → member srv name cid.
Proof.
  intros Hinv Hc Hlen Hnames (n' & Hin & <-%String.eqb_eq)%existsb_exists.
  apply list_elem_of_In, list_elem_of_lookup in Hin as [i Hi].
  destruct (lookup_lt_is_Some_2 (cl_groups c) i) as [gid Hgi].
  { apply lookup_lt_Some in Hi. lia. }
  destruct (Hnames _ _ Hgi) as (g & Hgid & Hni). rewrite Hi in Hni. injection Hni as Hni.
  apply (member_client _ _ _ _ _ Hinv). exists c, gid. split; [done|].
  split; [by eapply list_elem_of_lookup_2|]. by rewrite lookup_fmap, Hgid, Hni.
Qed.

Lemma not_named srv (gs : list Z) (names : list string) name gid :
  (∀ i gid, gs !! i = Some gid → ∃ g, sv_groups srv !! gid = Some g ∧ names !! i = Some (gr_name g)) →
  existsb (String.eqb name) names = false →
  (∀ g', sv_groups srv !! gid = Some g' → gr_name g' = name) → gid ∉ gs.
Proof.
  intros Hnames Hno Hname Hin. apply list_elem_of_lookup in Hin as [i Hi].
  destruct (Hnames _ _ Hi) as (g' & Hg' & Hni).
  apply not_true_iff_false in Hno. apply Hno, existsb_exists. exists name. split.
  - apply list_elem_of_In, list_elem_of_lookup. exists i. by rewrite Hni, (Hname _ Hg').
  - apply String.eqb_refl.
Qed.

(** A new group has no member. *)
Lemma member_created srv srv1 gid g :
  sv_groups srv1 = sv_groups srv ∨
    (gr_clnts g = [] ∧ sv_groups srv !! gid = None ∧ sv_groups srv1 = <[gid := g]> (sv_groups srv)) →
  ∀ n x, member srv1 n x ↔ member srv n x.
Proof.
  intros Hgroups n x. unfold member. destruct Hgroups as [->|(Hempty & Hnone & ->)]; [done|]. split.
  - intros (gid' & g' & [[<- <-]|[_ ?]]%lookup_insert_Some & Hn & Hx); [|by exists gid', g'].
    rewrite Hempty in Hx. by apply not_elem_of_nil in Hx.
  - intros (gid' & g' & Hg' & Hn & Hx). exists gid', g'.
    rewrite lookup_insert_ne; [done|]. congruence.
Qed.

Lemma member_added srv srv' cid gid g cap :
  sv_groups srv !! gid = Some g →
  sv_groups srv' = <[gid := gr_set_clnts g (gr_clnts g ++ [cid]) cap]> (sv_groups srv) →
  ∀ n x, member srv' n x ↔ member srv n x ∨ n = gr_name g ∧ x = cid.
Proof.
  intros Hg Hg' n x. unfold member. rewrite Hg'. split.
  - intros (gid' & g' & [[<- <-]|[Hne Hl]]%lookup_insert_Some & Hn & Hx); [|left; by exists gid', g'].
    simpl in Hx, Hn. apply elem_of_app in Hx as [Hx|Hx]; [left; by exists gid, g|right; set_solver].
  - intros [(gid' & g' & Hl & Hn & Hx)|[-> ->]].
    + destruct (decide (gid = gid')) as [<-|Hne]; [|exists gid', g'; by rewrite lookup_insert_ne].
      eexists gid, _. rewrite lookup_insert_eq. split; [done|]. simpl. simplify_eq. set_solver.
    + eexists gid, _. rewrite lookup_insert_eq. split; [done|]. simpl. set_solver.
Qed.

(** What has happened before the client is put into the group: the group may
    be a new one, without members. *)
Record prepared srv0 srv qs : Prop := {
  pp_inv : server_inv None srv qs;
  pp_stays : stays srv0 srv;
  pp_sock : cl_sock <$> sv_clients srv = cl_sock <$> sv_clients srv0;
  pp_len : dime_table_len (sv_name2clnt srv) ≤ dime_table_len (sv_name2clnt srv0) + 1;
  pp_member n x : member srv n x ↔ member srv0 n x;
}.

Lemma prepared_refl srv qs : server_inv None srv qs → prepared srv srv qs.
Proof. intros Hinv. split; [done|by split|done|lia|done]. Qed.

Lemma prepared_recap srv0 srv qs cid c ccap gid g :
  prepared srv0 srv qs → sv_clients srv !! cid = Some c → sv_groups srv !! gid = Some g →
  cl_groups_cap c ≤ ccap ≤ 2 ^ 44 →
  prepared srv0 (sv_set_clients srv
    (<[cid := cl_set_groups c (cl_groups c) ccap]> (sv_clients srv))) qs.
Proof.
  intros [] Hc Hg Hle. split; try done.
  - by eapply inv_recap.
  - eapply stays_trans; [done|by eapply (stays_put _ _ cid c)].
  - simpl. by rewrite (fmap_insert_same cl_sock _ _ c).
Qed.

Lemma wp_join_failed b o n cid v args srv0 srv qs (m : M Z) :
  prepared srv0 srv qs → join_blocked b cid v srv args →
  wp m srv (refused (limit:=limit) strerror args (sub o n) cid srv) →
  wp (rc ← m; mret (Some rc)) srv
    (one_post (λ ns, joins ns cid) (join_blocked b cid) o cid v srv0 qs).
Proof.
  intros [] Hbl. apply wp_one_failed; [| | |done..].
  - intros srv1 srv2. by apply quiet_join_blocked.
  - intros srv2 srv3 Hq H2 n' x. by rewrite (quiet_member _ _ _ _ _ Hq).
  - intros n' x. rewrite pp_member0. set_solver.
Qed.

Lemma wp_enter b o cid v name srv0 srv qs c gid g :
  10 ≤ b ≤ 47 → oracle_sane o → grants o (2 ^ b) → prepared srv0 srv qs →
  sv_clients srv !! cid = Some c → sv_groups srv !! gid = Some g → gr_name g = name →
  gid ∉ cl_groups c → json_string_value v = Some name →
  wp (enter_group strerror o cid gid) srv
    (one_post (λ ns, joins ns cid) (join_blocked b cid) o cid v srv0 qs).
Proof.
  intros Hb Hs Hg Hp Hc Hgid Hname Hnin Hv. pose proof (pp_inv _ _ _ Hp) as Hinv.
  pose proof (vi_groups _ _ _ Hinv) as Hgr. unfold enter_group. wp_step.
  assert ((joined <$> sv_clients srv) !! cid = Some (joined c)) as Hj by by rewrite lookup_fmap, Hc.
  destruct (reserve_ptr (at_ o 3) (zlen (cl_groups c)) (cl_groups_cap c)) as [ccap|] eqn:Ecap.
  2:{ eapply wp_join_failed; [done| |apply wp_refuse_errno; [eauto with oracle|by eapply inv_ready]].
      apply (join_client_full _ _ _ _ c); [done|].
      apply (reserve_ptr_None _ _ _ _ (λ n, Hg _ n) (gi_client _ _ Hgr _ _ _ Hj) Ecap). }
  apply (reserve_ptr_spec _ (cl_groups c)) in Ecap as [Hcc Hclt];
    [|eauto with oracle|exact (gi_client _ _ Hgr _ _ _ Hj)].
  pose proof (prepared_recap _ _ _ _ _ _ _ _ Hp Hc Hgid Hcc) as Hp2.
  apply wp_bind, wp_modify. set (srv2 := sv_set_clients srv _) in *. wp_step.
  destruct (reserve_ptr (at_ o 5) (zlen (gr_clnts g)) (gr_clnts_cap g)) as [gcap|] eqn:Egcap.
  2:{ eapply wp_join_failed; [done| |apply wp_refuse_errno; [eauto with oracle|]].
      - apply (join_group_full _ _ _ _ gid g); [done|].
        apply (reserve_ptr_None _ _ _ _ (λ n, Hg _ n) (gi_group _ _ Hgr _ _ Hgid) Egcap).
      - eapply inv_ready; [apply Hp2|]. apply lookup_insert_is_Some. by left. }
  apply (reserve_ptr_spec _ (gr_clnts g)) in Egcap as [Hgc Hglt];
    [|eauto with oracle|exact (gi_group _ _ Hgr _ _ Hgid)].
  unfold append_ptr. rewrite !(proj2 (Z.ltb_lt _ _)) by done.
  apply wp_bind, wp_ret. apply wp_bind, wp_modify. apply wp_bind, wp_ret.
  apply wp_bind, wp_modify, wp_ret.
  pose proof (joined_both srv qs cid c gid g ccap gcap Hinv Hc Hgid Hnin Hcc Hgc Hclt Hglt) as Hinv3.
  unfold srv2. cbn [sv_set_groups sv_set_clients sv_clients sv_groups sv_msgs sv_next sv_fd2clnt
    sv_name2clnt sv_serialization sv_tlsctx]. rewrite insert_insert_eq.
  split; [exact Hinv3|]. split; [|split; [apply Hp|split]].
  - eapply stays_trans; [apply Hp|by eapply (stays_put _ _ cid c)].
  - simpl. rewrite (fmap_insert_same cl_sock _ _ c) by done. apply Hp.
  - exists name. split; [done|]. intros n x. rewrite <-(pp_member _ _ _ Hp).
    rewrite (member_added srv _ cid gid g gcap Hgid) by done. rewrite Hname. set_solver.
Qed.

Lemma wp_join_one b o cid v srv qs :
  10 ≤ b ≤ 47 → oracle_sane o → grants o (2 ^ b) → server_inv None srv qs →
  is_Some (sv_clients srv !! cid) → table_room b 1 srv →
  (∀ name, json_string_value v = Some name → short 53 name) →
  wp (join_one strerror o cid v) srv
    (one_post (λ ns, joins ns cid) (join_blocked b cid) o cid v srv qs).
Proof.
  intros Hb Hs Hg Hinv [c Hc] Hroom Hshort. unfold join_one.
  assert (ready srv cid) as Hr by (eapply inv_ready; eauto).
  destruct (json_string_value v) as [name|] eqn:Hv.
  2:{ eapply wp_join_failed; [by apply prepared_refl|by apply join_no_string|].
      apply wp_refuse_text; [eauto with oracle|done|simpl; lia]. }
  specialize (Hshort _ eq_refl). unfold short in Hshort. wp_step.
  assert ((joined <$> sv_clients srv) !! cid = Some (joined c)) as Hj by by rewrite lookup_fmap, Hc.
  apply wp_bind, wp_names.
  { intros gid Hin. destruct (gi_joined _ _ (vi_groups _ _ _ Hinv) _ _ _ _ Hj Hin) as (g & ? & _).
    eauto. }
  intros names Hnlen Hnames. destruct (existsb (String.eqb name) names) eqn:Eex.
  { eapply wp_join_failed; [by apply prepared_refl| |].
    - apply (join_twice _ _ _ _ name); [done|]. by eapply named_member.
    - apply wp_refuse_text2; [eauto with oracle|done|simpl; lia]. }
  apply wp_bind. eapply wp_mono.
  { eapply (wp_find_or_create b (sub o 2) cid name srv qs); eauto with oracle. lia. }
  intros r srv1 (gid & g & -> & Hinv1 & Hcl & Hmsgs & Hgid & Hname & Hgroups & Hlen).
  eapply wp_enter; try done.
  - split; [done|by split; rewrite ?Hcl|by rewrite Hcl|done|by eapply member_created].
  - by rewrite Hcl.
  - eapply (not_named srv); [exact Hnames|done|]. intros g' Hg'.
    destruct Hgroups as [Heq|(_ & Hnone & _)]; congruence.
Qed.

Definition leaves (names : list string) cid srv srv' : Prop :=
  ∀ n x, member srv' n x ↔ member srv n x ∧ ¬ (n ∈ names ∧ x = cid).

(** The converse of [named_member]. *)
Lemma member_named srv qs cid c names name :
  server_inv None srv qs → sv_clients srv !! cid = Some c →
  (∀ i gid, cl_groups c !! i = Some gid → ∃ g, sv_groups srv !! gid = Some g ∧
     names !! i = Some (gr_name g)) →
  member srv name cid → find_index (String.eqb name) names ≠ None.
Proof.
  intros Hinv Hc Hnames (c' & gid & Hc' & Hin & Hn)%(member_client _ _ _ _ _ Hinv) Ei.
  simplify_eq. apply list_elem_of_lookup in Hin as [i Hi].
  destruct (Hnames _ _ Hi) as (g & Hgid & Hni). rewrite lookup_fmap, Hgid in Hn.
  injection Hn as Hn. pose proof (find_index_None _ _ name Ei) as Hf.
  rewrite String.eqb_refl in Hf. discriminate Hf.
  apply list_elem_of_lookup. exists i. by rewrite Hni, Hn.
Qed.

Lemma member_removed srv srv' qs cid gid g k cap :
  server_inv None srv qs → sv_groups srv !! gid = Some g → gr_clnts g !! k = Some cid →
  sv_groups srv' = <[gid := gr_set_clnts g (swap_remove k (gr_clnts g)) cap]> (sv_groups srv) →
  ∀ n x, member srv' n x ↔ member srv n x ∧ ¬ (n = gr_name g ∧ x = cid).
Proof.
  intros Hinv Hg Hk Hg' n x.
  destruct (swap_remove_spec _ k cid _ Hk (gi_group _ _ (vi_groups _ _ _ Hinv) _ _ Hg)) as [_ Hmem].
  unfold member. rewrite Hg'. split.
  - intros (gid' & g' & [[<- <-]|[Hne Hl]]%lookup_insert_Some & Hn & Hx).
    + simpl in Hx, Hn. apply Hmem in Hx as [Hx Hne]. split; [by exists gid, g|]. by intros [_ ->].
    + split; [by exists gid', g'|]. intros [-> ->].
      apply Hne. by apply (group_name_inj _ _ _ _ _ _ _ Hinv Hg Hl).
  - intros [(gid' & g' & Hl & Hn & Hx) Hnot]. destruct (decide (gid = gid')) as [<-|Hne].
    + eexists gid, _. rewrite lookup_insert_eq. split; [done|]. simpl. simplify_eq.
      split; [done|]. apply Hmem. split; [done|]. intros ->. by apply Hnot.
    + exists gid', g'. by rewrite lookup_insert_ne.
Qed.

Lemma wp_leave_failed o n cid v args srv qs (m : M Z) :
  server_inv None srv qs → leave_blocked cid v srv args →
  wp m srv (refused (limit:=limit) strerror args (sub o n) cid srv) →
  wp (rc ← m; mret (Some rc)) srv
    (one_post (λ ns, leaves ns cid) (leave_blocked cid) o cid v srv qs).
Proof.
  intros Hinv Hbl. apply wp_one_failed; [| | |done|done|by split|done|lia].
  - intros srv1 srv2. by apply quiet_leave_blocked.
  - intros srv2 srv3 Hq H2 n' x. by rewrite (quiet_member _ _ _ _ _ Hq).
  - intros n' x. set_solver.
Qed.

Lemma wp_leave_one b o cid v srv qs :
  oracle_sane o → server_inv None srv qs →
  is_Some (sv_clients srv !! cid) → table_room b 1 srv →
  (∀ name, json_string_value v = Some name → short 57 name) →
  wp (leave_one o cid v) srv (one_post (λ ns, leaves ns cid) (leave_blocked cid) o cid v srv qs).
Proof.
  intros Hs Hinv [c Hc] Hroom Hshort. unfold leave_one.
  assert (ready srv cid) as Hr by (eapply inv_ready; eauto).
  destruct (json_string_value v) as [name|] eqn:Hv.
  2:{ eapply wp_leave_failed; [done|by apply leave_no_string|].
      apply wp_refuse_text; [eauto with oracle|done|simpl; lia]. }
  specialize (Hshort _ eq_refl). unfold short in Hshort. wp_step.
  pose proof (vi_groups _ _ _ Hinv) as Hgr.
  assert ((joined <$> sv_clients srv) !! cid = Some (joined c)) as Hj by by rewrite lookup_fmap, Hc.
  apply wp_bind, wp_names.
  { intros gid Hin. destruct (gi_joined _ _ Hgr _ _ _ _ Hj Hin) as (g & Hgg & _). eauto. }
  intros names Hnlen Hnames. destruct (find_index (String.eqb name) names) as [i|] eqn:Ei.
  2:{ eapply wp_leave_failed; [done| |].
      - apply (leave_no_member _ _ _ name); [done|]. intros Hin.
        by apply (member_named _ _ _ _ _ _ Hinv Hc Hnames Hin).
      - apply wp_refuse_text2; [eauto with oracle|done|simpl; lia]. }
  apply find_index_Some in Ei as (name' & Hi & <-%String.eqb_eq).
  destruct (lookup_lt_is_Some_2 (cl_groups c) i) as [gid Hgi].
  { apply lookup_lt_Some in Hi. lia. }
  rewrite Hgi. destruct (Hnames _ _ Hgi) as (g & Hgid & Hni).
  assert (gr_name g = name) as Hname by congruence.
  destruct (gi_joined _ _ Hgr _ _ _ gid Hj) as (g' & Hg' & Hin).
  { by eapply list_elem_of_lookup_2. }
  simplify_eq. wp_step.
  destruct (find_index _ (gr_clnts g)) as [k|] eqn:Ek; [|by apply member_index_None in Ek].
  apply member_index in Ek. apply wp_bind, wp_modify. apply wp_bind, wp_modify, wp_ret.
  pose proof (groups_inv_leave _ _ cid (cl_groups c) (cl_groups_cap c) i gid g k Hgr Hj Hgi Hgid Ek)
    as Hgr'.
  pose proof (inv_regroup None srv qs cid c (cl_set_groups c (swap_remove i (cl_groups c))
    (cl_groups_cap c)) gid g (gr_set_clnts g (swap_remove k (gr_clnts g)) (gr_clnts_cap g))
    Hinv Hc Hgid eq_refl eq_refl eq_refl eq_refl eq_refl Hgr') as Hinv'.
  split; [exact Hinv'|]. split; [|split; [simpl; lia|split]].
  - by eapply (stays_put _ _ cid c).
  - simpl. by rewrite (fmap_insert_same cl_sock _ _ c).
  - exists (gr_name g). split; [done|]. intros n x.
    rewrite (member_removed srv _ qs cid gid g k (gr_clnts_cap g) Hinv Hgid Ek) by done. set_solver.
Qed.

(** One command over a list of names: the names dealt with are those of the
    elements before the first one that is refused. *)
Lemma wp_each b (one : oracle → json → M (option Z)) (R : list string → dime_server → dime_server → Prop)
    blocked (ok : json → Prop) cid qs :
  (∀ srv, R [] srv srv) →
  (∀ n ns srv1 srv2 srv3, R [n] srv1 srv2 → R ns srv2 srv3 → R (n :: ns) srv1 srv3) →
  (∀ o v srv, oracle_sane o → grants o (2 ^ b) → server_inv None srv qs →
     is_Some (sv_clients srv !! cid) → table_room b 1 srv → ok v →
     wp (one o v) srv (one_post R blocked o cid v srv qs)) →
  ∀ vs o srv, oracle_sane o → grants o (2 ^ b) → server_inv None srv qs →
  is_Some (sv_clients srv !! cid) → table_room b (zlen vs) srv → (∀ v, v ∈ vs → ok v) →
  wp (for_each o one vs) srv (λ r srv', server_inv None srv' qs ∧ stays srv srv' ∧
    ∃ front names rest, vs = front ++ rest ∧
      Forall2 (λ v n, json_string_value v = Some n) front names ∧ R names srv srv' ∧
      match r with
      | None => rest = [] ∧ cl_sock <$> sv_clients srv' = cl_sock <$> sv_clients srv
      | Some rc => rc = -1 ∧ ∃ v rest' args, rest = v :: rest' ∧ blocked v srv' args ∧
          (grants o limit → errors_pack (limit:=limit) strerror →
           replied (limit:=limit) args cid srv srv')
      end).
Proof.
  intros Hnil Hcons Hone. induction vs as [|v vs IH]; intros o srv Hs Hg Hinv Hcid Hroom Hok.
  { apply wp_ret. split_and!; [done|by split|]. exists [], [], []. by split_and!; [|constructor|..]. }
  unfold table_room in *. rewrite zlen_cons in Hroom. pose proof (zlen_nonneg vs).
  cbn [for_each]. apply wp_bind. eapply wp_mono.
  { apply (Hone (sub o 0) v srv); eauto with oracle; [lia|]. apply Hok. by left. }
  intros [rc|] srv1 (Hinv1 & Hst & Hlen & Hr).
  { destruct Hr as (-> & HR & args & Hbl & Hreply). apply wp_ret. split_and!; [done..|].
    exists [], [], (v :: vs). split_and!; [done|constructor|done|done|].
    exists v, vs, args. split_and!; [done..|]. intros Hgl. apply Hreply. by apply grants_sub. }
  destruct Hr as (Hsock & n & Hn & HR).
  eapply wp_mono; [apply (IH (sub o 1) srv1)|]; eauto with oracle.
  - by apply (stays_client _ _ _ Hst).
  - lia.
  - intros y Hy. apply Hok. by right.
  - intros r srv2 (Hinv2 & Hst2 & front & names & rest & -> & Hns & HR2 & Hr2).
    split_and!; [done|by eapply stays_trans|]. exists (v :: front), (n :: names), rest.
    split_and!; [done|by constructor|by eapply Hcons|]. destruct r.
    + destruct Hr2 as (-> & v' & rest' & args & -> & Hbl & Hreply). split; [done|].
      exists v', rest', args. split_and!; [done..|]. intros Hgl Hp.
      eapply replied_sock; [by apply same_sock|done|]. by apply Hreply; [apply grants_sub|].
    + destruct Hr2 as [? ->]. by rewrite Hsock.
Qed.

(** What a [join] or [leave] does. *)
Definition regrouped (R : list string → dime_server → dime_server → Prop) blocked cid j srv boxes
    (rc : Z) srv' : Prop :=
  (rc = 0 ∨ rc = -1) ∧ cl_fd <$> sv_clients srv' = cl_fd <$> sv_clients srv ∧
  inbufs <$> sv_clients srv' = inbufs <$> sv_clients srv ∧ server_view srv' boxes ∧
  match json_unpack_so j "name" with
  | inr text => rc = -1 ∧ R [] srv srv' ∧
      (errors_pack (limit:=limit) strerror →
       replied (limit:=limit) (args_error2 parse_error text) cid srv srv')
  | inl arr => ∃ front names rest, json_array_elems arr = front ++ rest ∧
      Forall2 (λ v n, json_string_value v = Some n) front names ∧ R names srv srv' ∧
      if decide (rc = 0) then rest = [] ∧ told (limit:=limit) (status0, []) cid srv srv'
      else match rest with
           | [] => ∃ c, sv_clients srv !! cid = Some c ∧ ¬ room (limit:=limit) 12 c
           | v :: _ => ∃ args, blocked v srv' args ∧
               (errors_pack (limit:=limit) strerror → replied (limit:=limit) args cid srv srv')
           end
  end.

Lemma wp_regroup b (one : oracle → json → M (option Z)) R blocked bound o cid j srv boxes :
  (∀ srv, R [] srv srv) →
  (∀ n ns srv1 srv2 srv3, R [n] srv1 srv2 → R ns srv2 srv3 → R (n :: ns) srv1 srv3) →
  (∀ T ns srv1 srv2 srv3, R ns srv1 srv2 → quiet T srv2 srv3 → R ns srv1 srv3) →
  (∀ qs o v srv, oracle_sane o → grants o (2 ^ b) → server_inv None srv qs →
     is_Some (sv_clients srv !! cid) → table_room b 1 srv →
     (∀ name, json_string_value v = Some name → short bound name) →
     wp (one o v) srv (one_post R blocked o cid v srv qs)) →
  oracle_sane o → grants o (2 ^ b) → grants o limit → server_view srv boxes →
  is_Some (sv_clients srv !! cid) →
  match json_unpack_so j "name" with
  | inl arr => table_room b (zlen (json_array_elems arr)) srv ∧
      ∀ v name, v ∈ json_array_elems arr → json_string_value v = Some name → short bound name
  | inr text => short 61 text
  end →
  wp (match json_unpack_so j "name" with
      | inr text => fail_text2 (sub o 0) cid parse_error text
      | inl arr =>
          r ← for_each (sub o 1) one (json_array_elems arr);
          match r with Some rc => mret rc | None => finish strerror (sub o 2) cid end
      end) srv (regrouped R blocked cid j srv boxes).
Proof.
  intros Hnil Hcons Hquiet Hone Hs Hg Hgl (qs & Hinv & ->) Hcid Hok. unfold regrouped.
  destruct (json_unpack_so j "name") as [arr|text].
  2:{ eapply wp_mono; [apply (wp_refuse_text2 (limit:=limit) strerror (sub o 0)); eauto with oracle|].
      - by eapply inv_ready.
      - unfold short in Hok. simpl. lia.
      - intros rc srv' (-> & Hq & Hreply).
        split_and!; [by right|apply Hq|apply Hq| |done|by eapply Hquiet|].
        + eapply quiet_view; [done|by exists qs].
        + by apply Hreply, grants_sub. }
  destruct Hok as [Hroom Hshort]. apply wp_bind.
  eapply wp_mono; [eapply (wp_each b one R blocked (λ v, ∀ name, json_string_value v = Some name →
    short bound name) cid qs Hnil Hcons (Hone qs)); eauto with oracle|].
  intros [rc|] srv1 (Hinv1 & Hst & front & names & rest & Helems & Hnames & HR & Hr).
  - destruct Hr as (-> & v & rest' & args & -> & Hbl & Hreply). apply wp_ret.
    split_and!; [by right|apply Hst|apply Hst| |].
    + exists qs. by rewrite (st_msgs _ _ Hst).
    + exists front, names, (v :: rest'). rewrite decide_False by done. split_and!; [done..|].
      exists args. split; [done|]. by apply Hreply, grants_sub.
  - destruct Hr as [-> Hsock].
    eapply wp_mono; [apply (wp_finish_told (limit:=limit) strerror (sub o 2)); [eauto with oracle..|]|].
    { eapply inv_ready; [done|]. by apply (stays_client _ _ _ Hst). }
    intros rc srv2 ([Hrc Hq] & Htold & Hfin).
    split_and!; [done|rewrite (qu_fd _ _ _ Hq); apply Hst|rewrite (qu_inbufs _ _ _ Hq); apply Hst| |].
    + eapply quiet_view; [done|]. exists qs. by rewrite (st_msgs _ _ Hst).
    + exists front, names, []. split_and!; [done|done|by eapply Hquiet|]. case_decide as Hne.
      { split; [done|]. by eapply told_sock; [apply same_sock|..|exact Htold]. }
      destruct Hcid as [c Hc]. exists c. split; [done|]. intros Hrm. apply Hne.
      pose proof (same_sock _ _ cid Hsock) as Heq. rewrite Hc in Heq.
      destruct (sv_clients srv1 !! cid) as [c1|] eqn:Hc1; [|done].
      injection Heq as Heq. apply (Hfin c1 eq_refl). unfold room. by rewrite Heq.
Qed.

Lemma wp_join b o cid j srv boxes :
  10 ≤ b ≤ 47 → oracle_sane o → grants o (2 ^ b) → grants o limit → server_view srv boxes →
  is_Some (sv_clients srv !! cid) →
  match json_unpack_so j "name" with
  | inl arr => table_room b (zlen (json_array_elems arr)) srv ∧
      ∀ v name, v ∈ json_array_elems arr → json_string_value v = Some name → short 53 name
  | inr text => short 61 text
  end →
  wp (dime_client_join strerror o cid j) srv
    (regrouped (λ ns, joins ns cid) (join_blocked b cid) cid j srv boxes).
Proof.
  intros Hb Hs Hg Hgl Hv Hcid Hok. unfold dime_client_join.
  apply (wp_regroup b (λ o v, join_one strerror o cid v) _ _ 53); try done.
  - intros srv0 n x. set_solver.
  - intros n ns srv1 srv2 srv3 H1 H2 n' x. rewrite (H2 n' x), (H1 n' x). set_solver.
  - intros T ns srv1 srv2 srv3 H1 Hq n x. by rewrite (quiet_member _ _ _ _ _ Hq).
  - intros qs o' v srv'. by apply wp_join_one.
Qed.

Lemma wp_leave b o cid j srv boxes :
  oracle_sane o → grants o (2 ^ b) → grants o limit → server_view srv boxes →
  is_Some (sv_clients srv !! cid) →
  match json_unpack_so j "name" with
  | inl arr => table_room b (zlen (json_array_elems arr)) srv ∧
      ∀ v name, v ∈ json_array_elems arr → json_string_value v = Some name → short 57 name
  | inr text => short 61 text
  end →
  wp (dime_client_leave strerror o cid j) srv
    (regrouped (λ ns, leaves ns cid) (leave_blocked cid) cid j srv boxes).
Proof.
  intros Hs Hg Hgl Hv Hcid Hok. unfold dime_client_leave.
  apply (wp_regroup b (λ o v, leave_one o cid v) _ _ 57); try done.
  - intros srv0 n x. set_solver.
  - intros n ns srv1 srv2 srv3 H1 H2 n' x. rewrite (H2 n' x), (H1 n' x). set_solver.
  - intros T ns srv1 srv2 srv3 H1 Hq n x. by rewrite (quiet_member _ _ _ _ _ Hq).
  - intros qs o' v srv' ????. by apply wp_leave_one.
Qed.
End groups.
