(* ===== verification/ClientHello.v ===== *)
(** * [handshake] and [devices]

    The handshake settles the serialization all clients use; when a second
    one comes up, every other client is told to change to dimeb. [devices]
    lists the groups that have members. *)

From S2P Require Import Prelude Deque Ringbuffer Json Socket SocketSpec Table TableSpec TableMap.
From S2P Require Import Hash State Client Invariant ClientSpec ClientPush ClientDeliver Inbox.
From S2P Require Import ClientSend ClientQueue ClientGroups.
From Stdlib Require String.

Section hello.
Context `{Jansson} {limit : Z} `{!JanssonLaws limit}.
Variable strerror : string.
Implicit Types (o : oracle) (cid gid mid : Z) (srv : dime_server).
Notation generous := (ClientPush.generous (limit:=limit)).

(** ** Telling other clients *)

(** Some clients have room for a header. *)
Definition rooms (xs : list Z) srv : Prop :=
  ∀ x c, x ∈ xs → sv_clients srv !! x = Some c → has_room (limit:=limit) c.

Definition anyone : Z → Prop := λ _, True.

Lemma quiet_anyone T srv srv' : quiet T srv srv' → quiet anyone srv srv'.
Proof. by apply quiet_weaken. Qed.

Lemma ready_other srv cid x :
  ready srv cid → is_Some (sv_clients srv !! x) → ready srv x.
Proof. by intros [_ ?]. Qed.

Lemma wp_tell_all cid (m : list Z) others : ∀ o srv,
  oracle_sane o → ready srv cid → zlen m ≤ MAXOBJ → NoDup others →
  (∀ x, x ∈ others → is_Some (sv_clients srv !! x)) →
  wp (for_each o (λ o other,
        if other =? cid then mret None
        else rc ← push_text o other m []; mret (if rc <? 0 then Some (-1) else None)) others) srv
    (λ r srv', quiet anyone srv srv' ∧ (r = None ∨ r = Some (-1)) ∧
      (∀ x, x ∉ others ∨ x = cid → sv_clients srv' !! x = sv_clients srv !! x) ∧
      (r = None → grants o limit → ∀ x, x ∈ others → x ≠ cid → told (limit:=limit) (m, []) x srv srv') ∧
      (grants o limit → rooms others srv → r = None)).
Proof.
  induction others as [|y others IH]; intros o srv Hs Hr Hm Hnd Hlive.
  { apply wp_ret. split_and!; [apply quiet_refl|by left|done|set_solver|done]. }
  apply NoDup_cons in Hnd as [Hy Hnd]. cbn [for_each]. apply wp_bind.
  destruct (Z.eqb_spec y cid) as [->|Hne].
  { apply wp_ret. eapply wp_mono; [apply (IH (sub o 1)); eauto with oracle|].
    - intros x Hx. apply Hlive. by right.
    - intros r srv' (Hq & Hrr & Hsame & Htold & Hall). split_and!; [done|done| | |].
      + intros x [Hx| ->]; apply Hsame; [left; set_solver|by right].
      + intros -> Hg x [->|Hx]%elem_of_cons Hne; [done|].
        by apply Htold; [|apply grants_sub|..].
      + intros Hg Hrooms. apply Hall; [by apply grants_sub|]. intros x c Hx. apply Hrooms. by right. }
  apply wp_bind. assert (ready srv y) as Hry.
  { eapply ready_other; [done|]. apply Hlive. by left. }
  eapply wp_mono.
  { apply wp_conj; [by apply (wp_push_text (limit:=limit) (sub o 0) y m []); eauto with oracle|].
    apply (wp_forall _ _ (λ '(ws, rb, wb, wsb) rc srv1,
      push_fits (limit:=limit) (sub o 0) srv y ws rb wb wsb (m, []) →
      buffers srv1 y ws rb (wb ++ wire ws (m, [])) wsb)).
    intros [[[ws rb] wb] wsb].
    eapply wp_mono; [by apply (wp_push_text_both (limit:=limit) (sub o 0) y m [] srv ws rb wb wsb);
      eauto with oracle|]. by intros rc srv1 [_ Hfit] [_ ?]%Hfit. }
  intros rc srv1 [[Hq Hroom] Hfit]. destruct (Z.ltb_spec rc 0).
  { apply wp_ret. apply wp_ret. split_and!; [by eapply quiet_anyone|by right| |done|].
    - intros x [Hx| ->]; apply (qu_other _ _ _ Hq); unfold at_client; set_solver.
    - intros Hg Hrooms. destruct (Hlive y) as [cy Hcy]; [by left|].
      specialize (Hroom cy Hcy (Hrooms y cy ltac:(by left) Hcy) (grants_sub _ _ _ Hg)). lia. }
  apply wp_ret. eapply wp_mono; [apply (IH (sub o 1) srv1); eauto with oracle|].
  - by eapply quiet_ready.
  - intros x Hx. destruct (Hlive x) as [cx Hcx]; [by right|].
    destruct (quiet_client _ _ _ _ _ Hq Hcx) as [? ->]. eauto.
  - intros r srv2 (Hq2 & Hrr & Hsame & Htold & Hall). split_and!; [|done| | |].
    + eapply quiet_trans; [by eapply quiet_anyone|done].
    + intros x Hx. rewrite Hsame by set_solver. apply (qu_other _ _ _ Hq).
      unfold at_client. set_solver.
    + intros -> Hg x [->|Hx]%elem_of_cons Hnx ws' rb' wb' wsb' Hbuf Hlim.
      * apply (buffers_same srv1); [apply Hsame; by left|].
        apply (Hfit (ws', rb', wb', wsb')). split; [by apply grants_sub|by split].
      * apply (Htold eq_refl (grants_sub _ _ _ Hg) x Hx Hnx); [|done].
        apply (buffers_same srv); [|done]. apply (qu_other _ _ _ Hq). unfold at_client.
        intros ->. done.
    + intros Hg Hrooms. apply Hall; [by apply grants_sub|]. intros x c Hx Hc.
      rewrite (qu_other _ _ _ Hq) in Hc by (unfold at_client; intros ->; done).
      apply (Hrooms x); [by right|done].
Qed.

(** ** [handshake] *)

(** A second serialization comes up and the first is not understood by
    all. *)
Definition clash (cur i : dime_serialization) : bool :=
  bool_decide (cur ≠ DIME_NO_SERIALIZATION) && bool_decide (cur ≠ i) &&
  bool_decide (cur ≠ DIME_DIMEB) && bool_decide (cur ≠ DIME_JSON).

Definition negotiated (cur i : dime_serialization) : dime_serialization :=
  if decide (cur = DIME_NO_SERIALIZATION) then i else if clash cur i then DIME_DIMEB else cur.

(** The others are told of the change. *)
Definition others_told cid srv srv' : Prop :=
  ∃ al al' meta text, json_pack al args_meta = Some meta ∧ json_dumps al' meta = Some text ∧
    ∀ x, is_Some (sv_clients srv !! x) → x ≠ cid → told (limit:=limit) (text, []) x srv srv'.

(** There is memory to tell all clients of the change. *)
Record can_tell srv : Prop := {
  ct_pack al : generous al → is_Some (json_pack al args_meta);
  ct_dumps al al' meta : generous al → json_pack al' args_meta = Some meta →
    is_Some (json_dumps al meta);
  ct_rooms x c : sv_clients srv !! x = Some c → has_room (limit:=limit) c;
}.

Lemma quiet_set_serialization srv s : quiet anyone srv (sv_set_serialization srv s).
Proof. split; eauto. Qed.

Lemma wp_negotiate o cid i srv qs :
  oracle_sane o → server_inv None srv qs → is_Some (sv_clients srv !! cid) →
  wp (negotiate o cid i) srv (λ r srv', quiet anyone srv srv' ∧
    sv_clients srv' !! cid = sv_clients srv !! cid ∧
    match r with
    | None => sv_serialization srv' = negotiated (sv_serialization srv) i ∧
        (clash (sv_serialization srv) i = true → grants o limit → others_told cid srv srv')
    | Some rc => rc = -1
    end ∧
    (grants o limit → (clash (sv_serialization srv) i = true → can_tell srv) → r = None)).
Proof.
  intros Hs Hinv Hcid. unfold negotiate, negotiated, clash. wp_step.
  destruct (decide (sv_serialization srv = DIME_NO_SERIALIZATION)) as [Hno|Hno].
  { apply wp_bind, wp_modify, wp_ret. split_and!; [apply quiet_set_serialization|done|done| |done].
    rewrite bool_decide_eq_false_2 by tauto. done. }
  rewrite (bool_decide_eq_true_2 (_ ≠ DIME_NO_SERIALIZATION)) by done.
  destruct (decide (sv_serialization srv ≠ i ∧ sv_serialization srv ≠ DIME_DIMEB ∧
    sv_serialization srv ≠ DIME_JSON)) as [(H1 & H2 & H3)|Hcl].
  2:{ apply wp_ret.
      assert (bool_decide (sv_serialization srv ≠ i) && bool_decide (sv_serialization srv ≠ DIME_DIMEB)
        && bool_decide (sv_serialization srv ≠ DIME_JSON) = false) as Hf.
      { apply not_true_iff_false. rewrite !andb_true_iff, !bool_decide_eq_true. tauto. }
      simpl. rewrite Hf. split_and!; [apply quiet_refl|done..]. }
  rewrite !bool_decide_eq_true_2 by done. simpl. unfold reregister.
  destruct (json_pack (at_ o 0) args_meta) as [meta|] eqn:Emeta;
    [|apply wp_ret; split_and!; [apply quiet_refl|done..|]].
  2:{ intros Hg Hcan. destruct (ct_pack _ (Hcan eq_refl) (at_ o 0)) as [? E]; [by apply grants_generous|congruence]. }
  destruct (json_dumps (at_ o 1) meta) as [text|] eqn:Etext;
    [|apply wp_ret; split_and!; [apply quiet_refl|done..|]].
  2:{ intros Hg Hcan. destruct (ct_dumps _ (Hcan eq_refl) (at_ o 1) (at_ o 0) meta) as [? E];
        [by apply grants_generous|done|congruence]. }
  wp_step. destruct (fds_vals _ _ _ Hinv) as (Hit & Hnd & Hin).
  apply wp_bind. unfold wp at 1. rewrite for_table_spec by done.
  eapply wp_mono; [apply (wp_tell_all cid text _ (sub o 2) srv)|].
  - eauto with oracle.
  - by eapply inv_ready.
  - eapply dumps_fit; [|done]. eauto with oracle.
  - done.
  - intros x. by rewrite Hin.
  - intros r srv1 (Hq & [->| ->] & Hsame & Htold & Hall).
    + apply wp_bind, wp_modify, wp_ret. split_and!; [|by apply Hsame; right|done| |done].
      * eapply quiet_trans; [done|apply quiet_set_serialization].
      * intros _ Hg. exists (at_ o 0), (at_ o 1), meta, text. split_and!; [done..|].
        intros x Hx Hne. apply (Htold eq_refl (grants_sub _ _ _ Hg) x); [by apply Hin|done].
    + apply wp_ret. split_and!; [done|by apply Hsame; right|done|]. intros Hg Hcan.
      assert (Some (-1 : Z) = None) as [=]. apply Hall; [by apply grants_sub|].
      intros x c _. apply (ct_rooms _ (Hcan eq_refl)).
Qed.

(** What a [handshake] that answers 0 does. *)
Definition shaken cid j srv srv' : Prop :=
  ∃ s tls i, json_unpack_sssb j "serialization" "tls" = inl (s, tls) ∧
    serialization_of s = Some i ∧
    let ser := negotiated (sv_serialization srv) i in
    sv_serialization srv' = ser ∧
    ∃ al al' resp text, json_pack al [("status"%string, PackInt 0);
        ("serialization"%string, PackStr (serialization_name ser s));
        ("tls"%string, PackBool false)] = Some resp ∧ json_dumps al' resp = Some text ∧
      told (limit:=limit) (text, []) cid srv srv'.

(** The client asks for a serialization there is, and there is memory for the
    response and, at a clash, for telling the others. *)
Definition can_shake cid j srv : Prop :=
  ∃ s tls i, json_unpack_sssb j "serialization" "tls" = inl (s, tls) ∧
    serialization_of s = Some i ∧
    (clash (sv_serialization srv) i = true → can_tell srv) ∧
    let args := [("status"%string, PackInt 0);
        ("serialization"%string, PackStr (serialization_name (negotiated (sv_serialization srv) i) s));
        ("tls"%string, PackBool false)] in
    (∀ al, generous al → is_Some (json_pack al args)) ∧
    (∀ al al' resp, generous al → json_pack al' args = Some resp → is_Some (json_dumps al resp)) ∧
    ∀ c, sv_clients srv !! cid = Some c → has_room (limit:=limit) c.

Lemma push_json_serialization o cid j srv :
  wp (push_json o cid j) srv (λ _ srv', True) →
  wp (push_json o cid j) srv (λ _ srv', sv_serialization srv' = sv_serialization srv).
Proof.
  unfold wp, push_json, mbind, M_bind, get_client, deref, lift.
  destruct (sv_clients srv !! cid); [|done]. destruct (dime_socket_push _ _ _ _) as [[rc s]| |]; done.
Qed.

(** What a [handshake] comes to. *)
Definition shakes o cid j srv boxes (rc : Z) srv' : Prop :=
  (rc = 0 ∨ rc = -1) ∧ keeps srv srv' ∧ server_view srv' boxes ∧
  (rc = 0 → grants o limit → shaken cid j srv srv' ∧
     ∀ s tls i, json_unpack_sssb j "serialization" "tls" = inl (s, tls) →
       serialization_of s = Some i → clash (sv_serialization srv) i = true →
       others_told cid srv srv') ∧
  (grants o limit → can_shake cid j srv → rc = 0).

Lemma shakes_failed T o cid j srv boxes srv' :
  quiet T srv srv' → server_view srv boxes → ¬ (grants o limit ∧ can_shake cid j srv) →
  shakes o cid j srv boxes (-1) srv'.
Proof.
  intros Hq Hv Hnot. split; [by right|]. split; [by eapply quiet_keeps|].
  split; [by eapply quiet_view|]. split; [done|]. intros Hg Hc. by destruct Hnot.
Qed.

(** The last response. *)
Lemma wp_shake_last o cid j srv srv1 boxes s tls i resp :
  oracle_sane o → server_view srv boxes → is_Some (sv_clients srv !! cid) →
  json_unpack_sssb j "serialization" "tls" = inl (s, tls) → serialization_of s = Some i →
  quiet anyone srv srv1 → sv_clients srv1 !! cid = sv_clients srv !! cid →
  sv_serialization srv1 = negotiated (sv_serialization srv) i →
  (clash (sv_serialization srv) i = true → grants o limit → others_told cid srv srv1) →
  json_pack (at_ o 2) [("status"%string, PackInt 0);
    ("serialization"%string, PackStr (serialization_name (sv_serialization srv1) s));
    ("tls"%string, PackBool false)] = Some resp →
  wp (push_json (sub o 3) cid resp) srv1 (λ rc srv2,
    if rc <? 0 then shakes o cid j srv boxes (-1) srv2 else shakes o cid j srv boxes 0 srv2).
Proof.
  intros Hs Hv Hcid Ej Es Hq1 Hsame Hser Hothers Eresp. pose proof Hv as (qs & Hinv & _).
  assert (ready srv1 cid) as Hready by by eapply quiet_ready, inv_ready.
  eapply wp_mono.
  { apply wp_conj; [apply (wp_push_json_told (limit:=limit) (sub o 3)); eauto with oracle|].
    apply wp_conj; [apply (wp_push_json (limit:=limit) (sub o 3)); eauto with oracle|].
    apply push_json_serialization. eapply wp_mono; [apply (wp_push_json_told (limit:=limit) (sub o 3));
      eauto with oracle|done]. }
  intros rc srv2 [[Hq2 Hresp] [[_ Hpush] Hser2]].
  assert (quiet anyone srv srv2) as Hq by (eapply quiet_trans; [done|by eapply quiet_anyone]).
  destruct (Z.ltb_spec rc 0).
  { eapply shakes_failed; [done..|]. intros [Hg (s' & tls' & i' & E & E' & _ & _ & Hdumps & Hroom)].
    rewrite Ej in E. simplify_eq. rewrite Hser in Eresp. destruct Hcid as [c Hc].
    enough (0 ≤ rc) by lia. apply (Hpush c); [by rewrite Hsame|by apply Hroom|by apply grants_sub|].
    eapply Hdumps; [apply grants_generous, grants_sub, Hg|exact Eresp]. }
  split; [by left|]. split; [by eapply quiet_keeps|]. split; [by eapply quiet_view|]. split; [|done].
  intros _ Hg. split.
  - destruct Hresp as (text & Ht & Htold); [done|].
    exists s, tls, i. split; [done|]. split; [done|]. cbv zeta. split; [congruence|].
    exists (at_ o 2), (at_ (sub o 3) 0), resp, text. rewrite <-Hser. split_and!; [done..|].
    eapply told_after; [done|]. by apply Htold, grants_sub.
  - intros s' tls' i' E Hi Hcl. rewrite Ej in E. simplify_eq.
    destruct (Hothers Hcl Hg) as (al & al' & meta & text & ? & ? & Htold).
    exists al, al', meta, text. split_and!; [done..|]. intros x Hx Hne.
    eapply told_before; [|by apply Htold]. by apply (qu_other _ _ _ Hq2).
Qed.

Lemma wp_handshake o env cid j srv boxes :
  oracle_sane o → server_view srv boxes → is_Some (sv_clients srv !! cid) →
  match json_unpack_sssb j "serialization" "tls" with inl _ => True | inr text => short 61 text end →
  wp (dime_client_handshake o env cid j) srv (shakes o cid j srv boxes).
Proof.
  intros Hs Hv Hcid Hshort. pose proof Hv as (qs & Hinv & _). unfold dime_client_handshake.
  destruct (json_unpack_sssb j "serialization" "tls") as [[s tls]|text] eqn:Ej.
  2:{ eapply wp_mono; [apply (wp_fail_text2 (sub o 0)); eauto with oracle|].
      - by eapply inv_ready.
      - unfold short in Hshort. simpl. lia.
      - intros rc srv' [-> Hq]. eapply shakes_failed; [done..|].
        intros [_ (s & tls & i & E & _)]. congruence. }
  destruct (serialization_of s) as [i|] eqn:Es.
  2:{ eapply wp_ret, shakes_failed; [by apply (quiet_refl anyone)|done|].
      intros [_ (s' & tls' & i' & E & E' & _)]. congruence. }
  apply wp_bind. eapply wp_mono; [apply (wp_negotiate (sub o 1) cid i srv qs); eauto with oracle|].
  intros r srv1 (Hq1 & Hsame & Hr & Hall). destruct r as [rc|].
  { subst rc. eapply wp_ret, shakes_failed; [done..|].
    intros [Hg (s' & tls' & i' & E & E' & Hcl & _)]. rewrite Ej in E. simplify_eq.
    by discriminate (Hall (grants_sub _ _ _ Hg) Hcl). }
  destruct Hr as [Hser Hothers]. wp_step. wp_step.
  assert (sv_tlsctx srv1 = false) as Htls.
  { rewrite (qu_tlsctx _ _ _ Hq1). apply (vi_tlsctx _ _ _ Hinv). }
  rewrite Htls, andb_false_r.
  destruct (json_pack (at_ o 2) _) as [resp|] eqn:Eresp.
  2:{ eapply wp_ret, shakes_failed; [done..|].
      intros [Hg (s' & tls' & i' & E & E' & _ & Hpack & _)]. rewrite Ej in E. simplify_eq.
      rewrite Hser in Eresp. destruct (Hpack (at_ o 2) (grants_generous _ _ Hg)). congruence. }
  apply wp_bind. eapply wp_mono; [apply (wp_shake_last o cid j srv srv1 boxes s tls i resp); try done|].
  { intros Hcl Hg. by apply Hothers, grants_sub. }
  intros rc srv2. cbv beta. destruct (rc <? 0); intros Hsh; by apply wp_ret.
Qed.

(** ** [devices] *)

(** A JSON array of strings, built as the program builds it. *)
Inductive array_of : list string → json → Prop :=
  | array_nil al a : json_array al = Some a → array_of [] a
  | array_snoc al al' ns n a s a' : array_of ns a → json_string al n = Some s →
      json_array_append_new al' a s = Some a' → array_of (ns ++ [n]) a'.

(** The names of the groups that have members. *)
Definition listed srv (gids : list Z) : list string :=
  omap (λ gid, g ← sv_groups srv !! gid;
    match gr_clnts g with [] => None | _ => Some (gr_name g) end) gids.

Lemma listed_cons srv gid gids g :
  sv_groups srv !! gid = Some g →
  listed srv (gid :: gids)
  = match gr_clnts g with [] => listed srv gids | _ => gr_name g :: listed srv gids end.
Proof. intros Hg. unfold listed. simpl. rewrite Hg. simpl. by destruct (gr_clnts g). Qed.

Lemma elem_of_listed srv gids n :
  n ∈ listed srv gids ↔ ∃ gid g, gid ∈ gids ∧ sv_groups srv !! gid = Some g ∧
    gr_clnts g ≠ [] ∧ gr_name g = n.
Proof.
  unfold listed. rewrite list_elem_of_omap. split.
  - intros (gid & Hin & Hg). destruct (sv_groups srv !! gid) as [g|] eqn:E; [|done].
    simpl in Hg. exists gid, g. by destruct (gr_clnts g); simplify_eq.
  - intros (gid & g & Hin & Hg & Hne & <-). exists gid. split; [done|]. rewrite Hg. simpl.
    by destruct (gr_clnts g).
Qed.

Lemma NoDup_listed busy srv qs gids :
  server_inv busy srv qs → NoDup gids → NoDup (listed srv gids).
Proof.
  intros Hinv. induction 1 as [|gid gids Hnin Hnd IH]; [constructor|].
  destruct (sv_groups srv !! gid) as [g|] eqn:Hg.
  - rewrite (listed_cons _ _ _ _ Hg). destruct (gr_clnts g); [done|]. constructor; [|done].
    rewrite elem_of_listed. intros (gid' & g' & Hin & Hg' & _ & Heq).
    by rewrite (group_name_inj _ _ _ _ _ _ _ Hinv Hg' Hg Heq) in Hin.
  - unfold listed. simpl. by rewrite Hg.
Qed.

(** There is memory for the names of the groups. *)
Definition can_name srv : Prop :=
  ∀ gid g, sv_groups srv !! gid = Some g → ∀ al, generous al → is_Some (json_string al (gr_name g)).

(** The names of all groups with a member, each once. *)
Definition all_names srv (ns : list string) : Prop :=
  NoDup ns ∧ ∀ n, n ∈ ns ↔ ∃ x, member srv n x.

(** There is memory for one more name in an array that has not the names of all
    groups, and for an object around the whole array. *)
Record can_append srv : Prop := {
  ap_extend al al' ns arr gid g s : generous al → array_of ns arr →
    zlen ns < Z.of_nat (size (sv_groups srv)) → sv_groups srv !! gid = Some g →
    json_string al' (gr_name g) = Some s → is_Some (json_array_append_new al arr s);
  ap_pack al arr ns : generous al → all_names srv ns → array_of ns arr →
    is_Some (json_pack al [("status"%string, PackInt 0); ("devices"%string, PackObj arr)]);
}.

(** No reference is dropped twice: there is that memory, or it is known that
    the computation is defined. *)
Definition defined {A} (m : M A) o srv : Prop :=
  grants o limit ∧ can_append srv ∨ m srv ≠ Undef.

Lemma wp_devices_loop cid gids : ∀ o srv ns arr,
  oracle_sane o → ready srv cid → (∀ gid, gid ∈ gids → is_Some (sv_groups srv !! gid)) →
  array_of ns arr → zlen ns + zlen gids ≤ Z.of_nat (size (sv_groups srv)) →
  defined (devices_loop strerror o cid gids arr) o srv →
  wp (devices_loop strerror o cid gids arr) srv (λ r srv',
    match r with
    | inl arr' => srv' = srv ∧ array_of (ns ++ listed srv gids) arr'
    | inr rc => rc = -1 ∧ quiet (at_client cid) srv srv' ∧ ¬ (grants o limit ∧ can_name srv)
    end).
Proof.
  induction gids as [|gid gids IH]; intros o srv ns arr Hs Hr Hlive Harr Hfew Hdef.
  { apply wp_ret. split; [done|]. unfold listed. simpl. by rewrite app_nil_r. }
  destruct (Hlive gid) as [g Hg]; [by left|]. rewrite zlen_cons in Hfew.
  unfold defined in Hdef. cbn [devices_loop] in *. unfold mbind at 1, M_bind, get_group, deref in Hdef.
  rewrite Hg in Hdef. wp_step. rewrite (listed_cons _ _ _ _ Hg).
  assert (∀ gid', gid' ∈ gids → is_Some (sv_groups srv !! gid')) as Hlive'.
  { intros gid' Hin. apply Hlive. by right. }
  assert (∀ ns' arr', array_of ns' arr' → zlen ns' + zlen gids ≤ Z.of_nat (size (sv_groups srv)) →
    grants o limit ∧ can_append srv ∨ devices_loop strerror (sub o 0) cid gids arr' srv ≠ Undef →
    wp (devices_loop strerror (sub o 0) cid gids arr') srv (λ r srv',
      match r with
      | inl arr'' => srv' = srv ∧ array_of (ns' ++ listed srv gids) arr''
      | inr rc => rc = -1 ∧ quiet (at_client cid) srv srv' ∧ ¬ (grants o limit ∧ can_name srv)
      end)) as Hnext.
  { intros ns' arr' Harr' Hfew' Hdef'.
    eapply wp_mono; [apply (IH (sub o 0) srv ns' arr'); eauto with oracle|].
    - destruct Hdef' as [[Hgr ?]|?]; [left; split; [by apply grants_sub|done]|by right].
    - intros [?|rc] srv' Hr'; [done|]. destruct Hr' as (? & ? & Hnot). split_and!; [done..|].
      intros [? ?]. apply Hnot. split; [by apply grants_sub|done]. }
  destruct (gr_clnts g) eqn:Emem; [by apply Hnext; [|lia|]|].
  destruct (json_string (at_ o 1) (gr_name g)) as [s|] eqn:Es.
  2:{ apply wp_bind.
      eapply wp_mono; [apply (wp_fail_errno (limit:=limit) strerror (sub o 2)); eauto with oracle|].
      intros rc srv' [-> Hq]. apply wp_ret. split_and!; [done..|]. intros [Hgr Hcan].
      destruct (Hcan _ _ Hg (at_ o 1) (grants_generous _ _ Hgr)). congruence. }
  destruct (json_array_append_new (at_ o 3) arr s) as [arr'|] eqn:Ea.
  2:{ destruct Hdef as [[Hgr Hcan]|Hdef]; [|done]. pose proof (zlen_nonneg gids).
      destruct (ap_extend _ Hcan (at_ o 3) (at_ o 1) ns arr gid g s (grants_generous _ _ Hgr) Harr
        ltac:(lia) Hg Es). congruence. }
  replace (ns ++ gr_name g :: listed srv gids) with ((ns ++ [gr_name g]) ++ listed srv gids)
    by by rewrite <-app_assoc.
  apply Hnext; [by eapply array_snoc| |done]. rewrite zlen_app, zlen_cons, zlen_nil. lia.
Qed.

Lemma names_vals busy srv qs :
  server_inv busy srv qs → iterable (sv_name2clnt srv) ∧
    NoDup (kvs (tb_arr (sv_name2clnt srv))).*2 ∧
    ∀ x, x ∈ (kvs (tb_arr (sv_name2clnt srv))).*2 ↔ is_Some (sv_groups srv !! x).
Proof.
  intros Hinv. destruct (vi_names _ _ _ Hinv) as (nm & Htbl & Hnm).
  split; [by eapply inv_iterable|]. destruct (kvs_vals _ _ _ Htbl) as [Hnd Hin].
  { intros k k' v ?%Hnm ?%Hnm. congruence. }
  split; [done|]. intros x. rewrite Hin. split.
  - intros [n Hn%Hnm]. rewrite lookup_fmap in Hn. by destruct (sv_groups srv !! x).
  - intros [g Hg]. exists (gr_name g). apply Hnm. by rewrite lookup_fmap, Hg.
Qed.

Lemma foldo_snoc {A B} (f : A → B) (l : list A) : ∀ acc,
  foldo (λ x l, Ret (l ++ [f x])) l acc = Ret (acc ++ (f <$> l)).
Proof.
  induction l as [|x l IH]; intros acc; [by rewrite app_nil_r|]. cbn [foldo mbind outcome_bind].
  rewrite IH. by rewrite <-app_assoc.
Qed.

Lemma all_listed srv qs gids :
  server_inv None srv qs → NoDup gids → (∀ x, x ∈ gids ↔ is_Some (sv_groups srv !! x)) →
  all_names srv (listed srv gids).
Proof.
  intros Hinv Hnd Hin. split; [by eapply NoDup_listed|]. intros n. rewrite elem_of_listed. split.
  - intros (gid & g & _ & Hgg & Hne & Hn). destruct (gr_clnts g) as [|x l] eqn:El; [done|].
    exists x, gid, g. rewrite El. split_and!; [done..|by left].
  - intros (x & gid & g & Hgg & Hn & Hx). exists gid, g. split_and!; [apply Hin; eauto|done| |done].
    intros Hnil. rewrite Hnil in Hx. by apply not_elem_of_nil in Hx.
Qed.

(** What a [devices] that answers 0 does. *)
Definition devices_listed cid srv srv' : Prop :=
  ∃ ns arr al resp al' text, all_names srv ns ∧
    array_of ns arr ∧
    json_pack al [("status"%string, PackInt 0); ("devices"%string, PackObj arr)] = Some resp ∧
    json_dumps al' resp = Some text ∧ told (limit:=limit) (text, []) cid srv srv'.

(** There is memory for the list and for the response, and room for its
    header. *)
Record can_list cid srv : Prop := {
  cl_array al : generous al → is_Some (json_array al);
  cl_name : can_name srv;
  cl_append : can_append srv;
  cl_dumps al al' arr ns resp : generous al → all_names srv ns → array_of ns arr →
    json_pack al' [("status"%string, PackInt 0); ("devices"%string, PackObj arr)] = Some resp →
    is_Some (json_dumps al resp);
  cl_room c : sv_clients srv !! cid = Some c → has_room (limit:=limit) c;
}.

(** What a [devices] comes to. *)
Definition lists o cid srv boxes (rc : Z) srv' : Prop :=
  (rc = 0 ∨ rc = -1) ∧ keeps srv srv' ∧ server_view srv' boxes ∧
  (rc = 0 → grants o limit → devices_listed cid srv srv') ∧
  (grants o limit → can_list cid srv → rc = 0).

Lemma lists_failed o cid srv boxes srv' :
  server_view srv boxes → quiet (at_client cid) srv srv' →
  ¬ (grants o limit ∧ can_list cid srv) → lists o cid srv boxes (-1) srv'.
Proof.
  intros Hv Hq Hnot. split; [by right|]. split; [by eapply quiet_keeps|].
  split; [by eapply quiet_view|]. split; [done|]. intros Hg Hc. by destruct Hnot.
Qed.

Lemma wp_lists_failed o n cid srv boxes srv' :
  oracle_sane o → server_view srv boxes → ready srv cid → quiet (at_client cid) srv srv' →
  ¬ (grants o limit ∧ can_list cid srv) →
  wp (fail_errno strerror (sub o n) cid) srv' (lists o cid srv boxes).
Proof.
  intros Hs Hv Hr Hq Hnot.
  eapply wp_mono; [apply (wp_fail_errno (limit:=limit) strerror (sub o n)); eauto with oracle|].
  - by eapply quiet_ready.
  - intros rc srv'' [-> Hq']. apply lists_failed; [done| |done]. by eapply quiet_trans.
Qed.

(** There are as many groups as the table has values. *)
Lemma groups_size srv (gids : list Z) :
  NoDup gids → (∀ x, x ∈ gids ↔ is_Some (sv_groups srv !! x)) →
  zlen gids = Z.of_nat (size (sv_groups srv)).
Proof.
  intros Hnd Hin. unfold zlen. rewrite <-size_dom, <-(size_list_to_set (C:=gset Z) gids) by done.
  do 2 f_equal. apply set_eq. intros x. by rewrite elem_of_list_to_set, elem_of_dom.
Qed.

Lemma wp_devices o cid srv boxes :
  oracle_sane o → server_view srv boxes → is_Some (sv_clients srv !! cid) →
  defined (dime_client_devices strerror o cid) o srv →
  wp (dime_client_devices strerror o cid) srv (lists o cid srv boxes).
Proof.
  intros Hs Hv Hcid Hdef. pose proof Hv as (qs & Hinv & _).
  unfold defined, dime_client_devices in *.
  assert (ready srv cid) as Hready by by eapply inv_ready.
  destruct (json_array (at_ o 0)) as [arr|] eqn:Earr.
  2:{ apply wp_lists_failed; [done..|apply quiet_refl|]. intros [Hg Hcan].
      destruct (cl_array _ _ Hcan (at_ o 0) (grants_generous _ _ Hg)). congruence. }
  wp_step. destruct (names_vals _ _ _ Hinv) as (Hit & Hnd & Hin).
  set (gids := (kvs (tb_arr (sv_name2clnt srv))).*2) in *.
  pose proof (all_listed _ _ _ Hinv Hnd Hin) as Hnames.
  assert (table_vals (sv_name2clnt srv) srv = Ret (gids, srv)) as Hvals.
  { unfold table_vals, lift. rewrite table_foreach_spec by done. by rewrite (foldo_snoc snd). }
  apply wp_bind. unfold wp at 1. rewrite Hvals. cbn [returns].
  set (k r := match r with inr rc => mret rc | inl arr => _ end) in Hdef.
  assert (∀ m, (grants o limit ∧ can_append srv ∨
    (name2clnt ← gets sv_name2clnt; gids ← table_vals name2clnt; r ← m gids; k r) srv ≠ Undef) →
    grants o limit ∧ can_append srv ∨ (r ← m gids; k r) srv ≠ Undef) as Hstart.
  { intros m [?|Hm]; [by left|right]. revert Hm. unfold mbind, M_bind, gets. by rewrite Hvals. }
  apply Hstart in Hdef. clear Hstart.
  assert (defined (devices_loop strerror (sub o 2) cid gids arr) (sub o 2) srv) as Hdl.
  { destruct Hdef as [[Hg ?]|Hdef]; [left; split; [by apply grants_sub|done]|right].
    intros Hu. apply Hdef. unfold mbind, M_bind. by rewrite Hu. }
  pose proof (wp_devices_loop cid gids (sub o 2) srv [] arr) as Hloop.
  apply returns_eq in Hloop as ([r srv1] & Hrun & Hloop); [|eauto with oracle|done| |by econstructor|
    |done]; [|by intros gid; apply Hin|by rewrite (groups_size srv gids) by done].
  apply wp_bind. unfold wp at 1. rewrite Hrun. cbn [returns].
  destruct r as [arr'|rc].
  2:{ destruct Hloop as (-> & Hq & Hnot). apply wp_ret, lists_failed; [done..|]. intros [Hg Hcan].
      apply Hnot. split; [by apply grants_sub|apply (cl_name _ _ Hcan)]. }
  destruct Hloop as [-> Harr]. destruct (json_pack (at_ o 3) _) as [resp|] eqn:Eresp.
  2:{ destruct Hdef as [[Hg Hcan]|Hdef].
      - destruct (ap_pack _ Hcan (at_ o 3) arr' _ (grants_generous _ _ Hg) Hnames Harr). congruence.
      - destruct Hdef. unfold mbind, M_bind. rewrite Hrun. unfold k. by rewrite Eresp. }
  apply wp_bind. eapply wp_mono.
  { apply wp_conj; [apply (wp_push_json_told (limit:=limit) (sub o 5)); eauto with oracle|].
    apply (wp_push_json (limit:=limit) (sub o 5)); eauto with oracle. }
  intros rc srv2 [[Hq Hresp] [_ Hpush]]. destruct (Z.ltb_spec rc 0).
  { apply wp_lists_failed; [done..|]. intros [Hg Hcan]. destruct Hcid as [c Hc].
    enough (0 ≤ rc) by lia.
    apply (Hpush c); [done|by apply (cl_room _ _ Hcan)|by apply grants_sub|].
    eapply (cl_dumps _ _ Hcan); [apply grants_generous, grants_sub, Hg|exact Hnames|exact Harr|exact Eresp]. }
  apply wp_ret. split_and!; [by left|by eapply quiet_keeps|by eapply quiet_view| |done].
  intros _ Hg. destruct Hresp as (text & Ht & Htold); [done|].
  exists (listed srv gids), arr', (at_ o 3), resp, (at_ (sub o 5) 0), text. split_and!; try done.
  by apply Htold, grants_sub.
Qed.
End hello.
