(* ===== verification/Server.v ===== *)
(** * The server ([server/server.c])

    Start-up, the command dispatch, and the loop around [select]: what
    happens at one descriptor, one turn over all of them, and any number of
    turns. The system calls
    are an argument, [turn_env]. Which of the two builds of the file is meant
    makes no difference to the commands; the loop is that of the build
    without libev. *)

From S2P Require Import Prelude Deque Ringbuffer Json Socket Table Hash State Client WebSocket.
From Stdlib Require String.

Local Open Scope string_scope.
Local Open Scope Z_scope.

Inductive dime_protocol := DIME_UNIX | DIME_TCP | DIME_WS.

#[export] Instance dime_protocol_eq_dec : EqDecision dime_protocol.
Proof. solve_decision. Defined.

(** The tables of a new server; [srv] is a static variable, so that [tlsctx]
    is [NULL]. *)
Definition init_tables (o : oracle) : option dime_server :=
  let (rc, fd2clnt) := dime_table_init (at_ o 0) in
  if rc <? 0 then None
  else
    let (rc, name2clnt) := dime_table_init (at_ o 1) in
    if rc <? 0 then None
    else Some (Server ∅ ∅ ∅ 0 fd2clnt name2clnt DIME_NO_SERIALIZATION false).

(** The fields of [dime_server_t] that concern listening: the first
    [fds_len] elements of [fds] with its capacity, and the same of
    [pathnames]. *)
Record dime_listen := Listen {
  ls_fds : list (Z * dime_protocol);
  ls_fds_cap : Z;
  ls_pathnames : list (list Z);
  ls_pathnames_cap : Z;
}.

Definition sizeof_server_fd : Z := 16.

Inductive init_result :=
  | InitFailed
  | InitExit (srv : dime_server) (ls : dime_listen)
  | InitDone (srv : dime_server) (ls : dime_listen).

(** [fork] is what the system call of that name answers; the parent of a
    daemon exits. *)
Definition dime_server_init (o : oracle) (daemon : bool) (fork : Z) : init_result :=
  match init_tables o with
  | None => InitFailed
  | Some srv =>
      if at_ o 2 (8 * sizeof_server_fd) && at_ o 3 (8 * sizeof_ptr) then
        if daemon && (fork <? 0) then InitFailed
        else if daemon && negb (fork =? 0) then InitExit srv (Listen [] 8 [] 8)
        else InitDone srv (Listen [] 8 [] 8)
      else InitFailed
  end.

(** The state of the loop: the descriptors to read from and to write to. *)
Record loop_state := Loop {
  lp_rfds : gset Z;
  lp_wfds : gset Z;
  lp_maxfd : Z;
}.

(** An [fd_set] has this many bits; [FD_SET] does not check. *)
Definition FD_SETSIZE : Z := 1024.

Definition watch (fd : Z) (lp : loop_state) : outcome loop_state :=
  if (0 <=? fd) && (fd <? FD_SETSIZE) then
    Ret (Loop ({[fd]} ∪ lp_rfds lp) (lp_wfds lp) (Z.max (lp_maxfd lp) (fd + 1)))
  else Undef.

Definition unwatch (fd : Z) (lp : loop_state) : loop_state :=
  Loop (lp_rfds lp ∖ {[fd]}) (lp_wfds lp ∖ {[fd]}) (lp_maxfd lp).

(** The loop that listens and fills the read set; [None] if [listen]
    fails. *)
Fixpoint listen_all (listen : Z → bool) (fds : list (Z * dime_protocol)) (lp : loop_state)
    : outcome (option loop_state) :=
  match fds with
  | [] => Ret (Some lp)
  | (fd, _) :: fds =>
      lp ← watch fd lp;
      if listen fd then listen_all listen fds lp else Ret None
  end.

(** The answers of the system in one turn: what [select] reports, and, for
    each descriptor, the connection [accept] gives with its address family,
    the system calls of the WebSocket handshake and how many of them [recv]
    are, what [recv] delivers, how much [send] takes and the system calls of
    the TLS handshake for each of the commands. *)
Record turn_env := TurnEnv {
  tn_select : bool;
  tn_readable : gset Z;
  tn_writable : gset Z;
  tn_accept : Z → option (Z * address_family);
  tn_ws : Z → nat * ws_env;
  tn_recv : Z → option (list Z);
  tn_send : Z → list Z → Z;
  tn_tls : Z → nat → tls_env;
}.

Section server.
Context `{Jansson}.
Variable strerror : string.
Variables sha1 encode_block : list Z → list Z.
Variable sizeof_client : Z.

(** The listening sockets with their protocols: [srv->fds]. *)
Variable fds : list (Z * dime_protocol).

(** ** Commands *)

Definition dispatch (o : oracle) (env : tls_env) (cid : Z) (jsondata : json) (bindata : list Z)
    : M Z :=
  let cmd := match json_unpack_ss jsondata "command" with inl cmd => cmd | inr _ => "" end in
  if String.eqb cmd "handshake" then dime_client_handshake o env cid jsondata
  else if String.eqb cmd "join" then dime_client_join strerror o cid jsondata
  else if String.eqb cmd "leave" then dime_client_leave strerror o cid jsondata
  else if String.eqb cmd "send" then dime_client_send strerror o cid jsondata bindata
  else if String.eqb cmd "broadcast" then dime_client_broadcast strerror o cid jsondata bindata
  else if String.eqb cmd "sync" then dime_client_sync strerror o cid jsondata
  else if String.eqb cmd "wait" then dime_client_wait strerror o cid
  else if String.eqb cmd "devices" then dime_client_devices strerror o cid
  else fail_text o cid "Unknown command".

(** The loop over the messages that have arrived. It answers whether the
    server goes on; a message that cannot be read ends it. *)
Fixpoint serve_messages (fuel : nat) (o : oracle) (env : nat → tls_env) (cid : Z) : M bool :=
  match fuel with
  | O => lift Diverge
  | S fuel =>
      c ← get_client cid;
      '(n, m, s) ← lift (dime_socket_pop (sub o 0) (cl_sock c));
      put_client cid (cl_set_sock c s);;
      match m with
      | Some (jsondata, bindata) =>
          _ ← dispatch (sub o 1) (env O) cid jsondata bindata;
          serve_messages fuel (sub o 2) (λ k, env (S k)) cid
      | None => mret (negb (n <? 0))
      end
  end.

(** A message takes at least 12 bytes of the inbuffer, and what a WebSocket
    frame adds to it is less than what it takes from the other buffer. *)
Definition serve_fuel (s : dime_socket) : nat :=
  S (Z.to_nat (dime_ringbuffer_len (so_rbuf s)
       + if so_ws s then dime_ringbuffer_len (so_ws_rbuf s) else 0)).

(** ** Connections *)

Definition close_client (cid : Z) : M unit :=
  c ← get_client cid;
  fd2clnt ← gets sv_fd2clnt;
  '(_, fd2clnt) ← lift (dime_table_remove cmp_fd hash_fd fd2clnt (cl_fd c));
  modify (λ srv, sv_set_fd2clnt srv fd2clnt);;
  dime_client_destroy cid.

Definition find_client (fd : Z) : M (option Z) :=
  fd2clnt ← gets sv_fd2clnt;
  '(r, fd2clnt) ← lift (dime_table_search cmp_fd hash_fd fd2clnt fd);
  modify (λ srv, sv_set_fd2clnt srv fd2clnt);;
  mret r.

(** What both builds do with a descriptor [accept] gives: the new client, the
    WebSocket handshake and the entry in the table. [None]: there is no
    memory for the client; [Some None]: a client that does not complete the
    handshake is destroyed; else the client and what the table answers. *)
Definition connect_client (o : oracle) (fd : Z) (family : address_family) (ws : nat * ws_env)
    (protocol : dime_protocol) : M (option (option (Z * Z))) :=
  match dime_client_init (sub o 1) fd family with
  | None => mret None
  | Some c =>
      '(rc, s) ← (if decide (protocol = DIME_WS) then
                    '(rc, _, s) ← lift (dime_socket_init_ws sha1 encode_block ws.1 (sub o 2)
                                          ws.2 (cl_sock c));
                    mret (rc, s)
                  else mret (0, cl_sock c));
      if rc <? 0 then mret (Some None)
      else
        cid ← fresh;
        put_client cid (cl_set_sock c s);;
        fd2clnt ← gets sv_fd2clnt;
        '(rc, fd2clnt) ← lift (dime_table_insert cmp_fd hash_fd (at_ (sub o 3)) fd2clnt fd cid);
        modify (λ srv, sv_set_fd2clnt srv fd2clnt);;
        mret (Some (Some (cid, rc)))
  end.

(** A new connection: [None] if the server stops, else the descriptor to
    watch, if any. A client that cannot be put in the table is destroyed, but
    its descriptor is watched nevertheless; with a verbosity above 0 the
    message that follows reads its address after that. *)
Definition accept_client (o : oracle) (accepted : option (Z * address_family)) (ws : nat * ws_env)
    (protocol : dime_protocol) : M (option (option Z)) :=
  if at_ o 0 sizeof_client then
    match accepted with
    | None => mret (Some None)
    | Some (fd, family) =>
        r ← connect_client o fd family ws protocol;
        match r with
        | None => mret None
        | Some None => mret (Some None)
        | Some (Some (cid, rc)) =>
            (if rc <? 0 then dime_client_destroy cid else mret ());;
            mret (Some (Some fd))
        end
    end
  else mret None.

Inductive read_outcome := ReadOk | ReadClosed | ReadStop.

(** A readable connection. *)
Definition client_readable (o : oracle) (recv : option (list Z)) (env : nat → tls_env) (cid : Z)
    : M read_outcome :=
  c ← get_client cid;
  '(n, s) ← lift (dime_socket_recvpartial (sub o 0) (cl_sock c) recv);
  put_client cid (cl_set_sock c s);;
  if n <=? 0 then close_client cid;; mret ReadClosed
  else
    go ← serve_messages (serve_fuel s) (sub o 1) env cid;
    mret (if go : bool then ReadOk else ReadStop).

(** A writable connection: whether it stays open. *)
Definition client_writable (o : oracle) (send : list Z → Z) (cid : Z) : M bool :=
  c ← get_client cid;
  '(n, _, s) ← lift (dime_socket_sendpartial (at_ o 0) (cl_sock c) send);
  put_client cid (cl_set_sock c s);;
  if n <? 0 then close_client cid;; mret false else mret true.

(** ** One turn of the loop *)

(** The first half of the body for the descriptor [i]: the client to write
    to, if it is known, and whether to go on with the second half. [None]:
    the server stops. *)
Definition handle_readable (o : oracle) (env : turn_env) (i : Z) (lp : loop_state)
    : M (option (loop_state * option Z * bool)) :=
  r ← find_client i;
  match r with
  | None =>
      match find_index (λ f, f.1 =? i) fds with
      | None => mret (Some (lp, None, false))
      | Some j =>
          match fds !! j with
          | None => mret None
          | Some (_, protocol) =>
              r ← accept_client (sub o 0) (tn_accept env i) (tn_ws env i) protocol;
              match r with
              | None => mret None
              | Some None => mret (Some (lp, None, false))
              | Some (Some fd) => lp ← lift (watch fd lp); mret (Some (lp, None, true))
              end
          end
      end
  | Some cid =>
      c ← get_client cid;
      r ← client_readable (sub o 1) (tn_recv env i) (tn_tls env i) cid;
      match r with
      | ReadStop => mret None
      | ReadClosed => mret (Some (unwatch (cl_fd c) lp, None, false))
      | ReadOk => mret (Some (lp, Some cid, true))
      end
  end.

Definition handle_writable (o : oracle) (env : turn_env) (i : Z) (known : option Z)
    (lp : loop_state) : M loop_state :=
  r ← match known with Some cid => mret (Some cid) | None => find_client i end;
  match r with
  | None => mret lp
  | Some cid =>
      c ← get_client cid;
      open ← client_writable o (tn_send env i) cid;
      mret (if open : bool then lp else unwatch (cl_fd c) lp)
  end.

Definition handle_fd (o : oracle) (env : turn_env) (i : Z) (lp : loop_state)
    : M (option loop_state) :=
  r ← (if decide (i ∈ tn_readable env) then handle_readable (sub o 0) env i lp
       else mret (Some (lp, None, true)));
  match r with
  | None => mret None
  | Some (lp, known, go) =>
      if go && bool_decide (i ∈ tn_writable env) then
        lp ← handle_writable (sub o 1) env i known lp; mret (Some lp)
      else mret (Some lp)
  end.

(** [for (int i = 3; i < maxfd; i++)]; a descriptor that is watched since
    this turn is not readable or writable in it. *)
Fixpoint handle_fds (o : oracle) (env : turn_env) (il : list Z) (lp : loop_state)
    : M (option loop_state) :=
  match il with
  | [] => mret (Some lp)
  | i :: il =>
      r ← handle_fd (sub o 0) env i lp;
      match r with None => mret None | Some lp => handle_fds (sub o 1) env il lp end
  end.

(** The second loop: watch for room to write where there is something to
    send. *)
Definition update_wfd (i : Z) (lp : loop_state) : M loop_state :=
  if decide (i ∈ lp_rfds lp) then
    r ← find_client i;
    match r with
    | None => mret lp
    | Some cid =>
        c ← get_client cid;
        mret (Loop (lp_rfds lp)
                (if 0 <? dime_socket_sendlen (cl_sock c) then {[i]} ∪ lp_wfds lp
                 else lp_wfds lp ∖ {[i]}) (lp_maxfd lp))
    end
  else mret lp.

Fixpoint update_wfds (il : list Z) (lp : loop_state) : M loop_state :=
  match il with [] => mret lp | i :: il => lp ← update_wfd i lp; update_wfds il lp end.

Definition fd_range (maxfd : Z) : list Z := seqZ 3 (maxfd - 3).

Definition server_turn (o : oracle) (env : turn_env) (lp : loop_state) : M (option loop_state) :=
  if tn_select env then
    r ← handle_fds o env (fd_range (lp_maxfd lp)) lp;
    match r with
    | None => mret None
    | Some lp => lp ← update_wfds (fd_range (lp_maxfd lp)) lp; mret (Some lp)
    end
  else mret None.

(** Turn after turn, with what the system answers in each; [None] if the
    server has stopped. *)
Fixpoint server_turns (turns : list (oracle * turn_env)) (lp : loop_state)
    : M (option loop_state) :=
  match turns with
  | [] => mret (Some lp)
  | (o, env) :: turns =>
      r ← server_turn o env lp;
      match r with None => mret None | Some lp => server_turns turns lp end
  end.

Definition dime_server_loop (listen : Z → bool) (turns : list (oracle * turn_env))
    : M (option loop_state) :=
  r ← lift (listen_all listen fds (Loop ∅ ∅ (-1)));
  match r with None => mret None | Some lp => server_turns turns lp end.
End server.
