(* ===== verification/SocketLife.v ===== *)
(** * Sockets over their whole life

    Every socket the program can come to is well formed, and the switch to TLS
    sends what is left in the outbuffer first. *)

From S2P Require Import Prelude Ringbuffer Bytes Json Socket SocketSpec SocketProps SocketWf.
From S2P Require Import WebSocket ClientSpec.

(** ** Blocking mode *)

(** [dime_socket_setnonblocking] changes [O_NONBLOCK] and no other flag. *)
Lemma nonblocking_flags_spec flags nonblocking i :
  0 ≤ i → Z.testbit (nonblocking_flags flags nonblocking) i =
    if decide (i = 11) then nonblocking else Z.testbit flags i.
Proof.
  intros Hi. unfold nonblocking_flags. change O_NONBLOCK with (2 ^ 11).
  destruct nonblocking.
  - rewrite Z.lor_spec, Z.pow2_bits_eqb by lia.
    case_decide as H11; [by rewrite H11, Z.eqb_refl, orb_true_r|].
    rewrite (proj2 (Z.eqb_neq _ _)) by congruence. apply orb_false_r.
  - rewrite Z.land_spec, Z.lnot_spec, Z.pow2_bits_eqb by lia.
    case_decide as H11; [by rewrite H11, Z.eqb_refl, andb_false_r|].
    rewrite (proj2 (Z.eqb_neq _ _)) by congruence. apply andb_true_r.
Qed.

(** ** The switch to TLS *)

(** A blocking [send] takes at least one byte, or fails. *)
Definition send_blocks (env : tls_env) : Prop :=
  ∀ n buf, buf ≠ [] → te_send env n buf < 0 ∨ 1 ≤ te_send env n buf ≤ zlen buf.

(** What the loop sends is the front of the outbuffer. *)
Lemma flush_spec o env fuel : ∀ n out s rb wb wsb,
  oracle_sane o → send_blocks env → sock_rep s rb wb wsb → zlen wb < Z.of_nat fuel →
  ∃ ok sent s' rest, loop (flush_step o env) fuel (n, out, s) = Ret (ok, out ++ sent, s') ∧
    wb = sent ++ rest ∧ sock_rep s' rb rest wsb ∧ so_ws s' = so_ws s ∧ so_tls s' = so_tls s ∧
    (ok = true → rest = []) ∧
    (grants o SENDBUFLEN → (∀ n buf, 0 ≤ te_send env n buf) → ok = true).
Proof.
  induction fuel as [|fuel IH];
    intros n out s rb wb wsb Hs Hsend Hrep Hfuel; [pose proof (zlen_nonneg wb); lia|].
  pose proof Hrep as [Hrb Hwb Hws Hz Hev]. cbn [loop flush_step].
  unfold dime_ringbuffer_len. rewrite (proj1 (rr_len _ _ Hwb)).
  assert (∀ ok, (ok = true → wb = []) →
    (grants o SENDBUFLEN → (∀ n buf, 0 ≤ te_send env n buf) → ok = true) →
    ∃ ok' sent s' rest, @Ret (bool * list Z * dime_socket) (ok, out, s) = Ret (ok', out ++ sent, s') ∧
      wb = sent ++ rest ∧ sock_rep s' rb rest wsb ∧ so_ws s' = so_ws s ∧ so_tls s' = so_tls s ∧
      (ok' = true → rest = []) ∧
      (grants o SENDBUFLEN → (∀ n buf, 0 ≤ te_send env n buf) → ok' = true)) as Hstop.
  { intros ok Hnil Hok. exists ok, [], s, wb. rewrite app_nil_r. by split_and!. }
  destruct (Z.ltb_spec 0 (zlen wb)) as [Hne|Hnil].
  2:{ apply Hstop; [|done]. intros _. destruct wb; [done|]. exfalso. revert Hnil. zlia. }
  unfold dime_socket_sendpartial. destruct (at_ o n SENDBUFLEN) eqn:Eal.
  2:{ apply Hstop; [done|]. intros Hg. unfold at_ in Eal. by rewrite Hg in Eal. }
  rewrite (peek_rep _ wb) by (done || (unfold SENDBUFLEN; lia)). cbn [mbind outcome_bind].
  set (buf := take _ wb). assert (zlen buf = Z.min SENDBUFLEN (zlen wb)) as Hlen.
  { unfold buf. rewrite zlen_take. unfold SENDBUFLEN. lia. }
  assert (buf ≠ []) as Hbuf.
  { intros Hb. rewrite Hb, zlen_nil in Hlen. unfold SENDBUFLEN in Hlen. lia. }
  set (k := te_send env n buf) in *. destruct (Z.ltb_spec k 0) as [Hneg|Hpos].
  { apply Hstop; [done|]. intros _ Hall. specialize (Hall n buf). lia. }
  destruct (Hsend n buf Hbuf) as [|Htake]; [lia|]. fold k in Htake.
  pose proof (discard_rep (so_wbuf s) wb k Hwb ltac:(lia)) as Hd.
  destruct (dime_ringbuffer_discard (so_wbuf s) k) as [n' w]. destruct Hd as [_ Hw].
  cbn [mbind outcome_bind]. rewrite (proj2 (Z.ltb_ge _ _)) by done.
  assert (take (Z.to_nat k) buf = take (Z.to_nat k) wb) as ->.
  { unfold buf. rewrite take_take. f_equal. lia. }
  destruct (IH (S n) (out ++ take (Z.to_nat k) wb) (with_wbuf s w) rb (drop (Z.to_nat k) wb) wsb)
    as (ok & sent & s' & rest & Hrun & Hwb' & Hrest); [done..|by apply sock_rep_drop| |].
  - rewrite zlen_drop; lia.
  - exists ok, (take (Z.to_nat k) wb ++ sent), s', rest. rewrite app_assoc. split; [exact Hrun|].
    split; [|exact Hrest]. by rewrite <-app_assoc, <-Hwb', take_drop.
Qed.

(** C26: the switch to TLS always ends if a blocking [send] takes something, or
    fails, and the inbuffer is empty: it answers 0 or -1, what it sends, not yet
    encrypted, is the front of the outbuffer in order, and the rest of the
    outbuffer and the other buffers are left as they were. If it switches, it
    has sent the whole outbuffer. It does switch if all calls succeed and there
    is memory. It aborts if bytes wait in the inbuffer of a socket that can be
    made blocking. *)
Theorem tls_flushes o env s rb wb wsb :
  oracle_sane o → send_blocks env → sock_rep s rb wb wsb → so_tls s = false →
  (0 ≤ dime_socket_setnonblocking (te_block env) false → rb ≠ [] → dime_socket_init_tls o env s = Undef) ∧
  (rb = [] → ∃ rc sent s' rest, dime_socket_init_tls o env s = Ret (rc, sent, s') ∧
     (rc = 0 ∨ rc = -1) ∧ wb = sent ++ rest ∧ sock_rep s' [] rest wsb ∧ so_ws s' = so_ws s ∧
     (so_tls s' = true → rc = 0 ∧ sent = wb ∧ rest = []) ∧
     (grants o SENDBUFLEN → (∀ n buf, 0 ≤ te_send env n buf) →
      0 ≤ dime_socket_setnonblocking (te_block env) false →
      0 ≤ dime_socket_setnonblocking (te_unblock env) true →
      te_new env && te_set_fd env && te_accept env = true →
      rc = 0 ∧ so_tls s' = true)).
Proof.
  intros Hs Hsend Hrep Htls. pose proof Hrep as [Hrb Hwb Hws Hz Hev]. unfold dime_socket_init_tls.
  unfold dime_ringbuffer_len at 1 3. rewrite (proj1 (rr_len _ _ Hrb)). split.
  - intros ->%Z.ltb_ge Hne. rewrite (proj2 (Z.eqb_neq _ _)); [done|]. destruct rb; [done|]. zlia.
  - intros ->. destruct (Z.ltb_spec (dime_socket_setnonblocking (te_block env) false) 0).
    { exists 0, [], s, wb. split; [done|]. split_and!; auto; (congruence || by (intros; lia)). }
    destruct (flush_spec o env (S (Z.to_nat (dime_ringbuffer_len (so_wbuf s)))) 0 [] s [] wb wsb)
      as (ok & sent & s' & rest & Hrun & Heq & Hrep' & Hon & Ht & Hok & Hgo); [done..| |].
    { unfold dime_ringbuffer_len. rewrite (proj1 (rr_len _ _ Hwb)). lia. }
    cbn [Z.eqb]. rewrite Hrun. cbn [mbind outcome_bind app]. rewrite Htls in Ht. destruct ok.
    2:{ exists (-1), sent, s', rest. split; [done|]. split_and!; auto; [congruence|].
        intros Hg Hall. by discriminate (Hgo Hg Hall). }
    specialize (Hok eq_refl). assert (sent = wb) as Hsent by (by rewrite Heq, Hok, app_nil_r).
    destruct (te_new env && te_set_fd env && te_accept env).
    2:{ exists (-1), sent, s', rest. split; [done|]. split_and!; auto; (congruence || by intros). }
    destruct (Z.ltb_spec (dime_socket_setnonblocking (te_unblock env) true) 0).
    + exists 0, sent, s', rest. split; [done|]. split_and!; auto; (congruence || by (intros; lia)).
    + exists 0, sent, (with_tls s' true), rest. split; [done|]. split_and!; auto. by destruct Hrep'.
Qed.

(** Four bytes wait, the blocking [send] takes three bytes at most. *)
Definition tls_three : tls_env :=
  TlsEnv fcntl_ok (λ _ buf, Z.min 3 (zlen buf)) true true true fcntl_ok.

Lemma tls_flushes_witness :
  ∃ s, sock_rep s [] [1; 2; 3; 4] [] ∧
    ∃ s', dime_socket_init_tls alloc_1T tls_three s = Ret (0, [1; 2; 3; 4], s') ∧ so_tls s' = true ∧
      sock_rep s' [] [] [].
Proof.
  destruct (ring_with [1; 2; 3; 4]) as [w Hw]; [vm_compute; discriminate|].
  destruct (ring_with []) as [r Hr]; [vm_compute; discriminate|].
  assert (sock_rep (Socket 0 r w false false r false no_ring None) [] [1; 2; 3; 4] []) as Hrep by by split.
  eexists. split; [exact Hrep|].
  destruct (tls_flushes alloc_1T tls_three (Socket 0 r w false false r false no_ring None) [] [1; 2; 3; 4] []
    alloc_1T_sane) as [_ Hrun];
    [|exact Hrep|reflexivity|].
  { intros n buf Hne. right. simpl. destruct buf; [done|]. zlia. }
  destruct (Hrun eq_refl) as (rc & sent & s' & rest & Hrc & _ & _ & Hrep' & _ & Hon & Hgo).
  exists s'. destruct Hgo as [-> Htls].
  - intros p n Hn. apply (alloc_1T_grants p n), (Z.le_trans _ _ _ Hn). vm_compute. discriminate.
  - intros n buf. simpl. pose proof (zlen_nonneg buf). lia.
  - discriminate.
  - discriminate.
  - reflexivity.
  - destruct (Hon Htls) as (_ & -> & ->). by split_and!.
Defined.

(** ** Every socket is well formed *)

Section life.
Context `{Jansson} {limit : Z} `{!JanssonLaws limit}.
Variables sha1 encode_block : list Z → list Z.

(** The operations of the program on a socket, as far as they return; what
    the system answers, and what the peer sends, is any choice. The client is
    given up after a WebSocket handshake that fails. *)
Inductive socket_op : dime_socket → dime_socket → Prop :=
  | op_push_str o s text bin rc s' :
      oracle_sane o → zlen text ≤ MAXOBJ → zlen bin ≤ MAXOBJ →
      dime_socket_push_str o s text bin = Ret (rc, s') → socket_op s s'
  | op_push o s j bin rc s' :
      oracle_sane o → zlen bin ≤ MAXOBJ →
      dime_socket_push o s j bin = Ret (rc, s') → socket_op s s'
  | op_sendpartial al s send n out s' :
      dime_socket_sendpartial al s send = Ret (n, out, s') → socket_op s s'
  | op_recvpartial o s recv n s' :
      oracle_sane o →
      (∀ buf, recv = Some buf → zlen buf ≤ RECVBUFLEN ∧ Forall byte buf) →
      dime_socket_recvpartial o s recv = Ret (n, s') → socket_op s s'
  | op_pop o s n m s' :
      oracle_sane o → dime_socket_pop o s = Ret (n, m, s') → socket_op s s'
  | op_init_ws fuel o env s rc resp s' :
      oracle_sane o → so_ws s = false → 0 ≤ rc →
      dime_socket_init_ws sha1 encode_block fuel o env s = Ret (rc, resp, s') → socket_op s s'
  | op_init_tls o env s rc out s' :
      dime_socket_init_tls o env s = Ret (rc, out, s') → socket_op s s'.

Lemma init_ws_wf fuel o env s rb wb wsb rc resp s' :
  oracle_sane o → sock_rep s rb wb wsb → Forall byte rb → so_ws s = false →
  dime_socket_init_ws sha1 encode_block fuel o env s = Ret (rc, resp, s') → 0 ≤ rc → sock_wf s'.
Proof.
  intros Hs [Hrb Hwb Hws Hz Hev] Hb Hnows. unfold dime_socket_init_ws.
  destruct (_ <? 0); [intros [= <- <- <-]; lia|].
  destruct (at_ o 0 500); [|intros [= <- <- <-]; lia].
  intros (hdr & _ & Hr)%bind_ret_inv Hrc. destruct hdr as [hdr|]; [|simplify_eq; lia].
  apply bind_ret_inv in Hr as (r & _ & Hr). destruct r as [response|]; [|simplify_eq; lia].
  destruct (we_send env response); [|simplify_eq; lia].
  destruct (_ <? 0); [simplify_eq; exists rb, wb, wsb; rewrite Hnows; by split_and!|].
  destruct (dime_ringbuffer_init (at_ o 2)) as [rc' r] eqn:Er.
  destruct (Z.ltb_spec rc' 0); simplify_eq; [lia|].
  exists rb, wb, []. split; [|by split; [|constructor]]. split; try done. intros _.
  assert (rc' = 0) as ->.
  { revert Er. unfold dime_ringbuffer_init. case_match; intros [= <- _]; lia. }
  eapply ring_init_rep; [|done]. eauto with oracle.
Qed.

Lemma init_ws_wbuf fuel o env s rc resp s' :
  dime_socket_init_ws sha1 encode_block fuel o env s = Ret (rc, resp, s') → so_wbuf s' = so_wbuf s.
Proof. unfold dime_socket_init_ws. intros Hr. unfold_ret. Qed.

Lemma push_str_wf o s text bin rc s' :
  oracle_sane o → zlen text ≤ MAXOBJ → zlen bin ≤ MAXOBJ → sock_wf s →
  dime_socket_push_str o s text bin = Ret (rc, s') → sock_wf s'.
Proof.
  intros Hs Ht Hb (rb & wb & wsb & Hrep & Hb1 & Hb2) Hrun.
  pose proof (push_str_any o s rb wb wsb text bin Hs Hrep Ht Hb) as Hp. rewrite Hrun in Hp.
  destruct Hp as ([wb' Hrep'] & Hon & _). exists rb, wb', wsb. by rewrite Hon.
Qed.

Lemma sendpartial_wf_ret al s send n out s' :
  sock_wf s → dime_socket_sendpartial al s send = Ret (n, out, s') → sock_wf s'.
Proof.
  intros Hwf Hrun. pose proof (sendpartial_wf al s send Hwf) as Hp. rewrite Hrun in Hp. apply Hp.
Qed.

Lemma init_tls_wf o env s rc out s' :
  sock_wf s → dime_socket_init_tls o env s = Ret (rc, out, s') → sock_wf s'.
Proof.
  intros Hwf. unfold dime_socket_init_tls. destruct (_ <? 0); [by intros [= _ _ <-]|].
  destruct (_ =? 0); [|done]. intros ([[ok out1] s1] & Hf & Hr)%bind_ret_inv.
  assert (sock_wf s1) as Hwf1.
  { revert Hf. apply (loop_keeps _ (λ st, sock_wf st.2) (λ r, sock_wf r.2)); [..|done];
      intros [[n out2] t] r Ht Hst; cbn [flush_step] in Hst; (destruct (0 <? _); [|by simplify_eq]);
      apply bind_ret_inv in Hst as ([[rc' out3] t2] & Hsend & Hst);
      apply (sendpartial_wf_ret _ _ _ _ _ _ Ht) in Hsend; by destruct (rc' <? 0); simplify_eq. }
  destruct ok; [|by injection Hr as _ _ <-]. destruct (_ && _); [|by injection Hr as _ _ <-].
  destruct (_ <? 0); injection Hr as _ _ <-; [done|].
  destruct Hwf1 as (rb & wb & wsb & [? ? ? ? ?] & ? & ?). by exists rb, wb, wsb.
Qed.

Lemma socket_op_wf s s' : socket_op s s' → sock_wf s → sock_wf s'.
Proof.
  intros [o s1 text bin rc s2 Hs Ht Hb Hrun|o s1 j bin rc s2 Hs Hb Hrun|al s1 send n out s2 Hrun
    |o s1 recv n s2 Hs Hrecv Hrun|o s1 n m s2 Hs Hrun|fuel o env s1 rc resp s2 Hs Hno Hrc Hrun
    |o env s1 rc out s2 Hrun] Hwf.
  - exact (push_str_wf _ _ _ _ _ _ Hs Ht Hb Hwf Hrun).
  - unfold dime_socket_push in Hrun. destruct (json_dumps (at_ o 0) j) as [text|] eqn:E.
    + eapply push_str_wf; [..|exact Hrun]; [by auto with oracle| |exact Hb|exact Hwf].
      eapply dumps_fit; [|done]. eauto with oracle.
    + by injection Hrun as _ <-.
  - exact (sendpartial_wf_ret _ _ _ _ _ _ Hwf Hrun).
  - pose proof (recvpartial_wf o s1 recv Hs Hwf Hrecv) as Hp. rewrite Hrun in Hp. apply Hp.
  - destruct Hwf as (rb & wb & wsb & Hrep & Hb1 & Hb2).
    pose proof (socket_pop_any o s1 rb wb wsb Hs Hrep Hb1 Hb2) as Hp. rewrite Hrun in Hp.
    destruct Hp as (rb' & wsb' & Hrep' & Hon & _ & Hb1' & Hb2' & _).
    exists rb', wb, wsb'. by rewrite Hon.
  - destruct Hwf as (rb & wb & wsb & Hrep & Hb1 & _).
    exact (init_ws_wf _ _ _ _ _ _ _ _ _ _ Hs Hrep Hb1 Hno Hrun Hrc).
  - exact (init_tls_wf _ _ _ _ _ _ Hwf Hrun).
Qed.

(** No operation changes the descriptor. *)
Lemma socket_op_fd s s' : socket_op s s' → dime_socket_fd s' = dime_socket_fd s.
Proof.
  intros Hop. assert (sock_kept s' = sock_kept s) as [= Hfd _]; [|exact Hfd].
  destruct Hop as [o s1 text bin rc s2 _ _ _ Hr|o s1 j bin rc s2 _ _ Hr|al s1 send n out s2 Hr
    |o s1 recv n s2 _ _ Hr|o s1 n m s2 _ Hr|fuel o env s1 rc resp s2 _ _ _ Hr|o env s1 rc s2 Hr].
  - by eapply push_str_kept.
  - unfold dime_socket_push in Hr. destruct (json_dumps _ _); [by eapply push_str_kept|by simplify_eq].
  - by eapply sendpartial_kept.
  - by eapply recvpartial_kept.
  - by eapply socket_pop_kept.
  - unfold dime_socket_init_ws in Hr. unfold_ret.
  - by eapply init_tls_kept.
Qed.

(** What a socket may hold besides its descriptor. *)
Definition held (s : dime_socket) (x : release) : Prop :=
  match x with
  | FreeRing r => ∃ bs, ring_rep r bs
  | SslShutdown | SslFree => so_tls s = true
  | _ => False
  end.

Lemma destroy_gives s :
  sock_wf s → ∃ given, dime_socket_destroy s = given ++ [Shutdown (so_fd s); Close (so_fd s)] ∧
    ∀ x, x ∈ given → held s x.
Proof.
  intros (rb & wb & wsb & [Hrb Hwb Hws Hz _] & _). unfold dime_socket_destroy. rewrite Hz.
  eexists. split; [by rewrite !app_assoc, app_nil_r|]. unfold held.
  intros x. rewrite !elem_of_app. intros [[Hx|Hx]|Hx].
  - apply list_elem_of_In in Hx as [<-|[<-|[]]]; eauto.
  - destruct (so_tls s); [|by apply not_elem_of_nil in Hx].
    by apply list_elem_of_In in Hx as [<-|[<-|[]]].
  - destruct (so_ws s); [|by apply not_elem_of_nil in Hx].
    apply list_elem_of_In in Hx as [<-|[]]. eauto.
Qed.

End life.

Lemma fresh_socket_init : dime_socket_init alloc_4M 5 = (0, fresh_socket).
Proof. rewrite (surjective_pairing (dime_socket_init alloc_4M 5)). by f_equal. Qed.

