(* ===== verification/ServerSpec.v ===== *)
(** * The server keeps its invariant

    Connections come and go, commands run; the theorems of [ServerProps] rest
    on these lemmas. *)

From S2P Require Import Prelude Bytes Deque Ringbuffer Json Socket SocketSpec Table TableSpec.
From S2P Require Import TableMap Hash State Client WebSocket Server Invariant ClientSpec.
From S2P Require Import ClientPush ClientDeliver Inbox ClientSend ClientQueue ClientGone.
From S2P Require Import ClientGroups ClientHello SocketLife.
From Stdlib Require String.

Section server.
Context `{Jansson}.
Variable strerror : string.
Variables sha1 encode_block : list Z → list Z.
Variable sizeof_client : Z.
Implicit Types (o : oracle) (cid gid mid : Z) (srv : dime_server).

(** ** Start-up *)

Lemma init_tables_view o srv :
  init_tables o = Some srv → server_view srv ∅ ∧ ∀ n x, ¬ member srv n x.
Proof.
  unfold init_tables. destruct (dime_table_init (at_ o 0)) as [rc1 t1] eqn:E1.
  destruct (dime_table_init (at_ o 1)) as [rc2 t2] eqn:E2.
  destruct (Z.ltb_spec rc1 0) as [|H1]; [done|]. destruct (Z.ltb_spec rc2 0) as [|H2]; [done|].
  intros [= <-].
  assert (∀ (K V : Type) al rc (t : dime_table K V), dime_table_init al = (rc, t) → 0 ≤ rc → rc = 0)
    as Hrc.
  { intros K V al rc t. unfold dime_table_init. destruct (al _); intros [= <- _]; lia. }
  apply Hrc in E1 as H1'; [|done]. apply Hrc in E2 as H2'; [|done]. subst rc1 rc2.
  split; [|by intros n x (gid & g & Hg & _)].
  assert (fds_inv ∅ t1) as Hfds.
  { exists ∅. split; [by eapply table_init_rep|]. intros fd cid. by rewrite !lookup_empty. }
  assert (names_inv ∅ t2) as Hnames.
  { exists ∅. split; [by eapply table_init_rep|]. intros name gid. by rewrite !lookup_empty. }
  exists ∅. split; [|by rewrite fmap_empty].
  split; simpl; rewrite ?fmap_empty; try done.
  - intros p [[? Hp]|[[? Hp]|[? Hp]]]; by rewrite lookup_empty in Hp.
Qed.

Lemma server_init_tables o daemon fork srv ls :
  dime_server_init o daemon fork = InitDone srv ls →
  init_tables o = Some srv ∧ ls = Listen [] 8 [] 8.
Proof.
  unfold dime_server_init. destruct (init_tables o) as [srv0|]; [|done].
  destruct (_ && _); [|done]. destruct (daemon && _); [done|]. destruct (daemon && _); [done|].
  by intros [= <- <-].
Qed.

Lemma server_init_exit o daemon fork srv ls :
  dime_server_init o daemon fork = InitExit srv ls →
  daemon = true ∧ fork ≠ 0 ∧ init_tables o = Some srv ∧ ls = Listen [] 8 [] 8.
Proof.
  unfold dime_server_init. destruct (init_tables o) as [srv0|]; [|done].
  destruct (_ && _); [|done]. destruct daemon; [|done]. cbn [andb].
  destruct (fork <? 0); [done|]. destruct (Z.eqb_spec fork 0); [done|]. by intros [= <- <-].
Qed.

(** ** Closing a connection *)

Lemma fds_inv_delete fds tbl fd cid :
  fds_inv fds tbl → fds !! cid = Some fd →
  ∃ r tbl', dime_table_remove cmp_fd hash_fd tbl fd = Ret (r, tbl') ∧ fds_inv (delete cid fds) tbl' ∧
    dime_table_len tbl' ≤ dime_table_len tbl.
Proof.
  intros (fm & Htbl & Hfm) Hc.
  pose proof (inv_remove cmp_fd hash_fd cmp_fd_eq tbl fm fd Htbl) as Hr.
  apply returns_eq in Hr as ([r tbl'] & Hrun & -> & Htbl'). exists (fm !! fd), tbl'.
  split; [done|]. split.
  - exists (delete fd fm). split; [done|]. intros fd' cid'. rewrite !lookup_delete_Some, Hfm. split.
    + intros [Hne Hx]. split; [|done]. intros <-. congruence.
    + intros [Hne Hx]. split; [|done]. intros <-. apply Hfm in Hc, Hx. congruence.
  - rewrite (table_inv_len _ _ _ Htbl), (table_inv_len _ _ _ Htbl').
    pose proof (map_subseteq_size _ _ (delete_subseteq fm fd)). lia.
Qed.

Lemma wp_close_client srv boxes cid c :
  server_view srv boxes → sv_clients srv !! cid = Some c →
  dime_deque_len (cl_queue c) < dq_cap (cl_queue c) →
  wp (close_client cid) srv (λ _ srv', server_view srv' (delete cid boxes) ∧
    sv_clients srv' = delete cid (sv_clients srv) ∧
    (∀ n x, member srv' n x ↔ member srv n x ∧ x ≠ cid)).
Proof.
  intros (qs & Hinv & ->) Hc Hfree. unfold close_client. wp_step. wp_step.
  assert ((cl_fd <$> sv_clients srv) !! cid = Some (cl_fd c)) as Hfd by by rewrite lookup_fmap, Hc.
  destruct (fds_inv_delete _ _ _ _ (vi_fds _ _ _ Hinv) Hfd) as (r & tbl & Hrun & Htbl & _).
  apply wp_bind, wp_lift. rewrite Hrun. simpl. apply wp_bind, wp_modify.
  destruct (inv_queue _ _ _ _ _ Hinv Hc) as (xs & Hxs & Hd).
  eapply wp_mono; [apply (wp_destroy srv qs cid c xs tbl Hinv Hc Hxs)|].
  { destruct Hd as [_ _ [Hl _] _ _ _]. unfold dime_deque_len in Hfree. lia. }
  intros [] srv' (Hinv' & Hfd2 & _ & Hcl & Hnames & Hbox). specialize (Hinv' tbl Htbl).
  assert (sv_set_fd2clnt srv' tbl = srv') as Heta by (rewrite <-Hfd2; by destruct srv').
  rewrite Heta in Hinv'. split; [by exists (delete cid qs)|].
  split; [done|]. intros n x. rewrite (member_client _ _ _ _ _ Hinv), (member_client _ _ _ _ _ Hinv').
  rewrite Hcl, Hnames. split.
  - intros (c' & gid & [Hne Hc']%lookup_delete_Some & Hin & Hn). split; [by exists c', gid|done].
  - intros [(c' & gid & Hc' & Hin & Hn) Hne]. exists c', gid. by rewrite lookup_delete_ne.
Qed.

(** ** Accepting a connection *)

Lemma client_init_spec o limit fd family :
  oracle_sane o → grants o limit → 262144 ≤ limit →
  ∃ c, dime_client_init o fd family = Some c ∧ cl_fd c = fd ∧ cl_waiting c = false ∧
    cl_groups c = [] ∧ cl_groups_cap c = 4 ∧ dq_cap (cl_queue c) = 16 ∧ sock_rep (cl_sock c) [] [] [] ∧ so_ws (cl_sock c) = false ∧
    deque_rep (cl_queue c) [].
Proof.
  intros Hs Hg Hlim. unfold dime_client_init, sizeof_ptr.
  assert (∀ n k, k ≤ limit → at_ o n k = true) as Hat by (intros; by apply Hg).
  assert (addr_size family ≤ 40) by (destruct family; done).
  rewrite !Hat by lia.
  destruct (dime_socket_init (sub o 2) fd) as [rc s] eqn:Es.
  assert (rc = 0) as ->.
  { revert Es. unfold dime_socket_init, dime_ringbuffer_init, malloc. unfold at_, sub.
    rewrite !Hg by lia. by intros [= <- _]. }
  destruct (dime_deque_init (at_ o 3)) as [rc q] eqn:Eq.
  assert (rc = 0 ∧ dq_cap q = 16) as [-> Hq].
  { revert Eq. unfold dime_deque_init, malloc. rewrite Hat by lia. by intros [= <- <-]. }
  simpl. apply init_rep in Es as [Hrep Hws]; [|eauto with oracle].
  eexists. split; [done|]. simpl. split_and!; try done.
  eapply deque_init_rep; [|done]. eauto with oracle.
Qed.

Lemma inv_new_client srv qs c tbl :
  server_inv None srv qs → fds_inv (<[sv_next srv := cl_fd c]> (cl_fd <$> sv_clients srv)) tbl →
  cl_waiting c = false → cl_groups c = [] → 4 ≤ cl_groups_cap c ≤ 2 ^ 44 → sock_wf (cl_sock c) →
  deque_rep (cl_queue c) [] → Z.of_nat (size (sv_clients srv)) + 1 < 2 ^ 32 →
  server_inv None (sv_set_fd2clnt (sv_set_clients (sv_set_next srv (sv_next srv + 1))
    (<[sv_next srv := c]> (sv_clients srv))) tbl) (<[sv_next srv := []]> qs).
Proof.
  intros Hinv Htbl Hw Hgs Hcap Hsock Hd Hsize.
  destruct (inv_fresh _ _ _ Hinv) as (Hnone & _ & _).
  assert (qs !! sv_next srv = None) as Hq.
  { pose proof (vi_queues _ _ _ Hinv (sv_next srv)) as Hq. rewrite lookup_fmap, Hnone in Hq.
    by destruct (qs !! sv_next srv). }
  assert (size qs = size (sv_clients srv)) as Hsz.
  { rewrite <-!size_dom. f_equal. apply set_eq. intros x. rewrite !elem_of_dom.
    pose proof (vi_queues _ _ _ Hinv x) as Hx. rewrite lookup_fmap in Hx.
    destruct (sv_clients srv !! x), (qs !! x); simpl in Hx; try done;
      split; intros [? [=]]; eauto. }
  split; simpl; try apply Hinv.
  - intros x. rewrite fmap_insert. pose proof (vi_queues _ _ _ Hinv x).
    destruct (decide (sv_next srv = x)) as [<-|]; [by rewrite !lookup_insert_eq|].
    by rewrite !lookup_insert_ne.
  - apply refs_inv_insert; [apply Hinv|done|lia].
  - rewrite fmap_insert. unfold joined at 1. rewrite Hgs.
    apply groups_inv_client; [apply Hinv| |done]. by rewrite lookup_fmap, Hnone.
  - by rewrite fmap_insert.
  - intros x c0 [[<- <-]|[_ Hx]]%lookup_insert_Some; [done|]. by eapply (vi_socks _ _ _ Hinv).
  - intros x c0 [[<- <-]|[Hne Hx]]%lookup_insert_Some Hwx; [congruence|].
    rewrite lookup_insert_ne by done. by eapply (vi_waiting _ _ _ Hinv).
  - intros p [Hp|Hp].
    + apply lookup_insert_is_Some in Hp as [<-|[_ Hp]]; [lia|].
      pose proof (vi_next _ _ _ Hinv p (or_introl Hp)). lia.
    + pose proof (vi_next _ _ _ Hinv p (or_intror Hp)). lia.
Qed.

Lemma fds_inv_insert b o fds tbl fd cid :
  10 ≤ b ≤ 47 → oracle_sane o → grants o (2 ^ b) → fds_inv fds tbl →
  fds !! cid = None → (∀ x, fds !! x ≠ Some fd) → dime_table_len tbl < 2 ^ (b - 6) →
  ∃ tbl', dime_table_insert cmp_fd hash_fd (at_ o) tbl fd cid = Ret (0, tbl') ∧
    fds_inv (<[cid := fd]> fds) tbl' ∧ dime_table_len tbl' = dime_table_len tbl + 1.
Proof.
  intros Hb Hs Hg (fm & Htbl & Hfm) Hcid Hfresh Hlen.
  assert (fm !! fd = None) as Hfd.
  { destruct (fm !! fd) as [x|] eqn:E; [|done]. apply Hfm in E. by apply Hfresh in E. }
  rewrite (table_inv_len _ _ _ Htbl) in *.
  assert (budget b (at_ o)) as Hbud.
  { intros i. split; [eauto with oracle|]. intros n Hn. by apply Hg. }
  pose proof (inv_insert cmp_fd hash_fd cmp_fd_eq b (at_ o) tbl fm fd cid Hb Hbud Htbl Hfd Hlen) as Hi.
  apply returns_eq in Hi as ([rc tbl'] & Hrun & -> & Htbl'). exists tbl'. split; [done|]. split.
  - exists (<[fd := cid]> fm). split; [done|]. intros fd' cid'.
    rewrite !lookup_insert_Some, Hfm. split.
    + intros [[<- <-]|[Hne Hx]]; [by left|right]. split; [|done]. intros <-. congruence.
    + intros [[<- <-]|[Hne Hx]]; [by left|right]. split; [|done]. intros <-. by apply Hfresh in Hx.
  - rewrite (table_inv_len _ _ _ Htbl'), map_size_insert_None by done. lia.
Qed.

(** The opening handshake comes to an end, whatever the socket. *)
Definition handshake_ends o (ws : nat * ws_env) : Prop :=
  ∀ s, ∃ rc resp s', dime_socket_init_ws sha1 encode_block ws.1 o ws.2 s = Ret (rc, resp, s').

Lemma peer_handshake o ws protocol :
  oracle_sane o → (protocol = DIME_WS → ws_peer sha1 encode_block ws) →
  protocol = DIME_WS → handshake_ends (sub o 2) ws.
Proof. intros Hs Hws Hp s. apply init_ws_returns; [eauto with oracle|by apply Hws]. Qed.

(** It does if [accept_client] has returned. *)
Lemma accept_handshake o fd family ws protocol srv r :
  at_ o 0 sizeof_client = true → is_Some (dime_client_init (sub o 1) fd family) →
  accept_client sha1 encode_block sizeof_client o (Some (fd, family)) ws protocol srv = Ret r →
  protocol = DIME_WS → handshake_ends (sub o 2) ws.
Proof.
  intros Hmem [c Hc] Hrun Hp s. unfold accept_client, connect_client in Hrun.
  rewrite Hmem, Hc, decide_True in Hrun by done. unfold mbind, M_bind, lift in Hrun.
  destruct (dime_socket_init_ws _ _ _ _ _ _) as [r'| |] eqn:E; [|done..].
  by eapply init_ws_any_sock.
Qed.

(** A connection that is not a WebSocket, and a WebSocket whose handshake is
    done. *)
Lemma wp_connect b o fd family ws protocol srv boxes :
  18 ≤ b ≤ 47 → oracle_sane o → grants o (2 ^ b) → server_view srv boxes →
  (∀ cid c, sv_clients srv !! cid = Some c → cl_fd c ≠ fd) →
  dime_table_len (sv_fd2clnt srv) < 2 ^ (b - 6) → Z.of_nat (size (sv_clients srv)) + 1 < 2 ^ 32 →
  (protocol = DIME_WS → handshake_ends (sub o 2) ws) →
  wp (connect_client sha1 encode_block o fd family ws protocol) srv
    (λ r srv', r = Some None ∧ protocol = DIME_WS ∧ srv' = srv ∨
       r = Some (Some (sv_next srv, 0)) ∧ server_view srv' (<[sv_next srv := []]> boxes) ∧
       (∀ n x, member srv' n x ↔ member srv n x) ∧
       ∃ c, sv_clients srv' = <[sv_next srv := c]> (sv_clients srv) ∧ cl_fd c = fd ∧
         dime_socket_sendlen (cl_sock c) = 0).
Proof.
  intros Hb Hs Hg (qs & Hinv & ->) Hfresh Hlen Hmany Hws. unfold connect_client.
  assert (262144 ≤ 2 ^ b).
  { change 262144 with (2 ^ 18). apply Z.pow_le_mono_r; lia. }
  destruct (client_init_spec (sub o 1) (2 ^ b) fd family)
    as (c & -> & Hfd & Hw & Hgs & Hcap & _ & Hrep & Hnows & Hd); eauto with oracle.
  apply wp_bind.
  eapply (wp_mono _ _ (λ '(rc, s) srv', srv' = srv ∧ (rc < 0 → protocol = DIME_WS) ∧
    (0 ≤ rc → sock_wf s) ∧ so_wbuf s = so_wbuf (cl_sock c))).
  { destruct (decide (protocol = DIME_WS)) as [Hp|Hp].
    - destruct (Hws Hp (cl_sock c)) as (rc & resp & s' & Hrun). apply wp_bind, wp_lift.
      rewrite Hrun. simpl. apply wp_ret. do 2 (split; [done|]).
      split; [|by eapply init_ws_wbuf].
      eapply init_ws_wf; [|exact Hrep|constructor|exact Hnows|exact Hrun]. eauto with oracle.
    - apply wp_ret. split; [done|]. split; [lia|]. split; [|done].
      intros _. exists [], [], []. by rewrite Hnows. }
  intros [rc s] srv' (-> & Hneg & Hwf & Hwb). destruct (Z.ltb_spec rc 0).
  { apply wp_ret. left. auto. }
  apply wp_bind. unfold fresh, wp at 1. cbn [returns]. apply wp_bind, wp_modify. wp_step.
  cbn [sv_set_clients sv_set_next sv_fd2clnt sv_clients].
  destruct (inv_fresh _ _ _ Hinv) as (Hnone & _ & _).
  destruct (fds_inv_insert b (sub o 3) _ _ fd (sv_next srv) ltac:(lia) ltac:(eauto with oracle)
    ltac:(eauto with oracle) (vi_fds _ _ _ Hinv)) as (tbl & Hins & Htbl & _); [| |done|].
  { by rewrite lookup_fmap, Hnone. }
  { intros x Hx. rewrite lookup_fmap in Hx. destruct (sv_clients srv !! x) as [cx|] eqn:E; [|done].
    injection Hx as Hx. by apply (Hfresh _ _ E). }
  apply wp_bind, wp_lift. rewrite Hins. simpl. apply wp_bind, wp_modify, wp_ret.
  right. split; [done|].
  pose proof (inv_new_client srv qs (cl_set_sock c s) tbl Hinv) as Hinv'. simpl in Hinv'.
  rewrite Hfd in Hinv'. split; [|split].
  - eexists. split; [apply Hinv'; (done || (by rewrite Hcap) || auto)|]. by rewrite fmap_insert.
  - done.
  - exists (cl_set_sock c s). split; [done|]. split; [done|]. unfold dime_socket_sendlen. simpl.
    rewrite Hwb. apply (rr_len _ _ (sr_wbuf _ _ _ _ Hrep)).
Qed.

Lemma wp_accept b o fd family ws protocol srv boxes :
  18 ≤ b ≤ 47 → oracle_sane o → grants o (2 ^ b) → sizeof_client ≤ 2 ^ b → server_view srv boxes →
  (∀ cid c, sv_clients srv !! cid = Some c → cl_fd c ≠ fd) →
  dime_table_len (sv_fd2clnt srv) < 2 ^ (b - 6) → Z.of_nat (size (sv_clients srv)) + 1 < 2 ^ 32 →
  (protocol = DIME_WS → handshake_ends (sub o 2) ws) →
  wp (accept_client sha1 encode_block sizeof_client o (Some (fd, family)) ws protocol) srv
    (λ r srv', r = Some None ∧ protocol = DIME_WS ∧ srv' = srv ∨
       r = Some (Some fd) ∧ server_view srv' (<[sv_next srv := []]> boxes) ∧
       (∀ n x, member srv' n x ↔ member srv n x) ∧
       ∃ c, sv_clients srv' = <[sv_next srv := c]> (sv_clients srv) ∧ cl_fd c = fd).
Proof.
  intros Hb Hs Hg Hsize Hv Hfresh Hlen Hmany Hws. unfold accept_client.
  unfold at_ at 1. rewrite Hg by done. apply wp_bind. eapply wp_mono; [by eapply wp_connect|].
  intros r srv' [(-> & ? & ?)|(-> & ? & ? & c & ? & ? & _)].
  - apply wp_ret. by left.
  - apply wp_bind, wp_ret, wp_ret. right. split_and!; [done..|]. by exists c.
Qed.
(** The handshake of a new connection has been refused or has failed. *)
Definition handshake_fails o fd family (ws : nat * ws_env) : Prop :=
  ∃ c rc resp s, dime_client_init (sub o 1) fd family = Some c ∧
    dime_socket_init_ws sha1 encode_block ws.1 (sub o 2) ws.2 (cl_sock c) = Ret (rc, resp, s) ∧ rc < 0.

(** Only then is a connection dropped. *)
Lemma accept_dropped o fd family ws protocol srv srv' :
  accept_client sha1 encode_block sizeof_client o (Some (fd, family)) ws protocol srv
    = Ret (Some None, srv') → handshake_fails o fd family ws.
Proof.
  unfold accept_client. destruct (at_ o 0 _); [|done]. unfold mbind at 1, M_bind at 1.
  destruct (connect_client _ _ _ _ _ _ _ _) as [[r srv1]| |] eqn:E; [|done..].
  destruct r as [[[cid rc]|]|]; [|intros _|done].
  { unfold mbind, M_bind. destruct (rc <? 0); [|done].
    by destruct (dime_client_destroy cid srv1) as [[]| |]. }
  unfold connect_client in E. destruct (dime_client_init _ _ _) as [c|] eqn:Hc; [|done].
  unfold mbind, M_bind, lift in E. destruct (decide (protocol = DIME_WS)).
  - destruct (dime_socket_init_ws _ _ _ _ _ _) as [[[rc resp] s]| |] eqn:Hi; [|done..]. simpl in E.
    destruct (Z.ltb_spec rc 0); [by exists c, rc, resp, s|]. exfalso. revert E. simpl.
    by destruct (dime_table_insert _ _ _ _ _ _) as [[]| |].
  - exfalso. revert E. simpl. by destruct (dime_table_insert _ _ _ _ _ _) as [[]| |].
Qed.
End server.

(** ** Commands, seen from outside *)

(** What can be seen of the state: the messages queued for each client and
    the members of each group. *)
Record view := View {
  vw_boxes : gmap Z (list message);
  vw_member : string → Z → Prop;
}.

Definition views (srv : dime_server) (v : view) : Prop :=
  server_view srv (vw_boxes v) ∧ ∀ n x, vw_member v n x ↔ member srv n x.

Section commands.
Context `{Jansson}.

Definition commands : list string :=
  ["handshake"; "join"; "leave"; "send"; "broadcast"; "sync"; "wait"; "devices"]%string.

(** The change of the view by a command that answers [rc]. *)
Inductive abs_command (cid : Z) (j : json) (bin : list Z) : string → Z → view → view → Prop :=
  | abs_silent cmd rc v :
      cmd ∈ ["handshake"; "wait"; "devices"]%string → abs_command cid j bin cmd rc v v
  | abs_unknown cmd v : cmd ∉ commands → abs_command cid j bin cmd (-1) v v
  | abs_join rc v m' arr front names rest :
      json_unpack_so j "name" = inl arr → json_array_elems arr = front ++ rest →
      Forall2 (λ v n, json_string_value v = Some n) front names → (rc = 0 → rest = []) →
      (∀ n x, m' n x ↔ vw_member v n x ∨ n ∈ names ∧ x = cid) →
      abs_command cid j bin "join" rc v (View (vw_boxes v) m')
  | abs_leave rc v m' arr front names rest :
      json_unpack_so j "name" = inl arr → json_array_elems arr = front ++ rest →
      Forall2 (λ v n, json_string_value v = Some n) front names → (rc = 0 → rest = []) →
      (∀ n x, m' n x ↔ vw_member v n x ∧ ¬ (n ∈ names ∧ x = cid)) →
      abs_command cid j bin "leave" rc v (View (vw_boxes v) m')
  | abs_no_names cmd v text :
      cmd ∈ ["join"; "leave"]%string → json_unpack_so j "name" = inr text →
      abs_command cid j bin cmd (-1) v v
  | abs_send v name to al text :
      json_unpack_ss j "name" = inl name → json_dumps al j = Some text →
      (∀ x, to x = true ↔ vw_member v name x) → (∃ x, to x = true) →
      abs_command cid j bin "send" 0 v (View (posted to (text, bin) (vw_boxes v)) (vw_member v))
  | abs_send_failed v boxes' :
      partly (λ x, ∃ name, json_unpack_ss j "name" = inl name ∧ vw_member v name x) j bin
        (vw_boxes v) boxes' →
      abs_command cid j bin "send" (-1) v (View boxes' (vw_member v))
  | abs_broadcast v al text :
      json_dumps al j = Some text →
      abs_command cid j bin "broadcast" 0 v
        (View (posted (λ x, negb (x =? cid)) (text, bin) (vw_boxes v)) (vw_member v))
  | abs_broadcast_failed v boxes' :
      partly (λ x, x ≠ cid) j bin (vw_boxes v) boxes' →
      abs_command cid j bin "broadcast" (-1) v (View boxes' (vw_member v))
  | abs_sync rc v n b (k : nat) :
      json_unpack_sI j "n" = Some n → vw_boxes v !! cid = Some b →
      (k ≤ sync_count n b)%nat → (rc = 0 → k = sync_count n b) →
      abs_command cid j bin "sync" rc v
        (View (<[cid := drop k b]> (vw_boxes v)) (vw_member v))
  | abs_sync_no_n v :
      json_unpack_sI j "n" = None → abs_command cid j bin "sync" (-1) v v.
End commands.
