(* ===== verification/ServerProps.v ===== *)
(** * Properties of the commands and of the server

    The commands against their contract, which speaks of the messages queued
    for each client and of the members of each group ([Inbox], [ServerSpec]),
    and the invariant along all runs. *)

From S2P Require Import Prelude Bytes Deque Ringbuffer Json Socket SocketSpec SocketWf Table.
From S2P Require Import TableSpec TableMap Hash State Client WebSocket Server Invariant.
From S2P Require Import ClientSpec ClientPush ClientDeliver Inbox ClientSend ClientQueue.
From S2P Require Import ClientGone ClientGroups ClientHello ServerSpec.
From Stdlib Require String.

Section props.
Context `{Jansson} {b : Z} `{!JanssonLaws (2 ^ b)}.
Variable strerror : string.
Implicit Types (o : oracle) (cid gid mid : Z) (srv : dime_server).

(** What the commands rely on: strings short enough for the error string,
    sizes that fit, room for the tables to grow and for the notifications. *)
Record command_ok (j : json) (bin : list Z) srv : Prop := {
  co_bin : zlen bin ≤ MAXOBJ;
  co_room : all_room (limit:=2 ^ b) srv;
  co_so text : json_unpack_so j "name" = inr text → short 61 text;
  co_ss text : json_unpack_ss j "name" = inr text → short 61 text;
  co_sssb text : json_unpack_sssb j "serialization" "tls" = inr text → short 61 text;
  co_name name : json_unpack_ss j "name" = inl name → short 59 name;
  co_names arr v name : json_unpack_so j "name" = inl arr → v ∈ json_array_elems arr →
    json_string_value v = Some name → short 53 name;
  co_table arr : json_unpack_so j "name" = inl arr → table_room b (zlen (json_array_elems arr)) srv;
  co_n n : json_unpack_sI j "n" = Some n → n < 2 ^ 63;
}.

(** The name of the command. *)
Definition command_of (j : json) : string :=
  match json_unpack_ss j "command" with inl cmd => cmd | inr _ => "" end.

(** What a [devices] can rely on. *)
Definition devices_ok (j : json) srv : Prop :=
  command_of j = "devices"%string → can_append (limit:=2 ^ b) srv.

(** What running a command comes to. *)
Definition performs cid j bin srv (v : view) (rc : Z) srv' : Prop :=
  (rc = 0 ∨ rc = -1) ∧ cl_fd <$> sv_clients srv' = cl_fd <$> sv_clients srv ∧
  inbufs <$> sv_clients srv' = inbufs <$> sv_clients srv ∧ ∃ v', views srv' v' ∧ abs_command cid j bin (command_of j) rc v v'.

Lemma keeps_member srv srv' n x : keeps srv srv' → member srv' n x ↔ member srv n x.
Proof. intros Hk. unfold member. by rewrite (kp_groups _ _ Hk). Qed.

(** Commands that change no group. *)
Lemma performs_keeps cid j bin srv v rc srv' boxes' :
  rc = 0 ∨ rc = -1 → keeps srv srv' → views srv v → server_view srv' boxes' →
  abs_command cid j bin (command_of j) rc v (View boxes' (vw_member v)) →
  performs cid j bin srv v rc srv'.
Proof.
  intros Hrc Hk [Hv Hm] Hv' Habs. split; [done|]. do 2 (split; [apply Hk|]).
  exists (View boxes' (vw_member v)). split; [|done]. split; [done|]. intros n x. simpl.
  by rewrite (keeps_member _ _ _ _ Hk).
Qed.

Lemma performs_silent cid j bin srv v rc srv' :
  rc = 0 ∨ rc = -1 → keeps srv srv' → views srv v → server_view srv' (vw_boxes v) →
  abs_command cid j bin (command_of j) rc v v → performs cid j bin srv v rc srv'.
Proof. intros Hrc Hk Hvs Hv' Habs. eapply performs_keeps; [done..|]. by destruct v. Qed.

(** The two commands that change groups. *)
Lemma performs_regrouped R blocked cid j bin srv v rc srv' :
  (∀ srv, R [] srv srv' → ∀ n x, member srv' n x ↔ member srv n x) → views srv v →
  regrouped (limit:=2 ^ b) strerror R blocked cid j srv (vw_boxes v) rc srv' →
  command_of j ∈ ["join"; "leave"]%string →
  (∀ arr front names rest, json_unpack_so j "name" = inl arr → json_array_elems arr = front ++ rest →
     Forall2 (λ v n, json_string_value v = Some n) front names → (rc = 0 → rest = []) →
     R names srv srv' →
     abs_command cid j bin (command_of j) rc v (View (vw_boxes v) (member srv'))) →
  performs cid j bin srv v rc srv'.
Proof.
  intros Hnil [Hv Hm] (Hrc & Hfd & Hin & Hv' & Hj) Hcmd Habs. do 3 (split; [done|]).
  destruct (json_unpack_so j "name") as [arr|text] eqn:En.
  - destruct Hj as (front & names & rest & Helems & Hnames & HR & Hrest).
    exists (View (vw_boxes v) (member srv')). split; [by split|]. eapply Habs; try done.
    intros ->. exact (proj1 Hrest).
  - destruct Hj as (-> & HR & _). exists v. split; [|by eapply abs_no_names].
    split; [done|]. intros n x. by rewrite (Hnil _ HR).
Qed.

Lemma views_client srv v cid : views srv v → is_Some (sv_clients srv !! cid) →
  ∃ box, vw_boxes v !! cid = Some box.
Proof. intros [Hv _] Hc. by apply (server_view_dom _ _ _ Hv). Qed.

(** One lemma for each command. *)
Section performs.
Variables (o : oracle) (env : tls_env) (cid : Z) (j : json) (bin : list Z).
Variables (srv : dime_server) (v : view).
Hypotheses (Hb : 10 ≤ b ≤ 47) (Hs : oracle_sane o) (Hg : grants o (2 ^ b)) (Hvs : views srv v).
Hypotheses (Hcid : is_Some (sv_clients srv !! cid)) (Hok : command_ok j bin srv).

Let Hv : server_view srv (vw_boxes v) := proj1 Hvs.
Let Hm : ∀ n x, vw_member v n x ↔ member srv n x := proj2 Hvs.

Lemma performs_handshake : command_of j = "handshake"%string →
  wp (dime_client_handshake o env cid j) srv (performs cid j bin srv v).
Proof.
  intros E. eapply wp_mono; [apply (wp_handshake (limit:=2 ^ b)); [done..|]|].
  - destruct (json_unpack_sssb _ _ _) eqn:Ej; [done|]. by eapply co_sssb.
  - intros rc srv' (Hrc & Hk & Hv' & _). apply performs_silent; try done.
    rewrite E. apply abs_silent. set_solver.
Qed.

Lemma performs_join : command_of j = "join"%string →
  wp (dime_client_join strerror o cid j) srv (performs cid j bin srv v).
Proof.
  intros E. eapply wp_mono; [apply (wp_join (limit:=2 ^ b) strerror b); try done|].
  - destruct (json_unpack_so j "name") eqn:Ej; [|by eapply co_so].
    split; [by eapply co_table|]. intros w name. by eapply co_names.
  - intros rc srv' Hj. eapply performs_regrouped; [|done|exact Hj|rewrite E; set_solver|].
    + intros srv0 HR n x. rewrite (HR n x). set_solver.
    + intros arr front names rest Ha He Hn Hr HR. rewrite E. eapply abs_join; [done..|].
      intros n x. rewrite (Hm n x). apply HR.
Qed.

Lemma performs_leave : command_of j = "leave"%string →
  wp (dime_client_leave strerror o cid j) srv (performs cid j bin srv v).
Proof.
  intros E. eapply wp_mono; [apply (wp_leave (limit:=2 ^ b) strerror b); try done|].
  - destruct (json_unpack_so j "name") eqn:Ej; [|by eapply co_so].
    split; [by eapply co_table|]. intros w name Hin Hw.
    pose proof (co_names _ _ _ Hok _ _ _ Ej Hin Hw). unfold short in *. lia.
  - intros rc srv' Hj. eapply performs_regrouped; [|done|exact Hj|rewrite E; set_solver|].
    + intros srv0 HR n x. rewrite (HR n x). set_solver.
    + intros arr front names rest Ha He Hn Hr HR. rewrite E. eapply abs_leave; [done..|].
      intros n x. rewrite (Hm n x). apply HR.
Qed.

Lemma performs_send : command_of j = "send"%string →
  wp (dime_client_send strerror o cid j bin) srv (performs cid j bin srv v).
Proof.
  intros E. pose proof Hv as (qs & Hinv & _).
  eapply wp_mono; [apply (wp_send (limit:=2 ^ b) strerror); try done; try apply Hok|].
  { destruct (json_unpack_ss j "name") eqn:Ej; [by eapply co_name|by eapply co_ss]. }
  intros rc srv' (Hrc & Hk & (boxes' & Hv' & Hsent & Hpart) & _).
  eapply performs_keeps; [done..|]. rewrite E. destruct Hrc as [-> | ->].
  - destruct (Hsent eq_refl) as (name & gid & g & al & text & Hn & Hgg & Hname & Hne & Hd & -> & _).
    eapply abs_send; [done..| |].
    + intros x. rewrite bool_decide_eq_true, (Hm name x). split; [intros Hx; by exists gid, g|].
      intros (gid' & g' & Hg' & Hn' & Hx).
      assert (gid' = gid) as -> by (eapply group_name_inj; [exact Hinv|done|done|congruence]).
      congruence.
    + destruct (gr_clnts g) as [|x l]; [done|]. exists x. apply bool_decide_eq_true. by left.
  - apply abs_send_failed. destruct (Hpart eq_refl) as [->|(al & text & to' & Hd & Hto & ->)].
    + by left.
    + right. exists al, text, to'. split_and!; [done| |done]. intros x Hx.
      destruct (Hto x Hx) as (name & gid & g & Hn & Hgg & Hname & Hin). exists name.
      split; [done|]. apply Hm. by exists gid, g.
Qed.

Lemma performs_broadcast : command_of j = "broadcast"%string →
  wp (dime_client_broadcast strerror o cid j bin) srv (performs cid j bin srv v).
Proof.
  intros E. eapply wp_mono; [apply (wp_broadcast (limit:=2 ^ b) strerror); try done; apply Hok|].
  intros rc srv' (Hrc & Hk & (boxes' & Hv' & Hb' & Hpart) & _).
  eapply performs_keeps; [done..|]. rewrite E. destruct Hrc as [-> | ->].
  - destruct (Hb' eq_refl) as (al & text & Hd & -> & _). by econstructor.
  - by apply abs_broadcast_failed, Hpart.
Qed.

Lemma performs_sync : command_of j = "sync"%string →
  wp (dime_client_sync strerror o cid j) srv (performs cid j bin srv v).
Proof.
  intros E. destruct (views_client _ _ _ Hvs Hcid) as [box Hbox].
  destruct (json_unpack_sI j "n") as [n|] eqn:En.
  - eapply wp_mono; [apply (wp_sync (limit:=2 ^ b) strerror o cid j n srv (vw_boxes v) box false [] [] []);
      try done; by eapply co_n|].
    intros rc srv' (Hrc & Hk & k & Hle & Hv' & Hk0 & _). eapply performs_keeps; [done..|].
    rewrite E. by econstructor.
  - eapply wp_mono; [by apply wp_sync_no_n|]. intros rc srv' [-> ->].
    apply performs_silent; [by right|apply keeps_refl|done|done|]. rewrite E. by constructor.
Qed.

Lemma performs_wait : command_of j = "wait"%string →
  wp (dime_client_wait strerror o cid) srv (performs cid j bin srv v).
Proof.
  intros E. destruct (views_client _ _ _ Hvs Hcid) as [box Hbox].
  assert (abs_command cid j bin (command_of j) 0 v v ∧ abs_command cid j bin (command_of j) (-1) v v)
    as [Ha0 Ha1] by (rewrite E; split; apply abs_silent; set_solver).
  destruct box as [|m box].
  - eapply wp_mono; [by apply (wp_wait_empty strerror)|]. intros rc srv' (-> & Hk & Hv' & _).
    apply performs_silent; try done. by left.
  - eapply wp_mono; [by apply (wp_wait_some (limit:=2 ^ b) strerror o cid srv (vw_boxes v) (m :: box) false [] [] [])|].
    intros rc srv' (Hrc & Hk & Hv' & _). apply performs_silent; try done. by destruct Hrc as [-> | ->].
Qed.

Lemma performs_devices : command_of j = "devices"%string →
  defined (limit:=2 ^ b) (dispatch strerror o env cid j bin) o srv →
  wp (dime_client_devices strerror o cid) srv (performs cid j bin srv v).
Proof.
  unfold dispatch. fold (command_of j). intros E Hdef. rewrite E in Hdef.
  eapply wp_mono; [by apply (wp_devices (limit:=2 ^ b) strerror o cid srv (vw_boxes v))|].
  intros rc srv' (Hrc & Hk & Hv' & _). apply performs_silent; try done.
  rewrite E. apply abs_silent. set_solver.
Qed.

Lemma performs_unknown s : command_of j ∉ commands →
  wp (fail_text o cid s) srv (performs cid j bin srv v).
Proof.
  intros E. pose proof Hv as (qs & Hinv & _).
  eapply wp_mono; [apply (wp_fail_text (limit:=2 ^ b)); [done|by eapply inv_ready]|].
  intros rc srv' [-> Hq]. apply performs_silent;
    [by right|by eapply quiet_keeps|done|by eapply quiet_view|]. by apply abs_unknown.
Qed.

Lemma dispatch_performs :
  (command_of j = "devices"%string →
   defined (limit:=2 ^ b) (dispatch strerror o env cid j bin) o srv) →
  wp (dispatch strerror o env cid j bin) srv (performs cid j bin srv v).
Proof.
  intros Hdef. unfold dispatch. fold (command_of j).
  destruct (String.eqb_spec (command_of j) "handshake"); [by apply performs_handshake|].
  destruct (String.eqb_spec (command_of j) "join"); [by apply performs_join|].
  destruct (String.eqb_spec (command_of j) "leave"); [by apply performs_leave|].
  destruct (String.eqb_spec (command_of j) "send"); [by apply performs_send|].
  destruct (String.eqb_spec (command_of j) "broadcast"); [by apply performs_broadcast|].
  destruct (String.eqb_spec (command_of j) "sync"); [by apply performs_sync|].
  destruct (String.eqb_spec (command_of j) "wait"); [by apply performs_wait|].
  destruct (String.eqb_spec (command_of j) "devices"); [by apply performs_devices, Hdef|].
  apply performs_unknown. unfold commands. set_solver.
Qed.
End performs.

(** ** Runs of the server *)

Record command := Command {
  cm_client : Z;
  cm_json : json;
  cm_bin : list Z;
  cm_answer : Z;
}.

Inductive label := Commanded (c : command) | Closed (cid : Z) | Internal.

Variables sha1 encode_block : list Z → list Z.
Variable sizeof_client : Z.

(** What the loop does with the socket of a client between commands. In the
    build with libev it also starts and stops its watchers; it does not stop
    asking for room to write while there is something to send. *)
Inductive socket_activity : dime_socket → dime_socket → Prop :=
  | act_recv o s recv n s' :
      oracle_sane o → (∀ buf, recv = Some buf → zlen buf ≤ RECVBUFLEN ∧ Forall byte buf) →
      dime_socket_recvpartial o s recv = Ret (n, s') → socket_activity s s'
  | act_send al s send n sent s' :
      dime_socket_sendpartial al s send = Ret (n, sent, s') → socket_activity s s'
  | act_pop o s n m s' :
      oracle_sane o → dime_socket_pop o s = Ret (n, m, s') → socket_activity s s'
  | act_watch s e :
      (e = Some false → dime_socket_sendlen s = 0) → socket_activity s (with_ev s e).

Lemma view_put_sock srv boxes cid c s :
  server_view srv boxes → sv_clients srv !! cid = Some c → (sock_wf (cl_sock c) → sock_wf s) →
  server_view (sv_set_clients srv (<[cid := cl_set_sock c s]> (sv_clients srv))) boxes.
Proof.
  intros (qs & Hinv & ->) Hc Hs. exists qs. split; [|done]. split; simpl; try apply Hinv.
  - rewrite (fmap_insert_same cl_queue _ _ c) by done. apply Hinv.
  - rewrite (fmap_insert_same joined _ _ c) by done. apply Hinv.
  - rewrite (fmap_insert_same cl_fd _ _ c) by done. apply Hinv.
  - intros x c0 [[<- <-]|[_ Hx]]%lookup_insert_Some; [|by eapply (vi_socks _ _ _ Hinv)].
    by eapply Hs, (vi_socks _ _ _ Hinv).
  - intros x c0 [[<- <-]|[_ Hx]]%lookup_insert_Some Hw; by eapply (vi_waiting _ _ _ Hinv).
  - intros p Hp. apply (vi_next _ _ _ Hinv). rewrite lookup_insert_is_Some in Hp.
    destruct Hp as [[<-|[_ ?]]|?]; eauto.
Qed.

Lemma socket_activity_wf s s' : socket_activity s s' → sock_wf s → sock_wf s'.
Proof.
  intros [o s1 recv n s1' Hs Hrecv Hrun|al s1 send n sent s1' Hrun|o s1 n m s1' Hs Hrun|s1 e He] Hwf.
  - pose proof (recvpartial_wf o s1 recv Hs Hwf Hrecv) as Hr. rewrite Hrun in Hr. apply Hr.
  - pose proof (sendpartial_wf al s1 send Hwf) as Hr. rewrite Hrun in Hr. apply Hr.
  - destruct Hwf as (rb & wb & wsb & Hrep & Hb1 & Hb2).
    pose proof (socket_pop_any o s1 rb wb wsb Hs Hrep Hb1 Hb2) as Hr. rewrite Hrun in Hr.
    destruct Hr as (rb' & wsb' & Hrep' & Hon & _ & Hb1' & Hb2' & _).
    exists rb', wb, wsb'. by rewrite Hon.
  - destruct Hwf as (rb & wb & wsb & [Hrb Hwb Hws Hz _] & Hb). exists rb, wb, wsb. split; [|exact Hb].
    split; try done. intros Hf. specialize (He Hf). unfold dime_socket_sendlen, dime_ringbuffer_len in He.
    rewrite (proj1 (rr_len _ _ Hwb)) in He. destruct wb; [done|]. revert He. zlia.
Qed.

(** A step of the server: a connection is accepted or closed, a command is
    run, a client is looked up, or a socket receives, sends or yields a
    message. Its label says which commands are run and which connections are
    closed. *)
Inductive labelled_step : label → dime_server → dime_server → Prop :=
  | lab_accept o fd family ws protocol r srv srv' :
      oracle_sane o → grants o (2 ^ b) → (∀ cid c, sv_clients srv !! cid = Some c → cl_fd c ≠ fd) →
      dime_table_len (sv_fd2clnt srv) < 2 ^ (b - 6) →
      Z.of_nat (size (sv_clients srv)) + 1 < 2 ^ 32 →
      accept_client sha1 encode_block sizeof_client o (Some (fd, family)) ws protocol srv = Ret (r, srv') →
      labelled_step Internal srv srv'
  | lab_command o env cid j bin rc srv srv' :
      oracle_sane o → grants o (2 ^ b) → is_Some (sv_clients srv !! cid) → command_ok j bin srv →
      dispatch strerror o env cid j bin srv = Ret (rc, srv') →
      labelled_step (Commanded (Command cid j bin rc)) srv srv'
  | lab_close cid c srv srv' :
      sv_clients srv !! cid = Some c → dime_deque_len (cl_queue c) < dq_cap (cl_queue c) →
      close_client cid srv = Ret ((), srv') → labelled_step (Closed cid) srv srv'
  | lab_find fd r srv srv' :
      find_client fd srv = Ret (r, srv') → labelled_step Internal srv srv'
  | lab_socket cid c s srv :
      sv_clients srv !! cid = Some c → socket_activity (cl_sock c) s →
      labelled_step Internal srv
        (sv_set_clients srv (<[cid := cl_set_sock c s]> (sv_clients srv))).

Definition server_step srv srv' : Prop := ∃ l, labelled_step l srv srv'.

Lemma step_accept o fd family ws protocol r srv srv' :
  oracle_sane o → grants o (2 ^ b) → (∀ cid c, sv_clients srv !! cid = Some c → cl_fd c ≠ fd) →
  dime_table_len (sv_fd2clnt srv) < 2 ^ (b - 6) →
  Z.of_nat (size (sv_clients srv)) + 1 < 2 ^ 32 →
  accept_client sha1 encode_block sizeof_client o (Some (fd, family)) ws protocol srv = Ret (r, srv') →
  server_step srv srv'.
Proof. intros. eexists. by eapply lab_accept. Qed.

Lemma step_command o env cid j bin rc srv srv' :
  oracle_sane o → grants o (2 ^ b) → is_Some (sv_clients srv !! cid) → command_ok j bin srv →
  dispatch strerror o env cid j bin srv = Ret (rc, srv') → server_step srv srv'.
Proof. intros. eexists. by eapply lab_command. Qed.

Lemma step_close cid c srv srv' :
  sv_clients srv !! cid = Some c → dime_deque_len (cl_queue c) < dq_cap (cl_queue c) →
  close_client cid srv = Ret ((), srv') → server_step srv srv'.
Proof. intros. eexists. by eapply lab_close. Qed.

Lemma step_find fd r srv srv' : find_client fd srv = Ret (r, srv') → server_step srv srv'.
Proof. intros. eexists. by eapply lab_find. Qed.

Lemma step_socket cid c s srv :
  sv_clients srv !! cid = Some c → socket_activity (cl_sock c) s →
  server_step srv (sv_set_clients srv (<[cid := cl_set_sock c s]> (sv_clients srv))).
Proof. intros. eexists. by eapply lab_socket. Qed.

(** A run with the labels of its steps. *)
Inductive server_trace : list label → dime_server → dime_server → Prop :=
  | trace_nil srv : server_trace [] srv srv
  | trace_cons l ls srv1 srv2 srv3 :
      labelled_step l srv1 srv2 → server_trace ls srv2 srv3 → server_trace (l :: ls) srv1 srv3.

Lemma rtc_trace srv srv' : rtc server_step srv srv' ↔ ∃ ls, server_trace ls srv srv'.
Proof.
  split.
  - induction 1 as [srv|srv1 srv2 srv3 [l Hl] _ [ls Hls]]; [eexists; constructor|].
    exists (l :: ls). by eapply trace_cons.
  - intros [ls Hls]. induction Hls as [|l ls srv1 srv2 srv3 Hl _ IH]; [done|].
    eapply rtc_l; [by exists l|done].
Qed.

Lemma wp_find_client fd srv boxes :
  server_view srv boxes →
  wp (find_client fd) srv (λ r srv', server_view srv' boxes ∧ keeps srv srv' ∧
    sv_clients srv' = sv_clients srv ∧
    ∀ cid, r = Some cid ↔ ∃ c, sv_clients srv !! cid = Some c ∧ cl_fd c = fd).
Proof.
  intros (qs & Hinv & ->). unfold find_client. wp_step.
  destruct (vi_fds _ _ _ Hinv) as (fm & Htbl & Hfm).
  pose proof (inv_search cmp_fd hash_fd cmp_fd_eq _ fm fd Htbl) as Hr.
  apply returns_eq in Hr as ([r tbl] & Hrun & -> & Htbl'). apply wp_bind, wp_lift.
  rewrite Hrun. simpl. apply wp_bind, wp_modify, wp_ret. split_and!.
  - exists qs. split; [|done]. split; try apply Hinv; try done. by exists fm.
  - by split.
  - done.
  - intros cid. rewrite (Hfm fd cid), lookup_fmap. destruct (sv_clients srv !! cid) as [c|]; simpl.
    + split; [intros [= <-]; by exists c|by intros (c' & [= <-] & <-)].
    + split; [done|by intros (? & ? & _)].
Qed.

(** ** The abstract server *)

Inductive labelled_abs : label → view → view → Prop :=
  | as_silent v : labelled_abs Internal v v
  | as_connect v cid :
      vw_boxes v !! cid = None →
      labelled_abs Internal v (View (<[cid := []]> (vw_boxes v)) (vw_member v))
  | as_disconnect v cid m' :
      is_Some (vw_boxes v !! cid) → (∀ n x, m' n x ↔ vw_member v n x ∧ x ≠ cid) →
      labelled_abs (Closed cid) v (View (delete cid (vw_boxes v)) m')
  | as_command cid j bin rc v v' :
      is_Some (vw_boxes v !! cid) → rc = 0 ∨ rc = -1 →
      abs_command cid j bin (command_of j) rc v v' →
      labelled_abs (Commanded (Command cid j bin rc)) v v'.

Definition abs_step (v v' : view) : Prop := ∃ l, labelled_abs l v v'.

Lemma step_simulates l srv srv' v :
  18 ≤ b ≤ 47 → sizeof_client ≤ 2 ^ b → labelled_step l srv srv' → views srv v →
  ∃ v', views srv' v' ∧ labelled_abs l v v'.
Proof.
  intros Hb Hsize Hstep Hvs. pose proof Hvs as [Hv Hm].
  destruct Hstep as [o fd family ws protocol r srv srv' Hs Hg Hfresh Hlen Hmany Hrun
    |o env cid j bin rc srv srv' Hs Hg Hcid Hcmd Hrun|cid c srv srv' Hc Hfree Hrun
    |fd r srv srv' Hrun|cid c s srv Hc Hact].
  - assert (protocol = DIME_WS → handshake_ends sha1 encode_block (sub o 2) ws) as Hws.
    { eapply (accept_handshake sha1 encode_block sizeof_client o fd family); [by apply Hg| |done].
      destruct (client_init_spec (sub o 1) (2 ^ b) fd family) as (c & -> & _); eauto with oracle.
      change 262144 with (2 ^ 18). apply Z.pow_le_mono_r; lia. }
    pose proof (wp_accept sha1 encode_block sizeof_client b o fd family ws protocol srv _ Hb Hs Hg
      Hsize Hv Hfresh Hlen Hmany Hws) as Hr. unfold wp in Hr. rewrite Hrun in Hr.
    destruct Hr as [(_ & _ & ->)|(_ & Hv' & Hmem & _)]; [exists v; split; [done|constructor]|].
    eexists. split; [|apply (as_connect v (sv_next srv))].
    + split; [done|]. intros n x. by rewrite (Hm n x), (Hmem n x).
    + destruct (vw_boxes v !! sv_next srv) eqn:E; [|done].
      destruct Hv as (qs & Hinv & Hboxes). destruct (inv_fresh _ _ _ Hinv) as (Hnone & _).
      assert (is_Some (sv_clients srv !! sv_next srv)) as [? ?]; [|congruence].
      apply (server_view_dom srv (vw_boxes v)); [by exists qs|eauto].
  - pose proof (dispatch_performs o env cid j bin srv v ltac:(lia) Hs Hg Hvs Hcid Hcmd) as Hr.
    specialize (Hr ltac:(intros _; right; by rewrite Hrun)).
    unfold wp in Hr. rewrite Hrun in Hr. destruct Hr as (Hrc & _ & _ & v' & Hvs' & Habs).
    exists v'. split; [done|]. eapply as_command; [|done..].
    by apply (server_view_dom _ _ _ Hv).
  - pose proof (wp_close_client srv _ cid c Hv Hc Hfree) as Hr. unfold wp in Hr.
    rewrite Hrun in Hr. destruct Hr as (Hv' & _ & Hmem). eexists.
    split; [|eapply (as_disconnect v cid (member srv'))].
    + by split.
    + apply (server_view_dom _ _ _ Hv). eauto.
    + intros n x. by rewrite (Hm n x), (Hmem n x).
  - pose proof (wp_find_client fd srv _ Hv) as Hr. unfold wp in Hr.
    rewrite Hrun in Hr. destruct Hr as (Hv' & Hk & _). exists v. split; [|constructor].
    split; [done|]. intros n x. by rewrite (Hm n x), (keeps_member _ _ _ _ Hk).
  - exists v. split; [|constructor]. split; [|done]. by apply (view_put_sock srv _ cid c s);
      [..|apply socket_activity_wf].
Qed.

Lemma runs_simulate srv srv' v :
  18 ≤ b ≤ 47 → sizeof_client ≤ 2 ^ b → rtc server_step srv srv' → views srv v →
  ∃ v', views srv' v' ∧ rtc abs_step v v'.
Proof.
  intros Hb Hsize Hrun. revert v. induction Hrun as [srv|srv srv1 srv2 [l Hstep] _ IH]; intros v Hv.
  { by exists v. }
  destruct (step_simulates _ _ _ _ Hb Hsize Hstep Hv) as (v1 & Hv1 & Ha).
  destruct (IH _ Hv1) as (v2 & Hv2 & Hr). exists v2. split; [done|]. eapply rtc_l; [by exists l|done].
Qed.

Definition view0 : view := View ∅ (λ _ _, False).

Lemma views_init o daemon fork srv ls :
  dime_server_init o daemon fork = InitDone srv ls → views srv view0.
Proof.
  intros [[Hv Hm]%init_tables_view _]%server_init_tables. split; [done|]. intros n x.
  split; [done|apply Hm].
Qed.

End props.
