(* ===== verification/ServerLoop.v ===== *)
(** * The loop of the server

    One turn of the loop around [select] is a run of the steps of
    [ServerProps], and it always comes to an end, however many messages have
    arrived. What the commands rely on is assumed of the states they are run
    in: [serve_ok], [turn_ok] and the like follow the code and say at which
    points. *)

From S2P Require Import Prelude Bytes Deque Ringbuffer Json Socket SocketSpec SocketWf Table.
From S2P Require Import TableSpec TableMap Hash State Client WebSocket Server Invariant.
From S2P Require Import ClientSpec ClientPush ClientDeliver Inbox Sound ClientSend ClientQueue.
From S2P Require Import ClientGroups ServerSpec ServerProps.
From Stdlib Require String.

Section loop.
Context `{Jansson} {b : Z} `{!JanssonLaws (2 ^ b)}.
Variable strerror : string.
Variables sha1 encode_block : list Z → list Z.
Variable sizeof_client : Z.
Variable fds : list (Z * dime_protocol).
Implicit Types (o : oracle) (cid gid mid : Z) (srv : dime_server).

Notation step := (server_step (b:=b) strerror sha1 encode_block sizeof_client).

Definition put_sock cid c s srv : dime_server :=
  sv_set_clients srv (<[cid := cl_set_sock c s]> (sv_clients srv)).

Lemma lookup_put_sock cid c s srv : sv_clients (put_sock cid c s srv) !! cid = Some (cl_set_sock c s).
Proof. apply lookup_insert_eq. Qed.

(** What is left of a client as long as it is there: its descriptor, and
    whether libev watches it. *)
Definition kept (c : dime_client) : Z * bool := (cl_fd c, ev_watched (cl_sock c)).

Definition fd_map srv : gmap Z Z := cl_fd <$> sv_clients srv.

Lemma kept_sock c s : sock_kept s = sock_kept (cl_sock c) → kept (cl_set_sock c s) = kept c.
Proof. intros [= _ Hev]. unfold kept. simpl. by rewrite Hev. Qed.

Lemma kept_fds srv : fd_map srv = fst <$> (kept <$> sv_clients srv).
Proof. unfold fd_map. rewrite <-map_fmap_compose. by apply map_fmap_ext. Qed.

Lemma kept_commands srv srv' :
  cl_fd <$> sv_clients srv' = cl_fd <$> sv_clients srv →
  inbufs <$> sv_clients srv' = inbufs <$> sv_clients srv →
  kept <$> sv_clients srv' = kept <$> sv_clients srv.
Proof.
  rewrite !map_eq_iff. intros Hfd Hin x. specialize (Hfd x). specialize (Hin x).
  rewrite !lookup_fmap in Hfd. rewrite !lookup_fmap in Hin. rewrite !lookup_fmap.
  destruct (sv_clients srv' !! x), (sv_clients srv !! x); simpl in *; try done.
  injection Hfd as Hfd. injection Hin as _ _ _ Hev. unfold kept. by rewrite Hfd, Hev.
Qed.

(** ** Messages *)

(** The bytes in the inbuffers. *)
Definition pending (s : dime_socket) : Z :=
  dime_ringbuffer_len (so_rbuf s) + if so_ws s then dime_ringbuffer_len (so_ws_rbuf s) else 0.

(** No size wraps, and every command can rely on what it needs. *)
Fixpoint serve_ok (fuel : nat) o (env : nat → tls_env) cid srv : Prop :=
  match fuel with
  | O => True
  | S fuel => ∀ c, sv_clients srv !! cid = Some c → sizes_fit (cl_sock c) ∧
      match dime_socket_pop (sub o 0) (cl_sock c) with
      | Ret (n, Some (j, bin), s) =>
          (zlen bin ≤ MAXOBJ → command_ok (b:=b) j bin (put_sock cid c s srv)) ∧
          devices_ok (b:=b) j (put_sock cid c s srv) ∧
          ∀ rc srv', dispatch strerror (sub o 1) (env O) cid j bin (put_sock cid c s srv)
            = Ret (rc, srv') → serve_ok fuel (sub o 2) (λ k, env (S k)) cid srv'
      | _ => True
      end
  end.

(** Popping takes at least 12 bytes off the inbuffers for a message. *)
Lemma pop_pending o s :
  oracle_sane o → sock_wf s →
  match dime_socket_pop o s with
  | Ret (n, Some (_, bin), s') => 0 < n ∧ pending s' + 12 ≤ pending s ∧ zlen bin ≤ MAXOBJ
  | Ret (n, None, _) => n ≤ 0
  | Undef => ¬ sizes_fit s
  | Diverge => False
  end ∧ 0 ≤ pending s.
Proof.
  intros Hs (rb & wb & wsb & Hrep & Hb1 & Hb2).
  assert (∀ s rb wb wsb, sock_rep s rb wb wsb →
    pending s = zlen rb + if so_ws s then zlen wsb else 0) as Hp.
  { clear. intros s rb wb wsb [[_ _ [Hr _] _ _ _] _ Hws _]. unfold pending, dime_ringbuffer_len.
    rewrite Hr. destruct (so_ws s); [|done]. by rewrite (proj1 (rr_len _ _ (Hws eq_refl))). }
  assert (sock_rep s rb wb (if so_ws s then wsb else [])) as Hrep'.
  { destruct Hrep as [? ? Hws ? ?]. split; [done..| |done|done]. intros E. rewrite E. by apply Hws. }
  pose proof (zlen_nonneg rb). pose proof (zlen_nonneg wsb). split.
  - pose proof (socket_pop_any o s rb wb _ Hs Hrep' Hb1) as Ha.
    destruct (dime_socket_pop o s) as [[[n [[j bin]|]] s']| |]; [| | |apply Ha].
    + destruct Ha as (rb' & wsb' & Hr' & Hon & _ & _ & _ & ? & Hle & ?).
      { intros E. rewrite E. by apply Hb2. }
      split; [done|]. split; [|done]. rewrite (Hp _ _ _ _ Hr'), (Hp _ _ _ _ Hrep), Hon.
      pose proof (zlen_nonneg wsb'). destruct (so_ws s); rewrite ?zlen_nil in Hle; lia.
    + destruct Ha as (rb' & wsb' & _ & _ & _ & _ & _ & ? & _); [|done].
      intros E. rewrite E. by apply Hb2.
    + intros Hfit. eapply Hfit; [exact Hrep'|]. apply Ha. intros E. rewrite E. by apply Hb2.
    + intros E. rewrite E. by apply Hb2.
  - rewrite (Hp _ _ _ _ Hrep). destruct (so_ws s); lia.
Qed.

Lemma steps_view srv srv' :
  18 ≤ b ≤ 47 → sizeof_client ≤ 2 ^ b → server_ok srv → rtc step srv srv' → server_ok srv'.
Proof.
  intros Hb Hsize [boxes Hv]%server_ok_view Hrun.
  destruct (runs_simulate strerror sha1 encode_block sizeof_client srv srv'
    (View boxes (member srv)) Hb Hsize Hrun ltac:(by split)) as (v' & [Hv' _] & _).
  by eapply server_view_ok.
Qed.

Lemma ok_sock srv cid c : server_ok srv → sv_clients srv !! cid = Some c → sock_wf (cl_sock c).
Proof. intros (qs & Hinv). by apply (vi_socks _ _ _ Hinv). Qed.

Hypothesis Hb : 18 ≤ b ≤ 47.
Hypothesis Hsize : sizeof_client ≤ 2 ^ b.

Lemma serve_steps fuel : ∀ o env cid srv c,
  oracle_sane o → grants o (2 ^ b) → server_ok srv → sv_clients srv !! cid = Some c →
  pending (cl_sock c) < Z.of_nat fuel → serve_ok fuel o env cid srv →
  wp (serve_messages strerror fuel o env cid) srv (λ _ srv', rtc step srv srv' ∧
    kept <$> sv_clients srv' = kept <$> sv_clients srv).
Proof.
  induction fuel as [|fuel IH]; intros o env cid srv c Hs Hg Hok Hc Hfuel Hserve.
  { destruct (pop_pending o (cl_sock c) Hs (ok_sock _ _ _ Hok Hc)) as [_ ?]. lia. }
  cbn [serve_messages]. wp_step. apply wp_bind, wp_lift.
  destruct (pop_pending (sub o 0) (cl_sock c) ltac:(eauto with oracle) (ok_sock _ _ _ Hok Hc))
    as [Hpop Hpos].
  destruct (Hserve c Hc) as [Hfit Hgo]. clear Hserve.
  destruct (dime_socket_pop (sub o 0) (cl_sock c)) as [[[n m] s]| |] eqn:Epop; [|by destruct Hpop|done].
  simpl. apply wp_bind, wp_modify. fold (put_sock cid c s srv).
  assert (step srv (put_sock cid c s srv)) as Hstep.
  { apply step_socket; [done|]. eapply act_pop; [|exact Epop]. eauto with oracle. }
  assert (kept <$> sv_clients (put_sock cid c s srv) = kept <$> sv_clients srv) as Hfd.
  { eapply fmap_insert_same; [done|]. by eapply kept_sock, socket_pop_kept. }
  destruct m as [[j bin]|]; [|apply wp_ret; split; [by apply rtc_once|done]].
  destruct Hpop as (_ & Hle & Hbin). destruct Hgo as (Hcmd & Hdev & Hrest). specialize (Hcmd Hbin).
  assert (server_ok (put_sock cid c s srv)) as Hok1 by (eapply steps_view; try done; by apply rtc_once).
  destruct (server_ok_view _ Hok1) as [boxes Hv].
  assert (is_Some (sv_clients (put_sock cid c s srv) !! cid)) as Hcid
    by (rewrite lookup_put_sock; eauto).
  apply wp_bind. pose proof (dispatch_performs (b:=b) strerror (sub o 1) (env O) cid j bin _
    (View boxes (member (put_sock cid c s srv))) ltac:(lia) ltac:(eauto with oracle)
    ltac:(eauto with oracle) ltac:(by split) Hcid Hcmd
    ltac:(intros ?; left; eauto with oracle)) as Hd.
  apply returns_eq in Hd as ([rc srv2] & Hrun & _ & Hfd2 & Hin & _).
  unfold wp. rewrite Hrun. cbn [returns].
  assert (step (put_sock cid c s srv) srv2) as Hstep2.
  { eapply step_command; [| |done|exact Hcmd|exact Hrun]; eauto with oracle. }
  assert ((inbufs <$> sv_clients srv2) !! cid = Some (inbufs (cl_set_sock c s))) as Hc2
    by by rewrite Hin, lookup_fmap, lookup_put_sock.
  rewrite lookup_fmap in Hc2. destruct (sv_clients srv2 !! cid) as [c2|] eqn:Ec2; [|done].
  injection Hc2 as Hws Hrb Hwsb.
  eapply wp_mono; [apply (IH (sub o 2) _ cid srv2 c2); eauto with oracle|].
  - eapply steps_view; try done. by apply rtc_once.
  - unfold pending in *. rewrite Hws, Hrb, Hwsb. simpl. lia.
  - by eapply Hrest.
  - intros go srv3 [Hr Hfd3]. split; [|rewrite Hfd3; etransitivity; [by apply kept_commands|done]].
    eapply rtc_l; [exact Hstep|]. by eapply rtc_l.
Qed.

(** ** Connections *)

(** The queue of a client that goes away is not exactly full. *)
Definition close_ok cid srv : Prop :=
  ∀ c, sv_clients srv !! cid = Some c → dime_deque_len (cl_queue c) < dq_cap (cl_queue c).

Lemma close_steps cid c srv :
  server_ok srv → sv_clients srv !! cid = Some c → close_ok cid srv →
  wp (close_client cid) srv (λ _ srv', step srv srv' ∧
    sv_clients srv' = delete cid (sv_clients srv)).
Proof.
  intros [boxes Hv]%server_ok_view Hc Hfree.
  pose proof (wp_close_client srv boxes cid c Hv Hc (Hfree _ Hc)) as Hr.
  apply returns_eq in Hr as ([[] srv'] & Hrun & _ & Hcl & _). unfold wp. rewrite Hrun.
  split; [|done]. by eapply step_close; [| |exact Hrun]; [|apply Hfree].
Qed.

Definition readable_ok o (recv : option (list Z)) (env : nat → tls_env) cid srv : Prop :=
  (∀ buf, recv = Some buf → zlen buf ≤ RECVBUFLEN ∧ Forall byte buf) ∧
  ∀ c n s, sv_clients srv !! cid = Some c →
    dime_socket_recvpartial (sub o 0) (cl_sock c) recv = Ret (n, s) →
    if n <=? 0 then close_ok cid srv
    else serve_ok (serve_fuel s) (sub o 1) env cid (put_sock cid c s srv).

(** What a run of steps leaves of the clients: all of them, except one that is
    closed. *)
Definition gone (closed : bool) cid srv srv' : Prop :=
  kept <$> sv_clients srv'
  = if closed then delete cid (kept <$> sv_clients srv) else kept <$> sv_clients srv.

Lemma gone_fds closed cid srv srv' :
  gone closed cid srv srv' →
  fd_map srv' = if closed then delete cid (fd_map srv) else fd_map srv.
Proof.
  unfold gone. rewrite !kept_fds. intros ->. destruct closed; [|done]. by rewrite fmap_delete.
Qed.

Lemma readable_steps o recv env cid c srv :
  oracle_sane o → grants o (2 ^ b) → server_ok srv → sv_clients srv !! cid = Some c →
  readable_ok o recv env cid srv →
  wp (client_readable strerror o recv env cid) srv (λ r srv', rtc step srv srv' ∧
    gone (match r with ReadClosed => true | _ => false end) cid srv srv').
Proof.
  intros Hs Hg Hok Hc [Hrecv Hgo]. unfold client_readable. wp_step. apply wp_bind, wp_lift.
  pose proof (recvpartial_wf (sub o 0) (cl_sock c) recv ltac:(eauto with oracle)
    (ok_sock _ _ _ Hok Hc) Hrecv) as Hr.
  apply returns_eq in Hr as ([n s] & Hrun & Hwf & _). rewrite Hrun. simpl.
  apply wp_bind, wp_modify. fold (put_sock cid c s srv). specialize (Hgo _ _ _ Hc Hrun).
  assert (step srv (put_sock cid c s srv)) as Hstep.
  { apply step_socket; [done|]. eapply act_recv; [|exact Hrecv|exact Hrun]. eauto with oracle. }
  assert (server_ok (put_sock cid c s srv)) as Hok1 by (eapply steps_view; try done; by apply rtc_once).
  assert (kept <$> sv_clients (put_sock cid c s srv) = kept <$> sv_clients srv) as Hfd.
  { eapply fmap_insert_same; [done|]. by eapply kept_sock, recvpartial_kept. }
  destruct (n <=? 0).
  - apply wp_bind. eapply wp_mono; [apply (close_steps cid (cl_set_sock c s)); [done| |]|].
    + apply lookup_put_sock.
    + intros c' Hc'. rewrite lookup_put_sock in Hc'. injection Hc' as <-. exact (Hgo c Hc).
    + intros [] srv2 [Hstep2 Hcl]. apply wp_ret. split; [by eapply rtc_l, rtc_once|].
      unfold gone. by rewrite Hcl, fmap_delete, Hfd.
  - apply wp_bind. eapply wp_mono.
    { apply (serve_steps (serve_fuel s) (sub o 1) env cid _ (cl_set_sock c s)); eauto with oracle.
      - apply lookup_put_sock.
      - unfold serve_fuel. fold (pending s). simpl.
        destruct (pop_pending o s Hs Hwf) as [_ Hpos]. lia. }
    intros go srv2 [Hr Hfd2]. apply wp_ret. split; [by eapply rtc_l|].
    unfold gone. destruct go; congruence.
Qed.

Definition writable_ok o (send : list Z → Z) cid srv : Prop :=
  ∀ c n sent s, sv_clients srv !! cid = Some c →
    dime_socket_sendpartial (at_ o 0) (cl_sock c) send = Ret (n, sent, s) → n < 0 → close_ok cid srv.

Lemma writable_steps o send cid c srv :
  server_ok srv → sv_clients srv !! cid = Some c → writable_ok o send cid srv →
  wp (client_writable o send cid) srv (λ open srv', rtc step srv srv' ∧
    gone (negb open) cid srv srv').
Proof.
  intros Hok Hc Hgo. unfold client_writable. wp_step. apply wp_bind, wp_lift.
  pose proof (sendpartial_wf (at_ o 0) (cl_sock c) send (ok_sock _ _ _ Hok Hc)) as Hr.
  apply returns_eq in Hr as ([[n sent] s] & Hrun & _ & _). rewrite Hrun. simpl.
  apply wp_bind, wp_modify. fold (put_sock cid c s srv). specialize (Hgo _ _ _ _ Hc Hrun).
  assert (step srv (put_sock cid c s srv)) as Hstep.
  { apply step_socket; [done|]. by eapply act_send. }
  assert (server_ok (put_sock cid c s srv)) as Hok1 by (eapply steps_view; try done; by apply rtc_once).
  assert (kept <$> sv_clients (put_sock cid c s srv) = kept <$> sv_clients srv) as Hfd.
  { eapply fmap_insert_same; [done|]. by eapply kept_sock, sendpartial_kept. }
  destruct (Z.ltb_spec n 0).
  - apply wp_bind. eapply wp_mono; [apply (close_steps cid (cl_set_sock c s)); [done| |]|].
    + apply lookup_put_sock.
    + intros c' Hc'. rewrite lookup_put_sock in Hc'. injection Hc' as <-. exact (Hgo ltac:(done) c Hc).
    + intros [] srv2 [Hstep2 Hcl]. apply wp_ret. split; [by eapply rtc_l, rtc_once|].
      unfold gone. by rewrite Hcl, fmap_delete, Hfd.
  - apply wp_ret. split; [by apply rtc_once|done].
Qed.

(** ** One descriptor *)

(** Every listening socket and every client is watched, and no client has the
    descriptor of a listening socket. *)
Record watched (lp : loop_state) (fdm : gmap Z Z) : Prop := {
  wt_listen fd : fd ∈ fds.*1 → fd ∈ lp_rfds lp ∧ fd < lp_maxfd lp;
  wt_client cid fd : fdm !! cid = Some fd →
    fd ∈ lp_rfds lp ∧ fd < lp_maxfd lp ∧ fd ∉ fds.*1;
}.

Lemma watched_same lp lp' srv srv' :
  watched lp (fd_map srv) → sv_clients srv' = sv_clients srv → lp_rfds lp' = lp_rfds lp →
  lp_maxfd lp' = lp_maxfd lp → watched lp' (fd_map srv').
Proof. intros [Hl Hw] Hcl Hr Hm. unfold fd_map. rewrite Hcl. split; rewrite Hr, Hm; done. Qed.

Lemma watched_unwatch lp srv cid c :
  server_ok srv → sv_clients srv !! cid = Some c → watched lp (fd_map srv) →
  watched (unwatch (cl_fd c) lp) (delete cid (fd_map srv)).
Proof.
  intros (qs & Hinv) Hc [Hl Hw]. split.
  - intros fd Hfd. destruct (Hl fd Hfd) as [Hin Hlt]. split; [|done]. simpl.
    apply elem_of_difference. split; [done|]. rewrite elem_of_singleton. intros ->.
    destruct (Hw cid (cl_fd c)) as (_ & _ & Hno); [|done]. unfold fd_map. by rewrite lookup_fmap, Hc.
  - intros x fd [Hne Hx]%lookup_delete_Some. destruct (Hw x fd Hx) as (Hin & Hlt & Hno).
    split_and!; [|done..]. simpl. apply elem_of_difference. split; [done|].
    rewrite elem_of_singleton. intros ->. apply Hne. unfold fd_map in Hx.
    rewrite lookup_fmap in Hx. destruct (sv_clients srv !! x) as [cx|] eqn:Ex; [|done].
    injection Hx as Hx. by apply (fds_inj _ _ _ _ _ _ _ Hinv Hc Ex).
Qed.

Lemma watched_watch lp fdm cid fd :
  watched lp fdm → 0 ≤ fd < FD_SETSIZE → fd ∉ fds.*1 →
  ∃ lp', watch fd lp = Ret lp' ∧ watched lp' (<[cid := fd]> fdm).
Proof.
  intros [Hl Hw] Hfd Hno. unfold watch. rewrite (proj2 (Z.leb_le _ _)), (proj2 (Z.ltb_lt _ _)) by lia.
  eexists. split; [done|]. split; simpl.
  - intros fd' Hin. destruct (Hl fd' Hin). set_solver by lia.
  - intros x fd' [[_ <-]|[_ Hx]]%lookup_insert_Some; [split_and!; [set_solver|lia|done]|].
    destruct (Hw x fd' Hx) as (? & ? & ?). split_and!; [set_solver|lia|done].
Qed.

(** The descriptor is new, there is room in the tables, and who connects to a
    WebSocket sends an HTTP request or breaks off with an error. *)
Definition connect_ok o fd (ws : nat * ws_env) (protocol : dime_protocol) srv : Prop :=
  (∀ cid c, sv_clients srv !! cid = Some c → cl_fd c ≠ fd) ∧
  dime_table_len (sv_fd2clnt srv) < 2 ^ (b - 6) ∧ Z.of_nat (size (sv_clients srv)) + 1 < 2 ^ 32 ∧
  (protocol = DIME_WS → ws_peer sha1 encode_block ws).

Definition accept_ok o (accepted : option (Z * address_family)) (ws : nat * ws_env)
    (protocol : dime_protocol) srv : Prop :=
  ∀ fd family, accepted = Some (fd, family) → 0 ≤ fd < FD_SETSIZE ∧ fd ∉ fds.*1 ∧
    connect_ok o fd ws protocol srv.

Lemma accept_steps o accepted ws protocol srv lp :
  oracle_sane o → grants o (2 ^ b) → server_ok srv → accept_ok o accepted ws protocol srv →
  watched lp (fd_map srv) →
  wp (accept_client sha1 encode_block sizeof_client o accepted ws protocol) srv (λ r srv',
    rtc step srv srv' ∧
    match r with
    | None => False
    | Some None => watched lp (fd_map srv')
    | Some (Some fd) => ∃ lp', watch fd lp = Ret lp' ∧ watched lp' (fd_map srv')
    end).
Proof.
  intros Hs Hg [boxes Hv]%server_ok_view Hok Hw. destruct accepted as [[fd family]|].
  - destruct (Hok _ _ eq_refl) as (Hfd0 & Hfd1 & Hfresh & Hlen & Hmany & Hws).
    pose proof (wp_accept sha1 encode_block sizeof_client b o fd family ws protocol srv boxes Hb Hs Hg
      Hsize Hv Hfresh Hlen Hmany (peer_handshake sha1 encode_block o ws protocol Hs Hws)) as Hr.
    apply returns_eq in Hr as ([r srv'] & Hrun & Hr). unfold wp. rewrite Hrun. split.
    { apply rtc_once. by eapply step_accept; [..|exact Hrun]. }
    destruct Hr as [(-> & _ & ->)|(-> & _ & _ & c & Hcl & Hfd)]; [done|].
    unfold fd_map. rewrite Hcl, fmap_insert, Hfd. by apply watched_watch.
  - unfold accept_client, at_. rewrite Hg by done. by apply wp_ret.
Qed.

Definition handle_readable_ok o (env : turn_env) (i : Z) srv : Prop :=
  ∀ r srv1, find_client i srv = Ret (r, srv1) →
    match r with
    | None => ∀ j p, find_index (λ f, f.1 =? i) fds = Some j → fds !! j = Some p →
        accept_ok (sub o 0) (tn_accept env i) (tn_ws env i) p.2 srv1
    | Some cid => readable_ok (sub o 1) (tn_recv env i) (tn_tls env i) cid srv1
    end.

(** The client of a descriptor. *)
Definition client_of (i cid : Z) srv : Prop := ∃ c, sv_clients srv !! cid = Some c ∧ cl_fd c = i.

Lemma find_steps i srv :
  server_ok srv →
  wp (find_client i) srv (λ r srv', step srv srv' ∧ server_ok srv' ∧
    sv_clients srv' = sv_clients srv ∧ ∀ cid, r = Some cid ↔ client_of i cid srv).
Proof.
  intros [boxes Hv]%server_ok_view. pose proof (wp_find_client i srv boxes Hv) as Hr.
  apply returns_eq in Hr as ([r srv1] & Hrun & Hv1 & _ & Hcl & Hr). unfold wp. rewrite Hrun.
  split; [by eapply step_find|]. split; [by eapply server_view_ok|]. by split.
Qed.

Lemma handle_readable_steps o env i srv lp :
  oracle_sane o → grants o (2 ^ b) → server_ok srv → handle_readable_ok o env i srv →
  watched lp (fd_map srv) →
  wp (handle_readable strerror sha1 encode_block sizeof_client fds o env i lp) srv (λ r srv',
    rtc step srv srv' ∧
    match r with
    | Some (lp', known, _) => watched lp' (fd_map srv') ∧
        ∀ cid, known = Some cid → client_of i cid srv'
    | None => True
    end).
Proof.
  intros Hs Hg Hok Hgo Hw. unfold handle_readable. apply wp_bind.
  pose proof (find_steps i srv Hok) as Hf.
  apply returns_eq in Hf as ([r srv1] & Hrun & Hstep & Hok1 & Hcl & Hr). unfold wp at 1.
  rewrite Hrun. cbn [returns]. specialize (Hgo _ _ Hrun).
  assert (watched lp (fd_map srv1)) as Hw1 by (unfold fd_map; by rewrite Hcl).
  destruct r as [cid|].
  - destruct (proj1 (Hr cid) eq_refl) as (c & Hc & Hfd). rewrite <-Hcl in Hc. wp_step.
    apply wp_bind. eapply wp_mono; [apply (readable_steps (sub o 1) _ _ cid c); eauto with oracle|].
    intros r srv2 [Hrun2 Hgone]. apply gone_fds in Hgone.
    assert (client_of i cid srv1) as Hof by by exists c.
    destruct r; apply wp_ret; (split; [by eapply rtc_l|]); [|split|done].
    + rewrite Hgone. split; [done|]. intros x [= <-]. destruct Hof as (c1 & Hc1 & Hf1).
      assert (fd_map srv2 !! cid = Some i) as Hi.
      { rewrite Hgone. unfold fd_map. by rewrite lookup_fmap, Hc1, <-Hf1. }
      unfold fd_map in Hi. rewrite lookup_fmap in Hi.
      destruct (sv_clients srv2 !! cid) as [c2|] eqn:E; [|done]. injection Hi as Hi. by exists c2.
    + rewrite Hgone. by apply watched_unwatch.
    + done.
  - destruct (find_index _ fds) as [j|] eqn:Ej.
    2:{ apply wp_ret. split; [by apply rtc_once|]. by split. }
    destruct (find_index_Some _ _ _ Ej) as ([fd protocol] & Hj & _). rewrite Hj. apply wp_bind.
    eapply wp_mono; [apply (accept_steps (sub o 0) _ _ _ srv1 lp); eauto with oracle|].
    { by apply (Hgo j (fd, protocol)). }
    intros [[fd'|]|] srv2 [Hrun2 Hw2]; [| |done].
    + destruct Hw2 as (lp' & Hlp & Hw2). apply wp_bind, wp_lift. rewrite Hlp. apply wp_ret.
      split; [by eapply rtc_l|]. by split.
    + apply wp_ret. split; [by eapply rtc_l|]. by split.
Qed.

Definition handle_writable_ok o (env : turn_env) (i : Z) srv : Prop :=
  ∀ cid, client_of i cid srv → writable_ok o (tn_send env i) cid srv.

Lemma handle_writable_steps o env i known srv lp :
  server_ok srv → handle_writable_ok o env i srv → watched lp (fd_map srv) →
  (∀ cid, known = Some cid → client_of i cid srv) →
  wp (handle_writable o env i known lp) srv (λ lp' srv', rtc step srv srv' ∧
    watched lp' (fd_map srv')).
Proof.
  intros Hok Hgo Hw Hknown. unfold handle_writable.
  assert (∀ cid srv1, server_ok srv1 → rtc step srv srv1 → sv_clients srv1 = sv_clients srv →
    client_of i cid srv →
    wp (c ← get_client cid; open ← client_writable o (tn_send env i) cid;
        mret (if open : bool then lp else unwatch (cl_fd c) lp)) srv1
      (λ lp' srv', rtc step srv srv' ∧ watched lp' (fd_map srv'))) as Hwrite.
  { intros cid srv1 Hok1 Hrun1 Hcl Hof. pose proof (Hgo _ Hof) as Hgo1.
    destruct Hof as (c & Hc & _). rewrite <-Hcl in Hc. wp_step. apply wp_bind.
    eapply wp_mono; [apply (writable_steps o _ cid c); [done|done|]|].
    { intros c' n sent s Hc' Hsend Hn c1 Hc1. rewrite Hcl in Hc', Hc1. exact (Hgo1 _ _ _ _ Hc' Hsend Hn _ Hc1). }
    intros open srv2 [Hrun2 Hgone]. apply wp_ret. split; [by eapply rtc_trans|].
    apply gone_fds in Hgone. rewrite Hgone.
    assert (watched lp (fd_map srv1)) as Hw1 by (unfold fd_map; by rewrite Hcl).
    destruct open; [done|]. by apply watched_unwatch. }
  apply wp_bind. destruct known as [cid|].
  - apply wp_ret. apply Hwrite; [done|apply rtc_refl|done|by apply Hknown].
  - pose proof (find_steps i srv Hok) as Hf.
    apply returns_eq in Hf as ([r srv1] & Hrun & Hstep & Hok1 & Hcl & Hr). unfold wp at 1.
    rewrite Hrun. cbn [returns]. destruct r as [cid|].
    + apply Hwrite; [done|by apply rtc_once|done|by apply Hr].
    + apply wp_ret. split; [by apply rtc_once|]. unfold fd_map. by rewrite Hcl.
Qed.

Definition handle_fd_ok o (env : turn_env) (i : Z) lp srv : Prop :=
  (i ∈ tn_readable env → handle_readable_ok (sub o 0) env i srv) ∧
  (i ∉ tn_readable env → i ∈ tn_writable env → handle_writable_ok (sub o 1) env i srv) ∧
  ∀ lp' known srv1,
    handle_readable strerror sha1 encode_block sizeof_client fds (sub o 0) env i lp srv
      = Ret (Some (lp', known, true), srv1) →
    i ∈ tn_readable env → i ∈ tn_writable env → handle_writable_ok (sub o 1) env i srv1.

Lemma handle_fd_steps o env i lp srv :
  oracle_sane o → grants o (2 ^ b) → server_ok srv → handle_fd_ok o env i lp srv →
  watched lp (fd_map srv) →
  wp (handle_fd strerror sha1 encode_block sizeof_client fds o env i lp) srv (λ r srv',
    rtc step srv srv' ∧ match r with Some lp' => watched lp' (fd_map srv') | None => True end).
Proof.
  intros Hs Hg Hok (Hread & Hwrite & Hboth) Hw. unfold handle_fd.
  assert (∀ lp1 known srv1, rtc step srv srv1 → watched lp1 (fd_map srv1) →
    (∀ cid, known = Some cid → client_of i cid srv1) →
    (i ∈ tn_writable env → handle_writable_ok (sub o 1) env i srv1) →
    ∀ go : bool,
    wp (if go && bool_decide (i ∈ tn_writable env) then
          lp ← handle_writable (sub o 1) env i known lp1; mret (Some lp)
        else mret (Some lp1)) srv1 (λ r srv', rtc step srv srv' ∧
      match r with Some lp' => watched lp' (fd_map srv') | None => True end)) as Hsecond.
  { intros lp1 known srv1 Hrun1 Hw1 Hknown Hgo [|]; [|by apply wp_ret]. simpl.
    case_bool_decide as Hi; [|by apply wp_ret]. apply wp_bind. eapply wp_mono.
    { apply (handle_writable_steps (sub o 1) env i known srv1 lp1); [|by apply Hgo|done..].
      by eapply steps_view. }
    intros lp2 srv2 [Hrun2 Hw2]. apply wp_ret. split; [by eapply rtc_trans|done]. }
  apply wp_bind. destruct (decide (i ∈ tn_readable env)) as [Hi|Hi].
  - pose proof (handle_readable_steps (sub o 0) env i srv lp ltac:(eauto with oracle)
      ltac:(eauto with oracle) Hok (Hread Hi) Hw) as Hr.
    apply returns_eq in Hr as ([r srv1] & Hrun & Hrun1 & Hr). unfold wp at 1. rewrite Hrun.
    cbn [returns]. destruct r as [[[lp1 known] go]|]; [|by apply wp_ret].
    destruct Hr as [Hw1 Hknown]. destruct go; [|by apply wp_ret].
    apply (Hsecond lp1 known srv1); [done..|]. intros Hiw. by eapply Hboth.
  - apply wp_ret. apply (Hsecond lp None srv); [apply rtc_refl|done..|].
    intros Hiw. by apply Hwrite.
Qed.

Fixpoint handle_fds_ok o (env : turn_env) (il : list Z) lp srv : Prop :=
  match il with
  | [] => True
  | i :: il => handle_fd_ok (sub o 0) env i lp srv ∧
      ∀ lp' srv', handle_fd strerror sha1 encode_block sizeof_client fds (sub o 0) env i lp srv
        = Ret (Some lp', srv') → handle_fds_ok (sub o 1) env il lp' srv'
  end.

Lemma handle_fds_steps env il : ∀ o lp srv,
  oracle_sane o → grants o (2 ^ b) → server_ok srv → handle_fds_ok o env il lp srv →
  watched lp (fd_map srv) →
  wp (handle_fds strerror sha1 encode_block sizeof_client fds o env il lp) srv (λ r srv',
    rtc step srv srv' ∧ match r with Some lp' => watched lp' (fd_map srv') | None => True end).
Proof.
  induction il as [|i il IH]; intros o lp srv Hs Hg Hok Hgo Hw.
  { apply wp_ret. split; [apply rtc_refl|done]. }
  destruct Hgo as [Hfd Hgo]. cbn [handle_fds]. apply wp_bind.
  pose proof (handle_fd_steps (sub o 0) env i lp srv ltac:(eauto with oracle)
    ltac:(eauto with oracle) Hok Hfd Hw) as Hr.
  apply returns_eq in Hr as ([r srv1] & Hrun & Hrun1 & Hw1). unfold wp at 1. rewrite Hrun.
  cbn [returns]. destruct r as [lp1|]; [|by apply wp_ret].
  eapply wp_mono; [apply (IH (sub o 1) lp1 srv1); eauto with oracle|].
  - by eapply steps_view.
  - intros r srv2 [Hrun2 Hw2]. split; [by eapply rtc_trans|done].
Qed.

(** ** Watching for room to write *)

(** What the write set says of [i]. *)
Definition writes srv (i : Z) (lp : loop_state) : Prop :=
  ∀ cid c, sv_clients srv !! cid = Some c → cl_fd c = i →
    (i ∈ lp_wfds lp ↔ 0 < dime_socket_sendlen (cl_sock c)).

Lemma update_wfd_steps i lp srv :
  server_ok srv → watched lp (fd_map srv) →
  wp (update_wfd i lp) srv (λ lp' srv', rtc step srv srv' ∧
    sv_clients srv' = sv_clients srv ∧ lp_rfds lp' = lp_rfds lp ∧ lp_maxfd lp' = lp_maxfd lp ∧
    writes srv i lp' ∧ ∀ k, k ≠ i → (k ∈ lp_wfds lp' ↔ k ∈ lp_wfds lp)).
Proof.
  intros Hok Hw. unfold update_wfd. case_decide as Hi.
  2:{ apply wp_ret. split; [apply rtc_refl|]. split_and!; [done..| |done].
      intros cid c Hc <-. exfalso. apply Hi. destruct (wt_client _ _ Hw cid (cl_fd c)); [|done].
      unfold fd_map. by rewrite lookup_fmap, Hc. }
  apply wp_bind. pose proof (find_steps i srv Hok) as Hf.
  apply returns_eq in Hf as ([r srv1] & Hrun & Hstep & Hok1 & Hcl & Hr). unfold wp at 1.
  rewrite Hrun. cbn [returns]. destruct r as [cid|].
  - destruct (proj1 (Hr cid) eq_refl) as (c & Hc & Hfd). pose proof Hc as Hc1.
    rewrite <-Hcl in Hc1. wp_step. apply wp_ret. split; [by apply rtc_once|].
    split_and!; [done..| |]; simpl.
    + intros cid' c' Hc' Hfd'.
      assert (Some cid = Some cid') as [= <-] by (apply Hr; by exists c').
      rewrite Hc in Hc'. injection Hc' as <-. destruct (Z.ltb_spec 0 (dime_socket_sendlen (cl_sock c)));
        set_solver by lia.
    + intros k Hk. destruct (0 <? dime_socket_sendlen (cl_sock c)); set_solver.
  - apply wp_ret. split; [by apply rtc_once|]. split_and!; [done..| |done].
    intros cid c Hc Hfd. assert (None = Some cid) as [=]. apply Hr. by exists c.
Qed.

Lemma update_wfds_steps il : ∀ lp srv,
  server_ok srv → watched lp (fd_map srv) →
  wp (update_wfds il lp) srv (λ lp' srv', rtc step srv srv' ∧
    sv_clients srv' = sv_clients srv ∧ lp_rfds lp' = lp_rfds lp ∧ lp_maxfd lp' = lp_maxfd lp ∧
    (∀ i, i ∈ il → writes srv i lp') ∧ ∀ k, k ∉ il → (k ∈ lp_wfds lp' ↔ k ∈ lp_wfds lp)).
Proof.
  induction il as [|i il IH]; intros lp srv Hok Hw.
  { apply wp_ret. split; [apply rtc_refl|]. split_and!; [done..| |done].
    intros i Hi. by apply elem_of_nil in Hi. }
  cbn [update_wfds]. apply wp_bind. eapply wp_mono; [by apply update_wfd_steps|].
  intros lp1 srv1 (Hrun1 & Hcl1 & Hrf1 & Hmax1 & Hi & Hk1).
  assert (watched lp1 (fd_map srv1)) as Hw1 by by eapply watched_same.
  eapply wp_mono; [apply IH; [by eapply steps_view|done]|].
  intros lp2 srv2 (Hrun2 & Hcl2 & Hrf2 & Hmax2 & Hil & Hk2).
  split; [by eapply rtc_trans|]. split_and!; [congruence..| |].
  - intros k Hk. assert (∀ l, writes srv1 k l → writes srv k l) as Hto.
    { intros l Hl. unfold writes in *. by rewrite <-Hcl1. }
    destruct (decide (k ∈ il)) as [Hin|Hout]; [by apply Hto, Hil|].
    apply elem_of_cons in Hk as [->|Hk]; [|done].
    intros cid c Hc Hfd. rewrite (Hk2 i Hout). by apply (Hi cid).
  - intros k [Hk Hout]%not_elem_of_cons. by rewrite Hk2, Hk1.
Qed.

(** ** One turn *)

Definition turn_ok o (env : turn_env) lp srv : Prop :=
  tn_select env = true → handle_fds_ok o env (fd_range (lp_maxfd lp)) lp srv.

Lemma fd_range_elem maxfd i : i ∈ fd_range maxfd ↔ 3 ≤ i < maxfd.
Proof. unfold fd_range. rewrite elem_of_seqZ. lia. Qed.

Lemma wp_server_turn o env lp srv :
  oracle_sane o → grants o (2 ^ b) → server_ok srv → turn_ok o env lp srv →
  watched lp (fd_map srv) →
  wp (server_turn strerror sha1 encode_block sizeof_client fds o env lp) srv (λ r srv',
    rtc step srv srv' ∧
    match r with
    | Some lp' => watched lp' (fd_map srv') ∧ ∀ i, 3 ≤ i < lp_maxfd lp' → writes srv' i lp'
    | None => True
    end).
Proof.
  intros Hs Hg Hok Hgo Hw. unfold server_turn. unfold turn_ok in Hgo.
  destruct (tn_select env); [|apply wp_ret; split; [apply rtc_refl|done]].
  apply wp_bind. eapply wp_mono; [by apply handle_fds_steps, Hw; try apply Hgo|].
  intros [lp1|] srv1 [Hrun1 Hw1]; [|by apply wp_ret].
  apply wp_bind. eapply wp_mono; [apply update_wfds_steps; [by eapply steps_view|done]|].
  intros lp2 srv2 (Hrun2 & Hcl2 & Hrf2 & Hmax2 & Hil & _). apply wp_ret.
  split; [by eapply rtc_trans|]. split.
  - by eapply watched_same.
  - intros i Hi. rewrite Hmax2 in Hi. unfold writes. rewrite Hcl2. apply Hil.
    by apply fd_range_elem.
Qed.

(** ** Any number of turns *)

(** What holds of the sets between two turns. *)
Definition sets_ok lp srv : Prop :=
  watched lp (fd_map srv) ∧ ∀ i, 3 ≤ i < lp_maxfd lp → writes srv i lp.

Fixpoint turns_ok (turns : list (oracle * turn_env)) lp srv : Prop :=
  match turns with
  | [] => True
  | (o, env) :: turns => oracle_sane o ∧ grants o (2 ^ b) ∧ turn_ok o env lp srv ∧
      ∀ lp' srv', server_turn strerror sha1 encode_block sizeof_client fds o env lp srv
        = Ret (Some lp', srv') → turns_ok turns lp' srv'
  end.

Lemma wp_server_turns turns : ∀ lp srv,
  server_ok srv → turns_ok turns lp srv → sets_ok lp srv →
  wp (server_turns strerror sha1 encode_block sizeof_client fds turns lp) srv (λ r srv',
    rtc step srv srv' ∧ match r with Some lp' => sets_ok lp' srv' | None => True end).
Proof.
  induction turns as [|[o env] turns IH]; intros lp srv Hok Hgo Hset.
  { apply wp_ret. split; [apply rtc_refl|done]. }
  destruct Hgo as (Hs & Hg & Hgo & Hrest). cbn [server_turns]. apply wp_bind.
  pose proof (wp_server_turn o env lp srv Hs Hg Hok Hgo (proj1 Hset)) as Hr.
  apply returns_eq in Hr as ([r srv1] & Hrun & Hrun1 & Hset1). unfold wp at 1. rewrite Hrun.
  cbn [returns]. destruct r as [lp1|]; [|by apply wp_ret].
  eapply wp_mono; [apply (IH lp1 srv1); [by eapply steps_view|by apply Hrest|done]|].
  intros r srv2 [Hrun2 Hset2]. split; [by eapply rtc_trans|done].
Qed.

(** Listening. *)
Lemma listen_all_ok listen fds' : ∀ fds0 lp,
  Forall (λ f, 0 ≤ f.1 < FD_SETSIZE) fds' → fds = fds0 ++ fds' →
  (∀ fd, fd ∈ fds0.*1 → fd ∈ lp_rfds lp ∧ fd < lp_maxfd lp) →
  ∃ r, listen_all listen fds' lp = Ret r ∧
    match r with
    | Some lp' => watched lp' ∅
    | None => ∃ fd, fd ∈ fds'.*1 ∧ listen fd = false
    end.
Proof.
  induction fds' as [|[fd p] fds' IH]; intros fds0 lp Hall Hfds Hlp.
  { exists (Some lp). split; [done|]. split; [|done]. by rewrite Hfds, app_nil_r. }
  apply Forall_cons in Hall as [Hfd Hall]. simpl in Hfd. cbn [listen_all]. unfold watch.
  rewrite (proj2 (Z.leb_le _ _)), (proj2 (Z.ltb_lt _ _)) by lia. cbn [andb mbind outcome_bind].
  destruct (listen fd) eqn:El.
  - destruct (IH (fds0 ++ [(fd, p)]) (Loop ({[fd]} ∪ lp_rfds lp) (lp_wfds lp)
      (Z.max (lp_maxfd lp) (fd + 1)))) as (r & -> & Hr); [done|by rewrite <-app_assoc| |].
    { intros fd'. rewrite fmap_app, elem_of_app. simpl. intros [Hin| ->%list_elem_of_singleton].
      - destruct (Hlp fd' Hin). set_solver by lia.
      - set_solver by lia. }
    exists r. split; [done|]. destruct r; [done|]. destruct Hr as (fd' & Hin & Hno). exists fd'.
    split; [by right|done].
  - exists None. split; [done|]. exists fd. split; [by left|done].
Qed.

Definition loop_ok (turns : list (oracle * turn_env)) srv : Prop :=
  Forall (λ f, 0 ≤ f.1 < FD_SETSIZE) fds ∧
  ∀ lp, watched lp ∅ → turns_ok turns lp srv.

Lemma wp_server_loop listen turns srv :
  server_ok srv → sv_clients srv = ∅ → loop_ok turns srv →
  wp (dime_server_loop strerror sha1 encode_block sizeof_client fds listen turns) srv (λ r srv',
    rtc step srv srv' ∧ match r with Some lp' => sets_ok lp' srv' | None => True end).
Proof.
  intros Hok Hcl [Hfds Hgo]. unfold dime_server_loop. apply wp_bind, wp_lift.
  destruct (listen_all_ok listen fds [] (Loop ∅ ∅ (-1))) as (r & -> & Hr); [done|done| |].
  { intros fd Hin. by apply elem_of_nil in Hin. }
  simpl. destruct r as [lp|]; [|apply wp_ret; split; [apply rtc_refl|done]].
  apply wp_server_turns; [done|by apply Hgo|]. split.
  - unfold fd_map. by rewrite Hcl.
  - intros i _ cid c Hc. by rewrite Hcl in Hc.
Qed.
End loop.
