(* ===== verification/Demo.v ===== *)
(** * A small server for examples

    Two clients, under the numbers 0 and 1, that have both joined a group called
    send, so that the text [send] is a command to send to that group. The
    allocator of the examples grants blocks of up to 4 MB, and the JSON library
    is the one of [Json] that takes a value for its own text. *)

From S2P Require Import Prelude Deque Ringbuffer Json Socket SocketSpec Table TableSpec TableMap.
From S2P Require Import Hash State Client WebSocket Server Invariant ClientSpec ClientPush.
From S2P Require Import ClientDeliver Inbox ClientSend ClientGroups ServerSpec.
From Stdlib Require String.

Local Existing Instance text_json.

#[local] Instance demo_laws : @JanssonLaws text_json (2 ^ 22).
Proof. by apply text_json_laws. Qed.

Lemma short_text bound (j : list Z) : (length j < bound)%nat → short bound (string_of_bytes j).
Proof.
  intros Hj. unfold short, string_of_bytes.
  assert (∀ l : list Ascii.ascii, String.length (String.string_of_list_ascii l) = length l) as Hlen.
  { induction l; simpl; congruence. }
  by rewrite Hlen, length_fmap.
Qed.

(** A client that was accepted a moment ago, whatever groups it is in. *)
Record new_client (fd : Z) (c : dime_client) : Prop := {
  nc_fd : cl_fd c = fd;
  nc_waiting : cl_waiting c = false;
  nc_sock : sock_rep (cl_sock c) [] [] [] ∧ so_ws (cl_sock c) = false;
  nc_queue : deque_rep (cl_queue c) [] ∧ dq_cap (cl_queue c) = 16;
}.

Record demo (srv : dime_server) (c0 c1 : dime_client) (gid : Z) (g : dime_group) : Prop := {
  dm_inv : server_inv None srv {[0 := []; 1 := []]};
  dm_clients : sv_clients srv = {[0 := c0; 1 := c1]};
  dm_groups : sv_groups srv = {[gid := g]};
  dm_c0 : new_client 5 c0;
  dm_c1 : new_client 6 c1;
  dm_g : gr_name g = "send"%string ∧ gr_clnts g = [0; 1];
  dm_names : dime_table_len (sv_name2clnt srv) ≤ 1;
}.

(** ** Its construction *)

Lemma add_client srv qs fd :
  server_inv None srv qs → (∀ x c, sv_clients srv !! x = Some c → cl_fd c ≠ fd) →
  dime_table_len (sv_fd2clnt srv) < 10 → Z.of_nat (size (sv_clients srv)) < 10 →
  ∃ srv' c, server_inv None srv' (<[sv_next srv := []]> qs) ∧ new_client fd c ∧
    cl_groups c = [] ∧ cl_groups_cap c = 4 ∧
    sv_next srv' = sv_next srv + 1 ∧ sv_clients srv' = <[sv_next srv := c]> (sv_clients srv) ∧
    sv_groups srv' = sv_groups srv ∧ sv_msgs srv' = sv_msgs srv ∧
    sv_name2clnt srv' = sv_name2clnt srv ∧
    dime_table_len (sv_fd2clnt srv') = dime_table_len (sv_fd2clnt srv) + 1.
Proof.
  intros Hinv Hfresh Hlen Hsize.
  destruct (client_init_spec alloc_4M (2 ^ 22) fd AF_INET alloc_4M_sane alloc_4M_grants)
    as (c & _ & Hfd & Hw & Hgs & Hcap & Hq & Hrep & Hnows & Hd); [done|].
  destruct (inv_fresh _ _ _ Hinv) as (Hnone & _ & _).
  destruct (fds_inv_insert 22 alloc_4M _ _ fd (sv_next srv) ltac:(lia) alloc_4M_sane alloc_4M_grants
    (vi_fds _ _ _ Hinv)) as (tbl & _ & Htbl & Htlen).
  { by rewrite lookup_fmap, Hnone. }
  { intros x Hx. rewrite lookup_fmap in Hx. destruct (sv_clients srv !! x) as [cx|] eqn:E; [|done].
    injection Hx as Hx. by apply (Hfresh _ _ E). }
  { lia. }
  eexists _, c. split; [apply (inv_new_client srv qs c tbl Hinv)|].
  - by rewrite Hfd.
  - done.
  - done.
  - by rewrite Hcap.
  - exists [], [], []. by rewrite Hnows.
  - done.
  - lia.
  - split_and!; done.
Qed.

Lemma demo_join srv qs cid c gid g :
  server_inv None srv qs → sv_clients srv !! cid = Some c → sv_groups srv !! gid = Some g →
  cl_groups c = [] → cl_groups_cap c = 4 → zlen (gr_clnts g) < 4 →
  let c' := cl_set_groups c (cl_groups c ++ [gid]) (cl_groups_cap c) in
  server_inv None (sv_set_groups (sv_set_clients srv (<[cid := c']> (sv_clients srv)))
    (<[gid := gr_set_clnts g (gr_clnts g ++ [cid]) (gr_clnts_cap g)]> (sv_groups srv))) qs ∧
  ∀ fd, new_client fd c → new_client fd c'.
Proof.
  intros Hinv Hc Hg Hgs Hcap Hlen. split; [|by intros fd []].
  pose proof (gi_group _ _ (vi_groups _ _ _ Hinv) _ _ Hg) as (_ & Hgcap & _).
  apply joined_both; try done; rewrite ?Hgs, ?Hcap.
  - apply not_elem_of_nil.
  - done.
  - lia.
  - done.
  - lia.
Qed.

(** Two clients, without a group. *)
Lemma demo_clients : ∃ srv c0 c1,
  server_inv None srv (<[1 := []]> (<[0 := []]> ∅)) ∧ sv_clients srv = <[1 := c1]> (<[0 := c0]> ∅) ∧
  sv_groups srv = ∅ ∧ dime_table_len (sv_name2clnt srv) = 0 ∧
  (new_client 5 c0 ∧ cl_groups c0 = [] ∧ cl_groups_cap c0 = 4) ∧
  (new_client 6 c1 ∧ cl_groups c1 = [] ∧ cl_groups_cap c1 = 4).
Proof.
  assert (∃ srv0, init_tables alloc_4M = Some srv0 ∧ sv_next srv0 = 0 ∧ sv_clients srv0 = ∅ ∧
    sv_groups srv0 = ∅ ∧ dime_table_len (sv_fd2clnt srv0) = 0 ∧
    dime_table_len (sv_name2clnt srv0) = 0) as (srv0 & Hinit & Hn0 & Hc0 & Hg0 & Hl0 & Hm0).
  { eexists. split; [reflexivity|done]. }
  apply init_tables_view in Hinit as [(qs & Hinv0 & Hqs) _].
  assert (qs = ∅) as ->.
  { symmetry in Hqs. by apply fmap_empty_inv in Hqs. }
  destruct (add_client srv0 ∅ 5 Hinv0) as (srv1 & c0 & Hinv1 & Hnc0 & Hgs0 & Hcap0 & Hn1 & Hc1 &
    Hg1 & _ & Hm1 & Hl1); [intros x c; by rewrite Hc0, lookup_empty|lia|by rewrite Hc0|].
  destruct (add_client srv1 _ 6 Hinv1) as (srv2 & c1 & Hinv2 & Hnc1 & Hgs1 & Hcap1 & Hn2 & Hc2 &
    Hg2 & _ & Hm2 & Hl2); [|lia| |].
  { intros x c. rewrite Hc1, Hc0, lookup_insert_Some, lookup_empty.
    intros [[_ <-]|[_ [=]]]. by rewrite (nc_fd _ _ Hnc0). }
  { by rewrite Hc1, Hc0, map_size_insert_None by apply lookup_empty. }
  rewrite Hn1, Hn0 in *. simpl in *. rewrite Hc0 in Hc1. rewrite Hc1 in Hc2.
  exists srv2, c0, c1. split_and!; try done; by rewrite ?Hg2, ?Hg1, ?Hm2, ?Hm1.
Qed.

Lemma demo_exists : ∃ srv c0 c1 gid g, demo srv c0 c1 gid g.
Proof.
  destruct demo_clients as (srv2 & c0 & c1 & Hinv2 & Hc2 & Hg2 & Hm2 &
    (Hnc0 & Hgs0 & Hcap0) & (Hnc1 & Hgs1 & Hcap1)).
  pose proof (wp_find_or_create "e"%string 22 alloc_4M 0 "send"%string srv2 _ ltac:(lia)
    alloc_4M_sane alloc_4M_grants Hinv2) as Hf.
  apply returns_eq in Hf as ([r srv3] & _ & gid & g & _ & Hinv3 & Hc3 & _ & Hgid & Hname & Hg3 & Hm3).
  2:{ unfold table_room. rewrite Hm2. by vm_compute. }
  2:{ simpl. lia. }
  rewrite Hg2 in Hg3. destruct Hg3 as [Hg3|(Hnil & _ & Hg3)].
  { by rewrite Hg3, lookup_empty in Hgid. }
  pose proof (gi_group _ _ (vi_groups _ _ _ Hinv3) _ _ Hgid) as (_ & Hgcap & _).
  assert (sv_clients srv3 !! 0 = Some c0 ∧ sv_clients srv3 !! 1 = Some c1) as [Hk0 Hk1]
    by by rewrite Hc3, Hc2.
  destruct (demo_join srv3 _ 0 c0 gid g Hinv3 Hk0 Hgid Hgs0 Hcap0) as [Hinv4 Hnc0'];
    [by rewrite Hnil|].
  set (g1 := gr_set_clnts g (gr_clnts g ++ [0]) (gr_clnts_cap g)) in *.
  set (c0' := cl_set_groups c0 (cl_groups c0 ++ [gid]) (cl_groups_cap c0)) in *.
  set (srv4 := sv_set_groups _ _) in Hinv4.
  assert (sv_clients srv4 = <[0 := c0']> (sv_clients srv3)) as Hc4 by done.
  assert (sv_groups srv4 !! gid = Some g1) as Hgid4 by apply lookup_insert_eq.
  destruct (demo_join srv4 _ 1 c1 gid g1 Hinv4) as [Hinv5 Hnc1']; [|done..| |].
  { by rewrite Hc4, lookup_insert_ne. }
  { unfold g1. cbn [gr_clnts gr_set_clnts]. by rewrite Hnil. }
  eexists _, c0', _, gid, _. split.
  - exact Hinv5.
  - cbn [sv_clients sv_groups sv_set_clients sv_set_groups]. rewrite Hc4, Hc3, Hc2.
    apply map_eq. intros x.
    destruct (decide (x = 0)) as [->|]; [done|]. destruct (decide (x = 1)) as [->|]; [done|].
    rewrite <-(insert_empty 1), !lookup_insert_ne by lia. done.
  - unfold srv4. cbn [sv_clients sv_groups sv_set_clients sv_set_groups]. rewrite Hg3.
    by rewrite !insert_insert_eq.
  - by apply Hnc0'.
  - by apply Hnc1'.
  - unfold g1. cbn [gr_clnts gr_name gr_set_clnts]. by rewrite Hnil.
  - unfold srv4. cbn [sv_name2clnt sv_set_clients sv_set_groups]. rewrite Hm2 in Hm3. lia.
Qed.

(** ** What is known of it *)

Lemma new_client_room fd c n :
  new_client fd c → 2 * (n + 22) ≤ 2 ^ 22 → room (limit:=2 ^ 22) n c ∧ has_room (limit:=2 ^ 22) c.
Proof.
  intros [_ _ [[_ Hw _ _ _] _] _] Hn.
  assert (∀ rb wb wsb, sock_rep (cl_sock c) rb wb wsb → zlen wb = 0) as Hnil.
  { intros rb wb wsb [_ Hw' _ _]. destruct (rr_len _ _ Hw), (rr_len _ _ Hw').
    change (zlen []) with 0 in *. congruence. }
  split; intros rb wb wsb Hrep; rewrite (Hnil _ _ _ Hrep); lia.
Qed.

Section demo.
Context {srv c0 c1 gid g} (Hdemo : demo srv c0 c1 gid g).

Lemma dm_view : server_view srv {[0 := []; 1 := []]}.
Proof. exists {[0 := []; 1 := []]}. split; [apply Hdemo|]. reflexivity. Qed.

Lemma demo_client x c : sv_clients srv !! x = Some c → ∃ fd, new_client fd c.
Proof.
  rewrite (dm_clients _ _ _ _ _ Hdemo).
  intros [[<- <-]|[_ [<- <-]%lookup_singleton_Some]]%lookup_insert_Some.
  - exists 5. apply Hdemo.
  - exists 6. apply Hdemo.
Qed.

Lemma demo_lookup : sv_clients srv !! 0 = Some c0 ∧ sv_clients srv !! 1 = Some c1.
Proof. by rewrite (dm_clients _ _ _ _ _ Hdemo). Qed.

Lemma demo_all_room : all_room (limit:=2 ^ 22) srv.
Proof.
  intros x c [fd Hc]%demo_client. by apply (new_client_room fd c 0).
Qed.

Lemma demo_plenty (j : list Z) : zlen j ≤ 2 ^ 22 → plenty (limit:=2 ^ 22) j 0 srv.
Proof.
  intros Hj. split.
  - by vm_compute.
  - intros al Hal. simpl. rewrite Hal by done. eauto.
  - intros x c [fd Hc]%demo_client. unfold queue_room. by rewrite (proj2 (nc_queue _ _ Hc)).
  - intros c Hc. destruct (demo_client _ _ Hc) as [fd Hn]. split; [apply Hn|].
    by apply (new_client_room fd c).
Qed.

Lemma demo_buffers : buffers srv 0 false [] [] [] ∧ buffers srv 1 false [] [] [].
Proof.
  destruct demo_lookup as [H0 H1]. split; eexists; (split; [eassumption|]).
  - apply (dm_c0 _ _ _ _ _ Hdemo).
  - apply (dm_c1 _ _ _ _ _ Hdemo).
Qed.

Lemma demo_gid : sv_groups srv !! gid = Some g.
Proof. by rewrite (dm_groups _ _ _ _ _ Hdemo), lookup_singleton_eq. Qed.

Lemma demo_member n x : member srv n x ↔ n = "send"%string ∧ (x = 0 ∨ x = 1).
Proof.
  unfold member. rewrite (dm_groups _ _ _ _ _ Hdemo). destruct (dm_g _ _ _ _ _ Hdemo) as [Hn Hc].
  split.
  - intros (gid' & g' & [<- <-]%lookup_singleton_Some & <- & Hx). rewrite Hn. rewrite Hc in Hx.
    set_solver.
  - intros [-> Hx]. exists gid, g. rewrite Hc, lookup_singleton_eq. split_and!; [done|done|].
    set_solver.
Qed.

Lemma demo_table n : n ≤ 10 → table_room 22 n srv.
Proof. intros Hn. pose proof (dm_names _ _ _ _ _ Hdemo). unfold table_room. lia. Qed.
End demo.

(** The demo after client 0 has broadcast a message. *)
Lemma demo_posted srv c0 c1 gid g (text bin : list Z) :
  demo srv c0 c1 gid g → zlen text ≤ 2 ^ 22 → zlen bin ≤ 2 ^ 22 →
  ∃ srv', server_view srv' {[0 := []; 1 := [(text, bin)]]} ∧
    buffers srv' 1 false [] [] [] ∧ (∀ n x, member srv' n x ↔ member srv n x) ∧
    (∃ c, sv_clients srv' !! 1 = Some c ∧ cl_fd c = 6) ∧
    dime_client_broadcast "e"%string alloc_4M 0 text bin srv = Ret (0, srv').
Proof.
  intros Hd Ht Hb. destruct (demo_lookup Hd) as [H0 H1].
  pose proof (@wp_broadcast text_json (2 ^ 22) _ "e"%string alloc_4M 0 text bin srv _ alloc_4M_sane
    alloc_4M_grants (dm_view Hd) (demo_all_room Hd) ltac:(eauto)
    ltac:(unfold MAXOBJ; lia)) as Hw.
  apply returns_eq in Hw as ([rc srv'] & Hrun & _ & Hk & (boxes' & Hv' & Hpost & _) & Hok).
  rewrite (Hok (demo_plenty Hd text Ht)) in Hrun.
  destruct (Hpost (Hok (demo_plenty Hd text Ht))) as (al & text' & Hdump & -> & Hdel & _).
  assert (text' = text) as ->.
  { simpl in Hdump. destruct (al (zlen text)); [by injection Hdump|done]. }
  assert (∀ m (y : Z → bool), posted y m {[0 := []; 1 := []]}
    = {[0 := if y 0 then [m] else []; 1 := if y 1 then [m] else []]}) as Hp.
  { intros m y. apply map_eq. intros x. rewrite lookup_posted.
    destruct (decide (x = 0)) as [->|]; [done|]. destruct (decide (x = 1)) as [->|]; [done|].
    rewrite <-!(insert_empty 1), !lookup_insert_ne by lia. done. }
  exists srv'. split; [by rewrite Hp in Hv'|].
  destruct (Hdel 1 ltac:(done) c1 H1) as (c' & Hc' & _ & Hs).
  rewrite (nc_waiting _ _ (dm_c1 _ _ _ _ _ Hd)) in Hs. split_and!; [| | |done].
  - exists c'. rewrite Hs. split; [done|]. apply (dm_c1 _ _ _ _ _ Hd).
  - intros n x. unfold member. by rewrite (kp_groups _ _ Hk).
  - exists c'. split; [done|]. pose proof (kp_fd _ _ Hk) as Hfd.
    assert ((cl_fd <$> sv_clients srv') !! 1 = Some (cl_fd c')) as E by by rewrite lookup_fmap, Hc'.
    rewrite Hfd, lookup_fmap, H1 in E. injection E as <-. apply (nc_fd _ _ (dm_c1 _ _ _ _ _ Hd)).
Qed.
