(* ===== verification/ClientProps.v ===== *)
(** * Properties of the commands

    Every command against what it promises: the messages queued for each
    client, the members of each group, and the bytes of the responses. *)

From S2P Require Import Prelude Bytes Deque Ringbuffer Json Socket SocketSpec Table TableSpec.
From S2P Require Import TableMap Hash State Client WebSocket Server Invariant ClientSpec.
From S2P Require Import ClientPush ClientDeliver Inbox ClientSend ClientQueue ClientGone.
From S2P Require Import ClientGroups ClientHello ServerSpec Sound Demo.
From Stdlib Require String.

Section props.
Context `{Jansson} {limit : Z} `{!JanssonLaws limit}.
Variable strerror : string.
Implicit Types (o : oracle) (cid gid mid : Z) (srv : dime_server).

(** C9: [dime_client_send] returns, with 0 or -1, keeps the invariant of the
    server and changes no group, if the name of the group is shorter than 59
    characters, the library's error text shorter than 61, blocks of up to
    [limit] bytes are granted and every outbuffer has room for a header. If it
    answers 0, exactly the members of the group it names have one more message
    at the end of their queues, the JSON text and the data that were sent; no
    member waits any more, those that did have been sent that they have one
    message, and nobody else has been sent anything but the sender its
    response. If it answers -1 some of the members have the message or nobody
    has. It does answer 0 if the group has a member, the sender does not wait
    itself, and there is memory for the message, its text, the queues to grow
    and the response. If the group has no member it answers -1 and no queue
    changes. *)
Theorem send_delivers o cid j bin srv boxes :
  oracle_sane o → grants o limit → server_view srv boxes → all_room (limit:=limit) srv →
  is_Some (sv_clients srv !! cid) → zlen bin ≤ MAXOBJ →
  match json_unpack_ss j "name" with inl name => short 59 name | inr text => short 61 text end →
  wp (dime_client_send strerror o cid j bin) srv (λ rc srv',
    (rc = 0 ∨ rc = -1) ∧ keeps srv srv' ∧
    (∃ boxes', server_view srv' boxes' ∧
       (rc = 0 → sent (limit:=limit) srv cid j bin boxes boxes' srv') ∧
       (rc = -1 → partly (addressed srv j) j bin boxes boxes')) ∧
    (can_send (limit:=limit) srv cid j → rc = 0) ∧
    ∀ name, json_unpack_ss j "name" = inl name → (∀ x, ¬ member srv name x) →
      rc = -1 ∧ server_view srv' boxes).
Proof.
  intros Hs Hg Hv Hroom Hcid Hbin Hshort.
  pose proof (wp_send strerror o cid j bin srv boxes Hs Hg Hv Hroom Hcid Hbin Hshort) as Hsend.
  apply returns_eq in Hsend as ([rc srv'] & Hrun & Hrc & Hk & Hpost & Hcan).
  unfold wp. rewrite Hrun. cbn [returns]. split_and!; [done..|].
  intros name Hn Hnobody. rewrite Hn in Hshort.
  pose proof (wp_send_nobody strerror o cid j bin srv boxes name Hs Hv Hcid Hn Hshort) as Hno.
  unfold wp in Hno. rewrite Hrun in Hno.
  destruct Hno as (-> & _ & Hv' & _); [|done]. intros gid g Hgid Hname.
  destruct (gr_clnts g) as [|x l] eqn:El; [done|]. destruct (Hnobody x).
  exists gid, g. rewrite El. split_and!; [done..|by left].
Qed.

(** C10: [dime_client_broadcast] returns, with 0 or -1, keeps the invariant and
    changes no group, if blocks of up to [limit] bytes are granted and every
    outbuffer has room for a header (without that it may leave the notice of a
    waiting client half done). If it answers 0, every client but the sender has
    one more message at the end of its queue, the JSON text and the data that
    were sent; those that waited have been woken up, and nobody else has been
    sent anything but the sender, if it does not wait itself, its response,
    also when there is no other client. If it answers -1 some of the others
    have the message or nobody has. It does answer 0 if the sender does not
    wait and there is memory for the message, its text, the queues to grow and
    the response. *)
Theorem broadcast_delivers o cid j bin srv boxes :
  oracle_sane o → grants o limit → server_view srv boxes → all_room (limit:=limit) srv →
  is_Some (sv_clients srv !! cid) → zlen bin ≤ MAXOBJ →
  wp (dime_client_broadcast strerror o cid j bin) srv (λ rc srv',
    (rc = 0 ∨ rc = -1) ∧ keeps srv srv' ∧
    (∃ boxes', server_view srv' boxes' ∧
       (rc = 0 → boxes' !! cid = boxes !! cid ∧
          broadcast_to_others (limit:=limit) srv cid j bin boxes boxes' srv') ∧
       (rc = -1 → partly (λ x, x ≠ cid) j bin boxes boxes')) ∧
    (plenty (limit:=limit) j cid srv → rc = 0)).
Proof.
  intros Hs Hg Hv Hroom Hcid Hbin.
  eapply wp_mono; [by apply (wp_broadcast strerror o cid j bin srv boxes)|].
  intros rc srv' (Hrc & Hk & (boxes' & Hv' & Hpost & Hpart) & Hok). split_and!; [done..| |done].
  exists boxes'. split; [done|]. split; [|done]. intros H0. split; [|by apply Hpost].
  destruct (Hpost H0) as (al & text & _ & -> & _). rewrite lookup_posted, Z.eqb_refl.
  by destruct (boxes !! cid).
Qed.

(** C11: [dime_client_sync] always returns, with 0 or -1. With a number [n]
    (below 2^63) it takes at most the first [n] messages off the queue of the
    client, all of them if [n] is negative, and leaves the rest in order and
    all other queues alone. If there is memory, and room in the outbuffer, it
    takes exactly these, answers 0, and what it appends to the outbuffer are
    these messages in order, framed, and then the response. Without a number it
    answers -1, changes nothing and sends nothing: the code unpacks [n] as
    required, although the comment in client.h calls it optional. *)
Theorem sync_delivers o cid j srv boxes b ws rb wb wsb :
  oracle_sane o → server_view srv boxes → boxes !! cid = Some b →
  (∀ n, json_unpack_sI j "n" = Some n → n < 2 ^ 63) →
  wp (dime_client_sync strerror o cid j) srv (λ rc srv', (rc = 0 ∨ rc = -1) ∧ keeps srv srv' ∧
    match json_unpack_sI j "n" with
    | None => rc = -1 ∧ srv' = srv
    | Some n => ∃ k : nat,
        (k ≤ sync_count n b)%nat ∧ server_view srv' (<[cid := drop k b]> boxes) ∧
        (rc = 0 → k = sync_count n b) ∧
        (grants o limit → buffers srv cid ws rb wb wsb →
         2 * (zlen wb + zlen (wires ws (take (sync_count n b) b)) + 46) ≤ limit →
         rc = 0 ∧ buffers srv' cid ws rb
           (wb ++ wires ws (take (sync_count n b) b) ++ wire ws (status0, [])) wsb)
    end).
Proof.
  intros Hs Hv Hb Hn. destruct (json_unpack_sI j "n") as [n|] eqn:En.
  - apply (wp_sync strerror o cid j n); auto.
  - eapply wp_mono; [by apply wp_sync_no_n|]. intros rc srv' [-> ->].
    split_and!; [by right|apply keeps_refl|done..].
Qed.

(** C12: [dime_client_wait] always returns, with 0 or -1, and changes no queue.
    If messages are queued it sends their number at once, given memory and room
    in the outbuffer; if none are, it answers 0, sends nothing and the client
    waits from then on. *)
Theorem wait_answers o cid srv boxes b ws rb wb wsb :
  oracle_sane o → server_view srv boxes → boxes !! cid = Some b →
  wp (dime_client_wait strerror o cid) srv (λ rc srv',
    (rc = 0 ∨ rc = -1) ∧ keeps srv srv' ∧ server_view srv' boxes ∧
    if decide (b = []) then
      rc = 0 ∧ ∃ c, sv_clients srv !! cid = Some c ∧
        sv_clients srv' = <[cid := cl_set_waiting c true]> (sv_clients srv)
    else
      grants o limit → buffers srv cid ws rb wb wsb →
      (∀ al al' j text, json_pack al (args_n (zlen b)) = Some j → json_dumps al' j = Some text →
         2 * (zlen wb + zlen text + 22) ≤ limit) →
      rc = 0 ∧ ∃ al al' j text, json_pack al (args_n (zlen b)) = Some j ∧
        json_dumps al' j = Some text ∧
        buffers srv' cid ws rb (wb ++ wire ws (text, [])) wsb).
Proof.
  intros Hs Hv Hb. case_decide as E.
  - subst. eapply wp_mono; [by apply (wp_wait_empty strerror)|].
    intros rc srv' (-> & Hk & Hv' & Hc). split_and!; [by left|done..].
  - by apply wp_wait_some.
Qed.

(** C13: [dime_client_join] returns, with 0 or -1, and changes no queue, if
    every name in the list is shorter than 53 characters and the library's
    error text shorter than 61, so that they fit the error buffer, the table of
    the groups has room for as many new ones, and the blocks it needs are
    granted. The client is afterwards in the groups it was in before and in
    those named by the elements of the list before the first one that is
    refused, and no other membership changes. It answers 0 only if no element
    is refused. An element is refused only if it is no string, if the client is
    in that group already, or if an array of pointers is too big to grow; apart
    from that it answers -1 only if there is no list or the outbuffer has no
    room for the response. If it answers 0 the client is sent exactly one
    response, that all is well; if it is refused, and responses with an error
    can be packed ([errors_pack]), exactly one with the reason. *)
Theorem join_joins b o cid j srv boxes :
  10 ≤ b ≤ 47 → oracle_sane o → grants o (2 ^ b) → grants o limit → server_view srv boxes →
  is_Some (sv_clients srv !! cid) →
  match json_unpack_so j "name" with
  | inl arr => table_room b (zlen (json_array_elems arr)) srv ∧
      ∀ v name, v ∈ json_array_elems arr → json_string_value v = Some name → short 53 name
  | inr text => short 61 text
  end →
  wp (dime_client_join strerror o cid j) srv (λ rc srv', (rc = 0 ∨ rc = -1) ∧
    server_view srv' boxes ∧
    match json_unpack_so j "name" with
    | inr text => rc = -1 ∧ (∀ n x, member srv' n x ↔ member srv n x) ∧
        (errors_pack (limit:=limit) strerror →
         replied (limit:=limit) (args_error2 parse_error text) cid srv srv')
    | inl arr => ∃ front names rest, json_array_elems arr = front ++ rest ∧
        Forall2 (λ v n, json_string_value v = Some n) front names ∧
        (∀ n x, member srv' n x ↔ member srv n x ∨ n ∈ names ∧ x = cid) ∧
        (rc = 0 → rest = [] ∧ told (limit:=limit) (status0, []) cid srv srv') ∧
        (rc = -1 → match rest with
                   | [] => ∃ c, sv_clients srv !! cid = Some c ∧ ¬ room (limit:=limit) 12 c
                   | v :: _ => ∃ args, join_blocked strerror b cid v srv' args ∧
                       (errors_pack (limit:=limit) strerror →
                        replied (limit:=limit) args cid srv srv')
                   end)
    end).
Proof.
  intros Hb Hs Hg Hgl Hv Hcid Hok.
  eapply wp_mono; [by apply (wp_join (limit:=limit) strerror b)|].
  intros rc srv' (Hrc & _ & _ & Hv' & Hj). split; [done|]. split; [done|].
  destruct (json_unpack_so j "name") as [arr|text].
  - destruct Hj as (front & names & rest & He & Hn & HR & Hr). exists front, names, rest.
    split_and!; [done..| |]; [by intros ->|]. intros ->. exact Hr.
  - destruct Hj as (-> & HR & Hreply). split; [done|]. split; [|exact Hreply].
    intros n x. rewrite (HR n x). set_solver.
Qed.

(** C14: [dime_client_leave] returns, with 0 or -1, and changes no queue, if
    every name in the list is shorter than 57 characters and the library's
    error text shorter than 61, so that they fit the error buffer, the table of
    the groups has room for as many names, and the blocks it needs
    are granted. The client is afterwards in the groups it was in before except
    those named by the elements of the list before the first one that is
    refused, and no other membership changes. It answers 0 only if no element
    is refused. An element is refused only if it is no string or if the client
    is not in that group; apart from that it answers -1 only if there is no
    list or the outbuffer has no room for the response. If it answers 0 the
    client is sent exactly one response, that all is well; if it is refused,
    and responses with an error can be packed ([errors_pack]), exactly one with
    the reason. *)
Theorem leave_leaves b o cid j srv boxes :
  oracle_sane o → grants o (2 ^ b) → grants o limit → server_view srv boxes →
  is_Some (sv_clients srv !! cid) →
  match json_unpack_so j "name" with
  | inl arr => table_room b (zlen (json_array_elems arr)) srv ∧
      ∀ v name, v ∈ json_array_elems arr → json_string_value v = Some name → short 57 name
  | inr text => short 61 text
  end →
  wp (dime_client_leave strerror o cid j) srv (λ rc srv', (rc = 0 ∨ rc = -1) ∧
    server_view srv' boxes ∧
    match json_unpack_so j "name" with
    | inr text => rc = -1 ∧ (∀ n x, member srv' n x ↔ member srv n x) ∧
        (errors_pack (limit:=limit) strerror →
         replied (limit:=limit) (args_error2 parse_error text) cid srv srv')
    | inl arr => ∃ front names rest, json_array_elems arr = front ++ rest ∧
        Forall2 (λ v n, json_string_value v = Some n) front names ∧
        (∀ n x, member srv' n x ↔ member srv n x ∧ ¬ (n ∈ names ∧ x = cid)) ∧
        (rc = 0 → rest = [] ∧ told (limit:=limit) (status0, []) cid srv srv') ∧
        (rc = -1 → match rest with
                   | [] => ∃ c, sv_clients srv !! cid = Some c ∧ ¬ room (limit:=limit) 12 c
                   | v :: _ => ∃ args, leave_blocked cid v srv' args ∧
                       (errors_pack (limit:=limit) strerror →
                        replied (limit:=limit) args cid srv srv')
                   end)
    end).
Proof.
  intros Hs Hg Hgl Hv Hcid Hok.
  eapply wp_mono; [by apply (wp_leave (limit:=limit) strerror b)|].
  intros rc srv' (Hrc & _ & _ & Hv' & Hj). split; [done|]. split; [done|].
  destruct (json_unpack_so j "name") as [arr|text].
  - destruct Hj as (front & names & rest & He & Hn & HR & Hr). exists front, names, rest.
    split_and!; [done..| |]; [by intros ->|]. intros ->. exact Hr.
  - destruct Hj as (-> & HR & Hreply). split; [done|]. split; [|exact Hreply].
    intros n x. rewrite (HR n x). set_solver.
Qed.

(** C15: [dime_client_handshake] always returns, with 0 or -1, and changes no
    queue and no group (if the error text the library may give is shorter than
    61 characters). If it answers 0 and the blocks it asks for are granted, the
    serialization in use is the one the client asked for if there was none,
    dimeb if it clashes with a different one that is neither dimeb nor json,
    and else the one in use; the client has been sent that one, without TLS;
    and after a clash every other client has been sent the request to register
    again. For an unknown serialization it answers -1, changes nothing and
    sends nothing; for a known one it answers 0 whenever there is memory for
    what it sends and the buffers it goes to have room for it. *)
Theorem handshake_negotiates o env cid j srv boxes :
  oracle_sane o → server_view srv boxes → is_Some (sv_clients srv !! cid) →
  match json_unpack_sssb j "serialization" "tls" with inl _ => True | inr text => short 61 text end →
  wp (dime_client_handshake o env cid j) srv (λ rc srv',
    (rc = 0 ∨ rc = -1) ∧ keeps srv srv' ∧ server_view srv' boxes ∧
    ∀ s tls, json_unpack_sssb j "serialization" "tls" = inl (s, tls) →
      match serialization_of s with
      | None => rc = -1 ∧ srv' = srv
      | Some i => rc = 0 → grants o limit → shaken (limit:=limit) cid j srv srv' ∧
          (clash (sv_serialization srv) i = true → others_told (limit:=limit) cid srv srv')
      end ∧ (grants o limit → can_shake (limit:=limit) cid j srv → rc = 0)).
Proof.
  intros Hs Hv Hcid Hshort.
  pose proof (wp_handshake (limit:=limit) o env cid j srv boxes Hs Hv Hcid Hshort) as Hw.
  apply returns_eq in Hw as ([rc srv'] & Hrun & Hrc & Hk & Hv' & Hpost & Hcan).
  unfold wp. rewrite Hrun. cbn [returns]. split_and!; [done..|]. intros s tls Hj.
  split; [|done]. destruct (serialization_of s) as [i|] eqn:Ei.
  - intros H0 Hg. destruct (Hpost H0 Hg) as [Hsh Hcl]. split; [done|]. by eapply Hcl.
  - unfold dime_client_handshake in Hrun. rewrite Hj, Ei in Hrun. by injection Hrun as <- <-.
Qed.

(** C16: [dime_client_devices] returns, with 0 or -1, and changes no queue and
    no group, if blocks of up to [limit] bytes are granted and the library can
    append the names of the groups to an array and pack it ([can_append]):
    where it cannot, the code drops a reference it has given away. If it
    answers 0, the client has been sent an array that has the name of every
    group with a member, each once, and no other; and it does answer 0 whenever
    there is memory for that array and the response and the client's buffers
    have room. *)
Theorem devices_lists o cid srv boxes :
  oracle_sane o → grants o limit → server_view srv boxes → is_Some (sv_clients srv !! cid) →
  can_append (limit:=limit) srv →
  wp (dime_client_devices strerror o cid) srv (λ rc srv',
    (rc = 0 ∨ rc = -1) ∧ keeps srv srv' ∧ server_view srv' boxes ∧
    (rc = 0 → devices_listed (limit:=limit) cid srv srv') ∧
    (can_list (limit:=limit) cid srv → rc = 0)).
Proof.
  intros Hs Hg Hv Hcid Happ.
  eapply wp_mono; [by apply (wp_devices (limit:=limit) strerror o cid srv boxes); try left|].
  intros rc srv' (Hrc & Hk & Hv' & Hd & Hcan). split_and!; [done..| |]; intros H0; [by apply Hd|by apply Hcan].
Qed.
End props.

(** ** Connections *)

Section connections.
Context `{Jansson}.
Variable strerror : string.
Implicit Types (o : oracle) (cid gid mid : Z) (srv : dime_server).

(** C17: closing a connection whose queue is not exactly full always returns and
    keeps the invariant: the client is gone, with its queue and its
    memberships, and nothing else changes; its references are dropped, so that
    every message that is still stored is in the queue of another client. *)
Theorem close_forgets srv boxes cid c :
  server_view srv boxes → sv_clients srv !! cid = Some c →
  dime_deque_len (cl_queue c) < dq_cap (cl_queue c) →
  wp (close_client cid) srv (λ _ srv', server_view srv' (delete cid boxes) ∧
    sv_clients srv' = delete cid (sv_clients srv) ∧
    (∀ n x, member srv' n x ↔ member srv n x ∧ x ≠ cid) ∧
    ∀ mid, is_Some (sv_msgs srv' !! mid) → ∃ x c' xs, x ≠ cid ∧
      sv_clients srv !! x = Some c' ∧ deque_rep (cl_queue c') xs ∧ mid ∈ xs).
Proof.
  intros Hv Hc Hfree. eapply wp_mono; [by apply (wp_close_client srv boxes cid c)|].
  intros [] srv' (Hv' & Hcl & Hmem). split_and!; [done..|]. intros mid [m Hm].
  destruct (sd_stored _ (server_ok_sound _ (server_view_ok _ _ Hv')) _ _ Hm)
    as (Hpos & [|x hs] & _ & Hlen & Hin); [by rewrite Hlen in Hpos|].
  destruct (proj1 (Hin x)) as (c' & xs & Hc' & Hd & Hmid); [by left|].
  rewrite Hcl in Hc'. apply lookup_delete_Some in Hc' as [Hne Hc']. by exists x, c', xs.
Qed.

(** C38: a client with a full queue takes its messages with it but not its
    references: [dime_client_destroy] skips a queue whose length is its
    capacity, so that the messages stay in the store with a count that is one
    too high, and the invariant is lost. *)
Theorem full_queue_leaks srv qs cid c xs :
  server_inv None srv qs → sv_clients srv !! cid = Some c → qs !! cid = Some xs →
  dime_deque_len (cl_queue c) = dq_cap (cl_queue c) →
  wp (dime_client_destroy cid) srv (λ _ srv',
    sv_clients srv' = delete cid (sv_clients srv) ∧ sv_msgs srv' = sv_msgs srv ∧
    (∀ mid, mid ∈ xs → ∃ m, sv_msgs srv' !! mid = Some m ∧
       ms_refs m = refs_of (delete cid qs) mid + 1) ∧
    ¬ server_ok srv').
Proof.
  intros Hinv Hc Hq Hfull. destruct (inv_queue _ _ _ _ _ Hinv Hc) as (xs' & Hxs & Hd).
  assert (xs' = xs) as -> by congruence. pose proof (dr_len _ _ Hd) as [Hlen _].
  unfold dime_deque_len in Hfull.
  assert ((joined <$> sv_clients srv) !! cid = Some (cl_groups c, cl_groups_cap c)) as Hj
    by by rewrite lookup_fmap, Hc.
  unfold dime_client_destroy. wp_step. apply wp_bind. eapply wp_mono.
  { apply (wp_leave_groups cid (cl_groups c) (cl_groups_cap c) (joined <$> sv_clients srv)).
    rewrite insert_id by done. apply Hinv. }
  intros [] srv1 (groups1 & -> & _). apply wp_bind. unfold unref_queue, wp at 1.
  rewrite (foreach_full _ _ _ _ Hd) by congruence. cbn [returns mbind outcome_bind].
  unfold free_client. wp_step. apply wp_modify. simpl. split; [done|]. split; [done|].
  assert (∀ mid, mid ∈ xs → ∃ m, sv_msgs srv !! mid = Some m ∧
    ms_refs m = refs_of (delete cid qs) mid + 1) as Hleak.
  { intros mid Hin. pose proof (vi_refs _ _ _ Hinv) as Hr.
    destruct (ri_live _ _ _ Hr _ _ _ Hq Hin) as [m Hm]. exists m. split; [done|].
    destruct (ri_refs _ _ _ Hr _ _ Hm) as [-> _]. rewrite (refs_of_delete _ _ _ mid Hq).
    unfold held. by rewrite decide_True. }
  split; [done|]. intros (qs' & Hinv'). pose proof (dr_cap _ _ Hd) as [Hcap _].
  assert (qs' = delete cid qs) as ->.
  { assert (queues_inv (delete cid (cl_queue <$> sv_clients srv)) qs') as Hq'
      by (rewrite <-fmap_delete; apply (vi_queues _ _ _ Hinv')).
    apply map_eq. intros x. pose proof (Hq' x) as H1. pose proof (vi_queues _ _ _ Hinv x) as H2.
    destruct (decide (cid = x)) as [<-|Hne].
    - rewrite lookup_delete_eq in H1. rewrite lookup_delete_eq. by destruct (qs' !! cid).
    - rewrite lookup_delete_ne in H1 by done. rewrite lookup_delete_ne by done.
      destruct ((cl_queue <$> sv_clients srv) !! x), (qs !! x), (qs' !! x); try done.
      by rewrite (deque_rep_inj _ _ _ H1 H2). }
  destruct xs as [|mid xs]; [change (zlen []) with 0 in Hlen; lia|].
  destruct (Hleak mid) as (m & Hm & Hrefs); [by left|].
  destruct (ri_refs _ _ _ (vi_refs _ _ _ Hinv') mid m Hm) as [Hrefs' _]. lia.
Qed.
End connections.

(** ** Witnesses *)

#[local] Existing Instance text_json.
#[local] Instance text_json_4M : @JanssonLaws text_json (2 ^ 22).
Proof. by apply text_json_laws. Qed.

Definition name_g : list Z := bytes_of "send"%string.
Definition example_bin : list Z := [7; 8].

Lemma send_delivers_witness : ∃ srv,
  wp (dime_client_send "e"%string alloc_4M 0 name_g example_bin) srv (λ rc srv', rc = 0 ∧
    server_view srv' {[0 := [(name_g, example_bin)]; 1 := [(name_g, example_bin)]]}).
Proof.
  destruct demo_exists as (srv & c0 & c1 & gid & g & Hd). exists srv.
  destruct (demo_lookup Hd) as [H0 H1]. destruct (dm_g _ _ _ _ _ Hd) as [Hn Hc].
  eapply wp_mono; [apply (@send_delivers text_json (2 ^ 22) _ "e"%string alloc_4M 0 name_g example_bin srv _
    alloc_4M_sane alloc_4M_grants (dm_view Hd) (demo_all_room Hd))|].
  - by rewrite H0.
  - by vm_compute.
  - unfold short. simpl. lia.
  - intros rc srv' (_ & _ & (boxes' & Hv & Hsent & _) & Hcan & _).
    assert (rc = 0) as ->.
    { apply Hcan. split; [by apply (demo_plenty Hd)|]. exists gid, g.
      rewrite Hn, Hc. split; [done|]. split; [apply (demo_gid Hd)|done]. }
    split; [done|]. destruct (Hsent eq_refl) as (name & gid' & g' & al & text & [= <-] & Hg' & _ & _ &
      Hdump & -> & _).
    rewrite (dm_groups _ _ _ _ _ Hd) in Hg'. apply lookup_singleton_Some in Hg' as [<- <-].
    assert (text = name_g) as ->.
    { simpl in Hdump. destruct (al _); [by injection Hdump|done]. }
    rewrite Hc in Hv. exact Hv.
Defined.

Lemma broadcast_delivers_witness : ∃ srv,
  wp (dime_client_broadcast "e"%string alloc_4M 0 name_g example_bin) srv (λ rc srv', rc = 0 ∧
    server_view srv' {[0 := []; 1 := [(name_g, example_bin)]]}).
Proof.
  destruct demo_exists as (srv & c0 & c1 & gid & g & Hd). exists srv.
  destruct (demo_lookup Hd) as [H0 H1].
  eapply wp_mono; [apply (@broadcast_delivers text_json (2 ^ 22) _ "e"%string alloc_4M 0 name_g example_bin
    srv _ alloc_4M_sane alloc_4M_grants (dm_view Hd) (demo_all_room Hd))|].
  - by rewrite H0.
  - by vm_compute.
  - intros rc srv' (_ & _ & (boxes' & Hv & Hsent & _) & Hcan).
    assert (rc = 0) as -> by by apply Hcan, (demo_plenty Hd).
    split; [done|]. destruct (Hsent eq_refl) as (_ & al & text & Hdump & -> & _).
    assert (text = name_g) as ->.
    { simpl in Hdump. destruct (al _); [by injection Hdump|done]. }
    exact Hv.
Defined.

(** The number of messages is the first byte of the request. *)
Lemma sync_delivers_witness : ∃ srv,
  wp (dime_client_sync "e"%string alloc_4M 1 [3]) srv (λ rc srv', rc = 0 ∧
    server_view srv' {[0 := []; 1 := []]} ∧
    buffers srv' 1 false [] (wire false (name_g, example_bin) ++ wire false (status0, [])) []).
Proof.
  destruct demo_exists as (srv0 & c0 & c1 & gid & g & Hd).
  destruct (demo_posted _ _ _ _ _ name_g example_bin Hd) as (srv & Hv & Hbuf & _); [done..|].
  exists srv.
  eapply wp_mono; [apply (@sync_delivers text_json (2 ^ 22) _ "e"%string alloc_4M 1 [3] srv _
    [(name_g, example_bin)] false [] [] [] alloc_4M_sane Hv eq_refl)|].
  - intros n [= <-]. lia.
  - intros rc srv' (_ & _ & k & _ & Hv' & Hk & Hall).
    destruct (Hall alloc_4M_grants Hbuf) as [-> Hbuf']; [by vm_compute|].
    split; [done|]. rewrite (Hk eq_refl) in Hv'. by split.
Defined.

Lemma wait_answers_witness : ∃ srv,
  wp (dime_client_wait "e"%string alloc_4M 1) srv (λ rc srv', rc = 0 ∧
    buffers srv' 1 false [] (wire false ([0; 1], [])) []) ∧
  ∃ srv0, wp (dime_client_wait "e"%string alloc_4M 1) srv0 (λ rc srv', rc = 0 ∧
    ∃ c, sv_clients srv' !! 1 = Some c ∧ cl_waiting c = true).
Proof.
  destruct demo_exists as (srv0 & c0 & c1 & gid & g & Hd).
  destruct (demo_posted _ _ _ _ _ name_g example_bin Hd) as (srv & Hv & Hbuf & _); [done..|].
  exists srv. split; [|exists srv0].
  - eapply wp_mono; [apply (@wait_answers text_json (2 ^ 22) _ "e"%string alloc_4M 1 srv _
      [(name_g, example_bin)] false [] [] [] alloc_4M_sane Hv eq_refl)|].
    intros rc srv' (_ & _ & _ & Hall). rewrite decide_False in Hall by done.
    assert (∀ al al' j text, json_pack al (args_n (zlen [(name_g, example_bin)])) = Some j →
      json_dumps al' j = Some text → text = [0; 1]) as Htext.
    { intros al al' j text. simpl. destruct (al 1); [intros [= <-]|done].
      by destruct (al' _); [intros [= <-]|]. }
    destruct (Hall alloc_4M_grants Hbuf) as (-> & al & al' & j & text & Hp & Ht & Hb).
    { intros al al' j text Hp Ht. by rewrite (Htext _ _ _ _ Hp Ht). }
    split; [done|]. by rewrite (Htext _ _ _ _ Hp Ht) in Hb.
  - eapply wp_mono; [apply (@wait_answers text_json (2 ^ 22) _ "e"%string alloc_4M 1 srv0 _
      [] false [] [] [] alloc_4M_sane (dm_view Hd) eq_refl)|].
    intros rc srv' (_ & _ & _ & -> & c & Hc & Hcl). split; [done|].
    exists (cl_set_waiting c true). by rewrite Hcl, lookup_insert_eq.
Defined.

Definition name_h : list Z := bytes_of "h"%string.

Lemma demo_names srv c0 c1 gid g (j : list Z) (bound : nat) :
  demo srv c0 c1 gid g → (length j < bound)%nat →
  match @json_unpack_so text_json j "name" with
  | inl arr => table_room 22 (zlen (@json_array_elems text_json arr)) srv ∧
      ∀ v name, v ∈ json_array_elems arr → json_string_value v = Some name → short bound name
  | inr text => short 61 text
  end.
Proof.
  intros Hd Hj. simpl. split; [by apply (demo_table Hd)|].
  intros v name ->%list_elem_of_singleton [= <-]. by apply short_text.
Qed.

(** Client 0 joins a group that did not exist; it cannot join one twice. *)
Lemma join_joins_witness : ∃ srv,
  wp (dime_client_join "e"%string alloc_4M 0 name_h) srv (λ rc srv',
    rc = 0 → member srv' "h"%string 0 ∧ ¬ member srv' "h"%string 1 ∧ member srv' "send"%string 1) ∧
  wp (dime_client_join "e"%string alloc_4M 0 name_g) srv (λ rc srv',
    ∀ n x, rc = 0 → member srv' n x ↔ member srv n x).
Proof.
  destruct demo_exists as (srv & c0 & c1 & gid & g & Hd). exists srv.
  destruct (demo_lookup Hd) as [H0 H1]. split.
  - eapply wp_mono; [apply (@join_joins text_json (2 ^ 22) _ "e"%string 22 alloc_4M 0 name_h srv _
      ltac:(lia) alloc_4M_sane alloc_4M_grants alloc_4M_grants (dm_view Hd))|].
    + by rewrite H0.
    + apply (demo_names _ _ _ _ _ _ _ Hd). simpl. lia.
    + intros rc srv' (_ & _ & front & names & rest & He & Hn & Hm & Hr & _) H0'.
      rewrite (proj1 (Hr H0')), app_nil_r in He. simpl in He. subst front.
      apply Forall2_cons_inv_l in Hn as (n & ns & [= <-] & ->%Forall2_nil_inv_l & ->).
      rewrite !Hm, !(demo_member Hd). set_solver.
  - eapply wp_mono; [apply (@join_joins text_json (2 ^ 22) _ "e"%string 22 alloc_4M 0 name_g srv _
      ltac:(lia) alloc_4M_sane alloc_4M_grants alloc_4M_grants (dm_view Hd))|].
    + by rewrite H0.
    + apply (demo_names _ _ _ _ _ _ _ Hd). simpl. lia.
    + intros rc srv' (_ & _ & front & names & rest & He & Hn & Hm & Hr & _) n x H0'.
      rewrite (proj1 (Hr H0')), app_nil_r in He. simpl in He. subst front.
      apply Forall2_cons_inv_l in Hn as (n' & ns & [= <-] & ->%Forall2_nil_inv_l & ->).
      rewrite !Hm, !(demo_member Hd). set_solver.
Defined.

Lemma leave_leaves_witness : ∃ srv,
  wp (dime_client_leave "e"%string alloc_4M 0 name_g) srv (λ rc srv', rc = 0 ∧
    ¬ member srv' "send"%string 0 ∧ member srv' "send"%string 1).
Proof.
  destruct demo_exists as (srv & c0 & c1 & gid & g & Hd). exists srv.
  destruct (demo_lookup Hd) as [H0 H1].
  eapply wp_mono; [apply (@leave_leaves text_json (2 ^ 22) _ "e"%string 22 alloc_4M 0 name_g srv _
    alloc_4M_sane alloc_4M_grants alloc_4M_grants (dm_view Hd))|].
  - by rewrite H0.
  - apply (demo_names _ _ _ _ _ _ _ Hd). simpl. lia.
  - intros rc srv' (Hrc & _ & front & names & rest & He & Hn & Hm & Hr & Hbad).
    assert (rc = 0) as ->.
    { destruct Hrc as [|Hrc]; [done|]. specialize (Hbad Hrc).
      destruct front as [|v [|v2 front]]; simpl in He; [subst rest|injection He as <- <-|done].
      - apply Forall2_nil_inv_l in Hn as ->. destruct Hbad as (args & [[=]|name [= <-] Hnot] & _).
        destruct Hnot. apply Hm. split; [apply (demo_member Hd); auto|set_solver].
      - destruct Hbad as (c & Hc & Hroom). destruct (demo_client Hd _ _ Hc) as [fd Hnew].
        destruct Hroom. by apply (new_client_room fd c). }
    split; [done|]. rewrite (proj1 (Hr eq_refl)), app_nil_r in He. simpl in He. subst front.
    apply Forall2_cons_inv_l in Hn as (n' & ns & [= <-] & ->%Forall2_nil_inv_l & ->).
    rewrite !Hm, !(demo_member Hd). set_solver.
Defined.

Definition example_tls : tls_env := TlsEnv fcntl_ok (λ _ b, zlen b) true true true fcntl_ok.
Definition name_json : list Z := bytes_of "json"%string.

Lemma demo_can_shake {srv c0 c1 gid g} :
  demo srv c0 c1 gid g → can_shake (limit:=2 ^ 22) 0 name_json srv.
Proof.
  intros Hd. exists "json"%string, false, DIME_JSON. split; [done|]. split; [done|].
  assert (∀ al, generous (limit:=2 ^ 22) al → al 1 = true) as Hone by (intros al Hal; by apply Hal).
  split.
  { intros _. split.
    - intros al Hal. simpl. rewrite (Hone al) by done. eauto.
    - intros al al' meta Hal. simpl. destruct (al' 1); [|done]. intros [= <-].
      rewrite Hal; [eauto|by vm_compute].
    - apply (demo_all_room Hd). }
  cbv zeta. split_and!.
  - intros al Hal. simpl. rewrite (Hone al) by done. eauto.
  - intros al al' resp Hal. simpl. destruct (al' 1); [|done]. intros [= <-].
    rewrite Hal; [eauto|]. by destruct (negotiated _ _); vm_compute.
  - intros c Hc. apply (demo_all_room Hd _ _ Hc).
Qed.

Lemma handshake_negotiates_witness : ∃ srv,
  wp (dime_client_handshake alloc_4M example_tls 0 name_json) srv (λ rc srv',
    rc = 0 ∧ sv_serialization srv' = negotiated (sv_serialization srv) DIME_JSON) ∧
  wp (dime_client_handshake alloc_4M example_tls 0 name_g) srv (λ rc srv',
    rc = -1 ∧ srv' = srv).
Proof.
  destruct demo_exists as (srv & c0 & c1 & gid & g & Hd). exists srv.
  destruct (demo_lookup Hd) as [H0 H1]. split.
  - eapply wp_mono; [apply (@handshake_negotiates text_json (2 ^ 22) _ alloc_4M example_tls 0
      name_json srv _ alloc_4M_sane (dm_view Hd)); [by rewrite H0|done]|].
    intros rc srv' (_ & _ & _ & Hall).
    destruct (Hall _ _ eq_refl) as [Hdone Hcan].
    assert (rc = 0) as Hrc by (apply Hcan; [apply alloc_4M_grants|exact (demo_can_shake Hd)]).
    split; [exact Hrc|].
    change (serialization_of (string_of_bytes name_json)) with (Some DIME_JSON) in Hdone.
    cbv beta iota in Hdone. destruct (Hdone Hrc alloc_4M_grants) as [(s & tls & i & [= <- _] & Hi & Hser & _) _].
    vm_compute in Hi. injection Hi as <-. exact Hser.
  - eapply wp_mono; [apply (@handshake_negotiates text_json (2 ^ 22) _ alloc_4M example_tls 0
      name_g srv _ alloc_4M_sane (dm_view Hd)); [by rewrite H0|done]|].
    intros rc srv' (_ & _ & _ & Hall). exact (proj1 (Hall _ _ eq_refl)).
Defined.

Lemma demo_only_send {srv c0 c1 gid g} ns :
  demo srv c0 c1 gid g → all_names srv ns → ns = ["send"%string].
Proof.
  intros Hd [Hnd Hin]. assert (∀ n, n ∈ ns ↔ n = "send"%string) as Hsend.
  { intros n. rewrite Hin. setoid_rewrite (demo_member Hd). split; [by intros (x & -> & _)|].
    intros ->. exists 0. auto. }
  destruct ns as [|n ns].
  { by destruct (not_elem_of_nil "send"%string); apply Hsend. }
  assert (n = "send"%string) as -> by (apply Hsend; left).
  apply NoDup_cons in Hnd as [Hnot _]. destruct ns as [|n' ns]; [done|].
  destruct Hnot. rewrite <-(proj1 (Hsend n')); [left|right; left].
Qed.

Lemma demo_array n arr : array_of [n] arr → arr = bytes_of n.
Proof.
  intros Harr. inversion Harr as [|al al' ns n' a s a' Hns Hs Ha Heq]; subst.
  destruct ns as [|? ns]; [|by destruct ns]. injection Heq as <-.
  assert (a = []) as ->.
  { inversion Hns as [? ? E|? ? ns ? ? ? ? ? ? ? E]; [|by destruct ns]. simpl in E. by destruct (al0 1); simplify_eq. }
  simpl in Hs, Ha. destruct (al 1); [|done]. destruct (al' 1); [|done]. by simplify_eq.
Qed.

Lemma demo_can_append srv : can_append (limit:=2 ^ 22) srv.
Proof.
  split.
  - intros al al' ns arr gid g s Hal _ _ _ _. simpl. rewrite Hal by done. eauto.
  - intros al arr ns Hal _ _. simpl. rewrite Hal by done. eauto.
Qed.

Lemma demo_can_list {srv c0 c1 gid g} :
  demo srv c0 c1 gid g → can_list (limit:=2 ^ 22) 0 srv.
Proof.
  intros Hd. split.
  - intros al Hal. simpl. rewrite Hal by done. eauto.
  - intros gid' g' _ al Hal. simpl. rewrite Hal by done. eauto.
  - apply demo_can_append.
  - intros al al' arr ns resp Hal Hns Harr. rewrite (demo_only_send _ Hd Hns) in Harr.
    rewrite (demo_array _ _ Harr). simpl. destruct (al' 1); [|done]. intros [= <-].
    rewrite Hal; [eauto|by vm_compute].
  - intros c Hc. apply (demo_all_room Hd _ _ Hc).
Qed.

Lemma devices_lists_witness : ∃ srv,
  wp (dime_client_devices "e"%string alloc_4M 0) srv (λ rc srv',
    rc = 0 ∧ ∃ text, told (limit:=2 ^ 22) (text, []) 0 srv srv').
Proof.
  destruct demo_exists as (srv & c0 & c1 & gid & g & Hd). exists srv.
  destruct (demo_lookup Hd) as [H0 H1].
  eapply wp_mono; [apply (@devices_lists text_json (2 ^ 22) _ "e"%string alloc_4M 0 srv _
    alloc_4M_sane alloc_4M_grants (dm_view Hd)); [by rewrite H0|apply demo_can_append]|].
  intros rc srv' (_ & _ & _ & Hall & Hcan).
  assert (rc = 0) as Hrc by by apply Hcan, (demo_can_list Hd). split; [exact Hrc|].
  destruct (Hall Hrc) as (ns & arr & al & resp & al' & text & _ & _ & _ & _ & Ht). by exists text.
Defined.

Lemma close_forgets_witness : ∃ srv,
  wp (close_client 0) srv (λ _ srv', server_view srv' {[1 := []]} ∧ member srv' "send"%string 1 ∧
    ¬ member srv' "send"%string 0).
Proof.
  destruct demo_exists as (srv & c0 & c1 & gid & g & Hd). exists srv.
  destruct (demo_lookup Hd) as [H0 H1].
  eapply wp_mono; [apply (close_forgets srv _ 0 c0 (dm_view Hd) H0)|].
  - destruct (nc_queue _ _ (dm_c0 _ _ _ _ _ Hd)) as [[_ _ [Hl _] _ _ _] Hcap].
    unfold dime_deque_len. by rewrite Hl, Hcap.
  - intros [] srv' (Hv & _ & Hm & _). split; [exact Hv|]. rewrite !Hm, !(demo_member Hd).
    split; [by split; [split; [done|right]|]|by intros [_ []]].
Defined.

(** Sixteen messages in a queue with sixteen places. *)
Definition full_mids : list Z := seqZ 100 16.
Definition full_queue : dime_deque Z := Deque 16 (Some <$> full_mids) 16 0 0.
Definition full_msgs : gmap Z dime_rcmessage :=
  list_to_map ((λ mid, (mid, Msg 1 [] [])) <$> full_mids).
Definition full_qs : gmap Z (list Z) := {[0 := []; 1 := full_mids]}.

Lemma full_queue_rep : deque_rep full_queue full_mids.
Proof.
  split; try (by vm_compute). intros k x Hk. pose proof (zget_Some_lt _ _ _ Hk) as Hlt.
  change (zlen full_mids) with 16 in Hlt. unfold wrap.
  change (dq_cap full_queue) with 16. change (dq_begin full_queue) with 0.
  rewrite (proj2 (Z.ltb_lt _ _)) by lia. rewrite Z.add_0_l. unfold zget in Hk |- *.
  rewrite decide_True in Hk by lia. rewrite decide_True by lia. change (dq_arr full_queue) with (Some <$> full_mids). by rewrite list_lookup_fmap, Hk.
Qed.

Lemma full_refs : refs_inv None full_msgs full_qs.
Proof.
  assert (map_Forall (λ mid m, ms_refs m = refs_of full_qs mid ∧
    (zlen (ms_jsondata m) ≤ MAXOBJ ∧ zlen (ms_bindata m) ≤ MAXOBJ) ∧ 0 < ms_refs m) full_msgs)
    as Hall by (apply (bool_decide_unpack _); vm_compute; exact I).
  assert (map_Forall (λ _ xs, NoDup xs ∧ Forall (λ mid, is_Some (full_msgs !! mid)) xs) full_qs)
    as Hqs by (apply (bool_decide_unpack _); vm_compute; exact I).
  split.
  - intros cid xs Hx. apply (Hqs _ _ Hx).
  - intros mid m Hm. destruct (Hall _ _ Hm) as (? & ? & _). by split.
  - intros mid m Hm. left. apply (Hall _ _ Hm).
  - intros cid xs mid Hx. destruct (Hqs _ _ Hx) as [_ Hf]. rewrite Forall_forall in Hf. apply Hf.
  - by vm_compute.
Qed.

Lemma full_server : ∃ srv c, server_inv None srv full_qs ∧ sv_clients srv !! 1 = Some c ∧
  cl_queue c = full_queue.
Proof.
  destruct demo_exists as (srv & c0 & c1 & gid & g & Hd). destruct (demo_lookup Hd) as [H0 H1].
  pose proof (dm_inv _ _ _ _ _ Hd) as Hinv.
  exists (sv_set_next (sv_set_msgs (sv_set_clients srv (<[1 := cl_set_queue c1 full_queue]>
    (sv_clients srv))) full_msgs) (Z.max 200 (sv_next srv))), (cl_set_queue c1 full_queue).
  split; [|split; [apply lookup_insert_eq|done]]. split; simpl; try apply Hinv.
  - rewrite fmap_insert. intros x. pose proof (vi_queues _ _ _ Hinv x) as Hq.
    unfold full_qs. destruct (decide (x = 1)) as [->|Hne].
    + rewrite lookup_insert_eq. apply full_queue_rep.
    + rewrite (lookup_insert_ne _ 1) by done. destruct (decide (x = 0)) as [->|Hne0]; [exact Hq|].
      assert (∀ l : list Z, ({[0 := []; 1 := l]} : gmap Z (list Z)) !! x = None) as Hn.
      { intros l. rewrite lookup_insert_ne, lookup_singleton_ne by done. done. }
      rewrite Hn in Hq. by rewrite Hn.
  - apply full_refs.
  - rewrite (fmap_insert_same joined _ _ c1) by done. apply Hinv.
  - rewrite (fmap_insert_same cl_fd _ _ c1) by done. apply Hinv.
  - intros x c [[<- <-]|[_ Hx]]%lookup_insert_Some; [apply (vi_socks _ _ _ Hinv 1 c1 H1)|]. by eapply (vi_socks _ _ _ Hinv).
  - intros x c [[<- <-]|[_ Hx]]%lookup_insert_Some Hw.
    + simpl in Hw. by rewrite (nc_waiting _ _ (dm_c1 _ _ _ _ _ Hd)) in Hw.
    + destruct (demo_client Hd _ _ Hx) as [fd Hn]. by rewrite (nc_waiting _ _ Hn) in Hw.
  - intros p [Hp|[Hp|Hp]].
    + apply lookup_insert_is_Some in Hp as [<-|[_ Hp]]; [lia|].
      pose proof (vi_next _ _ _ Hinv p (or_introl Hp)). lia.
    + pose proof (vi_next _ _ _ Hinv p (or_intror (or_introl Hp))). lia.
    + destruct Hp as [m Hm].
      assert (map_Forall (λ mid _, mid < 200) full_msgs) as Hall
        by (apply (bool_decide_unpack _); vm_compute; exact I).
      specialize (Hall _ _ Hm). simpl in Hall. lia.
Qed.

Lemma full_queue_leaks_witness : ∃ srv,
  wp (dime_client_destroy 1) srv (λ _ srv', ¬ server_ok srv' ∧
    ∃ m, sv_msgs srv' !! 115 = Some m ∧ ms_refs m = 1).
Proof.
  destruct full_server as (srv & c & Hinv & Hc & Hq). exists srv.
  eapply wp_mono; [apply (full_queue_leaks srv full_qs 1 c full_mids Hinv Hc)|].
  - by vm_compute.
  - by rewrite Hq.
  - intros [] srv' (_ & _ & Hm & Hno). split; [done|].
    destruct (Hm 115) as (m & Hm' & Hr); [by apply (bool_decide_unpack _); vm_compute|].
    exists m. split; [done|]. by rewrite Hr.
Defined.
