(* ===== verification/ServerRuns.v ===== *)
(** * Properties of the server

    The dispatch of commands and whole runs, against the abstract server of
    [ServerProps]; connections; and what a name that is too long does. *)

From S2P Require Import Prelude Bytes Deque Ringbuffer Json Socket SocketSpec SocketProps.
From S2P Require Import SocketWf Table TableSpec TableMap Hash State Client WebSocket Server.
From S2P Require Import Invariant ClientSpec ClientPush ClientDeliver Inbox Sound ClientSend.
From S2P Require Import ClientQueue ClientGone ClientGroups ClientHello ServerSpec ServerProps.
From S2P Require Import ServerLoop Demo.
From Stdlib Require String.

Section commands.
Context `{Jansson} {b : Z} `{!JanssonLaws (2 ^ b)}.
Variable strerror : string.
Implicit Types (o : oracle) (cid gid mid : Z) (srv : dime_server).

(** C5: the dispatch returns, with 0 or -1, and implements the abstract
    commands, if the allocator grants blocks of up to 2^b bytes and the command
    can rely on what the code does not check ([command_ok], [devices_ok]): the
    name in a [send] is shorter than 59 characters and those in a [join] or
    [leave] shorter than 53, like the error texts of the library they fit the
    error buffer; the table of the groups has room for the new ones; every
    outbuffer has room for a header; the number in a [sync] is below 2^63; and
    for [devices] the library can append the names of the groups to an array
    and pack it. Then, from a state that shows the queues and memberships [v],
    it ends in one that keeps the invariant and shows a [v'] to which the
    command named by the member "command" takes [v] when it answers that value;
    an unknown or missing command answers -1 and changes nothing that can be
    seen. *)
Theorem dispatch_refines o env cid j bin srv v :
  10 ≤ b ≤ 47 → oracle_sane o → grants o (2 ^ b) → views srv v →
  is_Some (sv_clients srv !! cid) → command_ok (b:=b) j bin srv → devices_ok (b:=b) j srv →
  wp (dispatch strerror o env cid j bin) srv (λ rc srv',
    (rc = 0 ∨ rc = -1) ∧ cl_fd <$> sv_clients srv' = cl_fd <$> sv_clients srv ∧
    ∃ v', views srv' v' ∧ abs_command cid j bin (command_of j) rc v v' ∧
      (command_of j ∉ commands → rc = -1 ∧ v' = v)).
Proof.
  intros Hb Hs Hg Hv Hcid Hok Hdev.
  eapply wp_mono; [apply (dispatch_performs strerror o env cid j bin srv v); try done;
    intros ?; left; auto|].
  intros rc srv' (Hrc & Hfd & _ & v' & Hv' & Habs). split; [done|]. split; [done|].
  exists v'. split; [done|]. split; [done|]. intros Hno. unfold commands in Hno.
  inversion Habs; subst; try done; exfalso; apply Hno; set_solver.
Qed.

(** The loop over the messages that have arrived ends: with more fuel than
    the inbuffers have bytes, [serve_messages] returns, with the connections
    that were there before and a state that keeps the invariant, if no size
    wraps and every command can rely on what it needs. *)
Theorem serve_messages_ends fuel o env cid c srv :
  18 ≤ b ≤ 47 → oracle_sane o → grants o (2 ^ b) → server_ok srv →
  sv_clients srv !! cid = Some c → pending (cl_sock c) < Z.of_nat fuel →
  serve_ok (b:=b) strerror fuel o env cid srv →
  wp (serve_messages strerror fuel o env cid) srv (λ _ srv', sound srv' ∧ server_ok srv' ∧
    cl_fd <$> sv_clients srv' = cl_fd <$> sv_clients srv).
Proof.
  intros Hb Hs Hg Hok Hc Hfuel Hserve. eapply wp_mono.
  { by apply (serve_steps (b:=b) strerror id id 0 Hb ltac:(lia) fuel o env cid srv c). }
  intros go srv' [Hrun Hfd].
  assert (server_ok srv') as Hok' by (eapply (steps_view strerror id id 0); try done; lia).
  split_and!; [by apply server_ok_sound|done|]. fold (fd_map srv') (fd_map srv).
  by rewrite !kept_fds, Hfd.
Qed.
End commands.

Section names.
Context `{Jansson}.
Variable strerror : string.
Implicit Types (o : oracle) (cid gid mid : Z) (srv : dime_server).

(** C39: naming a group that has no member by a name of 59 characters or more is
    undefined behaviour: the error message does not fit [srv->err], because
    [strncat] is given the room that is left without its terminator. *)
Theorem send_long_name_overflows o cid j bin srv boxes name :
  server_view srv boxes → json_unpack_ss j "name" = inl name → (59 ≤ String.length name)%nat →
  (∀ x, ¬ member srv name x) →
  dime_client_send strerror o cid j bin srv = Undef.
Proof.
  intros (qs & Hinv & _) Hn Hlen Hnobody. unfold dime_client_send. rewrite Hn.
  destruct (search_names _ _ name (vi_names _ _ _ Hinv)) as (r & tbl & Hrun & _ & Hr).
  assert (∀ s, fail_text2 (sub o 1) cid "No such group exists: " name s = Undef) as Hfail.
  { intros s. unfold fail_text2, set_err2. by rewrite (proj2 (Nat.ltb_ge _ _)) by (simpl; lia). }
  unfold mbind, M_bind, gets, lift. rewrite Hrun.
  destruct r as [gid|]; [|apply Hfail].
  pose proof (proj1 (Hr gid) eq_refl) as Hg. rewrite lookup_fmap in Hg.
  destruct (sv_groups srv !! gid) as [g|] eqn:Hgid; [|done]. injection Hg as Hg.
  unfold get_group, deref, modify. cbn [sv_groups sv_set_name2clnt]. rewrite Hgid.
  destruct (gr_clnts g) as [|x l] eqn:El.
  - apply Hfail.
  - destruct (Hnobody x). exists gid, g. rewrite El. split_and!; [done..|by left].
Qed.
End names.

Section runs.
Context `{Jansson} {b : Z} `{!JanssonLaws (2 ^ b)}.
Variable strerror : string.
Variables sha1 encode_block : list Z → list Z.
Variable sizeof_client : Z.
Implicit Types (o : oracle) (cid gid mid : Z) (srv : dime_server).

(** C1: whatever connections come and go, whatever commands are run with memory
    for the notifications, and whatever their sockets receive and send, the
    state is sound as long as no connection with an exactly full queue is
    closed: the reference count of every message is the number of queues that
    hold it and is not 0, what is queued has not been freed, clients and groups
    agree on the memberships, and no client waits while it has messages. *)
Theorem runs_are_sound o daemon fork srv0 ls srv :
  18 ≤ b ≤ 47 → sizeof_client ≤ 2 ^ b → dime_server_init o daemon fork = InitDone srv0 ls →
  rtc (server_step (b:=b) strerror sha1 encode_block sizeof_client) srv0 srv → sound srv.
Proof.
  intros Hb Hsize Hinit%views_init Hrun.
  destruct (runs_simulate strerror sha1 encode_block sizeof_client _ _ _ Hb Hsize Hrun Hinit)
    as (v & [Hv _] & _).
  by eapply server_ok_sound, server_view_ok.
Qed.

(** C2: every such run implements a run of the abstract server, which knows
    only the queued messages and the memberships, and ends in a state that
    shows the abstract one. *)
Theorem runs_refine o daemon fork srv0 ls srv :
  18 ≤ b ≤ 47 → sizeof_client ≤ 2 ^ b → dime_server_init o daemon fork = InitDone srv0 ls →
  rtc (server_step (b:=b) strerror sha1 encode_block sizeof_client) srv0 srv →
  ∃ v, views srv v ∧ rtc abs_step view0 v.
Proof.
  intros Hb Hsize Hinit%views_init Hrun.
  by eapply (runs_simulate strerror sha1 encode_block sizeof_client).
Qed.

(** C18: with memory for blocks of up to 2^b bytes, a descriptor that is not in
    use and room in the table of the connections, [accept_client] returns, for
    a WebSocket connection if its client sends an HTTP request, in any pieces
    and with any headers, or breaks off with an error ([ws_peer]; one that
    closes the connection during the handshake makes the code read for ever).
    It registers the new connection under its descriptor with an empty queue
    and no group, and changes nothing else, or it drops a WebSocket connection
    whose handshake fails and changes nothing at all. *)
Theorem accept_registers o fd family ws protocol srv boxes :
  18 ≤ b ≤ 47 → oracle_sane o → grants o (2 ^ b) → sizeof_client ≤ 2 ^ b → server_view srv boxes →
  (∀ cid c, sv_clients srv !! cid = Some c → cl_fd c ≠ fd) →
  dime_table_len (sv_fd2clnt srv) < 2 ^ (b - 6) → Z.of_nat (size (sv_clients srv)) + 1 < 2 ^ 32 →
  (protocol = DIME_WS → ws_peer sha1 encode_block ws) →
  wp (accept_client sha1 encode_block sizeof_client o (Some (fd, family)) ws protocol) srv
    (λ r srv', r = Some None ∧ protocol = DIME_WS ∧ srv' = srv ∧
         handshake_fails sha1 encode_block o fd family ws ∨
       r = Some (Some fd) ∧ sound srv' ∧ ∃ cid c, boxes !! cid = None ∧
         server_view srv' (<[cid := []]> boxes) ∧ (∀ n x, member srv' n x ↔ member srv n x) ∧
         sv_clients srv' = <[cid := c]> (sv_clients srv) ∧ cl_fd c = fd).
Proof.
  intros Hb Hs Hg Hsize Hv Hfresh Hlen Hmany Hws.
  pose proof (wp_accept sha1 encode_block sizeof_client b o fd family ws protocol srv boxes) as Hw.
  unfold wp in *. destruct (accept_client _ _ _ _ _ _ _ _) as [[r srv']| |] eqn:Hrun; simpl in *;
    [|by apply Hw; try done; apply peer_handshake..].
  destruct Hw as [(-> & ? & ?)|(-> & Hv' & Hm & c & Hc & Hfd)]; try done; [by apply peer_handshake| |].
  { left. by apply accept_dropped in Hrun. }
  right. split; [done|].
  split; [by eapply server_ok_sound, server_view_ok|]. exists (sv_next srv), c. split_and!; try done.
  destruct (boxes !! sv_next srv) eqn:E; [|done]. pose proof Hv as (qs & Hinv & _).
  destruct (inv_fresh _ _ _ Hinv) as (Hnone & _).
  assert (is_Some (sv_clients srv !! sv_next srv)) as [? ?]; [|congruence].
  apply (server_view_dom _ _ _ Hv). eauto.
Qed.

(** C8: [dime_server_loop] gets through any number of turns, or stops,
    whichever descriptors are ready in each turn, whatever they receive and
    however much of what is sent the system takes, if every turn can rely on
    what the code does not check ([loop_ok]): all descriptors are below
    FD_SETSIZE, the number of a new connection is not in use and there are
    fewer than 2^(b-6) of them, blocks of up to 2^b bytes are granted, a
    WebSocket client sends an HTTP request, in any pieces, or breaks off with
    an error, the size in a message or frame that arrives does not wrap, its
    command can rely on what [dispatch] does not check ([command_ok],
    [devices_ok]), and no connection with an exactly full queue is closed. What
    it does then is a run of the steps of the server and keeps the state sound.
    After every turn all listening sockets and all connections are in the read
    set, and a connection whose descriptor is none of the standard streams is
    in the write set exactly if it has something to send. *)
Theorem server_loop_steps o daemon fork srv0 ls0 fds listen turns :
  18 ≤ b ≤ 47 → sizeof_client ≤ 2 ^ b → dime_server_init o daemon fork = InitDone srv0 ls0 →
  loop_ok (b:=b) strerror sha1 encode_block sizeof_client fds turns srv0 →
  wp (dime_server_loop strerror sha1 encode_block sizeof_client fds listen turns) srv0 (λ r srv',
    rtc (server_step (b:=b) strerror sha1 encode_block sizeof_client) srv0 srv' ∧ sound srv' ∧
    match r with
    | None => True
    | Some lp => (∀ fd, fd ∈ fds.*1 → fd ∈ lp_rfds lp) ∧
        ∀ cid c, sv_clients srv' !! cid = Some c →
          cl_fd c ∈ lp_rfds lp ∧ cl_fd c ∉ fds.*1 ∧
          (3 ≤ cl_fd c → cl_fd c ∈ lp_wfds lp ↔ 0 < dime_socket_sendlen (cl_sock c))
    end).
Proof.
  intros Hb Hsize [Hinit ->]%server_init_tables Hgo.
  pose proof (proj1 (init_tables_view _ _ Hinit)) as Hv.
  eapply wp_mono; [apply (wp_server_loop (b:=b) strerror sha1 encode_block sizeof_client fds Hb Hsize
    listen turns srv0); [by eapply server_view_ok| |done]|].
  { by apply server_view_empty. }
  intros r srv' [Hrun Hr]. split; [done|]. split.
  { apply server_ok_sound. eapply (steps_view strerror sha1 encode_block sizeof_client); try done.
    by eapply server_view_ok. }
  destruct r as [lp|]; [|done]. destruct Hr as [[Hl Hw] Hwr]. split.
  { intros fd Hfd. by apply Hl. }
  intros cid c Hc. destruct (Hw cid (cl_fd c)) as (Hin & Hlt & Hno);
    [unfold fd_map; by rewrite lookup_fmap, Hc|].
  split_and!; [done..|]. intros H3. by apply (Hwr (cl_fd c) ltac:(lia) cid c).
Qed.
End runs.

(** ** Witnesses *)

#[local] Existing Instance text_json.
#[local] Instance text_json_runs : @JanssonLaws text_json (2 ^ 22).
Proof. by apply text_json_laws. Qed.

(** Short texts are fine as commands. *)
Lemma demo_command srv c0 c1 gid g (j bin : list Z) :
  demo srv c0 c1 gid g → zlen j < 53 → Forall byte j → zlen bin ≤ MAXOBJ →
  @command_ok text_json 22 j bin srv.
Proof.
  intros Hd Hj Hbytes Hbin.
  assert (∀ n, (53 ≤ n)%nat → short n (string_of_bytes j)) as Hshort.
  { intros n Hn. apply short_text. unfold zlen in Hj. lia. }
  split; simpl; try done.
  - by apply (demo_all_room Hd).
  - intros name [= <-]. apply Hshort; lia.
  - intros arr v name [= <-] ->%list_elem_of_singleton [= <-]. apply Hshort; lia.
  - intros arr [= <-]. by apply (demo_table Hd).
  - intros n Hn. destruct j as [|x j]; [done|]. injection Hn as <-.
    apply Forall_cons in Hbytes as [Hx _]. unfold byte in Hx. lia.
Qed.

Definition no_tls : tls_env := TlsEnv fcntl_fails (λ _ _, -1) false false false fcntl_fails.
Definition cmd_broadcast : list Z := bytes_of "broadcast"%string.

Lemma dispatch_refines_witness : ∃ srv v,
  wp (dispatch "e"%string alloc_4M no_tls 0 cmd_broadcast [7; 8]) srv (λ rc srv', (rc = 0 ∨ rc = -1) ∧
    ∃ v', views srv' v' ∧ abs_command 0 cmd_broadcast [7; 8] "broadcast" rc v v').
Proof.
  destruct demo_exists as (srv & c0 & c1 & gid & g & Hd). destruct (demo_lookup Hd) as [H0 _].
  set (v := View {[0 := []; 1 := []]} (member srv)). exists srv, v.
  eapply wp_mono; [apply (@dispatch_refines text_json 22 _ "e"%string alloc_4M no_tls 0 cmd_broadcast
    [7; 8] srv v ltac:(lia) alloc_4M_sane alloc_4M_grants)|].
  - split; [apply (dm_view Hd)|done].
  - by rewrite H0.
  - apply (demo_command _ _ _ _ _ _ _ Hd); [by vm_compute| |by vm_compute].
    repeat constructor; vm_compute; discriminate.
  - by vm_compute.
  - intros rc srv' (Hrc & _ & v' & Hv & Ha & _). split; [done|]. by exists v'.
Defined.

(** The command client 1 sends in the examples that follow: none. *)
Lemma demo_pop_nothing (s : dime_socket) :
  sock_rep s [] [] [] → so_ws s = false → ∀ o, @dime_socket_pop text_json o s = Ret (0, None, s).
Proof.
  intros [Hr _ _ _ _] Hws o. unfold dime_socket_pop. rewrite Hws. cbn [mbind outcome_bind].
  unfold pop_message. by rewrite (peek_rep _ []) by (done || lia).
Qed.

Lemma serve_messages_ends_witness : ∃ srv,
  wp (@serve_messages text_json "e"%string 1 alloc_4M (λ _, no_tls) 1) srv (λ _ srv', sound srv').
Proof.
  destruct demo_exists as (srv & c0 & c1 & gid & g & Hd). destruct (demo_lookup Hd) as [_ H1].
  exists srv. destruct (nc_sock _ _ (dm_c1 _ _ _ _ _ Hd)) as [Hrep Hws].
  eapply wp_mono; [apply (@serve_messages_ends text_json 22 _ "e"%string 1 alloc_4M (λ _, no_tls) 1 c1
    srv ltac:(lia) alloc_4M_sane alloc_4M_grants (server_view_ok _ _ (dm_view Hd)) H1)|].
  - unfold pending, dime_ringbuffer_len. rewrite Hws.
    destruct Hrep as [Hr _ _ _ _]. rewrite (proj1 (rr_len _ _ Hr)). done.
  - intros c Hc. rewrite H1 in Hc. injection Hc as <-.
    split; [by apply (sizes_fit_short _ [] [] [])|]. by rewrite demo_pop_nothing.
  - by intros go srv' (? & _).
Defined.

Lemma example_init : ∃ srv, dime_server_init alloc_4M true 0 = InitDone srv (Listen [] 8 [] 8) ∧ server_view srv ∅ ∧
  sv_next srv = 0 ∧ sv_clients srv = ∅ ∧ dime_table_len (sv_fd2clnt srv) = 0.
Proof.
  eexists. split; [reflexivity|]. split; [|done].
  eapply (proj1 (init_tables_view alloc_4M _ eq_refl)).
Qed.

(** A WebSocket client, and what SHA-1 and the encoder are taken for. *)
Definition ws_request : list Z := request example_path example_fields.
Definition ws_client : nat * ws_env := (length ws_request, byte_env ws_request).
Definition no_digest (_ : list Z) : list Z := replicate 28 65.

Lemma ws_client_peer : ws_peer id no_digest ws_client.
Proof.
  split; [|done]. exists example_path, example_fields. split_and!.
  - split; [done|]. intros c ->%list_elem_of_singleton. done.
  - repeat (apply Forall_cons; split;
      [split_and!; apply (bool_decide_unpack _); by vm_compute|]). apply Forall_nil. done.
  - apply streams_delivers, byte_env_streams.
  - done.
Qed.

Lemma accept_registers_witness : ∃ srv,
  wp (accept_client id no_digest 1000 alloc_4M (Some (5, AF_INET)) ws_client DIME_WS) srv
    (λ r srv', r = Some (Some 5) ∧ sound srv' ∧ ∃ cid c, server_view srv' {[cid := []]} ∧
       sv_clients srv' = {[cid := c]} ∧ cl_fd c = 5).
Proof.
  destruct example_init as (srv & _ & Hv & _ & Hcl & Hlen). exists srv.
  eapply wp_mono; [apply (@accept_registers 22 id no_digest 1000 alloc_4M 5 AF_INET ws_client DIME_WS
    srv ∅ ltac:(lia) alloc_4M_sane alloc_4M_grants ltac:(lia) Hv)|].
  - intros cid c. by rewrite Hcl, lookup_empty.
  - by rewrite Hlen.
  - by rewrite Hcl.
  - intros _. apply ws_client_peer.
  - intros r srv' [(_ & _ & _ & c & rc & resp & s & Hc & Hi & Hrc)|(-> & Hs & cid & c & _ & Hv' & _ & Hc & Hfd)].
    + exfalso. assert (match dime_client_init (sub alloc_4M 1) 5 AF_INET with
        | Some c => match dime_socket_init_ws id no_digest ws_client.1 (sub alloc_4M 2) ws_client.2
                      (cl_sock c) with Ret (rc, _, _) => 0 <=? rc | _ => false end
        | None => false
        end = true) as Hok by by vm_compute.
      rewrite Hc, Hi in Hok. apply Z.leb_le in Hok. lia.
    + split; [done|]. split; [done|]. exists cid, c. by rewrite Hc, Hcl.
Defined.

(** A run of one step, which accepts a connection. *)
Lemma example_run : ∃ srv0 srv c, dime_server_init alloc_4M true 0 = InitDone srv0 (Listen [] 8 [] 8) ∧
  rtc (@server_step text_json 22 "e"%string id id 1000) srv0 srv ∧
  sv_clients srv = {[0 := c]} ∧ cl_fd c = 5.
Proof.
  destruct example_init as (srv0 & Hinit & Hv & Hnext & Hcl & Hlen). exists srv0.
  assert (∀ cid c, sv_clients srv0 !! cid = Some c → cl_fd c ≠ 5) as Hfresh.
  { intros cid c. by rewrite Hcl, lookup_empty. }
  pose proof (wp_accept id id 1000 22 alloc_4M 5 AF_INET (0%nat, full_env) DIME_TCP srv0 ∅ ltac:(lia)
    alloc_4M_sane alloc_4M_grants ltac:(lia) Hv Hfresh) as Hw.
  apply returns_eq in Hw as ([r srv] & Hrun & Hr); [| |by rewrite Hcl|done]; [|by rewrite Hlen].
  destruct Hr as [(_ & [=] & _)|(_ & _ & _ & c & Hc & Hfd)]. exists srv, c.
  rewrite Hnext, Hcl in Hc. split_and!; [done| |done..]. apply rtc_once.
  eapply (step_accept _ _ _ _ alloc_4M 5 AF_INET (0%nat, full_env) DIME_TCP);
    [apply alloc_4M_sane|apply alloc_4M_grants|done| | |exact Hrun].
  - by rewrite Hlen.
  - by rewrite Hcl.
Qed.

Lemma runs_are_sound_witness : ∃ srv c, sound srv ∧ sv_clients srv = {[0 := c]} ∧ cl_fd c = 5.
Proof.
  destruct example_run as (srv0 & srv & c & Hinit & Hrun & Hc & Hfd). exists srv, c.
  split; [|done].
  apply (@runs_are_sound text_json 22 _ "e"%string id id 1000 alloc_4M true 0 srv0 _ srv ltac:(lia) ltac:(lia)
    Hinit Hrun).
Defined.

Lemma runs_refine_witness : ∃ srv c v, sv_clients srv = {[0 := c]} ∧ views srv v ∧
  rtc (@abs_step text_json) view0 v.
Proof.
  destruct example_run as (srv0 & srv & c & Hinit & Hrun & Hc & Hfd). exists srv, c.
  destruct (@runs_refine text_json 22 _ "e"%string id id 1000 alloc_4M true 0 srv0 _ srv ltac:(lia) ltac:(lia)
    Hinit Hrun) as (v & Hv & Ha).
  by exists v.
Defined.

Definition long_name : list Z := bytes_of "a group with a name that is much longer than anybody would like"%string.

Lemma send_long_name_overflows_witness : ∃ srv,
  @dime_client_send text_json "e"%string alloc_4M 0 long_name [] srv = Undef.
Proof.
  destruct demo_exists as (srv & c0 & c1 & gid & g & Hd). exists srv.
  apply (@send_long_name_overflows text_json "e"%string alloc_4M 0 long_name [] srv _
    (string_of_bytes long_name) (dm_view Hd) eq_refl).
  - apply Nat.leb_le. by vm_compute.
  - intros x [Hn _]%(demo_member Hd). by vm_compute in Hn.
Defined.

(** A turn in which a connection arrives, and one in which nothing happens. *)
Definition arrival : turn_env := {|
  tn_select := true;
  tn_readable := {[3]};
  tn_writable := ∅;
  tn_accept := λ _, Some (5, AF_INET);
  tn_ws := λ _, (0%nat, full_env);
  tn_recv := λ _, None;
  tn_send := λ _ _, 0;
  tn_tls := λ _ _, no_tls;
|}.

Definition silence : turn_env := {|
  tn_select := true;
  tn_readable := ∅;
  tn_writable := ∅;
  tn_accept := λ _, None;
  tn_ws := λ _, (0%nat, full_env);
  tn_recv := λ _, None;
  tn_send := λ _ _, 0;
  tn_tls := λ _ _, no_tls;
|}.

Definition example_fds : list (Z * dime_protocol) := [(3, DIME_TCP)].

Lemma idle_ok o env i il lp srv :
  i ∉ tn_readable env → i ∉ tn_writable env →
  @handle_fds_ok text_json 22 "e"%string id id 1000 example_fds (sub o 1) env il lp srv →
  @handle_fds_ok text_json 22 "e"%string id id 1000 example_fds o env (i :: il) lp srv.
Proof.
  intros Hr Hw Hil. split.
  - split; [done|]. split; [done|]. intros lp' known srv1 _ ?. done.
  - unfold handle_fd. rewrite decide_False by done. cbn [mbind M_bind mret M_ret andb].
    rewrite bool_decide_eq_false_2 by done. intros lp' srv' [= <- <-]. exact Hil.
Qed.

Lemma quiet_turn_ok env il : ∀ o lp srv,
  (∀ i, i ∈ il → i ∉ tn_readable env ∧ i ∉ tn_writable env) →
  @handle_fds_ok text_json 22 "e"%string id id 1000 example_fds o env il lp srv.
Proof.
  induction il as [|i il IH]; intros o lp srv Hil; [done|].
  destruct (Hil i) as [Hr Hw]; [by left|]. apply idle_ok; [done..|]. apply IH. intros k Hk.
  apply Hil. by right.
Qed.

Lemma no_clients_len srv :
  server_ok srv → sv_clients srv = ∅ → dime_table_len (sv_fd2clnt srv) = 0.
Proof.
  intros (qs & Hinv) Hcl. destruct (vi_fds _ _ _ Hinv) as (fm & Htbl & Hfm).
  rewrite (table_inv_len _ _ _ Htbl).
  assert (fm = ∅) as ->; [|done]. apply map_eq. intros fd. rewrite lookup_empty.
  destruct (fm !! fd) as [cid|] eqn:E; [|done]. apply Hfm in E.
  by rewrite lookup_fmap, Hcl, lookup_empty in E.
Qed.

Lemma server_loop_steps_witness : ∃ srv0,
  wp (@dime_server_loop text_json "e"%string id id 1000 example_fds (λ _, true)
        [(alloc_4M, arrival); (alloc_4M, silence)]) srv0 (λ r srv', sound srv').
Proof.
  destruct example_init as (srv & Hinit & Hv & _ & Hcl & Hlen). exists srv.
  eapply wp_mono; [apply (@server_loop_steps text_json 22 _ "e"%string id id 1000 alloc_4M true 0 srv _
    example_fds (λ _, true) [(alloc_4M, arrival); (alloc_4M, silence)] ltac:(lia) ltac:(lia) Hinit)|].
  - split; [by apply Forall_singleton|]. intros lp Hlp. split_and!; [apply alloc_4M_sane|apply alloc_4M_grants| |].
    + intros _. destruct (wt_listen _ _ _ Hlp 3) as [Hin Hlt]; [by left|].
      assert (fd_range (lp_maxfd lp) = 3 :: seqZ 4 (lp_maxfd lp - 4)) as ->.
      { unfold fd_range. rewrite seqZ_cons by lia. f_equal. f_equal; lia. }
      split.
      * split; [|split; [set_solver|intros ??? _ _; set_solver]]. intros _ r srv1 Hrun.
        pose proof (find_steps (b:=22) "e"%string id id 1000 3 srv (server_view_ok _ _ Hv)) as Hf.
        unfold wp in Hf. rewrite Hrun in Hf. destruct Hf as (_ & Hok1 & Hcl1 & Hr).
        rewrite Hcl in Hcl1. destruct r as [cid|].
        { destruct (proj1 (Hr cid) eq_refl) as (c & Hc & _). by rewrite Hcl in Hc. }
        intros j p _ Hp fd family [= <- <-]. split; [done|]. split; [set_solver by lia|].
        split; [intros cid c; by rewrite Hcl1|]. rewrite (no_clients_len srv1), Hcl1 by done.
        split; [done|]. split; [done|]. destruct j as [|j]; [by injection Hp as <-|done].
      * intros lp' srv' _. apply quiet_turn_ok. intros i Hi%elem_of_seqZ. simpl. set_solver by lia.
    + intros lp' srv' _. split_and!; [apply alloc_4M_sane|apply alloc_4M_grants| |done].
      intros _. apply quiet_turn_ok. intros i _. simpl. set_solver.
  - by intros r srv' (_ & Hs & _).
Defined.
