(* ===== verification/Answers.v ===== *)
(** * The answers to commands

    What a client gets back for a command: one response, or none, or the
    messages it asked for and a response. *)

From S2P Require Import Prelude Bytes Deque Ringbuffer Json Socket SocketSpec SocketWf Table.
From S2P Require Import TableSpec TableMap Hash State Client WebSocket Server Invariant.
From S2P Require Import ClientSpec ClientPush ClientDeliver Inbox ClientSend ClientQueue.
From S2P Require Import ClientGone ClientGroups ClientHello ServerSpec ServerProps Demo ServerRuns.
From Stdlib Require String.

Section answers.
Context `{Jansson} {b : Z} `{!JanssonLaws (2 ^ b)}.
Variable strerror : string.
Implicit Types (o : oracle) (cid gid mid : Z) (srv : dime_server).

(** ** What a client is to get *)

(** Why a command is refused, in the state it leaves, and the response that
    says so. *)
Inductive refusal cid j srv : cmd_args → Prop :=
  | refuse_unknown : command_of j ∉ commands → refusal cid j srv (args_error "Unknown command")
  | refuse_handshake text : command_of j = "handshake"%string →
      json_unpack_sssb j "serialization" "tls" = inr text →
      refusal cid j srv (args_error2 parse_error text)
  | refuse_names text : command_of j ∈ ["join"; "leave"]%string →
      json_unpack_so j "name" = inr text → refusal cid j srv (args_error2 parse_error text)
  | refuse_name text : command_of j = "send"%string →
      json_unpack_ss j "name" = inr text → refusal cid j srv (args_error2 parse_error text)
  | refuse_nobody name : command_of j = "send"%string →
      json_unpack_ss j "name" = inl name → (∀ x, ¬ member srv name x) →
      refusal cid j srv (args_error2 "No such group exists: " name)
  | refuse_join arr v args : command_of j = "join"%string → json_unpack_so j "name" = inl arr →
      v ∈ json_array_elems arr → join_blocked strerror b cid v srv args → refusal cid j srv args
  | refuse_leave arr v args : command_of j = "leave"%string → json_unpack_so j "name" = inl arr →
      v ∈ json_array_elems arr → leave_blocked cid v srv args → refusal cid j srv args.

(** The responses that are packed, with the value the command answers. [box]
    is what was queued for the client before. *)
Inductive response cid j (box : list message) srv : Z → cmd_args → Prop :=
  | response_refused args : refusal cid j srv args → response cid j box srv (-1) args
  | response_devices arr ns : command_of j = "devices"%string → all_names srv ns →
      array_of ns arr →
      response cid j box srv 0 [("status"%string, PackInt 0); ("devices"%string, PackObj arr)]
  | response_handshake s tls i : command_of j = "handshake"%string →
      json_unpack_sssb j "serialization" "tls" = inl (s, tls) → serialization_of s = Some i →
      response cid j box srv 0 [("status"%string, PackInt 0);
        ("serialization"%string, PackStr (serialization_name (sv_serialization srv) s));
        ("tls"%string, PackBool false)]
  | response_wait : command_of j = "wait"%string → box ≠ [] →
      response cid j box srv 0 (args_n (zlen box)).

(** The messages a client gets for a command that answers [rc]. *)
Inductive answer cid j box srv : Z → list message → Prop :=
  | answer_packed rc args al al' resp text : response cid j box srv rc args →
      json_pack al args = Some resp → json_dumps al' resp = Some text →
      answer cid j box srv rc [(text, [])]
  | answer_done : command_of j ∈ ["join"; "leave"; "send"; "broadcast"]%string →
      answer cid j box srv 0 [(status0, [])]
  | answer_sync n : command_of j = "sync"%string → json_unpack_sI j "n" = Some n →
      answer cid j box srv 0 (take (sync_count n box) box ++ [(status0, [])])
  | answer_later : command_of j = "wait"%string → box = [] → answer cid j box srv 0 []
  | answer_no_n : command_of j = "sync"%string → json_unpack_sI j "n" = None →
      answer cid j box srv (-1) []
  | answer_no_serialization s tls : command_of j = "handshake"%string →
      json_unpack_sssb j "serialization" "tls" = inl (s, tls) → serialization_of s = None →
      answer cid j box srv (-1) [].

(** ** That it gets it *)

(** Every answer there could be fits into the outbuffer. *)
Definition fits cid j box ws (wb : list Z) : Prop :=
  ∀ srv rc ms, answer cid j box srv rc ms → 2 * (zlen wb + zlen (wires ws ms) + 46) ≤ 2 ^ b.

(** There is memory for the work and for the response. *)
Record can_answer cid j srv : Prop := {
  ca_errors : errors_pack (limit:=2 ^ b) strerror;
  ca_shake s tls i : command_of j = "handshake"%string →
    json_unpack_sssb j "serialization" "tls" = inl (s, tls) → serialization_of s = Some i →
    can_shake (limit:=2 ^ b) cid j srv;
  ca_groups c : command_of j ∈ ["join"; "leave"]%string → sv_clients srv !! cid = Some c →
    room (limit:=2 ^ b) 12 c;
  ca_post : command_of j ∈ ["send"; "broadcast"]%string → plenty (limit:=2 ^ b) j cid srv;
  ca_list : command_of j = "devices"%string → can_list (limit:=2 ^ b) cid srv;
}.

Section answered.
Variables (o : oracle) (env : tls_env) (cid : Z) (j : json) (bin : list Z).
Variables (srv : dime_server) (boxes : gmap Z (list message)) (box : list message).
Variables (ws : bool) (rb wb wsb : list Z).
Hypotheses (Hb : 10 ≤ b ≤ 47) (Hs : oracle_sane o) (Hg : grants o (2 ^ b)).
Hypotheses (Hv : server_view srv boxes) (Hbox : boxes !! cid = Some box).
Hypotheses (Hok : command_ok (b:=b) j bin srv) (Hcan : can_answer cid j srv).
Hypotheses (Hbuf : buffers srv cid ws rb wb wsb) (Hfits : fits cid j box ws wb).

(** What the dispatch is to establish. *)
Definition answered (rc : Z) srv' : Prop :=
  ∃ ms, answer cid j box srv' rc ms ∧ buffers srv' cid ws rb (wb ++ wires ws ms) wsb.

Let Hcid : is_Some (sv_clients srv !! cid).
Proof. apply (server_view_dom _ _ _ Hv). by rewrite Hbox. Qed.

Lemma answered_none rc srv' :
  answer cid j box srv' rc [] → sv_clients srv' !! cid = sv_clients srv !! cid → answered rc srv'.
Proof.
  intros Ha Hc. exists []. split; [done|]. unfold wires. simpl. rewrite app_nil_r.
  by apply (buffers_same srv).
Qed.

Lemma answered_one rc text srv' :
  answer cid j box srv' rc [(text, [])] → told (limit:=2 ^ b) (text, []) cid srv srv' →
  answered rc srv'.
Proof.
  intros Ha Ht. exists [(text, [])]. split; [done|]. pose proof (Hfits _ _ _ Ha) as Hlim.
  unfold wires in *. cbn [fmap list_fmap concat] in *. rewrite app_nil_r in *.
  apply Ht; [done|]. pose proof (zlen_wire_bound ws (text, [])). simpl in *. lia.
Qed.

Lemma answered_reply rc args srv' :
  response cid j box srv' rc args → replied (limit:=2 ^ b) args cid srv srv' → answered rc srv'.
Proof.
  intros Hr (al & al' & resp & text & Hp & Hd & Ht).
  by eapply answered_one; [eapply answer_packed|].
Qed.

Lemma answered_refusal args srv' :
  refusal cid j srv' args →
  (errors_pack (limit:=2 ^ b) strerror → replied (limit:=2 ^ b) args cid srv srv') →
  answered (-1) srv'.
Proof.
  intros Hr Hreply. eapply answered_reply; [by apply response_refused|].
  apply Hreply, (ca_errors _ _ _ Hcan).
Qed.

Let Hready : ready srv cid.
Proof. destruct Hv as (qs & Hinv & _). by eapply inv_ready. Qed.

(** An error before anything has happened. *)
Lemma answered_text2 n s t :
  (∀ srv', refusal cid j srv' (args_error2 s t)) →
  (String.length s + String.length t < 81)%nat →
  wp (fail_text2 (sub o n) cid s t) srv answered.
Proof.
  intros Hr Hlen. eapply wp_mono.
  - apply (wp_refuse_text2 (limit:=2 ^ b) strerror (sub o n)); [eauto with oracle|done|done].
  - intros rc srv' (-> & _ & Hreply). eapply answered_refusal; [done|].
    by apply Hreply, grants_sub.
Qed.

Lemma answered_unknown : command_of j ∉ commands →
  wp (fail_text o cid "Unknown command") srv answered.
Proof.
  intros E. eapply wp_mono.
  - apply (wp_refuse_text (limit:=2 ^ b) strerror o); [done|done|simpl; lia].
  - intros rc srv' (-> & _ & Hreply). eapply answered_refusal; [by apply refuse_unknown|].
    by apply Hreply.
Qed.

Lemma answered_regrouped R blocked rc srv' :
  regrouped (limit:=2 ^ b) strerror R blocked cid j srv boxes rc srv' →
  command_of j ∈ ["join"; "leave"]%string →
  (∀ arr v args, json_unpack_so j "name" = inl arr → v ∈ json_array_elems arr →
     blocked v srv' args → refusal cid j srv' args) →
  answered rc srv'.
Proof.
  intros (Hrc & _ & _ & _ & Hj) Hcmd Href.
  destruct (json_unpack_so j "name") as [arr|text] eqn:En.
  2:{ destruct Hj as (-> & _ & Hreply). eapply answered_refusal; [|exact Hreply].
      by apply refuse_names. }
  destruct Hj as (front & names & rest & He & _ & _ & Hj). case_decide as Hrc0.
  - subst rc. destruct Hj as [_ Ht]. eapply answered_one; [|exact Ht]. apply answer_done. set_solver.
  - destruct Hrc as [|Hrc]; [done|]. rewrite Hrc. destruct rest as [|v rest].
    { destruct Hj as (c & Hc & Hno). destruct Hno. by apply (ca_groups _ _ _ Hcan). }
    destruct Hj as (args & Hbl & Hreply). eapply answered_refusal; [|exact Hreply].
    eapply Href; [done| |done]. rewrite He. set_solver.
Qed.

Lemma answered_join : command_of j = "join"%string →
  wp (dime_client_join strerror o cid j) srv answered.
Proof.
  intros E. eapply wp_mono; [apply (wp_join (limit:=2 ^ b) strerror b); try done|].
  - destruct (json_unpack_so j "name") eqn:Ej; [|by eapply co_so].
    split; [by eapply co_table|]. intros w name. by eapply co_names.
  - intros rc srv' Hj. eapply answered_regrouped; [exact Hj|rewrite E; set_solver|].
    intros arr v args ???. by eapply refuse_join.
Qed.

Lemma answered_leave : command_of j = "leave"%string →
  wp (dime_client_leave strerror o cid j) srv answered.
Proof.
  intros E. eapply wp_mono; [apply (wp_leave (limit:=2 ^ b) strerror b); try done|].
  - destruct (json_unpack_so j "name") eqn:Ej; [|by eapply co_so].
    split; [by eapply co_table|]. intros w name Hin Hw.
    pose proof (co_names _ _ _ Hok _ _ _ Ej Hin Hw). unfold short in *. lia.
  - intros rc srv' Hj. eapply answered_regrouped; [exact Hj|rewrite E; set_solver|].
    intros arr v args ???. by eapply refuse_leave.
Qed.

(** The end of a command that has posted a message. *)
Lemma answered_delivered to srv' :
  command_of j ∈ ["send"; "broadcast"]%string → delivered (limit:=2 ^ b) to cid srv srv' →
  answered 0 srv'.
Proof.
  intros E [_ Ht]. destruct Hcid as [c Hc].
  eapply answered_one; [apply answer_done; set_solver|]. apply (Ht c Hc).
  by apply (pl_sender _ _ _ (ca_post _ _ _ Hcan E)).
Qed.

Lemma answered_broadcast : command_of j = "broadcast"%string →
  wp (dime_client_broadcast strerror o cid j bin) srv answered.
Proof.
  intros E. assert (command_of j ∈ ["send"; "broadcast"]%string) as Hin by (rewrite E; set_solver).
  eapply wp_mono; [apply (wp_broadcast (limit:=2 ^ b) strerror); try done; apply Hok|].
  intros rc srv' (_ & _ & (boxes' & _ & Hpost & _) & Hrc).
  assert (rc = 0) as -> by by apply Hrc, (ca_post _ _ _ Hcan).
  destruct (Hpost eq_refl) as (al & text & _ & _ & Hdel). by eapply answered_delivered.
Qed.

Lemma answered_send : command_of j = "send"%string →
  wp (dime_client_send strerror o cid j bin) srv answered.
Proof.
  intros E. assert (command_of j ∈ ["send"; "broadcast"]%string) as Hin by (rewrite E; set_solver).
  destruct (json_unpack_ss j "name") as [name|text] eqn:En.
  2:{ unfold dime_client_send. rewrite En. apply answered_text2.
      - intros srv'. by apply refuse_name.
      - pose proof (co_ss _ _ _ Hok _ En). unfold short in *. simpl. lia. }
  pose proof (co_name _ _ _ Hok _ En) as Hshort. pose proof Hv as (qs & Hinv & _).
  destruct (wp_members srv qs name Hinv) as (tbl & members & _ & _ & _ & Hgrp & Honly & _).
  destruct members as [|x members].
  - eapply wp_mono; [by apply (wp_send_nobody (limit:=2 ^ b) strerror o cid j bin srv boxes name)|].
    intros rc srv' (-> & Hk & _ & Hreply). eapply answered_refusal; [|by apply Hreply].
    apply refuse_nobody; [done..|]. intros x. rewrite (keeps_member _ _ _ _ Hk).
    intros (gid & g & Hgid & Hn & Hx). rewrite (Honly gid g Hgid Hn) in Hx.
    by apply not_elem_of_nil in Hx.
  - destruct Hgrp as (gid & g & Hgid & Hn & Hm); [done|].
    eapply wp_mono; [apply (wp_send (limit:=2 ^ b) strerror); try done; try apply Hok|].
    { by rewrite En. }
    intros rc srv' (_ & _ & (boxes' & _ & Hsent & _) & Hrc).
    assert (rc = 0) as ->.
    { apply Hrc. split; [by apply (ca_post _ _ _ Hcan)|]. exists gid, g. rewrite Hn, Hm. by split_and!. }
    destruct (Hsent eq_refl) as (? & ? & ? & ? & ? & _ & _ & _ & _ & _ & _ & Hdel).
    by eapply answered_delivered.
Qed.

Lemma answered_devices : command_of j = "devices"%string →
  wp (dime_client_devices strerror o cid) srv answered.
Proof.
  intros E. assert (can_list (limit:=2 ^ b) cid srv) as Hlist by by apply (ca_list _ _ _ Hcan).
  eapply wp_mono; [apply (wp_devices (limit:=2 ^ b) strerror o cid srv boxes); try done;
    by left; split; [|apply (cl_append _ _ Hlist)]|]. clear Hlist.
  intros rc srv' (_ & Hk & _ & Hlist & Hrc). assert (rc = 0) as -> by by apply Hrc, Hcan.
  destruct (Hlist eq_refl Hg) as (ns & arr & al & resp & al' & text & [Hnd Hns] & Harr & Hp & Hd & Ht).
  eapply answered_reply; [|by exists al, al', resp, text].
  apply (response_devices _ _ _ _ arr ns); [done| |done]. split; [done|]. intros n.
  rewrite Hns. by setoid_rewrite (keeps_member _ _ _ _ Hk).
Qed.

Lemma answered_handshake : command_of j = "handshake"%string →
  wp (dime_client_handshake o env cid j) srv answered.
Proof.
  intros E. destruct (json_unpack_sssb j "serialization" "tls") as [[s tls]|text] eqn:Ej.
  2:{ unfold dime_client_handshake. rewrite Ej. apply answered_text2.
      - intros srv'. by apply refuse_handshake.
      - pose proof (co_sssb _ _ _ Hok _ Ej). unfold short in *. simpl. lia. }
  destruct (serialization_of s) as [i|] eqn:Es.
  2:{ unfold dime_client_handshake. rewrite Ej, Es. apply wp_ret, answered_none; [|done].
      by eapply answer_no_serialization. }
  eapply wp_mono; [apply (wp_handshake (limit:=2 ^ b) o env cid j srv boxes); try done; by rewrite Ej|].
  intros rc srv' (_ & _ & _ & Hshake & Hrc).
  assert (rc = 0) as -> by by eapply Hrc, ca_shake.
  destruct (Hshake eq_refl Hg) as [(s' & tls' & i' & Ej' & Es' & Hser & Hreply) _].
  rewrite Ej in Ej'. simplify_eq. cbv zeta in Hreply. rewrite <-Hser in Hreply.
  eapply answered_reply; [by eapply response_handshake|].
  by destruct Hreply as (al & al' & resp & text & Hp & Hd & Ht); exists al, al', resp, text.
Qed.

Lemma answered_sync : command_of j = "sync"%string →
  wp (dime_client_sync strerror o cid j) srv answered.
Proof.
  intros E. destruct (json_unpack_sI j "n") as [n|] eqn:En.
  2:{ eapply wp_mono; [by apply wp_sync_no_n|]. intros rc srv' [-> ->].
      by apply answered_none; [apply answer_no_n|]. }
  assert (∀ srv', answer cid j box srv' 0 (take (sync_count n box) box ++ [(status0, [])])) as Ha.
  { intros srv'. by apply answer_sync. }
  eapply wp_mono; [apply (wp_sync (limit:=2 ^ b) strerror o cid j n srv boxes box ws rb wb wsb);
    try done; by eapply co_n|].
  intros rc srv' (_ & _ & k & _ & _ & _ & Hfit). pose proof (Hfits _ _ _ (Ha srv')) as Hlim.
  assert (wires ws (take (sync_count n box) box ++ [(status0, [])])
    = wires ws (take (sync_count n box) box) ++ wire ws (status0, [])) as Heq.
  { unfold wires. rewrite fmap_app, concat_app. simpl. by rewrite app_nil_r. }
  rewrite Heq, zlen_app in Hlim. pose proof (zlen_nonneg (wire ws (status0, []))).
  destruct (Hfit Hg Hbuf) as [-> Hbuf']; [lia|]. exists (take (sync_count n box) box ++ [(status0, [])]).
  split; [done|]. by rewrite Heq.
Qed.

Lemma answered_wait : command_of j = "wait"%string →
  wp (dime_client_wait strerror o cid) srv answered.
Proof.
  intros E. destruct (decide (box = [])) as [Hnil|Hne].
  - eapply wp_mono; [apply (wp_wait_empty strerror); [exact Hv|by rewrite Hbox, Hnil]|].
    intros rc srv' (-> & _ & _ & c & Hc & Hcl). exists []. split; [by apply answer_later|].
    unfold wires. simpl. rewrite app_nil_r. eapply buffers_sock; [|exact Hbuf].
    by rewrite Hcl, lookup_insert_eq, Hc.
  - eapply wp_mono; [by apply (wp_wait_some (limit:=2 ^ b) strerror o cid srv boxes box ws rb wb wsb)|].
    intros rc srv' (_ & _ & _ & Hfit).
    assert (∀ al al' resp text, json_pack al (args_n (zlen box)) = Some resp →
      json_dumps al' resp = Some text → ∀ srv0, answer cid j box srv0 0 [(text, [])]) as Ha.
    { intros al al' resp text Hp Hd srv0. eapply answer_packed; [by apply response_wait|done..]. }
    destruct (Hfit Hg Hbuf) as (-> & al & al' & resp & text & Hp & Hd & Hbuf').
    { intros al al' resp text Hp Hd. pose proof (Hfits _ _ _ (Ha _ _ _ _ Hp Hd srv)) as Hlim.
      unfold wires in Hlim. cbn [fmap list_fmap concat] in Hlim. rewrite app_nil_r in Hlim.
      pose proof (zlen_wire_bound ws (text, [])). pose proof (zlen_nonneg (@nil Z)). simpl in *. lia. }
    exists [(text, [])]. split; [by eapply Ha|]. unfold wires. simpl. by rewrite app_nil_r.
Qed.

Lemma dispatch_answers : wp (dispatch strerror o env cid j bin) srv answered.
Proof.
  unfold dispatch. fold (command_of j).
  destruct (String.eqb_spec (command_of j) "handshake"); [by apply answered_handshake|].
  destruct (String.eqb_spec (command_of j) "join"); [by apply answered_join|].
  destruct (String.eqb_spec (command_of j) "leave"); [by apply answered_leave|].
  destruct (String.eqb_spec (command_of j) "send"); [by apply answered_send|].
  destruct (String.eqb_spec (command_of j) "broadcast"); [by apply answered_broadcast|].
  destruct (String.eqb_spec (command_of j) "sync"); [by apply answered_sync|].
  destruct (String.eqb_spec (command_of j) "wait"); [by apply answered_wait|].
  destruct (String.eqb_spec (command_of j) "devices"); [by apply answered_devices|].
  apply answered_unknown. unfold commands. set_solver.
Qed.
End answered.

End answers.

(** ** Witness *)

#[local] Existing Instance text_json.
#[local] Instance text_json_answers : @JanssonLaws text_json (2 ^ 22).
Proof. by apply text_json_laws. Qed.

(** The responses of the library of the examples are short. *)
Lemma text_packs (args : @cmd_args text_json) :
  zlen (concat (text_of_arg ∘ snd <$> args)) ≤ 2 ^ 22 → packs (limit:=2 ^ 22) args.
Proof.
  intros Hlen. split.
  - intros al Hal. simpl. rewrite Hal by done. eauto.
  - intros al al' resp Hal. simpl. destruct (al' 1); [|done]. intros [= <-].
    rewrite Hal by done. eauto.
Qed.

Lemma text_errors_pack : errors_pack (limit:=2 ^ 22) "e"%string.
Proof.
  intros args [|s Hs|s t Hst]; apply text_packs; unfold args_error, args_error2;
    cbn [fmap list_fmap concat compose snd text_of_arg].
  - by vm_compute.
  - rewrite !zlen_app, zlen_bytes_of. change (zlen [-1]) with 1. change (zlen (@nil Z)) with 0. lia.
  - rewrite !zlen_app, !zlen_bytes_of. change (zlen [-1]) with 1. change (zlen (@nil Z)) with 0. lia.
Qed.

Definition cmd_unknown : list Z := bytes_of "h"%string.
Definition unknown_text : list Z := -1 :: bytes_of "Unknown command"%string.

(** An unknown command has one answer. *)
Lemma unknown_answer srv rc ms :
  @answer text_json 22 "e"%string 0 cmd_unknown [] srv rc ms → rc = -1 ∧ ms = [(unknown_text, [])].
Proof.
  assert (@command_of text_json cmd_unknown = "h"%string) as E by by vm_compute.
  intros [rc' args al al' resp text Hr Hp Hd|Hin|n En _|En _|En _|s tls En _ _]; rewrite ?E in *;
    try discriminate; [|set_solver].
  destruct Hr as [args Hr|arr ns En _ _|s tls i En _ _|En _]; rewrite ?E in *; try discriminate.
  destruct Hr as [_|text' En _|text' Hin _|text' En _|name En _ _|arr v args En _ _ _|arr v args En _ _ _];
    rewrite ?E in *; try discriminate; [|set_solver].
  split; [done|]. simpl in Hp, Hd. destruct (al 1); [|done]. injection Hp as <-.
  destruct (al' _); [|done]. by injection Hd as <-.
Qed.

