(* ===== verification/Setup.v ===== *)
(** * Setting the server up and taking it down ([server/server.c])

    [dime_server_add] and [dime_server_destroy]. The kernel's descriptors are
    a set of the numbers that are open; what [socket], [setsockopt] and [bind]
    answer is an argument. *)

From S2P Require Import Prelude Deque Table State Client Server.

(** ** [dime_server_add] *)

(** [ae_socket] is the answer to the first call of [socket], [ae_dual] that
    of [setsockopt] and [ae_socket4] that of the call that follows if it
    fails. *)
Record add_env := AddEnv {
  ae_socket : Z;
  ae_dual : bool;
  ae_socket4 : Z;
  ae_bind : bool;
}.

(** [arr[len++] = x] within the capacity. *)
Definition append_cell {A} (xs : list A) (cap : Z) (x : A) : outcome (list A) :=
  if zlen xs <? cap then Ret (xs ++ [x]) else Undef.

Definition reserve_fds (al : allocator) (ls : dime_listen) : option dime_listen :=
  if ls_fds_cap ls <=? zlen (ls_fds ls) then
    let ncap := u64 (ls_fds_cap ls * 3) / 2 in
    if al (u64 (ncap * sizeof_server_fd)) then
      Some (Listen (ls_fds ls) ncap (ls_pathnames ls) (ls_pathnames_cap ls))
    else None
  else Some ls.

(** [sun_path] has 108 bytes. *)
Definition sun_path (pathname : list Z) : list Z := take 107 pathname.

(** The two ways to get a bound socket: the descriptor, or [None] for a
    failure, with the state and the open descriptors. *)
Definition open_unix (o : oracle) (env : add_env) (open : gset Z) (ls : dime_listen)
    (pathname : list Z) : outcome (option Z * dime_listen * gset Z) :=
  let path := sun_path pathname in
  if at_ o 0 (zlen path + 1) then
    match reserve_ptr (at_ o 1) (zlen (ls_pathnames ls)) (ls_pathnames_cap ls) with
    | None => Ret (None, ls, open)
    | Some cap =>
        let ls := Listen (ls_fds ls) (ls_fds_cap ls) (ls_pathnames ls) cap in
        let fd := ae_socket env in
        if fd <? 0 then Ret (None, ls, open)
        else
          let open := {[fd]} ∪ open in
          if ae_bind env then
            ps ← append_cell (ls_pathnames ls) cap path;
            Ret (Some fd, Listen (ls_fds ls) (ls_fds_cap ls) ps cap, open)
          else Ret (None, ls, open ∖ {[fd]})
    end
  else Ret (None, ls, open).

Definition open_port (env : add_env) (open : gset Z) : option Z * gset Z :=
  let fd := ae_socket env in
  if fd <? 0 then (None, open)
  else
    let open := {[fd]} ∪ open in
    let (fd, open) := if ae_dual env then (fd, open)
                      else
                        let open := open ∖ {[fd]} in
                        let fd := ae_socket4 env in
                        (fd, if fd <? 0 then open else {[fd]} ∪ open) in
    if fd <? 0 then (None, open)
    else if ae_bind env then (Some fd, open) else (None, open ∖ {[fd]}).

(** [None] is a number that stands for no protocol. *)
Definition dime_server_add (o : oracle) (env : add_env) (open : gset Z) (ls : dime_listen)
    (protocol : option dime_protocol) (pathname : list Z)
    : outcome (Z * dime_listen * gset Z) :=
  match reserve_fds (at_ o 0) ls with
  | None => Ret (-1, ls, open)
  | Some ls =>
      match protocol with
      | None => Ret (-1, ls, open)
      | Some protocol =>
          '(r, ls, open) ← (if decide (protocol = DIME_UNIX) then
                              open_unix (sub o 1) env open ls pathname
                            else
                              let (r, open) := open_port env open in Ret (r, ls, open));
          match r with
          | None => Ret (-1, ls, open)
          | Some fd =>
              fds ← append_cell (ls_fds ls) (ls_fds_cap ls) (fd, protocol);
              Ret (0, Listen fds (ls_fds_cap ls) (ls_pathnames ls) (ls_pathnames_cap ls), open)
          end
      end
  end.

(** ** [dime_server_destroy] *)

(** [while (dime_table_iter_next(&it))] with a body that frees what the table
    points to, but leaves the table as it is. *)
Definition table_each {K} (tbl : dime_table K Z) (body : Z → M unit) : M unit := λ srv,
  srv ← table_foreach tbl (λ kv srv, '(_, srv) ← body kv.2 srv; Ret srv) srv;
  Ret ((), srv).

(** The paths that are unlinked and the descriptors that are closed are the
    answer. *)
Definition dime_server_destroy (ls : dime_listen) : M (list (list Z) * list Z) :=
  fd2clnt ← gets sv_fd2clnt;
  table_each fd2clnt dime_client_destroy;;
  name2clnt ← gets sv_name2clnt;
  table_each name2clnt free_group;;
  mret (ls_pathnames ls, (ls_fds ls).*1).
