(* ===== verification/SetupProps.v ===== *)
(** * Properties of setting the server up and taking it down

    [dime_server_add] adds exactly one listening socket and leaks no
    descriptor when it fails; [dime_server_destroy] frees everything once. *)

From S2P Require Import Prelude Deque Ringbuffer Json Socket SocketSpec Table TableSpec TableMap.
From S2P Require Import Hash State Client WebSocket Server Setup Invariant ClientSpec ClientPush.
From S2P Require Import ClientDeliver Inbox ClientSend ClientGone ClientGroups ServerSpec Demo.
From Stdlib Require String.

(** ** Adding a socket *)

(** A growable array: how full it is and its capacity. *)
Definition array_ok (len cap : Z) : Prop := 0 ≤ len ≤ cap ∧ 2 ≤ cap ≤ 2 ^ 47.

Record listen_inv (ls : dime_listen) (open : gset Z) : Prop := {
  li_fds : array_ok (zlen (ls_fds ls)) (ls_fds_cap ls);
  li_pathnames : array_ok (zlen (ls_pathnames ls)) (ls_pathnames_cap ls);
  li_nodup : NoDup (ls_fds ls).*1;
  li_open fd : fd ∈ (ls_fds ls).*1 → fd ∈ open;
}.

(** [socket] answers a descriptor that is not open, or fails. *)
Definition add_env_ok (env : add_env) (open : gset Z) : Prop :=
  (0 ≤ ae_socket env → ae_socket env ∉ open) ∧ (0 ≤ ae_socket4 env → ae_socket4 env ∉ open).

(** What has to succeed. *)
Definition can_add (o : oracle) (env : add_env) ls (protocol : option dime_protocol) : Prop :=
  protocol ≠ None ∧ 0 ≤ ae_socket env ∧ (ae_dual env = false → 0 ≤ ae_socket4 env) ∧
  ae_bind env = true ∧ ∃ limit, grants o limit ∧ 108 ≤ limit ∧ 24 * ls_fds_cap ls ≤ limit ∧
    12 * ls_pathnames_cap ls ≤ limit.

Lemma grown w len cap :
  0 < w ≤ 16 → array_ok len cap →
  let ncap := u64 (cap * 3) / 2 in
  cap < ncap ∧ u64 (w * ncap) = w * ncap ∧ 2 * (w * ncap) ≤ 3 * (w * cap).
Proof.
  intros Hw [Hlen Hcap]. cbv zeta. rewrite (u64_small (cap * 3)) by lia.
  assert (cap < cap * 3 / 2 ≤ 2 ^ 48) by dlia. assert (2 * (cap * 3 / 2) ≤ 3 * cap) by dlia.
  rewrite u64_small by nia. nia.
Qed.

(** An array that is full at most doubles. *)
Definition snug_growth (len cap cap' : Z) : Prop := cap' ≤ Z.max cap (2 * len).

Lemma reserve_fds_spec al ls :
  alloc_sane al → array_ok (zlen (ls_fds ls)) (ls_fds_cap ls) →
  match reserve_fds al ls with
  | Some ls' => ∃ cap, ls' = Listen (ls_fds ls) cap (ls_pathnames ls) (ls_pathnames_cap ls) ∧
      array_ok (zlen (ls_fds ls)) cap ∧ zlen (ls_fds ls) < cap ∧
      snug_growth (zlen (ls_fds ls)) (ls_fds_cap ls) cap
  | None => ∃ n, n ≤ 24 * ls_fds_cap ls ∧ al n = false
  end.
Proof.
  intros Hs Hok. unfold reserve_fds. destruct (grown 16 _ _ ltac:(lia) Hok) as (Hlt & Heq & Hle).
  destruct Hok as [Hlen Hcap].
  destruct (Z.leb_spec (ls_fds_cap ls) (zlen (ls_fds ls))).
  - unfold sizeof_server_fd. rewrite Z.mul_comm, Heq.
    destruct (al (16 * (u64 (ls_fds_cap ls * 3) / 2))) eqn:E.
    + eexists. split; [done|]. apply Hs in E. unfold MAXOBJ in E. unfold snug_growth.
      split_and!; [split|..]; lia.
    + eexists. split; [|exact E]. lia.
  - exists (ls_fds_cap ls). destruct ls. unfold snug_growth. split_and!; [done|by split|done|lia].
Qed.

Lemma reserve_path_spec al len cap :
  alloc_sane al → array_ok len cap →
  match reserve_ptr al len cap with
  | Some cap' => array_ok len cap' ∧ len < cap' ∧ snug_growth len cap cap'
  | None => ∃ n, n ≤ 12 * cap ∧ al n = false
  end.
Proof.
  intros Hs Hok. unfold reserve_ptr. destruct (grown 8 _ _ ltac:(lia) Hok) as (Hlt & Heq & Hle).
  destruct Hok as [Hlen Hcap]. unfold snug_growth. destruct (Z.leb_spec cap len); [|by split_and!; [split|..]; try lia].
  unfold sizeof_ptr. rewrite Heq. destruct (al (8 * (u64 (cap * 3) / 2))) eqn:E.
  - apply Hs in E. unfold MAXOBJ in E. split_and!; [split|..]; lia.
  - eexists. split; [|exact E]. lia.
Qed.

Lemma append_cell_spec {A} (xs : list A) cap x :
  zlen xs < cap → append_cell xs cap x = Ret (xs ++ [x]).
Proof. intros ?. unfold append_cell. by rewrite (proj2 (Z.ltb_lt _ _)). Qed.

Lemma array_snoc {A} (xs : list A) cap x :
  array_ok (zlen xs) cap → zlen xs < cap → array_ok (zlen (xs ++ [x])) cap.
Proof. intros [? ?] ?. rewrite zlen_app. split; zlia. Qed.

Lemma listen_snoc ls open fd p :
  listen_inv ls open → zlen (ls_fds ls) < ls_fds_cap ls → fd ∉ open →
  listen_inv (Listen (ls_fds ls ++ [(fd, p)]) (ls_fds_cap ls) (ls_pathnames ls) (ls_pathnames_cap ls))
    ({[fd]} ∪ open).
Proof.
  intros [Hfds Hpaths Hnd Hopen] Hlt Hnew. split; simpl; [by apply array_snoc|done| |].
  - rewrite fmap_app. apply NoDup_app. split_and!; [done| |apply NoDup_singleton].
    intros x Hx ->%list_elem_of_singleton. by apply Hnew, Hopen.
  - rewrite fmap_app. set_solver.
Qed.

Lemma open_close fd (open : gset Z) : fd ∉ open → ({[fd]} ∪ open) ∖ {[fd]} = open.
Proof. set_solver. Qed.

Lemma open_port_spec env open :
  add_env_ok env open →
  let (r, open') := open_port env open in
  match r with
  | Some fd => fd ∉ open ∧ open' = {[fd]} ∪ open
  | None => open' = open ∧
      ¬ (0 ≤ ae_socket env ∧ (ae_dual env = false → 0 ≤ ae_socket4 env) ∧ ae_bind env = true)
  end.
Proof.
  intros [H6 H4]. unfold open_port. destruct (Z.ltb_spec (ae_socket env) 0) as [|Hs].
  { split; [done|lia]. }
  specialize (H6 Hs). destruct (ae_dual env).
  - rewrite (proj2 (Z.ltb_ge _ _)) by done. destruct (ae_bind env); [done|].
    rewrite open_close by done. split; [done|]. naive_solver.
  - rewrite open_close by done. destruct (Z.ltb_spec (ae_socket4 env) 0) as [|Hs4].
    { split; [done|]. intros (_ & Hd & _). specialize (Hd eq_refl). lia. }
    specialize (H4 Hs4). destruct (ae_bind env); [done|].
    rewrite open_close by done. split; [done|]. naive_solver.
Qed.

Lemma open_unix_spec o env open ls path :
  oracle_sane o → add_env_ok env open →
  array_ok (zlen (ls_pathnames ls)) (ls_pathnames_cap ls) →
  ∃ r ls' open', open_unix o env open ls path = Ret (r, ls', open') ∧
    ls_fds ls' = ls_fds ls ∧ ls_fds_cap ls' = ls_fds_cap ls ∧
    array_ok (zlen (ls_pathnames ls')) (ls_pathnames_cap ls') ∧
    match r with
    | Some fd => fd ∉ open ∧ open' = {[fd]} ∪ open ∧
        ls_pathnames ls' = ls_pathnames ls ++ [sun_path path] ∧
        snug_growth (zlen (ls_pathnames ls)) (ls_pathnames_cap ls) (ls_pathnames_cap ls')
    | None => open' = open ∧ ls_pathnames ls' = ls_pathnames ls ∧
        ¬ (0 ≤ ae_socket env ∧ ae_bind env = true ∧
           ∃ limit, grants o limit ∧ 108 ≤ limit ∧ 12 * ls_pathnames_cap ls ≤ limit)
    end.
Proof.
  intros Hs [H6 _] Hok. unfold open_unix. destruct (at_ o 0 _) eqn:E0.
  2:{ eexists _, _, _. split; [done|]. split_and!; try done. intros (_ & _ & limit & Hg & Hl & _).
      unfold at_ in E0. rewrite Hg in E0; [done|]. unfold sun_path, zlen. rewrite length_take. lia. }
  pose proof (reserve_path_spec (at_ o 1) _ _ ltac:(eauto with oracle) Hok) as Hr.
  destruct (reserve_ptr _ _ _) as [cap|].
  2:{ eexists _, _, _. split; [done|]. split_and!; try done. destruct Hr as (n & Hn & Hno).
      intros (_ & _ & limit & Hg & _ & Hl). unfold at_ in Hno. rewrite Hg in Hno; [done|lia]. }
  destruct Hr as (Hok' & Hlt & Hsnug). destruct (Z.ltb_spec (ae_socket env) 0) as [|Hfd].
  { eexists _, _, _. split; [done|]. split_and!; try done. lia. }
  specialize (H6 Hfd). destruct (ae_bind env).
  - rewrite append_cell_spec by done. eexists _, _, _. split; [reflexivity|]. split_and!; try done.
    simpl. rewrite zlen_app. destruct Hok' as [? ?]. split; zlia.
  - rewrite open_close by done. eexists _, _, _. split; [done|]. split_and!; try done. naive_solver.
Qed.

(** Either way to get a socket. *)
Lemma open_any_spec o env open ls (p : dime_protocol) path :
  oracle_sane o → add_env_ok env open → listen_inv ls open →
  ∃ r ls' open', (if decide (p = DIME_UNIX) then open_unix o env open ls path
                  else let (r, open) := open_port env open in Ret (r, ls, open)) = Ret (r, ls', open') ∧
    listen_inv ls' open ∧ ls_fds ls' = ls_fds ls ∧ ls_fds_cap ls' = ls_fds_cap ls ∧
    match r with
    | Some fd => fd ∉ open ∧ open' = {[fd]} ∪ open ∧
        ls_pathnames ls' = ls_pathnames ls ++ (if decide (p = DIME_UNIX) then [sun_path path] else []) ∧
        snug_growth (zlen (ls_pathnames ls)) (ls_pathnames_cap ls) (ls_pathnames_cap ls')
    | None => open' = open ∧ ls_pathnames ls' = ls_pathnames ls ∧
        ¬ (0 ≤ ae_socket env ∧ (ae_dual env = false → 0 ≤ ae_socket4 env) ∧ ae_bind env = true ∧
           ∃ limit, grants o limit ∧ 108 ≤ limit ∧ 12 * ls_pathnames_cap ls ≤ limit)
    end.
Proof.
  intros Hs Henv Hinv. pose proof Hinv as [Hfds Hpaths Hnd Hopen]. case_decide as Hp.
  - destruct (open_unix_spec o env open ls path Hs Henv Hpaths)
      as (r & ls2 & open' & -> & Hf2 & Hc2 & Hok2 & Hr).
    exists r, ls2, open'. split_and!; [done|split; rewrite ?Hf2, ?Hc2; done|done..|].
    destruct r; [done|]. naive_solver.
  - pose proof (open_port_spec env open Henv) as Hr. destruct (open_port env open) as [r open'].
    exists r, ls, open'. split_and!; [done..|]. destruct r as [fd|].
    + destruct Hr as [? ->]. rewrite app_nil_r. unfold snug_growth. split_and!; [done..|lia].
    + naive_solver.
Qed.

(** Everything [dime_server_add] does, with what its arrays grow to. *)
Lemma server_add_spec o env open ls protocol pathname :
  oracle_sane o → add_env_ok env open → listen_inv ls open →
  ∃ rc ls' open', dime_server_add o env open ls protocol pathname = Ret (rc, ls', open') ∧
    listen_inv ls' open' ∧ (can_add o env ls protocol → rc = 0) ∧
    (rc = 0 ∧ (∃ p fd, protocol = Some p ∧ fd ∉ open ∧ open' = {[fd]} ∪ open ∧
         ls_fds ls' = ls_fds ls ++ [(fd, p)] ∧
         ls_pathnames ls' = ls_pathnames ls ++ (if decide (p = DIME_UNIX) then [sun_path pathname] else []) ∧
         snug_growth (zlen (ls_fds ls)) (ls_fds_cap ls) (ls_fds_cap ls') ∧
         snug_growth (zlen (ls_pathnames ls)) (ls_pathnames_cap ls) (ls_pathnames_cap ls'))
     ∨ rc = -1 ∧ open' = open ∧ ls_fds ls' = ls_fds ls ∧ ls_pathnames ls' = ls_pathnames ls).
Proof.
  intros Hs Henv [Hfds Hpaths Hnd Hopen]. unfold dime_server_add.
  pose proof (reserve_fds_spec (at_ o 0) ls ltac:(eauto with oracle) Hfds) as Hr.
  destruct (reserve_fds _ _) as [ls1|].
  2:{ destruct Hr as (n & Hn & Hno). do 3 eexists. split_and!; [done|done| |by right].
      intros (_ & _ & _ & _ & limit & Hg & _ & Hl & _). unfold at_ in Hno.
      rewrite Hg in Hno; [done|lia]. }
  destruct Hr as (cap & -> & Hfds1 & Hlt & Hsn).
  assert (listen_inv (Listen (ls_fds ls) cap (ls_pathnames ls) (ls_pathnames_cap ls)) open) as Hinv1
    by by split.
  destruct protocol as [p|]; [|do 3 eexists; split_and!; [done|done|by intros []|by right]].
  destruct (open_any_spec (sub o 1) env open _ p pathname ltac:(eauto with oracle) Henv Hinv1)
    as (r & ls2 & open' & -> & Hinv2 & Hf2 & Hc2 & Hr).
  cbn [mbind outcome_bind]. simpl in Hf2, Hc2. destruct r as [fd|].
  - destruct Hr as (Hnew & -> & Hps & Hsp). rewrite append_cell_spec by by rewrite Hf2, Hc2.
    cbn [mbind outcome_bind]. do 3 eexists. split_and!; [done| |done|].
    + apply listen_snoc; [done|by rewrite Hf2, Hc2|done].
    + left. split; [done|]. exists p, fd. simpl. by rewrite Hf2, Hc2.
  - destruct Hr as (-> & Hps & Hno). do 3 eexists. split_and!; [done|done| |by right].
    intros (_ & Hsk & Hd & Hb & limit & Hg & Hl1 & _ & Hl2). destruct Hno. split_and!; [done..|].
    exists limit. eauto with oracle.
Qed.

(** C29: [dime_server_add] never writes out of bounds. If it answers 0, exactly
    one socket, which was not open before, is open and at the end of [fds] with
    its protocol, and for a Unix socket the path, as far as it fits, is at the
    end of [pathnames]; if it answers -1, no descriptor is left open and both
    arrays hold what they held. It does answer 0 if the system calls succeed
    and there is memory. *)
Theorem server_add_appends o env open ls protocol pathname :
  oracle_sane o → add_env_ok env open → listen_inv ls open →
  returns (dime_server_add o env open ls protocol pathname) (λ '(rc, ls', open'),
    listen_inv ls' open' ∧ (can_add o env ls protocol → rc = 0) ∧
    (rc = 0 ∧ (∃ p fd, protocol = Some p ∧ fd ∉ open ∧ open' = {[fd]} ∪ open ∧
         ls_fds ls' = ls_fds ls ++ [(fd, p)] ∧
         ls_pathnames ls' = ls_pathnames ls ++ if decide (p = DIME_UNIX) then [sun_path pathname] else [])
     ∨ rc = -1 ∧ open' = open ∧ ls_fds ls' = ls_fds ls ∧ ls_pathnames ls' = ls_pathnames ls)).
Proof.
  intros Hs Henv Hinv.
  destruct (server_add_spec o env open ls protocol pathname Hs Henv Hinv)
    as (rc & ls' & open' & -> & Hinv' & Hcan & Hor).
  split_and!; [done..|]. destruct Hor as [(Hrc & p & fd & Hp)|Hfail]; [left|by right].
  split; [done|]. exists p, fd. naive_solver.
Qed.

(** ** Taking the server down *)

Lemma foldo_fmap {A B P} (g : A → B) (f : B → P → outcome P) xs p :
  foldo (λ x, f (g x)) xs p = foldo f (g <$> xs) p.
Proof. revert p. induction xs as [|x xs IH]; intros p; [done|]. simpl. destruct (f (g x) p); simpl; [apply IH|done..]. Qed.

Lemma table_each_spec {K} (tbl : dime_table K Z) (body : Z → M unit) srv :
  iterable tbl →
  table_each tbl body srv
  = (srv ← foldo (λ x srv, '(_, srv) ← body x srv; Ret srv) (kvs (tb_arr tbl)).*2 srv; Ret ((), srv)).
Proof.
  intros Hit. unfold table_each. rewrite table_foreach_spec by done.
  by rewrite <-(foldo_fmap snd).
Qed.

(** No message is left when no client is. *)
Lemma no_clients_no_messages srv qs :
  server_inv None srv qs → sv_clients srv = ∅ → sv_msgs srv = ∅.
Proof.
  intros Hinv Hcl. assert (∀ x, qs !! x = None) as Hqs.
  { intros x. pose proof (vi_queues _ _ _ Hinv x) as Hq. rewrite lookup_fmap, Hcl, lookup_empty in Hq.
    by destruct (qs !! x). }
  apply map_eq. intros mid. rewrite lookup_empty. destruct (sv_msgs srv !! mid) as [m|] eqn:Hm; [|done].
  destruct (ri_refs _ _ _ (vi_refs _ _ _ Hinv) _ _ Hm) as [Hr _].
  destruct (ri_used _ _ _ (vi_refs _ _ _ Hinv) _ _ Hm) as [Hpos|]; [|done].
  assert (qs = ∅) as -> by by apply map_eq. unfold refs_of in Hr. rewrite map_filter_empty in Hr.
  rewrite map_size_empty in Hr. lia.
Qed.

Definition not_full (srv : dime_server) : Prop := ∀ cid c, sv_clients srv !! cid = Some c →
  dime_deque_len (cl_queue c) < dq_cap (cl_queue c).

Lemma destroy_clients cids : ∀ srv qs tbl,
  server_inv None srv qs → NoDup cids → (∀ x, x ∈ cids ↔ is_Some (sv_clients srv !! x)) →
  not_full srv →
  returns (foldo (λ x srv, '(_, srv) ← dime_client_destroy x srv; Ret srv) cids
    (sv_set_fd2clnt srv tbl)) (λ srv', sv_clients srv' = ∅ ∧ sv_msgs srv' = ∅ ∧
      sv_name2clnt srv' = sv_name2clnt srv ∧
      gr_name <$> sv_groups srv' = gr_name <$> sv_groups srv).
Proof.
  induction cids as [|cid cids IH]; intros srv qs tbl Hinv Hnd Hin Hfree.
  { assert (sv_clients srv = ∅) as Hcl.
    { apply map_eq. intros x. rewrite lookup_empty. apply eq_None_not_Some.
      rewrite <-Hin. apply not_elem_of_nil. }
    simpl. split_and!; [done|by eapply no_clients_no_messages|done..]. }
  apply NoDup_cons in Hnd as [Hnew Hnd]. destruct (proj1 (Hin cid)) as [c Hc]; [by left|].
  destruct (inv_queue _ _ _ _ _ Hinv Hc) as (xs & Hxs & Hd).
  pose proof (Hfree _ _ Hc) as Hf. unfold dime_deque_len in Hf.
  rewrite (proj1 (dr_len _ _ Hd)) in Hf.
  pose proof (wp_destroy srv qs cid c xs tbl Hinv Hc Hxs Hf) as Hw.
  apply returns_eq in Hw as ([[] srv1] & Hrun & Hinv1 & Hfd1 & Hnm1 & Hcl1 & Hgr1 & _).
  assert ((cl_fd <$> sv_clients srv) !! cid = Some (cl_fd c)) as Hfd by by rewrite lookup_fmap, Hc.
  destruct (fds_inv_delete _ _ _ _ (vi_fds _ _ _ Hinv) Hfd) as (r & tbl1 & _ & Htbl1 & _).
  specialize (Hinv1 _ Htbl1). cbn [foldo]. rewrite Hrun. cbn [mbind outcome_bind].
  assert (srv1 = sv_set_fd2clnt (sv_set_fd2clnt srv1 tbl1) tbl) as Heta
    by (rewrite <-Hfd1; by destruct srv1).
  rewrite Heta. eapply returns_mono; [apply (IH _ _ tbl Hinv1 Hnd)|].
  - intros x. simpl. rewrite Hcl1, lookup_delete_is_Some, <-Hin, elem_of_cons. naive_solver.
  - intros x cx Hx. simpl in Hx. rewrite Hcl1 in Hx. apply lookup_delete_Some in Hx as [_ Hx].
    by eapply Hfree.
  - intros srv2 (? & ? & Hn2 & Hg2). split_and!; [done..| |]; [by rewrite Hn2|by rewrite Hg2].
Qed.

Lemma free_groups gids : ∀ srv,
  NoDup gids → (∀ x, x ∈ gids ↔ is_Some (sv_groups srv !! x)) →
  foldo (λ x srv, '(_, srv) ← free_group x srv; Ret srv) gids srv = Ret (sv_set_groups srv ∅).
Proof.
  induction gids as [|gid gids IH]; intros srv Hnd Hin.
  { assert (sv_groups srv = ∅) as Hgr.
    { apply map_eq. intros x. rewrite lookup_empty. apply eq_None_not_Some.
      rewrite <-Hin. apply not_elem_of_nil. }
    rewrite <-Hgr. by destruct srv. }
  apply NoDup_cons in Hnd as [Hnew Hnd]. destruct (proj1 (Hin gid)) as [g Hg]; [by left|].
  assert (free_group gid srv = Ret ((), sv_set_groups srv (delete gid (sv_groups srv)))) as Hrun.
  { unfold free_group, mbind, M_bind, get_group, deref. by rewrite Hg. }
  cbn [foldo]. rewrite Hrun. cbn [mbind outcome_bind]. rewrite IH; [done..|].
  intros x. simpl. rewrite lookup_delete_is_Some, <-Hin, elem_of_cons. naive_solver.
Qed.

Lemma wp_server_destroy ls srv :
  server_ok srv → not_full srv →
  wp (dime_server_destroy ls) srv (λ '(unlinked, closed) srv',
    sv_clients srv' = ∅ ∧ sv_groups srv' = ∅ ∧ sv_msgs srv' = ∅ ∧
    unlinked = ls_pathnames ls ∧ closed = (ls_fds ls).*1).
Proof.
  intros (qs & Hinv) Hfree. unfold dime_server_destroy. wp_step. apply wp_bind.
  destruct (fds_vals _ _ _ Hinv) as (Hit & Hnd & Hin).
  pose proof (destroy_clients _ srv qs (sv_fd2clnt srv) Hinv Hnd Hin Hfree) as Hd.
  assert (sv_set_fd2clnt srv (sv_fd2clnt srv) = srv) as Heta by by destruct srv.
  rewrite Heta in Hd. unfold wp at 1. rewrite table_each_spec by done.
  apply returns_eq in Hd as (srv1 & -> & Hcl & Hms & Hnm & Hgr). cbn [mbind outcome_bind returns].
  wp_step. apply wp_bind. rewrite Hnm.
  destruct (vi_names _ _ _ Hinv) as (nm & Htbl & Hnms).
  destruct (kvs_vals _ _ _ Htbl) as [Hnd' Hin'].
  { intros k k' v ?%Hnms ?%Hnms. congruence. }
  unfold wp at 1. rewrite table_each_spec by by eapply inv_iterable.
  rewrite free_groups; [|done|].
  - cbn [mbind outcome_bind returns]. by apply wp_ret.
  - intros x. rewrite Hin'. rewrite <-(fmap_is_Some gr_name), <-lookup_fmap, Hgr.
    split; [intros [k ?%Hnms]; by exists k|intros [k ?%Hnms]; by exists k].
Qed.

(** [dime_server_destroy] frees everything exactly once: from a state that
    satisfies the invariant and in which no queue is exactly full it returns
    (it frees nothing twice and follows no pointer to what it has freed), and
    no client, group or message is left; it unlinks the paths of all Unix
    sockets and closes all listening sockets. *)
Theorem server_destroy_frees ls srv :
  server_ok srv → not_full srv →
  wp (dime_server_destroy ls) srv (λ '(unlinked, closed) srv',
    sv_clients srv' = ∅ ∧ sv_groups srv' = ∅ ∧ sv_msgs srv' = ∅ ∧
    unlinked = ls_pathnames ls ∧ closed = (ls_fds ls).*1).
Proof. intros Hok Hfree. by apply wp_server_destroy. Qed.

(** ** Witnesses *)

Definition example_listen : dime_listen := Listen [] 8 [] 8.

(** A port, where IPv6 sockets cannot serve IPv4. *)
Definition example_add : add_env := AddEnv 3 false 4 true.

Lemma server_add_appends_witness :
  returns (dime_server_add alloc_4M example_add {[0; 1; 2]} example_listen (Some DIME_TCP) [])
    (λ '(rc, ls', open'), rc = 0 ∧ ∃ fd, open' = {[fd]} ∪ {[0; 1; 2]} ∧ ls_fds ls' = [(fd, DIME_TCP)]).
Proof.
  eapply returns_mono; [apply (server_add_appends alloc_4M example_add {[0; 1; 2]} example_listen
    (Some DIME_TCP) [] alloc_4M_sane)|].
  - split; intros _; simpl; set_solver by lia.
  - split; simpl; [by split; zlia|by split; zlia|constructor|]. intros fd Hin. by apply elem_of_nil in Hin.
  - intros [[rc ls'] open'] (Hinv & Hcan & Hor).
    assert (rc = 0) as ->.
    { apply Hcan. split_and!; try done. exists (2 ^ 22). split; [apply alloc_4M_grants|done]. }
    split; [done|]. destruct Hor as [(_ & p & fd & [= <-] & Hnew & Ho & Hf & _)|([=] & _)].
    by exists fd.
Defined.

Local Existing Instance text_json.

Lemma server_destroy_frees_witness : ∃ srv,
  wp (dime_server_destroy (Listen [(3, DIME_TCP)] 8 [] 8)) srv (λ r srv',
    sv_clients srv' = ∅ ∧ sv_groups srv' = ∅ ∧ sv_msgs srv' = ∅ ∧ r = ([], [3])).
Proof.
  destruct demo_exists as (srv & c0 & c1 & gid & g & Hd). exists srv.
  eapply wp_mono; [apply (server_destroy_frees (Listen [(3, DIME_TCP)] 8 [] 8) srv)|].
  - eapply server_view_ok, (dm_view Hd).
  - intros x c [fd Hc]%(demo_client Hd). destruct (nc_queue _ _ Hc) as [Hq ->].
    unfold dime_deque_len. by rewrite (proj1 (dr_len _ _ Hq)).
  - intros [u cl] srv' (? & ? & ? & -> & ->). done.
Defined.
