(* ===== verification/Ev.v ===== *)
(** * The build with libev ([server/server.c], [DIME_USE_LIBEV])

    The callbacks that take the place of the loop around [select]. A socket
    knows whether its watchers run, [so_ev]: the one for reading from the time
    the connection is accepted, the one for writing while there is something to
    send. The callbacks do what the loop does, except that a message that cannot
    be read makes [ev_client_readable] spin. *)

From S2P Require Import Prelude Deque Ringbuffer Json Socket SocketSpec SocketProps Table Hash.
From S2P Require Import State Client WebSocket Server ServerSpec Demo.
From Stdlib Require String.

Section ev.
Context `{Jansson}.
Variable strerror : string.
Variables sha1 encode_block : list Z → list Z.
Variable sizeof_client : Z.
Implicit Types (o : oracle) (cid : Z) (srv : dime_server).

(** The loop over the messages; [stop] says whether [ev_unloop] has been
    called, which it returns from. *)
Fixpoint ev_serve (fuel : nat) o (env : nat → tls_env) cid (stop : bool) : M bool :=
  match fuel with
  | O => lift Diverge
  | S fuel =>
      c ← get_client cid;
      '(n, m, s) ← lift (dime_socket_pop (sub o 0) (cl_sock c));
      put_client cid (cl_set_sock c s);;
      match m with
      | Some (jsondata, bindata) =>
          _ ← dispatch strerror (sub o 1) (env O) cid jsondata bindata;
          ev_serve fuel (sub o 2) (λ k, env (S k)) cid stop
      | None =>
          if n <? 0 then ev_serve fuel (sub o 2) (λ k, env (S k)) cid true else mret stop
      end
  end.

(** [both]: libev reports [EV_READ] and [EV_WRITE] at once. *)
Definition ev_client_readable (both : bool) o (recv : option (list Z)) (env : nat → tls_env) cid
    : M read_outcome :=
  if both then close_client cid;; mret ReadClosed
  else
    c ← get_client cid;
    '(n, s) ← lift (dime_socket_recvpartial (sub o 0) (cl_sock c) recv);
    put_client cid (cl_set_sock c s);;
    if n <=? 0 then close_client cid;; mret ReadClosed
    else
      stop ← ev_serve (serve_fuel s) (sub o 1) env cid false;
      mret (if stop : bool then ReadStop else ReadOk).

(** [ev_io_stop] on the watcher of a client that asks for room to write; it
    remains asking for bytes to read. *)
Definition stop_wwatcher cid : M unit :=
  c ← get_client cid;
  put_client cid (cl_set_sock c (with_ev (cl_sock c) (Some false))).

Definition ev_client_writable (both : bool) o (send : list Z → Z) cid : M bool :=
  if both then close_client cid;; mret false
  else
    c ← get_client cid;
    '(n, _, s) ← lift (dime_socket_sendpartial (at_ o 0) (cl_sock c) send);
    put_client cid (cl_set_sock c s);;
    if n <? 0 then close_client cid;; mret false
    else
      (if dime_socket_sendlen s =? 0 then stop_wwatcher cid else mret ());;
      mret true.

(** [clnt->sock.loop] is set and the watcher for reading starts. *)
Definition start_rwatcher cid : M unit :=
  c ← get_client cid;
  put_client cid (cl_set_sock c (with_ev (cl_sock c) (Some false))).

(** The three failures that call [ev_unloop] go on with a pointer that is
    [NULL] or has been freed. *)
Definition ev_server_readable o (accepted : option (Z * address_family)) (ws : nat * ws_env)
    (protocol : dime_protocol) : M (option Z) :=
  match accepted with
  | None => mret None
  | Some (fd, family) =>
      if at_ o 0 sizeof_client then
        r ← connect_client sha1 encode_block o fd family ws protocol;
        match r with
        | None => lift Undef
        | Some None => mret None
        | Some (Some (cid, rc)) =>
            if rc <? 0 then lift Undef else start_rwatcher cid;; mret (Some fd)
        end
      else lift Undef
  end.

(** ** Properties *)

Lemma ret_bind {A B} (m : M A) (f : A → M B) srv r :
  (m ≫= f) srv = Ret r ↔ ∃ a srv', m srv = Ret (a, srv') ∧ f a srv' = Ret r.
Proof.
  unfold mbind, M_bind. destruct (m srv) as [[a srv']| |]; split.
  - intros Hr. by exists a, srv'.
  - by intros (? & ? & [= <- <-] & ?).
  - done.
  - by intros (? & ? & [=] & _).
  - done.
  - by intros (? & ? & [=] & _).
Qed.

Lemma ret_congr {A B C} (m : M A) (f : A → M B) (g : A → M C) srv r r' :
  (∀ a srv', f a srv' = Ret r ↔ g a srv' = Ret r') →
  (m ≫= f) srv = Ret r ↔ (m ≫= g) srv = Ret r'.
Proof. intros Hfg. rewrite !ret_bind. naive_solver. Qed.

Lemma ret_impl {A B C} (m : M A) (f : A → M B) (g : A → M C) srv r r' :
  (∀ a srv', f a srv' = Ret r → g a srv' = Ret r') →
  (m ≫= f) srv = Ret r → (m ≫= g) srv = Ret r'.
Proof. intros Hfg. rewrite !ret_bind. naive_solver. Qed.

(** Once [ev_unloop] has been called it stays called. *)
Lemma ev_serve_stop fuel : ∀ o env cid srv srv',
  ev_serve fuel o env cid true srv ≠ Ret (false, srv').
Proof.
  induction fuel as [|fuel IH]; intros o env cid srv srv'; [done|]. cbn [ev_serve].
  intros (c & srv1 & _ & ([[n m] s] & srv2 & _ & ([] & srv3 & _ & Hr)%ret_bind)%ret_bind)%ret_bind.
  destruct m as [[j bin]|].
  - apply ret_bind in Hr as (? & ? & _ & Hr). by eapply IH.
  - destruct (n <? 0); [by eapply IH|done].
Qed.

Lemma ev_serve_agrees fuel : ∀ o env cid srv srv',
  ev_serve fuel o env cid false srv = Ret (false, srv') ↔
  serve_messages strerror fuel o env cid srv = Ret (true, srv').
Proof.
  induction fuel as [|fuel IH]; intros o env cid srv srv'; [done|]. cbn [ev_serve serve_messages].
  apply ret_congr. intros c srv1. apply ret_congr. intros [[n m] s] srv2. apply ret_congr.
  intros [] srv3. destruct m as [[j bin]|].
  - apply ret_congr. intros rc srv4. apply IH.
  - destruct (n <? 0); [|split; by intros [= <-]].
    split; [intros Hr; by apply ev_serve_stop in Hr|done].
Qed.

Lemma ev_readable_agrees o recv env cid srv r srv' :
  r ≠ ReadStop →
  ev_client_readable false o recv env cid srv = Ret (r, srv') ↔
  client_readable strerror o recv env cid srv = Ret (r, srv').
Proof.
  intros Hr. unfold ev_client_readable, client_readable.
  apply ret_congr. intros c srv1. apply ret_congr. intros [n s] srv2. apply ret_congr.
  intros [] srv3. destruct (n <=? 0); [done|].
  rewrite !ret_bind. split.
  - intros ([|] & srv4 & Hs & [= <- <-]); [done|]. exists true, srv4.
    split; [by apply ev_serve_agrees|done].
  - intros ([|] & srv4 & Hs & [= <- <-]); [|done]. exists false, srv4.
    split; [by apply ev_serve_agrees|done].
Qed.

(** The state after a write: the callback stops the watcher after it. *)
Lemma ev_writable_agrees o send cid srv r srv' :
  ev_client_writable false o send cid srv = Ret (r, srv') ↔
  ∃ srv1, client_writable o send cid srv = Ret (r, srv1) ∧
    if r : bool then ∃ c, sv_clients srv1 !! cid = Some c ∧
      if dime_socket_sendlen (cl_sock c) =? 0 then stop_wwatcher cid srv1 = Ret ((), srv')
      else srv' = srv1
    else srv' = srv1.
Proof.
  unfold ev_client_writable, client_writable. cbv beta iota.
  unfold get_client, deref, lift, put_client, modify, mbind, M_bind.
  destruct (sv_clients srv !! cid) as [c|] eqn:Hc; [|by split; [|intros (? & ? & _)]].
  destruct (dime_socket_sendpartial _ _ _) as [[[n out] s]| |]; [|by split; [|intros (? & ? & _)]..].
  destruct (n <? 0).
  - destruct (close_client cid _) as [[[] srv2]| |]; [|by split; [|intros (? & ? & _)]..].
    split; [by intros [= <- <-]; exists srv2|]. by intros (srv1 & [= <- <-] & ->).
  - set (srv1 := sv_set_clients _ _).
    assert (sv_clients srv1 !! cid = Some (cl_set_sock c s)) as Hc1 by apply lookup_insert_eq.
    split.
    + intros Hr. exists srv1. destruct (dime_socket_sendlen s =? 0) eqn:El.
      * destruct (stop_wwatcher cid srv1) as [[[] srv2]| |] eqn:Est; [|done..].
        injection Hr as <- <-. split; [done|]. exists (cl_set_sock c s). split; [done|]. simpl.
        by rewrite El.
      * injection Hr as <- <-. split; [done|]. exists (cl_set_sock c s). split; [done|]. simpl.
        by rewrite El.
    + intros (srv2 & [= <- <-] & c1 & Hc1' & Hst). simplify_eq. simpl in Hst.
      destruct (dime_socket_sendlen s =? 0); [by rewrite Hst|by subst].
Qed.

(** The callbacks of the build with libev do what the loop around [select]
    does: a readable connection ends in the same state with the same outcome
    unless the server stops; a writable one in the same state, apart from the
    watcher that stops once there is nothing left to send; and a new connection
    is accepted in the same way whenever the callback is defined, and watched. *)
Theorem libev_agrees o recv env cid send accepted ws protocol srv :
  (∀ r srv', r ≠ ReadStop →
     ev_client_readable false o recv env cid srv = Ret (r, srv') ↔
     client_readable strerror o recv env cid srv = Ret (r, srv')) ∧
  (∀ r srv', ev_client_writable false o send cid srv = Ret (r, srv') ↔
     ∃ srv1, client_writable o send cid srv = Ret (r, srv1) ∧
       if r : bool then ∃ c, sv_clients srv1 !! cid = Some c ∧
         if dime_socket_sendlen (cl_sock c) =? 0 then stop_wwatcher cid srv1 = Ret ((), srv')
         else srv' = srv1
       else srv' = srv1) ∧
  ∀ r srv', ev_server_readable o accepted ws protocol srv = Ret (r, srv') →
    at_ o 0 sizeof_client = true →
    ∃ srv1, accept_client sha1 encode_block sizeof_client o accepted ws protocol srv
      = Ret (Some r, srv1) ∧
      if r then ∃ cid, start_rwatcher cid srv1 = Ret ((), srv') else srv' = srv1.
Proof.
  split; [|split].
  - intros r srv'. apply ev_readable_agrees.
  - apply ev_writable_agrees.
  - intros r srv' Hev Hmem. unfold accept_client. rewrite Hmem. unfold ev_server_readable in Hev.
    destruct accepted as [[fd family]|]; [|injection Hev as <- <-; by exists srv].
    rewrite Hmem in Hev. apply ret_bind in Hev as (x & srv1 & Hc & Hev).
    destruct x as [[[cid' rc]|]|]; [| |done].
    + destruct (rc <? 0) eqn:Erc; [done|]. apply ret_bind in Hev as ([] & srv2 & Hst & [= <- <-]).
      exists srv1. split; [|by exists cid']. apply ret_bind. eexists _, _. split; [exact Hc|].
      simpl. by rewrite Erc.
    + injection Hev as <- <-. exists srv1. split; [|done]. apply ret_bind. by eexists _, _.
Qed.

(** The bytes of a message that has no DiME header. *)
Definition headless (bs : list Z) : Prop := 12 ≤ zlen bs ∧ take 4 bs ≠ magic.

Lemma pop_headless o s bs wb wsb :
  sock_rep s bs wb wsb → so_ws s = false → headless bs → dime_socket_pop o s = Ret (-1, None, s).
Proof.
  intros [Hr _ _ _ _] Hws [Hlen Hmagic]. unfold dime_socket_pop. rewrite Hws. cbn [mbind outcome_bind].
  unfold pop_message. rewrite (peek_rep _ bs) by (done || lia). cbn [mbind outcome_bind].
  rewrite Z.min_l by lia. cbn [Z.eqb Pos.eqb]. rewrite bool_decide_eq_false_2; [done|].
  rewrite take_take. by change (4 `min` Z.to_nat 12)%nat with 4%nat.
Qed.

(** C40: with libev a client that sends 12 bytes that are no DiME header stops
    the server: however long it runs, [ev_client_readable] does not get out of its
    loop, while the loop around [select] returns. *)
Theorem ev_malformed_spins o env cid c srv bs wb wsb :
  sv_clients srv !! cid = Some c → sock_rep (cl_sock c) bs wb wsb → so_ws (cl_sock c) = false →
  headless bs →
  (∀ fuel stop, ev_serve fuel o env cid stop srv = Diverge) ∧
  ∀ fuel, (0 < fuel)%nat → serve_messages strerror fuel o env cid srv = Ret (false, srv).
Proof.
  intros Hc Hrep Hws Hbad.
  assert (∀ o, dime_socket_pop o (cl_sock c) = Ret (-1, None, cl_sock c)) as Hpop
    by (intros; by eapply pop_headless).
  assert (sv_set_clients srv (<[cid := cl_set_sock c (cl_sock c)]> (sv_clients srv)) = srv) as Heta.
  { assert (cl_set_sock c (cl_sock c) = c) as -> by by destruct c.
    rewrite insert_id by done. by destruct srv. }
  split.
  - intros fuel. revert o env. induction fuel as [|fuel IH]; intros o env stop; [done|].
    cbn [ev_serve]. unfold mbind, M_bind, get_client, deref, lift, put_client, modify.
    rewrite Hc, Hpop. cbn [Z.ltb Z.compare]. rewrite Heta. apply IH.
  - intros [|fuel] Hf; [lia|]. cbn [serve_messages].
    unfold mbind, M_bind, get_client, deref, lift, put_client, modify.
    rewrite Hc, Hpop. by rewrite Heta.
Qed.
End ev.

(** ** Witnesses *)

Local Existing Instance text_json.

Definition ev_tls : nat → tls_env := λ _, TlsEnv fcntl_fails (λ _ _, -1) false false false fcntl_fails.

(** A network that is down. *)
Lemma libev_agrees_witness : ∃ srv srv',
  ev_client_readable "e"%string false alloc_4M None ev_tls 1 srv = Ret (ReadClosed, srv').
Proof.
  destruct demo_exists as (srv & c0 & c1 & gid & g & Hd). destruct (demo_lookup Hd) as [_ H1].
  pose proof (wp_close_client srv _ 1 c1 (dm_view Hd) H1) as Hw.
  apply returns_eq in Hw as ([[] srv'] & Hrun & _).
  2:{ destruct (nc_queue _ _ (dm_c1 _ _ _ _ _ Hd)) as [Hq ->]. unfold dime_deque_len.
      by rewrite (proj1 (dr_len _ _ Hq)). }
  exists srv, srv'.
  apply (libev_agrees "e"%string id id 0 alloc_4M None ev_tls 1 (λ _, 0) None (0%nat, full_env)
    DIME_TCP srv); [done|].
  unfold client_readable, mbind, M_bind, get_client, deref, lift, put_client, modify. rewrite H1.
  change (dime_socket_recvpartial _ _ None) with (Ret (-1, cl_sock c1)).
  cbv beta iota. assert (cl_set_sock c1 (cl_sock c1) = c1) as -> by by destruct c1.
  rewrite insert_id by done.
  assert (sv_set_clients srv (sv_clients srv) = srv) as -> by by destruct srv.
  change (-1 <=? 0) with true. cbv iota beta. by rewrite Hrun.
Defined.

Definition http_request : list Z := bytes_of "GET / HTTP/1.1"%string.

Lemma ev_malformed_spins_witness : ∃ srv, ∀ fuel,
  ev_serve "e"%string fuel alloc_1T ev_tls 0 false srv = Diverge.
Proof.
  destruct (sock_with false http_request []) as (s & Hrep & Hws); [vm_compute; discriminate..|].
  exists (Server {[0 := Client 5 false [] 4 s (snd (dime_deque_init (alloc_1T [])))]} ∅ ∅ 1
    (snd (dime_table_init (alloc_1T []))) (snd (dime_table_init (alloc_1T [])))
    DIME_NO_SERIALIZATION false).
  intros fuel. eapply (ev_malformed_spins "e"%string); [by apply lookup_singleton_eq|exact Hrep|exact Hws|].
  split; [by vm_compute|]. by vm_compute.
Defined.
