(* ===== verification/EvLoop.v ===== *)
(** * The event loop of the build with libev

    [dime_server_loop] of the build with libev and what libev does for it: it
    calls the callbacks of [Ev] for the watchers that run and whose descriptors
    are ready. Whatever libev reports, a run of the loop is a run of the
    steps of the server, and no connection with bytes to send is forgotten. *)

From S2P Require Import Prelude Bytes Deque Ringbuffer Json Socket SocketSpec SocketWf Table.
From S2P Require Import TableSpec TableMap Hash State Client WebSocket Server Invariant.
From S2P Require Import ClientSpec Inbox Sound ServerSpec ServerProps ServerLoop ServerRuns Ev Demo.
From Stdlib Require String.

(** What libev reports: a listening socket, given by its place in [srv->fds],
    has a connection, a client can be read from, or written to. [both] says
    that [EV_READ] and [EV_WRITE] are reported at once. The rest is what the
    system answers to the callback. *)
Inductive ev_event :=
  | EvAccept (j : nat) (accepted : option (Z * address_family)) (ws : nat * ws_env)
  | EvRead (cid : Z) (both : bool) (recv : option (list Z)) (env : nat → tls_env)
  | EvWrite (cid : Z) (both : bool) (send : list Z → Z).

Inductive ev_result := EvFailed | EvReturned | EvRunning.

Section loop.
Context `{Jansson}.
Variable strerror : string.
Variables sha1 encode_block : list Z → list Z.
Variable sizeof_client : Z.
Variable fds : list (Z * dime_protocol).
Implicit Types (o : oracle) (cid : Z) (srv : dime_server) (e : ev_event).

(** Whether the watcher of an event runs; those of the listening sockets
    always do. *)
Definition ev_active e srv : bool :=
  match e with
  | EvAccept j _ _ => bool_decide (is_Some (fds !! j))
  | EvRead cid _ _ _ =>
      match sv_clients srv !! cid with Some c => ev_watched (cl_sock c) | None => false end
  | EvWrite cid _ _ =>
      match sv_clients srv !! cid with
      | Some c => bool_decide (so_ev (cl_sock c) = Some true)
      | None => false
      end
  end.

(** The callback of an event; it answers whether it has called [ev_unloop]. *)
Definition ev_invoke o e : M bool :=
  match e with
  | EvAccept j accepted ws =>
      match fds !! j with
      | Some (_, protocol) =>
          _ ← ev_server_readable sha1 encode_block sizeof_client o accepted ws protocol; mret false
      | None => mret false
      end
  | EvRead cid both recv env =>
      r ← ev_client_readable strerror both o recv env cid;
      mret (match r with ReadStop => true | _ => false end)
  | EvWrite cid both send => _ ← ev_client_writable both o send cid; mret false
  end.

(** libev is not part of the repository; which events it reports, and in which
    order, is an argument. As it documents, it calls the callback of a watcher
    only while the watcher runs, [ev_io_stop] takes back what is already reported
    for a watcher, and [ev_unloop] lets the callbacks that are due run before
    [ev_loop] returns. These are the callbacks that are due at one time. *)
Fixpoint ev_iteration (events : list (oracle * ev_event)) (stop : bool) : M bool :=
  match events with
  | [] => mret stop
  | (o, e) :: events =>
      active ← gets (ev_active e);
      s ← (if active : bool then ev_invoke o e else mret false);
      ev_iteration events (stop || s)
  end.

(** Any number of times; it answers whether [ev_loop] has returned. *)
Fixpoint ev_loop (iterations : list (list (oracle * ev_event))) : M bool :=
  match iterations with
  | [] => mret false
  | events :: iterations =>
      stop ← ev_iteration events false;
      if stop : bool then mret true else ev_loop iterations
  end.

(** [default] says whether [ev_default_loop] gives a loop. Without a watcher
    [ev_loop] returns at once. *)
Definition ev_dime_server_loop (default : bool) (listen : Z → bool)
    (iterations : list (list (oracle * ev_event))) : M ev_result :=
  if negb default then mret EvFailed
  else if forallb (λ f, listen f.1) fds then
    match fds with
    | [] => mret EvReturned
    | _ =>
        stop ← ev_loop iterations;
        mret (if stop : bool then EvReturned else EvRunning)
    end
  else mret EvFailed.

(** ** Every event is a run of steps *)

Context {b : Z} `{!JanssonLaws (2 ^ b)}.
Hypothesis Hb : 18 ≤ b ≤ 47.
Hypothesis Hsize : sizeof_client ≤ 2 ^ b.
Notation step := (server_step (b:=b) strerror sha1 encode_block sizeof_client).

(** Every client is watched for bytes to read. *)
Definition all_watched srv : Prop :=
  ∀ cid c, sv_clients srv !! cid = Some c → ev_watched (cl_sock c) = true.

Definition ev_ok srv : Prop := server_ok srv ∧ all_watched srv.

(** What an event can rely on; in particular, no message is malformed. *)
Definition event_ok o e srv : Prop :=
  match e with
  | EvAccept j accepted ws => ∀ fd family fd' protocol,
      accepted = Some (fd, family) → fds !! j = Some (fd', protocol) →
      connect_ok sha1 encode_block (b:=b) o fd ws protocol srv
  | EvRead cid both recv env =>
      if both then close_ok cid srv
      else readable_ok (b:=b) strerror o recv env cid srv ∧
        ∀ srv', client_readable strerror o recv env cid srv ≠ Ret (ReadStop, srv')
  | EvWrite cid both send =>
      if both then close_ok cid srv else writable_ok o send cid srv
  end.

Lemma gone_watched closed cid srv srv' :
  gone closed cid srv srv' → all_watched srv → all_watched srv'.
Proof.
  unfold gone. rewrite map_eq_iff. intros Hg Hall x c' Hc'. specialize (Hg x).
  rewrite lookup_fmap, Hc' in Hg. simpl in Hg. symmetry in Hg. destruct closed.
  - apply lookup_delete_Some in Hg as [_ Hg]. rewrite lookup_fmap in Hg.
    destruct (sv_clients srv !! x) as [c|] eqn:Hc; [|done]. injection Hg as _ Hev.
    rewrite <-Hev. by eapply Hall.
  - rewrite lookup_fmap in Hg.
    destruct (sv_clients srv !! x) as [c|] eqn:Hc; [|done]. injection Hg as _ Hev.
    rewrite <-Hev. by eapply Hall.
Qed.

Lemma rtc_ok srv srv' : server_ok srv → rtc step srv srv' → server_ok srv'.
Proof. intros. by eapply (steps_view (b:=b) strerror sha1 encode_block sizeof_client). Qed.

(** Stopping a watcher of a client, or starting the one for reading. *)
Lemma watch_steps cid c srv :
  sv_clients srv !! cid = Some c → dime_socket_sendlen (cl_sock c) = 0 →
  (∀ x cx, x ≠ cid → sv_clients srv !! x = Some cx → ev_watched (cl_sock cx) = true) →
  wp (start_rwatcher cid) srv (λ _ srv', step srv srv' ∧ all_watched srv').
Proof.
  intros Hc Hlen Hall. unfold start_rwatcher. wp_step. apply wp_modify. split.
  - apply step_socket; [done|]. by apply act_watch.
  - unfold all_watched. simpl. intros x cx [[<- <-]|[Hne Hx]]%lookup_insert_Some; [done|]. by eapply Hall.
Qed.

Lemma ev_close_steps cid c srv :
  ev_ok srv → sv_clients srv !! cid = Some c → close_ok cid srv →
  wp (close_client cid) srv (λ _ srv', rtc step srv srv' ∧ all_watched srv').
Proof.
  intros [Hok Hall] Hc Hclose.
  eapply wp_mono; [by apply (close_steps (b:=b) strerror sha1 encode_block sizeof_client cid c)|].
  intros [] srv' [Hstep Hcl]. split; [by apply rtc_once|].
  intros x cx Hx. rewrite Hcl in Hx. apply lookup_delete_Some in Hx as [_ Hx]. by eapply Hall.
Qed.

Lemma ev_readable_steps both o recv env cid c srv :
  oracle_sane o → grants o (2 ^ b) → ev_ok srv → sv_clients srv !! cid = Some c →
  event_ok o (EvRead cid both recv env) srv →
  wp (ev_client_readable strerror both o recv env cid) srv (λ r srv',
    rtc step srv srv' ∧ all_watched srv' ∧ r ≠ ReadStop).
Proof.
  intros Hs Hg Hok Hc Hev. destruct both; simpl in Hev.
  - apply wp_bind. eapply wp_mono; [by apply (ev_close_steps cid c)|].
    intros [] srv' [Hrun Hall]. by apply wp_ret.
  - destruct Hev as [Hread Hgood]. pose proof Hok as [Hok1 Hall].
    pose proof (readable_steps strerror sha1 encode_block sizeof_client Hb Hsize o recv env cid c srv
      Hs Hg Hok1 Hc Hread) as Hw.
    apply returns_eq in Hw as ([r srv'] & Hrun & Hsteps & Hgone).
    assert (r ≠ ReadStop) as Hr by (intros ->; by eapply Hgood).
    unfold wp. rewrite (proj2 (ev_readable_agrees strerror o recv env cid srv r srv' Hr) Hrun). split; [done|]. split; [by eapply gone_watched|done].
Qed.

Lemma ev_writable_steps both o send cid c srv :
  ev_ok srv → sv_clients srv !! cid = Some c → event_ok o (EvWrite cid both send) srv →
  wp (ev_client_writable both o send cid) srv (λ _ srv', rtc step srv srv' ∧ all_watched srv').
Proof.
  intros Hok Hc Hev. destruct both; simpl in Hev.
  - apply wp_bind. eapply wp_mono; [by apply (ev_close_steps cid c)|].
    intros [] srv' [Hrun Hall]. by apply wp_ret.
  - pose proof Hok as [Hok1 Hall].
    pose proof (writable_steps strerror sha1 encode_block sizeof_client Hb Hsize o send cid c srv
      Hok1 Hc Hev) as Hw.
    apply returns_eq in Hw as ([r srv1] & Hrun & Hsteps & Hgone).
    pose proof (gone_watched _ _ _ _ Hgone Hall) as Hall1.
    assert (∃ srv', ev_client_writable false o send cid srv = Ret (r, srv') ∧
      rtc step srv srv' ∧ all_watched srv') as (srv' & Hrun' & Hr); [|unfold wp; by rewrite Hrun'].
    setoid_rewrite ev_writable_agrees.
    destruct r; [|by exists srv1; split; [exists srv1|]].
    assert (∃ c1, sv_clients srv1 !! cid = Some c1) as [c1 Hc1].
    { unfold gone in Hgone. simpl in Hgone. rewrite map_eq_iff in Hgone. specialize (Hgone cid).
      rewrite !lookup_fmap, Hc in Hgone. destruct (sv_clients srv1 !! cid); [eauto|done]. }
    destruct (dime_socket_sendlen (cl_sock c1) =? 0) eqn:El.
    + apply Z.eqb_eq in El. pose proof (watch_steps cid c1 srv1 Hc1 El) as Hw.
      apply returns_eq in Hw as ([[] srv'] & Hst & Hstep & Hall'); [|intros x cx _; apply Hall1].
      exists srv'. split; [|split; [by eapply rtc_r|done]]. exists srv1. split; [done|].
      exists c1. split; [done|]. by rewrite El.
    + exists srv1. split; [|done]. exists srv1. split; [done|]. exists c1. by rewrite El.
Qed.

Lemma ev_accept_steps o accepted ws protocol srv :
  oracle_sane o → grants o (2 ^ b) → ev_ok srv →
  (∀ fd family, accepted = Some (fd, family) →
     connect_ok sha1 encode_block (b:=b) o fd ws protocol srv) →
  wp (ev_server_readable sha1 encode_block sizeof_client o accepted ws protocol) srv (λ _ srv',
    rtc step srv srv' ∧ all_watched srv').
Proof.
  intros Hs Hg [Hok Hall] Hco. destruct accepted as [[fd family]|]; [|by apply wp_ret].
  destruct (Hco fd family eq_refl) as (Hfresh & Hlen & Hmany & Hws).
  destruct (server_ok_view _ Hok) as [boxes Hv].
  assert (at_ o 0 sizeof_client = true) as Hmem by (unfold at_; by apply Hg).
  unfold ev_server_readable. rewrite Hmem. apply wp_bind.
  pose proof (wp_connect sha1 encode_block b o fd family ws protocol srv boxes Hb Hs Hg Hv Hfresh
    Hlen Hmany (peer_handshake sha1 encode_block o ws protocol Hs Hws)) as Hw.
  apply returns_eq in Hw as ([r srv1] & Hrun & Hr). unfold wp. rewrite Hrun. cbn [returns].
  destruct Hr as [(-> & _ & ->)|(-> & _ & _ & c & Hcl & Hfd & Hlen0)]; [by apply wp_ret|].
  assert (step srv srv1) as Hstep.
  { eapply (step_accept _ _ _ _ o fd family ws protocol (Some (Some fd))); try done.
    unfold accept_client. rewrite Hmem. unfold mbind, M_bind. rewrite Hrun. done. }
  assert (sv_clients srv1 !! sv_next srv = Some c) as Hc by (rewrite Hcl; apply lookup_insert_eq).
  change (0 <? 0) with false. cbv iota. apply wp_bind.
  eapply wp_mono; [apply (watch_steps (sv_next srv) c); [done|done|]|].
  - intros x cx Hne Hx. rewrite Hcl, lookup_insert_ne in Hx by done. by eapply Hall.
  - intros [] srv2 [Hstep2 Hall2]. apply wp_ret. split; [|done]. by eapply rtc_l, rtc_once.
Qed.

Lemma ev_invoke_steps o e srv :
  oracle_sane o → grants o (2 ^ b) → ev_ok srv → ev_active e srv = true → event_ok o e srv →
  wp (ev_invoke o e) srv (λ stop srv', stop = false ∧ rtc step srv srv' ∧ ev_ok srv').
Proof.
  intros Hs Hg Hok Hact Hev.
  assert (∀ srv', rtc step srv srv' → all_watched srv' → rtc step srv srv' ∧ ev_ok srv') as Hdone.
  { intros srv' Hrun Hall. split; [done|]. split; [by eapply rtc_ok; [apply Hok|]|done]. }
  destruct e as [j accepted ws|cid both recv env|cid both send]; simpl in *.
  - destruct (fds !! j) as [[fd protocol]|] eqn:Ej; [|by apply wp_ret; auto using rtc_refl].
    apply wp_bind. eapply wp_mono; [apply ev_accept_steps; try done|].
    { intros fd' family Ha. by eapply Hev. }
    intros r srv' [Hrun Hall]. apply wp_ret. auto.
  - destruct (sv_clients srv !! cid) as [c|] eqn:Hc; [|done].
    apply wp_bind. eapply wp_mono; [by apply (ev_readable_steps both o recv env cid c)|].
    intros r srv' (Hrun & Hall & Hr). apply wp_ret. split; [by destruct r|auto].
  - destruct (sv_clients srv !! cid) as [c|] eqn:Hc; [|done].
    apply wp_bind. eapply wp_mono; [by apply (ev_writable_steps both o send cid c)|].
    intros r srv' (Hrun & Hall). apply wp_ret. auto.
Qed.

(** ** Any number of iterations *)

Fixpoint events_ok (events : list (oracle * ev_event)) srv : Prop :=
  match events with
  | [] => True
  | (o, e) :: events => oracle_sane o ∧ grants o (2 ^ b) ∧
      if ev_active e srv then event_ok o e srv ∧
        ∀ stop srv', ev_invoke o e srv = Ret (stop, srv') → events_ok events srv'
      else events_ok events srv
  end.

Lemma ev_iteration_steps events : ∀ srv,
  ev_ok srv → events_ok events srv →
  wp (ev_iteration events false) srv (λ stop srv', stop = false ∧ rtc step srv srv' ∧ ev_ok srv').
Proof.
  induction events as [|[o e] events IH]; intros srv Hok Hev.
  { apply wp_ret. auto using rtc_refl. }
  destruct Hev as (Hs & Hg & Hev). cbn [ev_iteration]. wp_step.
  destruct (ev_active e srv) eqn:Hact.
  - destruct Hev as [He Hrest]. apply wp_bind.
    pose proof (ev_invoke_steps o e srv Hs Hg Hok Hact He) as Hw.
    apply returns_eq in Hw as ([stop srv1] & Hrun & -> & Hrun1 & Hok1). unfold wp at 1.
    rewrite Hrun. cbn [returns orb]. eapply wp_mono; [apply (IH srv1); [done|by eapply Hrest]|].
    intros stop srv2 (-> & Hrun2 & Hok2). split; [done|]. split; [by eapply rtc_trans|done].
  - apply wp_bind, wp_ret. by apply IH.
Qed.

Fixpoint iterations_ok (iterations : list (list (oracle * ev_event))) srv : Prop :=
  match iterations with
  | [] => True
  | events :: iterations => events_ok events srv ∧
      ∀ srv', ev_iteration events false srv = Ret (false, srv') → iterations_ok iterations srv'
  end.

Lemma ev_loop_steps iterations : ∀ srv,
  ev_ok srv → iterations_ok iterations srv →
  wp (ev_loop iterations) srv (λ stop srv', stop = false ∧ rtc step srv srv' ∧ ev_ok srv').
Proof.
  induction iterations as [|events iterations IH]; intros srv Hok Hgo.
  { apply wp_ret. auto using rtc_refl. }
  destruct Hgo as [Hev Hrest]. cbn [ev_loop]. apply wp_bind.
  pose proof (ev_iteration_steps events srv Hok Hev) as Hw.
  apply returns_eq in Hw as ([stop srv1] & Hrun & -> & Hrun1 & Hok1). unfold wp at 1.
  rewrite Hrun. cbn [returns]. eapply wp_mono; [apply (IH srv1); [done|by apply Hrest]|].
  intros stop srv2 (-> & Hrun2 & Hok2). split; [done|]. split; [by eapply rtc_trans|done].
Qed.

(** A socket that has something to send has its watcher running. *)
Lemma sock_wf_watched s :
  sock_wf s → ev_watched s = true → 0 < dime_socket_sendlen s → so_ev s = Some true.
Proof.
  intros (rb & wb & wsb & [_ Hwb _ _ Hev] & _) [[|] E]%bool_decide_eq_true Hlen; [done|].
  exfalso. rewrite (Hev E) in Hwb. revert Hlen. unfold dime_socket_sendlen, dime_ringbuffer_len.
  rewrite (proj1 (rr_len _ _ Hwb)). zlia.
Qed.

Lemma ev_server_loop_steps default listen iterations srv0 :
  server_view srv0 ∅ → iterations_ok iterations srv0 →
  wp (ev_dime_server_loop default listen iterations) srv0 (λ r srv',
    rtc step srv0 srv' ∧ ev_ok srv' ∧
    r = (if default && forallb (λ f, listen f.1) fds
         then match fds with [] => EvReturned | _ => EvRunning end else EvFailed)).
Proof.
  intros Hv Hgo. assert (ev_ok srv0) as Hok.
  { split; [by eapply server_view_ok|]. intros cid c. by rewrite (server_view_empty _ Hv). }
  unfold ev_dime_server_loop. destruct default; cbn [negb andb]; [|apply wp_ret; auto using rtc_refl].
  destruct (forallb _ fds); [|apply wp_ret; auto using rtc_refl].
  destruct fds as [|f l] eqn:Ef; [apply wp_ret; auto using rtc_refl|].
  apply wp_bind. eapply wp_mono; [by apply ev_loop_steps|].
  intros stop srv' (-> & Hrun & Hok'). by apply wp_ret.
Qed.

(** C27: the server of the build with libev gets through any number of
    iterations of the event loop and runs on, whichever events libev reports,
    whatever the connections receive and however much of what is sent the
    system takes, if every event can rely on what the code does not check
    ([iterations_ok]): the number of a new connection is not in use, blocks of
    up to 2^b bytes are granted, a WebSocket client sends an HTTP request, in
    any pieces, or breaks off with an error, no message that arrives is
    malformed and no size in it wraps, its command can rely on what [dispatch]
    does not check ([command_ok], [devices_ok]), and no connection with an
    exactly full queue is closed. What it does then is a run of the steps of
    the server and keeps the state sound. After every iteration libev watches
    every connection for bytes to read, and for room to write if there is
    anything to send to it. It fails only if there is no loop or [listen]
    fails. *)
Theorem ev_loop_serves o daemon fork srv0 ls0 default listen iterations :
  dime_server_init o daemon fork = InitDone srv0 ls0 → iterations_ok iterations srv0 →
  wp (ev_dime_server_loop default listen iterations) srv0 (λ r srv',
    rtc step srv0 srv' ∧ sound srv' ∧
    r = (if default && forallb (λ f, listen f.1) fds
         then match fds with [] => EvReturned | _ => EvRunning end else EvFailed) ∧
    ∀ cid c, sv_clients srv' !! cid = Some c →
      is_Some (so_ev (cl_sock c)) ∧
      (0 < dime_socket_sendlen (cl_sock c) → so_ev (cl_sock c) = Some true)).
Proof.
  intros [Hinit ->]%server_init_tables Hgo. pose proof (proj1 (init_tables_view _ _ Hinit)) as Hv.
  eapply wp_mono; [by apply ev_server_loop_steps|]. intros r srv' (Hrun & [Hok Hall] & ->).
  split; [done|]. split; [by apply server_ok_sound|]. split; [done|]. intros cid c Hc.
  specialize (Hall _ _ Hc). split; [by apply bool_decide_eq_true in Hall|].
  apply sock_wf_watched; [by eapply (ok_sock srv')|done].
Qed.
End loop.

(** ** Witness *)

#[local] Existing Instance text_json.
#[local] Instance text_json_events : @JanssonLaws text_json (2 ^ 22).
Proof. by apply text_json_laws. Qed.

(** A connection arrives, and an event is reported for a socket that is not
    there. *)
Definition example_events : list (list (oracle * ev_event)) :=
  [[(alloc_4M, EvAccept 0 (Some (5, AF_INET)) (0%nat, full_env))];
   [(alloc_4M, EvAccept 7 None (0%nat, full_env))]].

Lemma ev_loop_serves_witness : ∃ srv0,
  wp (@ev_dime_server_loop text_json "e"%string id id 1000 example_fds true (λ _, true) example_events)
    srv0 (λ r srv', r = EvRunning ∧ sound srv').
Proof.
  destruct example_init as (srv & Hinit & Hv & _ & Hcl & Hlen). exists srv.
  eapply wp_mono; [apply (@ev_loop_serves text_json "e"%string id id 1000 example_fds 22 _ ltac:(lia)
    ltac:(lia) alloc_4M true 0 srv _ true (λ _, true) example_events Hinit)|].
  - split; [|intros srv' _].
    + split; [apply alloc_4M_sane|]. split; [apply alloc_4M_grants|]. split; [|by intros].
      intros fd family fd' protocol [= <- <-] [= <- <-]. split; [intros cid c; by rewrite Hcl|].
      rewrite Hlen, Hcl. by split_and!.
    + split; [|by intros]. split; [apply alloc_4M_sane|]. split; [apply alloc_4M_grants|done].
  - intros r srv' (_ & Hs & -> & _). by split.
Defined.
