(* ===== verification/Main.v ===== *)
(** * The command line ([server/main.c])

    [main] up to the call of [dime_server_loop]: it reads the options, sets the
    server up and adds a listening socket for every option [-l]; and the whole
    program, with the loop and the handler that runs at the end. Strings are
    lists of characters without the terminating NUL; [argv[argc]] is [NULL].
    The array [listens] holds pointers into [argv], which [strtok] writes to:
    here it holds positions in [argv]. *)

From S2P Require Import Prelude Json WebSocket Deque Table State Client Server Setup.
From Stdlib Require String.

Local Open Scope string_scope.
Local Open Scope Z_scope.

(** ** Options *)

Record config := Config {
  cf_daemon : bool;
  cf_tls : bool;
  cf_certname : option (list Z);
  cf_privkeyname : option (list Z);
  cf_verbosity : Z;
  cf_listens : list nat;
}.

(** [memset] and the assignments that follow it. *)
Definition no_config : config := Config false false None None 0 [].

Inductive parsed := ParsedUsage | ParsedHelp | Parsed (cf : config).

(** One character of an option: whether the next argument is its value, and
    what is known so far. The test of [argi + 1] against [argc] never holds. *)
Definition option_char (argv : list (list Z)) (argi : nat) (c : Z) (st : bool * config)
    : outcome (bool * config + parsed) :=
  let argc := length argv in
  let '(skip, cf) := st in
  if c =? 99 then (* c *)
    if (argc <? argi + 1)%nat then Ret (inr ParsedUsage)
    else Ret (inl (true, Config (cf_daemon cf) true (argv !! (argi + 1)%nat) (cf_privkeyname cf)
                           (cf_verbosity cf) (cf_listens cf)))
  else if c =? 100 then (* d *)
    Ret (inl (skip, Config true (cf_tls cf) (cf_certname cf) (cf_privkeyname cf)
                      (cf_verbosity cf) (cf_listens cf)))
  else if c =? 104 then Ret (inr ParsedHelp) (* h *)
  else if c =? 107 then (* k *)
    if (argc <? argi + 1)%nat then Ret (inr ParsedUsage)
    else Ret (inl (true, Config (cf_daemon cf) true (cf_certname cf) (argv !! (argi + 1)%nat)
                           (cf_verbosity cf) (cf_listens cf)))
  else if c =? 108 then (* l *)
    if (argc <? argi + 1)%nat then Ret (inr ParsedUsage)
    else if (length (cf_listens cf) <? (argc + 1) / 2)%nat then
      Ret (inl (true, Config (cf_daemon cf) (cf_tls cf) (cf_certname cf) (cf_privkeyname cf)
                        (cf_verbosity cf) (cf_listens cf ++ [(argi + 1)%nat])))
    else Undef
  else if c =? 118 then (* v *)
    Ret (inl (skip, Config (cf_daemon cf) (cf_tls cf) (cf_certname cf) (cf_privkeyname cf)
                      (u32 (cf_verbosity cf + 1)) (cf_listens cf)))
  else Ret (inr ParsedUsage).

Fixpoint option_chars (argv : list (list Z)) (argi : nat) (cs : list Z) (st : bool * config)
    : outcome (bool * config + parsed) :=
  match cs with
  | [] => Ret (inl st)
  | c :: cs =>
      r ← option_char argv argi c st;
      match r with inl st => option_chars argv argi cs st | inr p => Ret (inr p) end
  end.

(** The arguments from number [argi] on. *)
Fixpoint parse_options (argv : list (list Z)) (argi : nat) (args : list (list Z)) (cf : config)
    : outcome parsed :=
  match args with
  | [] => Ret (Parsed cf)
  | arg :: args =>
      match arg with
      | 45 :: cs =>
          r ← option_chars argv argi cs (false, cf);
          match r with
          | inr p => Ret p
          | inl (skip, cf) =>
              if skip : bool then
                match args with
                | [] => Ret (Parsed cf)
                | _ :: args => parse_options argv (argi + 2) args cf
                end
              else parse_options argv (argi + 1) args cf
          end
      | _ => Ret ParsedUsage
      end
  end.

Definition parse_args (argv : list (list Z)) : outcome parsed :=
  parse_options argv 1 (drop 1 argv) no_config.

(** ** Listening sockets *)

Definition hexdigit (c : Z) : option Z :=
  if (48 <=? c) && (c <=? 57) then Some (c - 48)
  else if (97 <=? c) && (c <=? 102) then Some (c - 87)
  else if (65 <=? c) && (c <=? 70) then Some (c - 55)
  else None.

(** The digits of a number in some base. *)
Fixpoint digits (base acc : Z) (l : list Z) : Z :=
  match l with
  | [] => acc
  | c :: l =>
      match hexdigit c with
      | Some d => if d <? base then digits base (base * acc + d) l else acc
      | None => acc
      end
  end.

(** [strtoul(s, NULL, 0)]. *)
Definition strtoul (s : list Z) : Z :=
  let l := skip_space s in
  let '(neg, l) := match l with
                   | 45 :: l => (true, l) | 43 :: l => (false, l) | _ => (false, l)
                   end in
  let v := match l with
           | 48 :: x :: c :: l' =>
               if ((x =? 120) || (x =? 88)) && bool_decide (is_Some (hexdigit c))
               then digits 16 0 (c :: l') else digits 8 0 l
           | 48 :: _ => digits 8 0 l
           | _ => digits 10 0 l
           end in
  if 2 ^ 64 <=? v then SIZE_MAX else if neg : bool then u64 (- v) else v.

Definition u16 (z : Z) : Z := z mod 2 ^ 16.

Definition colon : list Z := [58].

(** What one of the strings asks for: [None] for an error. [strtok] answers
    [NULL] for a string without a token, which is passed to [strcmp]. *)
Definition parse_listen (s : list Z) : outcome (option (dime_protocol * list Z * Z)) :=
  match strtok colon s with
  | [] => Undef
  | type :: rest =>
      let port p := match rest with
                    | [s] => let port := u16 (strtoul s) in
                             if port =? 0 then None else Some (p, [], port)
                    | _ => None
                    end in
      if bool_decide (type = bytes_of "unix") || bool_decide (type = bytes_of "ipc") then
        Ret match rest with [pathname] => Some (DIME_UNIX, pathname, 0) | _ => None end
      else if bool_decide (type = bytes_of "tcp") then Ret (port DIME_TCP)
      else if bool_decide (type = bytes_of "ws") then Ret (port DIME_WS)
      else Ret None
  end.

(** What [strtok] leaves of a string: it ends behind the first token. *)
Fixpoint cut (started : bool) (l : list Z) : list Z :=
  match l with
  | [] => []
  | c :: l => if c =? 58 then (if started then [] else c :: cut false l) else c :: cut true l
  end.

(** Why [main] returns after the server has been set up. *)
Inductive listen_error := ListenUsage | ListenFail.

Inductive main_result :=
  | MainUsage
  | MainHelp
  | MainFail
  | MainExit (srv : dime_server) (ls : dime_listen)
  | MainStop (why : listen_error) (srv : dime_server) (ls : dime_listen) (open : gset Z)
  | MainRun (cf : config) (srv : dime_server) (ls : dime_listen) (open : gset Z).

(** The loop over [listens]; the answers of the system depend on what is open.
    [None] as a result: all have been added. *)
Fixpoint add_listens (o : oracle) (envs : nat → gset Z → add_env) (strs : list (list Z)) (listens : list nat)
    (ls : dime_listen) (open : gset Z) : outcome (option listen_error * dime_listen * gset Z) :=
  match listens with
  | [] => Ret (None, ls, open)
  | k :: listens =>
      match strs !! k with
      | None => Undef
      | Some s =>
          r ← parse_listen s;
          match r with
          | None => Ret (Some ListenUsage, ls, open)
          | Some (protocol, pathname, _) =>
              '(rc, ls, open) ← dime_server_add (sub o 0) (envs O open) open ls (Some protocol) pathname;
              if rc <? 0 then Ret (Some ListenFail, ls, open)
              else add_listens (sub o 1) (λ n, envs (S n)) (<[k := cut false s]> strs) listens ls open
          end
      end
  end.

Definition listens_default : list Z := bytes_of "unix:/tmp/dime.sock".

(** Without an option [-l] the only entry of [listens] is a string of its own,
    which stands behind those of [argv] here. *)
Definition main (o : oracle) (fork : Z) (envs : nat → gset Z → add_env) (open : gset Z)
    (argv : list (list Z)) : outcome main_result :=
  r ← parse_args argv;
  match r with
  | ParsedUsage => Ret MainUsage
  | ParsedHelp => Ret MainHelp
  | Parsed cf =>
      match dime_server_init (sub o 0) (cf_daemon cf) fork with
      | InitFailed => Ret MainFail
      | InitExit srv ls => Ret (MainExit srv ls)
      | InitDone srv ls =>
          let '(strs, listens) := match cf_listens cf with
                                  | [] => ((argv ++ [listens_default])%list, [length argv])
                                  | _ => (argv, cf_listens cf)
                                  end in
          '(r, ls, open) ← add_listens (sub o 1) envs strs listens ls open;
          match r with
          | Some why => Ret (MainStop why srv ls open)
          | None => Ret (MainRun cf srv ls open)
          end
      end
  end.

(** ** The whole program *)

Section program.
Context {A : Type}.

(** The handler that [atexit] registers. *)
Definition cleanup : dime_listen → M (list (list Z) * list Z) := dime_server_destroy.

(** From [main] to the end of the process: it returns from [main], or it gets a
    signal while it waits in the loop [serve] of its build, and [exit] runs
    [cleanup] on
    [srv]. Before [dime_server_init] it is all zeros, and there is nothing to
    free; if that function fails, it has freed the tables already, or not
    allocated them, and [cleanup] goes through their arrays nevertheless. *)
Definition program (o : oracle) (fork : Z) (envs : nat → gset Z → add_env) (open : gset Z)
    (argv : list (list Z)) (serve : dime_listen → M A)
    : outcome (option (list (list Z) * list Z * dime_server)) :=
  r ← main o fork envs open argv;
  match r with
  | MainUsage | MainHelp => Ret None
  | MainFail => Undef
  | MainExit srv ls | MainStop _ srv ls _ =>
      '(gone, srv) ← cleanup ls srv;
      Ret (Some (gone, srv))
  | MainRun _ srv ls _ =>
      '(_, srv) ← serve ls srv;
      '(gone, srv) ← cleanup ls srv;
      Ret (Some (gone, srv))
  end.
End program.
