(* ===== verification/MainProps.v ===== *)
(** * Properties of the command line

    [main] reads well-formed command lines as what they mean and adds a
    listening socket for each option [-l]; and what it does not check. *)

From S2P Require Import Prelude Json WebSocket Deque Table State Client Server Setup Invariant.
From S2P Require Import Inbox ServerSpec SetupProps Main.

(** ** Reading well-formed command lines *)

(** An argument of flags, [-d] and [-v], and perhaps an option with a value
    behind them. *)
Inductive flag := FlagD | FlagV.
Inductive valued := OptC | OptK | OptL.

Record arg_group := Group_ {
  ag_flags : list flag;
  ag_value : option (valued * list Z);
}.

Definition flag_char (f : flag) : Z := match f with FlagD => 100 | FlagV => 118 end.
Definition valued_char (o : valued) : Z := match o with OptC => 99 | OptK => 107 | OptL => 108 end.

Definition render (g : arg_group) : list (list Z) :=
  match ag_value g with
  | None => [45 :: (flag_char <$> ag_flags g)]
  | Some (o, v) => [45 :: (flag_char <$> ag_flags g) ++ [valued_char o]; v]
  end.

(** What they mean; [argi] is the number of the argument. *)
Definition apply_flag (cf : config) (f : flag) : config :=
  match f with
  | FlagD => Config true (cf_tls cf) (cf_certname cf) (cf_privkeyname cf) (cf_verbosity cf) (cf_listens cf)
  | FlagV => Config (cf_daemon cf) (cf_tls cf) (cf_certname cf) (cf_privkeyname cf)
               (u32 (cf_verbosity cf + 1)) (cf_listens cf)
  end.

Definition apply_value (argi : nat) (cf : config) (o : valued) (v : list Z) : config :=
  match o with
  | OptC => Config (cf_daemon cf) true (Some v) (cf_privkeyname cf) (cf_verbosity cf) (cf_listens cf)
  | OptK => Config (cf_daemon cf) true (cf_certname cf) (Some v) (cf_verbosity cf) (cf_listens cf)
  | OptL => Config (cf_daemon cf) (cf_tls cf) (cf_certname cf) (cf_privkeyname cf) (cf_verbosity cf)
              (cf_listens cf ++ [(argi + 1)%nat])
  end.

Fixpoint apply_groups (argi : nat) (gs : list arg_group) (cf : config) : config :=
  match gs with
  | [] => cf
  | g :: gs =>
      let cf := foldl apply_flag cf (ag_flags g) in
      match ag_value g with
      | None => apply_groups (argi + 1) gs cf
      | Some (o, v) => apply_groups (argi + 2) gs (apply_value argi cf o v)
      end
  end.

Lemma option_flags argv argi fs : ∀ cs skip cf,
  option_chars argv argi ((flag_char <$> fs) ++ cs) (skip, cf)
  = option_chars argv argi cs (skip, foldl apply_flag cf fs).
Proof. induction fs as [|f fs IH]; intros cs skip cf; [done|]. destruct f; apply IH. Qed.

Lemma flags_listens fs : ∀ cf, cf_listens (foldl apply_flag cf fs) = cf_listens cf.
Proof. induction fs as [|f fs IH]; intros cf; [done|]. simpl. rewrite IH. by destruct f. Qed.

(** The array of the addresses is big enough: every entry takes two
    arguments. *)
Lemma option_valued argv argi skip cf o v :
  argv !! (argi + 1)%nat = Some v → (2 * length (cf_listens cf) + 1 ≤ argi)%nat →
  option_char argv argi (valued_char o) (skip, cf) = Ret (inl (true, apply_value argi cf o v)).
Proof.
  intros Hv Hlen. pose proof (lookup_lt_Some _ _ _ Hv) as Hlt.
  assert ((length argv <? argi + 1)%nat = false) as Hargc by (apply Nat.ltb_ge; lia).
  assert (length (cf_listens cf) < (length argv + 1) / 2)%nat as Hroom
    by (apply Nat.div_le_lower_bound; lia).
  apply Nat.ltb_lt in Hroom. unfold option_char. rewrite Hargc, Hroom, Hv. by destruct o.
Qed.

Lemma parse_groups argv gs : ∀ front cf,
  argv = front ++ concat (render <$> gs) → (2 * length (cf_listens cf) + 1 ≤ length front)%nat →
  parse_options argv (length front) (concat (render <$> gs)) cf
  = Ret (Parsed (apply_groups (length front) gs cf)).
Proof.
  induction gs as [|g gs IH]; intros front cf Hargv Hlen; [done|].
  destruct g as [fs [[o v]|]]; simpl in Hargv |- *.
  - rewrite option_flags. cbn [option_chars].
    rewrite (option_valued _ _ _ _ o v).
    + cbn [mbind outcome_bind option_chars].
      specialize (IH (front ++ [45 :: (flag_char <$> fs) ++ [valued_char o]; v])).
      rewrite length_app in IH. simpl in IH. rewrite IH; [done|by rewrite Hargv, <-app_assoc|].
      destruct o; simpl; rewrite ?length_app, flags_listens; simpl; lia.
    + rewrite Hargv, lookup_app_r by lia. by replace (length front + 1 - length front)%nat with 1%nat by lia.
    + by rewrite flags_listens.
  - rewrite <-(app_nil_r (flag_char <$> fs)), option_flags. cbn [option_chars mbind outcome_bind].
    specialize (IH (front ++ [45 :: (flag_char <$> fs)])). rewrite length_app in IH. simpl in IH.
    rewrite IH; [done|by rewrite Hargv, <-app_assoc|]. rewrite flags_listens. lia.
Qed.

(** C32: [main] reads every command line of flags and options with values, with
    any number of flags in front of an option, as what it means, and the
    array [listens] is never written out of bounds: the daemon flag, the
    verbosity, the files of certificate and key, and an entry per option [-l]. *)
Theorem command_line_read prog gs :
  parse_args (prog :: concat (render <$> gs)) = Ret (Parsed (apply_groups 1 gs no_config)).
Proof. by apply (parse_groups (prog :: _) gs [prog]). Qed.

(** ** Setting the server up *)

(** The options [-l] with the positions of their values. *)
Fixpoint listen_args (argi : nat) (gs : list arg_group) : list (nat * list Z) :=
  match gs with
  | [] => []
  | g :: gs =>
      match ag_value g with
      | None => listen_args (argi + 1) gs
      | Some (OptL, v) => ((argi + 1)%nat, v) :: listen_args (argi + 2) gs
      | Some _ => listen_args (argi + 2) gs
      end
  end.

Lemma groups_listens gs : ∀ argi cf,
  cf_listens (apply_groups argi gs cf) = cf_listens cf ++ (listen_args argi gs).*1.
Proof.
  induction gs as [|[fs [[[] v]|]] gs IH]; intros argi cf; simpl.
  - by rewrite app_nil_r.
  - by rewrite IH; simpl; rewrite flags_listens.
  - by rewrite IH; simpl; rewrite flags_listens.
  - rewrite IH; simpl; rewrite flags_listens. by rewrite <-app_assoc.
  - by rewrite IH, flags_listens.
Qed.

Lemma listen_args_at gs : ∀ front,
  Forall (λ kv, (front ++ concat (render <$> gs)) !! kv.1 = Some kv.2 ∧ (length front < kv.1)%nat)
    (listen_args (length front) gs).
Proof.
  induction gs as [|[fs ov] gs IH]; intros front; [constructor|]. simpl.
  destruct ov as [[o v]|].
  - pose proof (IH (front ++ [45 :: (flag_char <$> fs) ++ [valued_char o]; v])) as Hl.
    rewrite length_app, <-app_assoc in Hl. simpl in Hl.
    assert (∀ l : list (nat * list Z), Forall (λ kv, (front ++ (45 :: (flag_char <$> fs) ++ [valued_char o])
        :: v :: concat (render <$> gs)) !! kv.1 = Some kv.2 ∧ (length front + 2 < kv.1)%nat) l →
      Forall (λ kv, (front ++ (45 :: (flag_char <$> fs) ++ [valued_char o])
        :: v :: concat (render <$> gs)) !! kv.1 = Some kv.2 ∧ (length front < kv.1)%nat) l) as Hw.
    { intros l Hl'. eapply Forall_impl; [exact Hl'|]. intros kv [? ?]. split; [done|lia]. }
    destruct o; simpl; try by apply Hw.
    constructor; [|by apply Hw]. simpl. split; [|lia].
    rewrite lookup_app_r by lia. by replace (length front + 1 - length front)%nat with 1%nat by lia.
  - pose proof (IH (front ++ [45 :: (flag_char <$> fs)])) as Hl.
    rewrite length_app, <-app_assoc in Hl. simpl in Hl. eapply Forall_impl; [exact Hl|].
    intros kv [? ?]. split; [done|lia].
Qed.

Lemma listen_args_nodup gs : ∀ argi,
  NoDup (listen_args argi gs).*1 ∧ Forall (λ k, argi < k)%nat (listen_args argi gs).*1.
Proof.
  induction gs as [|[fs [[o v]|]] gs IH]; intros argi; simpl.
  - split; constructor.
  - destruct (IH (argi + 2)%nat) as [Hnd Hall].
    assert (Forall (λ k, argi < k)%nat (listen_args (argi + 2) gs).*1) as Hall'
      by (eapply Forall_impl; [exact Hall|simpl; lia]).
    destruct o; simpl; [by split..|]. split; [|constructor; [lia|done]].
    constructor; [|done]. intros Hin. rewrite Forall_forall in Hall. specialize (Hall _ Hin). lia.
  - destruct (IH (argi + 1)%nat) as [Hnd Hall]. split; [done|].
    eapply Forall_impl; [exact Hall|simpl; lia].
Qed.

(** What a string of an option [-l] asks for, as the help says: a protocol and,
    for a Unix socket, a path. *)
Inductive asks (s : list Z) : dime_protocol → list Z → Prop :=
  | asks_unix path : strtok colon s = [bytes_of "unix"%string; path] → asks s DIME_UNIX path
  | asks_ipc path : strtok colon s = [bytes_of "ipc"%string; path] → asks s DIME_UNIX path
  | asks_tcp port : strtok colon s = [bytes_of "tcp"%string; port] →
      strtoul port mod 65536 ≠ 0 → asks s DIME_TCP []
  | asks_ws port : strtok colon s = [bytes_of "ws"%string; port] →
      strtoul port mod 65536 ≠ 0 → asks s DIME_WS [].

(** The token behind the protocol of a port. *)
Definition port_of (p : dime_protocol) (rest : list (list Z)) : option (dime_protocol * list Z * Z) :=
  match rest with
  | [s] => if u16 (strtoul s) =? 0 then None else Some (p, [], u16 (strtoul s))
  | _ => None
  end.

Lemma port_of_spec p rest :
  match port_of p rest with
  | Some (p', path, _) => p' = p ∧ path = [] ∧ ∃ port, rest = [port] ∧ strtoul port mod 65536 ≠ 0
  | None => ∀ port, rest = [port] → strtoul port mod 65536 = 0
  end.
Proof.
  destruct rest as [|port [|]]; [done| |done]. simpl.
  destruct (Z.eqb_spec (u16 (strtoul port)) 0) as [Hz|Hz]; [by intros ? [= <-]|]. eauto.
Qed.

Lemma parse_listen_spec s :
  strtok colon s ≠ [] → ∃ r, parse_listen s = Ret r ∧
    match r with Some (p, path, _) => asks s p path | None => ∀ p path, ¬ asks s p path end.
Proof.
  intros Hs. unfold parse_listen. destruct (strtok colon s) as [|type rest] eqn:E; [done|]. cbv zeta.
  assert (∀ p path, asks s p path → ∃ info, rest = [info] ∧
    (p = DIME_UNIX ∧ path = info ∧ (type = bytes_of "unix"%string ∨ type = bytes_of "ipc"%string) ∨
     (p = DIME_TCP ∧ type = bytes_of "tcp"%string ∨ p = DIME_WS ∧ type = bytes_of "ws"%string) ∧
       strtoul info mod 65536 ≠ 0)) as Hinv.
  { intros p path Ha. destruct Ha as [info E'|info E'|info E' Hp|info E' Hp]; rewrite E in E';
      injection E' as -> ->; exists info; naive_solver. }
  fold (port_of DIME_TCP rest) (port_of DIME_WS rest).
  case_bool_decide as Hunix; [|case_bool_decide as Hipc]; cbn [orb].
  1,2: eexists; split; [done|]; subst type; destruct rest as [|info [|]];
    [by intros ?? (? & ? & _)%Hinv|first [by apply asks_unix|by apply asks_ipc]|by intros ?? (? & ? & _)%Hinv].
  case_bool_decide as Htcp; [|case_bool_decide as Hws]; (eexists; split; [done|]).
  - pose proof (port_of_spec DIME_TCP rest) as Hport. subst type.
    destruct (port_of DIME_TCP rest) as [[[p path] port]|].
    + destruct Hport as (-> & -> & port' & -> & Hp). by eapply asks_tcp.
    + intros p path (info & Hr & [(_ & _ & [?|?])|[_ Hn]])%Hinv; [done..|by apply Hn, Hport].
  - pose proof (port_of_spec DIME_WS rest) as Hport. subst type.
    destruct (port_of DIME_WS rest) as [[[p path] port]|].
    + destruct Hport as (-> & -> & port' & -> & Hp). by eapply asks_ws.
    + intros p path (info & Hr & [(_ & _ & [?|?])|[_ Hn]])%Hinv; [done..|by apply Hn, Hport].
  - intros p path (info & Hr & [(_ & _ & [?|?])|[[[_ ?]|[_ ?]] Hn]])%Hinv; done.
Qed.

(** The calls of the system that [dime_server_add] makes succeed. *)
Definition opens (env : add_env) : Prop :=
  0 ≤ ae_socket env ∧ (ae_dual env = false → 0 ≤ ae_socket4 env) ∧ ae_bind env = true.

(** The arrays are not much larger than what they hold. *)
Record snug (ls : dime_listen) : Prop := {
  sn_fds : ls_fds_cap ls ≤ 8 + 2 * zlen (ls_fds ls);
  sn_paths : ls_pathnames_cap ls ≤ 8 + 2 * zlen (ls_pathnames ls);
  sn_fewer : zlen (ls_pathnames ls) ≤ zlen (ls_fds ls);
}.

(** The array of the paths that the strings ask for. *)
Definition paths_of (asked : list (dime_protocol * list Z)) : list (list Z) :=
  concat ((λ a, if decide (a.1 = DIME_UNIX) then [sun_path a.2] else []) <$> asked).

(** What has been added for the first of the strings, as many as have been
    [asked] for: a new socket for each, of its protocol, and the paths. *)
Record added (strs : list (list Z)) (ls : dime_listen) (open : gset Z) asked
    (ls' : dime_listen) (open' : gset Z) : Prop := {
  ad_inv : listen_inv ls' open';
  ad_asked : Forall2 (λ s a, asks s a.1 a.2) (take (length asked) strs) asked;
  ad_fds : ∃ fds, ls_fds ls' = ls_fds ls ++ fds ∧ fds.*2 = asked.*1 ∧
    open' = list_to_set fds.*1 ∪ open;
  ad_pathnames : ls_pathnames ls' = ls_pathnames ls ++ paths_of asked;
}.

Lemma added_nil strs ls open : listen_inv ls open → added strs ls open [] ls open.
Proof.
  intros Hinv. split; [done|constructor| |by rewrite app_nil_r]. exists [].
  rewrite app_nil_r. split_and!; [done..|]. set_solver.
Qed.

Lemma added_cons s p path strs fd ls ls1 open asked ls' open' :
  asks s p path → ls_fds ls1 = ls_fds ls ++ [(fd, p)] →
  ls_pathnames ls1 = ls_pathnames ls ++ (if decide (p = DIME_UNIX) then [sun_path path] else []) →
  added strs ls1 ({[fd]} ∪ open) asked ls' open' → added (s :: strs) ls open ((p, path) :: asked) ls' open'.
Proof.
  intros Ha Hf Hp [Hinv Hasked (fds & Hfds & Hps & Ho) Hpaths]. split; [done| | |].
  - by constructor.
  - exists ((fd, p) :: fds). rewrite Hfds, Hf, <-app_assoc. split_and!; [done| |].
    + by rewrite !fmap_cons, Hps.
    + rewrite Ho. simpl. set_solver.
  - rewrite Hpaths, Hp, <-app_assoc. done.
Qed.

(** The memory that is enough for another socket. *)
Definition room_for (n : nat) : Z := 192 + 48 * Z.of_nat n.

(** How the loop over the strings ends. *)
Definition add_ends (o : oracle) (envs : nat → gset Z → add_env) (strs : list (list Z)) (base : nat)
    (r : option listen_error) (n : nat) (open' : gset Z) : Prop :=
  match r with
  | None => n = length strs
  | Some ListenUsage => ∃ s, strs !! n = Some s ∧ ∀ p path, ¬ asks s p path
  | Some ListenFail => ∃ s p path, strs !! n = Some s ∧ asks s p path ∧
      ∀ limit, grants o limit → room_for (base + n) ≤ limit → ¬ opens (envs n open')
  end.

Lemma add_one o env open ls p path :
  oracle_sane o → add_env_ok env open → listen_inv ls open → snug ls →
  ∃ rc ls' open', dime_server_add o env open ls (Some p) path = Ret (rc, ls', open') ∧
    listen_inv ls' open' ∧
    (rc = 0 ∧ snug ls' ∧ (∃ fd, open' = {[fd]} ∪ open ∧ ls_fds ls' = ls_fds ls ++ [(fd, p)] ∧
       ls_pathnames ls' = ls_pathnames ls ++ (if decide (p = DIME_UNIX) then [sun_path path] else []))
     ∨ rc = -1 ∧ open' = open ∧ ls_fds ls' = ls_fds ls ∧ ls_pathnames ls' = ls_pathnames ls ∧
       ∀ limit, grants o limit → room_for (length (ls_fds ls)) ≤ limit → ¬ opens env).
Proof.
  intros Hs Henv Hinv [Hsf Hsp Hfew].
  destruct (server_add_spec o env open ls (Some p) path Hs Henv Hinv)
    as (rc & ls' & open' & -> & Hinv' & Hcan & Hor).
  exists rc, ls', open'. split_and!; [done..|].
  destruct Hor as [(-> & p' & fd & [= <-] & _ & Ho & Hf & Hp & Hgf & Hgp)|(-> & Ho & Hf & Hp)]; [left|right].
  - split_and!; [done| |by exists fd]. unfold snug_growth in *.
    split; rewrite ?Hf, ?Hp, ?zlen_app; case_decide; zlia.
  - split_and!; [done..|]. intros limit Hg Hroom (Hsk & Hd & Hb). enough (-1 = 0) by done.
    pose proof (zlen_nonneg (ls_fds ls)). assert (room_for (length (ls_fds ls)) = 192 + 48 * zlen (ls_fds ls)) as Heq by done.
    apply Hcan. split_and!; [done..|]. exists limit. split_and!; [done|lia..].
Qed.

Lemma add_listens_spec listens : ∀ o envs strs ls open,
  oracle_sane o → (∀ n open, add_env_ok (envs n open) open) → listen_inv ls open → snug ls →
  NoDup listens.*1 → Forall (λ kv, strs !! kv.1 = Some kv.2 ∧ strtok colon kv.2 ≠ []) listens →
  ∃ r ls' open' asked, add_listens o envs strs listens.*1 ls open = Ret (r, ls', open') ∧
    added listens.*2 ls open asked ls' open' ∧
    add_ends o envs listens.*2 (length (ls_fds ls)) r (length asked) open'.
Proof.
  induction listens as [|[k s] listens IH]; intros o envs strs ls open Hs Henv Hinv Hsn Hnd Hall.
  { exists None, ls, open, []. split_and!; [done|by apply added_nil|done]. }
  apply Forall_cons in Hall as [[Hk Htok] Hall]. apply NoDup_cons in Hnd as [Hnew Hnd].
  simpl in Hk, Htok. cbn [add_listens fmap list_fmap fst snd]. rewrite Hk.
  destruct (parse_listen_spec s Htok) as ([[[p path] port]|] & -> & Hp); cbn [mbind outcome_bind].
  2:{ eexists _, _, _, []. split_and!; [done|by apply added_nil|]. by exists s. }
  destruct (add_one (sub o 0) (envs O open) open ls p path ltac:(eauto with oracle) (Henv _ _) Hinv Hsn)
    as (rc & ls1 & open1 & -> & Hinv1 & Hr). cbn [mbind outcome_bind].
  destruct Hr as [(-> & Hsn1 & fd & -> & Hf & Hps)|(-> & -> & Hf & Hps & Hno)]; cbn [Z.ltb Z.compare].
  2:{ eexists _, _, _, []. split; [done|]. split.
      - split; [done|constructor| |by rewrite app_nil_r]. exists []. rewrite app_nil_r.
        split_and!; [done..|]. set_solver.
      - exists s, p, path. split_and!; [done..|]. intros limit Hg Hroom. apply (Hno limit).
        + by apply grants_sub.
        + by rewrite Nat.add_0_r in Hroom. }
  destruct (IH (sub o 1) (λ n, envs (S n)) (<[k:=cut false s]> strs) ls1 _
    ltac:(eauto with oracle) (λ n, Henv (S n)) Hinv1 Hsn1 Hnd) as (r & ls2 & open2 & asked & -> & Had & Hend).
  { apply Forall_forall. intros kv Hin. rewrite Forall_forall in Hall.
    destruct (Hall _ Hin) as [Hkv ?]. split; [|done]. rewrite list_lookup_insert_ne; [done|].
    intros Heq. apply Hnew. rewrite Heq. apply list_elem_of_fmap. by exists kv. }
  exists r, ls2, open2, ((p, path) :: asked). split_and!; [done|by eapply added_cons|].
  destruct r as [[]|]; [done| |by simpl in *; rewrite Hend].
  destruct Hend as (s' & p' & path' & Hs' & Ha' & Hno). exists s', p', path'. split_and!; [done..|].
  intros limit Hg Hroom. apply (Hno limit); [by apply grants_sub|]. rewrite Hf, length_app. simpl in Hroom |- *.
  by replace (length (ls_fds ls) + 1 + length asked)%nat with (length (ls_fds ls) + S (length asked))%nat by lia.
Qed.

(** The entries of [listens] with the strings they point to, and all strings
    there are. *)
Definition listen_strs (argv : list (list Z)) gs : list (list Z) :=
  match listen_args 1 gs with [] => argv ++ [listens_default] | _ => argv end.
Definition entries (argv : list (list Z)) gs : list (nat * list Z) :=
  match listen_args 1 gs with [] => [(length argv, listens_default)] | l => l end.

Lemma entries_ok prog gs :
  let argv := prog :: concat (render <$> gs) in
  Forall (λ kv, strtok colon kv.2 ≠ []) (listen_args 1 gs) →
  NoDup (entries argv gs).*1 ∧
  Forall (λ kv, listen_strs argv gs !! kv.1 = Some kv.2 ∧ strtok colon kv.2 ≠ []) (entries argv gs).
Proof.
  intros argv Htok. pose proof (listen_args_nodup gs 1) as [Hnd _].
  pose proof (listen_args_at gs [prog]) as Hat. change ([prog] ++ _) with argv in Hat.
  change (length [prog]) with 1%nat in Hat. unfold entries, listen_strs.
  destruct (listen_args 1 gs) as [|kv l].
  - split; [apply NoDup_singleton|]. constructor; [|constructor]. simpl.
    split; [by apply list_lookup_middle|by vm_compute].
  - split; [done|]. rewrite Forall_forall in Hat. rewrite Forall_forall in Htok.
    apply Forall_forall. intros kv' Hin. split; [by destruct (Hat kv' Hin)|by apply Htok].
Qed.

(** [dime_server_init] fails only without memory or without a child. *)
Lemma init_granted o daemon fork :
  grants o 262144 → (daemon = true → 0 ≤ fork) → dime_server_init o daemon fork ≠ InitFailed.
Proof.
  intros Hg Hfork. assert (∀ n k, k ≤ 262144 → at_ o n k = true) as Hat by (intros; by apply Hg).
  unfold dime_server_init, init_tables, dime_table_init, malloc.
  rewrite !Hat by by vm_compute. cbn [Z.ltb Z.compare andb].
  destruct daemon; [|done]. rewrite (proj2 (Z.ltb_ge _ _)) by auto. by destruct (fork =? 0).
Qed.

Definition no_listen : dime_listen := Listen [] 8 [] 8.

Lemma main_spec prog gs o fork envs open :
  oracle_sane o → (∀ n open, add_env_ok (envs n open) open) →
  Forall (λ kv, strtok colon kv.2 ≠ []) (listen_args 1 gs) →
  let cf := apply_groups 1 gs no_config in
  let strs := match listen_args 1 gs with [] => [listens_default] | l => l.*2 end in
  ∃ r, main o fork envs open (prog :: concat (render <$> gs)) = Ret r ∧
    match r with
    | MainHelp | MainUsage => False
    | MainFail => ¬ (grants o 262144 ∧ (cf_daemon cf = true → 0 ≤ fork))
    | MainExit srv ls => cf_daemon cf = true ∧ fork ≠ 0 ∧ server_view srv ∅ ∧ ls = no_listen
    | MainStop why srv ls open' => server_view srv ∅ ∧ ∃ asked,
        added strs no_listen open asked ls open' ∧
        add_ends o envs strs 0 (Some why) (length asked) open'
    | MainRun cf' srv ls open' => cf' = cf ∧ server_view srv ∅ ∧ ∃ asked,
        added strs no_listen open asked ls open' ∧ length asked = length strs
    end.
Proof.
  intros Hs Henv Htok cf strs. subst cf. unfold main. set (argv := prog :: concat (render <$> gs)).
  assert (parse_args argv = Ret (Parsed (apply_groups 1 gs no_config))) as ->
    by by apply (parse_groups argv gs [prog]).
  cbn [mbind outcome_bind].
  destruct (dime_server_init (sub o 0) _ fork) as [|srv ls|srv ls] eqn:Hinit.
  { exists MainFail. split; [done|]. intros [Hg Hfork]. by apply init_granted in Hinit; auto with oracle. }
  { exists (MainExit srv ls). split; [done|].
    apply server_init_exit in Hinit as (? & ? & [Hv _]%init_tables_view & ->). by split_and!. }
  apply server_init_tables in Hinit as [[Hv _]%init_tables_view ->].
  assert (listen_inv no_listen open) as Hinv.
  { split; simpl; [by split; zlia|by split; zlia|constructor|].
    intros fd Hin. by apply elem_of_nil in Hin. }
  assert (match cf_listens (apply_groups 1 gs no_config) with
          | [] => (argv ++ [listens_default], [length argv])
          | _ :: _ => (argv, cf_listens (apply_groups 1 gs no_config))
          end = (listen_strs argv gs, (entries argv gs).*1)) as ->.
  { rewrite groups_listens. unfold listen_strs, entries. by destruct (listen_args 1 gs). }
  assert (strs = (entries argv gs).*2) as -> by by unfold strs, entries; destruct (listen_args 1 gs).
  destruct (entries_ok prog gs Htok) as [Hnd Hat]. fold argv in Hnd, Hat.
  destruct (add_listens_spec (entries argv gs) (sub o 1) envs (listen_strs argv gs) no_listen
    open) as (r & ls' & open' & asked & Hrun & Had & Hend); [eauto with oracle|done|done|by split|done..|].
  unfold no_listen in Hrun. rewrite Hrun. cbn [mbind outcome_bind]. destruct r as [why|].
  - eexists. split; [done|]. split; [done|]. exists asked. split; [done|]. destruct why; [done|].
    destruct Hend as (s & p & path & Hs' & Ha & Hno). exists s, p, path. split_and!; [done..|].
    intros limit Hg. apply Hno. by apply grants_sub.
  - eexists. split; [done|]. split_and!; [done..|]. by exists asked.
Qed.

(** C28: with any well-formed command line whose options [-l] are not empty,
    [main] is never undefined and gets as far as the system lets it. It shows
    no help and no usage before it sets the server up. It ends before there is
    a server only if the allocator refuses a block of at most 256 KiB or [fork]
    fails, and in the parent of a daemon. Then it goes through the options
    [-l], or the default socket if there is none, in their order: what has been
    added is one new listening socket for each, of the protocol the option asks
    for ([asks], the help text's <protocol>:<info>), and its path if it is a
    Unix socket, and nothing else is open. If it stops with a usage error, the
    next option asks for no known socket; if it stops with another error, the
    next option does, but [socket] or [bind] failed or the allocator refused a
    small block; and when it runs the loop, the server has the settings of the
    command line, no clients, and a socket for every option. *)
Theorem main_sets_up prog gs o fork envs open :
  oracle_sane o → (∀ n open, add_env_ok (envs n open) open) →
  Forall (λ kv, strtok colon kv.2 ≠ []) (listen_args 1 gs) →
  let cf := apply_groups 1 gs no_config in
  let strs := match listen_args 1 gs with [] => [listens_default] | l => l.*2 end in
  ∃ r, main o fork envs open (prog :: concat (render <$> gs)) = Ret r ∧
    match r with
    | MainHelp | MainUsage => False
    | MainFail => ¬ (grants o 262144 ∧ (cf_daemon cf = true → 0 ≤ fork))
    | MainExit srv ls => cf_daemon cf = true ∧ fork ≠ 0 ∧ server_view srv ∅ ∧ ls = no_listen
    | MainStop why srv ls open' => server_view srv ∅ ∧ ∃ asked,
        added strs no_listen open asked ls open' ∧
        add_ends o envs strs 0 (Some why) (length asked) open'
    | MainRun cf' srv ls open' => cf' = cf ∧ server_view srv ∅ ∧ ∃ asked,
        added strs no_listen open asked ls open' ∧ length asked = length strs
    end.
Proof. intros. by apply main_spec. Qed.

(** What [main] does not check: [-l] as the last argument makes it pass
    [NULL] to [strtok], if the server can be set up at all; and the array
    [listens] is written out of bounds when [l] is repeated in one argument. *)
Theorem command_line_unchecked prog o fork envs open srv ls v :
  dime_server_init (sub o 0) false fork = InitDone srv ls →
  main o fork envs open [prog; [45; 108]] = Undef ∧
  parse_args [prog; [45; 108; 108; 108]; v] = Undef.
Proof.
  intros Hinit. split; [|done]. unfold main. change (parse_args [prog; [45; 108]])
    with (Ret (Parsed (Config false false None None 0 [2%nat]))). cbn [mbind outcome_bind cf_daemon].
  by rewrite Hinit.
Qed.

(** ** Witnesses *)

(** A network in which every call succeeds. *)
Definition open_env (_ : nat) (open : gset Z) : add_env := AddEnv (base.fresh open) true (-1) true.

(** "-vd -l tcp:5000". *)
Definition example_groups : list arg_group :=
  [Group_ [FlagV; FlagD] None; Group_ [] (Some (OptL, bytes_of "tcp:5000"%string))].

Definition example_prog : list Z := bytes_of "dime"%string.

Lemma main_sets_up_witness : ∃ cf srv ls open',
  main alloc_4M 0 open_env {[0; 1; 2]} (example_prog :: concat (render <$> example_groups))
    = Ret (MainRun cf srv ls open') ∧
  cf = Config true false None None 1 [3%nat] ∧ (ls_fds ls).*2 = [DIME_TCP].
Proof.
  assert (∃ cf srv ls open',
    main alloc_4M 0 open_env {[0; 1; 2]} (example_prog :: concat (render <$> example_groups))
      = Ret (MainRun cf srv ls open')) as (cf & srv & ls & open' & Hrun)
    by (do 4 eexists; vm_compute; reflexivity).
  destruct (main_sets_up example_prog example_groups alloc_4M 0 open_env {[0; 1; 2]} alloc_4M_sane)
    as (r & Hr & Hpost).
  - intros n open. split; simpl; [intros _; apply is_fresh|lia].
  - constructor; [by vm_compute|constructor].
  - rewrite Hrun in Hr. injection Hr as <-. exists cf, srv, ls, open'. split; [done|].
    destruct Hpost as (-> & _ & asked & [_ Hall (fds & Hf & Hps & _) _] & Hlen). split; [done|].
    destruct asked as [|[p path] [|]]; [done| |done]. simpl in Hall, Hf, Hps.
    apply Forall2_cons in Hall as [Ha _]. rewrite Hf, Hps.
    assert (strtok colon (bytes_of "tcp:5000"%string) = [bytes_of "tcp"%string; bytes_of "5000"%string])
      as Htok by by vm_compute.
    cbn [fst snd] in Ha. destruct Ha as [path' E|path' E|port E|port E]; [..|done|]; rewrite Htok in E;
      injection E as E _; by vm_compute in E.
Defined.

Lemma command_line_unchecked_witness :
  main alloc_4M 0 open_env ∅ [example_prog; bytes_of "-l"%string] = Undef.
Proof.
  destruct (dime_server_init (sub alloc_4M 0) false 0) as [|srv ls|srv ls] eqn:Hinit; [done..|].
  by apply (command_line_unchecked example_prog alloc_4M 0 open_env ∅ srv ls []).
Defined.
