(* ===== verification/Program.v ===== *)
(** * The whole program

    From the command line to the handler that runs at the end: whatever the
    process does in between, it ends with nothing left. What it needs from the
    loop that serves the connections is the interface [Serves], which the loops
    of both builds implement. *)

From S2P Require Import Prelude Bytes Deque Ringbuffer Json Socket WebSocket Table State Client.
From S2P Require Import Server Invariant ClientSpec Inbox SocketSpec ServerSpec ServerProps.
From S2P Require Import ServerLoop Setup SetupProps Ev EvLoop Main MainProps Demo.
From Stdlib Require String.

Section program.
Context `{Jansson} {b : Z} `{!JanssonLaws (2 ^ b)}.
Variable strerror : string.
Variables sha1 encode_block : list Z → list Z.
Variable sizeof_client : Z.

(** Nothing is left, and this has been unlinked and closed. *)
Definition cleaned (ls : dime_listen)
    (r : outcome (option (list (list Z) * list Z * dime_server))) : Prop :=
  ∃ srv', r = Ret (Some (ls_pathnames ls, (ls_fds ls).*1, srv')) ∧
    sv_clients srv' = ∅ ∧ sv_groups srv' = ∅ ∧ sv_msgs srv' = ∅.

Lemma cleanup_cleans ls srv :
  server_ok srv → not_full srv →
  cleaned ls ('(gone, srv) ← cleanup ls srv; Ret (Some (gone, srv))).
Proof.
  intros Hok Hfree. pose proof (wp_server_destroy ls srv Hok Hfree) as Hw.
  apply returns_eq in Hw as ([[u c] srv'] & Hrun & Hcl & Hgr & Hms & -> & ->).
  unfold cleanup. rewrite Hrun. by exists srv'.
Qed.

Lemma no_clients_not_full srv : server_view srv ∅ → not_full srv.
Proof. intros Hv%server_view_empty cid c Hc. by rewrite Hv in Hc. Qed.

(** ** The loops of the two builds *)

(** What the rest of the program relies on: from a server without clients the
    loop comes to an end, or to the point where a signal stops it, in a sound
    state. [rely] is what the loop can rely on itself. *)
Class Serves {A} (serve : dime_listen → M A) (rely : dime_listen → dime_server → Prop) :=
  serves ls srv : server_view srv ∅ → rely ls srv → wp (serve ls) srv (λ _ srv', server_ok srv').

(** The build with [select] and the build with libev. *)
Inductive build :=
  | Select (listen : Z → bool) (turns : list (oracle * turn_env))
  | Libev (default : bool) (listen : Z → bool) (iterations : list (list (oracle * ev_event))).

Definition server_loop (bd : build) (ls : dime_listen) : M unit :=
  match bd with
  | Select listen turns =>
      dime_server_loop strerror sha1 encode_block sizeof_client (ls_fds ls) listen turns;; mret tt
  | Libev default listen iterations =>
      ev_dime_server_loop strerror sha1 encode_block sizeof_client (ls_fds ls) default listen
        iterations;; mret tt
  end.

Definition loop_rely (bd : build) (ls : dime_listen) srv : Prop :=
  match bd with
  | Select _ turns => loop_ok (b:=b) strerror sha1 encode_block sizeof_client (ls_fds ls) turns srv
  | Libev _ _ iterations =>
      iterations_ok (b:=b) strerror sha1 encode_block sizeof_client (ls_fds ls) iterations srv
  end.

Instance server_loop_serves bd :
  18 ≤ b ≤ 47 → sizeof_client ≤ 2 ^ b → Serves (server_loop bd) (loop_rely bd).
Proof.
  intros Hb Hsize ls srv Hv Hok. pose proof (server_view_ok _ _ Hv) as Hsok.
  destruct bd as [listen turns|default listen iterations]; apply wp_bind.
  - eapply wp_mono; [apply (wp_server_loop (b:=b)); try done; by apply server_view_empty|].
    intros lp srv' [Hsteps _]. by eapply wp_ret, steps_view.
  - eapply wp_mono; [by apply (ev_server_loop_steps strerror sha1 encode_block sizeof_client (ls_fds ls) (b:=b))|].
    intros r srv' (_ & [Hok' _] & _). by apply wp_ret.
Qed.

(** ** The program *)

(** The loop that [main] runs can rely on what it needs, and no queue is
    exactly full when it ends. *)
Definition run_ok {A} (serve : dime_listen → M A) rely o fork envs open argv : Prop :=
  ∀ cf srv ls open', main o fork envs open argv = Ret (MainRun cf srv ls open') →
    rely ls srv ∧ ∀ r srv', serve ls srv = Ret (r, srv') → not_full srv'.

(** The listening sockets and paths there are when [main] comes to its end or
    runs the loop. *)
Definition set_up (r : main_result) (ls : dime_listen) : Prop :=
  match r with
  | MainExit _ ls' | MainStop _ _ ls' _ | MainRun _ _ ls' _ => ls' = ls
  | _ => False
  end.

Lemma program_cleans `{!Serves (A:=A) serve rely} prog gs o fork envs open :
  18 ≤ b → oracle_sane o → grants o (2 ^ b) →
  (cf_daemon (apply_groups 1 gs no_config) = true → 0 ≤ fork) →
  (∀ n open, add_env_ok (envs n open) open) →
  Forall (λ kv, strtok colon kv.2 ≠ []) (listen_args 1 gs) →
  let argv := prog :: concat (render <$> gs) in
  run_ok serve rely o fork envs open argv →
  ∃ r ls, main o fork envs open argv = Ret r ∧ set_up r ls ∧
    cleaned ls (program o fork envs open argv serve).
Proof.
  intros Hb Hs Hg Hfork Henv Htok argv Hrun.
  destruct (main_spec prog gs o fork envs open Hs Henv Htok) as (r & Hr & Hpost).
  fold argv in Hr. unfold run_ok in Hrun. unfold program. rewrite Hr in *. cbn [mbind outcome_bind].
  destruct r as [| | |srv ls|why srv ls open'|cf srv ls open']; [done|done| |..].
  - destruct Hpost. split; [|done]. assert (262144 ≤ 2 ^ b)
      by (change 262144 with (2 ^ 18); apply Z.pow_le_mono_r; lia).
    intros n k Hk. apply Hg. lia.
  - destruct Hpost as (_ & _ & Hv & _). eexists _, ls. split; [done|]. split; [done|].
    apply cleanup_cleans; [by eapply server_view_ok|by apply no_clients_not_full].
  - destruct Hpost as (Hv & _). eexists _, ls. split; [done|]. split; [done|].
    apply cleanup_cleans; [by eapply server_view_ok|by apply no_clients_not_full].
  - destruct Hpost as (_ & Hv & _). eexists _, ls. split; [done|]. split; [done|].
    destruct (Hrun cf srv ls open' eq_refl) as [Hok Hfree].
    pose proof (serves ls srv Hv Hok) as Hl. apply returns_eq in Hl as ([x srv'] & Hrun' & Hok').
    rewrite Hrun'. cbn [mbind outcome_bind]. apply cleanup_cleans; [done|by eapply Hfree].
Qed.

(** C7: the process leaves nothing behind. Take a well-formed command line
    whose options [-l] are not empty, memory for blocks of up to 2^b bytes, a
    [fork] that succeeds if it is asked for, and, if it comes to the loop of
    its build, turns that can rely on what the code of the loop does not check
    ([loop_ok], [iterations_ok]: descriptors that fit, memory, sizes that do
    not wrap, names that fit, and no closing with a full queue) and no queue
    exactly full when the loop ends. Then the program, whichever way and after
    however many turns of the loop it ends, by a failure or by a signal that
    arrives while it waits for events, comes to its end without undefined
    behaviour: every client, group and message has been freed, exactly once,
    every listening socket that was opened is closed, and the paths of all Unix
    sockets are unlinked. *)
Theorem program_cleans_up bd prog gs o fork envs open :
  18 ≤ b ≤ 47 → sizeof_client ≤ 2 ^ b → oracle_sane o → grants o (2 ^ b) →
  (cf_daemon (apply_groups 1 gs no_config) = true → 0 ≤ fork) →
  (∀ n open, add_env_ok (envs n open) open) →
  Forall (λ kv, strtok colon kv.2 ≠ []) (listen_args 1 gs) →
  run_ok (server_loop bd) (loop_rely bd) o fork envs open (prog :: concat (render <$> gs)) →
  ∃ r ls, main o fork envs open (prog :: concat (render <$> gs)) = Ret r ∧ set_up r ls ∧
    cleaned ls (program o fork envs open (prog :: concat (render <$> gs)) (server_loop bd)).
Proof.
  intros Hb Hsize. pose proof (server_loop_serves bd Hb Hsize). apply program_cleans. lia.
Qed.
End program.

(** ** Witness *)

#[local] Existing Instance text_json.
#[local] Instance text_laws : @JanssonLaws text_json (2 ^ 22).
Proof. by apply text_json_laws. Qed.

(** The first descriptor is 3. *)
Definition three_env (_ : nat) (open : gset Z) : add_env :=
  AddEnv (if decide (3 ∈ open) then base.fresh open else 3) true (-1) true.

(** [select] fails. *)
Definition interrupted : turn_env :=
  TurnEnv false ∅ ∅ (λ _, None) (λ _, (0%nat, full_env)) (λ _, None) (λ _ _, 0)
    (λ _ _, TlsEnv fcntl_fails (λ _ _, -1) false false false fcntl_fails).

Definition example_argv : list (list Z) := example_prog :: concat (render <$> example_groups).

(** "dime -vd -l tcp:5000": the child of the daemon serves until [select]
    fails, or until a signal stops the event loop before its first event. *)
Definition example_program (bd : build) :=
  program alloc_4M 0 three_env {[0; 1; 2]} example_argv (server_loop "e"%string id id 1000 bd).

Definition example_builds : list build :=
  [Select (λ _, true) [(alloc_4M, interrupted)]; Libev true (λ _, true) [[]]].

Lemma program_cleans_up_witness : Forall (λ bd, ∃ srv',
  example_program bd = Ret (Some ([], [3], srv')) ∧
  sv_clients srv' = ∅ ∧ sv_groups srv' = ∅ ∧ sv_msgs srv' = ∅) example_builds.
Proof.
  assert (∃ cf srv ls open', main alloc_4M 0 three_env {[0; 1; 2]} example_argv
    = Ret (MainRun cf srv ls open') ∧ ls_fds ls = [(3, DIME_TCP)] ∧ ls_pathnames ls = [] ∧
      sv_clients srv = ∅) as (cf & srv & ls & open' & Hmain & Hfds & Hpaths & Hcl).
  { do 4 eexists. split; [vm_compute; reflexivity|done]. }
  assert (∀ r srv1 bd, bd ∈ example_builds → server_loop "e"%string id id 1000 bd ls srv = Ret (r, srv1) →
    srv1 = srv) as Hloop.
  { intros r srv1 bd Hbd. unfold server_loop. rewrite Hfds.
    apply elem_of_cons in Hbd as [->|[->|[]%not_elem_of_nil]%elem_of_cons]; by intros [= _ <-]. }
  apply Forall_forall. intros bd Hbd.
  destruct (@program_cleans_up text_json 22 _ "e"%string id id 1000 bd example_prog example_groups
    alloc_4M 0 three_env {[0; 1; 2]} ltac:(lia) ltac:(lia) alloc_4M_sane alloc_4M_grants)
    as (r & ls' & Hr & Hset & srv' & Hrun & Hempty).
  - done.
  - intros n open. split; simpl; [intros _; case_decide; [apply is_fresh|done]|lia].
  - constructor; [by vm_compute|constructor].
  - unfold run_ok. fold example_argv. rewrite Hmain. intros ???? [= <- <- <- <-]. split.
    + apply elem_of_cons in Hbd as [->|[->|[]%not_elem_of_nil]%elem_of_cons]; simpl.
      * rewrite Hfds. split; [by apply Forall_singleton|]. intros lp _.
        split_and!; [apply alloc_4M_sane|apply alloc_4M_grants|done|done].
      * split; [done|by intros].
    + intros r srv1 ->%Hloop; [|done]. intros cid c Hc. by rewrite Hcl in Hc.
  - fold example_argv in Hr, Hrun. rewrite Hmain in Hr. injection Hr as <-. simpl in Hset. subst ls'.
    exists srv'. rewrite Hfds, Hpaths in Hrun. by split.
Defined.
