(* ===== verification/Journey.v ===== *)
(** * The way of a message through the server

    One client sends a message to a group, a member of the group asks for its
    messages, and what it reads from the network is that message, after those
    that were queued before. *)

From S2P Require Import Prelude Bytes Deque Ringbuffer Json Socket SocketSpec SocketStream.
From S2P Require Import Table State Client Server Invariant ClientSpec ClientPush ClientDeliver.
From S2P Require Import Inbox ClientSend ClientQueue ClientGroups WebSocket ServerSpec ServerProps.
From S2P Require Import SocketProps Demo ClientProps.
From Stdlib Require String.

Section journey.
Context `{Jansson} {limit : Z} `{!JanssonLaws limit}.
Variable strerror : string.
Implicit Types (o : oracle) (srv : dime_server).

(** A command of one client and then a command of another. *)
Definition exchange o1 o2 env1 env2 (a : Z) (j : json) bin (b : Z) (j' : json) bin' : M (Z * Z) :=
  rc1 ← dispatch strerror o1 env1 a j bin;
  rc2 ← dispatch strerror o2 env2 b j' bin';
  mret (rc1, rc2).

(** What a client is sent when a message is queued for it: if it waits, that
    there is one message, and else nothing. *)
Definition notice_of (c : dime_client) (notice : list message) : Prop :=
  if cl_waiting c then
    ∃ al al' jn text, json_pack al (args_n 1) = Some jn ∧ json_dumps al' jn = Some text ∧
      notice = [(text, [])]
  else notice = [].

Lemma wires_plain ms : wires false ms = concat (msg_bytes <$> ms).
Proof. done. Qed.

Lemma dispatch_send o env cid j bin :
  command_of j = "send"%string →
  dispatch strerror o env cid j bin = dime_client_send strerror o cid j bin.
Proof. intros E. unfold dispatch. fold (command_of j). by rewrite E. Qed.

Lemma dispatch_sync o env cid j bin :
  command_of j = "sync"%string →
  dispatch strerror o env cid j bin = dime_client_sync strerror o cid j.
Proof. intros E. unfold dispatch. fold (command_of j). by rewrite E. Qed.

Lemma woken_buffers srv srv' b c rb wsb :
  sv_clients srv !! b = Some c → buffers srv b false rb [] wsb → woken (limit:=limit) srv srv' b →
  (∀ ms, notice_of c ms → 2 * (zlen (concat (msg_bytes <$> ms)) + 22) ≤ limit) →
  ∃ notice, notice_of c notice ∧ buffers srv' b false rb (wires false notice) wsb.
Proof.
  intros Hc Hbuf Hw Hfit. destruct (Hw c Hc) as (c' & Hc' & _ & Hn). unfold notice_of in *.
  destruct (cl_waiting c).
  - destruct Hn as (al & al' & jn & text & Hp & Hd & Htold). exists [(text, [])].
    split; [by exists al, al', jn, text|].
    assert (2 * (zlen (concat (msg_bytes <$> [(text, @nil Z)])) + 22) ≤ limit) as Hl.
    { apply Hfit. by exists al, al', jn, text. }
    apply (Htold false rb [] wsb) in Hbuf; [|].
    + unfold wires. simpl. by rewrite app_nil_r.
    + revert Hl. cbn [fmap list_fmap concat]. rewrite app_nil_r, zlen_msg. cbn [fst snd].
      change (zlen (@nil Z)) with 0. lia.
  - exists []. split; [done|]. destruct Hbuf as (c0 & Hc0 & Hrep & Hws). simplify_eq.
    exists c'. by rewrite Hn.
Qed.

(** What a [send] comes to for a member of the group. *)
Lemma sent_member srv srv' a b j bin name boxes boxes' (old : list message) :
  server_view srv boxes → json_unpack_ss j "name" = inl name → member srv name b → a ≠ b →
  sent (limit:=limit) srv a j bin boxes boxes' srv' → boxes !! b = Some old →
  ∃ al text, json_dumps al j = Some text ∧ boxes' !! b = Some (old ++ [(text, bin)]) ∧
    woken (limit:=limit) srv srv' b.
Proof.
  intros (qs & Hinv & _) Hname (gid & g & Hg & Hn & Hin) Hab Hsent Hold.
  destruct Hsent as (name' & gid' & g' & al & text & Hname' & Hg' & Hn' & _ & Hd & -> & [Hdel _]).
  assert (gid' = gid) as -> by (eapply group_name_inj; [exact Hinv|done|done|congruence]).
  simplify_eq. exists al, text. split; [done|].
  specialize (Hdel b (not_eq_sym Hab)). rewrite bool_decide_eq_true_2 in Hdel by done.
  split; [|done]. rewrite lookup_posted, Hold. simpl. by rewrite bool_decide_eq_true_2.
Qed.

Lemma sync_count_all n (box : list message) m :
  n < 0 ∨ zlen box < n < 2 ^ 63 → sync_count n (box ++ [m]) = length (box ++ [m]).
Proof.
  unfold sync_count, zlen. rewrite length_app. simpl. intros Hn. destruct (Z.ltb_spec n 0); lia.
Qed.

(** C4: a message finds its way. A client that does not wait itself sends a
    message to a group with a name shorter than 59 characters, and a member of
    that group, on a plain connection (no WebSocket), which has received all
    that it was sent before, asks for all its messages or for at least as many
    as there are. If the allocator grants blocks of up to [limit] bytes, and
    that is enough for the message, for the queues to grow and for twice what
    the outbuffers are to hold, both commands succeed, the queue of the member
    is empty, and a fresh socket at the other end, with memory for twice these
    bytes, reads from its outbuffer, however the network cuts the bytes, the
    notice it waited for, if it did, the messages that were queued before, in
    order, the JSON text and the binary data that were sent, and the response,
    and nothing else. *)
Theorem message_arrives o1 o2 env1 env2 a b c j bin j' bin' name n srv boxes (old : list message)
    rb wsb :
  oracle_sane o1 → grants o1 limit → oracle_sane o2 → grants o2 limit →
  server_view srv boxes → all_room (limit:=limit) srv → is_Some (sv_clients srv !! a) →
  command_of j = "send"%string → json_unpack_ss j "name" = inl name → short 59 name →
  can_send (limit:=limit) srv a j → zlen bin ≤ MAXOBJ →
  a ≠ b → member srv name b → sv_clients srv !! b = Some c → boxes !! b = Some old →
  buffers srv b false rb [] wsb →
  command_of j' = "sync"%string → json_unpack_sI j' "n" = Some n → n < 0 ∨ zlen old < n < 2 ^ 63 →
  (∀ notice al text, notice_of c notice → json_dumps al j = Some text →
     2 * (zlen (concat (msg_bytes <$> notice ++ old ++ [(text, bin)])) + 46) ≤ limit) →
  wp (exchange o1 o2 env1 env2 a j bin b j' bin') srv (λ '(rc1, rc2) srv',
    rc1 = 0 ∧ rc2 = 0 ∧ ∃ notice al text ms boxes',
      notice_of c notice ∧ json_dumps al j = Some text ∧
      ms = notice ++ old ++ [(text, bin); (status0, [])] ∧
      server_view srv' boxes' ∧ boxes' !! b = Some [] ∧
      buffers srv' b false rb (concat (msg_bytes <$> ms)) wsb ∧
      ∀ o3 limit' fd peer pieces ds,
        oracle_sane o3 → grants o3 limit' → RECVBUFLEN ≤ limit' → 2 ^ 32 ≤ limit' →
        dime_socket_init (sub o3 0) fd = (0, peer) → Forall (λ p, p ≠ []) pieces →
        concat pieces = concat (msg_bytes <$> ms) → 2 * zlen (concat pieces) ≤ limit' →
        Forall2 decodes ms ds →
        ∃ peer', receive_all (sub o3 1) peer pieces = Ret (0, ds, peer') ∧
          sock_rep peer' [] [] []).
Proof.
  intros Hs1 Hg1 Hs2 Hg2 Hv Hroom Ha Hj Hname Hshort Hcan Hbin Hab Hmem Hc Hold Hbuf Hj' Hn Hall Hfit.
  unfold exchange. rewrite (dispatch_send _ _ _ _ _ Hj). apply wp_bind.
  eapply wp_mono; [apply (wp_send strerror o1 a j bin srv boxes); try done; by rewrite Hname|].
  intros rc1 srv1 (_ & _ & (boxes1 & Hv1 & Hsent & _) & Hok). specialize (Hok Hcan) as ->.
  destruct (sent_member _ _ _ _ _ _ _ _ _ _ Hv Hname Hmem Hab (Hsent eq_refl) Hold)
    as (al & text & Hd & Hbox & Hw). clear Hsent.
  destruct (woken_buffers srv srv1 b c rb wsb Hc Hbuf Hw) as (notice & Hnotice & Hbuf1).
  { intros ms Hms. pose proof (Hfit ms al text Hms Hd) as Hl. rewrite fmap_app, concat_app, zlen_app in Hl.
    pose proof (zlen_nonneg (concat (msg_bytes <$> old ++ [(text, bin)]))). lia. }
  rewrite (dispatch_sync _ _ _ _ _ Hj'). apply wp_bind.
  eapply wp_mono; [eapply (wp_sync strerror o2 b j' n srv1 boxes1 _ false rb
    (wires false notice) wsb); try done; lia|].
  intros rc2 srv2 (_ & _ & k & _ & Hv2 & Hk & Hrun). rewrite sync_count_all in * by done.
  rewrite firstn_all, !wires_plain in Hrun. specialize (Hfit notice al text Hnotice Hd).
  destruct Hrun as [-> Hbuf2]; [done|done| |].
  { rewrite fmap_app, concat_app, zlen_app in Hfit. lia. }
  rewrite (Hk eq_refl) in Hv2. apply wp_ret. split; [done|]. split; [done|].
  exists notice, al, text, (notice ++ old ++ [(text, bin); (status0, [])]). eexists _.
  split_and!; [done|done|done|exact Hv2| | |].
  - by rewrite lookup_insert_eq, drop_all.
  - revert Hbuf2. rewrite !fmap_app, !concat_app. unfold wire. cbn [fmap list_fmap concat].
    by rewrite !app_nil_r, <-!app_assoc.
  - intros o3 limit' fd peer pieces ds Hs3 Hg3 Hrecv Hlim Hinit Hpieces Hcut Hsize Hds.
    by eapply peer_reads.
Qed.
End journey.

(** ** Witness *)

#[local] Existing Instance text_json.
#[local] Instance text_laws : @JanssonLaws text_json (2 ^ 22).
Proof. by apply text_json_laws. Qed.

(** The text [send] is a command to send to the group of that name, and the
    text [sync] asks for 115 messages: its first byte is 115. *)
Lemma message_arrives_witness : ∃ srv,
  wp (exchange "e"%string alloc_4M alloc_4M example_tls example_tls 0 (bytes_of "send") [7; 8]
        1 (bytes_of "sync") []) srv (λ '(rc1, rc2) srv', rc1 = 0 ∧ rc2 = 0 ∧
    ∃ out peer', buffers srv' 1 false [] out [] ∧
      receive_all (sub alloc_1T 1) (demo_socket (sub alloc_1T 0)) ((λ c, [c]) <$> out)
        = Ret (0, [(bytes_of "send", [7; 8]); (status0, [])], peer')).
Proof.
  destruct demo_exists as (srv & c0 & c1 & gid & g & Hd). exists srv.
  destruct (demo_lookup Hd) as [H0 H1]. destruct (dm_g _ _ _ _ _ Hd) as [Hn Hc].
  destruct (demo_buffers Hd) as [_ Hbuf].
  assert (cl_waiting c1 = false) as Hw by apply (dm_c1 _ _ _ _ _ Hd).
  eapply wp_mono; [apply (@message_arrives text_json (2 ^ 22) _ "e"%string alloc_4M alloc_4M
    example_tls example_tls 0 1 c1 (bytes_of "send") [7; 8] (bytes_of "sync") [] "send"%string 115 srv
    _ [] [] [] alloc_4M_sane alloc_4M_grants alloc_4M_sane alloc_4M_grants (dm_view Hd)
    (demo_all_room Hd))|].
  - by rewrite H0.
  - done.
  - done.
  - unfold short. simpl. lia.
  - split; [by apply (demo_plenty Hd)|]. exists gid, g. rewrite Hn, Hc.
    split; [done|]. split; [apply (demo_gid Hd)|done].
  - by vm_compute.
  - done.
  - apply (demo_member Hd). auto.
  - exact H1.
  - done.
  - exact Hbuf.
  - done.
  - done.
  - right. split; [by vm_compute|done].
  - intros notice al text Hnot Hdump. unfold notice_of in Hnot. rewrite Hw in Hnot. subst notice.
    simpl in Hdump. destruct (al _); [|done]. injection Hdump as <-. by vm_compute.
  - intros [rc1 rc2] srv' (-> & -> & notice & al & text & ms & boxes' & Hnot & Hdump & -> & _ & _ &
      Hb & Hpeer).
    split; [done|]. split; [done|]. unfold notice_of in Hnot. rewrite Hw in Hnot. subst notice.
    simpl in Hdump. destruct (al _); [|done]. injection Hdump as <-.
    eexists. destruct (Hpeer alloc_1T (2 ^ 40) 5 (demo_socket (sub alloc_1T 0))
      ((λ c, [c]) <$> concat (msg_bytes <$> [(bytes_of "send"%string, [7; 8]); (status0, [])]))
      [(bytes_of "send"%string, [7; 8]); (status0, [])])
      as (peer' & Hrun & _); [exact alloc_1T_sane|exact alloc_1T_grants|done|done| | |done|done| |].
    + reflexivity.
    + apply Forall_forall. intros c (byte & -> & _)%list_elem_of_fmap. discriminate.
    + repeat (constructor; [vm_compute; (exact I || discriminate || split_and!; reflexivity)|]). constructor.
    + exists peer'. split; [exact Hb|exact Hrun].
Defined.
