(* ===== verification/Mail.v ===== *)
(** * What reaches a client along a run

    Between two of its requests for messages a client is queued exactly the
    messages that are addressed to it, in the order in which the commands are
    run, whatever else the server does; its next request brings them all. *)

From S2P Require Import Prelude Bytes Deque Ringbuffer Json Socket SocketSpec SocketStream.
From S2P Require Import Table State Client WebSocket Server Invariant ClientSpec ClientPush Inbox ClientQueue.
From S2P Require Import ClientSend ClientGroups ServerSpec ServerProps ServerRuns SocketProps Journey Demo.
From Stdlib Require String.

Section mail.
Context `{Jansson}.
Implicit Types (c : command) (l : label) (x cid : Z).

(** A command that is to reach the client [x], which is in the groups [mem]. *)
Definition addressed_to (mem : string → Prop) x c : Prop :=
  command_of (cm_json c) = "send"%string ∧
    (∃ name, json_unpack_ss (cm_json c) "name" = inl name ∧ mem name) ∨
  command_of (cm_json c) = "broadcast"%string ∧ x ≠ cm_client c.

(** The message of a command: its text and its data. *)
Definition message_of c (m : message) : Prop :=
  (∃ al, json_dumps al (cm_json c) = Some m.1) ∧ m.2 = cm_bin c.

(** The messages that the steps of a run bring to [x]: those of the commands
    addressed to it, each once and in order. A command that answered -1 may
    have brought its message or not. *)
Inductive collected (mem : string → Prop) x : list label → list message → Prop :=
  | col_nil : collected mem x [] []
  | col_post c m ls ms :
      addressed_to mem x c → message_of c m → collected mem x ls ms →
      collected mem x (Commanded c :: ls) (m :: ms)
  | col_skip l ls ms :
      (∀ c, l = Commanded c → cm_answer c = 0 → ¬ addressed_to mem x c) →
      collected mem x ls ms → collected mem x (l :: ls) ms.

Lemma collected_cons mem x l ls ms ms' :
  collected mem x [l] ms → collected mem x ls ms' → collected mem x (l :: ls) (ms ++ ms').
Proof.
  intros Hl Hls. inversion Hl as [|c m ls0 ms0 Ha Hm Hn|l0 ls0 ms0 Hno Hn]; subst; inversion Hn; subst.
  - by apply col_post.
  - by apply col_skip.
Qed.

Lemma collected_none mem x l :
  (∀ c, l = Commanded c → cm_answer c = 0 → ¬ addressed_to mem x c) → collected mem x [l] [].
Proof. intros. by apply col_skip; [|constructor]. Qed.

Lemma collected_one mem x c m :
  addressed_to mem x c → message_of c m → collected mem x [Commanded c] [m].
Proof. intros. by apply col_post; [..|constructor]. Qed.

(** The client stays, takes no message and changes no group. *)
Definition leaves_mail x l : Prop :=
  match l with
  | Commanded c => cm_client c = x → command_of (cm_json c) ∉ ["sync"; "join"; "leave"]%string
  | Closed y => y ≠ x
  | Internal => True
  end.

(** ** One step *)

(** A change of the view that does not concern [x], by a command that is not
    addressed to it. *)
Definition mail_step (mem : string → Prop) x l (box : list message) (v' : view) : Prop :=
  (∀ n, mem n ↔ vw_member v' n x) ∧
  ∃ ms, collected mem x [l] ms ∧ vw_boxes v' !! x = Some (box ++ ms).

Lemma mail_same mem x l box v' :
  (∀ n, mem n ↔ vw_member v' n x) → vw_boxes v' !! x = Some box →
  (∀ c, l = Commanded c → cm_answer c = 0 → ¬ addressed_to mem x c) → mail_step mem x l box v'.
Proof.
  intros Hm Hb Hno. split; [done|]. exists []. rewrite app_nil_r. split; [|done].
  by apply collected_none.
Qed.

(** A command by another name than the two is addressed to nobody. *)
Lemma not_addressed mem x c :
  command_of (cm_json c) ∉ ["send"; "broadcast"]%string → ¬ addressed_to mem x c.
Proof. intros Hno [[E _]|[E _]]; rewrite E in Hno; set_solver. Qed.

(** A message that is posted to those that pass a test. *)
Lemma mail_posted mem x c box v to al text :
  (∀ n, mem n ↔ vw_member v n x) → vw_boxes v !! x = Some box →
  json_dumps al (cm_json c) = Some text →
  (to x = true → addressed_to mem x c) → (cm_answer c = 0 → addressed_to mem x c → to x = true) →
  mail_step mem x (Commanded c) box
    (View (posted to (text, cm_bin c) (vw_boxes v)) (vw_member v)).
Proof.
  intros Hm Hb Hd Hto Hall. destruct (to x) eqn:E.
  - split; [done|]. exists [(text, cm_bin c)]. split.
    + apply collected_one; [by apply Hto|]. split; [by exists al|done].
    + simpl. by rewrite lookup_posted, Hb, E.
  - apply mail_same; [done|simpl; by rewrite lookup_posted, Hb, E|].
    intros c' [= <-] H0 Ha. by specialize (Hall H0 Ha).
Qed.

Lemma mail_partly mem x c box v (to : Z → Prop) boxes' :
  (∀ n, mem n ↔ vw_member v n x) → vw_boxes v !! x = Some box → cm_answer c = -1 →
  (to x → addressed_to mem x c) → partly to (cm_json c) (cm_bin c) (vw_boxes v) boxes' →
  mail_step mem x (Commanded c) box (View boxes' (vw_member v)).
Proof.
  intros Hm Hb Hrc Hto [->|(al & text & to' & Hd & Hto' & ->)].
  - apply mail_same; [done..|]. intros c' [= <-] H0. by rewrite Hrc in H0.
  - eapply mail_posted; [done..| |].
    + intros Hx. by apply Hto, Hto'.
    + intros H0. by rewrite Hrc in H0.
Qed.

Lemma command_mail mem x cid j bin cmd rc v v' box :
  (∀ n, mem n ↔ vw_member v n x) → vw_boxes v !! x = Some box → command_of j = cmd →
  leaves_mail x (Commanded (Command cid j bin rc)) → abs_command cid j bin cmd rc v v' →
  mail_step mem x (Commanded (Command cid j bin rc)) box v'.
Proof.
  intros Hm Hb E Hleave Habs. simpl in Hleave.
  assert (cmd ∉ ["send"; "broadcast"]%string →
    ∀ c, Commanded (Command cid j bin rc) = Commanded c → cm_answer c = 0 →
    ¬ addressed_to mem x c) as Hno.
  { intros Hn c [= <-] _. apply not_addressed. simpl. by rewrite E. }
  rewrite E in Hleave.
  destruct Habs as [cmd rc v Hin|cmd v Hin|rc v m' arr front names rest _ _ _ _ Hm'
    |rc v m' arr front names rest _ _ _ _ Hm'|cmd v text Hin _|v name to al text Hn Hd Hto _
    |v boxes' Hp|v al text Hd|v boxes' Hp|rc v n bx k _ Hbx _ _|v _].
  - apply mail_same; [done..|]. apply Hno. clear - Hin. set_solver.
  - apply mail_same; [done..|]. apply Hno. clear - Hin. unfold commands in Hin. set_solver.
  - apply mail_same; [|done|apply Hno; clear; set_solver]. intros n. simpl. rewrite Hm', Hm.
    split; [by left|]. intros [?|[_ <-]]; [done|]. destruct (Hleave eq_refl). set_solver.
  - apply mail_same; [|done|apply Hno; clear; set_solver]. intros n. simpl. rewrite Hm', Hm.
    split; [|by intros [? _]]. intros Hx. split; [done|]. intros [_ <-]. destruct (Hleave eq_refl).
    set_solver.
  - apply mail_same; [done..|]. apply Hno. clear - Hin. set_solver.
  - apply (mail_posted mem x (Command cid j bin 0) box v to al text); [done..| |]; simpl.
    + intros Hx%Hto. left. simpl. split; [done|]. exists name. split; [done|]. by apply Hm.
    + intros _ [[_ (name' & Hn' & Hx)]|[E' _]]; simpl in *; [|congruence].
      apply Hto. rewrite Hn in Hn'. injection Hn' as <-. by apply Hm.
  - eapply (mail_partly mem x (Command cid j bin (-1))); [done..| |exact Hp]. simpl.
    intros (name & Hn & Hx). left. simpl. split; [done|]. exists name. split; [done|]. by apply Hm.
  - apply (mail_posted mem x (Command cid j bin 0) box v _ al text); [done..| |]; simpl.
    + rewrite negb_true_iff, Z.eqb_neq. intros Hx. by right.
    + rewrite negb_true_iff, Z.eqb_neq. intros _ [[E' _]|[_ Hx]]; simpl in *; [congruence|done].
  - eapply (mail_partly mem x (Command cid j bin (-1))); [done..| |exact Hp]. simpl.
    intros Hx. by right.
  - apply mail_same; [done| |apply Hno; clear; set_solver]. simpl.
    rewrite lookup_insert_ne; [done|]. intros ->. destruct (Hleave eq_refl). set_solver.
  - apply mail_same; [done..|]. apply Hno. clear. set_solver.
Qed.

Lemma abs_mail mem x l v v' box :
  (∀ n, mem n ↔ vw_member v n x) → vw_boxes v !! x = Some box → leaves_mail x l →
  labelled_abs l v v' → mail_step mem x l box v'.
Proof.
  intros Hm Hb Hleave Habs.
  destruct Habs as [v|v cid Hnew|v cid m' Hin Hm'|cid j bin rc v v' Hin Hrc Habs].
  - by apply mail_same.
  - apply mail_same; [done| |done]. simpl. rewrite lookup_insert_ne; [done|]. intros ->. congruence.
  - simpl in Hleave. apply mail_same; [|simpl; by rewrite lookup_delete_ne|done].
    intros n. simpl. rewrite Hm', Hm. naive_solver.
  - by eapply command_mail.
Qed.
End mail.

(** ** The other end of a connection *)

(** How the other end of a connection reads messages from the bytes that
    arrive. *)
Definition reads_all `{Jansson} (ws : bool) (bs : list Z) (ms : list message) : Prop :=
  if ws then read_frames (length bs) bs = Some (msg_bytes <$> ms)
  else ∀ o limit fd peer pieces ds,
    oracle_sane o → grants o limit → RECVBUFLEN ≤ limit → 2 ^ 32 ≤ limit →
    dime_socket_init (sub o 0) fd = (0, peer) → Forall (λ p, p ≠ []) pieces →
    concat pieces = bs → 2 * zlen bs ≤ limit → Forall2 decodes ms ds →
    ∃ peer', receive_all (sub o 1) peer pieces = Ret (0, ds, peer') ∧ sock_rep peer' [] [] [].

Lemma zlen_in_wires ws m ms : m ∈ ms → zlen (msg_bytes m) ≤ zlen (wires ws ms).
Proof.
  unfold wires. induction ms as [|m' ms IH]; [by intros []%not_elem_of_nil|].
  cbn [fmap list_fmap concat]. rewrite zlen_app. intros [<-|Hm]%elem_of_cons.
  - unfold wire at 1. rewrite zlen_app. pose proof (zlen_nonneg (concat (wire ws <$> ms))).
    pose proof (zlen_nonneg (if ws then ws_header_bytes (zlen (msg_bytes m)) else [])). lia.
  - pose proof (zlen_nonneg (wire ws m')). specialize (IH Hm). lia.
Qed.

Lemma reads_wires `{Jansson} ws ms :
  (ws = true → Forall (λ m, zlen (msg_bytes m) < 2 ^ 64) ms) → reads_all ws (wires ws ms) ms.
Proof.
  intros Hms. destruct ws.
  - apply read_frames_wire; [by apply Hms|]. clear Hms.
    induction ms as [|m ms IH]; [simpl; lia|]. unfold wires in *. cbn [fmap list_fmap concat length].
    rewrite length_app. pose proof (zlen_wire_bound true m). pose proof (zlen_nonneg m.1).
    pose proof (zlen_nonneg m.2). unfold zlen in *. lia.
  - intros o limit fd peer pieces ds Hs Hg Hrecv Hlim Hinit Hpieces Hcut Hsz Hds.
    rewrite wires_plain in *. rewrite <-Hcut in Hsz. by eapply peer_reads.
Qed.

Section runs.
Context `{Jansson} {b : Z} `{!JanssonLaws (2 ^ b)}.
Variable strerror : string.
Variables sha1 encode_block : list Z → list Z.
Variable sizeof_client : Z.
Hypothesis Hb : 18 ≤ b ≤ 47.
Hypothesis Hsize : sizeof_client ≤ 2 ^ b.
Implicit Types (o : oracle) (x : Z) (srv : dime_server).

Notation trace := (server_trace (b:=b) strerror sha1 encode_block sizeof_client).

Lemma trace_mail mem x ls srv srv' : trace ls srv srv' → ∀ v box,
  views srv v → (∀ n, mem n ↔ vw_member v n x) → vw_boxes v !! x = Some box →
  Forall (leaves_mail x) ls →
  ∃ v' new, views srv' v' ∧ (∀ n, mem n ↔ vw_member v' n x) ∧ collected mem x ls new ∧
    vw_boxes v' !! x = Some (box ++ new).
Proof.
  induction 1 as [srv|l ls srv1 srv2 srv3 Hstep _ IH]; intros v box Hv Hm Hbox Hls.
  { exists v, []. rewrite app_nil_r. split_and!; [done..|constructor|done]. }
  apply Forall_cons in Hls as [Hl Hls].
  destruct (step_simulates strerror sha1 encode_block sizeof_client _ _ _ _ Hb Hsize Hstep Hv)
    as (v2 & Hv2 & Habs).
  destruct (abs_mail mem x l v v2 box Hm Hbox Hl Habs) as (Hm2 & ms & Hms & Hbox2).
  destruct (IH v2 (box ++ ms) Hv2 Hm2 Hbox2 Hls) as (v3 & new & Hv3 & Hm3 & Hnew & Hbox3).
  exists v3, (ms ++ new). rewrite app_assoc. split_and!; [done..|by apply collected_cons|done].
Qed.

(** C3: mail is delivered in order and to those it is addressed to. Take any run
    of the steps of the server in which every step has the memory it asks for,
    every command that is run has names that fit the error buffer, no more new
    groups than the table can hold and outbuffers with room for a header
    ([command_ok]), and no connection with an exactly full queue is closed; and
    a client that stays connected, does not ask for messages and stays in its
    groups. Its queue grows by the messages addressed to it, those sent to a
    group it is in and those another client broadcasts, in the order of the
    commands, each once, none from a command that is not addressed to it and all from
    the commands that answered 0. If there is nothing left to send to it, and it
    then asks for all its messages, or for as many as there are, with memory for
    twice what it is sent, it reads from the network all that was queued
    before, these messages and the response, and nothing else: with a socket of
    this library, however the network cuts the bytes, or, on a WebSocket
    connection, by reading the frames as RFC 6455 says. *)
Theorem mail_is_delivered ls srv srv' boxes x box :
  server_view srv boxes → boxes !! x = Some box → trace ls srv srv' → Forall (leaves_mail x) ls →
  ∃ boxes' new, server_view srv' boxes' ∧ boxes' !! x = Some (box ++ new) ∧
    (∀ n, member srv' n x ↔ member srv n x) ∧ collected (λ n, member srv n x) x ls new ∧
    ∀ o env j bin n ws rb wsb,
      oracle_sane o → grants o (2 ^ b) → command_of j = "sync"%string →
      json_unpack_sI j "n" = Some n → n < 0 ∨ zlen (box ++ new) ≤ n < 2 ^ 63 →
      buffers srv' x ws rb [] wsb →
      2 * (zlen (wires ws (box ++ new)) + 46) ≤ 2 ^ b →
      let all := box ++ new ++ [(status0, [])] in
      wp (dispatch strerror o env x j bin) srv' (λ rc srv2,
        rc = 0 ∧ server_view srv2 (<[x := []]> boxes') ∧
        buffers srv2 x ws rb (wires ws all) wsb ∧ reads_all ws (wires ws all) all).
Proof.
  intros Hv Hbox Hrun Hls.
  destruct (trace_mail (λ n, member srv n x) x ls srv srv' Hrun (View boxes (member srv)) box)
    as (v' & new & [Hv' Hm'] & Hmem & Hnew & Hbox'); [by split|done..|].
  exists (vw_boxes v'), new. split; [done|]. split; [done|]. split.
  { intros n. by rewrite <-Hm', <-Hmem. }
  split; [done|]. intros o env j bin n ws rb wsb Hs Hg Hj Hn Hneg Hbuf Hfit all.
  rewrite (dispatch_sync strerror _ _ _ _ _ Hj).
  eapply wp_mono; [apply (wp_sync strerror o x j n srv' (vw_boxes v') (box ++ new) ws rb [] wsb);
    try done; lia|].
  intros rc srv2 (_ & _ & k & _ & Hv2 & Hk & Hsync).
  assert (sync_count n (box ++ new) = length (box ++ new)) as Hcount.
  { unfold sync_count. unfold zlen in Hneg. destruct (Z.ltb_spec n 0); lia. }
  rewrite Hcount, firstn_all in Hsync.
  destruct (Hsync Hg Hbuf) as [-> Hbuf2]; [rewrite zlen_nil; lia|].
  rewrite (Hk eq_refl), Hcount, drop_all in Hv2. split; [done|]. split; [done|]. split.
  - revert Hbuf2. unfold all, wires. rewrite !fmap_app, !concat_app. cbn [fmap list_fmap concat].
    by rewrite !app_nil_r, <-!app_assoc.
  - apply reads_wires. intros ->. unfold all. rewrite app_assoc.
    apply Forall_app. split; [|repeat constructor; by vm_compute].
    apply Forall_forall. intros m Hm.
    pose proof (zlen_in_wires true m (box ++ new) Hm) as Hlen.
    assert (2 ^ b ≤ 2 ^ 47) by (apply Z.pow_le_mono_r; lia). lia.
Qed.
End runs.

(** ** Witness *)

#[local] Existing Instance text_json.
#[local] Instance text_json_mail : @JanssonLaws text_json (2 ^ 22).
Proof. by apply text_json_laws. Qed.

(** One client broadcasts; the other asks for its messages and reads this one
    and the response. *)
Lemma mail_is_delivered_witness : ∃ srv srv' c,
  @server_trace text_json 22 "e"%string id id 1000 [Commanded c] srv srv' ∧
  let all := [(cmd_broadcast, [7; 8]); (status0, [])] in
  wp (@dispatch text_json "e"%string alloc_4M no_tls 1 (bytes_of "sync") []) srv' (λ rc srv2,
    rc = 0 ∧ buffers srv2 1 false [] (wires false all) [] ∧ reads_all false (wires false all) all).
Proof.
  destruct demo_exists as (srv & c0 & c1 & gid & g & Hd). destruct (demo_lookup Hd) as [H0 H1].
  assert (@command_ok text_json 22 cmd_broadcast [7; 8] srv) as Hcmd.
  { apply (demo_command _ _ _ _ _ _ _ Hd); [by vm_compute| |by vm_compute].
    repeat constructor; vm_compute; discriminate. }
  destruct (demo_posted _ _ _ _ _ cmd_broadcast [7; 8] Hd) as (srv' & _ & Hbuf & _ & _ & Hrun); [done..|].
  set (c := @Command text_json 0 cmd_broadcast [7; 8] 0).
  assert (@server_trace text_json 22 "e"%string id id 1000 [Commanded c] srv srv') as Htrace.
  { eapply trace_cons; [|apply trace_nil].
    eapply lab_command; [apply alloc_4M_sane|apply alloc_4M_grants|by rewrite H0|done|].
    instantiate (1 := no_tls). exact Hrun. }
  destruct (@mail_is_delivered text_json 22 _ "e"%string id id 1000 ltac:(lia) ltac:(lia) [Commanded c]
    srv srv' {[0 := []; 1 := []]} 1 []) as (boxes' & new & Hv & Hbox & _ & Hnew & Hsync).
  - apply (dm_view Hd).
  - reflexivity.
  - exact Htrace.
  - constructor; [|constructor]. intros Hx. discriminate.
  - exists srv, srv', c. split; [done|]. cbv zeta.
    assert (new = [(cmd_broadcast, [7; 8])]) as ->.
    { inversion Hnew as [|c' m ls ms Ha [[al Hm] Hb] Hn|l ls ms Hno Hn]; subst; inversion Hn; subst.
      - destruct m as [text bin]. simpl in Hm, Hb. subst bin.
        destruct (al _); [by injection Hm as <-|done].
      - destruct (Hno c eq_refl eq_refl). right. split; [by vm_compute|done]. }
    eapply wp_mono; [apply (Hsync alloc_4M no_tls (bytes_of "sync") [] 115 false [] [] alloc_4M_sane
      alloc_4M_grants); [by vm_compute|done| |exact Hbuf|]|].
    + right. split; [by vm_compute|done].
    + by vm_compute.
    + intros rc srv2 (-> & _ & Hb & Hr). by split_and!.
Defined.
