(* ===== verification/Addr.v ===== *)
(** * The text of a client's address ([server/client.c])

    [dime_client_init] prints the address of the peer into an array of 40, 22
    or 14 bytes. Of [inet_ntop] the IPv4 text is written out; the text of an
    IPv6 address is the argument [ntop6]. The machine is little-endian. *)

From S2P Require Import Prelude Json WebSocket Log State Client.
From Stdlib Require String DecimalString DecimalPos DecimalFacts DecimalZ.

Local Open Scope string_scope.
Local Open Scope Z_scope.

(** ** The length of a printed number *)

Lemma of_uint_acc_ge u : ∀ acc,
  Z.pos acc * 10 ^ Z.of_nat (Decimal.nb_digits u) ≤ Z.pos (Pos.of_uint_acc u acc).
Proof.
  induction u; intros acc; cbn [Decimal.nb_digits Pos.of_uint_acc]; [lia|..];
    rewrite Nat2Z.inj_succ, Z.pow_succ_r by lia;
    (etransitivity; [|apply IHu]); nia.
Qed.

Lemma to_uint_norm p : Decimal.unorm (Pos.to_uint p) = Pos.to_uint p.
Proof.
  pose proof (DecimalPos.Unsigned.to_of (Pos.to_uint p)) as Ht.
  rewrite DecimalPos.Unsigned.of_to in Ht. symmetry. exact Ht.
Qed.

(** A number has as many digits as it needs. *)
Lemma to_uint_digits p :
  10 ^ (Z.of_nat (Decimal.nb_digits (Pos.to_uint p)) - 1) ≤ Z.pos p.
Proof.
  pose proof (DecimalPos.Unsigned.of_to p) as Hof. pose proof (to_uint_norm p) as Hn.
  destruct (Pos.to_uint p) as [|u|u|u|u|u|u|u|u|u|u] eqn:E; [done|..].
  { exfalso. assert (u = Decimal.Nil ∨ u ≠ Decimal.Nil) as [->|Hne]
      by (destruct u; auto; right; discriminate); [discriminate|].
    pose proof (DecimalFacts.nb_digits_unorm u Hne) as Hle.
    change (Decimal.unorm (Decimal.D0 u)) with (Decimal.unorm u) in Hn. rewrite Hn in Hle.
    cbn [Decimal.nb_digits] in Hle. lia. }
  all: cbn [Pos.of_uint] in Hof; injection Hof as <-; etransitivity; [|apply of_uint_acc_ge];
    cbn [Decimal.nb_digits]; rewrite Nat2Z.inj_succ, <-Z.add_1_r, Z.add_simpl_r; lia.
Qed.

Lemma string_of_uint_length u :
  String.length (DecimalString.NilEmpty.string_of_uint u) = Decimal.nb_digits u.
Proof. induction u; simpl; congruence. Qed.

Lemma print_d_length z k : 0 ≤ z < 10 ^ k → 1 ≤ k → zlen (print_d z) ≤ k.
Proof.
  intros Hz Hk. unfold print_d. rewrite zlen_bytes_of. destruct z as [|p|]; [cbn; lia| |lia].
  cbn [Z.to_int DecimalString.NilZero.string_of_int].
  pose proof (to_uint_digits p) as Hd. unfold DecimalString.NilZero.string_of_uint.
  assert (Z.of_nat (Decimal.nb_digits (Pos.to_uint p)) ≤ k) as Hle.
  { destruct (decide (Z.of_nat (Decimal.nb_digits (Pos.to_uint p)) ≤ k)); [done|].
    assert (10 ^ k ≤ 10 ^ (Z.of_nat (Decimal.nb_digits (Pos.to_uint p)) - 1)); [|lia].
    apply Z.pow_le_mono_r; lia. }
  destruct (Pos.to_uint p) eqn:E; [cbn; lia|..]; by rewrite string_of_uint_length.
Qed.

(** ** The addresses *)

(** [struct sockaddr]: the bytes of the address and the port, in the byte order
    of the host, or another family. *)
Inductive sockaddr :=
  | In6 (addr : list Z) (port : Z)
  | In4 (addr : list Z) (port : Z)
  | Other.

Definition family (sa : sockaddr) : address_family :=
  match sa with In6 _ _ => AF_INET6 | In4 _ _ => AF_INET | Other => AF_OTHER end.

(** [htons]: the field [sin_port], read as a number of the host. *)
Definition htons (p : Z) : Z := 256 * (p mod 256) + p / 256.

(** [inet_ntop] for an IPv4 address: its bytes, in decimal. *)
Fixpoint dotted (bs : list Z) : list Z :=
  match bs with
  | [] => []
  | [b] => print_d b
  | b :: bs => print_d b ++ 46 :: dotted bs
  end%list.

Section address.
Context (ntop6 : list Z → list Z).

(** The array that [inet_ntop] fills: it is left as it is if the text and its
    terminator do not fit. *)
Definition inet_ntop (text : list Z) (size : Z) : option (list Z) :=
  if zlen text <? size then Some text else None.

(** The text of [clnt->addr]; the answer of [inet_ntop] is not looked at. *)
Definition client_addr (fd : Z) (sa : sockaddr) : outcome (list Z) :=
  match sa with
  | In6 addr port =>
      match inet_ntop (ntop6 addr) 34 with
      | Some tmp => vsnprintf 40 (bytes_of "%s:%hu") [ArgStr tmp; ArgInt (htons port)]
      | None => Undef
      end
  | In4 addr port =>
      match inet_ntop (dotted addr) 16 with
      | Some s => vsnprintf 22 (bytes_of "%s:%hu") [ArgStr s; ArgInt (htons port)]
      | None => Undef
      end
  | Other => vsnprintf 14 (bytes_of "fd %d") [ArgInt fd]
  end.

(** ** Properties *)

Definition byte (b : Z) : Prop := 0 ≤ b < 256.

Definition addr_ok (sa : sockaddr) : Prop :=
  match sa with
  | In6 addr port => Forall byte addr ∧ length addr = 16%nat ∧ 0 ≤ port < 2 ^ 16
  | In4 addr port => Forall byte addr ∧ length addr = 4%nat ∧ 0 ≤ port < 2 ^ 16
  | Other => True
  end.

(** The whole text, whatever the size of the arrays. *)
Definition full_addr (fd : Z) (sa : sockaddr) : list Z :=
  match sa with
  | In6 addr port => ntop6 addr ++ 58 :: print_d (htons port)
  | In4 addr port => dotted addr ++ 58 :: print_d (htons port)
  | Other => bytes_of "fd " ++ print_d fd
  end%list.

(** The text of an IPv6 address has to fit into 34 bytes. *)
Definition addr_fits (sa : sockaddr) : Prop :=
  match sa with In6 addr _ => zlen (ntop6 addr) < 34 | _ => True end.

Lemma htons_u16 p : 0 ≤ p < 2 ^ 16 → 0 ≤ htons p < 2 ^ 16.
Proof. unfold htons. intros Hp. Z.to_euclidean_division_equations. lia. Qed.

Lemma htons_fixed p : 0 ≤ p < 2 ^ 16 → htons p = p ↔ p / 256 = p mod 256.
Proof. unfold htons. intros Hp. Z.to_euclidean_division_equations. lia. Qed.

Lemma byte_length b : byte b → zlen (print_d b) ≤ 3.
Proof. intros Hb. apply print_d_length; unfold byte in Hb; lia. Qed.

Lemma port_length p : 0 ≤ p < 2 ^ 16 → zlen (print_d (htons p)) ≤ 5.
Proof. intros Hp%htons_u16. apply print_d_length; lia. Qed.

Lemma dotted_length bs :
  Forall byte bs → length bs = 4%nat → zlen (dotted bs) ≤ 15.
Proof.
  intros Hall Hlen. do 5 (destruct bs as [|? bs]; simplify_eq/=).
  decompose_Forall_hyps. repeat (rewrite zlen_app || rewrite zlen_cons).
  repeat match goal with H : byte _ |- _ => apply byte_length in H end. lia.
Qed.

(** [snprintf] of a text that fits into the array. *)
Lemma vsnprintf_fits (n : nat) fmt args s :
  c_format false fmt args = Some s → zlen s < Z.of_nat n → vsnprintf n fmt args = Ret s.
Proof.
  intros Hf Hlen. unfold vsnprintf. rewrite Hf. f_equal. apply take_ge. unfold zlen in Hlen. lia.
Qed.

Lemma format_port t p :
  0 ≤ p → c_format false (bytes_of "%s:%hu") [ArgStr t; ArgInt p] = Some (t ++ 58 :: print_d p)%list.
Proof.
  intros Hp. change (bytes_of "%s:%hu") with [37; 115; 58; 37; 104; 117]. cbn.
  rewrite (proj2 (Z.leb_le _ _) Hp). cbn. by rewrite app_nil_r.
Qed.

Lemma inet_ntop_fits t n : zlen t < n → inet_ntop t n = Some t.
Proof. intros Hlen. unfold inet_ntop. by rewrite (proj2 (Z.ltb_lt _ _) Hlen). Qed.

(** C30: the text of a client's address is complete: the arrays, of the sizes
    that [dime_client_init] asks for, are never too short for the address,
    the port and the terminator, so that [snprintf] cuts nothing off. The one
    exception is an IPv6 address of 34 characters or more, of which an
    indeterminate array is printed. The port is that of the peer only if its
    two bytes are the same. *)
Theorem addresses_are_complete fd sa :
  0 ≤ fd < 2 ^ 31 → addr_ok sa →
  (addr_fits sa →
    client_addr fd sa = Ret (full_addr fd sa) ∧
    zlen (full_addr fd sa) < addr_size (family sa)) ∧
  (¬ addr_fits sa → client_addr fd sa = Undef) ∧
  (∀ addr port, sa = In6 addr port ∨ sa = In4 addr port →
    htons port = port ↔ port / 256 = port mod 256).
Proof.
  intros Hfd Hok. destruct sa as [addr port|addr port|];
    cbn [addr_ok addr_fits client_addr full_addr addr_size family] in *.
  - destruct Hok as (_ & _ & Hp). pose proof (port_length _ Hp). pose proof (htons_u16 _ Hp).
    split_and!.
    + intros Hlen. rewrite inet_ntop_fits by done. split.
      * apply vsnprintf_fits; [apply format_port; lia|]. rewrite zlen_app, zlen_cons. lia.
      * rewrite zlen_app, zlen_cons. lia.
    + intros Hlen. unfold inet_ntop. by rewrite (proj2 (Z.ltb_ge _ _)) by lia.
    + intros a p [[= -> ->]|[=]]. by apply htons_fixed.
  - destruct Hok as (Hb & Hl & Hp). pose proof (port_length _ Hp). pose proof (htons_u16 _ Hp).
    pose proof (dotted_length _ Hb Hl). rewrite inet_ntop_fits by lia. split_and!.
    + intros _. split.
      * apply vsnprintf_fits; [apply format_port; lia|]. rewrite zlen_app, zlen_cons. lia.
      * rewrite zlen_app, zlen_cons. lia.
    + done.
    + intros a p [[=]|[= -> ->]]. by apply htons_fixed.
  - pose proof (print_d_length fd 10) as Hd. split_and!; [|done|by intros ?? [[=]|[=]]].
    intros _. rewrite zlen_app. change (zlen (bytes_of "fd ")) with 3. split; [|lia].
    apply vsnprintf_fits.
    + change (bytes_of "fd %d") with [102; 100; 32; 37; 100]. cbn. by rewrite app_nil_r.
    + rewrite zlen_app. change (zlen (bytes_of "fd ")) with 3. lia.
Qed.
End address.

(** The IPv4 address 192.168.100.200 with port 5000, of which 34835 is printed. *)
Lemma addresses_are_complete_witness :
  client_addr id 7 (In4 [192; 168; 100; 200] 5000) = Ret (bytes_of "192.168.100.200:34835") ∧
  client_addr id 7 (In6 (repeat 50 34) 5000) = Undef.
Proof.
  split.
  - apply (addresses_are_complete id 7 (In4 [192; 168; 100; 200] 5000)); [lia| |done].
    repeat constructor; lia.
  - unfold client_addr, inet_ntop. by vm_compute.
Defined.
