(* ===== verification/Matlab.v ===== *)
(** * The MATLAB client's helpers ([client/matlab/*.c])

    Four MEX functions connect to the server, close the connection, and send
    and receive bytes. MATLAB's C interface is not part of the repository: it
    is a type class of the calls that are made, with what they promise; what
    the system answers is an argument. [mexErrMsgTxt] does not return. *)

From S2P Require Import Prelude Bytes Ringbuffer Json Socket SocketSpec SocketStream SocketProps.
From S2P Require Import State Client Server Setup SetupProps.
From Stdlib Require String.

(** A conversion to [int]. *)
Definition i32 (z : Z) : Z := (z + 2 ^ 31) mod 2 ^ 32 - 2 ^ 31.

(** Arrays: whether the class is int64, the size, the data as bytes and as
    integers of 64 bits, the scalar as a [size_t] if it fits, the text, and
    the two kinds of arrays the functions make. *)
Class Mex := {
  mxArray : Type;
  mxIsInt64 : mxArray → bool;
  mxGetM : mxArray → Z;
  mxGetN : mxArray → Z;
  mxGetElementSize : mxArray → Z;
  mxBytes : mxArray → list Z;
  mxInt64s : mxArray → list Z;
  mxSize : mxArray → option Z;
  mxArrayToString : mxArray → option (list Z);
  mxInt64Scalar : Z → mxArray;
  mxUint8Row : list Z → mxArray;
}.

Inductive mex_result (A : Type) := MexReturn (plhs : A) | MexError.
Arguments MexReturn {A} plhs.
Arguments MexError {A}.

Section mex.
Context `{Mex}.

(** The check of the first argument and its value as a descriptor. *)
Definition fd_arg (a : mxArray) : outcome (option Z) :=
  if negb (mxIsInt64 a) || negb (mxGetM a =? 1) || negb (mxGetN a =? 1) then Ret None
  else match mxInt64s a with x :: _ => Ret (Some (i32 x)) | [] => Undef end.

(** ** [sunconnect] *)

(** What [socket] and [connect] to a path answer. *)
Definition sunconnect (socket : Z) (connect : list Z → bool) (open : gset Z) (prhs : list mxArray)
    : mex_result mxArray * gset Z :=
  match prhs with
  | [a] =>
      match mxArrayToString a with
      | None => (MexError, open)
      | Some filename =>
          if socket <? 0 then (MexError, open)
          else
            let open := {[socket]} ∪ open in
            if connect (sun_path filename) then (MexReturn (mxInt64Scalar socket), open)
            else (MexError, open ∖ {[socket]})
      end
  | _ => (MexError, open)
  end.

(** ** [sunclose] *)

Definition sunclose (shutdown close : Z → bool) (open : gset Z) (prhs : list mxArray)
    : outcome (mex_result () * gset Z) :=
  match prhs with
  | [a] =>
      fd ← fd_arg a;
      match fd with
      | None => Ret (MexError, open)
      | Some fd =>
          if shutdown fd then
            if close fd then Ret (MexReturn (), open ∖ {[fd]}) else Ret (MexError, open)
          else Ret (MexError, open)
      end
  | _ => Ret (MexError, open)
  end.

(** ** [sunsend] *)

(** One turn of the loop: the number of calls of [send] so far, [n], [data]
    and the pieces that have been sent. *)
Definition sunsend_step (send : nat → list Z → Z) (st : nat * Z * list Z * list (list Z))
    : outcome (nat * Z * list Z * list (list Z) + bool * list (list Z)) :=
  let '(k, n, data, out) := st in
  if 0 <? n then
    if n <=? zlen data then
      let m := send k (take (Z.to_nat n) data) in
      if m <? 0 then Ret (inr (false, out))
      else Ret (inl (S k, u64 (n - m), drop (Z.to_nat m) data, out ++ [take (Z.to_nat m) data]))
    else Undef
  else Ret (inr (true, out)).

(** The last argument and the last part of the answer are the handler of
    [SIGPIPE]; [ignore] is [SIG_IGN]. A blocking [send] takes at least one
    byte. *)
Definition sunsend {handler : Type} (ignore : handler) (send : Z → handler → nat → list Z → Z)
    (sigpipe : handler) (prhs : list mxArray)
    : outcome (mex_result () * list (list Z) * handler) :=
  match prhs with
  | [a; d] =>
      fd ← fd_arg a;
      match fd with
      | None => Ret (MexError, [], sigpipe)
      | Some fd =>
          let n := u64 (u64 (mxGetM d * mxGetN d) * mxGetElementSize d) in
          let saved := sigpipe in
          let sigpipe := ignore in
          '(ok, out) ← loop (sunsend_step (send fd sigpipe)) (S (Z.to_nat n)) (0%nat, n, mxBytes d, []);
          let sigpipe := saved in
          Ret (if ok : bool then MexReturn () else MexError, out, sigpipe)
      end
  | _ => Ret (MexError, [], sigpipe)
  end.

(** ** [sunrecv] *)

(** [recv] with [MSG_WAITALL]. *)
Definition sunrecv (recv : Z → Z → option (list Z)) (prhs : list mxArray)
    : outcome (mex_result mxArray) :=
  match prhs with
  | [a; s] =>
      fd ← fd_arg a;
      match fd with
      | None => Ret MexError
      | Some fd =>
          match mxSize s with
          | None => Undef
          | Some n =>
              match recv fd n with
              | None => Ret MexError
              | Some buf => if zlen buf <? n then Ret MexError else Ret (MexReturn (mxUint8Row buf))
              end
          end
      end
  | _ => Ret MexError
  end.

(** ** Properties *)

(** What MATLAB promises of the arrays the functions make. *)
Class MexLaws : Prop := {
  scalar_int64 z : mxIsInt64 (mxInt64Scalar z) = true ∧ mxGetM (mxInt64Scalar z) = 1 ∧
    mxGetN (mxInt64Scalar z) = 1 ∧ mxInt64s (mxInt64Scalar z) = [z];
}.
Context `{!MexLaws}.

(** An array in memory. *)
Record in_memory (d : mxArray) : Prop := {
  im_nonneg : 0 ≤ mxGetM d ∧ 0 ≤ mxGetN d ∧ 0 ≤ mxGetElementSize d;
  im_small : mxGetM d * mxGetN d < 2 ^ 64 ∧ mxGetM d * mxGetN d * mxGetElementSize d < 2 ^ 64;
  im_size : zlen (mxBytes d) = mxGetM d * mxGetN d * mxGetElementSize d;
}.

Lemma i32_small z : - 2 ^ 31 ≤ z < 2 ^ 31 → i32 z = z.
Proof. intros Hz. unfold i32. rewrite Z.mod_small by lia. lia. Qed.

Lemma fd_arg_scalar fd : 0 ≤ fd < 2 ^ 31 → fd_arg (mxInt64Scalar fd) = Ret (Some fd).
Proof.
  intros Hfd. unfold fd_arg. destruct (scalar_int64 fd) as (-> & -> & -> & ->). simpl.
  by rewrite i32_small by lia.
Qed.

Lemma data_size d :
  in_memory d → u64 (u64 (mxGetM d * mxGetN d) * mxGetElementSize d) = zlen (mxBytes d).
Proof.
  intros [(? & ? & ?) [? ?] ->]. rewrite (u64_small (mxGetM d * mxGetN d)) by nia.
  rewrite u64_small by nia. done.
Qed.

(** What a blocking [send] answers. *)
Definition send_answers (send : nat → list Z → Z) : Prop :=
  ∀ k buf, buf ≠ [] → send k buf < 0 ∨ 1 ≤ send k buf ≤ zlen buf.

Lemma sunsend_loop send fuel : ∀ k data out,
  send_answers send → zlen data < 2 ^ 64 → (Z.to_nat (zlen data) < fuel)%nat →
  Forall (λ p, p ≠ []) out →
  ∃ ok out' rest, loop (sunsend_step send) fuel (k, zlen data, data, out) = Ret (ok, out') ∧
    concat out ++ data = concat out' ++ rest ∧ Forall (λ p, p ≠ []) out' ∧
    (ok = true ↔ rest = []) ∧ ((∀ k buf, 0 ≤ send k buf) → ok = true).
Proof.
  induction fuel as [|fuel IH]; intros k data out Hsend Hlen Hfuel Hout; [lia|].
  cbn [loop sunsend_step]. destruct (Z.ltb_spec 0 (zlen data)) as [Hpos|Hnil].
  2:{ exists true, out, data. assert (data = []) as -> by (destruct data; [done|zlia]).
      by split_and!. }
  rewrite Z.leb_refl. rewrite take_ge by (unfold zlen; lia).
  assert (data ≠ []) as Hne by by intros ->. set (m := send k data).
  destruct (Z.ltb_spec m 0) as [Hneg|Hge].
  { exists false, out, data. split_and!; try done. intros Hall. specialize (Hall k data). lia. }
  destruct (Hsend k data Hne) as [|Hm]; [lia|]. fold m in Hm. cbn [mbind outcome_bind].
  assert (u64 (zlen data - m) = zlen (drop (Z.to_nat m) data)) as ->.
  { rewrite zlen_drop by lia. rewrite u64_small; lia. }
  destruct (IH (S k) (drop (Z.to_nat m) data) (out ++ [take (Z.to_nat m) data]))
    as (ok & out' & rest & -> & Heq & Hne' & Hok & Hall); try done.
  - rewrite zlen_drop; lia.
  - rewrite zlen_drop; lia.
  - apply Forall_app. split; [done|]. constructor; [|done]. intros Ht.
    apply (f_equal zlen) in Ht. rewrite zlen_take in Ht. change (zlen (@nil Z)) with 0 in Ht. lia.
  - exists ok, out', rest. split; [done|]. split; [|done].
    rewrite <-Heq, concat_app. cbn [concat]. by rewrite app_nil_r, <-app_assoc, take_drop.
Qed.

Context `{Jansson}.

(** C31: a MATLAB client connects, talks to the server and closes. The array
    that [sunconnect] gives is the descriptor for the other functions.
    [sunsend] returns; unless [send] fails it has given the whole array to the
    network, in order, and a socket of the server, with memory for twice the
    bytes, that reads these pieces gets exactly the messages the array consists
    of; if [send] fails, a part from the front has been sent and an error is
    raised; the handler of [SIGPIPE] is what it was. [sunrecv] gives exactly as
    many bytes as asked for, or raises an error if the stream ends before.
    [sunclose], if [shutdown] and [close] succeed, leaves the descriptors open
    that were open before the connection. *)
Theorem matlab_session {handler : Type} (ignore sigpipe : handler) o limit fd peer
    socket connect open open' f a d ms ds send :
  oracle_sane o → grants o limit → RECVBUFLEN ≤ limit → 2 ^ 32 ≤ limit →
  dime_socket_init (sub o 0) fd = (0, peer) →
  socket < 2 ^ 31 → socket ∉ open → sunconnect socket connect open [f] = (MexReturn a, open') →
  in_memory d → mxBytes d = concat (msg_bytes <$> ms) → Forall2 decodes ms ds →
  2 * zlen (mxBytes d) ≤ limit → send_answers (send socket ignore) →
  (∃ r out rest, sunsend ignore send sigpipe [a; d] = Ret (r, out, sigpipe) ∧
     mxBytes d = concat out ++ rest ∧ (r = MexReturn () ↔ rest = []) ∧
     ((∀ k buf, 0 ≤ send socket ignore k buf) → r = MexReturn ()) ∧
     (r = MexReturn () → ∃ peer', receive_all (sub o 1) peer out = Ret (0, ds, peer') ∧
        sock_rep peer' [] [] [])) ∧
  (∀ s n stream recv, mxSize s = Some n → 0 ≤ n →
     recv socket n = Some (take (Z.to_nat n) stream) →
     sunrecv recv [a; s] = Ret (if n <=? zlen stream
                                then MexReturn (mxUint8Row (take (Z.to_nat n) stream))
                                else MexError)) ∧
  ∀ shutdown close, shutdown socket = true → close socket = true →
    sunclose shutdown close open' [a] = Ret (MexReturn (), open).
Proof.
  intros Hs Hg Hrecv Hlim Hinit Hsock Hopen Hconn Hmem Hd Hds Hsize Hsend.
  assert (0 ≤ socket ∧ a = mxInt64Scalar socket ∧ open' = {[socket]} ∪ open) as (Hpos & -> & ->).
  { revert Hconn. unfold sunconnect. destruct (mxArrayToString f) as [path|]; [|done].
    destruct (Z.ltb_spec socket 0); [done|]. destruct (connect _); [|done]. by intros [= <- <-]. }
  pose proof (fd_arg_scalar socket ltac:(lia)) as Hfd. split_and!.
  - unfold sunsend. rewrite Hfd. cbn [mbind outcome_bind]. rewrite data_size by done.
    pose proof (grants_limit _ _ Hs Hg) as Hmax. unfold MAXOBJ in Hmax.
    destruct (sunsend_loop (send socket ignore) (S (Z.to_nat (zlen (mxBytes d)))) 0%nat (mxBytes d) [])
      as (ok & out & rest & -> & Heq & Hne & Hok & Hall); [done|lia|lia|done|].
    cbn [mbind outcome_bind]. eexists _, out, rest. split; [reflexivity|].
    split; [exact Heq|]. destruct ok; cycle 1.
    { split; [split; [done|]|split; [|done]].
      - intros Hr. by apply Hok in Hr.
      - intros H'. by apply Hall in H'. }
    assert (rest = []) as -> by by apply Hok. split_and!; try done. intros _.
    rewrite app_nil_r in Heq. simpl in Heq.
    eapply peer_reads; [done..|by rewrite <-Heq|exact Hds|by rewrite <-Heq].
  - intros s n stream recv Hn Hn0 Hr. unfold sunrecv. rewrite Hfd. cbn [mbind outcome_bind].
    rewrite Hn, Hr, zlen_take. pose proof (zlen_nonneg stream).
    destruct (Z.leb_spec n (zlen stream)).
    + by rewrite (proj2 (Z.ltb_ge _ _)) by lia.
    + by rewrite (proj2 (Z.ltb_lt _ _)) by lia.
  - intros shutdown close Hsh Hcl. unfold sunclose. rewrite Hfd. cbn [mbind outcome_bind].
    rewrite Hsh, Hcl. by rewrite open_close.
Qed.
End mex.

(** ** Witness *)

(** Rows of bytes, integers and texts. *)
Inductive demo_array := DemoBytes (l : list Z) | DemoInt (z : Z) | DemoText (l : list Z).

#[local] Instance demo_mex : Mex := {|
  mxArray := demo_array;
  mxIsInt64 a := match a with DemoInt _ => true | _ => false end;
  mxGetM _ := 1;
  mxGetN a := match a with DemoBytes l | DemoText l => zlen l | DemoInt _ => 1 end;
  mxGetElementSize a := match a with DemoInt _ => 8 | _ => 1 end;
  mxBytes a := match a with DemoBytes l | DemoText l => l | DemoInt z => be64 z end;
  mxInt64s a := match a with DemoInt z => [z] | _ => [] end;
  mxSize a := match a with DemoInt z => Some z | _ => None end;
  mxArrayToString a := match a with DemoText l => Some l | _ => None end;
  mxInt64Scalar := DemoInt;
  mxUint8Row := DemoBytes;
|}.

#[local] Instance demo_mex_laws : MexLaws.
Proof. by split. Qed.

(** [send] takes three bytes at most. *)
Definition three_at_most (fd : Z) (handler : bool) (k : nat) (buf : list Z) : Z :=
  Z.min 3 (zlen buf).

Definition demo_message : list Z * list Z := ([123; 125], [7]).

Lemma matlab_session_witness :
  sunconnect 4 (λ _, true) ∅ [DemoText [47; 120]] = (MexReturn (DemoInt 4), {[4]} ∪ ∅) ∧
  ∃ out peer', sunsend true three_at_most false [DemoInt 4; DemoBytes (msg_bytes demo_message)]
      = Ret (MexReturn (), out, false) ∧
    @receive_all text_json (sub alloc_1T 1) (demo_socket (sub alloc_1T 0)) out
      = Ret (0, [demo_message], peer').
Proof.
  split; [reflexivity|].
  destruct (@matlab_session demo_mex _ text_json bool true false alloc_1T (2 ^ 40) 5
    (demo_socket (sub alloc_1T 0)) 4 (λ _, true) ∅ ({[4]} ∪ ∅) (DemoText [47; 120]) (DemoInt 4)
    (DemoBytes (msg_bytes demo_message)) [demo_message] [demo_message] three_at_most
    alloc_1T_sane alloc_1T_grants)
    as [(r & out & rest & Hrun & _ & _ & Hok & Hpeer) _];
    [vm_compute; discriminate..|reflexivity|reflexivity|apply not_elem_of_empty|reflexivity
    |split; [split_and!|split|]; vm_compute; (discriminate || reflexivity)|reflexivity| |vm_compute; discriminate| |].
  - repeat (constructor; [vm_compute; (exact I || discriminate || split_and!; reflexivity)|]). constructor.
  - intros k buf Hne. right. unfold three_at_most. destruct buf; [done|]. zlia.
  - rewrite Hok in Hrun, Hpeer; [|intros k buf; unfold three_at_most; pose proof (zlen_nonneg buf); lia..].
    destruct (Hpeer eq_refl) as (peer' & Hrecv & _). exists out, peer'. split; [exact Hrun|exact Hrecv].
Defined.
